(* ===== verification/_CoqProject ===== *)
-Q . S2P
Prelude.v
GoLib.v
Keyenc.v
Backend.v
Batches.v
Memory.v
Jsonscan.v
Jsonwords.v
Jsongrammar.v
Jsonobject.v
Jmap.v
Descriptor.v
Keys.v
ObjectDB.v
SetIndex.v
Commit.v
Indexing.v
CommitFacts.v
Instances.v
CommitIndex.v
Reach.v
CommitLog.v
Visible.v
Typed.v
Queries.v
Changes.v
ChangesFacts.v
History.v
WalkFacts.v
Blobs.v
BlobFacts.v
TrimFacts.v
Sorting.v
SortingFacts.v
Filter.v
Query.v
FilterFacts.v
EvalFacts.v
QueryFacts.v
SpliceFacts.v
AnchorFacts.v
Gotime.v
Lease.v
LeaseFacts.v
LeaseSafety.v
LeaseSole.v
LeaseLive.v
Patch.v
Standard.v
PatchFacts.v
SetFacts.v
SetRecords.v
GetFacts.v
CreateFacts.v
PointerFacts.v
Utf8.v
Frame.v
FrameMask.v
FrameText.v
FrameSpec.v
FrameFacts.v
FrameNext.v
FrameBounds.v
FrameWrite.v
Request.v
RequestFacts.v
