(* ===== verification/Prelude.v ===== *)
(** * naust-jmap: a verification development

    naust-jmap is a framework for JMAP servers.  A client's request is a list
    of method calls; the runtime derives Foo/get, Foo/changes, Foo/set,
    Foo/query and Foo/queryChanges for every declared object type and runs
    them over an object database, which keeps records, indexes and a change
    log in an ordered key-value store behind a small interface.  One writer at
    a time per account is arranged by leases, whose fences travel in the same
    atomic batch as the data.

    This library models that core in Gallina, from the byte encodings up to
    the standard methods, and proves what makes each layer correct.  Every
    definition that stands for code is executable; the examples of the
    witnesses run on a concrete in-memory store.

    ** The layers and their files

    - Prelude, GoLib: bytes, results, errors and the shared automation
      (tactic and hint database [naust], [Create HintDb wp] in SetFacts);
      integers at their width, [strconv], UTF-8, [bytes.TrimSpace], dates.
    - Keyenc (core/internal/keyenc): the order-preserving encoding of key
      segments and prefix ranges.
    - Backend, Batches (core/providers/backend): the storage contract as a
      class [Backend] of operations with its laws [BackendLaws]: ordered
      scans, and atomic batches of sets, deletes, adds and assertions.
      Everything above is proved against the class.
    - Memory (core/providers/backend/memory): the in-memory store, an instance
      that discharges the laws; its chunked scan interleaved with commits.
    - Jsonscan, Jsonwords, Jsongrammar, Jsonobject (core/internal/jsonscan,
      core/objectdb/objcodec.go): the one-pass scanner with its word-at-a-time
      skips, its equivalence with the RFC 8259 grammar within the depth bound,
      and the record decoders and encoder.
    - Jmap, Descriptor (core/jmap/types.go, core/descriptor): ids, id schemes,
      value ranges; property declarations and the checks on values.
    - Keys, ObjectDB, SetIndex, Commit (core/objectdb): the key layout, index
      values, record reads, the [Update] and its methods (state passing over
      the record [Update]), and the batch a commit builds.
    - Indexing, CommitFacts, CommitIndex, Reach, CommitLog, Visible, Typed: a
      commit keeps indexes, references, log and states in step with the
      records.  [reach] is every sequence of Update methods; [account_reach]
      every store an account can get to.
    - Queries: equality, range and membership lookups are exact.
    - Changes, ChangesFacts, History, WalkFacts, TrimFacts
      (changes.go, changedids.go, trim.go): the log answers exactly the
      difference between two moments, with paging and after trimming.
    - Blobs, BlobFacts (blobs.go): upload records, the sweep and its hints.
    - Sorting, Filter, Query with SortingFacts, FilterFacts, EvalFacts,
      QueryFacts, SpliceFacts, AnchorFacts (core/runtime/query.go): filter
      parsing, the index planner, projected evaluation, bounded selection,
      windows and anchors, and Foo/queryChanges.
    - Gotime, Lease with LeaseFacts, LeaseSafety, LeaseSole, LeaseLive
      (core/providers/lease): the in-process and the store lease managers as
      a machine over explicit interleavings of calls and clock readings.
    - Patch, Standard with PatchFacts, PointerFacts, SetFacts, SetRecords,
      GetFacts, CreateFacts (core/runtime/standard.go, hooks of ext.go): Foo/get,
      Foo/changes and Foo/set.  The function a Foo/set runs under the lease
      is a state-and-error computation over the captured response, creation
      ids and Update.
    - Utf8, Frame with FrameMask, FrameText, FrameSpec, FrameFacts, FrameNext,
      FrameBounds, FrameWrite (capabilities/websocket/internal/frame): the
      websocket framing layer, whose methods are state-and-error computations
      over the [Reader]; FrameSpec is the RFC 6455 protocol on whole frames.
    - Instances and the [demo] sections: concrete parameters and a small
      database, on which the witnesses evaluate.

    ** What the theorems show

    Storage: keys sort as their segments do and ranges contain exactly their
    prefix; the memory store refines the abstract batch semantics, scans are
    exact and ordered even between commits, and the capacity is kept.
    JSON: the scanner accepts exactly the grammar; records survive encoding
    and decoding.  Database: a commit leaves exactly the staged records, with
    every index and reference present exactly when its record calls for it;
    stored records are typed; lookups return exactly the matching records;
    the log and the states describe exactly what changed, and Foo/changes
    reports exactly the difference between two stores.  Blobs: the sweep
    deletes only old unreferenced uploads and none escapes it.  Queries: the
    planner never loses a match, projection and bounded sorting change
    nothing, Foo/query answers the asked window, and splicing a queryChanges
    answer into an old list gives the new one.  Leases: a batch that passes
    its fence was built on an unchanged account, no two leases overlap, and a
    free lease is obtained.  Methods: Foo/get is determined by the stored
    records; Foo/set turns the records into exactly what its accepted
    creates, patches and destroys give, and answers every operation once.
    Framing: [Next] returns exactly the messages the frames on the stream make
    up, with word-wise unmasking and text checked as it arrives; a pause
    between frames loses nothing and one inside a frame is reported; and no
    stream makes the buffer outgrow its caps.
    Three theorems show defects: an anchored queryChanges and a read of the
    change log that races with a commit can mislead a client, and a null
    create fails the whole call.

    ** Parameters

    What the sources take from elsewhere is an argument: the order a map is
    ranged in ([MapRange], any permutation), [time.Parse] and
    [strings.ToLower] ([TimeParse], [CaseFold]), [encoding/json] over the log
    entry, the upload record, comparators and patches ([LogCodec],
    [UploadCodec], [ComparatorDecode], [JsonText]) with its laws where a proof
    needs them ([LogCodecLaws], [JsonTextLaws]), a backend's compare-and-swap
    ([CompareAndSwapper]), and a type's hooks.  An [io.Reader] is the bytes it
    will deliver and the error after them.  Instances gives concrete
    values, so the laws can hold.  Created ids are assumed new where a
    theorem says so: they carry 64 bits or more of [crypto/rand].

    ** Fuel

    Recursion that is not structural takes fuel, and running out is the
    distinct error [OutOfFuel] or is shown impossible: the JSON scanner gets
    two units per byte and three more ([skipValue_recognises] shows it is
    enough); member and element loops, chunked gets, scans and string loops
    get the length of their input; filter parsing gets the node budget
    ([parseFilter_bounded]); the dependency loop of creates gets one round
    more than there are creates ([create_rounds_enough]); selection and
    partition loops get the length of the slice; the frame loops get one round
    per byte and one per allocation chunk ([next_bounds]).

    ** Not modelled

    Network and process plumbing (HTTP handlers, websocket connections, event
    source, push delivery, the maintenance loop's scheduling), logging, configuration, the drivers
    for external databases (SQL text against third-party drivers), the mail
    data type and the MDN capability (MIME and SMTP over library parsers),
    and web push cryptography.  Argument decoding and response marshalling
    are taken as done: methods start from their decoded arguments.  Foo/copy,
    result references and the request processor are not modelled yet; they
    are the next steps, in that order. *)

From stdpp Require Export base tactics option list gmap sorting strings.
From Stdlib Require Export ZArith Lia.
From Stdlib Require Strings.Byte Strings.String.
Export (notations) Corelib.Init.Byte Stdlib.Strings.Byte.
Export Corelib.Init.Byte (byte(..)).

#[export] Set Default Goal Selector "!".
#[global] Open Scope Z_scope.

(** ** Bytes

    A Go [byte] is the standard inductive [byte]; arithmetic on it goes
    through [bz : byte -> Z] and the truncating conversion [zb], which is Go's
    [byte(x)]. *)

Abbreviation byte := Corelib.Init.Byte.byte.
Abbreviation bytes := (list byte).

Definition bz (b : byte) : Z := Z.of_N (Byte.to_N b).

Definition zb (z : Z) : byte :=
  match Byte.of_N (Z.to_N (z mod 256)) with
  | Some b => b
  | None => Byte.x00
  end.

#[global] Arguments bz : simpl never.
#[global] Arguments zb : simpl never.
#[global] Arguments Z.compare : simpl never.
#[global] Arguments Z.leb : simpl never.
#[global] Arguments Z.ltb : simpl never.
#[global] Arguments Z.eqb : simpl never.
#[global] Arguments Z.add : simpl never.
#[global] Arguments Z.sub : simpl never.
#[global] Arguments Z.mul : simpl never.
#[global] Arguments Z.pow : simpl never.
#[global] Arguments Z.div : simpl never.
#[global] Arguments Z.modulo : simpl never.
#[global] Arguments Nat.ltb : simpl never.
#[global] Arguments Nat.div : simpl never.
#[global] Arguments Nat.modulo : simpl never.

Infix "=b" := Byte.eqb (at level 70, no associativity).
Notation "'bs' s" := (String.list_byte_of_string s%string) (at level 8, s at level 0, only parsing).

Create HintDb naust discriminated.

Lemma bz_range b : 0 <= bz b < 256.
Proof. unfold bz. pose proof (Byte.to_N_bounded b). lia. Qed.

Lemma bz_inj a b : bz a = bz b -> a = b.
Proof.
  unfold bz. intros H%N2Z.inj.
  pose proof (Byte.of_to_N a) as Ha. pose proof (Byte.of_to_N b) as Hb.
  rewrite H in Ha. congruence.
Qed.

Lemma bz_zb z : bz (zb z) = z mod 256.
Proof.
  unfold bz, zb. pose proof (Z.mod_pos_bound z 256 ltac:(lia)).
  destruct (Byte.of_N _) as [b|] eqn:E.
  - apply Byte.to_of_N in E. lia.
  - apply Byte.of_N_None_iff in E. lia.
Qed.

Lemma zb_bz b : zb (bz b) = b.
Proof. apply bz_inj. rewrite bz_zb. apply Z.mod_small, bz_range. Qed.

Lemma bz_zb_small z : 0 <= z < 256 -> bz (zb z) = z.
Proof. intros. rewrite bz_zb. by apply Z.mod_small. Qed.

Lemma beqb_eq a b : (a =b b) = true <-> a = b.
Proof. split; [apply Byte.byte_dec_bl | apply Byte.byte_dec_lb]. Qed.

Lemma beqb_neq a b : (a =b b) = false <-> a <> b.
Proof. rewrite <- beqb_eq. by destruct (a =b b). Qed.

Lemma beqb_refl a : (a =b a) = true.
Proof. by apply beqb_eq. Qed.

Lemma beqb_bz a b : (a =b b) = (bz a =? bz b).
Proof.
  destruct (a =b b) eqn:E; symmetry.
  - apply beqb_eq in E as ->. lia.
  - apply beqb_neq in E. apply Z.eqb_neq. auto using bz_inj.
Qed.

#[export] Instance byte_eq_dec : EqDecision byte.
Proof. intros a b. destruct (a =b b) eqn:E; [left; by apply beqb_eq | right; by apply beqb_neq]. Defined.

#[export] Instance byte_countable : Countable byte.
Proof.
  refine (inj_countable Byte.to_N Byte.of_N _).
  exact Byte.of_to_N.
Defined.

(** [bsolve] closes goals about byte comparisons: it turns boolean tests and
    byte equalities into linear arithmetic over [bz]. *)
Ltac breflect :=
  repeat match goal with
  | H : context [Byte.eqb _ _] |- _ => rewrite beqb_bz in H
  | |- context [Byte.eqb _ _] => rewrite beqb_bz
  end.

Ltac brange :=
  repeat match goal with
  | b : byte |- _ =>
      lazymatch goal with
      | _ : 0 <= bz b < 256 |- _ => fail
      | _ => pose proof (bz_range b)
      end
  end.

(** ** Results: error paths as values *)

Inductive error :=
  (* core/providers/backend *)
  | BackendErrNotFound | ErrAssertFailed | ErrNoSpace | ErrCounterNot8Bytes
  (* core/internal/jsonscan *)
  | ErrBadJSON (msg : String.string)
  (* core/objectdb *)
  | ErrNotFound | ErrUnknownType | ErrCannotCalculateChanges
  | errUnknownKind | errBadIndexValue | errTimeParse
  | Errorf (msg : String.string)
  (* core/runtime *)
  | errStateMismatch
  (* an index or slice expression out of range: Go panics *)
  | Panic
  (* a fuelled loop of the model ran out of fuel; each such loop has a lemma
     that its callers' fuel is enough *)
  | OutOfFuel.

Inductive result (A : Type) := Ok (a : A) | Err (e : error).
Arguments Ok {A} _.
Arguments Err {A} _.

#[export] Instance result_ret : MRet result := fun A a => Ok a.
#[export] Instance result_bind : MBind result := fun A B f r =>
  match r with Ok a => f a | Err e => Err e end.
#[export] Instance result_fmap : FMap result := fun A B f r =>
  match r with Ok a => Ok (f a) | Err e => Err e end.

Definition is_ok {A} (r : result A) : bool := match r with Ok _ => true | Err _ => false end.

(** The value of a successful result. *)
Definition ok_or {A} (d : A) (r : result A) : A := match r with Ok a => a | Err _ => d end.

Lemma ok_or_eq {A} (d : A) r : is_ok r = true -> r = Ok (ok_or d r).
Proof. by destruct r. Qed.

Lemma result_bind_Ok {A B} (r : result A) (f : A -> result B) b :
  (r ≫= f) = Ok b <-> exists a, r = Ok a /\ f a = Ok b.
Proof. destruct r; cbn; naive_solver. Qed.

Lemma result_bind_Err {A B} (r : result A) (f : A -> result B) e :
  (r ≫= f) = Err e <-> r = Err e \/ exists a, r = Ok a /\ f a = Err e.
Proof. destruct r; cbn; naive_solver. Qed.

(** ** Byte-string order: [bytes.Compare] *)

Fixpoint bcompare (a b : bytes) : comparison :=
  match a, b with
  | [], [] => Eq
  | [], _ :: _ => Lt
  | _ :: _, [] => Gt
  | x :: a', y :: b' =>
      match bz x ?= bz y with
      | Eq => bcompare a' b'
      | c => c
      end
  end.

Definition blt (a b : bytes) : bool := match bcompare a b with Lt => true | _ => false end.
Definition ble (a b : bytes) : bool := match bcompare a b with Gt => false | _ => true end.
Definition bytes_le (a b : bytes) : Prop := ble a b = true.
Definition bytes_lt (a b : bytes) : Prop := blt a b = true.

Lemma bcompare_refl a : bcompare a a = Eq.
Proof. induction a as [|x a IH]; cbn; [done|]. by rewrite Z.compare_refl. Qed.

Lemma bcompare_eq a b : bcompare a b = Eq <-> a = b.
Proof.
  split; [|intros ->; apply bcompare_refl].
  revert b. induction a as [|x a IH]; intros [|y b]; cbn; try done.
  destruct (bz x ?= bz y) eqn:E; try done.
  apply Z.compare_eq, bz_inj in E as ->. intros H. f_equal. by apply IH.
Qed.

Lemma bcompare_antisym a b : bcompare b a = CompOpp (bcompare a b).
Proof.
  revert b. induction a as [|x a IH]; intros [|y b]; cbn; try done.
  rewrite (Z.compare_antisym (bz x)). destruct (bz x ?= bz y); cbn; auto.
Qed.

Lemma bcompare_lt_trans a b c : bcompare a b = Lt -> bcompare b c = Lt -> bcompare a c = Lt.
Proof.
  revert b c. induction a as [|x a IH]; intros [|y b] [|z c]; cbn; try done.
  destruct (Z.compare_spec (bz x) (bz y)) as [E|E|E];
    destruct (Z.compare_spec (bz y) (bz z)) as [F|F|F]; try done;
    destruct (Z.compare_spec (bz x) (bz z)) as [G|G|G]; try done; try lia; eauto.
Qed.

Lemma blt_lt a b : blt a b = true <-> bcompare a b = Lt.
Proof. unfold blt. destruct (bcompare a b); naive_solver. Qed.
Lemma ble_gt a b : ble a b = true <-> bcompare a b <> Gt.
Proof. unfold ble. destruct (bcompare a b); naive_solver. Qed.
Lemma ble_negb a b : ble a b = negb (blt b a).
Proof. unfold ble, blt. rewrite (bcompare_antisym a b). by destruct (bcompare a b). Qed.
Lemma blt_negb a b : blt a b = negb (ble b a).
Proof. rewrite ble_negb. by destruct (blt a b). Qed.
Lemma ble_blt_eq a b : ble a b = true <-> blt a b = true \/ a = b.
Proof.
  unfold ble, blt. pose proof (bcompare_eq a b).
  destruct (bcompare a b) eqn:E; naive_solver.
Qed.
Lemma blt_irrefl a : blt a a = false.
Proof. unfold blt. by rewrite bcompare_refl. Qed.
Lemma ble_refl a : ble a a = true.
Proof. unfold ble. by rewrite bcompare_refl. Qed.
Lemma blt_trans a b c : blt a b = true -> blt b c = true -> blt a c = true.
Proof. rewrite !blt_lt. apply bcompare_lt_trans. Qed.
Lemma ble_trans a b c : ble a b = true -> ble b c = true -> ble a c = true.
Proof. rewrite !ble_blt_eq. intros [?| ->] [?| ->]; eauto using blt_trans. Qed.
Lemma blt_le_trans a b c : blt a b = true -> ble b c = true -> blt a c = true.
Proof. rewrite ble_blt_eq. intros ? [?|<-]; eauto using blt_trans. Qed.
Lemma ble_lt_trans a b c : ble a b = true -> blt b c = true -> blt a c = true.
Proof. rewrite ble_blt_eq. intros [?| ->]; eauto using blt_trans. Qed.
Lemma blt_le a b : blt a b = true -> ble a b = true.
Proof. rewrite ble_blt_eq. auto. Qed.
Lemma blt_neq a b : blt a b = true -> a <> b.
Proof. intros H ->. by rewrite blt_irrefl in H. Qed.
Lemma ble_antisym a b : ble a b = true -> ble b a = true -> a = b.
Proof.
  rewrite !ble_blt_eq. intros [H|?] [H'|?]; try done.
  pose proof (blt_trans _ _ _ H H') as C. by rewrite blt_irrefl in C.
Qed.
Lemma ble_total a b : ble a b = true \/ ble b a = true.
Proof. unfold ble. rewrite (bcompare_antisym a b). destruct (bcompare a b); auto. Qed.
Lemma blt_total a b : blt a b = true \/ a = b \/ blt b a = true.
Proof. destruct (ble_total a b) as [H|H]; apply ble_blt_eq in H as [?| ->]; auto. Qed.

Lemma bcompare_app p a b : bcompare (p ++ a) (p ++ b) = bcompare a b.
Proof. induction p as [|x p IH]; cbn; [done|]. by rewrite Z.compare_refl. Qed.

Lemma ble_prefix a b : ble a (a ++ b) = true.
Proof.
  unfold ble. rewrite <- (app_nil_r a) at 1. rewrite bcompare_app. by destruct b.
Qed.

#[export] Instance bytes_le_dec : RelDecision bytes_le.
Proof. intros a b. unfold bytes_le. apply _. Defined.
#[export] Instance bytes_lt_dec : RelDecision bytes_lt.
Proof. intros a b. unfold bytes_lt. apply _. Defined.
#[export] Instance bytes_le_trans : Transitive bytes_le.
Proof. intros a b c. apply ble_trans. Qed.
#[export] Instance bytes_le_total : Total bytes_le.
Proof. intros a b. apply ble_total. Qed.
#[export] Instance bytes_le_antisym : AntiSymm (=) bytes_le.
Proof. intros a b. apply ble_antisym. Qed.
#[export] Instance bytes_lt_trans : Transitive bytes_lt.
Proof. intros a b c. apply blt_trans. Qed.
#[export] Instance bytes_lt_antisym : AntiSymm (=) bytes_lt.
Proof. intros a b. unfold bytes_lt. eauto using ble_antisym, blt_le. Qed.

(** Go's [sort.Strings] / [slices.Sort] on byte strings. *)
Definition sort_strings (l : list bytes) : list bytes := merge_sort bytes_le l.

Lemma sort_strings_perm l : sort_strings l ≡ₚ l.
Proof. apply merge_sort_Permutation. Qed.
Lemma elem_of_sort_strings x l : x ∈ sort_strings l <-> x ∈ l.
Proof. by rewrite sort_strings_perm. Qed.
Lemma sort_strings_sorted l : StronglySorted bytes_le (sort_strings l).
Proof. apply StronglySorted_merge_sort; apply _. Qed.

Lemma StronglySorted_le_lt l :
  StronglySorted bytes_le l -> NoDup l -> StronglySorted bytes_lt l.
Proof.
  induction 1 as [|x l Hs IH Hx]; intros Hn; constructor; inversion Hn; subst; auto.
  eapply Forall_impl; [apply Forall_and; split; [apply Hx|]|].
  - apply Forall_forall. intros y Hy. instantiate (1 := fun y => y <> x). cbn. by intros ->.
  - cbn. intros y [Hle Hne]. apply ble_blt_eq in Hle as [?| ->]; done.
Qed.
Lemma sorted_lt_NoDup l : StronglySorted bytes_lt l -> NoDup l.
Proof.
  induction 1 as [|x l Hs IH Hx]; constructor; [|done]. intros Hin. rewrite Forall_forall in Hx.
  specialize (Hx x Hin). unfold bytes_lt in Hx. by rewrite blt_irrefl in Hx.
Qed.

(** Strictly ascending lists with the same elements are equal. *)
Lemma sorted_lt_ext l1 l2 :
  StronglySorted bytes_lt l1 -> StronglySorted bytes_lt l2 -> (forall x, x ∈ l1 <-> x ∈ l2) -> l1 = l2.
Proof.
  intros H1 H2 He. apply (StronglySorted_unique bytes_lt); [done|done|].
  apply NoDup_Permutation; [by apply sorted_lt_NoDup..|done].
Qed.
#[export] Hint Resolve ble_refl bcompare_refl blt_le : naust.

(** ** Lists *)

Lemma list_filter_all {A} (P : A -> Prop) `{!forall x, Decision (P x)} (l : list A) :
  Forall P l -> filter P l = l.
Proof. induction 1; [done|]. rewrite filter_cons_True by done. congruence. Qed.

Lemma list_filter_none {A} (P : A -> Prop) `{!forall x, Decision (P x)} (l : list A) :
  Forall (fun x => ~ P x) l -> filter P l = [].
Proof. induction 1; [done|]. by rewrite filter_cons_False. Qed.

Lemma list_filter_ext_in {A} (P Q : A -> Prop) `{!forall x, Decision (P x), !forall x, Decision (Q x)} (l : list A) :
  (forall x, x ∈ l -> P x <-> Q x) -> filter P l = filter Q l.
Proof.
  induction l as [|x l IH]; intros HPQ; [done|]. rewrite !filter_cons.
  rewrite IH by (intros; apply HPQ; by right).
  pose proof (HPQ x (list_elem_of_here x l)).
  destruct (decide (P x)), (decide (Q x)); tauto.
Qed.

Lemma rev_reverse {A} (l : list A) : rev l = reverse l.
Proof. apply rev_alt. Qed.
