(* ===== verification/GoLib.v ===== *)
(** * GoLib: the parts of Go and its standard library the sources use

    Fixed-width integers ([int64], [uint64]) as [Z] with the wrap-around
    written out, [encoding/binary] byte orders, [strconv]'s base-10 integer
    codecs and [unicode/utf8].  Everything is executable. *)

From S2P Require Import Prelude.

(** ** Machine integers *)

Definition u64 (z : Z) : Z := z mod 2 ^ 64.
Definition int64 (z : Z) : Z := (z + 2 ^ 63) mod 2 ^ 64 - 2 ^ 63.
Definition is_int64 (z : Z) : Prop := - 2 ^ 63 <= z < 2 ^ 63.

Lemma int64_range z : is_int64 (int64 z).
Proof. unfold is_int64, int64. pose proof (Z.mod_pos_bound (z + 2 ^ 63) (2 ^ 64)). lia. Qed.

Lemma int64_small z : is_int64 z -> int64 z = z.
Proof. unfold is_int64, int64. intros. rewrite Z.mod_small; lia. Qed.

Lemma u64_range z : 0 <= u64 z < 2 ^ 64.
Proof. apply Z.mod_pos_bound. lia. Qed.

Lemma int64_u64 z : int64 (u64 z) = int64 z.
Proof. unfold int64, u64. by rewrite Zplus_mod_idemp_l. Qed.

(** ** Byte orders *)

Fixpoint le_bytes (n : nat) (z : Z) : bytes :=
  match n with O => [] | S n' => zb z :: le_bytes n' (z / 256) end.
Definition be_bytes (n : nat) (z : Z) : bytes := rev (le_bytes n z).

Fixpoint le_val (l : bytes) : Z :=
  match l with [] => 0 | b :: l' => bz b + 256 * le_val l' end.
Definition be_val (l : bytes) : Z := le_val (rev l).

Lemma le_bytes_length n z : length (le_bytes n z) = n.
Proof. revert z; induction n; intros; cbn; auto. Qed.
Lemma be_bytes_length n z : length (be_bytes n z) = n.
Proof. unfold be_bytes. rewrite length_rev. apply le_bytes_length. Qed.

Lemma le_val_bound l : 0 <= le_val l < 256 ^ Z.of_nat (length l).
Proof.
  induction l as [|b l IH]; cbn -[Z.pow Z.of_nat]; [cbn; lia|].
  rewrite Nat2Z.inj_succ, Z.pow_succ_r by lia. pose proof (bz_range b). lia.
Qed.

Lemma le_val_bytes n z : le_val (le_bytes n z) = z mod 256 ^ Z.of_nat n.
Proof.
  revert z; induction n as [|n IH]; intros z; [by rewrite Z.mod_1_r|].
  cbn -[Z.pow Z.of_nat]. rewrite IH, bz_zb, Nat2Z.inj_succ, Z.pow_succ_r by lia.
  rewrite Z.rem_mul_r by lia. lia.
Qed.

Lemma le_bytes_val l : le_bytes (length l) (le_val l) = l.
Proof.
  induction l as [|b l IH]; cbn; [done|]. pose proof (bz_range b). f_equal.
  - apply bz_inj. rewrite bz_zb, Z.mul_comm, Z_mod_plus_full. by apply Z.mod_small.
  - rewrite Z.mul_comm, Z.div_add, Z.div_small by lia. exact IH.
Qed.

Lemma be_val_bytes n z : be_val (be_bytes n z) = z mod 256 ^ Z.of_nat n.
Proof. unfold be_val, be_bytes. rewrite rev_involutive. apply le_val_bytes. Qed.

Lemma be_bytes_val n l : length l = n -> be_bytes n (be_val l) = l.
Proof.
  intros <-. unfold be_bytes, be_val. rewrite <- (length_rev l), le_bytes_val.
  apply rev_involutive.
Qed.

Lemma be_val_bound l : 0 <= be_val l < 256 ^ Z.of_nat (length l).
Proof. unfold be_val. rewrite <- (length_rev l). apply le_val_bound. Qed.

Lemma le_val_app a b : le_val (a ++ b) = le_val a + 256 ^ Z.of_nat (length a) * le_val b.
Proof.
  induction a as [|x a IH]; cbn -[Z.pow Z.of_nat]; [cbn; lia|].
  rewrite IH, Nat2Z.inj_succ, Z.pow_succ_r by lia. lia.
Qed.

Lemma be_val_cons x a : be_val (x :: a) = bz x * 256 ^ Z.of_nat (length a) + be_val a.
Proof. unfold be_val. cbn. rewrite le_val_app, length_rev. cbn. lia. Qed.

(** Big-endian byte strings of one length compare as the numbers they spell. *)
Lemma bcompare_be a b :
  length a = length b -> bcompare a b = (be_val a ?= be_val b).
Proof.
  revert b; induction a as [|x a IH]; intros [|y b] E; cbn in E; try done.
  injection E as E. cbn [bcompare]. rewrite !be_val_cons, E.
  pose proof (be_val_bound a). pose proof (be_val_bound b). rewrite E in H.
  destruct (Z.compare_spec (bz x) (bz y)) as [F|F|F].
  - rewrite F, IH by done. symmetry.
    destruct (Z.compare_spec (be_val a) (be_val b)); Z.order_pos || idtac;
      [apply Z.compare_eq_iff | apply Z.compare_lt_iff | apply Z.compare_gt_iff]; lia.
  - symmetry. apply Z.compare_lt_iff. nia.
  - symmetry. apply Z.compare_gt_iff. nia.
Qed.

(** ** strconv: base-10 integers *)

Fixpoint fmt_digits (fuel : nat) (n : Z) (acc : bytes) : bytes :=
  match fuel with
  | O => acc
  | S fuel' =>
      let acc' := zb (48 + n mod 10) :: acc in
      if n <? 10 then acc' else fmt_digits fuel' (n / 10) acc'
  end.

(** [strconv.FormatInt(n, 10)]: 20 digits hold every 64-bit magnitude. *)
Definition FormatInt (n : Z) : bytes :=
  if n <? 0 then "-"%byte :: fmt_digits 20 (- n) [] else fmt_digits 20 n [].

Definition is_digit (c : byte) : bool := (48 <=? bz c) && (bz c <=? 57).

Fixpoint dec_val (acc : Z) (l : bytes) : option Z :=
  match l with
  | [] => Some acc
  | c :: l' => if is_digit c then dec_val (10 * acc + (bz c - 48)) l' else None
  end.

(** [strconv.ParseInt(s, 10, 64)]: an optional sign, then at least one digit,
    then a range check. *)
Definition ParseInt (s : bytes) : option Z :=
  let '(neg, ds) :=
    match s with
    | c :: s' => if c =b "-"%byte then (true, s')
                 else if c =b "+"%byte then (false, s') else (false, s)
    | [] => (false, s)
    end in
  match ds with
  | [] => None
  | _ => match dec_val 0 ds with
         | None => None
         | Some n => let v := if (neg : bool) then - n else n in
                     if (- 2 ^ 63 <=? v) && (v <? 2 ^ 63) then Some v else None
         end
  end.

Lemma is_digit_zb d : 0 <= d < 10 -> is_digit (zb (48 + d)) = true /\ bz (zb (48 + d)) = 48 + d.
Proof. intros. unfold is_digit. rewrite bz_zb_small by lia. lia. Qed.

Lemma dec_val_fmt fuel n tl :
  0 <= n < 10 ^ Z.of_nat (S fuel) ->
  dec_val 0 (fmt_digits (S fuel) n tl) = dec_val n tl.
Proof.
  revert n tl; induction fuel as [|fuel IH]; intros n tl Hn.
  - cbn in Hn. cbn -[zb is_digit]. rewrite Z.mod_small by lia.
    destruct (n <? 10) eqn:E; [|lia]. cbn -[zb is_digit].
    destruct (is_digit_zb n) as [-> ->]; [lia|]. f_equal. lia.
  - remember (S fuel) as f. cbn [fmt_digits].
    pose proof (Z.mod_pos_bound n 10). pose proof (Z.div_mod n 10).
    destruct (n <? 10) eqn:E.
    + rewrite Z.mod_small by lia. cbn -[zb is_digit].
      destruct (is_digit_zb n) as [-> ->]; [lia|]. f_equal. lia.
    + rewrite IH.
      * cbn -[zb is_digit]. destruct (is_digit_zb (n mod 10)) as [-> ->]; [lia|]. f_equal. lia.
      * rewrite Nat2Z.inj_succ, Z.pow_succ_r in Hn by lia.
        split; [apply Z.div_pos; lia|]. apply Z.div_lt_upper_bound; lia.
Qed.

Lemma fmt_digits_head fuel n tl :
  exists c l, fmt_digits (S fuel) n tl = c :: l /\ is_digit c = true.
Proof.
  revert n tl; induction fuel as [|fuel IH]; intros n tl.
  - cbn -[zb is_digit]. pose proof (Z.mod_pos_bound n 10).
    destruct (n <? 10); eexists _, _; (split; [done|]); apply is_digit_zb; lia.
  - remember (S fuel) as f. cbn [fmt_digits]. pose proof (Z.mod_pos_bound n 10).
    destruct (n <? 10); [|apply IH].
    eexists _, _; (split; [done|]); apply is_digit_zb; lia.
Qed.

(** A state string parses back to the sequence number it was printed from. *)
Lemma ParseInt_FormatInt n : is_int64 n -> ParseInt (FormatInt n) = Some n.
Proof.
  unfold is_int64, FormatInt, ParseInt. intros Hn. destruct (n <? 0) eqn:E.
  - rewrite beqb_refl. destruct (fmt_digits_head 19 (- n) []) as (c & l & Hc & _).
    rewrite Hc, <- Hc, dec_val_fmt by (cbn; lia). cbn -[Z.leb Z.ltb Z.opp].
    replace (- - n) with n by lia.
    by assert ((- 2 ^ 63 <=? n) && (n <? 2 ^ 63) = true) as -> by lia.
  - destruct (fmt_digits_head 19 n []) as (c & l & Hc & Hd). rewrite Hc.
    unfold is_digit in Hd. rewrite !beqb_bz.
    change (bz "-") with 45. change (bz "+") with 43.
    destruct (bz c =? 45) eqn:F; [lia|]. destruct (bz c =? 43) eqn:G; [lia|].
    rewrite <- Hc, dec_val_fmt by (cbn; lia). cbn -[Z.leb Z.ltb].
    by assert ((- 2 ^ 63 <=? n) && (n <? 2 ^ 63) = true) as -> by lia.
Qed.

(** ** unicode/utf8 *)

Definition RuneError : Z := 0xFFFD.
Definition RuneSelf : Z := 0x80.

Definition cont (b : byte) : bool := (0x80 <=? bz b) && (bz b <=? 0xBF).
Definition inr (lo hi : Z) (b : byte) : bool := (lo <=? bz b) && (bz b <=? hi).

(** The second-byte range the leading byte [b0] of a multi-byte sequence
    admits (the [acceptRanges] table). *)
Definition accept2 (b0 : Z) : Z * Z :=
  if b0 =? 0xE0 then (0xA0, 0xBF)
  else if b0 =? 0xED then (0x80, 0x9F)
  else if b0 =? 0xF0 then (0x90, 0xBF)
  else if b0 =? 0xF4 then (0x80, 0x8F)
  else (0x80, 0xBF).

(** [utf8.DecodeRune]: the first rune and its width; a bad encoding is
    [(RuneError, 1)], the empty input [(RuneError, 0)]. *)
Definition DecodeRune (s : bytes) : Z * nat :=
  match s with
  | [] => (RuneError, 0%nat)
  | b0 :: r0 =>
      let c := bz b0 in
      if c <? RuneSelf then (c, 1%nat)
      else if (c <? 0xC2) || (0xF4 <? c) then (RuneError, 1%nat)
      else
        match r0 with
        | [] => (RuneError, 1%nat)
        | b1 :: r1 =>
            let '(lo, hi) := accept2 c in
            if negb (inr lo hi b1) then (RuneError, 1%nat)
            else if c <? 0xE0 then ((c - 0xC0) * 64 + (bz b1 - 0x80), 2%nat)
            else
              match r1 with
              | [] => (RuneError, 1%nat)
              | b2 :: r2 =>
                  if negb (cont b2) then (RuneError, 1%nat)
                  else if c <? 0xF0 then
                    ((c - 0xE0) * 4096 + (bz b1 - 0x80) * 64 + (bz b2 - 0x80), 3%nat)
                  else
                    match r2 with
                    | [] => (RuneError, 1%nat)
                    | b3 :: _ =>
                        if negb (cont b3) then (RuneError, 1%nat)
                        else ((c - 0xF0) * 262144 + (bz b1 - 0x80) * 4096
                              + (bz b2 - 0x80) * 64 + (bz b3 - 0x80), 4%nat)
                    end
              end
        end
  end.

Definition is_surrogate (r : Z) : bool := (0xD800 <=? r) && (r <=? 0xDFFF).

(** [utf8.AppendRune(nil, r)]. *)
Definition EncodeRune (r : Z) : bytes :=
  if (r <? 0) || (0x10FFFF <? r) || is_surrogate r then
    [zb 0xEF; zb 0xBF; zb 0xBD]
  else if r <=? 0x7F then [zb r]
  else if r <=? 0x7FF then [zb (0xC0 + r / 64); zb (0x80 + r mod 64)]
  else if r <=? 0xFFFF then
    [zb (0xE0 + r / 4096); zb (0x80 + (r / 64) mod 64); zb (0x80 + r mod 64)]
  else [zb (0xF0 + r / 262144); zb (0x80 + (r / 4096) mod 64);
        zb (0x80 + (r / 64) mod 64); zb (0x80 + r mod 64)].

(** [utf16.DecodeRune]. *)
Definition utf16_DecodeRune (r1 r2 : Z) : Z :=
  if (0xD800 <=? r1) && (r1 <? 0xDC00) && (0xDC00 <=? r2) && (r2 <? 0xE000)
  then (r1 - 0xD800) * 1024 + (r2 - 0xDC00) + 0x10000
  else RuneError.

(** The runes a [for _, r := range s] loop visits, each with the bytes it
    came from: an invalid byte is one [RuneError]. *)
Fixpoint runes (fuel : nat) (s : bytes) : list (Z * bytes) :=
  match fuel, s with
  | O, _ | _, [] => []
  | S fuel', _ =>
      let '(r, n) := DecodeRune s in (r, take n s) :: runes fuel' (drop n s)
  end.
Definition range_string (s : bytes) : list (Z * bytes) := runes (length s) s.

(** [utf8.Valid]: no decoding step fails. *)
Definition utf8_Valid (s : bytes) : bool :=
  forallb (fun p => negb ((p.1 =? RuneError) && (length p.2 =? 1)%nat)) (range_string s).

(** A decoding step consumes one ASCII byte, or one to four bytes of 0x80 and
    above. *)
Lemma DecodeRune_width c s r n :
  DecodeRune (c :: s) = (r, n) ->
  (bz c < RuneSelf /\ r = bz c /\ n = 1%nat) \/
  (RuneSelf <= bz c /\ (1 <= n <= length (c :: s))%nat /\ Forall (fun b => RuneSelf <= bz b) (take n (c :: s))).
Proof.
  unfold DecodeRune, RuneSelf, cont, inr.
  destruct (bz c <? 0x80) eqn:E; [intros [= <- <-]; left; lia|]. intros H. right.
  split; [lia|].
  destruct ((_ <? _) || _); [injection H as <- <-; cbn; rewrite ?take_0; (split; [lia|repeat (constructor; [lia|]); constructor])|].
  destruct s as [|b1 s1]; [injection H as <- <-; cbn; rewrite ?take_0; (split; [lia|repeat (constructor; [lia|]); constructor])|].
  destruct (accept2 (bz c)) as [lo hi] eqn:Ea.
  assert (0x80 <= lo). { unfold accept2 in Ea. repeat case_match; simplify_eq; lia. }
  destruct (negb _) eqn:H1; [injection H as <- <-; cbn; rewrite ?take_0; (split; [lia|repeat (constructor; [lia|]); constructor])|].
  destruct (bz c <? 0xE0); [injection H as <- <-; cbn; rewrite ?take_0; (split; [lia|repeat (constructor; [lia|]); constructor])|].
  destruct s1 as [|b2 s2]; [injection H as <- <-; cbn; rewrite ?take_0; (split; [lia|repeat (constructor; [lia|]); constructor])|].
  destruct (negb (_ && (bz b2 <=? _))) eqn:H2; [injection H as <- <-; cbn; rewrite ?take_0; (split; [lia|repeat (constructor; [lia|]); constructor])|].
  destruct (bz c <? 0xF0); [injection H as <- <-; cbn; rewrite ?take_0; (split; [lia|repeat (constructor; [lia|]); constructor])|].
  destruct s2 as [|b3 s3]; [injection H as <- <-; cbn; rewrite ?take_0; (split; [lia|repeat (constructor; [lia|]); constructor])|].
  destruct (negb (_ && (bz b3 <=? _))) eqn:H3; injection H as <- <-; cbn; rewrite ?take_0; (split; [lia|repeat (constructor; [lia|]); constructor]).
Qed.

(** A rune decoded without error is the one encoding of itself. *)
Lemma EncodeRune_DecodeRune s r n :
  DecodeRune s = (r, n) -> s <> [] -> (r = RuneError /\ n = 1%nat) \/ EncodeRune r = take n s.
Proof.
  unfold DecodeRune, RuneSelf, cont, inr. intros H Hne. destruct s as [|c s]; [done|]. clear Hne.
  pose proof (bz_range c) as Hc.
  assert (Hz : forall b z, z = bz b -> zb z = b) by (intros ? ? ->; apply zb_bz).
  destruct (bz c <? 0x80) eqn:E.
  { injection H as <- <-. right. unfold EncodeRune, is_surrogate.
    destruct (_ || _ || _) eqn:F; [lia|]. destruct (_ <=? 0x7F) eqn:G; [|lia]. cbn. by rewrite zb_bz, take_0. }
  destruct ((_ <? _) || _) eqn:R0; [injection H as <- <-; auto|].
  destruct s as [|b1 s1]; [injection H as <- <-; auto|]. pose proof (bz_range b1) as Hb1.
  destruct (accept2 (bz c)) as [lo hi] eqn:Ea.
  destruct (negb _) eqn:HT1; [injection H as <- <-; auto|].
  assert (Hacc : 0x80 <= bz b1 <= 0xBF /\ (bz c = 0xE0 -> 0xA0 <= bz b1) /\ (bz c = 0xED -> bz b1 <= 0x9F) /\
                 (bz c = 0xF0 -> 0x90 <= bz b1) /\ (bz c = 0xF4 -> bz b1 <= 0x8F)).
  { unfold accept2 in Ea. repeat case_match; simplify_eq; lia. }
  clear Ea. destruct (bz c <? 0xE0) eqn:E2.
  { injection H as <- <-. right. unfold EncodeRune, is_surrogate.
    destruct (_ || _ || _) eqn:F; [lia|]. destruct (_ <=? 0x7F) eqn:G; [lia|].
    destruct (_ <=? 0x7FF) eqn:G2; [|lia]. cbn. rewrite take_0.
    repeat (apply (f_equal2 cons); [apply Hz; Z.to_euclidean_division_equations; lia|]). done. }
  destruct s1 as [|b2 s2]; [injection H as <- <-; auto|]. pose proof (bz_range b2) as Hb2.
  destruct (negb (_ && (bz b2 <=? _))) eqn:HT2; [injection H as <- <-; auto|].
  destruct (bz c <? 0xF0) eqn:E3.
  { injection H as <- <-. right. unfold EncodeRune, is_surrogate.
    destruct (_ || _ || _) eqn:F; [lia|]. destruct (_ <=? 0x7F) eqn:G; [lia|].
    destruct (_ <=? 0x7FF) eqn:G2; [lia|]. destruct (_ <=? 0xFFFF) eqn:G3; [|lia]. cbn. rewrite take_0.
    repeat (apply (f_equal2 cons); [apply Hz; Z.to_euclidean_division_equations; lia|]). done. }
  destruct s2 as [|b3 s3]; [injection H as <- <-; auto|]. pose proof (bz_range b3) as Hb3.
  destruct (negb (_ && (bz b3 <=? _))) eqn:HT3; injection H as <- <-; [auto|]. right.
  unfold EncodeRune, is_surrogate.
  destruct (_ || _ || _) eqn:F; [lia|]. destruct (_ <=? 0x7F) eqn:G; [lia|].
  destruct (_ <=? 0x7FF) eqn:G2; [lia|]. destruct (_ <=? 0xFFFF) eqn:G3; [lia|]. cbn. rewrite take_0.
    repeat (apply (f_equal2 cons); [apply Hz; Z.to_euclidean_division_equations; lia|]). done.
Qed.

(** Decoding looks only at the bytes it consumes. *)
Lemma DecodeRune_take s r n t :
  DecodeRune s = (r, n) -> s <> [] -> ~ (r = RuneError /\ n = 1%nat) -> DecodeRune (take n s ++ t) = (r, n).
Proof.
  intros H Hne Hv. destruct s as [|c s]; [done|]. clear Hne. unfold DecodeRune in *.
  destruct (bz c <? RuneSelf) eqn:E; [injection H as <- <-; cbn; by rewrite E|].
  destruct ((_ <? _) || _) eqn:R0; [naive_solver|].
  destruct s as [|b1 s1]; [naive_solver|]. destruct (accept2 (bz c)) as [lo hi] eqn:Ea.
  destruct (negb (inr lo hi b1)) eqn:H1; [naive_solver|].
  destruct (bz c <? 0xE0) eqn:E2; [injection H as <- <-; cbn; by rewrite E, R0, Ea, H1, E2|].
  destruct s1 as [|b2 s2]; [naive_solver|]. destruct (negb (cont b2)) eqn:H2; [naive_solver|].
  destruct (bz c <? 0xF0) eqn:E3; [injection H as <- <-; cbn; by rewrite E, R0, Ea, H1, E2, H2, E3|].
  destruct s2 as [|b3 s3]; [naive_solver|]. destruct (negb (cont b3)) eqn:H3; [naive_solver|].
  injection H as <- <-. cbn. by rewrite E, R0, Ea, H1, E2, H2, E3, H3.
Qed.

(** Strings of ASCII bytes are valid. *)
Lemma runes_ascii fuel s :
  Forall (fun b => bz b < RuneSelf) s -> (length s <= fuel)%nat -> runes fuel s = map (fun b => (bz b, [b])) s.
Proof.
  revert s. induction fuel as [|fuel IH]; intros [|c s] Hs Hl; cbn in Hl; try lia; try done.
  inversion Hs as [|? ? Hc Hs']; subst. cbn [runes].
  destruct (DecodeRune (c :: s)) as [r n] eqn:E.
  apply DecodeRune_width in E as [(_ & -> & ->)|[]]; [|lia].
  cbn [take drop map]. f_equal. apply IH; [done|lia].
Qed.

Lemma utf8_Valid_ascii s : Forall (fun b => bz b < RuneSelf) s -> utf8_Valid s = true.
Proof.
  intros Hs. unfold utf8_Valid, range_string. rewrite runes_ascii by (done || lia).
  apply forallb_forall. intros p (c & <- & Hc)%List.in_map_iff. cbn.
  rewrite Forall_forall in Hs. specialize (Hs c ltac:(by apply list_elem_of_In)).
  unfold RuneError, RuneSelf in *. destruct (_ =? _) eqn:E; [lia|done].
Qed.

Lemma DecodeRune_nonneg s r n : DecodeRune s = (r, n) -> 0 <= r.
Proof.
  unfold DecodeRune, RuneError, RuneSelf, cont, inr. intros H. destruct s as [|c s]; [simplify_eq; lia|].
  pose proof (bz_range c).
  destruct (bz c <? 0x80); [simplify_eq; lia|]. destruct ((_ <? _) || _) eqn:R0; [simplify_eq; lia|].
  destruct s as [|b1 s1]; [simplify_eq; lia|]. pose proof (bz_range b1).
  destruct (accept2 (bz c)) as [lo hi] eqn:Ea.
  assert (0x80 <= lo). { unfold accept2 in Ea. repeat case_match; simplify_eq; lia. }
  destruct (negb _) eqn:T1; [simplify_eq; lia|].
  destruct (bz c <? 0xE0) eqn:E2; [simplify_eq; lia|].
  destruct s1 as [|b2 s2]; [simplify_eq; lia|]. destruct (negb (_ && (bz b2 <=? _))) eqn:T2; [simplify_eq; lia|].
  destruct (bz c <? 0xF0) eqn:E3; [simplify_eq; lia|].
  destruct s2 as [|b3 s3]; [simplify_eq; lia|].
  destruct (negb (_ && (bz b3 <=? _))) eqn:T3; simplify_eq; lia.
Qed.

(** Outside ASCII an encoding has only bytes of 0x80 and above. *)
Lemma EncodeRune_high r : 0x80 <= r -> Forall (fun b => RuneSelf <= bz b) (EncodeRune r).
Proof.
  intros Hr. unfold EncodeRune, is_surrogate, RuneSelf.
  destruct (_ || _ || _) eqn:F; [repeat constructor; done|].
  destruct (_ <=? 0x7F) eqn:G; [lia|].
  destruct (_ <=? 0x7FF) eqn:G2; [|destruct (_ <=? 0xFFFF) eqn:G3];
    repeat (constructor; [rewrite bz_zb_small; Z.to_euclidean_division_equations; lia|]); constructor.
Qed.

(** ** Iteration over a map

    A [for k, v := range m] loop visits every entry once, in an order the
    language leaves open.  [range_map] is that order: every definition that
    ranges over a map takes it as a parameter, and what is proved holds for
    each of them. *)
Class MapRange := {
  range_map : forall {A : Type}, gmap bytes A -> list (bytes * A);
  range_map_perm : forall A (m : gmap bytes A), range_map m ≡ₚ map_to_list m;
}.

Lemma elem_of_range_map `{MapRange} {A} (m : gmap bytes A) k v : (k, v) ∈ range_map m <-> m !! k = Some v.
Proof. rewrite range_map_perm. apply elem_of_map_to_list. Qed.

Lemma NoDup_range_map `{MapRange} {A} (m : gmap bytes A) : NoDup (range_map m).*1.
Proof. rewrite (fmap_Permutation fst _ _ (range_map_perm A m)). apply NoDup_fst_map_to_list. Qed.

(** One such order, for evaluation. *)
Definition map_order : MapRange := {| range_map := fun A m => map_to_list m; range_map_perm := fun A m => Permutation_refl _ |}.

(** ** bytes.TrimSpace *)

(** [unicode.IsSpace]. *)
Definition IsSpace (r : Z) : bool :=
  ((9 <=? r) && (r <=? 13)) || (r =? 32) || (r =? 0x85) || (r =? 0xA0) || (r =? 0x1680)
  || ((0x2000 <=? r) && (r <=? 0x200A)) || (r =? 0x2028) || (r =? 0x2029) || (r =? 0x202F)
  || (r =? 0x205F) || (r =? 0x3000).

Fixpoint drop_spaces (l : list (Z * bytes)) : list (Z * bytes) :=
  match l with
  | p :: l' => if IsSpace p.1 then drop_spaces l' else l
  | [] => []
  end.

(** The runes of the string without the white-space runes at either end. *)
Definition TrimSpace (s : bytes) : bytes :=
  concat (map snd (rev (drop_spaces (rev (drop_spaces (range_string s)))))).

(** ** time.Date in UTC

    Days since 1970-01-01 of a date of the proleptic Gregorian calendar and
    back; [time.Date] carries a day or a second past its range into the next
    month or minute, which the day count does by itself. *)
Definition days_from_civil (y m d : Z) : Z :=
  let y' := if m <=? 2 then y - 1 else y in
  let era := y' / 400 in
  let yoe := y' mod 400 in
  let mp := (m + 9) mod 12 in
  let doy := (153 * mp + 2) / 5 + d - 1 in
  era * 146097 + (yoe * 365 + yoe / 4 - yoe / 100 + doy) - 719468.

Definition civil_from_days (z0 : Z) : Z * Z * Z :=
  let z := z0 + 719468 in
  let era := z / 146097 in
  let doe := z mod 146097 in
  let yoe := (doe - doe / 1460 + doe / 36524 - doe / 146096) / 365 in
  let doy := doe - (365 * yoe + yoe / 4 - yoe / 100) in
  let mp := (5 * doy + 2) / 153 in
  let d := doy - (153 * mp + 2) / 5 + 1 in
  let m := if mp <? 10 then mp + 3 else mp - 9 in
  (yoe + era * 400 + (if m <=? 2 then 1 else 0), m, d).

Definition date_unix (y m d h mi s : Z) : Z := days_from_civil y m d * 86400 + h * 3600 + mi * 60 + s.
Definition unix_date (t : Z) : Z * Z * Z := civil_from_days (t / 86400).
