(* ===== verification/Keyenc.v ===== *)
(** * Keyenc: the order-preserving key encoding (core/internal/keyenc)

    Segments are escaped ([0x00] becomes [0x00 0xFF]) and terminated by
    [0x00 0x01]; a key is the concatenation of its encoded segments.  The
    theorems are the contract every stored key rests on: encoding is
    injective, [bytes.Compare] on keys is the lexicographic order of the
    segment lists, and the scan bounds [PrefixRange] computes contain exactly
    the keys that start with the given segments. *)

From S2P Require Import Prelude GoLib.

Module Keyenc.

(** ** Operations *)

Fixpoint Segment (dst seg : bytes) : bytes :=
  match seg with
  | [] => dst ++ [x00; x01]
  | b :: seg' =>
      if b =b x00 then Segment (dst ++ [x00; xff]) seg'
      else Segment (dst ++ [b]) seg'
  end.

Definition Key (segs : list bytes) : bytes := fold_left Segment segs [].

(** The loop of [PrefixSuccessor] walks the copy from its last byte; [r] is
    the part not yet visited, reversed. *)
Fixpoint successor_loop (r : bytes) : option bytes :=
  match r with
  | [] => None
  | b :: r' => if bz b <? 0xFF then Some (rev r' ++ [zb (bz b + 1)]) else successor_loop r'
  end.

Definition PrefixSuccessor (prefix : bytes) : option bytes := successor_loop (rev prefix).

Definition PrefixRange (segs : list bytes) : bytes * option bytes :=
  let start := Key segs in (start, PrefixSuccessor start).

(** The half-open range [[start, end)] of a backend scan; a [nil] end is
    unbounded. *)
Definition in_range (start : bytes) (end_ : option bytes) (k : bytes) : bool :=
  ble start k && match end_ with None => true | Some e => blt k e end.

(** ** The encoding of one segment *)

Fixpoint enc (seg : bytes) : bytes :=
  match seg with
  | [] => [x00; x01]
  | b :: seg' => (if b =b x00 then [x00; xff] else [b]) ++ enc seg'
  end.

Lemma Segment_enc dst seg : Segment dst seg = dst ++ enc seg.
Proof.
  revert dst; induction seg as [|b seg IH]; intros dst; cbn; [done|].
  destruct (b =b x00); rewrite IH, <- app_assoc; done.
Qed.

Lemma Key_acc segs acc : fold_left Segment segs acc = acc ++ concat (map enc segs).
Proof.
  revert acc; induction segs as [|s segs IH]; intros acc; cbn; [by rewrite app_nil_r|].
  by rewrite IH, Segment_enc, app_assoc.
Qed.

Lemma Key_enc segs : Key segs = concat (map enc segs).
Proof. apply Key_acc. Qed.

Lemma Key_cons s segs : Key (s :: segs) = enc s ++ Key segs.
Proof. by rewrite !Key_enc. Qed.

Lemma Key_app a b : Key (a ++ b) = Key a ++ Key b.
Proof. by rewrite !Key_enc, map_app, concat_app. Qed.

Lemma enc_compare a b x y :
  bcompare (enc a ++ x) (enc b ++ y) =
  match bcompare a b with Eq => bcompare x y | c => c end.
Proof.
  revert b; induction a as [|c a IH]; intros [|d b]; cbn [enc bcompare].
  - cbn. done.
  - destruct (d =b x00) eqn:E; [done|]. apply beqb_neq in E. cbn.
    change (bz x00) with 0. pose proof (bz_range d). destruct (Z.compare_spec 0 (bz d)) as [F|F|F]; try done; [|lia].
    destruct E. by apply bz_inj.
  - destruct (c =b x00) eqn:E; [done|]. apply beqb_neq in E. cbn.
    change (bz x00) with 0. pose proof (bz_range c). destruct (Z.compare_spec (bz c) 0) as [F|F|F]; try done; [|lia].
    destruct E. by apply bz_inj.
  - rewrite beqb_bz, (beqb_bz d). change (bz x00) with 0.
    pose proof (bz_range c). pose proof (bz_range d).
    destruct (bz c =? 0) eqn:E; destruct (bz d =? 0) eqn:F;
      cbn -[bz enc]; change (bz x00) with 0; change (bz xff) with 255;
      destruct (Z.compare_spec (bz c) (bz d)) as [G|G|G]; try lia; rewrite ?Z.compare_refl; auto.
    + destruct (Z.compare_spec 0 (bz d)); [lia|done|lia].
    + destruct (Z.compare_spec (bz c) 0); [lia|lia|done].
Qed.

Lemma enc_app_inj a b x y : enc a ++ x = enc b ++ y -> a = b /\ x = y.
Proof.
  intros H. apply bcompare_eq in H. rewrite enc_compare in H.
  destruct (bcompare a b) eqn:E; try done. split; by apply bcompare_eq.
Qed.

Lemma enc_not_nil s x : enc s ++ x <> [].
Proof. destruct s as [|b s]; cbn; [done|]. by destruct (b =b x00). Qed.

Lemma Key_prefix_inv a b t : Key a ++ t = Key b -> exists c, b = a ++ c /\ t = Key c.
Proof.
  revert b; induction a as [|s a IH]; intros b; [by exists b|].
  destruct b as [|s' b]; rewrite !Key_cons, <- ?app_assoc.
  - intros H. by apply enc_not_nil in H.
  - intros [-> H]%enc_app_inj. apply IH in H as (c & -> & ->). by exists c.
Qed.

Lemma Key_injective a b : Key a = Key b -> a = b.
Proof.
  intros H. destruct (Key_prefix_inv a b []) as (c & -> & Hc); [by rewrite app_nil_r|].
  destruct c as [|s c]; [by rewrite app_nil_r|].
  rewrite Key_cons in Hc. symmetry in Hc. by apply enc_not_nil in Hc.
Qed.

#[export] Instance Key_inj : Inj (=) (=) Key.
Proof. intros a b. apply Key_injective. Qed.

(** ** Prefix ranges *)

Lemma successor_loop_spec r p :
  successor_loop r = Some p ->
  exists ffs b r', r = ffs ++ b :: r' /\ Forall (fun c => c = xff) ffs /\
    bz b < 255 /\ p = rev r' ++ [zb (bz b + 1)].
Proof.
  induction r as [|b r IH]; cbn; [done|]. destruct (bz b <? 255) eqn:E.
  - intros [= <-]. exists [], b, r. split_and!; auto with lia.
  - intros (ffs & b' & r' & -> & Hf & Hb & ->)%IH. exists (b :: ffs), b', r'.
    split_and!; auto. constructor; [|done]. apply bz_inj. change (bz xff) with 255.
    pose proof (bz_range b). lia.
Qed.

Lemma successor_loop_None r : successor_loop r = None -> Forall (fun c => c = xff) r.
Proof.
  induction r as [|b r IH]; cbn; [constructor|]. destruct (bz b <? 255) eqn:E; [done|].
  intros H%IH. constructor; [|done]. apply bz_inj. change (bz xff) with 255.
  pose proof (bz_range b). lia.
Qed.

Lemma ble_all_ff p k : Forall (fun c => c = xff) p -> ble p k = true -> exists t, k = p ++ t.
Proof.
  intros Hp; revert k; induction Hp as [|c p -> Hp IH]; intros k; [by exists k|].
  destruct k as [|d k]; [done|]. unfold ble; cbn. change (bz xff) with 255.
  pose proof (bz_range d). destruct (Z.compare_spec 255 (bz d)) as [E|E|E]; [|lia|done].
  intros Hk. destruct (IH k) as [t ->]; [exact Hk|]. exists t.
  f_equal. by apply bz_inj.
Qed.

Lemma PrefixSuccessor_Some p q :
  PrefixSuccessor p = Some q ->
  exists h b ffs, p = h ++ b :: ffs /\ Forall (fun c => c = xff) ffs /\ bz b < 255 /\
    q = h ++ [zb (bz b + 1)].
Proof.
  unfold PrefixSuccessor. intros (ffs & b & r' & H & Hf & Hb & ->)%successor_loop_spec.
  exists (rev r'), b, (rev ffs). split_and!; auto.
  - apply (f_equal (@rev _)) in H. rewrite rev_involutive in H. rewrite H, rev_app_distr.
    cbn. by rewrite <- app_assoc.
  - by apply Forall_rev.
Qed.

Lemma blt_app p a b : blt (p ++ a) (p ++ b) = blt a b.
Proof. unfold blt. by rewrite bcompare_app. Qed.
Lemma ble_app p a b : ble (p ++ a) (p ++ b) = ble a b.
Proof. unfold ble. by rewrite bcompare_app. Qed.

(** Between [h ++ [b]] and [h ++ [b+1]] every key starts with [h ++ [b]]. *)
Lemma between_successor h b k :
  bz b < 255 -> ble (h ++ [b]) k = true -> blt k (h ++ [zb (bz b + 1)]) = true ->
  exists t, k = h ++ b :: t.
Proof.
  intros Hb; revert k; induction h as [|c h IH]; intros k; cbn [app].
  - destruct k as [|d k]; [done|]. unfold ble, blt. cbn. rewrite bz_zb_small by (pose proof (bz_range b); lia).
    destruct (Z.compare_spec (bz b) (bz d)) as [E|E|E]; try done.
    + apply bz_inj in E as ->. eauto.
    + destruct (Z.compare_spec (bz d) (bz b + 1)) as [F|F|F]; try done; [by destruct k|lia].
  - destruct k as [|d k]; [done|]. unfold ble, blt. cbn.
    destruct (Z.compare_spec (bz c) (bz d)) as [E|E|E]; try done.
    + rewrite <- E, Z.compare_refl. intros H1 H2. destruct (IH k) as [t ->]; auto.
      apply bz_inj in E as ->. by exists t.
    + destruct (Z.compare_spec (bz d) (bz c)); [lia|lia|done].
Qed.

Lemma PrefixSuccessor_range p k :
  in_range p (PrefixSuccessor p) k = true <-> exists t, k = p ++ t.
Proof.
  unfold in_range. destruct (PrefixSuccessor p) as [q|] eqn:E.
  - apply PrefixSuccessor_Some in E as (h & b & ffs & -> & Hf & Hb & ->).
    rewrite andb_true_iff. split.
    + intros [H1 H2].
      destruct (between_successor h b k) as [t ->]; auto.
      { eapply ble_trans; [|exact H1]. change (b :: ffs) with ([b] ++ ffs).
        rewrite app_assoc. apply ble_prefix. }
      change (b :: ffs) with ([b] ++ ffs) in H1. change (b :: t) with ([b] ++ t) in H1.
      rewrite !app_assoc, ble_app in H1. apply ble_all_ff in H1 as [u ->]; auto.
      exists u. by rewrite <- app_assoc.
    + intros [t ->]. split; [apply ble_prefix|].
      rewrite <- app_assoc, blt_app. unfold blt; cbn.
      rewrite bz_zb_small by (pose proof (bz_range b); lia).
      destruct (Z.compare_spec (bz b) (bz b + 1)); [lia|done|lia].
  - unfold PrefixSuccessor in E. apply successor_loop_None in E.
    rewrite andb_true_r. split; [|intros [t ->]; apply ble_prefix].
    apply ble_all_ff. rewrite <- (rev_involutive p). by apply Forall_rev.
Qed.

(** ** Reference order on segment lists *)

Fixpoint segs_compare (a b : list bytes) : comparison :=
  match a, b with
  | [], [] => Eq
  | [], _ :: _ => Lt
  | _ :: _, [] => Gt
  | x :: a', y :: b' =>
      match bcompare x y with Eq => segs_compare a' b' | c => c end
  end.

Lemma bcompare_nil_enc s x : bcompare [] (enc s ++ x) = Lt.
Proof. destruct (enc s ++ x) eqn:E; [by apply enc_not_nil in E|done]. Qed.

Lemma Key_compare a b : bcompare (Key a) (Key b) = segs_compare a b.
Proof.
  revert b; induction a as [|x a IH]; intros [|y b]; [done| | |].
  - rewrite Key_cons. apply bcompare_nil_enc.
  - rewrite Key_cons, bcompare_antisym. change (Key []) with (@nil byte).
    by rewrite bcompare_nil_enc.
  - rewrite !Key_cons, enc_compare, IH. done.
Qed.

Lemma Key_range segs l :
  in_range (PrefixRange segs).1 (PrefixRange segs).2 (Key l) = true <->
  exists rest, l = segs ++ rest.
Proof.
  cbn. rewrite PrefixSuccessor_range. split.
  - intros [t Ht]. symmetry in Ht. apply Key_prefix_inv in Ht as (c & -> & _). by exists c.
  - intros [rest ->]. exists (Key rest). apply Key_app.
Qed.

(** Keys never end a range early: an encoded key is not all [0xFF]. *)
Lemma Key_has_successor segs : segs <> [] -> PrefixSuccessor (Key segs) <> None.
Proof.
  intros Hs H. unfold PrefixSuccessor in H. apply successor_loop_None in H.
  destruct (exists_last Hs) as (l & s & ->). rewrite Key_app in H.
  rewrite rev_app_distr, Key_cons in H. change (Key []) with (@nil byte) in H.
  rewrite app_nil_r in H. apply Forall_app in H as [H _].
  assert (exists p, enc s = p ++ [x00; x01]) as [p Hp].
  { clear. induction s as [|b s [p IH]]; [by exists []|].
    cbn. rewrite IH. destruct (b =b x00); eexists; rewrite app_assoc; done. }
  rewrite Hp, rev_app_distr in H. apply Forall_app in H as [H _]. by inversion H.
Qed.

(** ** Properties *)

(** C29: [bytes.Compare] on encoded keys is exactly the lexicographic order of
    the segment lists (a shorter list of equal segments first, each segment by
    [bytes.Compare]), for arbitrary bytes in the segments; in particular two
    different segment lists never encode to one key. *)
Theorem key_order_preserving (a b : list bytes) :
  bcompare (Key a) (Key b) = segs_compare a b /\ (Key a = Key b -> a = b).
Proof. split; [apply Key_compare | apply Key_injective]. Qed.

(** C30: the scan bounds [PrefixRange] returns contain, among all byte strings,
    exactly those that extend the encoded prefix, and among encoded keys
    exactly those whose segment list starts with the given segments: no
    segment content can forge a boundary. *)
Theorem prefix_range_exact (segs : list bytes) :
  (forall k, in_range (PrefixRange segs).1 (PrefixRange segs).2 k = true <->
             exists t, k = Key segs ++ t) /\
  (forall l, in_range (PrefixRange segs).1 (PrefixRange segs).2 (Key l) = true <->
             exists rest, l = segs ++ rest).
Proof.
  split; intros; [apply PrefixSuccessor_range | apply Key_range].
Qed.

End Keyenc.
