(* ===== verification/Backend.v ===== *)
(** * Backend: the storage contract (core/providers/backend)

    The six-operation key-value contract everything JMAP-shaped is built on:
    batch operations, the counter codec, and - as the type class [Backend] -
    what an engine promises its clients.  [spec_write] and [range_list] are
    the abstract specification over a finite map; [Memory] discharges it for
    the in-memory engine and the object database is proved against it. *)

From S2P Require Import Prelude GoLib Keyenc.

Module Backend.
Import Keyenc.

(** A Go [[]byte] where [nil] and the empty slice differ. *)
Abbreviation slice := (option bytes).

Definition sbytes (v : slice) : bytes := default [] v.

(** ** Batches *)

Inductive Op :=
  | OpSet (key : bytes) (value : slice)
  | OpDelete (key : bytes)
  | OpAdd (key : bytes) (delta : Z)
  | OpAssert (key : bytes) (expect : slice).

Abbreviation Batch := (list Op).

Definition Set_ (b : Batch) (key : bytes) (value : slice) : Batch := b ++ [OpSet key value].
Definition Delete (b : Batch) (key : bytes) : Batch := b ++ [OpDelete key].
Definition Add (b : Batch) (key : bytes) (delta : Z) : Batch := b ++ [OpAdd key delta].
Definition Assert (b : Batch) (key : bytes) (expect : slice) : Batch := b ++ [OpAssert key expect].

(** ** Counter values *)

Definition EncodeInt64 (v : Z) : bytes := be_bytes 8 (Z.lxor (u64 v) (2 ^ 63)).

Definition DecodeInt64 (value : bytes) : result Z :=
  if negb (length value =? 8)%nat then Err ErrCounterNot8Bytes
  else Ok (int64 (Z.lxor (be_val value) (2 ^ 63))).

Lemma lxor_top x : 0 <= x < 2 ^ 64 -> Z.lxor x (2 ^ 63) = (x + 2 ^ 63) mod 2 ^ 64.
Proof.
  intros Hx.
  assert (Hlow : forall y, 0 <= y < 2 ^ 63 -> Z.lxor y (2 ^ 63) = y + 2 ^ 63).
  { intros y Hy. symmetry. apply Z.add_nocarry_lxor. apply Z.bits_inj'. intros n Hn.
    rewrite Z.land_spec, Z.bits_0, Z.pow2_bits_eqb by lia.
    destruct (63 =? n) eqn:E; [|by rewrite andb_false_r].
    apply Z.eqb_eq in E as <-. rewrite andb_true_r.
    rewrite Z.testbit_eqb, Z.div_small by lia. done. }
  destruct (Z.lt_ge_cases x (2 ^ 63)).
  - rewrite Hlow by lia. rewrite Z.mod_small; lia.
  - replace x with ((x - 2 ^ 63) + 2 ^ 63) at 1 by lia.
    rewrite <- Hlow, Z.lxor_assoc, Z.lxor_nilpotent, Z.lxor_0_r by lia.
    replace (x + 2 ^ 63) with (x - 2 ^ 63 + 1 * 2 ^ 64) by lia.
    rewrite Z.mod_add, Z.mod_small; lia.
Qed.

Lemma EncodeInt64_offset v : is_int64 v -> EncodeInt64 v = be_bytes 8 (v + 2 ^ 63).
Proof.
  intros Hv. unfold EncodeInt64. rewrite lxor_top by apply u64_range.
  unfold u64. rewrite Zplus_mod_idemp_l. f_equal. apply Z.mod_small.
  unfold is_int64 in Hv. lia.
Qed.

Lemma EncodeInt64_length v : length (EncodeInt64 v) = 8%nat.
Proof. apply be_bytes_length. Qed.

Lemma be_val_EncodeInt64 v : is_int64 v -> be_val (EncodeInt64 v) = v + 2 ^ 63.
Proof.
  intros Hv. rewrite EncodeInt64_offset, be_val_bytes by done.
  apply Z.mod_small. unfold is_int64 in Hv. change (256 ^ Z.of_nat 8) with (2 ^ 64). lia.
Qed.

Lemma EncodeInt64_compare a b :
  is_int64 a -> is_int64 b -> bcompare (EncodeInt64 a) (EncodeInt64 b) = (a ?= b).
Proof.
  intros Ha Hb. rewrite bcompare_be by (by rewrite !EncodeInt64_length).
  rewrite !be_val_EncodeInt64 by done.
  destruct (Z.compare_spec a b); [apply Z.compare_eq_iff|apply Z.compare_lt_iff|apply Z.compare_gt_iff]; lia.
Qed.

Lemma DecodeInt64_EncodeInt64 v : is_int64 v -> DecodeInt64 (EncodeInt64 v) = Ok v.
Proof.
  intros Hv. unfold DecodeInt64. rewrite EncodeInt64_length. cbn [negb Nat.eqb].
  rewrite be_val_EncodeInt64 by done. f_equal.
  rewrite lxor_top by (unfold is_int64 in Hv; lia).
  change (int64 (u64 (v + 2 ^ 63 + 2 ^ 63)) = v). rewrite int64_u64.
  unfold int64. replace (v + 2 ^ 63 + 2 ^ 63 + 2 ^ 63) with (v + 2 ^ 63 + 1 * 2 ^ 64) by lia.
  rewrite Z.mod_add by lia. rewrite Z.mod_small; unfold is_int64 in Hv; lia.
Qed.

Lemma DecodeInt64_range b v : DecodeInt64 b = Ok v -> is_int64 v.
Proof. unfold DecodeInt64. case_match; intros [= <-]. apply int64_range. Qed.

Lemma EncodeInt64_DecodeInt64 b v : DecodeInt64 b = Ok v -> EncodeInt64 v = b.
Proof.
  unfold DecodeInt64. destruct (length b =? 8)%nat eqn:E; cbn [negb]; intros [= <-].
  apply Nat.eqb_eq in E. pose proof (be_val_bound b) as Hb. rewrite E in Hb.
  change (256 ^ Z.of_nat 8) with (2 ^ 64) in Hb.
  rewrite EncodeInt64_offset by apply int64_range.
  rewrite lxor_top by done. change ((be_val b + 2 ^ 63) mod 2 ^ 64) with (u64 (be_val b + 2 ^ 63)).
  rewrite int64_u64. unfold int64. rewrite <- (be_bytes_val 8 b E) at 2.
  replace (be_val b + 2 ^ 63 + 2 ^ 63) with (be_val b + 1 * 2 ^ 64) by lia.
  rewrite Z.mod_add, Z.mod_small by lia. f_equal. lia.
Qed.

(** ** The abstract store: a finite map of keys to values *)

Abbreviation kvmap := (gmap bytes slice).

(** An [Assert] holds when the key is absent ([nil] expected) or holds bytes
    equal to the expectation. *)
Definition assert_ok (m : kvmap) (op : Op) : bool :=
  match op with
  | OpAssert k None => match m !! k with None => true | Some _ => false end
  | OpAssert k (Some e) =>
      match m !! k with None => false | Some v => bool_decide (sbytes v = e) end
  | _ => true
  end.

Definition apply_op (m : kvmap) (op : Op) : result kvmap :=
  match op with
  | OpSet k v => Ok (<[k := v]> m)
  | OpDelete k => Ok (delete k m)
  | OpAdd k d =>
      base ← match m !! k with None => Ok 0 | Some v => DecodeInt64 (sbytes v) end;
      Ok (<[k := Some (EncodeInt64 (int64 (base + d)))]> m)
  | OpAssert _ _ => Ok m
  end.

Fixpoint apply_ops (m : kvmap) (ops : Batch) : result kvmap :=
  match ops with
  | [] => Ok m
  | op :: ops' => m' ← apply_op m op; apply_ops m' ops'
  end.

(** All asserts are judged against the store as it was before the batch. *)
Definition spec_write (m : kvmap) (ops : Batch) : result kvmap :=
  if forallb (assert_ok m) ops then apply_ops m ops else Err ErrAssertFailed.

Definition keys_of (m : kvmap) : list bytes := sort_strings ((map_to_list m).*1).

Definition range_keys (m : kvmap) (start : bytes) (end_ : slice) : list bytes :=
  filter (fun k => in_range start end_ k = true) (keys_of m).

Definition range_list (m : kvmap) (start : bytes) (end_ : slice) (rev : bool)
  : list (bytes * slice) :=
  let l := map (fun k => (k, default None (m !! k))) (range_keys m start end_) in
  if rev then reverse l else l.

(** A scan callback: it threads its captured variables as [A] and returns
    whether to go on. *)
Fixpoint scan_fold {A} (fn : A -> bytes -> slice -> A * bool) (l : list (bytes * slice)) (a : A) : A :=
  match l with
  | [] => a
  | (k, v) :: l' => let '(a', go) := fn a k v in if go then scan_fold fn l' a' else a'
  end.

(** ** The interface *)

Class Backend (S : Type) := {
  be_Get : S -> bytes -> result slice;
  be_Scan : forall {A : Type}, S -> bytes -> slice -> bool ->
            (A -> bytes -> slice -> A * bool) -> A -> result A;
  be_WriteBatch : S -> Batch -> result S;
  (** [backend.MultiGetter], an optional capability. *)
  be_MultiGet : option (S -> list bytes -> result (list slice));
}.

Class BackendLaws (S : Type) `{Backend S} := {
  be_map : S -> kvmap;
  be_inv : S -> Prop;
  be_Get_spec : forall s k, be_inv s ->
    be_Get s k = match be_map s !! k with Some v => Ok v | None => Err BackendErrNotFound end;
  be_Scan_spec : forall A s start end_ rev (fn : A -> bytes -> slice -> A * bool) a, be_inv s ->
    be_Scan s start end_ rev fn a = Ok (scan_fold fn (range_list (be_map s) start end_ rev) a);
  be_WriteBatch_Ok : forall s ops s', be_inv s -> be_WriteBatch s ops = Ok s' ->
    be_inv s' /\ spec_write (be_map s) ops = Ok (be_map s');
  be_WriteBatch_assert : forall s ops, be_inv s ->
    be_WriteBatch s ops = Err ErrAssertFailed <-> forallb (assert_ok (be_map s)) ops = false;
  be_MultiGet_spec : forall mg s ks, be_MultiGet = Some mg -> be_inv s ->
    mg s ks = Ok (map (fun k => mjoin (be_map s !! k)) ks);
}.

(** ** Lemmas clients share *)

Lemma elem_of_keys_of m k : k ∈ keys_of m <-> is_Some (m !! k).
Proof.
  unfold keys_of. rewrite elem_of_sort_strings, list_elem_of_fmap. split.
  - intros ((k' & v) & -> & Hin). apply elem_of_map_to_list in Hin. eauto.
  - intros [v Hv]. exists (k, v). split; [done|]. by apply elem_of_map_to_list.
Qed.

Lemma NoDup_keys_of m : NoDup (keys_of m).
Proof. unfold keys_of. rewrite sort_strings_perm. apply NoDup_fst_map_to_list. Qed.

Lemma keys_of_sorted m : StronglySorted bytes_lt (keys_of m).
Proof. apply StronglySorted_le_lt; [apply sort_strings_sorted | apply NoDup_keys_of]. Qed.

Lemma elem_of_range_keys m start end_ k :
  k ∈ range_keys m start end_ <-> in_range start end_ k = true /\ is_Some (m !! k).
Proof. unfold range_keys. by rewrite list_elem_of_filter, elem_of_keys_of. Qed.

Lemma elem_of_range_list m start end_ rev k v :
  (k, v) ∈ range_list m start end_ rev <-> in_range start end_ k = true /\ m !! k = Some v.
Proof.
  unfold range_list. set (l := map _ _).
  assert ((k, v) ∈ l <-> in_range start end_ k = true /\ m !! k = Some v) as Hl.
  { unfold l. rewrite list_elem_of_fmap. split.
    - intros (k' & [= -> ->] & Hin). apply elem_of_range_keys in Hin as [? [w ->]]. done.
    - intros [Hr Hv]. exists k. rewrite Hv. split; [done|]. apply elem_of_range_keys. eauto. }
  destruct rev; [rewrite elem_of_reverse|]; done.
Qed.

Lemma StronglySorted_filter {A} (R : relation A) (P : A -> Prop) `{!forall x, Decision (P x)} l :
  StronglySorted R l -> StronglySorted R (filter P l).
Proof.
  induction 1 as [|x l Hs IH Hx]; [constructor|]. rewrite filter_cons. case_decide; [|done].
  constructor; [done|]. rewrite Forall_forall in *. intros y Hy.
  apply list_elem_of_filter in Hy as [_ Hy]. auto.
Qed.

Lemma range_keys_sorted m start end_ : StronglySorted bytes_lt (range_keys m start end_).
Proof. apply StronglySorted_filter, keys_of_sorted. Qed.

Lemma range_list_fst m start end_ : (range_list m start end_ false).*1 = range_keys m start end_.
Proof.
  unfold range_list. cbn. induction (range_keys m start end_) as [|k l IH]; cbn; congruence.
Qed.

(** Collecting every visited key: the callback that appends and never stops. *)
Lemma scan_fold_collect {A} (f : bytes -> slice -> A) l acc :
  scan_fold (fun acc k v => (acc ++ [f k v], true)) l acc = acc ++ map (fun kv => f kv.1 kv.2) l.
Proof.
  revert acc; induction l as [|[k v] l IH]; intros acc; cbn; [by rewrite app_nil_r|].
  by rewrite IH, <- app_assoc.
Qed.

(** Collecting with a budget: the callback stops once [limit] results are
    held; a limit of zero or less is no limit. *)
Definition take_limit {A} (limit : Z) (l : list A) : list A :=
  if limit <=? 0 then l else take (Z.to_nat limit) l.

Definition collect_limit {A} (limit : Z) (f : bytes -> slice -> A)
  (acc : list A) (k : bytes) (v : slice) : list A * bool :=
  let acc' := acc ++ [f k v] in (acc', (limit <=? 0) || (Z.of_nat (length acc') <? limit)).

Lemma scan_fold_limit_acc {A} (f : bytes -> slice -> A) limit l acc :
  0 < limit -> Z.of_nat (length acc) < limit ->
  scan_fold (collect_limit limit f) l acc
  = take (Z.to_nat limit) (acc ++ map (fun kv => f kv.1 kv.2) l).
Proof.
  intros Hl. revert acc; induction l as [|[k v] l IH]; intros acc Hacc; cbn [scan_fold map].
  - rewrite app_nil_r, take_ge; [done|lia].
  - unfold collect_limit at 1. cbn [fst snd]. rewrite (proj2 (Z.leb_gt _ _) Hl). cbn [orb].
    change (f k v :: map (fun kv => f kv.1 kv.2) l)
      with ([f k v] ++ map (fun kv => f kv.1 kv.2) l). rewrite app_assoc.
    destruct (Z.ltb_spec (Z.of_nat (length (acc ++ [f k v]))) limit) as [H|H].
    + by apply IH.
    + rewrite length_app in H; cbn in H.
      replace (Z.to_nat limit) with (length (acc ++ [f k v])) by (rewrite length_app; cbn; lia).
      by rewrite take_app_length.
Qed.

Lemma scan_fold_limit {A} (f : bytes -> slice -> A) limit l :
  scan_fold (collect_limit limit f) l [] = take_limit limit (map (fun kv => f kv.1 kv.2) l).
Proof.
  unfold take_limit. destruct (Z.leb_spec limit 0) as [H|H].
  - trans ([] ++ map (fun kv => f kv.1 kv.2) l); [|done].
    rewrite <- scan_fold_collect. unfold collect_limit.
    rewrite (proj2 (Z.leb_le _ _) H). done.
  - rewrite scan_fold_limit_acc by (cbn; lia). done.
Qed.

(** ** Properties *)

(** Counter values round-trip through their 8-byte encoding in both
    directions, the encoding orders as the integers do under [bytes.Compare],
    and a value of any other length is refused. *)
Theorem int64_codec :
  (forall v, is_int64 v -> DecodeInt64 (EncodeInt64 v) = Ok v) /\
  (forall b v, DecodeInt64 b = Ok v -> EncodeInt64 v = b /\ is_int64 v) /\
  (forall a b, is_int64 a -> is_int64 b ->
     bcompare (EncodeInt64 a) (EncodeInt64 b) = (a ?= b)) /\
  (forall b, length b <> 8%nat -> DecodeInt64 b = Err ErrCounterNot8Bytes).
Proof.
  split_and!; eauto using DecodeInt64_EncodeInt64, EncodeInt64_compare.
  - intros b v H. eauto using EncodeInt64_DecodeInt64, DecodeInt64_range.
  - intros b Hb. unfold DecodeInt64. by rewrite (proj2 (Nat.eqb_neq _ _) Hb).
Qed.

End Backend.
