(* ===== verification/Batches.v ===== *)
(** * Batches: reasoning about the effect of a batch

    A batch without [Add] is a sequence of writes and deletions; [run] is its
    effect.  [realises] is the specification of a piece of index maintenance:
    on its footprint it turns the set of present keys from the old one into
    the new one, and it leaves every other key alone, up to a set of keys
    whose presence does not matter. *)

From S2P Require Import Prelude GoLib Keyenc Backend.

Module Batches.
Import Keyenc Backend.

Definition run_op (m : kvmap) (op : Op) : kvmap :=
  match op with OpSet k v => <[k := v]> m | OpDelete k => delete k m | _ => m end.
Definition run (m : kvmap) (ops : Batch) : kvmap := fold_left run_op ops m.

#[global] Arguments run : simpl never.

Lemma run_cons m op ops : run m (op :: ops) = run (run_op m op) ops.
Proof. done. Qed.

Definition is_add (op : Op) : bool := match op with OpAdd _ _ => true | _ => false end.
Definition is_assert (op : Op) : bool := match op with OpAssert _ _ => true | _ => false end.
Definition op_key (op : Op) : bytes :=
  match op with OpSet k _ | OpDelete k | OpAdd k _ | OpAssert k _ => k end.

Definition no_adds (ops : Batch) : Prop := Forall (fun op => is_add op = false) ops.

Lemma run_app m a b : run m (a ++ b) = run (run m a) b.
Proof. apply fold_left_app. Qed.

Lemma no_adds_app a b : no_adds (a ++ b) <-> no_adds a /\ no_adds b.
Proof. apply Forall_app. Qed.

Lemma apply_ops_run m ops : no_adds ops -> apply_ops m ops = Ok (run m ops).
Proof.
  intros Hn. revert m. induction Hn as [|op ops Hop Hn IH]; intros m; [done|].
  destruct op; try done; cbn; apply IH.
Qed.

(** Keys no operation names keep their value. *)
Lemma run_untouched m ops k : Forall (fun op => op_key op <> k) ops -> run m ops !! k = m !! k.
Proof.
  intros Hk. revert m. induction Hk as [|op ops Hop Hk IH]; intros m; [done|].
  rewrite run_cons, IH. destruct op; cbn in *; rewrite ?lookup_insert_ne, ?lookup_delete_ne by done; done.
Qed.

Lemma run_asserts m ops : Forall (fun op => is_assert op = true) ops -> run m ops = m.
Proof. intros H. induction H as [|op ops Hop H IH]; [done|]. destruct op; try done. Qed.

Definition present (m : kvmap) (k : bytes) : Prop := is_Some (m !! k).

(** Footprint [F], old keys [O], new keys [N]; keys of [D] are don't-care. *)
Record realises (D : bytes -> Prop) (ops : Batch) (F O N : bytes -> Prop) : Prop := mkRealises {
  rz_adds : no_adds ops;
  rz_present : forall m, (forall k, F k -> (present m k <-> O k)) ->
    forall k, F k -> (present (run m ops) k <-> N k);
  rz_frame : forall m k, ~ F k -> ~ D k -> run m ops !! k = m !! k;
}.

Lemma realises_ext D ops F F' O O' N N' :
  (forall k, F k <-> F' k) -> (forall k, F k -> (O k <-> O' k)) -> (forall k, F k -> (N k <-> N' k)) ->
  realises D ops F O N -> realises D ops F' O' N'.
Proof.
  intros HF HO HN [Ha Hp Hf]. constructor; [done| |].
  - intros m Hm k Hk. apply HF in Hk. rewrite <- HN by done. apply Hp; [|done].
    intros k' Hk'. rewrite Hm by (by apply HF). symmetry. by apply HO.
  - intros m k HnF HnD. apply Hf; [|done]. by rewrite HF.
Qed.

Lemma realises_nil D F O : realises D [] F O O.
Proof. constructor; [constructor|done|done]. Qed.

(** Pieces with disjoint footprints compose. *)
Lemma realises_app D a b F1 O1 N1 F2 O2 N2 :
  (forall k, F1 k -> F2 k -> False) -> (forall k, F1 k \/ F2 k -> ~ D k) ->
  realises D a F1 O1 N1 -> realises D b F2 O2 N2 ->
  realises D (a ++ b) (fun k => F1 k \/ F2 k) (fun k => (F1 k /\ O1 k) \/ (F2 k /\ O2 k)) (fun k => (F1 k /\ N1 k) \/ (F2 k /\ N2 k)).
Proof.
  intros Hdis HD [Ha1 Hp1 Hf1] [Ha2 Hp2 Hf2]. constructor.
  - by apply no_adds_app.
  - intros m Hm. rewrite run_app.
    assert (Hm1 : forall k, F1 k -> (present m k <-> O1 k)) by (intros k Hk; rewrite Hm by auto; naive_solver).
    assert (Hm2 : forall k, F2 k -> (present (run m a) k <-> O2 k)).
    { intros k Hk. unfold present. rewrite Hf1 by naive_solver. change (present m k <-> O2 k).
      rewrite Hm by auto. naive_solver. }
    intros k [Hk|Hk].
    + unfold present. rewrite Hf2 by naive_solver. change (present (run m a) k <-> F1 k /\ N1 k \/ F2 k /\ N2 k).
      rewrite (Hp1 m Hm1 k Hk). naive_solver.
    + rewrite (Hp2 _ Hm2 k Hk). naive_solver.
  - intros m k HnF HnD. rewrite run_app. rewrite Hf2, Hf1 by tauto. done.
Qed.

Definition dels (ks : list bytes) : Batch := map OpDelete ks.
Definition sets (ks : list bytes) : Batch := map (fun k => OpSet k None) ks.

Lemma run_dels m ks k : present (run m (dels ks)) k <-> present m k /\ k ∉ ks.
Proof.
  revert m. induction ks as [|k0 ks IH]; intros m; cbn [dels map].
  - unfold run. cbn. set_solver.
  - rewrite run_cons. fold (dels ks). rewrite IH. cbn [run_op]. unfold present. destruct (decide (k = k0)) as [-> |Hne].
    + rewrite lookup_delete_eq. split; [by intros [[? ?] _]|set_solver].
    + rewrite lookup_delete_ne by done. set_solver.
Qed.

Lemma run_sets m ks k : present (run m (sets ks)) k <-> present m k \/ k ∈ ks.
Proof.
  revert m. induction ks as [|k0 ks IH]; intros m; cbn [sets map].
  - unfold run. cbn. set_solver.
  - rewrite run_cons. fold (sets ks). rewrite IH. cbn [run_op]. unfold present. destruct (decide (k = k0)) as [-> |Hne].
    + rewrite lookup_insert_eq. split; [set_solver|]. intros _. left. eauto.
    + rewrite lookup_insert_ne by done. set_solver.
Qed.

Lemma no_adds_dels ks : no_adds (dels ks).
Proof. by apply Forall_map, Forall_true. Qed.
Lemma no_adds_sets ks : no_adds (sets ks).
Proof. by apply Forall_map, Forall_true. Qed.

(** Deletions then settings: the shape of every index update. *)
Lemma realises_diff D F O N ds ss :
  (forall k, k ∈ ds -> F k) -> (forall k, k ∈ ss -> F k) ->
  (forall k, F k -> (N k <-> k ∈ ss \/ (O k /\ k ∉ ds))) ->
  realises D (dels ds ++ sets ss) F O N.
Proof.
  intros Hds Hss HN. constructor.
  - apply no_adds_app. split; [apply no_adds_dels|apply no_adds_sets].
  - intros m Hm k Hk. rewrite run_app, run_sets, run_dels, Hm, HN by done. tauto.
  - intros m k HnF _. rewrite run_app, !run_untouched; [done| |].
    + apply Forall_map, Forall_forall. intros k' Hk' E. apply HnF. rewrite <- E. cbn. auto.
    + apply Forall_map, Forall_forall. intros k' Hk' E. apply HnF. rewrite <- E. cbn. auto.
Qed.
End Batches.
