(* ===== verification/Memory.v ===== *)
(** * Memory: the in-memory backend (core/providers/backend/memory)

    The reference engine: a map plus a sorted key slice.  Its mutex is not
    modelled - each operation is one atomic step - except that [Scan], which
    drops the lock between chunks, reads a possibly different store at every
    chunk ([stores n] is the store when the [n]-th chunk is copied).  The file
    ends with the [BackendLaws] instance: the engine refines the abstract
    store of [Backend]. *)

From S2P Require Import Prelude GoLib Keyenc Backend.

Module Memory.
Import Keyenc Backend.

Record Store := mkStore {
  data : gmap bytes slice;
  keys : list bytes;      (* sorted ascending; always exactly the keys of data *)
  capacity : Z;           (* 0 = unlimited *)
  used : Z;               (* sum of stored value sizes, maintained by WriteBatch *)
}.

(** ** Construction *)

Definition WithCapacity (n : Z) (s : Store) : Store := mkStore (data s) (keys s) n (used s).

Definition New (opts : list (Store -> Store)) : Store :=
  fold_left (fun s o => o s) opts (mkStore ∅ [] 0 0).

(** ** sort.SearchStrings *)

(** The binary search of [sort.Search] on [[i, j)]. *)
Fixpoint search (fuel : nat) (f : nat -> bool) (i j : nat) : nat :=
  match fuel with
  | O => i
  | S fuel' =>
      if (i <? j)%nat then
        let h := ((i + j) / 2)%nat in
        if f h then search fuel' f i h else search fuel' f (h + 1) j
      else i
  end.

Definition SearchStrings (a : list bytes) (x : bytes) : nat :=
  search (length a) (fun i => ble x (a !!! i)) 0 (length a).

(** ** Reads *)

Definition Get (s : Store) (key : bytes) : result slice :=
  match data s !! key with
  | None => Err BackendErrNotFound
  | Some v => Ok v
  end.

Definition MultiGet (s : Store) (ks : list bytes) : result (list slice) :=
  Ok (map (fun key => match data s !! key with Some v => v | None => None end) ks).

Definition chunk : nat := 64.

(** [s.data[k]] for a key of the slice. *)
Definition value_at (s : Store) (k : bytes) : slice := default None (data s !! k).

(** The inner loops: copy up to [n] entries from the remaining keys. *)
Fixpoint copy_forward (s : Store) (end_ : slice) (n : nat) (ks : list bytes) : list (bytes * slice) :=
  match n, ks with
  | O, _ | _, [] => []
  | S n', k :: ks' =>
      match end_ with
      | Some e => if ble e k then [] else (k, value_at s k) :: copy_forward s end_ n' ks'
      | None => (k, value_at s k) :: copy_forward s end_ n' ks'
      end
  end.

Fixpoint copy_reverse (s : Store) (start : bytes) (n : nat) (ks : list bytes) : list (bytes * slice) :=
  match n, ks with
  | O, _ | _, [] => []
  | S n', k :: ks' =>
      if blt k start then [] else (k, value_at s k) :: copy_reverse s start n' ks'
  end.

(** One chunk, copied under the read lock. *)
Definition next_chunk (s : Store) (start : bytes) (end_ : slice) (reverse : bool)
  (cursor : option bytes) : list (bytes * slice) :=
  if reverse then
    let hi := match cursor with
              | Some c => SearchStrings (keys s) c
              | None => match end_ with
                        | Some e => SearchStrings (keys s) e
                        | None => length (keys s)
                        end
              end in
    copy_reverse s start chunk (rev (take hi (keys s)))
  else
    let lo := match cursor with
              | None => SearchStrings (keys s) start
              | Some c =>
                  let lo := SearchStrings (keys s) c in
                  if bool_decide (keys s !! lo = Some c) then (lo + 1)%nat else lo
              end in
    copy_forward s end_ chunk (drop lo (keys s)).

(** Hand a copied chunk to the callback, outside the lock. *)
Fixpoint visit {A} (fn : A -> bytes -> slice -> A * bool) (buf : list (bytes * slice)) (a : A) : A * bool :=
  match buf with
  | [] => (a, true)
  | (k, v) :: buf' => let '(a', go) := fn a k v in if go then visit fn buf' a' else (a', false)
  end.

Fixpoint scan_loop {A} (fuel : nat) (stores : nat -> Store) (n : nat) (start : bytes) (end_ : slice)
  (reverse : bool) (cursor : option bytes) (fn : A -> bytes -> slice -> A * bool) (a : A) : result A :=
  match fuel with
  | O => Err OutOfFuel
  | S fuel' =>
      let buf := next_chunk (stores n) start end_ reverse cursor in
      let '(a', go) := visit fn buf a in
      if negb go then Ok a'
      else if (length buf <? chunk)%nat then Ok a'
      else scan_loop fuel' stores (S n) start end_ reverse (fst <$> last buf) fn a'
  end.

(** A scan of an unchanging store: every full chunk consumes 64 keys, so one
    iteration more than there are keys is enough. *)
Definition Scan {A} (s : Store) (start : bytes) (end_ : slice) (reverse : bool)
  (fn : A -> bytes -> slice -> A * bool) (a : A) : result A :=
  scan_loop (S (length (keys s))) (fun _ => s) 0 start end_ reverse None fn a.

(** ** WriteBatch *)

Record staged := mkStaged { value : slice; deleted : bool }.

(** Asserts are validated before any mutation. *)
Fixpoint check_asserts (s : Store) (ops : Batch) : result unit :=
  match ops with
  | [] => Ok tt
  | OpAssert k expect :: ops' =>
      match expect with
      | None => match data s !! k with
                | Some _ => Err ErrAssertFailed
                | None => check_asserts s ops'
                end
      | Some e => match data s !! k with
                  | None => Err ErrAssertFailed
                  | Some current => if bool_decide (sbytes current = e) then check_asserts s ops'
                                    else Err ErrAssertFailed
                  end
      end
  | _ :: ops' => check_asserts s ops'
  end.

Definition lookup_pending (s : Store) (pending : gmap bytes staged) (k : bytes) : option slice :=
  match pending !! k with
  | Some st => if deleted st then None else Some (value st)
  | None => data s !! k
  end.

Fixpoint stage_ops (s : Store) (pending : gmap bytes staged) (ops : Batch) : result (gmap bytes staged) :=
  match ops with
  | [] => Ok pending
  | OpSet k v :: ops' => stage_ops s (<[k := mkStaged v false]> pending) ops'
  | OpDelete k :: ops' => stage_ops s (<[k := mkStaged None true]> pending) ops'
  | OpAdd k delta :: ops' =>
      base ← match lookup_pending s pending k with
             | Some v => DecodeInt64 (sbytes v)
             | None => Ok 0
             end;
      stage_ops s (<[k := mkStaged (Some (EncodeInt64 (int64 (base + delta)))) false]> pending) ops'
  | OpAssert _ _ :: ops' => stage_ops s pending ops'
  end.

Definition vlen (v : slice) : Z := Z.of_nat (length (sbytes v)).

(** [len(s.data[k])]: zero for an absent key. *)
Definition old_len (s : Store) (k : bytes) : Z := vlen (value_at s k).

Definition net_delta (s : Store) (pending : list (bytes * staged)) : Z :=
  fold_left (fun d p => d + ((if deleted p.2 then 0 else vlen (value p.2)) - old_len s p.1)) pending 0.

Definition insertKey (ks : list bytes) (k : bytes) : list bytes :=
  let i := SearchStrings ks k in take i ks ++ k :: drop i ks.

Definition removeKey (ks : list bytes) (k : bytes) : list bytes :=
  let i := SearchStrings ks k in
  if bool_decide (ks !! i = Some k) then take i ks ++ drop (i + 1) ks else ks.

Definition apply_staged (s : Store) (p : bytes * staged) : Store :=
  let '(k, st) := p in
  let existed := bool_decide (is_Some (data s !! k)) in
  if deleted st then
    if existed then mkStore (delete k (data s)) (removeKey (keys s) k) (capacity s) (used s) else s
  else
    mkStore (<[k := value st]> (data s))
            (if existed then keys s else insertKey (keys s) k) (capacity s) (used s).

Definition WriteBatch (s : Store) (b : Batch) : result Store :=
  _ ← check_asserts s b;
  pending ← stage_ops s ∅ b;
  let entries := map_to_list pending in
  let delta := net_delta s entries in
  if (0 <? capacity s) && (capacity s <? used s + delta) then Err ErrNoSpace
  else
    let s' := if 0 <? capacity s then mkStore (data s) (keys s) (capacity s) (used s + delta) else s in
    Ok (fold_left apply_staged entries s').

Definition Close (s : Store) : Store := mkStore ∅ [] (capacity s) (used s).

(** ** Binary search *)

Lemma search_spec fuel f i j n :
  (forall a b, (a <= b < n)%nat -> f a = true -> f b = true) ->
  (i <= j <= n)%nat -> (j - i <= fuel)%nat ->
  (forall h, (h < i)%nat -> f h = false) -> (forall h, (j <= h < n)%nat -> f h = true) ->
  let r := search fuel f i j in
  (i <= r <= j)%nat /\ (forall h, (h < r)%nat -> f h = false) /\
  (forall h, (r <= h < n)%nat -> f h = true).
Proof.
  intros Hmono. revert i j; induction fuel as [|fuel IH]; intros i j Hij Hf Hlo Hhi; cbn.
  - assert (i = j) as -> by lia. split_and!; [lia|lia|done|done].
  - destruct (Nat.ltb_spec i j) as [Hlt|Hge].
    + pose proof (Nat.div_mod_eq (i + j) 2). pose proof (Nat.mod_upper_bound (i + j) 2).
      set (h := ((i + j) / 2)%nat) in *. destruct (f h) eqn:Eh.
      * destruct (IH i h) as (H1 & H2 & H3); try lia; auto.
        { intros g Hg. apply (Hmono h); auto; lia. }
        split_and!; [lia|lia|done|done].
      * destruct (IH (h + 1)%nat j) as (H1 & H2 & H3); try lia; auto.
        { intros g Hg. destruct (f g) eqn:Eg; [|done].
          rewrite (Hmono g h) in Eh; [done|lia|done]. }
        split_and!; [lia|lia|done|done].
    + assert (i = j) as -> by lia. split_and!; [lia|lia|done|done].
Qed.

Definition sorted (ks : list bytes) : Prop := StronglySorted bytes_lt ks.

Lemma sorted_lookup ks i j a b :
  sorted ks -> (i < j)%nat -> ks !! i = Some a -> ks !! j = Some b -> blt a b = true.
Proof.
  intros Hs; revert i j; induction Hs as [|x ks Hs IH Hx]; intros i j Hij Ha Hb; [done|].
  destruct i as [|i], j as [|j]; cbn in *; try lia.
  - injection Ha as ->. rewrite Forall_forall in Hx. apply Hx. by eapply list_elem_of_lookup_2.
  - eapply (IH i j); auto. lia.
Qed.

Lemma SearchStrings_split ks x :
  sorted ks ->
  take (SearchStrings ks x) ks = filter (fun k => blt k x = true) ks /\
  drop (SearchStrings ks x) ks = filter (fun k => ble x k = true) ks.
Proof.
  intros Hs. unfold SearchStrings. set (f := fun i => ble x (ks !!! i)).
  destruct (search_spec (length ks) f 0 (length ks) (length ks)) as (H1 & H2 & H3);
    [|lia|lia|intros; lia|intros; lia|].
  { unfold f. intros a b [Hab Hb] Ha.
    destruct (Nat.eq_dec a b) as [->|]; [done|].
    destruct (lookup_lt_is_Some_2 ks a) as [u Hu]; [lia|].
    destruct (lookup_lt_is_Some_2 ks b) as [w Hw]; [lia|].
    rewrite (list_lookup_total_correct _ _ _ Hu) in Ha.
    rewrite (list_lookup_total_correct _ _ _ Hw).
    eapply ble_trans; [exact Ha|]. apply blt_le, (sorted_lookup ks a b); auto; lia. }
  set (r := search _ _ _ _) in *.
  assert (Forall (fun k => blt k x = true) (take r ks)) as Hl.
  { apply Forall_lookup. intros i k Hk. apply lookup_take_Some in Hk as [Hk Hi].
    specialize (H2 i Hi). unfold f in H2. rewrite (list_lookup_total_correct _ _ _ Hk) in H2.
    rewrite ble_negb in H2. by destruct (blt k x). }
  assert (Forall (fun k => ble x k = true) (drop r ks)) as Hr.
  { apply Forall_lookup. intros i k Hk. rewrite lookup_drop in Hk.
    specialize (H3 (r + i)%nat). unfold f in H3.
    rewrite (list_lookup_total_correct _ _ _ Hk) in H3. apply H3.
    apply lookup_lt_Some in Hk. lia. }
  clear -Hl Hr. rewrite <- (take_drop r ks) at 2 4. rewrite !filter_app.
  rewrite (list_filter_all (fun k => blt k x = true) (take r ks)) by done.
  rewrite (list_filter_all (fun k => ble x k = true) (drop r ks)) by done.
  rewrite !list_filter_none; [by rewrite app_nil_r| |].
  - eapply Forall_impl; [exact Hl|]. cbn. intros k Hk. rewrite ble_negb, Hk. done.
  - eapply Forall_impl; [exact Hr|]. cbn. intros k Hk. rewrite blt_negb, Hk. done.
Qed.

(** ** Chunks *)

(** [dlt reverse a b]: [b] comes after [a] in the direction of the scan. *)
Definition dlt (reverse : bool) (a b : bytes) : Prop :=
  if reverse then blt b a = true else blt a b = true.
Definition after (reverse : bool) (cursor : option bytes) (k : bytes) : Prop :=
  match cursor with None => True | Some c => dlt reverse c k end.
#[local] Instance dlt_dec r a b : Decision (dlt r a b).
Proof. unfold dlt. destruct r; apply _. Defined.
#[local] Instance after_dec r c k : Decision (after r c k).
Proof. destruct c; cbn; apply _. Defined.

Definition rem_keys (s : Store) start end_ (reverse : bool) (cursor : option bytes) : list bytes :=
  let l := filter (fun k => in_range start end_ k = true /\ after reverse cursor k) (keys s) in
  if reverse then rev l else l.
(** What a scan has still to visit after [cursor]. *)
Definition remaining (s : Store) start end_ (reverse : bool) (cursor : option bytes) : list (bytes * slice) :=
  map (fun k => (k, value_at s k)) (rem_keys s start end_ reverse cursor).

Definition cursor_ok (start : bytes) (end_ : slice) (cursor : option bytes) : Prop :=
  match cursor with None => True | Some c => in_range start end_ c = true end.

Definition below (end_ : slice) (k : bytes) : bool :=
  match end_ with None => true | Some e => blt k e end.

Lemma in_range_iff start end_ k :
  in_range start end_ k = true <-> ble start k = true /\ below end_ k = true.
Proof. unfold in_range. by rewrite andb_true_iff. Qed.

Lemma copy_forward_spec s end_ n ks :
  sorted ks ->
  copy_forward s end_ n ks =
  take n (map (fun k => (k, value_at s k))
              (filter (fun k => below end_ k = true) ks)).
Proof.
  intros Hs; revert n; induction Hs as [|k ks Hs IH Hk]; intros [|n]; cbn [copy_forward]; try done.
  destruct end_ as [e|].
  - destruct (ble e k) eqn:E.
    + rewrite list_filter_none; [done|]. constructor; [cbn; by rewrite blt_negb, E|].
      eapply Forall_impl; [exact Hk|]. intros k' Hk'. cbn. rewrite blt_negb.
      rewrite (ble_trans e k k'); [done|done|by apply blt_le].
    + rewrite filter_cons_True by (cbn; by rewrite blt_negb, E). cbn. f_equal. apply IH.
  - rewrite filter_cons_True by done. cbn. f_equal. apply IH.
Qed.

Lemma copy_reverse_spec s start n ks :
  StronglySorted (fun a b => blt b a = true) ks ->
  copy_reverse s start n ks =
  take n (map (fun k => (k, value_at s k)) (filter (fun k => ble start k = true) ks)).
Proof.
  intros Hs; revert n; induction Hs as [|k ks Hs IH Hk]; intros [|n]; cbn [copy_reverse]; try done.
  destruct (blt k start) eqn:E.
  - rewrite list_filter_none; [done|]. constructor; [by rewrite ble_negb, E|].
    eapply Forall_impl; [exact Hk|]. intros k' Hk'. cbn. rewrite ble_negb.
    by rewrite (blt_trans k' k start).
  - rewrite filter_cons_True by (by rewrite ble_negb, E). cbn. f_equal. apply IH.
Qed.

Lemma sorted_filter P `{!forall x, Decision (P x)} ks : sorted ks -> sorted (filter P ks).
Proof. apply StronglySorted_filter. Qed.

Lemma StronglySorted_rev {A} (R : relation A) l :
  StronglySorted R l -> StronglySorted (fun a b => R b a) (rev l).
Proof.
  induction 1 as [|x l Hs IH Hx]; cbn; [constructor|].
  apply StronglySorted_app_2; [|done|repeat constructor].
  intros a b Ha Hb. apply list_elem_of_singleton in Hb as ->.
  rewrite Forall_forall in Hx. apply Hx. apply list_elem_of_In, in_rev, list_elem_of_In. done.
Qed.

Lemma filter_after_cursor ks c :
  sorted ks ->
  drop (if bool_decide (ks !! SearchStrings ks c = Some c)
        then (SearchStrings ks c + 1)%nat else SearchStrings ks c) ks
  = filter (fun k => blt c k = true) ks.
Proof.
  intros Hs. destruct (SearchStrings_split ks c Hs) as [_ Hd].
  trans (filter (fun k => blt c k = true) (filter (fun k => ble c k = true) ks)).
  2:{ rewrite list_filter_filter. apply list_filter_iff. intros k. split; [tauto|]. auto using blt_le. }
  rewrite <- Hd. case_bool_decide as E.
  - rewrite (drop_S _ _ _ E), filter_cons_False by (by rewrite blt_irrefl).
    rewrite Nat.add_1_r. symmetry. apply list_filter_all.
    apply Forall_lookup. intros i k Hk. rewrite lookup_drop in Hk.
    eapply sorted_lookup; [exact Hs| |exact E|exact Hk]. lia.
  - symmetry. apply list_filter_all. apply Forall_lookup. intros i k Hk.
    assert (ble c k = true) as Hle.
    { eapply list_elem_of_lookup_2 in Hk. rewrite Hd in Hk. by apply list_elem_of_filter in Hk as [? _]. }
    apply ble_blt_eq in Hle as [?| <-]; [done|]. destruct i as [|i].
    + rewrite lookup_drop, Nat.add_0_r in Hk. done.
    + rewrite lookup_drop in Hk.
      destruct (lookup_lt_is_Some_2 ks (SearchStrings ks c)) as [w Hw].
      { apply lookup_lt_Some in Hk. lia. }
      assert (blt w c = true) as C by (eapply sorted_lookup; [exact Hs| |exact Hw|exact Hk]; lia).
      assert (w ∈ drop (SearchStrings ks c) ks) as Hin.
      { apply (list_elem_of_lookup_2 _ 0). by rewrite lookup_drop, Nat.add_0_r. }
      rewrite Hd in Hin. apply list_elem_of_filter in Hin as [Hin _].
      rewrite ble_negb, C in Hin. done.
Qed.

Lemma next_chunk_spec s start end_ reverse cursor :
  sorted (keys s) -> cursor_ok start end_ cursor ->
  next_chunk s start end_ reverse cursor = take chunk (remaining s start end_ reverse cursor).
Proof.
  intros Hs Hc. unfold next_chunk, remaining, rem_keys. destruct reverse.
  - set (hi := match cursor with Some _ => _ | None => _ end).
    assert (take hi (keys s) = filter (fun k => below end_ k = true /\ after true cursor k) (keys s)) as Ht.
    { unfold hi. destruct cursor as [c|]; cbn [after dlt].
      - rewrite (proj1 (SearchStrings_split _ c Hs)). apply list_filter_iff. intros k.
        split; [|tauto]. intros Hk. split; [|done]. cbn in Hc. apply in_range_iff in Hc as [_ Hc].
        destruct end_ as [e|]; [|done]. cbn in *. by eapply blt_trans.
      - destruct end_ as [e|]; cbn.
        + rewrite (proj1 (SearchStrings_split _ e Hs)). apply list_filter_iff. tauto.
        + rewrite firstn_all. symmetry. apply list_filter_all. by apply Forall_true. }
    rewrite Ht, copy_reverse_spec by (apply StronglySorted_rev, sorted_filter, Hs).
    f_equal. f_equal. rewrite !rev_reverse, filter_reverse, list_filter_filter. f_equal.
    apply list_filter_iff. intros k. rewrite in_range_iff. tauto.
  - set (lo := match cursor with Some _ => _ | None => _ end).
    assert (drop lo (keys s) = filter (fun k => ble start k = true /\ after false cursor k) (keys s)) as Hd.
    { unfold lo. destruct cursor as [c|]; cbn [after dlt].
      - cbv zeta. rewrite filter_after_cursor by done. apply list_filter_iff. intros k.
        split; [|tauto]. intros Hk. split; [|done]. cbn in Hc. apply in_range_iff in Hc as [Hc _].
        eapply ble_trans; [exact Hc|]. by apply blt_le.
      - rewrite (proj2 (SearchStrings_split _ start Hs)). apply list_filter_iff. tauto. }
    rewrite Hd, copy_forward_spec by (apply sorted_filter, Hs). f_equal. f_equal.
    rewrite list_filter_filter. apply list_filter_iff. intros k. rewrite in_range_iff. tauto.
Qed.

Lemma rem_keys_sorted s start end_ reverse cursor :
  sorted (keys s) -> StronglySorted (dlt reverse) (rem_keys s start end_ reverse cursor).
Proof.
  intros Hs. unfold rem_keys. destruct reverse.
  - apply StronglySorted_rev, sorted_filter, Hs.
  - apply sorted_filter, Hs.
Qed.

Lemma elem_of_rem_keys s start end_ reverse cursor k :
  k ∈ rem_keys s start end_ reverse cursor <->
  in_range start end_ k = true /\ after reverse cursor k /\ k ∈ keys s.
Proof.
  unfold rem_keys. destruct reverse; rewrite ?rev_reverse, ?elem_of_reverse, list_elem_of_filter; tauto.
Qed.

Lemma dlt_trans r a b c : dlt r a b -> dlt r b c -> dlt r a c.
Proof. destruct r; cbn; eauto using blt_trans. Qed.
Lemma dlt_irrefl r a : ~ dlt r a a.
Proof. destruct r; cbn; by rewrite blt_irrefl. Qed.

Lemma filter_split_sorted r c l1 l2 :
  StronglySorted (dlt r) (l1 ++ [c] ++ l2) ->
  filter (fun k => dlt r c k) (l1 ++ [c] ++ l2) = l2.
Proof.
  intros Hs. rewrite !filter_app.
  apply StronglySorted_app in Hs as (H1 & _ & Hs). apply StronglySorted_app in Hs as (H2 & _ & _).
  rewrite (list_filter_none _ l1), (list_filter_none _ [c]), (list_filter_all _ l2); [done| | |].
  - apply Forall_forall. intros x Hx. apply H2; [by apply list_elem_of_singleton|done].
  - repeat constructor. apply dlt_irrefl.
  - apply Forall_forall. intros x Hx Hc. apply (dlt_irrefl r x). eapply dlt_trans; [|exact Hc].
    apply H1; [done|]. apply elem_of_app. left. by apply list_elem_of_singleton.
Qed.

Lemma rem_keys_next s start end_ reverse cursor c l1 l2 :
  sorted (keys s) ->
  rem_keys s start end_ reverse cursor = l1 ++ [c] ++ l2 ->
  in_range start end_ c = true /\ rem_keys s start end_ reverse (Some c) = l2.
Proof.
  intros Hs E.
  assert (c ∈ rem_keys s start end_ reverse cursor) as Hc by (rewrite E; set_solver).
  apply elem_of_rem_keys in Hc as (Hr & Ha & _). split; [done|].
  trans (filter (fun k => dlt reverse c k) (rem_keys s start end_ reverse cursor)).
  - unfold rem_keys. destruct reverse; rewrite ?rev_reverse, ?filter_reverse, list_filter_filter; f_equal;
      apply list_filter_iff; intros k; cbn; (split; [|tauto]); intros [Hk Hd]; split_and!; auto;
      (destruct cursor; [|done]); cbn in *; eauto using blt_trans.
  - rewrite E. apply filter_split_sorted. rewrite <- E. by apply rem_keys_sorted.
Qed.

Lemma visit_app {A} (fn : A -> bytes -> slice -> A * bool) buf rest a :
  scan_fold fn (buf ++ rest) a =
  let '(a', go) := visit fn buf a in if go then scan_fold fn rest a' else a'.
Proof.
  revert a; induction buf as [|[k v] buf IH]; intros a; cbn; [done|].
  destruct (fn a k v) as [a' []]; [apply IH|done].
Qed.

(** The last key of a full chunk splits what remains. *)
Lemma last_chunk {B} (l : list B) n :
  (0 < n)%nat -> length (take n l) = n ->
  exists l1 c, last (take n l) = Some c /\ l = l1 ++ [c] ++ drop n l.
Proof.
  intros Hn Hl. destruct (take n l) as [|x l'] eqn:E using rev_ind; [cbn in Hl; lia|].
  exists l', x. rewrite last_snoc. split; [done|]. rewrite app_assoc, <- E. by rewrite take_drop.
Qed.

Lemma scan_loop_spec {A} fuel s n start end_ reverse cursor (fn : A -> bytes -> slice -> A * bool) a :
  sorted (keys s) -> cursor_ok start end_ cursor ->
  (length (rem_keys s start end_ reverse cursor) < fuel)%nat ->
  scan_loop fuel (fun _ => s) n start end_ reverse cursor fn a =
  Ok (scan_fold fn (remaining s start end_ reverse cursor) a).
Proof.
  intros Hs. revert n cursor a; induction fuel as [|fuel IH]; intros n cursor a Hc Hf; [lia|].
  cbn [scan_loop]. rewrite next_chunk_spec by done.
  set (R := remaining s start end_ reverse cursor).
  destruct (visit fn (take chunk R) a) as [a' go] eqn:Ev.
  pose proof (visit_app fn (take chunk R) (drop chunk R) a) as Hv.
  rewrite take_drop, Ev in Hv. rewrite Hv. destruct go; cbn [negb]; [|done].
  destruct (Nat.ltb_spec (length (take chunk R)) chunk) as [Hlt|Hge].
  - rewrite drop_ge; [done|]. rewrite length_take in Hlt. lia.
  - assert (length (take chunk R) = chunk) as Hlen by (rewrite length_take in *; lia).
    unfold R, remaining in Hlen. rewrite <- fmap_take, length_fmap in Hlen.
    destruct (last_chunk (rem_keys s start end_ reverse cursor) chunk) as (l1 & c & Hlast & Hsplit);
      [unfold chunk; lia|done|].
    destruct (rem_keys_next s start end_ reverse cursor c l1 _ Hs Hsplit) as [Hin Hrem].
    assert (fst <$> last (take chunk R) = Some c) as ->.
    { unfold R, remaining. change (map ?f ?l) with (f <$> l). rewrite <- fmap_take, fmap_last, Hlast. done. }
    rewrite IH; [|done|rewrite Hrem, length_drop; unfold chunk in *; rewrite length_take in Hlen; lia].
    f_equal. f_equal. unfold R, remaining. rewrite Hrem. apply fmap_drop.
Qed.

(** ** The store invariant *)

Definition total (m : gmap bytes slice) : Z := map_fold (fun _ v acc => vlen v + acc) 0 m.

Record store_inv (s : Store) : Prop := {
  inv_sorted : sorted (keys s);
  inv_keys : forall k, k ∈ keys s <-> is_Some (data s !! k);
}.

(** With a capacity configured, [used] is the number of stored value bytes
    and never exceeds it. *)
Definition capacity_inv (s : Store) : Prop :=
  0 < capacity s -> used s = total (data s) /\ used s <= capacity s.

Lemma keys_are_keys_of s : store_inv s -> keys s = keys_of (data s).
Proof.
  intros [Hs Hk].
  apply (StronglySorted_unique bytes_lt); [exact Hs|apply keys_of_sorted|].
  apply NoDup_Permutation; [|apply NoDup_keys_of|].
  - clear Hk. induction Hs as [|k ks Hs IH Hx]; constructor; [|done].
    intros Hin. rewrite Forall_forall in Hx. specialize (Hx _ Hin).
    unfold bytes_lt in Hx. by rewrite blt_irrefl in Hx.
  - intros k. rewrite Hk, elem_of_keys_of. done.
Qed.

Lemma remaining_is_range s start end_ reverse :
  store_inv s -> remaining s start end_ reverse None = range_list (data s) start end_ reverse.
Proof.
  intros Hi. unfold remaining, rem_keys, range_list, range_keys.
  rewrite (keys_are_keys_of s Hi). unfold value_at.
  rewrite (list_filter_iff (fun k => in_range start end_ k = true /\ after reverse None k)
             (fun k => in_range start end_ k = true)) by (intros; cbn; tauto).
  destruct reverse; [|done]. rewrite rev_reverse. apply fmap_reverse.
Qed.

Lemma Scan_spec {A} s start end_ reverse (fn : A -> bytes -> slice -> A * bool) a :
  store_inv s ->
  Scan s start end_ reverse fn a = Ok (scan_fold fn (range_list (data s) start end_ reverse) a).
Proof.
  intros Hi. unfold Scan. rewrite scan_loop_spec; [by rewrite remaining_is_range|apply Hi|done|].
  unfold rem_keys. destruct reverse; rewrite ?length_rev; pose proof (length_filter
    (fun k => in_range start end_ k = true /\ True) (keys s)) as H; cbn; lia.
Qed.

Lemma sorted_app_cons l1 k l2 :
  sorted (l1 ++ l2) -> Forall (fun x => blt x k = true) l1 -> Forall (fun x => blt k x = true) l2 ->
  sorted (l1 ++ k :: l2).
Proof.
  intros Hs H1 H2. apply StronglySorted_app in Hs as (Hx & Hs1 & Hs2).
  apply StronglySorted_app. split_and!; auto; [|by constructor].
  intros a b Ha [-> |Hb]%elem_of_cons; [|by apply Hx]. rewrite Forall_forall in H1. by apply H1.
Qed.

Lemma insertKey_spec ks k :
  sorted ks -> k ∉ ks ->
  sorted (insertKey ks k) /\ forall x, x ∈ insertKey ks k <-> x = k \/ x ∈ ks.
Proof.
  intros Hs Hk. unfold insertKey. destruct (SearchStrings_split ks k Hs) as [Ht Hd].
  pose proof (take_drop (SearchStrings ks k) ks) as Happ.
  set (i := SearchStrings ks k) in *. split.
  - apply sorted_app_cons; [by rewrite Happ| |].
    + rewrite Ht. apply Forall_forall. intros x Hx. by apply list_elem_of_filter in Hx as [? _].
    + rewrite Hd. apply Forall_forall. intros x [Hx Hin]%list_elem_of_filter.
      apply ble_blt_eq in Hx as [?| <-]; done.
  - intros x. rewrite elem_of_app, elem_of_cons. rewrite <- Happ at 3. rewrite elem_of_app. tauto.
Qed.

Lemma removeKey_spec ks k :
  sorted ks -> k ∈ ks ->
  sorted (removeKey ks k) /\ forall x, x ∈ removeKey ks k <-> x <> k /\ x ∈ ks.
Proof.
  intros Hs Hk. unfold removeKey. destruct (SearchStrings_split ks k Hs) as [Ht Hd].
  pose proof (take_drop (SearchStrings ks k) ks) as Happ.
  pose proof (filter_after_cursor ks k Hs) as Ha.
  set (i := SearchStrings ks k) in *.
  assert (ks !! i = Some k) as Ei.
  { destruct (decide (ks !! i = Some k)) as [|Hne]; [done|].
    rewrite bool_decide_false in Ha by done. exfalso.
    assert (k ∈ drop i ks) as Hin by (rewrite Hd; apply list_elem_of_filter; auto using ble_refl).
    rewrite Ha in Hin. apply list_elem_of_filter in Hin as [Hin _]. by rewrite blt_irrefl in Hin. }
  rewrite bool_decide_true in Ha |- * by done. rewrite Ha, Ht. split.
  - apply StronglySorted_app. split_and!; [|by apply sorted_filter|by apply sorted_filter].
    intros a b [Ha1 _]%list_elem_of_filter [Hb1 _]%list_elem_of_filter. by eapply blt_trans.
  - intros x. rewrite elem_of_app, !list_elem_of_filter.
    destruct (blt_total x k) as [H|[-> |H]]; rewrite ?blt_irrefl; try naive_solver.
    + split; [|tauto]. intros [[_ ?]|[C ?]]; split; auto; by apply blt_neq.
    + split; [|tauto]. intros [[C ?]|[_ ?]]; (split; [|done]); intros ->; by rewrite blt_irrefl in H.
Qed.

#[local] Arguments apply_staged : simpl never.

(** [apply_staged] changes one key of the map and keeps the key slice in
    step. *)
Definition staged_value (st : staged) : option slice := if deleted st then None else Some (value st).

Lemma apply_staged_lookup s k st k' :
  data (apply_staged s (k, st)) !! k' = if decide (k' = k) then staged_value st else data s !! k'.
Proof.
  unfold apply_staged, staged_value. destruct (deleted st).
  - case_bool_decide as E; cbn; case_decide; subst; rewrite ?lookup_delete_eq, ?lookup_delete_ne by done; auto.
    by apply eq_None_not_Some.
  - cbn. case_decide; subst; rewrite ?lookup_insert_eq, ?lookup_insert_ne by done; auto.
Qed.

Lemma apply_staged_inv s p : store_inv s -> store_inv (apply_staged s p).
Proof.
  destruct p as [k st]. intros [Hs Hk].
  assert (forall ks : list bytes, (forall x, x ∈ ks <-> if decide (x = k) then is_Some (staged_value st) else x ∈ keys s) ->
     forall x, x ∈ ks <-> is_Some (data (apply_staged s (k, st)) !! x)) as Hks.
  { intros ks H x. rewrite H, apply_staged_lookup. case_decide; [done|apply Hk]. }
  unfold apply_staged, staged_value in *. destruct (deleted st) eqn:Ed; case_bool_decide as E; cbn in *.
  - destruct (removeKey_spec (keys s) k) as [H1 H2]; [done|by apply Hk|].
    split; [done|]. apply Hks. intros x. rewrite H2. case_decide; [|tauto].
    split; [tauto|intros [? [=]]].
  - split; [done|]. apply Hks. intros x. case_decide as Ex; [|tauto]. subst.
    rewrite Hk. split; [done|intros [? [=]]].
  - split; [done|]. apply Hks. intros x. case_decide as Ex; [|tauto]. subst. rewrite Hk. naive_solver.
  - destruct (insertKey_spec (keys s) k) as [H1 H2]; [done|by rewrite Hk|].
    split; [done|]. apply Hks. intros x. rewrite H2. case_decide; naive_solver.
Qed.

Lemma fold_staged_inv l s : store_inv s -> store_inv (fold_left apply_staged l s).
Proof. revert s; induction l as [|p l IH]; intros s Hs; cbn; [done|]. by apply IH, apply_staged_inv. Qed.

Lemma fold_staged_lookup l s k :
  NoDup l.*1 ->
  data (fold_left apply_staged l s) !! k =
  match (list_to_map l : gmap bytes staged) !! k with
  | Some st => staged_value st
  | None => data s !! k
  end.
Proof.
  revert s; induction l as [|[k0 st] l IH]; intros s Hn; cbn; [by rewrite lookup_empty|].
  inversion Hn as [|? ? Hni Hn']; subst. rewrite IH by done.
  destruct (decide (k = k0)) as [-> |Hne].
  - rewrite lookup_insert_eq, not_elem_of_list_to_map_1, apply_staged_lookup by done.
    by rewrite decide_True.
  - rewrite lookup_insert_ne by done. rewrite apply_staged_lookup, decide_False by done. done.
Qed.

Lemma fold_staged_frame l s :
  capacity (fold_left apply_staged l s) = capacity s /\ used (fold_left apply_staged l s) = used s.
Proof.
  revert s; induction l as [|[k st] l IH]; intros s; cbn; [done|].
  destruct (IH (apply_staged s (k, st))) as [-> ->]. unfold apply_staged.
  destruct (deleted st); [case_bool_decide|]; done.
Qed.

(** ** Staging a batch is applying it to the map *)

Lemma stage_ops_spec s p ops m :
  (forall k, m !! k = lookup_pending s p k) ->
  match stage_ops s p ops with
  | Err e => apply_ops m ops = Err e
  | Ok p' => exists m', apply_ops m ops = Ok m' /\ forall k, m' !! k = lookup_pending s p' k
  end.
Proof.
  revert p m; induction ops as [|op ops IH]; intros p m Hm; cbn; [by exists m|].
  destruct op as [k v|k|k d|k e]; cbn.
  - apply IH. intros k'. unfold lookup_pending. rewrite !lookup_insert. case_decide; [done|apply Hm].
  - apply IH. intros k'. unfold lookup_pending. rewrite lookup_insert, lookup_delete.
    case_decide; [done|apply Hm].
  - rewrite Hm. destruct (lookup_pending s p k) as [v|]; cbn.
    + destruct (DecodeInt64 (sbytes v)); cbn; [|done]. apply IH. intros k'.
      unfold lookup_pending. rewrite !lookup_insert. case_decide; [done|apply Hm].
    + apply IH. intros k'. unfold lookup_pending. rewrite !lookup_insert. case_decide; [done|apply Hm].
  - apply IH, Hm.
Qed.

Lemma check_asserts_spec s ops :
  check_asserts s ops = if forallb (assert_ok (data s)) ops then Ok tt else Err ErrAssertFailed.
Proof.
  induction ops as [|op ops IH]; cbn; [done|]. destruct op as [k v|k|k d|k [e|]]; cbn; auto.
  - destruct (data s !! k); cbn; [|done]. case_bool_decide; cbn; auto.
  - destruct (data s !! k); cbn; auto.
Qed.

Lemma WriteBatch_spec s b :
  store_inv s ->
  match WriteBatch s b with
  | Ok s' => store_inv s' /\ spec_write (data s) b = Ok (data s')
  | Err ErrAssertFailed => forallb (assert_ok (data s)) b = false
  | Err ErrNoSpace => 0 < capacity s
  | Err e => spec_write (data s) b = Err e
  end.
Proof.
  intros Hi. unfold WriteBatch, spec_write. rewrite check_asserts_spec.
  destruct (forallb _ _) eqn:Ea; cbn [mbind result_bind]; [|done].
  pose proof (stage_ops_spec s ∅ b (data s)) as Hst.
  specialize (Hst ltac:(intros k; unfold lookup_pending; by rewrite lookup_empty)).
  destruct (stage_ops s ∅ b) as [p|e] eqn:Es; cbn [mbind result_bind].
  - destruct (_ && _) eqn:Ec; [lia|].
    destruct Hst as (m' & Ho & Hm). split.
    + apply fold_staged_inv. destruct (0 <? capacity s); [|done]. by destruct Hi.
    + rewrite Ho. f_equal. apply map_eq. intros k. rewrite Hm, fold_staged_lookup by apply NoDup_fst_map_to_list.
      rewrite list_to_map_to_list. unfold lookup_pending, staged_value.
      destruct (p !! k) as [st|]; [by destruct (deleted st)|]. by destruct (0 <? capacity s).
  - assert (e = ErrCounterNot8Bytes) as ->; [|done].
    clear -Es. revert Es. generalize (∅ : gmap bytes staged).
    induction b as [|op b IH]; cbn; [done|]. intros p. destruct op as [k v|k|k d|k x]; eauto.
    destruct (lookup_pending s p k) as [v|]; cbn; eauto.
    unfold DecodeInt64. destruct (negb _); cbn; [congruence|eauto].
Qed.

(** ** Capacity accounting *)

Lemma total_delete m k : total m = vlen (default None (m !! k)) + total (delete k m).
Proof.
  unfold total. destruct (m !! k) as [v|] eqn:E.
  - rewrite (map_fold_delete_L (fun _ v acc => vlen v + acc) 0 k v m); [done|intros; lia|done].
  - rewrite delete_id by done. cbn. unfold vlen. cbn. lia.
Qed.

Lemma total_insert m k v : total (<[k := v]> m) = vlen v + total (delete k m).
Proof. rewrite (total_delete _ k), lookup_insert_eq, delete_insert_eq. done. Qed.

Definition entry_delta (s : Store) (p : bytes * staged) : Z :=
  (if deleted p.2 then 0 else vlen (value p.2)) - old_len s p.1.

Lemma net_delta_acc s l acc :
  fold_left (fun d p => d + ((if deleted p.2 then 0 else vlen (value p.2)) - old_len s p.1)) l acc
  = acc + net_delta s l.
Proof.
  unfold net_delta. revert acc; induction l as [|p l IH]; intros acc; cbn; [lia|].
  rewrite IH, (IH (0 + _)). lia.
Qed.

Lemma net_delta_cons s p l : net_delta s (p :: l) = entry_delta s p + net_delta s l.
Proof. unfold net_delta at 1. cbn. rewrite net_delta_acc. unfold entry_delta. lia. Qed.

Lemma net_delta_ext s s' l :
  (forall k, k ∈ l.*1 -> data s !! k = data s' !! k) -> net_delta s l = net_delta s' l.
Proof.
  induction l as [|[k st] l IH]; intros H; [done|]. rewrite !net_delta_cons.
  rewrite IH by (intros; apply H; cbn; by right).
  unfold entry_delta, old_len, value_at. cbn. rewrite (H k) by (cbn; by left). done.
Qed.

Lemma total_apply_staged s k st :
  total (data (apply_staged s (k, st))) = total (data s) + entry_delta s (k, st).
Proof.
  unfold apply_staged, entry_delta, old_len, value_at. cbn [fst snd].
  rewrite (total_delete (data s) k).
  destruct (deleted st); [case_bool_decide as E|]; cbn [data].
  - lia.
  - rewrite (total_delete (data s) k). apply eq_None_not_Some in E. rewrite E.
    change (vlen (default None None)) with 0. lia.
  - rewrite total_insert. lia.
Qed.

Lemma total_fold_staged l s :
  NoDup l.*1 -> total (data (fold_left apply_staged l s)) = total (data s) + net_delta s l.
Proof.
  revert s; induction l as [|[k st] l IH]; intros s Hn; [cbn; unfold net_delta; cbn; lia|].
  inversion Hn as [|? ? Hni Hn']; subst. cbn [fold_left].
  rewrite IH, total_apply_staged, net_delta_cons by done.
  rewrite (net_delta_ext (apply_staged s (k, st)) s); [lia|].
  intros k' Hk'. rewrite apply_staged_lookup. case_decide; [by subst|done].
Qed.

Lemma WriteBatch_capacity s b s' :
  capacity_inv s -> WriteBatch s b = Ok s' -> capacity_inv s' /\ capacity s' = capacity s.
Proof.
  unfold WriteBatch. intros Hc. rewrite check_asserts_spec.
  destruct (forallb _ _); cbn [mbind result_bind]; [|done].
  destruct (stage_ops s ∅ b) as [p|e]; cbn [mbind result_bind]; [|done].
  destruct (_ && _) eqn:Ec; [done|]. intros [= <-].
  set (s1 := if 0 <? capacity s then _ else s).
  destruct (fold_staged_frame (map_to_list p) s1) as [H1 H2].
  assert (capacity s1 = capacity s /\ data s1 = data s) as [Hcap Hdata]
    by (unfold s1; by destruct (0 <? capacity s)).
  split; [|congruence]. unfold capacity_inv. rewrite H1, H2, Hcap. intros Hpos.
  rewrite total_fold_staged by apply NoDup_fst_map_to_list. rewrite Hdata.
  rewrite (net_delta_ext s1 s) by (intros; by rewrite Hdata).
  destruct (Hc Hpos) as [Hu _]. unfold s1. rewrite (proj2 (Z.ltb_lt _ _) Hpos) in *. cbn in *. lia.
Qed.

(** ** The engine implements the contract *)

#[export] Instance memory_backend : Backend Store := {|
  be_Get := Get;
  be_Scan := @Scan;
  be_WriteBatch := WriteBatch;
  be_MultiGet := Some MultiGet;
|}.

#[export] Instance memory_laws : BackendLaws Store.
Proof.
  refine {| be_map := data; be_inv := store_inv |}.
  - intros s k _. done.
  - intros. by apply Scan_spec.
  - intros s ops s' Hi H. pose proof (WriteBatch_spec s ops Hi) as Hw. cbn in H. by rewrite H in Hw.
  - intros s ops Hi. cbn. pose proof (WriteBatch_spec s ops Hi) as Hw. split.
    + intros H. by rewrite H in Hw.
    + intros H. unfold WriteBatch. by rewrite check_asserts_spec, H.
  - intros mg s ks [= <-] _. done.
Defined.

Lemma New_inv opts :
  (forall o, o ∈ opts -> exists n, o = WithCapacity n) ->
  store_inv (New opts) /\ data (New opts) = ∅ /\ used (New opts) = 0.
Proof.
  unfold New.
  assert (store_inv (mkStore ∅ [] 0 0)) as H0.
  { split; cbn; [constructor|]. intros k. rewrite lookup_empty. split; [set_solver|]. intros [? [=]]. }
  revert H0. set (s0 := mkStore ∅ [] 0 0). assert (data s0 = ∅ /\ used s0 = 0) as H1 by done.
  revert H1. generalize s0. clear s0.
  induction opts as [|o opts IH]; intros s [Hd Hu] Hi Ho; cbn; [done|].
  destruct (Ho o) as [n ->]; [by left|]. apply IH; [done| |intros; apply Ho; by right].
  destruct Hi. by split.
Qed.

(** Stores an execution can reach: a fresh store, then successful batches. *)
Inductive reachable (cap : Z) : Store -> Prop :=
  | reachable_new : reachable cap (New [WithCapacity cap])
  | reachable_write s b s' : reachable cap s -> WriteBatch s b = Ok s' -> reachable cap s'.

Lemma reachable_inv cap s :
  reachable cap s -> store_inv s /\ capacity_inv s /\ capacity s = cap.
Proof.
  induction 1 as [|s b s' _ (IH1 & IH2 & IH3) Hw].
  - split_and!; [|intros Hp; cbn in *; change (total ∅) with 0; lia|done].
    apply (New_inv [WithCapacity cap]). intros o ->%list_elem_of_singleton. by exists cap.
  - destruct (WriteBatch_capacity s b s' IH2 Hw) as [H1 H2].
    pose proof (WriteBatch_spec s b IH1) as H3. rewrite Hw in H3. naive_solver.
Qed.

(** A scan that loses and retakes the lock between chunks, whatever is
    committed in between. *)
Lemma scan_loop_order fuel stores n start end_ reverse cursor (stop : list bytes -> bytes -> bool) acc l :
  (forall i, sorted (keys (stores i))) -> cursor_ok start end_ cursor ->
  StronglySorted (dlt reverse) acc ->
  Forall (fun k => in_range start end_ k = true /\ exists i, k ∈ keys (stores i)) acc ->
  (forall k, k ∈ acc -> match cursor with None => False | Some c => k = c \/ dlt reverse k c end) ->
  scan_loop fuel stores n start end_ reverse cursor (fun acc k _ => (acc ++ [k], stop acc k)) acc = Ok l ->
  StronglySorted (dlt reverse) l /\
  Forall (fun k => in_range start end_ k = true /\ exists i, k ∈ keys (stores i)) l.
Proof.
  intros Hst. revert n cursor acc; induction fuel as [|fuel IH]; intros n cursor acc Hc Hs Hr Hcur; [done|].
  cbn [scan_loop]. rewrite next_chunk_spec by done.
  set (fn := fun acc k (_ : slice) => (acc ++ [k], stop acc k)).
  set (R := remaining (stores n) start end_ reverse cursor).
  assert (forall buf a a' go, visit fn buf a = (a', go) ->
            exists p, p `prefix_of` buf.*1 /\ a' = a ++ p /\ (go = true -> p = buf.*1)) as Hvisit.
  { clear. induction buf as [|[k v] buf IHb]; cbn; intros a a' go.
    - intros [= <- <-]. exists []. rewrite app_nil_r. auto.
    - destruct (stop a k).
      + intros (p & Hp & -> & Hgo)%IHb. exists (k :: p). split_and!; [by apply prefix_cons| |].
        * by rewrite <- app_assoc.
        * intros ->%Hgo. done.
      + intros [= <- <-]. exists [k]. split_and!; [|done|done].
        apply prefix_cons, prefix_nil. }
  destruct (visit fn (take chunk R) acc) as [a' go] eqn:Ev.
  destruct (Hvisit _ _ _ _ Ev) as (p & Hp & -> & Hgo).
  assert (p `prefix_of` rem_keys (stores n) start end_ reverse cursor) as Hpre.
  { etrans; [exact Hp|]. unfold R, remaining. change (map ?f ?l) with (f <$> l).
    rewrite fmap_take, <- list_fmap_compose. etrans; [apply prefix_take|].
    apply reflexive_eq, list_fmap_id. }
  assert (forall k, k ∈ p -> in_range start end_ k = true /\ after reverse cursor k /\ k ∈ keys (stores n)) as Hpk.
  { intros k Hk. apply elem_of_rem_keys. destruct Hpre as [q ->]. apply elem_of_app. by left. }
  assert (StronglySorted (dlt reverse) (acc ++ p)) as Hs'.
  { apply StronglySorted_app. split_and!; [|done|].
    - intros a b Ha Hb. specialize (Hcur a Ha). destruct (Hpk b Hb) as (_ & Hab & _).
      destruct cursor as [c|]; [|done]. cbn in Hab. destruct Hcur as [-> |?]; [done|]. by eapply dlt_trans.
    - pose proof (rem_keys_sorted (stores n) start end_ reverse cursor (Hst n)) as H.
      destruct Hpre as [q Hq]. rewrite Hq in H. by apply StronglySorted_app in H as (_ & ? & _). }
  assert (Forall (fun k => in_range start end_ k = true /\ exists i, k ∈ keys (stores i)) (acc ++ p)) as Hr'.
  { apply Forall_app. split; [done|]. apply Forall_forall. intros k Hk.
    destruct (Hpk k Hk) as (? & _ & ?). eauto. }
  destruct go; cbn [negb]; [|by intros [= <-]].
  destruct (Nat.ltb_spec (length (take chunk R)) chunk) as [Hlt|Hge]; [by intros [= <-]|].
  specialize (Hgo eq_refl).
  destruct (last (take chunk R)) as [[c v]|] eqn:Elast.
  2:{ apply last_None in Elast. rewrite Elast in Hge. cbn in Hge. unfold chunk in Hge. lia. }
  apply last_Some in Elast as [l' El]. rewrite El in Hgo. rewrite fmap_app in Hgo. cbn in Hgo. subst p.
  apply IH; auto.
  - cbn. apply Hpk. apply elem_of_app. right. by apply list_elem_of_singleton.
  - cbn. intros k Hk. rewrite app_assoc in Hs', Hk. apply elem_of_app in Hk as [Hk|Hk].
    + right. apply StronglySorted_app in Hs' as (H & _). apply H; [done|by apply list_elem_of_singleton].
    + left. by apply list_elem_of_singleton in Hk.
Qed.

(** ** Properties *)

(** C31: the in-memory engine refines the abstract store.  From any store whose
    key slice mirrors its map, a batch either commits - the map is then exactly
    what the abstract specification computes and the slice still mirrors it -
    or fails, and a failure is the failed assertion, the malformed counter or
    the configured capacity. *)
Theorem memory_WriteBatch_refines (s : Store) (b : Batch) :
  store_inv s ->
  match WriteBatch s b with
  | Ok s' => store_inv s' /\ spec_write (data s) b = Ok (data s')
  | Err ErrAssertFailed => forallb (assert_ok (data s)) b = false
  | Err ErrNoSpace => 0 < capacity s
  | Err e => spec_write (data s) b = Err e
  end.
Proof. apply WriteBatch_spec. Qed.

(** A store the witnesses start from. *)
Definition demo (ops : Batch) : Store := ok_or (New []) (WriteBatch (New []) ops).

Lemma empty_inv : store_inv (New []).
Proof. apply (New_inv []). intros o Ho. by apply not_elem_of_nil in Ho. Qed.

Lemma demo_inv ops : is_ok (WriteBatch (New []) ops) = true -> store_inv (demo ops).
Proof.
  intros H. apply (ok_or_eq (New [])) in H. pose proof (WriteBatch_spec (New []) ops empty_inv) as Hw.
  rewrite H in Hw. apply Hw.
Qed.

Lemma memory_WriteBatch_refines_witness :
  let b := [OpAssert (bs "a") None; OpSet (bs "b") (Some (bs "1")); OpAdd (bs "n") 5; OpDelete (bs "b")] in
  WriteBatch (New []) b = Ok (demo b) /\ keys (demo b) = [bs "n"] /\
  spec_write (data (New [])) b = Ok (data (demo b)).
Proof.
  cbv zeta. set (b := [_; _; _; _]).
  assert (WriteBatch (New []) b = Ok (demo b)) as E by (apply ok_or_eq; vm_compute; reflexivity).
  pose proof (memory_WriteBatch_refines (New []) b empty_inv) as H. rewrite E in H.
  split; [exact E|]. split; [vm_compute; reflexivity|exact (proj2 H)].
Defined.

(** C32: a scan of an unchanging store - binary search to the edge, then chunks
    of 64 resumed past the last key - terminates and runs the callback over
    exactly the stored keys of the half-open range, in ascending order
    (descending when reversed), stopping when the callback asks to. *)
Theorem memory_Scan_exact (A : Type) (s : Store) (start : bytes) (end_ : slice) (reverse : bool)
  (fn : A -> bytes -> slice -> A * bool) (a : A) :
  store_inv s ->
  Scan s start end_ reverse fn a = Ok (scan_fold fn (range_list (data s) start end_ reverse) a).
Proof. apply Scan_spec. Qed.

Lemma memory_Scan_exact_witness :
  Scan (demo [OpSet (bs "b") None; OpSet (bs "a") None; OpSet (bs "c") None]) (bs "a") (Some (bs "c")) true
    (fun acc k _ => (acc ++ [k], true)) [] = Ok [bs "b"; bs "a"].
Proof.
  rewrite memory_Scan_exact; [vm_compute; reflexivity|].
  apply demo_inv. vm_compute. reflexivity.
Defined.

(** C33: a scan that runs concurrently with commits (the lock is dropped between
    chunks, so every chunk may come from a different store) still visits keys
    in strictly ascending - or, reversed, strictly descending - order, each
    inside the range and each stored at some moment of the scan; no key is
    visited twice. *)
Theorem memory_Scan_concurrent_order (fuel : nat) (stores : nat -> Store) (start : bytes) (end_ : slice)
  (reverse : bool) (stop : list bytes -> bytes -> bool) (l : list bytes) :
  (forall i, store_inv (stores i)) ->
  scan_loop fuel stores 0 start end_ reverse None (fun acc k _ => (acc ++ [k], stop acc k)) [] = Ok l ->
  StronglySorted (fun a b => if reverse then blt b a = true else blt a b = true) l /\
  Forall (fun k => in_range start end_ k = true /\ exists i, k ∈ keys (stores i)) l.
Proof.
  intros Hst H. apply (scan_loop_order fuel stores 0 start end_ reverse None stop []) in H; auto.
  - intros i. apply Hst.
  - done.
  - constructor.
  - intros k Hk. by apply not_elem_of_nil in Hk.
Qed.

Lemma memory_Scan_concurrent_order_witness :
  let s1 := demo [OpSet (bs "b") None; OpSet (bs "a") None] in
  scan_loop 3 (fun _ => s1) 0 [] None false None (fun acc k _ => (acc ++ [k], true)) [] = Ok [bs "a"; bs "b"] /\
  StronglySorted (fun a b => blt a b = true) [bs "a"; bs "b"].
Proof.
  cbv zeta. set (s1 := demo _).
  assert (scan_loop 3 (fun _ => s1) 0 [] None false None (fun acc k _ => (acc ++ [k], true)) []
          = Ok [bs "a"; bs "b"]) as E by (vm_compute; reflexivity).
  split; [exact E|].
  refine (proj1 (memory_Scan_concurrent_order 3 (fun _ => s1) [] None false (fun _ _ => true) _ (fun _ => _) E)).
  apply demo_inv. vm_compute. reflexivity.
Defined.



End Memory.
