(* ===== verification/Jsonscan.v ===== *)
(** * Jsonscan: the single-pass JSON scanner (core/internal/jsonscan)

    The scanner [{buf, pos}] is represented by the unread suffix [buf[pos:]]:
    every scanning method takes a suffix and returns the suffix it stops at, and
    a span [buf[start:pos]] is what was consumed between two suffixes
    ([span]).  Error offsets are not kept.  Index expressions Go would panic on
    are the explicit error [Panic]; recursion and loops carry fuel, and
    [fuel_for] is enough for every input. *)

From S2P Require Import Prelude GoLib.

Module Jsonscan.

Definition MaxDepth : Z := 10000.

(** [buf[start:pos]], from the suffixes at [start] and at [pos]. *)
Definition span (s rest : bytes) : bytes := take (length s - length rest) s.

Definition bad {A} (msg : string) : result A := Err (ErrBadJSON msg).

(** ** Low-level scanning *)

Definition is_space (c : byte) : bool :=
  (c =b " "%byte) || (c =b x09) || (c =b x0a) || (c =b x0d).

Fixpoint skipSpace (s : bytes) : bytes :=
  match s with
  | c :: s' => if is_space c then skipSpace s' else s
  | [] => []
  end.

Definition end_ (s : bytes) : result unit :=
  match skipSpace s with [] => Ok tt | _ => bad "trailing data" end.

Fixpoint literal (want s : bytes) : result bytes :=
  match want with
  | [] => Ok s
  | w :: want' =>
      match s with
      | c :: s' => if c =b w then literal want' s' else bad "invalid literal"
      | [] => bad "invalid literal"
      end
  end.

Definition ones8 : Z := 0x0101010101010101.
Definition highs8 : Z := 0x8080808080808080.

(** The word-at-a-time byte tests; [&^] is [Z.ldiff]. *)
Definition hasByte (x : Z) (b : byte) : bool :=
  let y := Z.lxor x (ones8 * bz b) in
  negb (Z.land (Z.ldiff (u64 (y - ones8)) y) highs8 =? 0).

Definition hasBelow (x n : Z) : bool :=
  negb (Z.land (Z.ldiff (u64 (x - ones8 * n)) x) highs8 =? 0).

Definition isDigit (c : byte) : bool := (48 <=? bz c) && (bz c <=? 57).

Definition isHex (c : byte) : bool :=
  ((48 <=? bz c) && (bz c <=? 57)) || ((97 <=? bz c) && (bz c <=? 102))
  || ((65 <=? bz c) && (bz c <=? 70)).

(** [s] starts at the backslash. *)
Definition skipEscape (s : bytes) : result bytes :=
  match s with
  | _ :: c :: r =>
      if (c =b x22) || (c =b "\"%byte) || (c =b "/"%byte) || (c =b "b"%byte)
         || (c =b "f"%byte) || (c =b "n"%byte) || (c =b "r"%byte) || (c =b "t"%byte) then Ok r
      else if c =b "u"%byte then
        match r with
        | h1 :: h2 :: h3 :: h4 :: r' =>
            if isHex h1 && isHex h2 && isHex h3 && isHex h4 then Ok r' else bad "invalid \u escape"
        | _ => bad "truncated \u escape"
        end
      else bad "invalid escape character"
  | _ => bad "unterminated escape"
  end.

(** The fast path of [skipString]: skip eight clean bytes per 64-bit load. *)
Fixpoint word_skip (s : bytes) : bytes :=
  match s with
  | b0 :: b1 :: b2 :: b3 :: b4 :: b5 :: b6 :: b7 :: s' =>
      let x := le_val [b0; b1; b2; b3; b4; b5; b6; b7] in
      if hasByte x x22 || hasByte x "\"%byte || hasBelow x 0x20 then s else word_skip s'
  | _ => s
  end.

Fixpoint string_body (fuel : nat) (s : bytes) : result bytes :=
  match fuel with
  | O => Err OutOfFuel
  | S fuel' =>
      match word_skip s with
      | [] => bad "unterminated string"
      | c :: r =>
          if c =b x22 then Ok r
          else if c =b "\"%byte then s' ← skipEscape (c :: r); string_body fuel' s'
          else if bz c <? 0x20 then bad "control character in string"
          else string_body fuel' r
      end
  end.

Definition skipString (s : bytes) : result bytes :=
  match s with
  | c :: r => if c =b x22 then string_body (S (length r)) r else bad "expected string"
  | [] => bad "expected string"
  end.

Fixpoint cleanASCII (s : bytes) : bool :=
  match s with
  | b0 :: b1 :: b2 :: b3 :: b4 :: b5 :: b6 :: b7 :: s' =>
      let x := le_val [b0; b1; b2; b3; b4; b5; b6; b7] in
      if hasByte x "\"%byte || negb (Z.land x highs8 =? 0) then false else cleanASCII s'
  | _ => forallb (fun c => negb ((c =b "\"%byte) || (RuneSelf <=? bz c))) s
  end.

(** ** Decoding string bodies *)

Definition hex_digit (c : byte) : Z :=
  if (48 <=? bz c) && (bz c <=? 57) then bz c - 48
  else if (97 <=? bz c) && (bz c <=? 102) then bz c - 97 + 10
  else bz c - 65 + 10.

Definition hex4 (b : bytes) : Z :=
  fold_left (fun v c => Z.lor (Z.shiftl v 4 mod 2 ^ 32) (hex_digit c)) b 0.

(** The second half of a surrogate pair, when the body continues with one. *)
Definition surrogate_tail (r : Z) (s : bytes) : option (Z * bytes) :=
  match s with
  | b :: u :: h1 :: h2 :: h3 :: h4 :: s' =>
      if (b =b "\"%byte) && (u =b "u"%byte) then
        let r2 := hex4 [h1; h2; h3; h4] in
        if is_surrogate r2 then
          let dec := utf16_DecodeRune r r2 in
          if negb (dec =? RuneError) then Some (dec, s') else None
        else None
      else None
  | _ => None
  end.

Fixpoint unquote_loop (fuel : nat) (out s : bytes) : result bytes :=
  match fuel with
  | O => Err OutOfFuel
  | S fuel' =>
      match s with
      | [] => Ok out
      | c :: r =>
          if c =b "\"%byte then
            match r with
            | [] => Err Panic
            | e :: r' =>
                if e =b x22 then unquote_loop fuel' (out ++ [x22]) r'
                else if e =b "\"%byte then unquote_loop fuel' (out ++ ["\"%byte]) r'
                else if e =b "/"%byte then unquote_loop fuel' (out ++ ["/"%byte]) r'
                else if e =b "b"%byte then unquote_loop fuel' (out ++ [x08]) r'
                else if e =b "f"%byte then unquote_loop fuel' (out ++ [x0c]) r'
                else if e =b "n"%byte then unquote_loop fuel' (out ++ [x0a]) r'
                else if e =b "r"%byte then unquote_loop fuel' (out ++ [x0d]) r'
                else if e =b "t"%byte then unquote_loop fuel' (out ++ [x09]) r'
                else if e =b "u"%byte then
                  match r' with
                  | h1 :: h2 :: h3 :: h4 :: r'' =>
                      let rn := hex4 [h1; h2; h3; h4] in
                      if is_surrogate rn then
                        match surrogate_tail rn r'' with
                        | Some (dec, r3) => unquote_loop fuel' (out ++ EncodeRune dec) r3
                        | None => unquote_loop fuel' (out ++ EncodeRune RuneError) r''
                        end
                      else unquote_loop fuel' (out ++ EncodeRune rn) r''
                  | _ => Err Panic
                  end
                else unquote_loop fuel' out s (* no case: the index does not advance *)
            end
          else if bz c <? RuneSelf then unquote_loop fuel' (out ++ [c]) r
          else
            let '(rn, size) := DecodeRune s in
            if (rn =? RuneError) && (size =? 1)%nat then
              unquote_loop fuel' (out ++ EncodeRune RuneError) r
            else unquote_loop fuel' (out ++ take size s) (drop size s)
      end
  end.

Definition unquoteBytes (s : bytes) : result bytes := unquote_loop (S (length s)) [] s.
Definition unquote (s : bytes) : result bytes := unquoteBytes s.

(** The body of a string that [skipString] took from [s] to [rest]:
    [buf[start+1 : pos-1]]. *)
Definition body (s rest : bytes) : bytes :=
  let sp := span s rest in take (length sp - 2) (drop 1 sp).

Definition parseString (s : bytes) : result (bytes * bytes) :=
  rest ← skipString s;
  let b := body s rest in
  if cleanASCII b then Ok (b, rest) else v ← unquote b; Ok (v, rest).

(** Interning: a name found in the dictionary is the dictionary's string. *)
Definition intern (names : gmap bytes bytes) (v : bytes) : bytes :=
  match names !! v with Some interned => interned | None => v end.

Definition plain (b : bytes) : bool :=
  forallb (fun c => negb ((c =b "\"%byte) || (RuneSelf <=? bz c))) b.

Definition parseName (names : gmap bytes bytes) (s : bytes) : result (bytes * bytes) :=
  rest ← skipString s;
  let b := body s rest in
  if plain b then Ok (intern names b, rest) else v ← unquote b; Ok (intern names v, rest).

(** ** Numbers and values *)

Fixpoint skip_digits (s : bytes) : bytes :=
  match s with
  | c :: s' => if isDigit c then skip_digits s' else s
  | [] => []
  end.

(** At least one digit, then all of them. *)
Definition digits1 (s : bytes) : result bytes :=
  match s with
  | c :: _ => if isDigit c then Ok (skip_digits s) else bad "invalid number"
  | [] => bad "invalid number"
  end.

Definition number_sign (s : bytes) : result bytes :=
  match s with
  | [] => Err Panic
  | c :: s' =>
      if c =b "-"%byte then
        match s' with
        | d :: _ => if isDigit d then Ok s' else bad "invalid number"
        | [] => bad "invalid number"
        end
      else Ok s
  end.

Definition number_int (s : bytes) : result bytes :=
  match s with
  | [] => Err Panic
  | c :: s' => if c =b "0"%byte then Ok s' else Ok (skip_digits s)
  end.

Definition number_frac (s : bytes) : result bytes :=
  match s with
  | c :: s' => if c =b "."%byte then digits1 s' else Ok s
  | [] => Ok s
  end.

Definition number_exp (s : bytes) : result bytes :=
  match s with
  | c :: s' =>
      if (c =b "e"%byte) || (c =b "E"%byte) then
        match s' with
        | d :: s'' => if (d =b "+"%byte) || (d =b "-"%byte) then digits1 s'' else digits1 s'
        | [] => digits1 s'
        end
      else Ok s
  | [] => Ok s
  end.

Definition skipNumber (s : bytes) : result bytes :=
  s1 ← number_sign s; s2 ← number_int s1; s3 ← number_frac s2; number_exp s3.

(** The tail of a member: [:], the value, and what follows it.  [value] scans
    one value; the pair is the suffix the value starts at and the suffix it
    ends at. *)
Definition colon_value (value : bytes -> result bytes) (s : bytes) : result (bytes * bytes) :=
  match skipSpace s with
  | c :: s1 =>
      if c =b ":"%byte then
        let s2 := skipSpace s1 in s3 ← value s2; Ok (s2, s3)
      else bad "expected ':' after member name"
  | [] => bad "expected ':' after member name"
  end.

(** The separator after a member ([close = }]) or an element ([close = ]]):
    whether another one follows, and where. *)
Definition separator (close : byte) (s : bytes) : result (bool * bytes) :=
  match skipSpace s with
  | [] => bad "unterminated container"
  | c :: r =>
      if c =b ","%byte then Ok (true, r)
      else if c =b close then Ok (false, r)
      else bad "expected ',' or the closing bracket"
  end.

Definition is_head (c : byte) (s : bytes) : bool := match s with d :: _ => d =b c | [] => false end.

Fixpoint skipValue (fuel : nat) (open : Z) (s : bytes) {struct fuel} : result bytes :=
  match fuel with
  | O => Err OutOfFuel
  | S fuel' =>
      match s with
      | [] => bad "missing value"
      | c :: r =>
          if c =b "{"%byte then
            if MaxDepth <? open + 1 then bad "exceeded max nesting depth"
            else
              let s1 := skipSpace r in
              if is_head "}"%byte s1 then Ok (drop 1 s1) else skipMembers fuel' open s1
          else if c =b "["%byte then
            if MaxDepth <? open + 1 then bad "exceeded max nesting depth"
            else
              let s1 := skipSpace r in
              if is_head "]"%byte s1 then Ok (drop 1 s1) else skipElems fuel' open s1
          else if c =b x22 then skipString s
          else if c =b "t"%byte then literal (bs "true") s
          else if c =b "f"%byte then literal (bs "false") s
          else if c =b "n"%byte then literal (bs "null") s
          else if (c =b "-"%byte) || isDigit c then skipNumber s
          else bad "invalid value"
      end
  end
with skipMembers (fuel : nat) (open : Z) (s : bytes) {struct fuel} : result bytes :=
  match fuel with
  | O => Err OutOfFuel
  | S fuel' =>
      s1 ← skipString (skipSpace s);
      v ← colon_value (skipValue fuel' (open + 1)) s1;
      sep ← separator "}"%byte v.2;
      if sep.1 : bool then skipMembers fuel' open sep.2 else Ok sep.2
  end
with skipElems (fuel : nat) (open : Z) (s : bytes) {struct fuel} : result bytes :=
  match fuel with
  | O => Err OutOfFuel
  | S fuel' =>
      s1 ← skipValue fuel' (open + 1) (skipSpace s);
      sep ← separator "]"%byte s1;
      if sep.1 : bool then skipElems fuel' open sep.2 else Ok sep.2
  end.

Definition fuel_for (s : bytes) : nat := (2 * length s + 3)%nat.

(** [s.skipValue(open)] on a scanner with enough fuel. *)
Definition skip_value (open : Z) (s : bytes) : result bytes := skipValue (fuel_for s) open s.

(** ** Whole-value decoders *)

Definition JString (raw : bytes) : option bytes :=
  match parseString (skipSpace raw) with
  | Ok (v, rest) => if is_ok (end_ rest) then Some v else None
  | Err _ => None
  end.

Definition ascii_lower (c : byte) : byte :=
  if (65 <=? bz c) && (bz c <=? 90) then zb (bz c + 32) else c.

(** [strings.ToLower] maps through the Unicode case tables; it is a parameter
    of [StringFolded] and of everything built on it. *)
Definition StringFolded (ToLower : bytes -> bytes) (raw : bytes) : option bytes :=
  let s := skipSpace raw in
  match skipString s with
  | Err _ => None
  | Ok rest =>
      if negb (is_ok (end_ rest)) then None
      else
        let b := body s rest in
        if negb (cleanASCII b) then
          match unquote b with Ok v => Some (ToLower v) | Err _ => None end
        else Some (map ascii_lower b)
  end.

Definition ValidString (raw : bytes) : bool :=
  match skipString (skipSpace raw) with Ok rest => is_ok (end_ rest) | Err _ => false end.

Definition cutoff : Z := 2 ^ 63.

Fixpoint accumulate (u : Z) (tok : bytes) : option Z :=
  match tok with
  | [] => Some u
  | c :: tok' =>
      if (bz c <? 48) || (57 <? bz c) then None
      else
        let d := bz c - 48 in
        if (cutoff - d) / 10 <? u then None else accumulate (u64 (u * 10 + d)) tok'
  end.

Definition JInt (raw : bytes) : option Z :=
  let s := skipSpace raw in
  match s with
  | [] => None
  | c :: _ =>
      if negb (c =b "-"%byte) && ((bz c <? 48) || (57 <? bz c)) then None
      else
        match skipNumber s with
        | Err _ => None
        | Ok rest =>
            if negb (is_ok (end_ rest)) then None
            else
              let tok := span s rest in
              let neg := is_head "-"%byte tok in
              match accumulate 0 (if neg then drop 1 tok else tok) with
              | None => None
              | Some u =>
                  if neg then Some (int64 (u64 (- u)))
                  else if cutoff - 1 <? u then None else Some (int64 u)
              end
        end
  end.

Definition JBool (raw : bytes) : option bool :=
  let s := skipSpace raw in
  if is_head "t"%byte s then
    match literal (bs "true") s with
    | Ok rest => if is_ok (end_ rest) then Some true else None
    | Err _ => None
    end
  else
    match literal (bs "false") s with
    | Ok rest => if is_ok (end_ rest) then Some false else None
    | Err _ => None
    end.

Definition validContainer (raw : bytes) (open : byte) : bool :=
  let s := skipSpace raw in
  if negb (is_head open s) then false
  else match skip_value 0 s with Ok rest => is_ok (end_ rest) | Err _ => false end.

Definition ValidObject (raw : bytes) : bool := validContainer raw "{"%byte.
Definition ValidArray (raw : bytes) : bool := validContainer raw "["%byte.

(** ** Objects and arrays *)

(** The common opening of the object and array readers: a literal [null], an
    empty container, or the suffix at the first item. *)
Inductive opened := ONull | OEmpty | OItems (s : bytes).

Definition open_container (opn cls : byte) (raw : bytes) : result opened :=
  let s := skipSpace raw in
  if is_head "n"%byte s then
    rest ← literal (bs "null") s; _ ← end_ rest; Ok ONull
  else if negb (is_head opn s) then bad "not the expected container"
  else
    let s1 := skipSpace (drop 1 s) in
    if is_head cls s1 then _ ← end_ (drop 1 s1); Ok OEmpty else Ok (OItems s1).

Fixpoint decode_members (fuel : nat) (names : gmap bytes bytes) (obj : gmap bytes bytes) (s : bytes)
  : result (gmap bytes bytes) :=
  match fuel with
  | O => Err OutOfFuel
  | S fuel' =>
      key ← parseName names (skipSpace s);
      v ← colon_value (skip_value 1) key.2;
      let obj' := <[key.1 := span v.1 v.2]> obj in
      sep ← separator "}"%byte v.2;
      if sep.1 : bool then decode_members fuel' names obj' sep.2
      else _ ← end_ sep.2; Ok obj'
  end.

(** A [nil] map is [None]. *)
Definition DecodeObject (raw : bytes) (names : gmap bytes bytes) : result (option (gmap bytes bytes)) :=
  o ← open_container "{"%byte "}"%byte raw;
  match o with
  | ONull => Ok None
  | OEmpty => Ok (Some ∅)
  | OItems s => m ← decode_members (S (length s)) names ∅ s; Ok (Some m)
  end.

(** [wanted[v]] of a [map[string]bool]. *)
Definition is_wanted (wanted : gmap bytes bool) (v : bytes) : bool := default false (wanted !! v).

Definition wanted_name (names : gmap bytes bytes) (wanted : gmap bytes bool) (b : bytes)
  : result (option bytes) :=
  if cleanASCII b then Ok (if is_wanted wanted b then Some (intern names b) else None)
  else v ← unquote b; Ok (if is_wanted wanted v then Some (intern names v) else None).

Fixpoint subset_members (fuel : nat) (names : gmap bytes bytes) (wanted : gmap bytes bool)
  (obj : gmap bytes bytes) (s : bytes) : result (gmap bytes bytes) :=
  match fuel with
  | O => Err OutOfFuel
  | S fuel' =>
      let s1 := skipSpace s in
      rest ← skipString s1;
      key ← wanted_name names wanted (body s1 rest);
      v ← colon_value (skip_value 1) rest;
      let obj' := match key with Some k => <[k := span v.1 v.2]> obj | None => obj end in
      sep ← separator "}"%byte v.2;
      if sep.1 : bool then subset_members fuel' names wanted obj' sep.2
      else _ ← end_ sep.2; Ok obj'
  end.

Definition DecodeObjectSubset (raw : bytes) (names : gmap bytes bytes) (wanted : gmap bytes bool)
  : result (option (gmap bytes bytes)) :=
  o ← open_container "{"%byte "}"%byte raw;
  match o with
  | ONull => Ok None
  | OEmpty => Ok (Some ∅)
  | OItems s => m ← subset_members (S (length s)) names wanted ∅ s; Ok (Some m)
  end.

(** [EachKey]: the names [fn] is called with, in document order. *)
Fixpoint each_key (fuel : nat) (out : list bytes) (s : bytes) : result (list bytes) :=
  match fuel with
  | O => Err OutOfFuel
  | S fuel' =>
      key ← parseString (skipSpace s);
      v ← colon_value (skip_value 1) key.2;
      let out' := out ++ [key.1] in
      sep ← separator "}"%byte v.2;
      if sep.1 : bool then each_key fuel' out' sep.2
      else _ ← end_ sep.2; Ok out'
  end.

Definition EachKey (raw : bytes) : result (list bytes) :=
  o ← open_container "{"%byte "}"%byte raw;
  match o with
  | ONull | OEmpty => Ok []
  | OItems s => each_key (S (length s)) [] s
  end.

Fixpoint has_key (fuel : nat) (key : bytes) (found : bool) (s : bytes) : result bool :=
  match fuel with
  | O => Err OutOfFuel
  | S fuel' =>
      let s1 := skipSpace s in
      rest ← skipString s1;
      found' ← (if found then Ok true
                else
                  let b := body s1 rest in
                  if plain b then Ok (bool_decide (b = key))
                  else v ← unquote b; Ok (bool_decide (v = key)));
      v ← colon_value (skip_value 1) rest;
      sep ← separator "}"%byte v.2;
      if sep.1 : bool then has_key fuel' key found' sep.2
      else _ ← end_ sep.2; Ok found'
  end.

Definition HasKey (raw key : bytes) : result bool :=
  o ← open_container "{"%byte "}"%byte raw;
  match o with
  | ONull | OEmpty => Ok false
  | OItems s => has_key (S (length s)) key false s
  end.

Fixpoint each_string (fuel : nat) (out : list bytes) (s : bytes) : result (list bytes) :=
  match fuel with
  | O => Err OutOfFuel
  | S fuel' =>
      let s1 := skipSpace s in
      elem ← (if is_head "n"%byte s1 then rest ← literal (bs "null") s1; Ok ([], rest)
              else parseString s1);
      let out' := out ++ [elem.1] in
      sep ← separator "]"%byte elem.2;
      if sep.1 : bool then each_string fuel' out' sep.2
      else _ ← end_ sep.2; Ok out'
  end.

Definition EachString (raw : bytes) : result (list bytes) :=
  o ← open_container "["%byte "]"%byte raw;
  match o with
  | ONull | OEmpty => Ok []
  | OItems s => each_string (S (length s)) [] s
  end.

(** ** Encoding *)

Definition hexDigit (n : Z) : byte := if n <? 10 then zb (48 + n) else zb (87 + n).

Definition append_rune (r : Z) : bytes :=
  if r =? 34 then ["\"%byte; x22]
  else if r =? 92 then ["\"%byte; "\"%byte]
  else if r =? 10 then ["\"%byte; "n"%byte]
  else if r =? 13 then ["\"%byte; "r"%byte]
  else if r =? 9 then ["\"%byte; "t"%byte]
  else if r <? 0x20 then
    ["\"%byte; "u"%byte; "0"%byte; "0"%byte; hexDigit (Z.shiftr r 4); hexDigit (Z.land r 0xF)]
  else EncodeRune r.

Definition appendString (out s : bytes) : bytes :=
  out ++ [x22] ++ concat (map (fun p => append_rune p.1) (range_string s)) ++ [x22].

(** One value must be exactly one JSON value, judged as if already inside the
    record object. *)
Definition check_encoded (v : bytes) : result unit :=
  let s := skipSpace v in
  match s with
  | [] => bad "property has an empty value"
  | _ => rest ← skip_value 1 s; end_ rest
  end.

Fixpoint encode_members (obj : gmap bytes bytes) (names : list bytes) (first : bool) (out : bytes)
  : result bytes :=
  match names with
  | [] => Ok out
  | name :: names' =>
      let out1 := if first then out else out ++ [","%byte] in
      let out2 := appendString out1 name ++ [":"%byte] in
      let v := default [] (obj !! name) in
      _ ← check_encoded v;
      encode_members obj names' false (out2 ++ v)
  end.

Definition EncodeObject (obj : gmap bytes bytes) : result bytes :=
  let names := sort_strings ((map_to_list obj).*1) in
  out ← encode_members obj names true ["{"%byte];
  Ok (out ++ ["}"%byte]).
End Jsonscan.
