(* ===== verification/Jsonwords.v ===== *)
(** * Jsonwords: the word-at-a-time tests of jsonscan are exact

    [hasByte], [hasBelow] and the high-bit test of [cleanASCII] look at eight
    bytes with a handful of 64-bit operations.  This file shows that each one
    answers exactly what a loop over the eight bytes would, and that the fast
    paths built on them are therefore equal to their byte-at-a-time
    references. *)

From S2P Require Import Prelude GoLib Jsonscan.

Module Jsonwords.
Import Jsonscan.

(** ** Bit operations act bytewise *)

Lemma testbit_low a x n : 0 <= a < 256 -> 0 <= n < 8 -> Z.testbit (a + 256 * x) n = Z.testbit a n.
Proof.
  intros Ha Hn. change 256 with (2 ^ 8). rewrite <- (Z.mod_pow2_bits_low (a + 2 ^ 8 * x) 8) by lia.
  replace (a + 2 ^ 8 * x) with (a + x * 2 ^ 8) by lia. rewrite Z_mod_plus_full.
  by rewrite Z.mod_pow2_bits_low by lia.
Qed.

Lemma testbit_high a x n : 0 <= a < 256 -> 8 <= n -> Z.testbit (a + 256 * x) n = Z.testbit x (n - 8).
Proof.
  intros Ha Hn. replace n with ((n - 8) + 8) at 1 by lia. rewrite <- Z.div_pow2_bits by lia.
  f_equal. change (2 ^ 8) with 256. rewrite Z.add_comm, Z.mul_comm, Z.div_add_l, Z.div_small by lia. lia.
Qed.

Lemma testbit_byte_high a n : 0 <= a < 256 -> 8 <= n -> Z.testbit a n = false.
Proof.
  intros Ha Hn. replace a with (a + 256 * 0) by lia. rewrite testbit_high by lia. apply Z.bits_0.
Qed.

(** A bitwise operation that maps [false, false] to [false] distributes over
    the split into the low byte and the rest. *)
Lemma bytewise (op : Z -> Z -> Z) (f : bool -> bool -> bool) a b x y :
  (forall u v n, Z.testbit (op u v) n = f (Z.testbit u n) (Z.testbit v n)) ->
  0 <= a < 256 -> 0 <= b < 256 -> 0 <= op a b < 256 ->
  op (a + 256 * x) (b + 256 * y) = op a b + 256 * op x y.
Proof.
  intros Hop Ha Hb Hab. apply Z.bits_inj'. intros n Hn. rewrite Hop.
  destruct (Z_lt_ge_dec n 8).
  - rewrite !testbit_low by lia. by rewrite Hop.
  - rewrite !testbit_high by lia. by rewrite Hop.
Qed.

Lemma byte_bound z : (forall n, 8 <= n -> Z.testbit z n = false) -> 0 <= z -> 0 <= z < 256.
Proof.
  intros H Hz. split; [done|]. destruct (Z_lt_ge_dec z 256); [done|].
  assert (8 <= Z.log2 z) by (apply Z.log2_le_pow2; lia).
  specialize (H (Z.log2 z) ltac:(lia)). by rewrite Z.bit_log2 in H by lia.
Qed.

Lemma land_byte a b : 0 <= a < 256 -> 0 <= b < 256 -> 0 <= Z.land a b < 256.
Proof.
  intros Ha Hb. apply byte_bound; [|apply Z.land_nonneg; lia].
  intros n Hn. rewrite Z.land_spec, testbit_byte_high by lia. done.
Qed.
Lemma lxor_byte a b : 0 <= a < 256 -> 0 <= b < 256 -> 0 <= Z.lxor a b < 256.
Proof.
  intros Ha Hb. apply byte_bound; [|apply Z.lxor_nonneg; lia].
  intros n Hn. rewrite Z.lxor_spec, !testbit_byte_high by lia. done.
Qed.
Lemma ldiff_byte a b : 0 <= a < 256 -> 0 <= b < 256 -> 0 <= Z.ldiff a b < 256.
Proof.
  intros Ha Hb. apply byte_bound; [|apply Z.ldiff_nonneg; lia].
  intros n Hn. rewrite Z.ldiff_spec, testbit_byte_high by lia. done.
Qed.

Lemma land_bytes a b x y : 0 <= a < 256 -> 0 <= b < 256 ->
  Z.land (a + 256 * x) (b + 256 * y) = Z.land a b + 256 * Z.land x y.
Proof. intros. eapply bytewise; eauto using land_byte. intros. apply Z.land_spec. Qed.
Lemma lxor_bytes a b x y : 0 <= a < 256 -> 0 <= b < 256 ->
  Z.lxor (a + 256 * x) (b + 256 * y) = Z.lxor a b + 256 * Z.lxor x y.
Proof. intros. eapply bytewise; eauto using lxor_byte. intros. apply Z.lxor_spec. Qed.
Lemma ldiff_bytes a b x y : 0 <= a < 256 -> 0 <= b < 256 ->
  Z.ldiff (a + 256 * x) (b + 256 * y) = Z.ldiff a b + 256 * Z.ldiff x y.
Proof.
  intros. apply (bytewise _ (fun u v => u && negb v)); auto using ldiff_byte. intros. apply Z.ldiff_spec.
Qed.

(** The high bit of a byte. *)
Lemma land_128 z : 0 <= z < 256 -> Z.land z 128 = if z <? 128 then 0 else 128.
Proof.
  intros Hz. rewrite <- (bz_zb_small z) by done. by destruct (zb z).
Qed.

Lemma ldiff_128 d b : 0 <= d < 256 -> 0 <= b < 256 ->
  Z.land (Z.ldiff d b) 128 = if (128 <=? d) && (b <? 128) then 128 else 0.
Proof.
  intros Hd Hb. assert (Hc : Z.land (Z.ldiff d b) 128 = Z.ldiff (Z.land d 128) (Z.land b 128)).
  { apply Z.bits_inj'. intros n Hn. rewrite Z.land_spec, !Z.ldiff_spec, !Z.land_spec.
    destruct (Z.testbit d n), (Z.testbit b n), (Z.testbit 128 n); done. }
  rewrite Hc, !land_128 by lia.
  destruct (d <? 128) eqn:E, (b <? 128) eqn:F, (128 <=? d) eqn:G; try lia; done.
Qed.

(** ** The tests over [k] bytes *)

Fixpoint ones (k : nat) : Z := match k with O => 0 | S k' => 1 + 256 * ones k' end.
Fixpoint highs (k : nat) : Z := match k with O => 0 | S k' => 128 + 256 * highs k' end.

(** The subtraction test, relative to the width of the word. *)
Definition below_bits (l : bytes) (n : Z) : Z :=
  let x := le_val l in
  Z.land (Z.ldiff ((x - ones (length l) * n) mod 256 ^ Z.of_nat (length l)) x) (highs (length l)).

Lemma below_bits_nonneg l n : 0 <= below_bits l n.
Proof.
  unfold below_bits. apply Z.land_nonneg. left. apply Z.ldiff_nonneg. left.
  apply Z.mod_pos_bound. apply Z.pow_pos_nonneg; lia.
Qed.

Lemma sub_split b X n o k :
  0 <= b < 256 -> 0 <= n <= 128 ->
  exists lo hi, 0 <= lo < 256 /\
    (b + 256 * X - (1 + 256 * o) * n) mod 256 ^ Z.of_nat (S k) = lo + 256 * hi /\
    (n <= b -> lo = b - n /\ hi = (X - o * n) mod 256 ^ Z.of_nat k) /\
    (b < n -> lo = b - n + 256).
Proof.
  intros Hb Hn. rewrite Nat2Z.inj_succ, Z.pow_succ_r by lia.
  pose proof (Z.pow_pos_nonneg 256 (Z.of_nat k) ltac:(lia) ltac:(lia)) as HP.
  replace (b + 256 * X - (1 + 256 * o) * n) with ((b - n) + (X - o * n) * 256) by ring.
  rewrite Z.rem_mul_r by lia. rewrite Z_mod_plus_full.
  destruct (Z_le_gt_dec n b).
  - exists (b - n), ((X - o * n) mod 256 ^ Z.of_nat k).
    rewrite Z.mod_small by lia. rewrite Z.div_add, (Z.div_small (b - n)), Z.add_0_l by lia.
    repeat split; lia.
  - exists (b - n + 256), (((b - n + (X - o * n) * 256) / 256) mod 256 ^ Z.of_nat k).
    rewrite <- (Z_mod_plus_full (b - n) 1), Z.mod_small by lia. repeat split; lia.
Qed.

Lemma below_bits_spec l n :
  0 <= n <= 128 -> below_bits l n <> 0 <-> Exists (fun b => bz b < n) l.
Proof.
  intros Hn. induction l as [|b l IH].
  - unfold below_bits. cbn. rewrite Z.land_0_r. split; [done|]. intros H. inversion H.
  - rewrite Exists_cons, <- IH. unfold below_bits at 1. cbn [length le_val ones highs].
    pose proof (bz_range b) as Hb.
    destruct (sub_split (bz b) (le_val l) n (ones (length l)) (length l)) as (lo & hi & Hlo & -> & Hge & Hlt); [done..|].
    rewrite ldiff_bytes, land_bytes, ldiff_128 by (auto using ldiff_byte; lia).
    destruct (Z_le_gt_dec n (bz b)) as [Hc|Hc].
    + destruct Hge as [-> ->]; [done|]. fold (below_bits l n).
      destruct (_ && _) eqn:E; [lia|]. lia.
    + rewrite Hlt in * by lia. split; [lia|]. intros _.
      destruct (_ && _) eqn:E; [|lia].
      assert (0 <= Z.land (Z.ldiff hi (le_val l)) (highs (length l))); [|lia].
      apply Z.land_nonneg. right. clear. induction (length l); cbn [highs]; lia.
Qed.

Lemma high_bits_spec l : Z.land (le_val l) (highs (length l)) <> 0 <-> Exists (fun b => RuneSelf <= bz b) l.
Proof.
  unfold RuneSelf. induction l as [|b l IH].
  - cbn. split; [done|]. intros H. inversion H.
  - rewrite Exists_cons, <- IH. cbn [length le_val highs]. pose proof (bz_range b).
    rewrite land_bytes, land_128 by lia.
    assert (0 <= Z.land (le_val l) (highs (length l))).
    { apply Z.land_nonneg. left. apply le_val_bound. }
    destruct (bz b <? 128) eqn:E; lia.
Qed.

Lemma lxor_ones l c :
  Z.lxor (le_val l) (ones (length l) * bz c) = le_val (map (fun b => zb (Z.lxor (bz b) (bz c))) l).
Proof.
  induction l as [|b l IH]; [done|]. cbn [length le_val ones map].
  pose proof (bz_range b). pose proof (bz_range c).
  rewrite bz_zb_small by (by apply lxor_byte). rewrite <- IH.
  replace ((1 + 256 * ones (length l)) * bz c) with (bz c + 256 * (ones (length l) * bz c)) by ring.
  by apply lxor_bytes.
Qed.

Lemma hasBelow_8 l n :
  length l = 8%nat -> hasBelow (le_val l) n = negb (below_bits l n =? 0).
Proof. intros E. unfold hasBelow, below_bits. by rewrite E. Qed.

Lemma hasBelow_spec l n :
  length l = 8%nat -> 0 <= n <= 128 -> hasBelow (le_val l) n = existsb (fun b => bz b <? n) l.
Proof.
  intros E Hn. rewrite hasBelow_8 by done. apply eq_true_iff_eq.
  rewrite negb_true_iff, Z.eqb_neq, below_bits_spec, existsb_exists, List.Exists_exists by done.
  apply exist_proper. intros b. by rewrite Z.ltb_lt.
Qed.

Lemma hasByte_spec l c :
  length l = 8%nat -> hasByte (le_val l) c = existsb (fun b => b =b c) l.
Proof.
  intros E. set (l' := map (fun b => zb (Z.lxor (bz b) (bz c))) l).
  assert (Hl : length l' = 8%nat) by (unfold l'; by rewrite length_map).
  trans (hasBelow (le_val l') 1).
  { unfold hasByte, hasBelow. rewrite Z.mul_1_r. unfold l'. rewrite <- lxor_ones, E. done. }
  rewrite hasBelow_spec by (done || lia). unfold l'. clear.
  induction l as [|b l IH]; [done|]. cbn. rewrite IH. f_equal.
  pose proof (bz_range b). pose proof (bz_range c).
  rewrite bz_zb_small by (by apply lxor_byte). rewrite beqb_bz.
  pose proof (lxor_byte (bz b) (bz c)). pose proof (Z.lxor_eq_0_iff (bz b) (bz c)).
  destruct (_ <? 1) eqn:F, (_ =? _) eqn:G; lia.
Qed.

Lemma highs8_spec l :
  length l = 8%nat -> negb (Z.land (le_val l) highs8 =? 0) = existsb (fun b => RuneSelf <=? bz b) l.
Proof.
  intros E. change highs8 with (highs 8). rewrite <- E. apply eq_true_iff_eq.
  rewrite negb_true_iff, Z.eqb_neq, high_bits_spec, existsb_exists, List.Exists_exists.
  apply exist_proper. intros b. by rewrite Z.leb_le.
Qed.

(** ** The loops that consume a word per step *)

(** A byte that neither ends, escapes nor invalidates a string. *)
Definition passes (c : byte) : bool := negb ((c =b x22) || (c =b "\"%byte) || (bz c <? 0x20)).

Lemma existsb_or3 {A} (f g h : A -> bool) l :
  existsb f l || existsb g l || existsb h l = negb (forallb (fun c => negb (f c || g c || h c)) l).
Proof.
  induction l as [|x l IH]; [done|]. cbn.
  destruct (f x), (g x), (h x), (existsb f l), (existsb g l), (existsb h l); cbn in *; congruence || done.
Qed.

Lemma existsb_or2 {A} (f g : A -> bool) l :
  existsb f l || existsb g l = negb (forallb (fun c => negb (f c || g c)) l).
Proof.
  induction l as [|x l IH]; [done|]. cbn.
  destruct (f x), (g x), (existsb f l), (existsb g l); cbn in *; congruence || done.
Qed.

Fixpoint words_ind (P : bytes -> Prop)
  (Hshort : forall s, (length s < 8)%nat -> P s)
  (Hword : forall b0 b1 b2 b3 b4 b5 b6 b7 s, P s -> P (b0 :: b1 :: b2 :: b3 :: b4 :: b5 :: b6 :: b7 :: s))
  (s : bytes) {struct s} : P s.
Proof.
  do 8 (destruct s as [|? s]; [apply Hshort; cbn; lia|]).
  apply Hword. apply (words_ind P Hshort Hword).
Defined.

(** The fast path of [skipString] skips a run of bytes the byte loop would
    have passed one at a time. *)
Lemma word_skip_spec s : exists p, s = p ++ word_skip s /\ forallb passes p = true.
Proof.
  induction s as [s Hs|b0 b1 b2 b3 b4 b5 b6 b7 s (p & Hp & Hc)] using words_ind.
  - exists []. split; [|done].
    do 8 (destruct s as [|? s]; [done|]). cbn in Hs. lia.
  - cbn [word_skip]. set (w := [b0; b1; b2; b3; b4; b5; b6; b7]).
    rewrite !hasByte_spec, hasBelow_spec, existsb_or3 by (done || lia).
    fold passes. destruct (forallb _ w) eqn:E; cbn.
    + exists (w ++ p). split; [cbn; by rewrite <- Hp|]. by rewrite forallb_app, E, Hc.
    + by exists [].
Qed.

(** [cleanASCII] answers what the byte loop of [HasKey] and [parseName] does. *)
Lemma cleanASCII_plain s : cleanASCII s = plain s.
Proof.
  induction s as [s Hs|b0 b1 b2 b3 b4 b5 b6 b7 s IH] using words_ind.
  - do 8 (destruct s as [|? s]; [done|]). cbn in Hs. lia.
  - cbn [cleanASCII]. set (w := [b0; b1; b2; b3; b4; b5; b6; b7]).
    rewrite hasByte_spec, highs8_spec, existsb_or2 by done.
    change (b0 :: _) with (w ++ s). unfold plain in *. rewrite forallb_app, IH.
    by destruct (forallb _ w).
Qed.

(** The word-at-a-time tests are exact, with no false positive and no false
    negative: on a word loaded from any eight bytes, [hasByte] says whether one
    of them is the byte asked for and, for every bound up to 0x80, [hasBelow]
    says whether one of them is below it. *)
Theorem word_tests_exact (l : bytes) (c : byte) (n : Z) (Hl : length l = 8%nat) (Hn : 0 <= n <= 0x80) :
  hasByte (le_val l) c = existsb (fun b => b =b c) l /\
  hasBelow (le_val l) n = existsb (fun b => bz b <? n) l.
Proof. split; [by apply hasByte_spec | by apply hasBelow_spec]. Qed.

Lemma word_tests_exact_witness :
  hasByte (le_val (bs "abc\efgh")) "\"%byte = true /\ hasBelow (le_val (bs "abc\efgh")) 0x20 = false.
Proof.
  pose proof (word_tests_exact (bs "abc\efgh") "\"%byte 0x20 eq_refl ltac:(lia)) as [-> ->]. split; reflexivity.
Defined.
End Jsonwords.
