(* ===== verification/Jsongrammar.v ===== *)
(** * Jsongrammar: the scanner recognises the RFC 8259 grammar

    The grammar of JSON texts as inductive predicates (white space, string
    bodies, numbers, values with a nesting bound) and the theorems that relate
    the scanner of [Jsonscan] to it: what it accepts is a sentence, every
    sentence is accepted up to the next delimiter, and on every input it
    returns within [fuel_for] without an out-of-range index. *)

From S2P Require Import Prelude GoLib Jsonscan Jsonwords.

Module Jsongrammar.
Import Jsonscan Jsonwords.

(** ** The grammar *)

Definition ws (w : bytes) : Prop := forallb is_space w = true.

Definition simple_escape (c : byte) : bool :=
  (c =b x22) || (c =b "\"%byte) || (c =b "/"%byte) || (c =b "b"%byte)
  || (c =b "f"%byte) || (c =b "n"%byte) || (c =b "r"%byte) || (c =b "t"%byte).

Inductive string_chars : bytes -> Prop :=
  | sc_nil : string_chars []
  | sc_char c b : passes c = true -> string_chars b -> string_chars (c :: b)
  | sc_esc c b : simple_escape c = true -> string_chars b -> string_chars ("\"%byte :: c :: b)
  | sc_u h1 h2 h3 h4 b :
      isHex h1 && isHex h2 && isHex h3 && isHex h4 = true -> string_chars b ->
      string_chars ("\"%byte :: "u"%byte :: h1 :: h2 :: h3 :: h4 :: b).

Definition digits (ds : bytes) : Prop := forallb isDigit ds = true.
Definition digits_1 (ds : bytes) : Prop := digits ds /\ ds <> [].

Definition int_part (n : bytes) : Prop :=
  n = ["0"%byte] \/ exists c ds, n = c :: ds /\ isDigit c = true /\ c <> "0"%byte /\ digits ds.
Definition frac_part (n : bytes) : Prop := n = [] \/ exists ds, n = "."%byte :: ds /\ digits_1 ds.
Definition exp_part (n : bytes) : Prop :=
  n = [] \/ exists e sg ds, n = e :: sg ++ ds /\ (e = "e"%byte \/ e = "E"%byte) /\
                            (sg = [] \/ sg = ["+"%byte] \/ sg = ["-"%byte]) /\ digits_1 ds.

Definition JNumber (n : bytes) : Prop :=
  exists sg i f e, n = sg ++ i ++ f ++ e /\ (sg = [] \/ sg = ["-"%byte]) /\
                   int_part i /\ frac_part f /\ exp_part e.

Definition quoted (b : bytes) : bytes := x22 :: b ++ [x22].

(** [JValue open v]: [v] is a value inside [open] enclosing containers, nested
    no deeper than [MaxDepth].  [JMembers open ms] is what stands between the
    braces of a non-empty object, [JElems open es] between the brackets of a
    non-empty array; their values are inside [open] containers. *)
Inductive JValue : Z -> bytes -> Prop :=
  | JV_true o : JValue o (bs "true")
  | JV_false o : JValue o (bs "false")
  | JV_null o : JValue o (bs "null")
  | JV_string o b : string_chars b -> JValue o (quoted b)
  | JV_number o n : JNumber n -> JValue o n
  | JV_empty_object o w : o + 1 <= MaxDepth -> ws w -> JValue o ("{"%byte :: w ++ ["}"%byte])
  | JV_object o ms : o + 1 <= MaxDepth -> JMembers (o + 1) ms -> JValue o ("{"%byte :: ms ++ ["}"%byte])
  | JV_empty_array o w : o + 1 <= MaxDepth -> ws w -> JValue o ("["%byte :: w ++ ["]"%byte])
  | JV_array o es : o + 1 <= MaxDepth -> JElems (o + 1) es -> JValue o ("["%byte :: es ++ ["]"%byte])
with JMembers : Z -> bytes -> Prop :=
  | JM_one o w1 b w2 w3 v w4 :
      ws w1 -> string_chars b -> ws w2 -> ws w3 -> JValue o v -> ws w4 ->
      JMembers o (w1 ++ quoted b ++ w2 ++ ":"%byte :: w3 ++ v ++ w4)
  | JM_more o w1 b w2 w3 v w4 ms :
      ws w1 -> string_chars b -> ws w2 -> ws w3 -> JValue o v -> ws w4 -> JMembers o ms ->
      JMembers o ((w1 ++ quoted b ++ w2 ++ ":"%byte :: w3 ++ v ++ w4) ++ ","%byte :: ms)
with JElems : Z -> bytes -> Prop :=
  | JE_one o w1 v w2 : ws w1 -> JValue o v -> ws w2 -> JElems o (w1 ++ v ++ w2)
  | JE_more o w1 v w2 es :
      ws w1 -> JValue o v -> ws w2 -> JElems o es -> JElems o ((w1 ++ v ++ w2) ++ ","%byte :: es).

Scheme JValue_mut := Induction for JValue Sort Prop
  with JMembers_mut := Induction for JMembers Sort Prop
  with JElems_mut := Induction for JElems Sort Prop.
Combined Scheme json_mut from JValue_mut, JMembers_mut, JElems_mut.

(** What may follow a value: nothing, or a byte that cannot extend a number. *)
Definition delimited (rest : bytes) : Prop :=
  match rest with
  | [] => True
  | c :: _ => isDigit c = false /\ c <> "."%byte /\ c <> "e"%byte /\ c <> "E"%byte
  end.

(** A scanning result that is neither a panic nor a loop cut short. *)
Definition scans {A} (r : result A) : Prop :=
  match r with Ok _ | Err (ErrBadJSON _) => True | _ => False end.

Lemma scans_bad {A} msg : scans (@bad A msg).
Proof. done. Qed.
Lemma scans_bind {A B} (r : result A) (f : A -> result B) :
  scans r -> (forall a, r = Ok a -> scans (f a)) -> scans (r ≫= f).
Proof. destruct r as [a|e]; cbn; [auto|]. by destruct e. Qed.
#[export] Hint Resolve scans_bad : naust.

(** ** White space *)

Definition not_space_head (s : bytes) : Prop := match s with [] => True | c :: _ => is_space c = false end.

Lemma skipSpace_spec s : exists w, s = w ++ skipSpace s /\ ws w /\ not_space_head (skipSpace s).
Proof.
  induction s as [|c s (w & Hw & Hs & Hn)]; [by exists []|]. cbn. destruct (is_space c) eqn:E.
  - exists (c :: w). cbn. rewrite <- Hw. split; [done|]. split; [|done]. unfold ws. cbn. by rewrite E.
  - by exists [].
Qed.

Lemma skipSpace_ws w s : ws w -> skipSpace (w ++ s) = skipSpace s.
Proof. unfold ws. induction w as [|c w IH]; [done|]. cbn. intros [-> H]%andb_prop. auto. Qed.

Lemma skipSpace_id s : not_space_head s -> skipSpace s = s.
Proof. destruct s; [done|]. cbn. by intros ->. Qed.

Lemma skipSpace_ws_id w s : ws w -> not_space_head s -> skipSpace (w ++ s) = s.
Proof. intros. rewrite skipSpace_ws by done. by apply skipSpace_id. Qed.

Lemma skipSpace_length s : (length (skipSpace s) <= length s)%nat.
Proof. destruct (skipSpace_spec s) as (w & Hw & _). rewrite Hw at 2. rewrite length_app. lia. Qed.

Lemma ws_app a b : ws (a ++ b) <-> ws a /\ ws b.
Proof. unfold ws. by rewrite forallb_app, andb_true_iff. Qed.

Lemma end_spec s : end_ s = Ok tt <-> ws s.
Proof.
  unfold end_. destruct (skipSpace_spec s) as (w & Hw & Hs & Hn). split.
  - destruct (skipSpace s); [|done]. rewrite app_nil_r in Hw. by subst.
  - intros Hws. rewrite Hw in Hws. apply ws_app in Hws as [_ Hws].
    destruct (skipSpace s) as [|c r]; [done|]. unfold ws in Hws. cbn in *. by rewrite Hn in Hws.
Qed.

Lemma end_scans s : scans (end_ s).
Proof. unfold end_. by destruct (skipSpace s). Qed.
#[export] Hint Resolve end_scans : naust.

Lemma end_is_ok s : is_ok (end_ s) = true <-> ws s.
Proof. rewrite <- end_spec. destruct (end_ s) as [[]|]; naive_solver. Qed.

(** ** Literals *)

Lemma literal_spec want s rest : literal want s = Ok rest <-> s = want ++ rest.
Proof.
  revert s. induction want as [|w want IH]; intros s; cbn; [naive_solver|].
  destruct s as [|c s]; [done|]. destruct (c =b w) eqn:E.
  - apply beqb_eq in E as ->. rewrite IH. naive_solver.
  - apply beqb_neq in E. naive_solver.
Qed.

Lemma literal_scans want s : scans (literal want s).
Proof.
  revert s. induction want as [|w want IH]; intros [|c s]; cbn; auto with naust.
  destruct (c =b w); auto with naust.
Qed.
#[export] Hint Resolve literal_scans : naust.

(** ** Strings *)

Lemma string_chars_passes p b : forallb passes p = true -> string_chars b -> string_chars (p ++ b).
Proof.
  induction p as [|c p IH]; [done|]. cbn. intros [??]%andb_prop ?. constructor; auto.
Qed.

Lemma passes_backslash c : passes c = true -> c <> "\"%byte /\ c <> x22 /\ 0x20 <= bz c.
Proof.
  unfold passes. rewrite negb_true_iff, !orb_false_iff. intros [[H1 H2] H3].
  apply beqb_neq in H1, H2. repeat split; try done. lia.
Qed.

Lemma string_chars_tail c b : passes c = true -> string_chars (c :: b) -> string_chars b.
Proof. intros Hc H. apply passes_backslash in Hc as [Hc _]. by inversion H; subst. Qed.

Lemma string_chars_drop p b : forallb passes p = true -> string_chars (p ++ b) -> string_chars b.
Proof.
  induction p as [|c p IH]; [done|]. cbn. intros [??]%andb_prop ?%string_chars_tail; auto.
Qed.

Lemma skipEscape_sound s rest :
  skipEscape ("\"%byte :: s) = Ok rest ->
  exists e, "\"%byte :: s = e ++ rest /\ (2 <= length e)%nat /\
            forall b, string_chars b -> string_chars (e ++ b).
Proof.
  cbn. destruct s as [|c r]; [done|]. fold (simple_escape c).
  destruct (simple_escape c) eqn:E.
  - intros [= <-]. exists ["\"%byte; c]. cbn. repeat split; [lia|]. intros. by constructor.
  - destruct (c =b "u"%byte) eqn:U; [|done]. apply beqb_eq in U as ->.
    destruct r as [|h1 [|h2 [|h3 [|h4 r]]]]; try done.
    destruct (_ && _) eqn:H; [|done]. intros [= <-].
    exists ["\"%byte; "u"%byte; h1; h2; h3; h4]. cbn. repeat split; [lia|]. intros. by constructor.
Qed.

Lemma skipEscape_scans s : scans (skipEscape s).
Proof.
  destruct s as [|c [|e r]]; cbn; auto with naust.
  destruct (_ || _); [done|]. destruct (e =b "u"%byte); [|done].
  destruct r as [|h1 [|h2 [|h3 [|h4 r]]]]; try done. by destruct (_ && _).
Qed.

Lemma string_body_sound fuel s rest :
  string_body fuel s = Ok rest -> exists b, string_chars b /\ s = b ++ x22 :: rest.
Proof.
  revert s. induction fuel as [|fuel IH]; intros s; [done|]. cbn [string_body].
  destruct (word_skip_spec s) as (p & Hs & Hp). destruct (word_skip s) as [|c r]; [done|]. subst s.
  destruct (c =b x22) eqn:Q.
  { apply beqb_eq in Q as ->. intros [= <-]. exists p. split; [|done].
    rewrite <- (app_nil_r p). auto using string_chars_passes, sc_nil. }
  destruct (c =b "\"%byte) eqn:B.
  { apply beqb_eq in B as ->. intros (s' & He & Hs')%result_bind_Ok.
    apply skipEscape_sound in He as (e & -> & _ & He). apply IH in Hs' as (b & Hb & ->).
    exists (p ++ e ++ b). split; [auto using string_chars_passes|]. by rewrite <- !app_assoc. }
  destruct (bz c <? 0x20) eqn:C; [done|]. intros (b & Hb & ->)%IH.
  exists (p ++ c :: b). split; [|by rewrite <- app_assoc].
  apply string_chars_passes; [done|]. constructor; [|done]. unfold passes. by rewrite Q, B, C.
Qed.

Lemma passes_prefix p t b rest :
  forallb passes p = true -> b ++ x22 :: rest = p ++ t -> exists b', b = p ++ b' /\ t = b' ++ x22 :: rest.
Proof.
  revert b. induction p as [|c p IH]; intros b Hp E; [by exists b|]. cbn in *.
  apply andb_prop in Hp as [Hc Hp]. apply passes_backslash in Hc as (_ & Hc & _).
  destruct b as [|d b]; [naive_solver|]. cbn in E. injection E as -> E.
  apply IH in E as (b' & -> & ->); [|done]. by exists b'.
Qed.

Lemma string_body_complete fuel b rest :
  string_chars b -> (length b < fuel)%nat -> string_body fuel (b ++ x22 :: rest) = Ok rest.
Proof.
  revert b. induction fuel as [|fuel IH]; intros b Hb Hf; [lia|]. cbn [string_body].
  destruct (word_skip_spec (b ++ x22 :: rest)) as (p & E & Hp).
  apply passes_prefix in E as (b' & -> & ->); [|done].
  apply string_chars_drop in Hb; [|done]. rewrite length_app in Hf.
  inversion Hb as [|c b Hc Hb'|c b Hc Hb'|h1 h2 h3 h4 b Hc Hb']; subst; cbn [app].
  - by rewrite beqb_refl.
  - pose proof (passes_backslash c Hc) as (H1%beqb_neq & H2%beqb_neq & H3). rewrite H1, H2.
    destruct (bz c <? 0x20) eqn:C; [lia|]. apply IH; [done|]. cbn in Hf. lia.
  - assert (He : skipEscape ("\"%byte :: c :: b ++ x22 :: rest) = Ok (b ++ x22 :: rest)).
    { cbn. fold (simple_escape c). by rewrite Hc. }
    change ("\"%byte =b x22) with false. rewrite beqb_refl, He. apply IH; [done|]. cbn in Hf. lia.
  - change ("\"%byte =b x22) with false. rewrite beqb_refl. cbn. rewrite Hc. cbn.
    apply IH; [done|]. cbn in Hf. lia.
Qed.

Lemma string_body_scans fuel s : (length s < fuel)%nat -> scans (string_body fuel s).
Proof.
  revert s. induction fuel as [|fuel IH]; intros s Hf; [lia|]. cbn [string_body].
  destruct (word_skip_spec s) as (p & Hs & _). destruct (word_skip s) as [|c r]; [done|]. subst s.
  rewrite length_app in Hf. cbn in Hf.
  destruct (c =b x22); [done|]. destruct (c =b "\"%byte) eqn:B.
  - apply beqb_eq in B as ->. apply scans_bind; [apply skipEscape_scans|]. intros s' He.
    apply skipEscape_sound in He as (e & He & ? & _). apply IH.
    apply (f_equal length) in He. rewrite length_app in He. cbn in He. lia.
  - destruct (bz c <? 0x20); [done|]. apply IH. lia.
Qed.

Lemma skipString_spec s rest :
  skipString s = Ok rest <-> exists b, string_chars b /\ s = quoted b ++ rest.
Proof.
  unfold quoted. split.
  - destruct s as [|c r]; [done|]. cbn [skipString]. destruct (c =b x22) eqn:E; [|done]. apply beqb_eq in E as ->.
    intros (b & Hb & ->)%string_body_sound. exists b. by rewrite <- app_comm_cons, <- app_assoc.
  - intros (b & Hb & ->). cbn [app skipString]. rewrite beqb_refl, <- app_assoc. cbn [app].
    apply string_body_complete; [done|]. rewrite length_app. cbn. lia.
Qed.

Lemma skipString_scans s : scans (skipString s).
Proof.
  destruct s as [|c r]; [done|]. cbn [skipString]. destruct (c =b x22); [|done]. apply string_body_scans. lia.
Qed.
#[export] Hint Resolve skipString_scans : naust.

Lemma span_app v rest : span (v ++ rest) rest = v.
Proof. unfold span. rewrite length_app. replace (_ - _)%nat with (length v) by lia. apply take_app_length. Qed.

Lemma body_quoted b rest : body (quoted b ++ rest) rest = b.
Proof.
  unfold body. rewrite span_app. unfold quoted. cbn [drop length]. rewrite length_app. cbn [length].
  replace (_ - 2)%nat with (length b) by lia. apply take_app_length.
Qed.

(** ** Numbers *)

Definition not_digit_head (s : bytes) : Prop := match s with [] => True | c :: _ => isDigit c = false end.

Lemma skip_digits_spec s :
  exists ds, s = ds ++ skip_digits s /\ digits ds /\ not_digit_head (skip_digits s).
Proof.
  induction s as [|c s (ds & Hw & Hs & Hn)]; [by exists []|]. cbn. destruct (isDigit c) eqn:E.
  - exists (c :: ds). cbn. rewrite <- Hw. split; [done|]. split; [|done]. unfold digits. cbn. by rewrite E.
  - by exists [].
Qed.

Lemma skip_digits_app ds rest : digits ds -> not_digit_head rest -> skip_digits (ds ++ rest) = rest.
Proof.
  unfold digits. induction ds as [|c ds IH]; cbn.
  - intros _. destruct rest; [done|]. cbn. by intros ->.
  - intros [-> H]%andb_prop. auto.
Qed.

Lemma digits1_sound s rest : digits1 s = Ok rest -> exists ds, s = ds ++ rest /\ digits_1 ds.
Proof.
  unfold digits1, digits_1. destruct s as [|c s]; [done|]. destruct (isDigit c) eqn:E; [|done]. intros [= <-].
  destruct (skip_digits_spec (c :: s)) as (ds & H & Hd & Hn). exists ds. split; [done|]. split; [done|].
  intros ->. cbn in H. rewrite E in H. apply (f_equal length) in H. cbn in H.
  destruct (skip_digits_spec s) as (ds' & Hl%(f_equal length) & _). rewrite length_app in Hl. lia.
Qed.

Lemma digits1_complete ds rest : digits_1 ds -> not_digit_head rest -> digits1 (ds ++ rest) = Ok rest.
Proof.
  intros [Hd Hn] Hr. destruct ds as [|c ds]; [done|]. unfold digits1. cbn [app].
  rewrite app_comm_cons, skip_digits_app by done. unfold digits in Hd. cbn in Hd.
  by apply andb_prop in Hd as [-> _].
Qed.

Lemma digits1_scans s : scans (digits1 s).
Proof. destruct s as [|c s]; [done|]. cbn. by destruct (isDigit c). Qed.
#[export] Hint Resolve digits1_scans : naust.

Lemma delimited_not_digit rest : delimited rest -> not_digit_head rest.
Proof. destruct rest; [done|]. by intros [? _]. Qed.

Lemma number_exp_sound s rest : number_exp s = Ok rest -> exists e, s = e ++ rest /\ exp_part e.
Proof.
  unfold number_exp, exp_part. destruct s as [|c s]; [intros [= <-]; exists []; auto|].
  destruct (_ || _) eqn:E; [|intros [= <-]; exists []; auto].
  assert (c = "e"%byte \/ c = "E"%byte) as Hc.
  { apply orb_prop in E as [E|E]; apply beqb_eq in E; auto. }
  intros H. assert (exists sg ds, s = sg ++ ds ++ rest /\ (sg = [] \/ sg = ["+"%byte] \/ sg = ["-"%byte]) /\ digits_1 ds)
    as (sg & ds & -> & Hsg & Hds).
  { destruct s as [|d s]; [done|]. destruct ((d =b "+"%byte) || (d =b "-"%byte)) eqn:S.
    - apply digits1_sound in H as (ds & -> & Hds). exists [d], ds. split; [done|]. split; [|done].
      apply orb_prop in S as [S|S]; apply beqb_eq in S as ->; auto.
    - apply digits1_sound in H as (ds & -> & Hds). exists [], ds. auto. }
  exists (c :: sg ++ ds). split; [by rewrite <- app_comm_cons, <- app_assoc|]. right. by exists c, sg, ds.
Qed.

Lemma digit_neq c (d : byte) : isDigit c = true -> isDigit d = false -> (c =b d) = false.
Proof. intros Hc Hd. apply beqb_neq. intros ->. congruence. Qed.

Lemma number_exp_complete e rest : exp_part e -> delimited rest -> number_exp (e ++ rest) = Ok rest.
Proof.
  intros He Hr. destruct He as [->|(c & sg & ds & -> & Hc & Hsg & Hds)].
  - cbn. destruct rest as [|c rest]; [done|]. destruct Hr as (_ & _ & H1%beqb_neq & H2%beqb_neq).
    cbn. by rewrite H1, H2.
  - rewrite <- app_comm_cons, <- app_assoc. unfold number_exp.
    assert ((c =b "e"%byte) || (c =b "E"%byte) = true) as -> by (destruct Hc as [-> | ->]; done).
    pose proof (digits1_complete ds rest Hds (delimited_not_digit _ Hr)) as Hd.
    destruct Hsg as [-> |[-> | ->]]; cbn -[digits1]; try done.
    destruct Hds as [Hds Hne]. destruct ds as [|d ds]; [done|]. cbn [app] in *.
    unfold digits in Hds. cbn in Hds. apply andb_prop in Hds as [Hd' _].
    by rewrite !(digit_neq d) by done.
Qed.

Lemma number_exp_scans s : scans (number_exp s).
Proof.
  destruct s as [|c s]; [done|]. unfold number_exp. destruct (_ || _); [|done].
  destruct s as [|d s]; [done|]. destruct (_ || _); auto with naust.
Qed.

Lemma number_frac_sound s rest : number_frac s = Ok rest -> exists f, s = f ++ rest /\ frac_part f.
Proof.
  unfold number_frac, frac_part. destruct s as [|c s]; [intros [= <-]; exists []; auto|].
  destruct (c =b "."%byte) eqn:E; [|intros [= <-]; exists []; auto].
  apply beqb_eq in E as ->. intros (ds & -> & Hds)%digits1_sound.
  exists ("."%byte :: ds). split; [done|]. right. eauto.
Qed.

(** What follows the fraction of a number. *)
Lemma exp_delimited e rest :
  exp_part e -> delimited rest ->
  match e ++ rest with [] => True | c :: _ => isDigit c = false /\ c <> "."%byte end.
Proof.
  intros [->|(c & sg & ds & -> & Hc & _)] Hr; cbn.
  - destruct rest; [done|]. naive_solver.
  - destruct Hc as [-> | ->]; split; done.
Qed.

Lemma frac_delimited f e rest :
  frac_part f -> exp_part e -> delimited rest -> not_digit_head (f ++ e ++ rest).
Proof.
  intros [->|(ds & -> & _)] He Hr; cbn; [|done].
  pose proof (exp_delimited e rest He Hr). destruct (e ++ rest); naive_solver.
Qed.

Lemma number_frac_complete f e rest :
  frac_part f -> exp_part e -> delimited rest -> number_frac (f ++ e ++ rest) = Ok (e ++ rest).
Proof.
  intros Hf He Hr. pose proof (exp_delimited e rest He Hr) as Hx.
  destruct Hf as [->|(ds & -> & Hds)].
  - cbn. destruct (e ++ rest) as [|c t]; [done|]. destruct Hx as [_ Hx%beqb_neq]. cbn. by rewrite Hx.
  - cbn -[digits1]. apply digits1_complete; [done|]. destruct (e ++ rest); [done|]. by destruct Hx.
Qed.

Lemma number_frac_scans s : scans (number_frac s).
Proof. destruct s as [|c s]; [done|]. unfold number_frac. destruct (_ =b _); [auto with naust|done]. Qed.

Lemma number_int_sound s rest :
  number_int s = Ok rest -> not_digit_head s \/ exists i, s = i ++ rest /\ int_part i.
Proof.
  unfold number_int, int_part. destruct s as [|c s]; [done|]. cbn -[skip_digits].
  destruct (isDigit c) eqn:D; [|auto]. destruct (c =b "0"%byte) eqn:E.
  - apply beqb_eq in E as ->. intros [= <-]. right. exists ["0"%byte]. auto.
  - apply beqb_neq in E. intros [= <-]. right. destruct (skip_digits_spec s) as (ds & H & Hd & _).
    exists (c :: ds). cbn. rewrite D, <- H. split; [done|]. right. by exists c, ds.
Qed.

Lemma number_int_complete i rest : int_part i -> not_digit_head rest -> number_int (i ++ rest) = Ok rest.
Proof.
  intros [->|(c & ds & -> & Hc & H0%beqb_neq & Hds)] Hr; [done|].
  unfold number_int. cbn [app]. rewrite H0, app_comm_cons, skip_digits_app; [done| |done].
  unfold digits. cbn. by rewrite Hc.
Qed.

Lemma int_part_head i : int_part i -> exists c i', i = c :: i' /\ isDigit c = true.
Proof. intros [->|(c & ds & -> & Hc & _)]; eauto. Qed.

Definition number_head (s : bytes) : Prop :=
  match s with [] => False | c :: _ => c = "-"%byte \/ isDigit c = true end.

Lemma number_sign_sound s s1 :
  number_head s -> number_sign s = Ok s1 ->
  ~ not_digit_head s1 /\ exists sg, s = sg ++ s1 /\ (sg = [] \/ sg = ["-"%byte]).
Proof.
  unfold number_sign. destruct s as [|c s]; [done|]. intros Hh. destruct (c =b "-"%byte) eqn:E.
  - apply beqb_eq in E as ->. destruct s as [|d s]; [done|]. destruct (isDigit d) eqn:D; [|done].
    intros [= <-]. cbn. rewrite D. split; [done|]. exists ["-"%byte]. auto.
  - apply beqb_neq in E. destruct Hh as [|Hh]; [done|]. intros [= <-]. cbn. rewrite Hh.
    split; [done|]. exists []. auto.
Qed.

Lemma skipNumber_sound s rest :
  number_head s -> skipNumber s = Ok rest -> exists n, s = n ++ rest /\ JNumber n.
Proof.
  intros Hh (s1 & H1 & (s2 & H2 & (s3 & H3 & H4)%result_bind_Ok)%result_bind_Ok)%result_bind_Ok.
  apply number_sign_sound in H1 as [Hd (sg & -> & Hsg)]; [|done].
  apply number_int_sound in H2 as [|(i & -> & Hi)]; [done|].
  apply number_frac_sound in H3 as (f & -> & Hf). apply number_exp_sound in H4 as (e & -> & He).
  exists (sg ++ i ++ f ++ e). split; [by rewrite <- !app_assoc|]. by exists sg, i, f, e.
Qed.

Lemma skipNumber_complete n rest : JNumber n -> delimited rest -> skipNumber (n ++ rest) = Ok rest.
Proof.
  intros (sg & i & f & e & -> & Hsg & Hi & Hf & He) Hr. unfold skipNumber. rewrite <- !app_assoc.
  assert (number_sign (sg ++ i ++ f ++ e ++ rest) = Ok (i ++ f ++ e ++ rest)) as ->.
  { destruct (int_part_head i Hi) as (c & i' & -> & Hc).
    destruct Hsg as [-> | ->]; cbn; [|by rewrite Hc]. by rewrite (digit_neq c). }
  cbn [mbind result_bind]. rewrite number_int_complete by auto using frac_delimited. cbn [mbind result_bind].
  rewrite number_frac_complete by done. cbn [mbind result_bind]. by apply number_exp_complete.
Qed.

Lemma skipNumber_scans s : number_head s -> scans (skipNumber s).
Proof.
  intros Hh. apply scans_bind.
  - destruct s as [|c s]; [done|]. cbn. destruct (c =b "-"%byte); [|done].
    destruct s as [|d s]; [done|]. by destruct (isDigit d).
  - intros s1 H1. apply number_sign_sound in H1 as [Hd _]; [|done]. apply scans_bind.
    + destruct s1; [done|]. cbn. by destruct (_ =b _).
    + intros s2 _. apply scans_bind; [apply number_frac_scans|]. intros. apply number_exp_scans.
Qed.

Lemma JNumber_head n : JNumber n -> exists c n', n = c :: n' /\ (c = "-"%byte \/ isDigit c = true).
Proof.
  intros (sg & i & f & e & -> & Hsg & Hi & _). destruct (int_part_head i Hi) as (c & i' & -> & Hc).
  destruct Hsg as [-> | ->]; cbn; eauto.
Qed.

(** ** Values: what is accepted is a sentence *)

Lemma is_head_spec c s : is_head c s = true <-> exists r, s = c :: r.
Proof. destruct s as [|d r]; cbn; [naive_solver|]. rewrite beqb_eq. naive_solver. Qed.

Lemma colon_value_sound value s a b :
  colon_value value s = Ok (a, b) ->
  value a = Ok b /\ exists w2 w3, ws w2 /\ ws w3 /\ s = w2 ++ ":"%byte :: w3 ++ a.
Proof.
  unfold colon_value. destruct (skipSpace_spec s) as (w2 & Hs & Hw2 & _).
  destruct (skipSpace s) as [|c s1]; [done|]. destruct (c =b ":"%byte) eqn:E; [|done].
  apply beqb_eq in E as ->. intros (b' & Hv & [= <- <-])%result_bind_Ok. split; [done|].
  destruct (skipSpace_spec s1) as (w3 & Hs1 & Hw3 & _). exists w2, w3. by rewrite <- Hs1.
Qed.

Lemma separator_sound close s more r :
  separator close s = Ok (more, r) ->
  exists w, ws w /\ s = w ++ (if more : bool then ","%byte else close) :: r.
Proof.
  unfold separator. destruct (skipSpace_spec s) as (w & Hs & Hw & _).
  destruct (skipSpace s) as [|c s1]; [done|]. destruct (c =b ","%byte) eqn:E.
  - apply beqb_eq in E as ->. intros [= <- <-]. eauto.
  - destruct (c =b close) eqn:F; [|done]. apply beqb_eq in F as ->. intros [= <- <-]. eauto.
Qed.

Lemma separator_scans close s : scans (separator close s).
Proof. unfold separator. destruct (skipSpace s) as [|c r]; [done|]. destruct (_ =b _); [done|]. by destruct (_ =b _). Qed.
#[export] Hint Resolve separator_scans : naust.

Lemma JMembers_ws o w ms : ws w -> JMembers o ms -> JMembers o (w ++ ms).
Proof.
  intros Hw H. inversion H; subst.
  - rewrite app_assoc. apply JM_one; auto. by apply ws_app.
  - rewrite app_assoc, (app_assoc w w1). apply JM_more; auto. by apply ws_app.
Qed.

Lemma JElems_ws o w es : ws w -> JElems o es -> JElems o (w ++ es).
Proof.
  intros Hw H. inversion H; subst.
  - rewrite app_assoc. apply JE_one; auto. by apply ws_app.
  - rewrite app_assoc, (app_assoc w w1). apply JE_more; auto. by apply ws_app.
Qed.

(** One member, from the name to what precedes the separator. *)
Lemma member_split value s s1 a b more r :
  skipString (skipSpace s) = Ok s1 -> colon_value value s1 = Ok (a, b) ->
  separator "}"%byte b = Ok (more, r) ->
  exists w1 c w2 w3 w4,
    ws w1 /\ string_chars c /\ ws w2 /\ ws w3 /\ ws w4 /\ value a = Ok b /\
    s = w1 ++ quoted c ++ w2 ++ ":"%byte :: w3 ++ a /\ skipSpace s = quoted c ++ s1 /\
    b = w4 ++ (if more : bool then ","%byte else "}"%byte) :: r.
Proof.
  intros (c & Hc & Hs)%skipString_spec (Hv & w2 & w3 & H2 & H3 & ->)%colon_value_sound
    (w4 & H4 & ->)%separator_sound.
  destruct (skipSpace_spec s) as (w1 & E & H1 & _).
  exists w1, c, w2, w3, w4. repeat (split; [done|]). split; [|done]. rewrite E, Hs. done.
Qed.

Definition value_sound fuel := forall open s rest,
  skipValue fuel open s = Ok rest -> exists v, s = v ++ rest /\ JValue open v.
Definition members_sound fuel := forall open s rest,
  skipMembers fuel open s = Ok rest -> exists ms, s = ms ++ "}"%byte :: rest /\ JMembers (open + 1) ms.
Definition elems_sound fuel := forall open s rest,
  skipElems fuel open s = Ok rest -> exists es, s = es ++ "]"%byte :: rest /\ JElems (open + 1) es.

Lemma members_sound_S fuel : value_sound fuel -> members_sound fuel -> members_sound (S fuel).
Proof.
  intros IHv IHm open s rest. cbn [skipMembers].
  intros (s1 & H1 & ([a b] & H2 & ([more r] & H3 & H4)%result_bind_Ok)%result_bind_Ok)%result_bind_Ok.
  destruct (member_split _ _ _ _ _ _ _ H1 H2 H3)
    as (w1 & c & w2 & w3 & w4 & Hw1 & Hc & Hw2 & Hw3 & Hw4 & Hv & -> & _ & ->).
  apply IHv in Hv as (v & -> & Hv). cbn [fst snd] in H4.
  pose (m := w1 ++ quoted c ++ w2 ++ ":"%byte :: w3 ++ v ++ w4).
  destruct more.
  - apply IHm in H4 as (ms & -> & Hms). exists (m ++ ","%byte :: ms). split.
    + unfold m. rewrite <- !app_assoc. cbn. by rewrite <- !app_assoc.
    + by apply JM_more.
  - injection H4 as ->. exists m. split.
    + unfold m. rewrite <- !app_assoc. cbn. by rewrite <- !app_assoc.
    + by apply JM_one.
Qed.

Lemma elems_sound_S fuel : value_sound fuel -> elems_sound fuel -> elems_sound (S fuel).
Proof.
  intros IHv IHe open s rest. cbn [skipElems].
  intros (b & H1 & ([more r] & H3 & H4)%result_bind_Ok)%result_bind_Ok.
  destruct (skipSpace_spec s) as (w1 & Es & Hw1 & _).
  apply IHv in H1 as (v & Ev & Hv). apply separator_sound in H3 as (w2 & Hw2 & ->).
  rewrite Ev in Es. subst s. cbn [fst snd] in H4. destruct more.
  - apply IHe in H4 as (es & -> & Hes). exists ((w1 ++ v ++ w2) ++ ","%byte :: es). split.
    + by rewrite <- !app_assoc.
    + by apply JE_more.
  - injection H4 as ->. exists (w1 ++ v ++ w2). split; [by rewrite <- !app_assoc|]. by apply JE_one.
Qed.

Lemma value_sound_S fuel : members_sound fuel -> elems_sound fuel -> value_sound (S fuel).
Proof.
  intros IHm IHe open s rest. cbn [skipValue]. destruct s as [|c r]; [done|].
  destruct (skipSpace_spec r) as (w & Er & Hw & _).
  destruct (c =b "{"%byte) eqn:E1; [apply beqb_eq in E1 as ->|].
  { destruct (MaxDepth <? open + 1) eqn:D; [done|].
    destruct (is_head "}"%byte (skipSpace r)) eqn:H.
    - apply is_head_spec in H as (r' & Hr). rewrite Hr in *. intros [= <-].
      exists ("{"%byte :: w ++ ["}"%byte]). rewrite Er. cbn. rewrite <- app_assoc.
      split; [done|]. constructor; [lia|done].
    - intros (ms & Hs & Hms)%IHm. exists ("{"%byte :: (w ++ ms) ++ ["}"%byte]). rewrite Er, Hs. cbn.
      rewrite <- !app_assoc. split; [done|]. rewrite app_assoc. apply JV_object; [lia|]. by apply JMembers_ws. }
  destruct (c =b "["%byte) eqn:E2; [apply beqb_eq in E2 as ->|].
  { destruct (MaxDepth <? open + 1) eqn:D; [done|].
    destruct (is_head "]"%byte (skipSpace r)) eqn:H.
    - apply is_head_spec in H as (r' & Hr). rewrite Hr in *. intros [= <-].
      exists ("["%byte :: w ++ ["]"%byte]). rewrite Er. cbn. rewrite <- app_assoc.
      split; [done|]. constructor; [lia|done].
    - intros (ms & Hs & Hms)%IHe. exists ("["%byte :: (w ++ ms) ++ ["]"%byte]). rewrite Er, Hs. cbn.
      rewrite <- !app_assoc. split; [done|]. rewrite app_assoc. apply JV_array; [lia|]. by apply JElems_ws. }
  destruct (c =b x22). { intros (b & Hb & ->)%skipString_spec. eauto using JV_string. }
  destruct (c =b "t"%byte). { intros ->%literal_spec. eauto using JV_true. }
  destruct (c =b "f"%byte). { intros ->%literal_spec. eauto using JV_false. }
  destruct (c =b "n"%byte). { intros ->%literal_spec. eauto using JV_null. }
  destruct ((c =b "-"%byte) || isDigit c) eqn:N; [|done].
  intros (n & -> & Hn)%skipNumber_sound; [eauto using JV_number|].
  apply orb_prop in N as [N|N]; [apply beqb_eq in N; by left | by right].
Qed.

Lemma skip_sound fuel : value_sound fuel /\ members_sound fuel /\ elems_sound fuel.
Proof.
  induction fuel as [|fuel (IHv & IHm & IHe)]; [repeat split; by intros|].
  auto using value_sound_S, members_sound_S, elems_sound_S.
Qed.

(** ** Values: every sentence is accepted *)

Lemma JValue_head o v : JValue o v ->
  exists c v', v = c :: v' /\ is_space c = false /\ c <> "]"%byte /\ c <> "}"%byte.
Proof.
  destruct 1 as [| | | |o n Hn| | | |]; try (eexists _, _; split; [reflexivity|]; done).
  apply JNumber_head in Hn as (c & n' & -> & Hc). exists c, n'. split; [done|].
  destruct Hc as [-> |Hc]; [done|]. split; [|by split; intros ->].
  unfold isDigit in Hc. unfold is_space. breflect.
  change (bz " ") with 32. change (bz x09) with 9. change (bz x0a) with 10. change (bz x0d) with 13. lia.
Qed.

Lemma delimited_ws w c r : ws w -> delimited (c :: r) -> delimited (w ++ c :: r).
Proof.
  destruct w as [|d w]; [done|]. intros Hw _. unfold ws in Hw. cbn in Hw. apply andb_prop in Hw as [Hd _].
  cbn. unfold is_space in Hd. breflect. unfold isDigit.
  change (bz " ") with 32 in Hd. change (bz x09) with 9 in Hd. change (bz x0a) with 10 in Hd. change (bz x0d) with 13 in Hd.
  split; [lia|]. repeat split; intros ->; vm_compute in Hd; done.
Qed.

Lemma skipSpace_idem s : skipSpace (skipSpace s) = skipSpace s.
Proof. apply skipSpace_id. destruct (skipSpace_spec s) as (w & _ & _ & H). exact H. Qed.
Lemma skipMembers_space fuel open s : skipMembers fuel open (skipSpace s) = skipMembers fuel open s.
Proof. destruct fuel; [done|]. cbn [skipMembers]. by rewrite skipSpace_idem. Qed.
Lemma skipElems_space fuel open s : skipElems fuel open (skipSpace s) = skipElems fuel open s.
Proof. destruct fuel; [done|]. cbn [skipElems]. by rewrite skipSpace_idem. Qed.

Lemma colon_value_complete value w2 w3 o v rest :
  ws w2 -> ws w3 -> JValue o v -> value (v ++ rest) = Ok rest ->
  colon_value value (w2 ++ ":"%byte :: w3 ++ v ++ rest) = Ok (v ++ rest, rest).
Proof.
  intros Hw2 Hw3 Hv E. unfold colon_value. rewrite skipSpace_ws_id by done. cbn.
  destruct (JValue_head o v Hv) as (c & v' & -> & Hc & _). rewrite skipSpace_ws_id by done. cbn in *.
  by rewrite E.
Qed.

Lemma separator_more close w r : ws w -> separator close (w ++ ","%byte :: r) = Ok (true, r).
Proof. intros. unfold separator. by rewrite skipSpace_ws_id. Qed.
Lemma separator_close close w r :
  close <> ","%byte -> is_space close = false -> ws w -> separator close (w ++ close :: r) = Ok (false, r).
Proof.
  intros Hc%beqb_neq Hs Hw. unfold separator. rewrite skipSpace_ws_id by done. by rewrite Hc, beqb_refl.
Qed.

Lemma skipString_complete w b rest :
  ws w -> string_chars b -> skipString (skipSpace (w ++ quoted b ++ rest)) = Ok rest.
Proof.
  intros Hw Hb. rewrite skipSpace_ws_id by done. apply skipString_spec. eauto.
Qed.

Definition value_complete (o : Z) (v : bytes) := forall fuel rest,
  (2 * length v + 1 <= fuel)%nat -> delimited rest -> skipValue fuel o (v ++ rest) = Ok rest.
Definition members_complete (o : Z) (ms : bytes) := forall fuel rest,
  (2 * length ms + 2 <= fuel)%nat -> skipMembers fuel (o - 1) (ms ++ "}"%byte :: rest) = Ok rest.
Definition elems_complete (o : Z) (es : bytes) := forall fuel rest,
  (2 * length es + 2 <= fuel)%nat -> skipElems fuel (o - 1) (es ++ "]"%byte :: rest) = Ok rest.

Ltac len := rewrite ?length_app in *; cbn [length] in *; rewrite ?length_app in *; cbn [length] in *; lia.

Lemma number_complete o n : JNumber n -> value_complete o n.
Proof.
  intros Hn [|fuel] rest Hf Hr; [lia|]. pose proof (skipNumber_complete n rest Hn Hr) as E.
  apply JNumber_head in Hn as (c & n' & -> & Hc). cbn [skipValue app].
  assert ((c =b "-"%byte) || isDigit c = true) as ->.
  { destruct Hc as [-> | ->]; [done|]. by rewrite orb_true_r. }
  assert (forall d, isDigit d = false -> d <> "-"%byte -> (c =b d) = false) as Hne.
  { intros d Hd Hm. apply beqb_neq. intros ->. destruct Hc; congruence. }
  by rewrite !Hne.
Qed.

Lemma members_step fuel o w1 b w2 w3 v w4 t :
  ws w1 -> string_chars b -> ws w2 -> ws w3 -> JValue o v -> ws w4 -> value_complete o v ->
  (2 * length v + 1 <= fuel)%nat -> delimited (w4 ++ t) ->
  skipMembers (S fuel) (o - 1) ((w1 ++ quoted b ++ w2 ++ ":"%byte :: w3 ++ v ++ w4) ++ t) =
  (sep ← separator "}"%byte (w4 ++ t); if sep.1 : bool then skipMembers fuel (o - 1) sep.2 else Ok sep.2).
Proof.
  intros Hw1 Hb Hw2 Hw3 Hv Hw4 IH Hf Hd. cbn [skipMembers].
  replace ((w1 ++ quoted b ++ w2 ++ ":"%byte :: w3 ++ v ++ w4) ++ t)
    with (w1 ++ quoted b ++ (w2 ++ ":"%byte :: w3 ++ v ++ (w4 ++ t)))
    by (rewrite <- !app_assoc; cbn; by rewrite <- !app_assoc).
  rewrite skipString_complete by done. cbn [mbind result_bind].
  replace (o - 1 + 1) with o by lia. by rewrite (colon_value_complete _ _ _ o v) by auto.
Qed.

Lemma elems_step fuel o w1 v w2 t :
  ws w1 -> JValue o v -> ws w2 -> value_complete o v ->
  (2 * length v + 1 <= fuel)%nat -> delimited (w2 ++ t) ->
  skipElems (S fuel) (o - 1) ((w1 ++ v ++ w2) ++ t) =
  (sep ← separator "]"%byte (w2 ++ t); if sep.1 : bool then skipElems fuel (o - 1) sep.2 else Ok sep.2).
Proof.
  intros Hw1 Hv Hw2 IH Hf Hd. cbn [skipElems].
  destruct (JValue_head o v Hv) as (c & v' & -> & Hc & _).
  rewrite <- !app_assoc, skipSpace_ws_id by done. replace (o - 1 + 1) with o by lia.
  rewrite IH by (done || lia). done.
Qed.

Lemma container_complete (o : Z) (opn cls : byte) items (skip : nat -> Z -> bytes -> result bytes) :
  o + 1 <= MaxDepth ->
  (opn = "{"%byte /\ cls = "}"%byte /\ skip = skipMembers \/ opn = "["%byte /\ cls = "]"%byte /\ skip = skipElems) ->
  (exists w c r, items = w ++ c :: r /\ ws w /\ is_space c = false /\ c <> cls) ->
  (forall fuel open s, skip fuel open (skipSpace s) = skip fuel open s) ->
  (forall fuel rest, (2 * length items + 2 <= fuel)%nat -> skip fuel (o + 1 - 1) (items ++ cls :: rest) = Ok rest) ->
  value_complete o (opn :: items ++ [cls]).
Proof.
  intros Ho Hcase (w & c & r & Hitems & Hw & Hc & Hne) Hsp IH [|fuel] rest Hf _; [lia|].
  cbn [app skipValue]. rewrite <- app_assoc. cbn [app].
  assert (Hs : skipSpace (items ++ cls :: rest) = c :: r ++ cls :: rest).
  { rewrite Hitems, <- app_assoc. by rewrite skipSpace_ws_id. }
  assert (Hh : is_head cls (skipSpace (items ++ cls :: rest)) = false).
  { rewrite Hs. cbn. by apply beqb_neq. }
  assert (Hr : skip fuel o (skipSpace (items ++ cls :: rest)) = Ok rest).
  { rewrite Hsp. replace o with (o + 1 - 1) by lia. apply IH. len. }
  assert ((MaxDepth <? o + 1) = false) as Hd by lia.
  destruct Hcase as [(-> & -> & ->)|(-> & -> & ->)]; cbn [Byte.eqb]; rewrite ?beqb_refl.
  - change ("{"%byte =b "{"%byte) with true. cbn. by rewrite Hd, Hh.
  - change ("["%byte =b "{"%byte) with false. change ("["%byte =b "["%byte) with true. by rewrite Hd, Hh.
Qed.

Lemma JMembers_head o ms : JMembers o ms ->
  exists w c r, ms = w ++ c :: r /\ ws w /\ is_space c = false /\ c <> "}"%byte.
Proof.
  destruct 1; [exists w1, x22|exists w1, x22]; eexists; (split; [|done]); unfold quoted; cbn; [done|].
  rewrite <- app_assoc. done.
Qed.

Lemma JElems_head o es : JElems o es ->
  exists w c r, es = w ++ c :: r /\ ws w /\ is_space c = false /\ c <> "]"%byte.
Proof.
  destruct 1 as [o w1 v w2 Hw1 Hv Hw2|o w1 v w2 es Hw1 Hv Hw2 He];
    apply JValue_head in Hv as (c & v' & -> & Hc & Hn & _); exists w1, c; eexists; (split; [|done]); cbn; [done|].
  by rewrite <- app_assoc.
Qed.

Lemma empty_complete (o : Z) (opn cls : byte) w :
  o + 1 <= MaxDepth -> ws w ->
  (opn = "{"%byte /\ cls = "}"%byte \/ opn = "["%byte /\ cls = "]"%byte) ->
  value_complete o (opn :: w ++ [cls]).
Proof.
  intros Ho Hw Hcase [|fuel] rest Hf _; [lia|]. cbn [app skipValue]. rewrite <- app_assoc. cbn [app].
  assert ((MaxDepth <? o + 1) = false) as Hd by lia.
  destruct Hcase as [(-> & ->)|(-> & ->)]; rewrite (skipSpace_ws_id w) by done.
  - change ("{"%byte =b "{"%byte) with true. cbn [drop is_head]. by rewrite Hd, beqb_refl.
  - change ("["%byte =b "{"%byte) with false. change ("["%byte =b "["%byte) with true.
    cbn [drop is_head]. by rewrite Hd, beqb_refl.
Qed.

Lemma skip_complete :
  (forall o v, JValue o v -> value_complete o v) /\
  (forall o ms, JMembers o ms -> members_complete o ms) /\
  (forall o es, JElems o es -> elems_complete o es).
Proof.
  apply json_mut.
  1-3: intros o [|fuel] rest Hf _; [lia|done].
  - intros o b Hb [|fuel] rest Hf _; [lia|]. cbn [skipValue quoted app].
    change (x22 =b "{"%byte) with false. change (x22 =b "["%byte) with false. rewrite beqb_refl.
    apply skipString_spec. by exists b.
  - intros. by apply number_complete.
  - intros. apply empty_complete; auto.
  - intros o ms Ho Hm IH. eapply (container_complete _ _ _ _ skipMembers); eauto using JMembers_head, skipMembers_space.
  - intros. apply empty_complete; auto.
  - intros o es Ho He IH. eapply (container_complete _ _ _ _ skipElems); eauto using JElems_head, skipElems_space.
  - intros o w1 b w2 w3 v w4 Hw1 Hb Hw2 Hw3 Hv IH Hw4 [|fuel] rest Hf; [lia|].
    rewrite members_step by (done || (apply delimited_ws; done) || len).
    rewrite separator_close by done. done.
  - intros o w1 b w2 w3 v w4 ms Hw1 Hb Hw2 Hw3 Hv IH Hw4 Hm IHm [|fuel] rest Hf; [lia|].
    rewrite <- app_assoc, members_step by (done || (apply delimited_ws; done) || len).
    cbn [app]. rewrite separator_more by done. cbn. apply IHm. len.
  - intros o w1 v w2 Hw1 Hv IH Hw2 [|fuel] rest Hf; [lia|].
    rewrite elems_step by (done || (apply delimited_ws; done) || len).
    rewrite separator_close by done. done.
  - intros o w1 v w2 es Hw1 Hv IH Hw2 He IHe [|fuel] rest Hf; [lia|].
    rewrite <- app_assoc, elems_step by (done || (apply delimited_ws; done) || len).
    cbn [app]. rewrite separator_more by done. cbn. apply IHe. len.
Qed.

(** ** Every scan returns *)

Lemma sound_length fuel open s rest :
  skipValue fuel open s = Ok rest -> (length rest < length s)%nat.
Proof.
  intros H. apply skip_sound in H as (v & -> & Hv).
  apply JValue_head in Hv as (c & v' & -> & _). len.
Qed.

Lemma colon_value_scans value s :
  (forall s', (length s' < length s)%nat -> scans (value s')) -> scans (colon_value value s).
Proof.
  intros Hv. unfold colon_value. pose proof (skipSpace_length s) as Hl.
  destruct (skipSpace s) as [|c s1]; [done|]. destruct (c =b ":"%byte); [|done].
  apply scans_bind; [|done]. apply Hv. pose proof (skipSpace_length s1). cbn in Hl. lia.
Qed.

Lemma skip_total fuel :
  (forall open s, (2 * length s + 1 <= fuel)%nat -> scans (skipValue fuel open s)) /\
  (forall open s, (2 * length s + 2 <= fuel)%nat -> scans (skipMembers fuel open s)) /\
  (forall open s, (2 * length s + 2 <= fuel)%nat -> scans (skipElems fuel open s)).
Proof.
  induction fuel as [|fuel (IHv & IHm & IHe)]; [repeat split; intros; lia|]. split; [|split]; intros open s Hf.
  - cbn [skipValue]. destruct s as [|c r]; [done|]. cbn [length] in Hf.
    pose proof (skipSpace_length r) as Hr.
    destruct (c =b "{"%byte). { destruct (_ <? _); [done|]. destruct (is_head _ _); [done|]. apply IHm. lia. }
    destruct (c =b "["%byte). { destruct (_ <? _); [done|]. destruct (is_head _ _); [done|]. apply IHe. lia. }
    destruct (c =b x22); [auto with naust|].
    destruct (c =b "t"%byte); [auto with naust|]. destruct (c =b "f"%byte); [auto with naust|].
    destruct (c =b "n"%byte); [auto with naust|].
    destruct ((c =b "-"%byte) || isDigit c) eqn:N; [|done]. apply skipNumber_scans. cbn.
    apply orb_prop in N as [N|N]; [apply beqb_eq in N; by left | by right].
  - cbn [skipMembers]. pose proof (skipSpace_length s) as Hs. apply scans_bind; [auto with naust|].
    intros s1 H1. apply skipString_spec in H1 as (b & _ & E). apply (f_equal length) in E. unfold quoted in E.
    apply scans_bind; [apply colon_value_scans; intros s' Hs'; apply IHv; len|].
    intros [a r] H2. apply colon_value_sound in H2 as (Hv & w2 & w3 & _ & _ & ->). apply sound_length in Hv.
    apply scans_bind; [auto with naust|]. intros [more r'] H3. cbn in H3. apply separator_sound in H3 as (w & _ & ->).
    cbn in *. destruct more; [|done]. apply IHm. len.
  - cbn [skipElems]. pose proof (skipSpace_length s) as Hs. apply scans_bind; [apply IHv; lia|].
    intros r Hr%sound_length. apply scans_bind; [auto with naust|]. intros [more r'] H3.
    apply separator_sound in H3 as (w & _ & ->). cbn in *. destruct more; [|done]. apply IHe. len.
Qed.

Lemma skip_value_scans open s : scans (skip_value open s).
Proof. apply skip_total. unfold fuel_for. lia. Qed.

Lemma skip_value_sound open s rest : skip_value open s = Ok rest -> exists v, s = v ++ rest /\ JValue open v.
Proof. apply skip_sound. Qed.

Lemma skip_value_complete open v rest : JValue open v -> delimited rest -> skip_value open (v ++ rest) = Ok rest.
Proof. intros Hv Hr. apply skip_complete; [done| |done]. unfold fuel_for. len. Qed.
#[export] Hint Resolve skip_value_scans : naust.

(** C27: the scanner is a total recogniser of JSON values.  On every input, and
    for every count of enclosing containers, [skipValue] returns (an error or
    a suffix, never a panic and never a loop); what it consumes is a value of
    the RFC 8259 grammar nested no deeper than [MaxDepth]; and every such
    value is consumed exactly, up to the next byte, whenever that byte cannot
    extend a number. *)
Theorem skipValue_recognises (open : Z) (s : bytes) :
  scans (skip_value open s) /\
  (forall rest, skip_value open s = Ok rest -> exists v, s = v ++ rest /\ JValue open v) /\
  (forall v rest, JValue open v -> delimited rest -> s = v ++ rest -> skip_value open s = Ok rest).
Proof.
  split; [apply skip_value_scans|]. split; [intros rest; apply skip_value_sound|].
  intros v rest Hv Hr ->. by apply skip_value_complete.
Qed.

Lemma skipValue_recognises_witness : skip_value 1 (bs "[1, {} ],x") = Ok (bs ",x").
Proof.
  apply (proj2 (proj2 (skipValue_recognises 1 (bs "[1, {} ],x"))) (bs "[1, {} ]")); [|done|done].
  apply (JV_array 1 (bs "1, {} ")); [done|]. apply (JE_more 2 [] (bs "1") [] (bs " {} ")); try done.
  - apply JV_number. exists [], (bs "1"), [], []. split; [done|]. split; [by left|]. split; [|split; by left].
    right. exists "1"%byte, []. done.
  - apply (JE_one 2 (bs " ") (bs "{}") (bs " ")); try done. by apply (JV_empty_object 2 []).
Defined.
End Jsongrammar.
