(* ===== verification/Jsonobject.v ===== *)
(** * Jsonobject: the decoders and the encoder of jsonscan

    The member loops of [DecodeObject], [DecodeObjectSubset], [EachKey] and
    [HasKey] are four copies of one loop in the source.  Here each is shown to
    be a fold over one reference loop, [scan_members], from which their
    agreement follows; then the round trip through [EncodeObject], and the
    exactness of [Int]. *)

From S2P Require Import Prelude GoLib Jsonscan Jsonwords Jsongrammar.

Module Jsonobject.
Import Jsonscan Jsonwords Jsongrammar.

(** ** Decoding string bodies *)

Lemma high_passes b : RuneSelf <= bz b -> passes b = true.
Proof.
  unfold RuneSelf. intros Hb. unfold passes. breflect.
  change (bz x22) with 34. change (bz "\"%byte) with 92.
  rewrite negb_true_iff, !orb_false_iff. repeat split; lia.
Qed.

Lemma Forall_passes p : Forall (fun b => RuneSelf <= bz b) p -> forallb passes p = true.
Proof. induction 1; [done|]. cbn. rewrite high_passes by done. done. Qed.

Lemma string_chars_drop_rune c s r n :
  string_chars (c :: s) -> RuneSelf <= bz c -> DecodeRune (c :: s) = (r, n) ->
  string_chars (drop n (c :: s)) /\ (length (drop n (c :: s)) < length (c :: s))%nat.
Proof.
  intros Hs Hc [[? _]|(_ & Hn & Hp)]%DecodeRune_width; [lia|]. split.
  - rewrite <- (take_drop n (c :: s)) in Hs. by apply string_chars_drop in Hs; [|apply Forall_passes].
  - rewrite length_drop. lia.
Qed.

Lemma surrogate_tail_chars r s dec s' :
  surrogate_tail r s = Some (dec, s') -> string_chars s ->
  string_chars s' /\ (length s' < length s)%nat.
Proof.
  unfold surrogate_tail. destruct s as [|b [|u [|h1 [|h2 [|h3 [|h4 s]]]]]]; try done.
  destruct (_ && _) eqn:E; [|done]. apply andb_prop in E as [->%beqb_eq ->%beqb_eq].
  destruct (is_surrogate _); [|done]. destruct (negb _); [|done]. intros [= _ <-] Hs.
  split; [|cbn; lia]. inversion Hs; subst; [by vm_compute in H1|by vm_compute in H1|done].
Qed.

(** The decoder is total on what the scanner validated. *)
Lemma unquote_loop_total fuel out s :
  string_chars s -> (length s < fuel)%nat -> exists v, unquote_loop fuel out s = Ok v.
Proof.
  revert out s. induction fuel as [|fuel IH]; intros out s Hs Hf; [lia|]. cbn [unquote_loop].
  inversion Hs as [|c b Hc Hb|c b Hc Hb|h1 h2 h3 h4 b Hc Hb]; subst; cbn [length] in Hf.
  - eauto.
  - pose proof (passes_backslash c Hc) as (H1%beqb_neq & _). rewrite H1.
    destruct (bz c <? RuneSelf) eqn:E; [apply IH; [done|lia]|].
    destruct (DecodeRune (c :: b)) as [r n] eqn:D. destruct (_ && _); [apply IH; [done|lia]|].
    pose proof (string_chars_drop_rune c b r n Hs ltac:(lia) D) as [Hd Hl]. apply IH; [done|]. cbn in Hl |- *. lia.
  - rewrite beqb_refl. unfold simple_escape in Hc.
    repeat (destruct (c =b _); [apply IH; [done|lia]|]). done.
  - rewrite beqb_refl. change ("u"%byte =b x22) with false. cbn -[hex4 unquote_loop].
    destruct (is_surrogate _); [|apply IH; [done|cbn in Hf; lia]].
    destruct (surrogate_tail _ b) as [[dec s']|] eqn:E; [|apply IH; [done|lia]].
    apply surrogate_tail_chars in E as [? ?]; [|done]. apply IH; [done|lia].
Qed.

Lemma unquote_total b : string_chars b -> exists v, unquote b = Ok v.
Proof. intros. apply unquote_loop_total; [done|lia]. Qed.

(** A name or string as every reader of the package sees it. *)
Definition name_of (b : bytes) : bytes := if plain b then b else ok_or [] (unquote b).

Lemma unquote_name b : string_chars b -> plain b = false -> unquote b = Ok (name_of b).
Proof. intros [v Hv]%unquote_total Hp. unfold name_of. by rewrite Hp, Hv. Qed.

Lemma parseString_spec b rest :
  string_chars b -> parseString (quoted b ++ rest) = Ok (name_of b, rest).
Proof.
  intros Hb. unfold parseString. rewrite (proj2 (skipString_spec _ rest)) by eauto.
  cbn [mbind result_bind]. rewrite body_quoted, cleanASCII_plain. destruct (plain b) eqn:E.
  - unfold name_of. by rewrite E.
  - by rewrite unquote_name.
Qed.

Lemma parseName_spec names b rest :
  string_chars b -> parseName names (quoted b ++ rest) = Ok (intern names (name_of b), rest).
Proof.
  intros Hb. unfold parseName. rewrite (proj2 (skipString_spec _ rest)) by eauto.
  cbn [mbind result_bind]. rewrite body_quoted. destruct (plain b) eqn:E.
  - unfold name_of. by rewrite E.
  - by rewrite unquote_name.
Qed.

(** ** The reference member loop *)

Definition Member : Type := bytes * bytes.

(** The raw name and the value span of every member, in document order. *)
Fixpoint scan_members (fuel : nat) (s : bytes) : result (list Member) :=
  match fuel with
  | O => Err OutOfFuel
  | S fuel' =>
      let s1 := skipSpace s in
      rest ← skipString s1;
      v ← colon_value (skip_value 1) rest;
      sep ← separator "}"%byte v.2;
      let m := (body s1 rest, span v.1 v.2) in
      if sep.1 : bool then ms ← scan_members fuel' sep.2; Ok (m :: ms)
      else _ ← end_ sep.2; Ok [m]
  end.

Definition add_member (names : gmap bytes bytes) (obj : gmap bytes bytes) (m : Member) : gmap bytes bytes :=
  <[intern names (name_of m.1) := m.2]> obj.
Definition add_wanted (names : gmap bytes bytes) (wanted : gmap bytes bool) (obj : gmap bytes bytes) (m : Member)
  : gmap bytes bytes :=
  if is_wanted wanted (name_of m.1) then add_member names obj m else obj.

Lemma decode_members_fold fuel names obj s :
  decode_members fuel names obj s =
  (ms ← scan_members fuel s; Ok (foldl (add_member names) obj ms)).
Proof.
  revert obj s. induction fuel as [|fuel IH]; intros obj s; [done|]. cbn [decode_members scan_members].
  destruct (skipString (skipSpace s)) as [rest|] eqn:E; cycle 1.
  { unfold parseName. by rewrite E. }
  apply skipString_spec in E as (b & Hb & ->). rewrite parseName_spec by done. cbn [mbind result_bind fst snd].
  destruct (colon_value _ rest) as [v|]; [|done]. cbn [mbind result_bind fst snd].
  destruct (separator _ v.2) as [[[] r]|]; [| |done]; cbn [mbind result_bind fst snd].
  - rewrite IH, body_quoted. by destruct (scan_members fuel r).
  - rewrite body_quoted. by destruct (end_ r).
Qed.

Lemma subset_members_fold fuel names wanted obj s :
  subset_members fuel names wanted obj s =
  (ms ← scan_members fuel s; Ok (foldl (add_wanted names wanted) obj ms)).
Proof.
  revert obj s. induction fuel as [|fuel IH]; intros obj s; [done|]. cbn [subset_members scan_members].
  destruct (skipString (skipSpace s)) as [rest|] eqn:E; [|done].
  apply skipString_spec in E as (b & Hb & ->). cbn [mbind result_bind fst snd]. rewrite body_quoted.
  assert (wanted_name names wanted b =
          Ok (if is_wanted wanted (name_of b) then Some (intern names (name_of b)) else None)) as ->.
  { unfold wanted_name. rewrite cleanASCII_plain. destruct (plain b) eqn:P.
    - unfold name_of. by rewrite P.
    - by rewrite unquote_name. }
  cbn [mbind result_bind fst snd].
  destruct (colon_value _ rest) as [v|]; [|done]. cbn [mbind result_bind fst snd].
  destruct (separator _ v.2) as [[[] r]|]; [| |done]; cbn [mbind result_bind fst snd].
  - rewrite IH. destruct (scan_members fuel r); [|done]. cbn. do 2 f_equal. unfold add_wanted. cbn.
    by destruct (is_wanted _ _).
  - destruct (end_ r); [|done]. cbn. unfold add_wanted. cbn. by destruct (is_wanted _ _).
Qed.

Lemma each_key_fold fuel out s :
  each_key fuel out s = (ms ← scan_members fuel s; Ok (out ++ map (fun m => name_of m.1) ms)).
Proof.
  revert out s. induction fuel as [|fuel IH]; intros out s; [done|]. cbn [each_key scan_members].
  destruct (skipString (skipSpace s)) as [rest|] eqn:E; cycle 1.
  { unfold parseString. by rewrite E. }
  apply skipString_spec in E as (b & Hb & ->). rewrite parseString_spec by done. cbn [mbind result_bind fst snd].
  destruct (colon_value _ rest) as [v|]; [|done]. cbn [mbind result_bind fst snd].
  destruct (separator _ v.2) as [[[] r]|]; [| |done]; cbn [mbind result_bind fst snd].
  - rewrite IH, body_quoted. destruct (scan_members fuel r); [|done]. cbn. by rewrite <- app_assoc.
  - rewrite body_quoted. by destruct (end_ r).
Qed.

Lemma has_key_fold fuel key found s :
  has_key fuel key found s =
  (ms ← scan_members fuel s; Ok (found || bool_decide (key ∈ map (fun m => name_of m.1) ms))).
Proof.
  revert found s. induction fuel as [|fuel IH]; intros found s; [done|]. cbn [has_key scan_members].
  destruct (skipString (skipSpace s)) as [rest|] eqn:E; [|done].
  apply skipString_spec in E as (b & Hb & ->). cbn [mbind result_bind fst snd]. rewrite body_quoted.
  assert ((if found then Ok true else if plain b then Ok (bool_decide (b = key))
           else v ← unquote b; Ok (bool_decide (v = key))) =
          Ok (found || bool_decide (key = name_of b))) as ->.
  { destruct found; [done|]. destruct (plain b) eqn:P.
    - unfold name_of. rewrite P. cbn. f_equal. by apply bool_decide_ext.
    - rewrite unquote_name by done. cbn. f_equal. by apply bool_decide_ext. }
  cbn [mbind result_bind fst snd].
  destruct (colon_value _ rest) as [v|]; [|done]. cbn [mbind result_bind fst snd].
  destruct (separator _ v.2) as [[[] r]|]; [| |done]; cbn [mbind result_bind fst snd].
  - rewrite IH. destruct (scan_members fuel r) as [ms|]; [|done]. cbn. f_equal.
    rewrite <- orb_assoc. f_equal. rewrite <- bool_decide_or. apply bool_decide_ext. by rewrite elem_of_cons.
  - destruct (end_ r); [|done]. cbn. do 2 f_equal. apply bool_decide_ext. by rewrite list_elem_of_singleton.
Qed.

(** An interning dictionary maps a name to an equal string. *)
Definition interning (names : gmap bytes bytes) : Prop := forall k v, names !! k = Some v -> v = k.

Lemma intern_id names k : interning names -> intern names k = k.
Proof. intros H. unfold intern. destruct (names !! k) eqn:E; [by apply H|done]. Qed.

Definition select_wanted (wanted : gmap bytes bool) (obj : gmap bytes bytes) : gmap bytes bytes :=
  filter (fun kv : bytes * bytes => is_wanted wanted kv.1 = true) obj.

Lemma select_wanted_empty wanted : select_wanted wanted ∅ = ∅.
Proof. apply map_filter_empty. Qed.

Lemma add_wanted_filter names wanted ms obj :
  interning names ->
  foldl (add_wanted names wanted) (select_wanted wanted obj) ms =
  select_wanted wanted (foldl (add_member names) obj ms).
Proof.
  intros Hn. revert obj. induction ms as [|m ms IH]; intros obj; [done|]. cbn. rewrite <- IH. f_equal.
  unfold add_wanted, add_member, select_wanted. rewrite intern_id by done. destruct (is_wanted _ _) eqn:E.
  - by rewrite map_filter_insert_True.
  - by rewrite map_filter_insert_not by (intros ?; cbn; congruence).
Qed.

(** [DecodeObjectSubset] is [DecodeObject] followed by a selection of the
    wanted member names, with the same errors. *)
Lemma DecodeObjectSubset_select raw names wanted :
  interning names -> DecodeObjectSubset raw names wanted = (o ← DecodeObject raw names; Ok (option_map (select_wanted wanted) o)).
Proof.
  intros Hn. unfold DecodeObjectSubset, DecodeObject. destruct (open_container _ _ raw) as [[| |s]|]; try done; cbn [mbind result_bind].
  rewrite subset_members_fold, decode_members_fold.
  destruct (scan_members (S (length s)) s) as [ms|]; [|done]. cbn [mbind result_bind option_map]. do 2 f_equal.
  by rewrite <- add_wanted_filter, select_wanted_empty.
Qed.

(** [HasKey] answers membership in the names [EachKey] reports, on every
    input and for every key, and fails exactly where [EachKey] fails. *)
Theorem HasKey_EachKey (raw key : bytes) :
  HasKey raw key = (ks ← EachKey raw; Ok (bool_decide (key ∈ ks))).
Proof.
  unfold HasKey, EachKey. destruct (open_container _ _ raw) as [[| |s]|]; try done; cbn [mbind result_bind].
  rewrite has_key_fold, each_key_fold. by destruct (scan_members _ s).
Qed.

(** ** Encoding names *)

(** The body [appendString] writes between the quotes. *)
Definition escaped (s : bytes) : bytes := concat (map (fun p : Z * bytes => append_rune p.1) (range_string s)).

Lemma appendString_escaped out s : appendString out s = out ++ quoted (escaped s).
Proof. done. Qed.

Lemma hexDigit_hex n : 0 <= n < 16 -> isHex (hexDigit n) = true.
Proof.
  intros Hn. assert (Hs : forall k, (k < 16)%nat -> isHex (hexDigit (Z.of_nat k)) = true).
  { intros k Hk. do 16 (destruct k as [|k]; [done|]). lia. }
  specialize (Hs (Z.to_nat n) ltac:(lia)). by rewrite Z2Nat.id in Hs by lia.
Qed.

Lemma append_rune_chars r b : 0 <= r -> string_chars b -> string_chars (append_rune r ++ b).
Proof.
  intros Hr Hb. unfold append_rune.
  repeat match goal with |- context [r =? ?k] => destruct (Z.eqb_spec r k); [by constructor|] end.
  destruct (r <? 0x20) eqn:E.
  - apply sc_u; [|done]. rewrite !hexDigit_hex; [done| |].
    + rewrite Z.land_ones with (n := 4) by lia. apply Z.mod_pos_bound. lia.
    + rewrite Z.shiftr_div_pow2 by lia. Z.to_euclidean_division_equations. lia.
  - apply string_chars_passes; [|done]. destruct (Z_lt_le_dec r 0x80).
    + unfold EncodeRune, is_surrogate. destruct (_ || _ || _) eqn:F; [lia|].
      destruct (_ <=? 0x7F) eqn:G; [|lia]. cbn [forallb]. unfold passes. breflect.
      rewrite !bz_zb_small by lia. change (bz x22) with 34. change (bz "\"%byte) with 92.
      rewrite andb_true_r, negb_true_iff, !orb_false_iff. repeat split; lia.
    + by apply Forall_passes, EncodeRune_high.
Qed.

Lemma escaped_chars s : string_chars (escaped s).
Proof.
  unfold escaped, range_string. generalize (length s) as n. intros n. revert s.
  induction n as [|n IH]; intros [|c s]; try constructor. cbn [runes].
  destruct (DecodeRune (c :: s)) as [r k] eqn:E. cbn [map concat fst].
  apply append_rune_chars; [by eapply DecodeRune_nonneg|]. apply IH.
Qed.

(** Decoding an escaped ASCII byte. *)
Lemma unquote_ascii fuel out c rest :
  bz c < RuneSelf ->
  unquote_loop (S fuel) out (append_rune (bz c) ++ rest) = unquote_loop fuel (out ++ [c]) rest.
Proof. intros H. destruct c; try (vm_compute in H; done); reflexivity. Qed.

Lemma append_rune_high r : 0x80 <= r -> append_rune r = EncodeRune r.
Proof.
  intros. unfold append_rune.
  repeat match goal with |- context [r =? ?k] => destruct (Z.eqb_spec r k); [lia|] end.
  destruct (r <? 0x20) eqn:?; [lia|done].
 Qed.

Lemma EncodeRune_ascii r : 0 <= r < 0x80 -> EncodeRune r = [zb r].
Proof.
  intros. unfold EncodeRune, is_surrogate. destruct (_ || _ || _) eqn:F; [lia|].
  by destruct (_ <=? 0x7F) eqn:G; [|lia].
Qed.

(** Decoding an escaped multi-byte rune. *)
Lemma unquote_rune fuel out c s r n rest :
  DecodeRune (c :: s) = (r, n) -> RuneSelf <= bz c -> ~ (r = RuneError /\ n = 1%nat) ->
  append_rune r = take n (c :: s) /\
  unquote_loop (S fuel) out (append_rune r ++ rest) = unquote_loop fuel (out ++ take n (c :: s)) rest.
Proof.
  intros D Hc Hv. pose proof (DecodeRune_width c s r n D) as [[? _]|(_ & Hn & Hp)]; [lia|].
  pose proof (EncodeRune_DecodeRune _ _ _ D ltac:(done)) as [|He]; [done|].
  pose proof (DecodeRune_nonneg _ _ _ D) as Hr. pose proof (DecodeRune_take _ _ _ rest D ltac:(done) Hv) as Dt.
  assert (0x80 <= r).
  { destruct (Z_lt_le_dec r 0x80); [|done]. rewrite EncodeRune_ascii in He by lia.
    destruct n as [|n]; [lia|]. cbn in He. injection He as He _. rewrite <- He in Hc.
    rewrite bz_zb_small in Hc by lia. unfold RuneSelf in Hc. lia. }
  rewrite append_rune_high, He by done. split; [done|].
  destruct n as [|n]; [lia|]. cbn [take app unquote_loop].
  assert ((c =b "\"%byte) = false) as ->.
  { apply beqb_neq. intros ->. vm_compute in Hc. done. }
  destruct (bz c <? RuneSelf) eqn:E; [lia|]. cbn [take app] in Dt. rewrite Dt.
  destruct ((r =? RuneError) && _) eqn:F.
  { exfalso. apply Hv. apply andb_prop in F as [F%Z.eqb_eq G%Nat.eqb_eq]. done. }
  cbn [length] in Hn.
  assert (Hl : length (c :: take n s) = S n) by (cbn; rewrite length_take; lia).
  change (c :: take n s ++ rest) with ((c :: take n s) ++ rest). rewrite <- Hl at 1 2.
  by rewrite take_app_length, drop_app_length.
Qed.

Definition escaped_runes (n : nat) (s : bytes) : bytes :=
  concat (map (fun p : Z * bytes => append_rune p.1) (runes n s)).

Lemma append_rune_nonempty r : (1 <= length (append_rune r))%nat.
Proof.
  unfold append_rune, EncodeRune. repeat (destruct (r =? _); [cbn; lia|]). destruct (r <? _); [cbn; lia|].
  repeat (destruct (_ : bool); [cbn; lia|]). repeat case_match; cbn; lia.
Qed.

Lemma unquote_escaped_runes n s fuel out :
  forallb (fun p : Z * bytes => negb ((p.1 =? RuneError) && (length p.2 =? 1)%nat)) (runes n s) = true ->
  (length s <= n)%nat -> (length (escaped_runes n s) < fuel)%nat ->
  unquote_loop fuel out (escaped_runes n s) = Ok (out ++ s).
Proof.
  revert s fuel out. induction n as [|n IH]; intros [|c s] [|fuel] out Hv Hn Hf; cbn [length] in Hn; try lia.
  1,2: cbn; by rewrite app_nil_r.
  unfold escaped_runes in *. cbn [runes] in *. destruct (DecodeRune (c :: s)) as [r k] eqn:D.
  cbn [map concat forallb fst snd] in *. apply andb_prop in Hv as [Hh Hv]. rewrite length_app in Hf.
  pose proof (append_rune_nonempty r).
  assert (Hk : (length (drop k (c :: s)) <= n)%nat /\ (bz c < RuneSelf /\ r = bz c /\ k = 1%nat \/
            RuneSelf <= bz c /\ ~ (r = RuneError /\ k = 1%nat))).
  { apply DecodeRune_width in D as [(? & -> & ->)|(? & Hk & _)].
    - cbn. rewrite drop_0. split; [lia|auto].
    - rewrite length_drop. cbn [length] in *. split; [lia|]. right. split; [done|]. intros [-> ->].
      cbn in Hh. done. }
  destruct Hk as [Hl [(Hc & -> & ->)|[Hc Hne]]].
  - rewrite unquote_ascii by done. rewrite IH by (done || lia). cbn. by rewrite drop_0, <- app_assoc.
  - rewrite (proj2 (unquote_rune _ _ _ _ _ _ _ D Hc Hne)). rewrite IH by (done || lia).
    by rewrite <- app_assoc, take_drop.
Qed.

Lemma unquote_escaped s : utf8_Valid s = true -> unquote (escaped s) = Ok s.
Proof. intros Hv. unfold unquote, unquoteBytes. apply (unquote_escaped_runes (length s) s); [done|lia|]. unfold escaped_runes, escaped, range_string. lia. Qed.

Lemma unquote_plain fuel out b :
  plain b = true -> (length b < fuel)%nat -> unquote_loop fuel out b = Ok (out ++ b).
Proof.
  revert fuel out. induction b as [|c b IH]; intros [|fuel] out Hp Hf; cbn [length] in Hf; try lia; cbn [unquote_loop].
  - by rewrite app_nil_r.
  - unfold plain in Hp. cbn [forallb] in Hp. apply andb_prop in Hp as [Hc Hp].
    rewrite negb_true_iff, orb_false_iff in Hc. destruct Hc as [-> Hc].
    destruct (bz c <? RuneSelf) eqn:E; [|lia]. rewrite IH by (done || lia). by rewrite <- app_assoc.
Qed.

Lemma name_of_escaped s : utf8_Valid s = true -> name_of (escaped s) = s.
Proof.
  intros Hv%unquote_escaped. unfold name_of. destruct (plain _) eqn:P; [|by rewrite Hv].
  unfold unquote, unquoteBytes in Hv. rewrite unquote_plain in Hv by (done || lia). by injection Hv.
Qed.
(** ** Encoding records *)

(** The one value inside a stored member, without the white space around it. *)
Definition trim (v : bytes) : bytes :=
  let s := skipSpace v in
  match skip_value 1 s with Ok rest => span s rest | Err _ => [] end.

(** [v] is exactly one JSON value inside one container. *)
Definition single_value (v : bytes) : Prop :=
  exists w1 v' w2, v = w1 ++ v' ++ w2 /\ ws w1 /\ ws w2 /\ JValue 1 v'.

Lemma delimited_end w : ws w -> delimited w.
Proof.
  intros Hw. destruct w as [|c w]; [done|]. change (c :: w) with ([c] ++ w).
  pose proof (delimited_ws (c :: w) ","%byte [] Hw ltac:(done)) as H. exact H.
Qed.

Lemma single_value_skip w1 v' w2 :
  ws w1 -> ws w2 -> JValue 1 v' ->
  skipSpace (w1 ++ v' ++ w2) = v' ++ w2 /\ skip_value 1 (v' ++ w2) = Ok w2 /\ v' <> [].
Proof.
  intros H1 H2 Hv. pose proof (JValue_head 1 v' Hv) as (c & v'' & E & Hc & _). split; [|split].
  - rewrite E. by rewrite skipSpace_ws_id.
  - apply skip_value_complete; auto using delimited_end.
  - by rewrite E.
Qed.

Lemma trim_single w1 v' w2 : ws w1 -> ws w2 -> JValue 1 v' -> trim (w1 ++ v' ++ w2) = v'.
Proof.
  intros H1 H2 Hv. unfold trim. destruct (single_value_skip w1 v' w2 H1 H2 Hv) as (-> & -> & _).
  apply span_app.
Qed.

Lemma check_encoded_spec v : check_encoded v = Ok tt <-> single_value v.
Proof.
  unfold check_encoded. split.
  - destruct (skipSpace_spec v) as (w1 & E & Hw1 & _). destruct (skipSpace v) as [|c s]; [done|].
    intros (rest & (v' & Es & Hv)%skip_value_sound & Hr%end_spec)%result_bind_Ok.
    exists w1, v', rest. by rewrite E, Es.
  - intros (w1 & v' & w2 & -> & H1 & H2 & Hv).
    destruct (single_value_skip w1 v' w2 H1 H2 Hv) as (-> & Hs & Hne).
    rewrite Hs. destruct (v' ++ w2) eqn:E; [by apply app_eq_nil in E as [-> _]|]. by apply end_spec.
Qed.

Definition encoded_member (obj : gmap bytes bytes) (name : bytes) : bytes :=
  quoted (escaped name) ++ ":"%byte :: default [] (obj !! name).

Fixpoint encoded_list (obj : gmap bytes bytes) (names : list bytes) : bytes :=
  match names with
  | [] => []
  | [n] => encoded_member obj n
  | n :: ns => encoded_member obj n ++ ","%byte :: encoded_list obj ns
  end.

Lemma encoded_list_cons obj n ns :
  encoded_list obj (n :: ns) =
  quoted (escaped n) ++ [":"%byte] ++ default [] (obj !! n) ++
  match ns with [] => [] | _ => [","%byte] ++ encoded_list obj ns end.
Proof.
  destruct ns; cbn [encoded_list]; unfold encoded_member at 1; [by rewrite app_nil_r|].
  by rewrite <- app_assoc.
Qed.

Definition all_single (obj : gmap bytes bytes) (names : list bytes) : Prop :=
  Forall (fun n => single_value (default [] (obj !! n))) names.

Lemma encode_members_spec obj names first out out' :
  encode_members obj names first out = Ok out' <->
  all_single obj names /\
  out' = out ++ match names with [] => [] | _ => (if first : bool then [] else [","%byte]) ++ encoded_list obj names end.
Proof.
  revert first out. induction names as [|n ns IH]; intros first out; cbn [encode_members].
  { rewrite app_nil_r. unfold all_single. split; [intros [= <-]; by split|by intros [_ ->]]. }
  rewrite result_bind_Ok, appendString_escaped. unfold all_single. rewrite Forall_cons, <- check_encoded_spec.
  assert (Hout : ((if first then out else out ++ [","%byte]) ++ quoted (escaped n)) ++ [":"%byte] =
                 out ++ (if first then [] else [","%byte]) ++ quoted (escaped n) ++ [":"%byte]).
  { destruct first; by rewrite <- ?app_assoc. }
  rewrite Hout. split.
  - intros ([] & Hc & (Ha & ->)%IH). split; [done|]. rewrite <- !app_assoc. do 2 f_equal.
    by rewrite encoded_list_cons.
  - intros [[Hc Ha] ->]. exists tt. split; [done|]. apply IH. split; [done|]. rewrite <- !app_assoc. do 2 f_equal.
    by rewrite encoded_list_cons.
Qed.

(** One encoded member is scanned back as its name and its trimmed value. *)
Lemma scan_encoded_member fuel obj n c t :
  single_value (default [] (obj !! n)) -> (c = ","%byte \/ c = "}"%byte) ->
  scan_members (S fuel) (encoded_member obj n ++ c :: t) =
  (if c =b ","%byte then ms ← scan_members fuel t; Ok ((escaped n, trim (default [] (obj !! n))) :: ms)
   else _ ← end_ t; Ok [(escaped n, trim (default [] (obj !! n)))]).
Proof.
  unfold encoded_member. intros (w1 & v & w2 & -> & H1 & H2 & Hv) Hc. rewrite trim_single by done. cbn [scan_members].
  rewrite <- app_assoc. rewrite (skipSpace_id (quoted _ ++ _)) by done.
  rewrite (proj2 (skipString_spec _ ((":"%byte :: w1 ++ v ++ w2) ++ c :: t))) by eauto using escaped_chars.
  cbn [mbind result_bind app]. rewrite body_quoted, <- !app_assoc.
  assert (Hd : delimited (w2 ++ c :: t)) by (apply delimited_ws; [done|destruct Hc as [-> | ->]; done]).
  pose proof (colon_value_complete (skip_value 1) [] w1 1 v (w2 ++ c :: t) eq_refl H1 Hv
    (skip_value_complete _ _ _ Hv Hd)) as E. cbn [app] in E. rewrite E.
  cbn [mbind result_bind fst snd]. rewrite span_app. destruct Hc as [-> | ->].
  - by rewrite separator_more.
  - by rewrite separator_close.
Qed.

Lemma scan_encoded_list fuel obj n ns :
  all_single obj (n :: ns) -> (length ns < fuel)%nat ->
  scan_members fuel (encoded_list obj (n :: ns) ++ ["}"%byte]) =
  Ok (map (fun n => (escaped n, trim (default [] (obj !! n)))) (n :: ns)).
Proof.
  revert n fuel. induction ns as [|n' ns IH]; intros n [|fuel] Ha Hf; cbn [length] in Hf; try lia.
  - cbn [encoded_list]. apply Forall_cons in Ha as [Ha _]. rewrite scan_encoded_member by auto. done.
  - change (encoded_list obj (n :: n' :: ns)) with (encoded_member obj n ++ ","%byte :: encoded_list obj (n' :: ns)).
    apply Forall_cons in Ha as [Hn Ha]. rewrite <- app_assoc, <- app_comm_cons, scan_encoded_member by auto.
    rewrite beqb_refl, IH by (done || lia). done.
Qed.

Lemma encoded_list_length obj ns : (length ns <= length (encoded_list obj ns))%nat.
Proof.
  assert (forall n, (1 <= length (encoded_member obj n))%nat) as Hm.
  { intros n. unfold encoded_member, quoted. cbn. lia. }
  induction ns as [|n [|n' ns] IH]; [done|apply Hm|].
  change (encoded_list obj (n :: n' :: ns)) with (encoded_member obj n ++ ","%byte :: encoded_list obj (n' :: ns)).
  rewrite length_app. cbn [length] in *. specialize (Hm n). lia.
Qed.

Lemma foldl_names names (f : bytes -> bytes) ns obj k :
  interning names -> Forall (fun n => utf8_Valid n = true) ns ->
  foldl (add_member names) obj (map (fun n => (escaped n, f n)) ns) !! k =
  if decide (k ∈ ns) then Some (f k) else obj !! k.
Proof.
  intros Hi Hv. revert obj. induction Hv as [|n ns Hn Hv IH]; intros obj; cbn [map foldl].
  - by rewrite decide_False by apply not_elem_of_nil.
  - rewrite IH. unfold add_member. cbn [fst snd]. rewrite intern_id, name_of_escaped by done.
    destruct (decide (k ∈ ns)); [by rewrite decide_True by (by right)|].
    destruct (decide (k = n)) as [-> |].
    + rewrite lookup_insert_eq, decide_True by (by left). done.
    + rewrite lookup_insert_ne, decide_False; [done| |done]. rewrite elem_of_cons. tauto.
Qed.

Lemma elem_of_keys (obj : gmap bytes bytes) k :
  k ∈ sort_strings ((map_to_list obj).*1) <-> is_Some (obj !! k).
Proof.
  rewrite elem_of_sort_strings, list_elem_of_fmap. split.
  - intros ([k' v] & -> & H%elem_of_map_to_list). by exists v.
  - intros [v H%elem_of_map_to_list]. by exists (k, v).
Qed.

Lemma EncodeObject_spec obj out :
  EncodeObject obj = Ok out <->
  all_single obj (sort_strings ((map_to_list obj).*1)) /\
  out = "{"%byte :: encoded_list obj (sort_strings ((map_to_list obj).*1)) ++ ["}"%byte].
Proof.
  unfold EncodeObject. rewrite result_bind_Ok. split.
  - intros (out1 & (Ha & ->)%encode_members_spec & [= <-]). split; [done|].
    by destruct (sort_strings _).
  - intros [Ha ->]. eexists. rewrite encode_members_spec. split; [by split|]. by destruct (sort_strings _).
Qed.

(** Decoding an encoded record. *)
Lemma DecodeObject_encoded obj names out :
  interning names -> (forall k, is_Some (obj !! k) -> utf8_Valid k = true) ->
  EncodeObject obj = Ok out -> DecodeObject out names = Ok (Some (trim <$> obj)).
Proof.
  intros Hi Hv [Ha ->]%EncodeObject_spec. set (ns := sort_strings _) in *.
  assert (Hns : forall k, k ∈ ns <-> is_Some (obj !! k)) by (intros; apply elem_of_keys).
  unfold DecodeObject, open_container. cbn [skipSpace is_space app].
  change (is_space "{"%byte) with false. cbn [is_head drop].
  change ("{"%byte =b "n"%byte) with false. change ("{"%byte =b "{"%byte) with true. cbn [negb].
  rewrite drop_0. destruct ns as [|n ns'] eqn:En.
  - cbn. do 2 f_equal. symmetry. apply map_eq. intros k. rewrite lookup_fmap, lookup_empty.
    destruct (obj !! k) eqn:E; [|done]. exfalso. apply (not_elem_of_nil k), Hns. eauto.
  - assert (exists t, encoded_list obj (n :: ns') ++ ["}"%byte] = x22 :: t) as [t Ht].
    { destruct ns'; cbn; eauto. }
    pose proof (encoded_list_length obj (n :: ns')) as Hlen.
    rewrite (skipSpace_id (encoded_list _ _ ++ _)) by (by rewrite Ht).
    assert (is_head "}"%byte (encoded_list obj (n :: ns') ++ ["}"%byte]) = false) as -> by (by rewrite Ht).
    cbn [mbind result_bind]. rewrite decode_members_fold, scan_encoded_list; [|done|].
    2: { rewrite length_app. cbn [length] in *. lia. }
    cbn [mbind result_bind]. do 2 f_equal. apply map_eq. intros k.
    rewrite foldl_names; [|done|apply Forall_forall; intros; apply Hv; by apply Hns].
    rewrite lookup_fmap, lookup_empty. specialize (Hns k).
    destruct (decide (k ∈ n :: ns')) as [Hk|Hk].
    + apply Hns in Hk as [v ->]. done.
    + destruct (obj !! k) eqn:E; [|done]. exfalso. naive_solver.
Qed.

(** C28: the record codec round-trips and cannot be injected into.
    [EncodeObject] succeeds exactly when every value is one JSON value, and
    then [DecodeObject] of what it wrote is the same record (each value
    without the white space around it), for every set of valid UTF-8 names
    and every interning dictionary. *)
Theorem record_roundtrip (obj names : gmap bytes bytes) (Hi : interning names)
  (Hv : forall k, is_Some (obj !! k) -> utf8_Valid k = true) :
  (is_ok (EncodeObject obj) = true <-> forall k v, obj !! k = Some v -> single_value v) /\
  (forall out, EncodeObject obj = Ok out -> DecodeObject out names = Ok (Some (trim <$> obj))).
Proof.
  split; [|intros out; by apply DecodeObject_encoded].
  assert (all_single obj (sort_strings ((map_to_list obj).*1)) <-> forall k v, obj !! k = Some v -> single_value v) as <-.
  { unfold all_single. rewrite Forall_forall. split.
    - intros H k v Hk. specialize (H k ltac:(apply elem_of_keys; eauto)). by rewrite Hk in H.
    - intros H k [v Hk]%elem_of_keys. rewrite Hk. eauto. }
  split.
  - destruct (EncodeObject obj) eqn:E; [|done]. intros _. by apply EncodeObject_spec in E as [? _].
  - intros Ha. by rewrite (proj2 (EncodeObject_spec obj _) (conj Ha eq_refl)).
Qed.

Lemma record_roundtrip_witness :
  let obj : gmap bytes bytes := {[ bs "id" := bs " 12 " ]} in
  let out := ok_or [] (EncodeObject obj) in
  out = [x7b] ++ quoted (bs "id") ++ bs ": 12 " ++ [x7d] /\ DecodeObject out ∅ = Ok (Some (trim <$> obj)).
Proof.
  cbv zeta. split; [vm_compute; reflexivity|].
  apply (record_roundtrip {[ bs "id" := bs " 12 " ]} ∅); [intros ? ?; by rewrite lookup_empty| |apply ok_or_eq; vm_compute; reflexivity].
  intros k [v Hk]. apply lookup_singleton_Some in Hk as [<- _]. reflexivity.
Defined.

(** ** Integers *)

Lemma dec_val_ge tok u r : 0 <= u -> dec_val u tok = Some r -> u <= r.
Proof.
  revert u. induction tok as [|c tok IH]; intros u Hu; cbn; [intros [= ->]; lia|].
  destruct (is_digit c) eqn:E; [|done]. unfold is_digit in E. intros H. apply IH in H; lia.
Qed.

(** The capped accumulation is decimal evaluation cut off above 2^63. *)
Lemma accumulate_spec tok u :
  0 <= u <= cutoff ->
  accumulate u tok = match dec_val u tok with Some r => if r <=? cutoff then Some r else None | None => None end.
Proof.
  unfold cutoff. revert u. induction tok as [|c tok IH]; intros u Hu; cbn [accumulate dec_val].
  { destruct (u <=? 2 ^ 63) eqn:E; [done|lia]. }
  unfold is_digit, cutoff. destruct ((bz c <? 48) || (57 <? bz c)) eqn:D.
  { by destruct ((48 <=? bz c) && (bz c <=? 57)) eqn:F; [lia|]. }
  destruct ((48 <=? bz c) && (bz c <=? 57)) eqn:F; [|lia].
  destruct ((2 ^ 63 - (bz c - 48)) / 10 <? u) eqn:G.
  - destruct (dec_val _ tok) as [r|] eqn:E; [|done]. apply dec_val_ge in E; [|lia].
    destruct (r <=? 2 ^ 63) eqn:H; [|done]. exfalso. Z.to_euclidean_division_equations. lia.
  - assert (u * 10 + (bz c - 48) <= 2 ^ 63) by (Z.to_euclidean_division_equations; lia).
    unfold u64. rewrite Z.mod_small by lia. rewrite IH by lia. by rewrite (Z.mul_comm u).
Qed.

(** What [Int] does with the token it scanned. *)
Definition int_of (tok : bytes) : option Z :=
  let neg := is_head "-"%byte tok in
  match accumulate 0 (if neg then drop 1 tok else tok) with
  | None => None
  | Some u => if neg then Some (int64 (u64 (- u))) else if cutoff - 1 <? u then None else Some (int64 u)
  end.

Lemma int_of_ParseInt tok : JNumber tok -> int_of tok = ParseInt tok.
Proof.
  intros Hn. assert (Htl : tok <> ["-"%byte]).
  { intros ->. destruct Hn as (sg & i & f & e & E & Hsg & Hi & _).
    destruct (int_part_head i Hi) as (c & i' & -> & Hc).
    destruct Hsg as [-> | ->]; injection E as E; [by subst c|done]. }
  apply JNumber_head in Hn as (c & n & -> & Hc). unfold int_of, ParseInt. cbn [is_head drop]. rewrite drop_0.
  destruct (c =b "-"%byte) eqn:N.
  - apply beqb_eq in N as ->. destruct n as [|d n]; [done|]. rewrite accumulate_spec by (unfold cutoff; lia).
    destruct (dec_val 0 (d :: n)) as [r|] eqn:E; [|done]. apply dec_val_ge in E; [|lia]. unfold cutoff.
    destruct (r <=? 2 ^ 63) eqn:F.
    + rewrite int64_u64, int64_small by (unfold is_int64; lia).
      by assert ((- 2 ^ 63 <=? - r) && (- r <? 2 ^ 63) = true) as -> by lia.
    + by assert ((- 2 ^ 63 <=? - r) && (- r <? 2 ^ 63) = false) as -> by lia.
  - apply beqb_neq in N. destruct Hc as [|Hc]; [done|].
    rewrite (digit_neq c "+"%byte) by done. rewrite accumulate_spec by (unfold cutoff; lia).
    destruct (dec_val 0 (c :: n)) as [r|] eqn:E; [|done]. apply dec_val_ge in E; [|lia]. unfold cutoff.
    destruct (r <=? 2 ^ 63) eqn:F.
    + destruct (2 ^ 63 - 1 <? r) eqn:G.
      * by assert ((- 2 ^ 63 <=? r) && (r <? 2 ^ 63) = false) as -> by lia.
      * rewrite int64_small by (unfold is_int64; lia).
        by assert ((- 2 ^ 63 <=? r) && (r <? 2 ^ 63) = true) as -> by lia.
    + by assert ((- 2 ^ 63 <=? r) && (r <? 2 ^ 63) = false) as -> by lia.
Qed.

Lemma JInt_token w1 tok w2 :
  ws w1 -> ws w2 -> JNumber tok -> JInt (w1 ++ tok ++ w2) = ParseInt tok.
Proof.
  intros H1 H2 Hn. rewrite <- int_of_ParseInt by done. unfold JInt.
  pose proof (JNumber_head tok Hn) as (c & n & E & Hc).
  pose proof (JValue_head 0 tok (JV_number 0 tok Hn)) as (c' & n' & E' & Hs & _).
  assert (skipSpace (w1 ++ tok ++ w2) = tok ++ w2) as ->.
  { rewrite E'. by rewrite skipSpace_ws_id. }
  rewrite skipNumber_complete by auto using delimited_end. rewrite span_app.
  rewrite (proj2 (end_is_ok w2) H2). rewrite E. cbn [app negb].
  assert (negb (c =b "-"%byte) && ((bz c <? 48) || (57 <? bz c)) = false) as ->; [|done].
  destruct Hc as [-> |Hc]; [done|]. unfold isDigit in Hc.
  destruct (negb _); [|done]. cbn. lia.
Qed.

(** [Int] accepts exactly the tokens of the JSON number grammar, white
    space around them allowed, that parse as a base-10 64-bit integer, and
    returns that integer; in particular every accepted value is an exact
    int64 and every int64 is accepted. *)
Theorem JInt_exact (raw : bytes) (z : Z) :
  (JInt raw = Some z <->
   exists w1 tok w2, raw = w1 ++ tok ++ w2 /\ ws w1 /\ ws w2 /\ JNumber tok /\ ParseInt tok = Some z) /\
  (JInt raw = Some z -> is_int64 z).
Proof.
  assert (H : JInt raw = Some z ->
    exists w1 tok w2, raw = w1 ++ tok ++ w2 /\ ws w1 /\ ws w2 /\ JNumber tok /\ ParseInt tok = Some z).
  { destruct (skipSpace_spec raw) as (w1 & E & Hw1 & _). intros HI. pose proof HI as HI0. unfold JInt in HI.
    destruct (skipSpace raw) as [|c s] eqn:Es; [done|].
    destruct (negb _ && _) eqn:C; [done|]. destruct (skipNumber (c :: s)) as [rest|] eqn:N; [|done].
    apply skipNumber_sound in N as (tok & Et & Hn).
    2: { cbn. destruct (c =b "-"%byte) eqn:D; [left; by apply beqb_eq|]. right. unfold isDigit. cbn in C. lia. }
    destruct (is_ok (end_ rest)) eqn:Er; [|done]. apply end_is_ok in Er. rewrite Et in E.
    exists w1, tok, rest. repeat split; try done. rewrite <- (JInt_token w1 tok rest) by done. by rewrite <- E. }
  split; [split; [done|]|].
  - intros (w1 & tok & w2 & -> & H1 & H2 & Hn & Hp). by rewrite JInt_token.
  - intros (w1 & tok & w2 & _ & _ & _ & _ & Hp)%H. unfold ParseInt in Hp. unfold is_int64.
    destruct (match tok with [] => _ | _ => _ end) as [neg ds]. destruct ds; [done|].
    destruct (dec_val 0 _); [|done]. destruct (_ && _) eqn:F; [|done]. injection Hp as <-. lia.
Qed.
End Jsonobject.
