(* ===== verification/Jmap.v ===== *)
(** * Jmap: identifiers and value ranges (core/jmap/types.go)

    Record ids (RFC 8620 section 1.2), the three id schemes, and the ranges of
    Int, UnsignedInt, Date and UTCDate.  [crypto/rand] supplies the random
    bytes of an id; they are arguments here.  [encoding/base32] without
    padding is written out. *)

From S2P Require Import Prelude GoLib.

Module Jmap.

Abbreviation Id := bytes.

Definition id_char (c : byte) : bool :=
  ((65 <=? bz c) && (bz c <=? 90)) || ((97 <=? bz c) && (bz c <=? 122))
  || ((48 <=? bz c) && (bz c <=? 57)) || (c =b "-"%byte) || (c =b "_"%byte).

Definition Valid (id : Id) : bool :=
  if (length id <? 1)%nat || (255 <? length id)%nat then false else forallb id_char id.

(** ** base32 *)

Definition crockfordAlphabet : bytes := bs "0123456789ABCDEFGHJKMNPQRSTVWXYZ".

(** The low [n] bits of [z], most significant first. *)
Fixpoint bits (n : nat) (z : Z) : list bool :=
  match n with O => [] | S n' => Z.testbit z (Z.of_nat n') :: bits n' z end.

Fixpoint bits_val (l : list bool) : Z :=
  match l with [] => 0 | b :: l' => Z.b2z b * 2 ^ Z.of_nat (length l') + bits_val l' end.

(** Five bits per character; the last group is padded with zero bits. *)
Fixpoint quintets (l : list bool) : list Z :=
  match l with
  | [] => []
  | a :: b :: c :: d :: e :: l' => bits_val [a; b; c; d; e] :: quintets l'
  | _ => [bits_val (take 5 (l ++ [false; false; false; false]))]
  end.

Definition alphabet_at (q : Z) : byte := nth (Z.to_nat q) crockfordAlphabet x00.

Definition EncodeToString (b : bytes) : bytes :=
  map alphabet_at (quintets (concat (map (fun c => bits 8 (bz c)) b))).

Definition idPrefix : bytes := bs "N".

(** ** The id schemes *)

(** [rnd]: the 16 bytes [rand.Read] fills in. *)
Definition NewId (rnd : bytes) : Id := idPrefix ++ EncodeToString (take 16 rnd).

Definition NewULID (millis : Z) (rnd : bytes) : Id :=
  let ms := u64 millis in
  idPrefix ++ EncodeToString
    ([zb (Z.shiftr ms 40); zb (Z.shiftr ms 32); zb (Z.shiftr ms 24); zb (Z.shiftr ms 16);
      zb (Z.shiftr ms 8); zb ms] ++ take 10 rnd).

Definition NewSequenceId (seq index : Z) (rnd : bytes) : Id :=
  idPrefix ++ EncodeToString (be_bytes 8 (u64 seq) ++ be_bytes 4 (index mod 2 ^ 32) ++ take 8 rnd).

(** ** Value ranges *)

Definition MaxInt : Z := 2 ^ 53 - 1.
Definition MinInt : Z := - (2 ^ 53 - 1).
Definition ValidInt (v : Z) : bool := (MinInt <=? v) && (v <=? MaxInt).
Definition ValidUnsignedInt (v : Z) : bool := (0 <=? v) && (v <=? MaxInt).

(** What the code uses of a parsed [time.Time]: microseconds since the epoch
    and the nanosecond within the second. *)
Record Time := mkTime { UnixMicro : Z; Nanosecond : Z }.

(** [time.Parse(time.RFC3339, s)]. *)
Class TimeParse := time_Parse : bytes -> option Time.

Definition has_byte (c : byte) (s : bytes) : bool := existsb (fun d => d =b c) s.

Definition ValidDate `{TimeParse} (s : bytes) : bool :=
  match time_Parse s with
  | None => false
  | Some t =>
      if has_byte "t"%byte s || has_byte "z"%byte s then false
      else if (Nanosecond t =? 0) && has_byte "."%byte s then false
      else true
  end.

Definition ValidUTCDate `{TimeParse} (s : bytes) : bool :=
  ValidDate s && match last s with Some c => c =b "Z"%byte | None => false end.

(** ** Ids sort by what they encode *)

Fixpoint lcompare {A} (f : A -> A -> comparison) (a b : list A) : comparison :=
  match a, b with
  | [], [] => Eq
  | [], _ => Lt
  | _, [] => Gt
  | x :: a', y :: b' => match f x y with Eq => lcompare f a' b' | c => c end
  end.

Definition bool_compare (a b : bool) : comparison := Z.b2z a ?= Z.b2z b.

Lemma bits_length n z : length (bits n z) = n.
Proof. induction n; cbn; congruence. Qed.

Lemma bits_val_bound l : 0 <= bits_val l < 2 ^ Z.of_nat (length l).
Proof.
  induction l as [|b l IH]; cbn [bits_val length]; [cbn; lia|].
  rewrite Nat2Z.inj_succ, Z.pow_succ_r by lia. destruct b; cbn [Z.b2z]; lia.
Qed.

Lemma bits_val_bits n z : bits_val (bits n z) = z mod 2 ^ Z.of_nat n.
Proof.
  induction n as [|n IH]; cbn [bits bits_val]; [by rewrite Z.mod_1_r|].
  rewrite bits_length, IH, Nat2Z.inj_succ, Z.pow_succ_r, (Z.mul_comm 2), Z.rem_mul_r by lia.
  rewrite Z.testbit_spec' by lia. lia.
Qed.

Lemma lcompare_app {A} (f : A -> A -> comparison) a b x y :
  length a = length b ->
  lcompare f (a ++ x) (b ++ y) = match lcompare f a b with Eq => lcompare f x y | c => c end.
Proof.
  revert b. induction a as [|p a IH]; intros [|q b] E; cbn in E; try lia; cbn; [done|].
  rewrite IH by lia. by destruct (f p q).
Qed.

(** Bit strings of one length compare as the numbers they spell. *)
Lemma lcompare_bits a b :
  length a = length b -> lcompare bool_compare a b = (bits_val a ?= bits_val b).
Proof.
  revert b. induction a as [|x a IH]; intros [|y b] E; cbn in E; try lia; [done|].
  cbn [lcompare bits_val]. injection E as E. rewrite E, IH by done.
  pose proof (bits_val_bound a). pose proof (bits_val_bound b). rewrite E in H. unfold bool_compare.
  destruct x, y; cbn [Z.b2z].
  - rewrite Z.compare_refl. destruct (Z.compare_spec (bits_val a) (bits_val b)); symmetry;
      [apply Z.compare_eq_iff|apply Z.compare_lt_iff|apply Z.compare_gt_iff]; lia.
  - change (1 ?= 0) with Gt. symmetry. apply Z.compare_gt_iff. lia.
  - change (0 ?= 1) with Lt. symmetry. apply Z.compare_lt_iff. lia.
  - rewrite Z.compare_refl. destruct (Z.compare_spec (bits_val a) (bits_val b)); symmetry;
      [apply Z.compare_eq_iff|apply Z.compare_lt_iff|apply Z.compare_gt_iff]; lia.
Qed.

Abbreviation byte_bits := (fun c : byte => bits 8 (bz c)).

Lemma bcompare_bits a b :
  length a = length b ->
  lcompare bool_compare (concat (map byte_bits a)) (concat (map byte_bits b)) = bcompare a b.
Proof.
  revert b. induction a as [|x a IH]; intros [|y b] E; cbn in E; try lia; [done|].
  injection E as E. cbn [map concat bcompare]. rewrite lcompare_app by (by rewrite !bits_length).
  rewrite lcompare_bits, !bits_val_bits, !Z.mod_small by (rewrite ?bits_length; done || apply bz_range).
  by rewrite IH.
Qed.

Fixpoint quintets_ind (P : list bool -> Prop)
  (Hshort : forall l, (length l < 5)%nat -> P l)
  (H5 : forall a b c d e l, P l -> P (a :: b :: c :: d :: e :: l)) (l : list bool) {struct l} : P l.
Proof.
  do 5 (destruct l as [|? l]; [apply Hshort; cbn; lia|]). apply H5. apply (quintets_ind P Hshort H5).
Defined.

Lemma alphabet_at_compare p q :
  0 <= p < 32 -> 0 <= q < 32 -> (bz (alphabet_at p) ?= bz (alphabet_at q)) = (p ?= q).
Proof.
  intros Hp Hq.
  assert (Hall : forallb (fun i => forallb (fun j =>
    bool_decide ((bz (alphabet_at (Z.of_nat i)) ?= bz (alphabet_at (Z.of_nat j))) = (Z.of_nat i ?= Z.of_nat j)))
      (seq 0 32)) (seq 0 32) = true) by (vm_compute; reflexivity).
  rewrite forallb_forall in Hall. specialize (Hall (Z.to_nat p)).
  rewrite in_seq, forallb_forall in Hall. specialize (Hall ltac:(lia) (Z.to_nat q)).
  rewrite in_seq in Hall. specialize (Hall ltac:(lia)). apply bool_decide_eq_true in Hall.
  by rewrite !Z2Nat.id in Hall by lia.
Qed.

Lemma alphabet_at_char q : 0 <= q < 32 -> id_char (alphabet_at q) = true.
Proof.
  intros Hq. assert (Hall : forallb (fun i => id_char (alphabet_at (Z.of_nat i))) (seq 0 32) = true) by (vm_compute; reflexivity).
  rewrite forallb_forall in Hall. specialize (Hall (Z.to_nat q)). rewrite in_seq, Z2Nat.id in Hall by lia.
  apply Hall. lia.
Qed.

Lemma quintets_range l : Forall (fun q => 0 <= q < 32) (quintets l).
Proof.
  induction l as [l Hl|a b c d e l IH] using quintets_ind.
  - destruct l as [|l1 [|l2 [|l3 [|l4 [|l5 l]]]]]; cbn in Hl; try lia; constructor; try done; apply bits_val_bound.
  - cbn [quintets]. constructor; [|done]. apply (bits_val_bound [a; b; c; d; e]).
Qed.

Lemma quintets_compare l m :
  length l = length m ->
  lcompare Z.compare (quintets l) (quintets m) = lcompare bool_compare l m.
Proof.
  revert m. induction l as [l Hl|a b c d e l IH] using quintets_ind; intros m E.
  - destruct l as [|l1 [|l2 [|l3 [|l4 [|l5 l]]]]]; cbn in Hl; try lia;
      destruct m as [|m1 [|m2 [|m3 [|m4 [|m5 m]]]]]; cbn in E; try lia; [done|..];
      cbn -[Z.pow]; repeat match goal with b : bool |- _ => destruct b end; reflexivity.
  - destruct m as [|m1 [|m2 [|m3 [|m4 [|m5 m]]]]]; cbn in E; try lia. cbn [quintets lcompare].
    rewrite IH by lia.
    trans (lcompare bool_compare ([a; b; c; d; e] ++ l) ([m1; m2; m3; m4; m5] ++ m)); [|done].
    rewrite (lcompare_app bool_compare [a; b; c; d; e] [m1; m2; m3; m4; m5]) by done.
    by rewrite (lcompare_bits [a; b; c; d; e] [m1; m2; m3; m4; m5]).
Qed.

Lemma bcompare_alphabet l m :
  Forall (fun q => 0 <= q < 32) l -> Forall (fun q => 0 <= q < 32) m ->
  bcompare (map alphabet_at l) (map alphabet_at m) = lcompare Z.compare l m.
Proof.
  intros Hl. revert m. induction Hl as [|p l Hp Hl IH]; intros m Hm; destruct Hm as [|q m Hq Hm]; try done.
  cbn [map bcompare lcompare]. rewrite alphabet_at_compare by done. destruct (p ?= q); auto.
Qed.

(** base32 with an ascending alphabet keeps the order of byte strings of one
    length. *)
Lemma EncodeToString_compare a b :
  length a = length b -> bcompare (EncodeToString a) (EncodeToString b) = bcompare a b.
Proof.
  intros E. unfold EncodeToString. rewrite bcompare_alphabet by apply quintets_range.
  rewrite quintets_compare, bcompare_bits; [done|done|].
  assert (forall l, length (concat (map byte_bits l)) = (8 * length l)%nat) as Hl.
  2: { by rewrite !Hl, E. }
  clear. intros l. induction l as [|c l IH]; [done|]. cbn [map concat]. rewrite length_app, bits_length, IH. cbn. lia.
Qed.

Lemma EncodeToString_chars b : forallb id_char (EncodeToString b) = true.
Proof.
  unfold EncodeToString. pose proof (quintets_range (concat (map byte_bits b))) as H.
  induction H as [|q l Hq Hl IH]; [done|]. cbn [map forallb]. by rewrite alphabet_at_char.
Qed.

Lemma quintets_length l : (length (quintets l) <= length l)%nat.
Proof.
  induction l as [l Hl|a b c d e l IH] using quintets_ind; [|cbn; lia].
  do 5 (destruct l as [|? l]; [cbn; lia|]). cbn in Hl. lia.
Qed.

Lemma EncodeToString_length b : (length (EncodeToString b) <= 8 * length b)%nat.
Proof.
  unfold EncodeToString. rewrite length_map. etrans; [apply quintets_length|].
  induction b as [|c b IH]; [done|]. cbn [map concat]. rewrite length_app, bits_length. cbn [length]. lia.
Qed.

Lemma Valid_encoded b : (length b <= 31)%nat -> Valid (idPrefix ++ EncodeToString b) = true.
Proof.
  intros Hb. pose proof (EncodeToString_length b) as Hl. unfold Valid.
  rewrite length_app. change (length idPrefix) with 1%nat.
  destruct (_ || _) eqn:E; [|apply EncodeToString_chars].
  apply orb_prop in E as [E|E]; apply Nat.ltb_lt in E; lia.
Qed.

Lemma be_bytes_compare n a b :
  0 <= a < 256 ^ Z.of_nat n -> 0 <= b < 256 ^ Z.of_nat n -> bcompare (be_bytes n a) (be_bytes n b) = (a ?= b).
Proof.
  intros Ha Hb. rewrite bcompare_be by (by rewrite !be_bytes_length).
  by rewrite !be_val_bytes, !Z.mod_small.
Qed.

Lemma bcompare_app_len a b x y :
  length a = length b -> bcompare (a ++ x) (b ++ y) = match bcompare a b with Eq => bcompare x y | c => c end.
Proof.
  revert b. induction a as [|p a IH]; intros [|q b] E; cbn in E; try lia; cbn; [done|].
  rewrite IH by lia. by destruct (bz p ?= bz q).
Qed.

(** Every id scheme produces ids valid under RFC 8620 section 1.2, and
    sequence ids sort by creation: whatever the random bytes, an id with a
    smaller (sequence, index) pair precedes one with a larger pair. *)
Theorem sequence_ids_sort (seq seq' index index' : Z) (rnd rnd' : bytes)
  (Hs : 0 <= seq < 2 ^ 63) (Hs' : 0 <= seq' < 2 ^ 63)
  (Hi : 0 <= index < 2 ^ 32) (Hi' : 0 <= index' < 2 ^ 32)
  (Hr : length rnd = 8%nat) (Hr' : length rnd' = 8%nat)
  (Hlt : seq < seq' \/ seq = seq' /\ index < index') :
  Valid (NewSequenceId seq index rnd) = true /\
  (forall ms, Valid (NewULID ms rnd) = true) /\ Valid (NewId rnd) = true /\
  blt (NewSequenceId seq index rnd) (NewSequenceId seq' index' rnd') = true.
Proof.
  split; [|split; [|split]].
  - apply Valid_encoded. rewrite !length_app, !be_bytes_length, length_take. lia.
  - intros ms. apply Valid_encoded. rewrite !length_app, length_take. cbn [length]. lia.
  - apply Valid_encoded. rewrite length_take. lia.
  - unfold NewSequenceId, blt. rewrite bcompare_app, EncodeToString_compare.
    2: { by rewrite !length_app, !be_bytes_length, !length_take, Hr, Hr'. }
    unfold u64. rewrite !Z.mod_small by lia.
    rewrite !bcompare_app_len, !be_bytes_compare by (rewrite ?be_bytes_length; done || (cbn; lia)).
    destruct Hlt as [Hlt|[-> Hlt]].
    + by rewrite (proj2 (Z.compare_lt_iff _ _) Hlt).
    + by rewrite Z.compare_refl, (proj2 (Z.compare_lt_iff _ _) Hlt).
Qed.

Lemma sequence_ids_sort_witness :
  blt (NewSequenceId 7 3 (be_bytes 8 (2 ^ 60))) (NewSequenceId 8 0 (be_bytes 8 0)) = true.
Proof. apply (sequence_ids_sort 7 8 3 0 (be_bytes 8 (2 ^ 60)) (be_bytes 8 0)); try lia; reflexivity. Defined.
End Jmap.
