(* ===== verification/Descriptor.v ===== *)
(** * Descriptor: object type descriptors (core/descriptor)

    The schema vocabulary: property kinds and attributes, what [Validate]
    demands of a type at registration, and what [CheckValue] demands of a
    value. *)

From S2P Require Import Prelude GoLib Jsonscan Jmap.

Module Descriptor.
Import Jsonscan.

Definition isNull (raw : bytes) : bool := bool_decide (TrimSpace raw = bs "null").

(** [Kind] is a [uint8]: values outside the constants exist. *)
Inductive Kind :=
  | KindString | KindBool | KindInt | KindUnsignedInt | KindDate | KindId | KindObject | KindArray
  | KindOther (code : Z).

#[export] Instance Kind_eq_dec : EqDecision Kind.
Proof. solve_decision. Defined.

Record Property := mkProperty {
  p_Kind : Kind;
  p_Immutable : bool;
  p_ServerSet : bool;
  p_Indexed : bool;
  p_OrderBy : list bytes;
  p_SetIndexed : bool;
  p_BlobRef : bool;
  p_Nullable : bool;
  p_Internal : bool;
  p_Default : option bytes;
}.

Record Type_ := mkType {
  t_Name : bytes;
  t_Capability : bytes;
  t_Properties : gmap bytes Property;
  t_Internal : bool;
}.

Definition composite (k : Kind) : bool :=
  match k with KindObject | KindArray => true | _ => false end.

Section with_time.
Context `{Jmap.TimeParse}.

Definition CheckValue (p : Property) (raw : bytes) : result unit :=
  if isNull raw then if p_Nullable p then Ok tt else Err (Errorf "null is not allowed")
  else
    match p_Kind p with
    | KindString => if ValidString raw then Ok tt else Err (Errorf "not a string")
    | KindBool => match JBool raw with Some _ => Ok tt | None => Err (Errorf "not a boolean") end
    | KindInt =>
        match JInt raw with
        | None => Err (Errorf "not an integer")
        | Some n => if Jmap.ValidInt n then Ok tt else Err (Errorf "out of Int range")
        end
    | KindUnsignedInt =>
        match JInt raw with
        | None => Err (Errorf "not an integer")
        | Some n => if Jmap.ValidUnsignedInt n then Ok tt else Err (Errorf "out of UnsignedInt range")
        end
    | KindDate =>
        match JString raw with
        | Some s => if Jmap.ValidDate s then Ok tt else Err (Errorf "not a Date")
        | None => Err (Errorf "not a Date")
        end
    | KindId =>
        match JString raw with
        | Some s => if Jmap.Valid s then Ok tt else Err (Errorf "not an Id")
        | None => Err (Errorf "not an Id")
        end
    | KindObject => if ValidObject raw then Ok tt else Err (Errorf "not an object")
    | KindArray => if ValidArray raw then Ok tt else Err (Errorf "not an array")
    | KindOther _ => Err (Errorf "unknown kind")
    end.

(** One [OrderBy] entry of property [name]. *)
Definition check_order (t : Type_) (name ob : bytes) : result unit :=
  if bool_decide (ob = bs "id") || bool_decide (ob = name) then Err (Errorf "cannot order by")
  else
    match t_Properties t !! ob with
    | None => Err (Errorf "orders by undeclared property")
    | Some op =>
        if composite (p_Kind op) then Err (Errorf "orders by composite property")
        else if negb (p_Immutable op) then Err (Errorf "orders by mutable property")
        else Ok tt
    end.

Fixpoint check_orders (t : Type_) (name : bytes) (obs : list bytes) : result unit :=
  match obs with [] => Ok tt | ob :: obs' => _ ← check_order t name ob; check_orders t name obs' end.

Definition check_property (t : Type_) (name : bytes) (p : Property) : result unit :=
  if bool_decide (name = []) then Err (Errorf "has an empty property name")
  else if match p_Kind p with KindOther _ => true | _ => false end then Err (Errorf "has unknown kind")
  else if p_BlobRef p && negb (bool_decide (p_Kind p = KindId)) then Err (Errorf "is BlobRef but not KindId")
  else if p_Indexed p && composite (p_Kind p) then Err (Errorf "is a composite kind and cannot be Indexed")
  else if p_SetIndexed p && negb (composite (p_Kind p)) then Err (Errorf "is SetIndexed but not a composite kind")
  else if p_Indexed p && p_SetIndexed p then Err (Errorf "cannot be both Indexed and SetIndexed")
  else if negb (length (p_OrderBy p) =? 0)%nat && negb (p_Indexed p) then Err (Errorf "declares OrderBy but is not Indexed")
  else
    _ ← check_orders t name (p_OrderBy p);
    match p_Default p with None => Ok tt | Some d => CheckValue p d end.

Fixpoint check_properties (t : Type_) (ps : list (bytes * Property)) : result unit :=
  match ps with [] => Ok tt | (name, p) :: ps' => _ ← check_property t name p; check_properties t ps' end.

Definition Validate `{MapRange} (t : Type_) : result unit :=
  if bool_decide (t_Name t = []) || bool_decide (t_Capability t = []) then Err (Errorf "type needs Name and Capability")
  else match t_Properties t !! bs "id" with
       | Some _ => Err (Errorf "declares id; it is implicit on every type")
       | None => check_properties t (range_map (t_Properties t))
       end.

(** ** What a validated descriptor guarantees *)

Lemma check_properties_Ok t ps :
  check_properties t ps = Ok tt <-> Forall (fun np => check_property t np.1 np.2 = Ok tt) ps.
Proof.
  induction ps as [|[name p] ps IH]; cbn; [done|]. rewrite Forall_cons, <- IH. cbn.
  destruct (check_property t name p) as [[]|]; cbn; naive_solver.
Qed.

Lemma Validate_property `{MapRange} t name p :
  Validate t = Ok tt -> t_Properties t !! name = Some p -> check_property t name p = Ok tt /\ name <> bs "id".
Proof.
  unfold Validate. destruct (_ || _); [done|]. destruct (t_Properties t !! bs "id") eqn:E; [done|].
  rewrite check_properties_Ok, Forall_forall. intros Hall Hp. split.
  - apply (Hall (name, p)). by apply elem_of_range_map.
  - intros ->. congruence.
Qed.

(** The constraints the index maintenance relies on. *)
Lemma check_property_indexed t name p :
  check_property t name p = Ok tt ->
  (p_Indexed p = true -> composite (p_Kind p) = false /\ p_SetIndexed p = false) /\
  (p_SetIndexed p = true -> composite (p_Kind p) = true /\ p_OrderBy p = []) /\
  (forall ob, ob ∈ p_OrderBy p -> ob <> bs "id" /\ ob <> name /\
     exists op, t_Properties t !! ob = Some op /\ composite (p_Kind op) = false /\ p_Immutable op = true).
Proof.
  unfold check_property. destruct (bool_decide (name = [])); [done|].
  destruct (match p_Kind p with KindOther _ => true | _ => false end); [done|].
  destruct (_ && negb (bool_decide _)); [done|].
  destruct (p_Indexed p && composite (p_Kind p)) eqn:E1; [done|].
  destruct (p_SetIndexed p && negb (composite (p_Kind p))) eqn:E2; [done|].
  destruct (p_Indexed p && p_SetIndexed p) eqn:E3; [done|].
  destruct (negb _ && negb _) eqn:E4; [done|].
  intros ([] & Ho & _)%result_bind_Ok. split; [|split].
  - intros Hi. rewrite Hi in *. cbn in *. auto.
  - intros Hs. rewrite Hs in *. cbn in *. split; [by destruct (composite _)|].
    destruct (p_Indexed p); [by destruct (composite _)|]. destruct (p_OrderBy p); done.
  - clear E1 E2 E3 E4. induction (p_OrderBy p) as [|o obs IH]; intros ob Hob; [by apply not_elem_of_nil in Hob|].
    cbn in Ho. apply result_bind_Ok in Ho as ([] & H1 & H2). apply elem_of_cons in Hob as [-> |Hob]; [|by apply IH].
    unfold check_order in H1. destruct (_ || _) eqn:En; [done|]. apply orb_false_iff in En as [En1 En2].
    apply bool_decide_eq_false in En1, En2. split; [done|]. split; [done|].
    destruct (t_Properties t !! o) as [op|]; [|done]. exists op.
    destruct (composite _); [done|]. destruct (p_Immutable op); [done|]. done.
Qed.
End with_time.
End Descriptor.
