(* ===== verification/Keys.v ===== *)
(** * Keys: the key layout of the object database (core/objectdb/keys.go)

    Every record, index entry, log entry and counter of an account lives
    under keys that start with the account segment; the tags, one letter per
    kind of key, keep the kinds apart.  [indexValue] encodes property values
    so that [bytes.Compare] on index keys is the comparison the type asks
    for. *)

From S2P Require Import Prelude GoLib Keyenc Backend Jsonscan Jmap Descriptor.

Module Keys.
Import Keyenc Backend Jsonscan Jmap Descriptor.

Definition key (segs : list bytes) : bytes := Key segs.
Definition prefixRange (segs : list bytes) : bytes * slice := PrefixRange segs.

Definition objKey (acct : Id) (typeName : bytes) (id : Id) : bytes := key [acct; bs "o"; typeName; id].

Definition idxKey (acct : Id) (typeName prop value : bytes) (order : list bytes) (id : Id) : bytes :=
  key ([acct; bs "x"; typeName; prop; value] ++ order ++ [id]).

Definition logKey (acct : Id) (sequence : Z) : bytes := key [acct; bs "g"; EncodeInt64 sequence].
Definition logFloorKey (acct : Id) : bytes := key [acct; bs "f"].
Definition seqKey (acct : Id) : bytes := key [acct; bs "q"].
Definition typeStateKey (acct : Id) (typeName : bytes) : bytes := key [acct; bs "s"; typeName].

Definition tagExists : bytes := bs "exists".
Definition tagKey (tag : bytes) (acct : Id) : bytes := key [bs "!tag"; tag; acct].

Definition uploadKey (acct blobID : Id) : bytes := key [acct; bs "u"; blobID].
Definition refKey (acct blobID : Id) (typeName : bytes) (id : Id) : bytes := key [acct; bs "r"; blobID; typeName; id].
Definition pendingKey (acct blobID : Id) : bytes := key [acct; bs "p"; blobID].

(** ** Dates *)

(** [num(at, width)] over the 20 bytes between the quotes. *)
Fixpoint num_loop (v : Z) (l : bytes) : option Z :=
  match l with
  | [] => Some v
  | c :: l' => if (bz c <? 48) || (57 <? bz c) then None else num_loop (v * 10 + (bz c - 48)) l'
  end.
Definition num (s : bytes) (at_ width : nat) : option Z := num_loop 0 (take width (drop at_ s)).

Definition byte_at (s : bytes) (i : nat) (c : byte) : bool :=
  match s !! i with Some d => d =b c | None => false end.

Definition utcDateMicros (raw : bytes) : option Z :=
  if negb (length raw =? 22)%nat || negb (byte_at raw 0 x22) || negb (byte_at raw 21 x22) then None
  else
    let s := take 20 (drop 1 raw) in
    if negb (byte_at s 4 "-"%byte) || negb (byte_at s 7 "-"%byte) || negb (byte_at s 10 "T"%byte)
       || negb (byte_at s 13 ":"%byte) || negb (byte_at s 16 ":"%byte) || negb (byte_at s 19 "Z"%byte) then None
    else
      match num s 0 4, num s 5 2, num s 8 2, num s 11 2, num s 14 2, num s 17 2 with
      | Some year, Some month, Some day, Some hour, Some minute, Some second =>
          if (month <? 1) || (12 <? month) || (day <? 1) || (23 <? hour) || (59 <? minute) || (60 <? second) then None
          else
            let t := date_unix year month day hour minute second in
            if bool_decide (unix_date t = (year, month, day)) then Some (t * 1000000) else None
      | _, _, _, _, _, _ => None
      end.

(** ** Values *)

(** [strings.ToLower], a parameter: its tables are the Unicode case
    mappings. *)
Class CaseFold := ToLower : bytes -> bytes.

Section values.
Context `{TimeParse, CaseFold}.

Definition bareValue (k : Kind) (raw : bytes) : result bytes :=
  match k with
  | KindString => match StringFolded ToLower raw with Some v => Ok v | None => Err errBadIndexValue end
  | KindBool =>
      match JBool raw with
      | Some b => Ok (if b then [x01] else [x00])
      | None => Err errBadIndexValue
      end
  | KindInt | KindUnsignedInt =>
      match JInt raw with Some n => Ok (EncodeInt64 n) | None => Err errBadIndexValue end
  | KindDate =>
      match utcDateMicros raw with
      | Some micros => Ok (EncodeInt64 micros)
      | None =>
          match JString raw with
          | None => Err errBadIndexValue
          | Some s =>
              match time_Parse s with
              | None => Err errTimeParse
              | Some t => Ok (EncodeInt64 (UnixMicro t))
              end
          end
      end
  | KindId => match JString raw with Some s => Ok s | None => Err errBadIndexValue end
  | KindObject | KindArray | KindOther _ => Err errUnknownKind
  end.

(** The literal null of a nullable property has the tag 0, any other value the
    tag 1; a non-nullable property keeps the bare encoding. *)
Definition indexValue (p : Property) (raw : bytes) : result bytes :=
  if p_Nullable p then
    if bool_decide (TrimSpace raw = bs "null") then Ok [x00]
    else v ← bareValue (p_Kind p) raw; Ok (x01 :: v)
  else bareValue (p_Kind p) raw.

Definition SortKey (p : Property) (raw : bytes) : result bytes := indexValue p raw.

Definition SortInt (p : Property) (raw : bytes) : option Z :=
  if p_Nullable p then None
  else
    match p_Kind p with
    | KindBool => match JBool raw with Some b => Some (if b then 1 else 0) | None => None end
    | KindInt | KindUnsignedInt => JInt raw
    | KindDate =>
        match utcDateMicros raw with
        | Some micros => Some micros
        | None =>
            match JString raw with
            | None => None
            | Some s => match time_Parse s with Some t => Some (UnixMicro t) | None => None end
            end
        end
    | _ => None
    end.
End values.

(** ** Reading keys back *)

(** Walk back to the terminator of the previous segment.  [n] is the position
    [start]; a key has at least the two terminator bytes. *)
Fixpoint seg_start (k : bytes) (n : nat) : nat :=
  match n with
  | S (S m as n') => if byte_at k m x00 && byte_at k n' x01 then n else seg_start k n'
  | _ => n
  end.

Definition idFromObjKey (k : bytes) : Id :=
  let e := (length k - 2)%nat in
  let s := seg_start k e in take (e - s) (drop s k).

(** The escaped 8 bytes of a log key's last segment. *)
Fixpoint unescape (l : bytes) : bytes :=
  match l with
  | c :: ((d :: l') as l1) => if (c =b x00) && (d =b xff) then x00 :: unescape l' else c :: unescape l1
  | _ => l
  end.

(** [for i := len(body) - 2; i >= 0; i--] looking for a terminator. *)
Fixpoint last_terminator (body : bytes) (n : nat) : nat :=
  match n with
  | O => 0
  | S i => if byte_at body i x00 && byte_at body (S i) x01 then (i + 2)%nat else last_terminator body i
  end.

Definition seqFromLogKey (k : bytes) : Z :=
  let body := take (length k - 2) k in
  match DecodeInt64 (unescape (drop (last_terminator body (length body - 1)) body)) with
  | Ok n => n
  | Err _ => 0
  end.

(** ** Keys read back what was written *)

Definition no_zero (s : bytes) : Prop := Forall (fun c => c <> x00) s.

Lemma Valid_no_zero id : Valid id = true -> no_zero id.
Proof.
  unfold Valid. destruct (_ || _); [done|]. intros Hc. apply Forall_forall. intros c Hin ->.
  rewrite forallb_forall in Hc. by specialize (Hc x00 ltac:(by apply list_elem_of_In)).
Qed.

Lemma enc_no_zero s : no_zero s -> enc s = s ++ [x00; x01].
Proof.
  induction 1 as [|c s Hc Hs IH]; [done|]. cbn [enc]. apply beqb_neq in Hc. by rewrite Hc, IH.
Qed.

Lemma byte_at_app_r a b i c : byte_at (a ++ b) (length a + i) c = byte_at b i c.
Proof. unfold byte_at. by rewrite lookup_app_r, Nat.add_comm, Nat.add_sub by lia. Qed.

Lemma byte_at_zero s i : no_zero s -> byte_at s i x00 = false.
Proof.
  intros Hs. unfold byte_at. destruct (s !! i) eqn:E; [|done]. apply beqb_neq.
  by apply (Forall_lookup_1 _ _ _ _ Hs E).
Qed.

Lemma seg_start_step k m :
  seg_start k (S (S m)) = if byte_at k m x00 && byte_at k (S m) x01 then S (S m) else seg_start k (S m).
Proof. done. Qed.

Lemma seg_start_spec p id t n :
  no_zero id -> (n <= length id)%nat ->
  seg_start ((p ++ [x00; x01]) ++ id ++ t) (length p + 2 + n) = (length p + 2)%nat.
Proof.
  intros Hid. induction n as [|n IH]; intros Hn.
  - rewrite Nat.add_0_r. replace (length p + 2)%nat with (S (S (length p))) by lia. rewrite seg_start_step.
    rewrite <- app_assoc. replace (length p) with (length p + 0)%nat at 1 by lia. rewrite byte_at_app_r.
    replace (S (length p)) with (length p + 1)%nat by lia. rewrite byte_at_app_r. done.
  - replace (length p + 2 + S n)%nat with (S (S (length p + 1 + n))) by lia. rewrite seg_start_step.
    assert (byte_at ((p ++ [x00; x01]) ++ id ++ t) (length p + 1 + n) x00 = false) as ->.
    { destruct n as [|n].
      - rewrite <- app_assoc, Nat.add_0_r, byte_at_app_r. done.
      - replace (length p + 1 + S n)%nat with (length (p ++ [x00; x01]) + n)%nat by (rewrite length_app; cbn; lia).
        rewrite byte_at_app_r. unfold byte_at. rewrite lookup_app_l by lia.
        pose proof (byte_at_zero id n Hid) as Hz. unfold byte_at in Hz. done. }
    cbn [andb]. replace (S (length p + 1 + n)) with (length p + 2 + n)%nat by lia. apply IH. lia.
Qed.

(** The id of a scanned key is the id it was built with. *)
Lemma idFromObjKey_Key segs id : segs <> [] -> no_zero id -> idFromObjKey (Key (segs ++ [id])) = id.
Proof.
  intros Hne Hid. destruct (exists_last Hne) as (segs' & s & ->).
  rewrite !Key_app. change (Key [id]) with ([] ++ Key [id]). rewrite !Key_enc. cbn [map concat app]. rewrite !app_nil_r.
  rewrite (enc_no_zero id) by done.
  assert (exists p, concat (map enc segs') ++ enc s = p ++ [x00; x01]) as [p ->].
  { assert (exists q, enc s = q ++ [x00; x01]) as [q ->].
    { clear. induction s as [|c s [q Hq]]; [by exists []|]. cbn. rewrite Hq.
      exists ((if c =b x00 then [x00; xff] else [c]) ++ q). by rewrite app_assoc. }
    eexists. by rewrite app_assoc. }
  unfold idFromObjKey. rewrite !length_app. cbn [length].
  replace (length p + 2 + (length id + 2) - 2)%nat with (length p + 2 + length id)%nat by lia.
  rewrite seg_start_spec by (done || lia).
  replace (length p + 2 + length id - (length p + 2))%nat with (length id) by lia.
  replace (length p + 2)%nat with (length (p ++ [x00; x01])) by (rewrite length_app; cbn; lia).
  rewrite drop_app_length. apply take_app_length.
Qed.

(** ** Log keys *)

(** An encoded segment without its terminator. *)
Fixpoint esc (seg : bytes) : bytes :=
  match seg with [] => [] | b :: seg' => (if b =b x00 then [x00; xff] else [b]) ++ esc seg' end.

Lemma enc_esc s : enc s = esc s ++ [x00; x01].
Proof. induction s as [|c s IH]; [done|]. cbn. by rewrite IH, app_assoc. Qed.

Lemma unescape_cons c l : (c =b x00) = false -> unescape (c :: l) = c :: unescape l.
Proof.
  intros E. destruct l as [|d l]; [done|].
  change (unescape (c :: d :: l)) with (if (c =b x00) && (d =b xff) then x00 :: unescape l else c :: unescape (d :: l)).
  by rewrite E.
Qed.

Lemma unescape_esc s : unescape (esc s) = s.
Proof.
  induction s as [|c s IH]; [done|]. cbn [esc]. destruct (c =b x00) eqn:E.
  - apply beqb_eq in E as ->. cbn. by rewrite IH.
  - cbn [app]. by rewrite unescape_cons, IH.
Qed.

(** No terminator inside an escaped segment. *)
Lemma esc_no_terminator s i : byte_at (esc s) i x00 && byte_at (esc s) (S i) x01 = false.
Proof.
  revert i. induction s as [|c s IH]; intros i; [done|]. cbn [esc]. destruct (c =b x00) eqn:E.
  - destruct i as [|[|i]]; [done|done|]. apply (IH i).
  - destruct i as [|i]; [|apply (IH i)]. cbn. unfold byte_at at 1. cbn. by rewrite E.
Qed.

Lemma last_terminator_spec p e n :
  (forall i, byte_at e i x00 && byte_at e (S i) x01 = false) -> (n <= length e)%nat ->
  last_terminator ((p ++ [x00; x01]) ++ e) (length p + 1 + n) = (length p + 2)%nat.
Proof.
  intros He. induction n as [|n IH]; intros Hn.
  - replace (length p + 1 + 0)%nat with (S (length p)) by lia. cbn [last_terminator].
    rewrite <- app_assoc. replace (length p) with (length p + 0)%nat at 1 by lia. rewrite byte_at_app_r.
    replace (S (length p)) with (length p + 1)%nat by lia. rewrite byte_at_app_r. done.
  - replace (length p + 1 + S n)%nat with (S (length p + 1 + n)) by lia. cbn [last_terminator].
    assert (byte_at ((p ++ [x00; x01]) ++ e) (length p + 1 + n) x00 &&
            byte_at ((p ++ [x00; x01]) ++ e) (S (length p + 1 + n)) x01 = false) as ->; [|apply IH; lia].
    destruct n as [|n].
    + rewrite <- app_assoc, Nat.add_0_r, byte_at_app_r. done.
    + replace (length p + 1 + S n)%nat with (length (p ++ [x00; x01]) + n)%nat by (rewrite length_app; cbn; lia).
      rewrite byte_at_app_r. replace (S (length (p ++ [x00; x01]) + n)) with (length (p ++ [x00; x01]) + S n)%nat by lia.
      rewrite byte_at_app_r. apply He.
Qed.

(** The sequence number of a log key is the one it was built with. *)
Lemma seqFromLogKey_logKey acct n : is_int64 n -> seqFromLogKey (logKey acct n) = n.
Proof.
  intros Hn. unfold logKey, key. change [acct; bs "g"; EncodeInt64 n] with ([acct; bs "g"] ++ [EncodeInt64 n]).
  rewrite Key_app, !Key_enc. cbn [map concat]. rewrite !app_nil_r.
  set (e := EncodeInt64 n). rewrite (enc_esc e).
  assert (exists p, enc acct ++ enc (bs "g") = p ++ [x00; x01]) as [p ->].
  { exists (enc acct ++ bs "g"). by rewrite <- app_assoc. }
  unfold seqFromLogKey. rewrite app_assoc. rewrite (length_app _ [x00; x01]). cbn [length].
  replace (length ((p ++ [x00; x01]) ++ esc e) + 2 - 2)%nat with (length ((p ++ [x00; x01]) ++ esc e)) by lia.
  rewrite take_app_length.
  replace (length ((p ++ [x00; x01]) ++ esc e) - 1)%nat with (length p + 1 + length (esc e))%nat by (rewrite !length_app; cbn; lia).
  rewrite last_terminator_spec by (done || apply esc_no_terminator).
  replace (length p + 2)%nat with (length (p ++ [x00; x01])) by (rewrite length_app; cbn; lia).
  rewrite drop_app_length, unescape_esc. unfold e. by rewrite DecodeInt64_EncodeInt64.
Qed.
End Keys.
