(* ===== verification/ObjectDB.v ===== *)
(** * ObjectDB: the object database (core/objectdb)

    Records, in-commit index maintenance, the change log and per-type states
    over any [Backend].  Reads take the store they observe; an [Update] is the
    explicit state its methods thread, and [update] is one commit: it builds
    the batch, fences it and writes it. *)

From S2P Require Import Prelude GoLib Keyenc Backend Jsonscan Jsongrammar Jmap Descriptor Keys.

Module ObjectDB.
Import Keyenc Backend Jsonscan Jmap Descriptor Keys.

(** A record: property name to raw JSON value.  A [nil] map is [None]. *)
Abbreviation Object := (gmap bytes bytes).

Inductive IdScheme := SchemeULID | SchemeSequence | SchemeRandom | SchemeOther (code : Z).

(** The [DB] fields that are not providers: the backend is the type class
    [Backend], the lease's fence an argument of [update], and the notifier's
    input part of its result. *)
Record DB := mkDB {
  db_types : gmap bytes Type_;
  db_propNames : gmap bytes bytes;
  db_idScheme : IdScheme;
  db_verifyPreImages : bool;
}.

Definition New (scheme : IdScheme) (verify : bool) : DB := mkDB ∅ {[ bs "id" := bs "id" ]} scheme verify.

(** ** The change log entry *)

Record logTypeEntry := mkLogType {
  lt_Created : list Id;
  lt_Updated : list Id;
  lt_Destroyed : list Id;
  lt_UpdatedProps : option (list bytes); (* [nil] is [None] *)
}.

Record logEntry := mkLogEntry {
  le_Types : gmap bytes logTypeEntry;
  le_At : Z;
}.

(** [encoding/json] over the entry: [json.Marshal] and [json.Unmarshal]. *)
Class LogCodec := {
  marshalLog : logEntry -> bytes;
  unmarshalLog : bytes -> result logEntry;
}.

Class LogCodecLaws `{LogCodec} := {
  unmarshal_marshal : forall e, unmarshalLog (marshalLog e) = Ok e;
}.

(** ** Updates *)

Abbreviation recKey := (bytes * Id)%type.
Definition stagedKey (typeName : bytes) (id : Id) : recKey := (typeName, id).

Record stagedRecord := mkStaged {
  st_typeName : bytes;
  st_id : Id;
  st_old : option Object; (* [None]: the record did not exist before this Update *)
  st_new : option Object; (* [None]: destroyed *)
  st_created : bool;
  st_quiet : bool;
}.

Record readRecord := mkRead { r_obj : option Object; r_raw : slice }.

Record Update := mkUpdate {
  u_staged : gmap recKey stagedRecord;
  u_bumped : gmap bytes unit;
  u_tagOps : gmap bytes bool;
  u_sequence : Z;
  u_createSeq : Z;
  u_read : gmap recKey readRecord;
}.

Definition newUpdate (sequence : Z) : Update := mkUpdate ∅ ∅ ∅ sequence 0 ∅.

Definition set_staged (u : Update) (st : stagedRecord) : Update :=
  mkUpdate (<[stagedKey (st_typeName st) (st_id st) := st]> (u_staged u))
    (u_bumped u) (u_tagOps u) (u_sequence u) (u_createSeq u) (u_read u).
Definition set_read (u : Update) (k : recKey) (r : readRecord) : Update :=
  mkUpdate (u_staged u) (u_bumped u) (u_tagOps u) (u_sequence u) (u_createSeq u) (<[k := r]> (u_read u)).
Definition set_bumped (u : Update) (t : bytes) : Update :=
  mkUpdate (u_staged u) (<[t := tt]> (u_bumped u)) (u_tagOps u) (u_sequence u) (u_createSeq u) (u_read u).
Definition set_tag (u : Update) (tag : bytes) (b : bool) : Update :=
  mkUpdate (u_staged u) (u_bumped u) (<[tag := b]> (u_tagOps u)) (u_sequence u) (u_createSeq u) (u_read u).
Definition set_createSeq (u : Update) (n : Z) : Update :=
  mkUpdate (u_staged u) (u_bumped u) (u_tagOps u) (u_sequence u) n (u_read u).

(** A record with the zero [Property], what indexing a map of properties by an
    absent name yields. *)
Definition zeroProperty : Property := mkProperty (KindOther 0) false false false [] false false false false None.

Section operations.
Context `{MapRange, TimeParse, CaseFold, LogCodec}.

(** ** Registration *)

Definition RegisterType (db : DB) (t : Type_) : result DB :=
  _ ← Validate t;
  match db_types db !! t_Name t with
  | Some _ => Err (Errorf "type already registered")
  | None =>
      Ok (mkDB (<[t_Name t := t]> (db_types db))
            (fold_left (fun names np => <[np.1 := np.1]> names) (range_map (t_Properties t)) (db_propNames db))
            (db_idScheme db) (db_verifyPreImages db))
  end.

Definition TypeNames (db : DB) : list bytes :=
  sort_strings ((filter (fun nt : bytes * Type_ => t_Internal nt.2 = false) (range_map (db_types db))).*1).

(** ** The record codec *)

Definition decodeObject (raw : bytes) : result (option Object) := DecodeObject raw ∅.
Definition decodeStored (db : DB) (raw : bytes) : result (option Object) := DecodeObject raw (db_propNames db).
Definition decodeStoredSubset (db : DB) (raw : bytes) (wanted : gmap bytes bool) : result (option Object) :=
  DecodeObjectSubset raw (db_propNames db) wanted.
Definition encodeObject (obj : Object) : result bytes := EncodeObject obj.

(** ** Reads *)

Context {S : Type} `{Backend S}.

Definition getRaw (db : DB) (s : S) (acct : Id) (typeName : bytes) (id : Id) : result (option Object * slice) :=
  match db_types db !! typeName with
  | None => Err ErrUnknownType
  | Some _ =>
      match be_Get s (objKey acct typeName id) with
      | Err BackendErrNotFound => Err ErrNotFound
      | Err e => Err e
      | Ok raw => obj ← decodeStored db (sbytes raw); Ok (obj, raw)
      end
  end.

Definition Get (db : DB) (s : S) (acct : Id) (typeName : bytes) (id : Id) : result (option Object) :=
  r ← getRaw db s acct typeName id; Ok r.1.

Definition MaxMultiGetBatch : nat := 200.

(** One record per id without [MultiGetter]: sequential gets. *)
Fixpoint get_each (s : S) (decode : bytes -> result (option Object)) (acct : Id) (typeName : bytes) (ids : list Id)
  : result (list (option Object * slice)) :=
  match ids with
  | [] => Ok []
  | id :: ids' =>
      r ← match be_Get s (objKey acct typeName id) with
          | Err BackendErrNotFound => Ok (None, None)
          | Err e => Err e
          | Ok raw => obj ← decode (sbytes raw); Ok (obj, raw)
          end;
      rs ← get_each s decode acct typeName ids'; Ok (r :: rs)
  end.

Fixpoint decode_vals (decode : bytes -> result (option Object)) (vals : list slice) : result (list (option Object * slice)) :=
  match vals with
  | [] => Ok []
  | None :: vals' => rs ← decode_vals decode vals'; Ok ((None, None) :: rs)
  | Some raw :: vals' =>
      obj ← decode raw; rs ← decode_vals decode vals'; Ok ((obj, Some raw) :: rs)
  end.

(** With [MultiGetter]: chunks of [MaxMultiGetBatch] ids. *)
Fixpoint get_chunks (fuel : nat) (s : S) (mg : S -> list bytes -> result (list slice))
  (decode : bytes -> result (option Object)) (acct : Id) (typeName : bytes) (ids : list Id)
  : result (list (option Object * slice)) :=
  match fuel, ids with
  | _, [] => Ok []
  | O, _ => Err OutOfFuel
  | Datatypes.S fuel', _ =>
      vals ← mg s (map (objKey acct typeName) (take MaxMultiGetBatch ids));
      rs ← decode_vals decode vals;
      rs' ← get_chunks fuel' s mg decode acct typeName (drop MaxMultiGetBatch ids); Ok (rs ++ rs')
  end.

Definition getManyRaw (db : DB) (s : S) (acct : Id) (typeName : bytes) (ids : list Id) (wanted : option (gmap bytes bool))
  : result (list (option Object * slice)) :=
  match db_types db !! typeName with
  | None => Err ErrUnknownType
  | Some _ =>
      let decode := match wanted with None => decodeStored db | Some w => fun raw => decodeStoredSubset db raw w end in
      match be_MultiGet with
      | None => get_each s decode acct typeName ids
      | Some mg => get_chunks (length ids) s mg decode acct typeName ids
      end
  end.

Definition GetMany (db : DB) (s : S) (acct : Id) (typeName : bytes) (ids : list Id) : result (list (option Object)) :=
  rs ← getManyRaw db s acct typeName ids None; Ok rs.*1.

Definition GetManyProjected (db : DB) (s : S) (acct : Id) (typeName : bytes) (ids : list Id) (wanted : option (gmap bytes bool))
  : result (list (option Object)) :=
  rs ← getManyRaw db s acct typeName ids wanted; Ok rs.*1.

(** The callback of the id listings: stop once [limit] ids are held. *)
Definition collect_ids (limit : Z) : list Id -> bytes -> slice -> list Id * bool :=
  collect_limit limit (fun k _ => idFromObjKey k).

Definition AllIds (db : DB) (s : S) (acct : Id) (typeName : bytes) (max : Z) : result (list Id) :=
  match db_types db !! typeName with
  | None => Err ErrUnknownType
  | Some _ =>
      let '(start, end_) := prefixRange [acct; bs "o"; typeName] in
      be_Scan s start end_ false (collect_ids max) []
  end.

(** An 8-byte counter, or [absent] where the key does not exist. *)
Definition get_counter (s : S) (k : bytes) (absent : Z) : result Z :=
  match be_Get s k with
  | Err BackendErrNotFound => Ok absent
  | Err e => Err e
  | Ok raw => DecodeInt64 (sbytes raw)
  end.

Definition TypeState (db : DB) (s : S) (acct : Id) (typeName : bytes) : result bytes :=
  match db_types db !! typeName with
  | None => Err ErrUnknownType
  | Some _ => seq ← get_counter s (typeStateKey acct typeName) 0; Ok (FormatInt seq)
  end.

Definition Sequence (s : S) (acct : Id) : result Z := get_counter s (seqKey acct) 0.

(** The indexed property a query names. *)
Definition indexed_prop (db : DB) (typeName prop : bytes) : result (Type_ * Property) :=
  match db_types db !! typeName with
  | None => Err ErrUnknownType
  | Some t =>
      match t_Properties t !! prop with
      | Some p => if p_Indexed p then Ok (t, p) else Err (Errorf "property is not indexed")
      | None => Err (Errorf "property is not indexed")
      end
  end.

Definition IdsWhereEqual (db : DB) (s : S) (acct : Id) (typeName prop : bytes) (value : bytes) (limit : Z)
  : result (list Id) :=
  tp ← indexed_prop db typeName prop;
  v ← indexValue tp.2 value;
  let '(start, end_) := prefixRange [acct; bs "x"; typeName; prop; v] in
  be_Scan s start end_ false
    (fun ids k _ => let ids' := ids ++ [idFromObjKey k] in (ids', (limit =? 0) || (Z.of_nat (length ids') <? limit))) [].

Definition IdsWhereAtMost (db : DB) (s : S) (acct : Id) (typeName prop : bytes) (max : option bytes) (limit : Z)
  : result (list Id) :=
  tp ← indexed_prop db typeName prop;
  let '(start, end0) := prefixRange [acct; bs "x"; typeName; prop] in
  end_ ← match max with
         | None => Ok end0
         | Some m => v ← indexValue tp.2 m; Ok (prefixRange [acct; bs "x"; typeName; prop; v]).2
         end;
  be_Scan s start end_ false (collect_ids limit) [].

Definition IdsWhereAtLeast (db : DB) (s : S) (acct : Id) (typeName prop : bytes) (min : option bytes) (limit : Z)
  : result (list Id) :=
  tp ← indexed_prop db typeName prop;
  let '(start0, end_) := prefixRange [acct; bs "x"; typeName; prop] in
  start ← match min with
          | None => Ok start0
          | Some m => v ← indexValue tp.2 m; Ok (prefixRange [acct; bs "x"; typeName; prop; v]).1
          end;
  be_Scan s start end_ false (collect_ids limit) [].

Definition TaggedAccounts (s : S) (tag : bytes) : result (list Id) :=
  if bool_decide (tag = []) then Err (Errorf "empty tag name")
  else
    let '(start, end_) := prefixRange [bs "!tag"; tag] in
    let prefixLen := length (key [bs "!tag"; tag]) in
    be_Scan s start end_ false
      (fun accts k _ =>
         (if (prefixLen + 2 <? length k)%nat
          then accts ++ [take (length k - 2 - prefixLen) (drop prefixLen k)] else accts, true)) [].

Definition Accounts (s : S) : result (list Id) := TaggedAccounts s tagExists.

(** ** Update methods *)

Section update_methods.
Variable db : DB.
Variable s : S. (* the store the Update reads; the lease keeps other writers of the account out *)
Variable acct : Id.

Definition getCommitted (u : Update) (typeName : bytes) (id : Id) : result (Update * option Object) :=
  let k := stagedKey typeName id in
  match u_read u !! k with
  | Some r => Ok (u, r_obj r)
  | None =>
      r ← getRaw db s acct typeName id;
      Ok (set_read u k (mkRead r.1 r.2), r.1)
  end.

Definition u_Get (u : Update) (typeName : bytes) (id : Id) : result (Update * option Object) :=
  match u_staged u !! stagedKey typeName id with
  | Some st => match st_new st with None => Err ErrNotFound | Some o => Ok (u, Some o) end
  | None => getCommitted u typeName id
  end.

(** The ids not answered by the staged records or the read cache. *)
Fixpoint split_known (u : Update) (typeName : bytes) (ids : list Id) (out : gmap Id (option Object)) (remaining : list Id)
  : gmap Id (option Object) * list Id :=
  match ids with
  | [] => (out, remaining)
  | id :: ids' =>
      match u_staged u !! stagedKey typeName id with
      | Some st =>
          split_known u typeName ids' (match st_new st with Some o => <[id := Some o]> out | None => out end) remaining
      | None =>
          match u_read u !! stagedKey typeName id with
          | Some r => split_known u typeName ids' (<[id := r_obj r]> out) remaining
          | None => split_known u typeName ids' out (remaining ++ [id])
          end
      end
  end.

Definition cache_read (typeName : bytes) (acc : Update * gmap Id (option Object)) (x : Id * (option Object * slice))
  : Update * gmap Id (option Object) :=
  let '(u, out) := acc in
  let '(id, (obj, raw)) := x in
  match obj with
  | None => (u, out)
  | Some _ => (set_read u (stagedKey typeName id) (mkRead obj raw), <[id := obj]> out)
  end.

Definition u_GetMany (u : Update) (typeName : bytes) (ids : list Id) : result (Update * gmap Id (option Object)) :=
  let '(out, remaining) := split_known u typeName ids ∅ [] in
  match remaining with
  | [] => Ok (u, out)
  | _ =>
      rs ← getManyRaw db s acct typeName remaining None;
      Ok (fold_left (cache_read typeName) (zip remaining rs) (u, out))
  end.

(** [rnd]: the bytes [crypto/rand] yields; [now]: the clock in milliseconds. *)
Definition newId (u : Update) (now : Z) (rnd : bytes) : Update * Id :=
  match db_idScheme db with
  | SchemeSequence => (set_createSeq u (u_createSeq u + 1), NewSequenceId (u_sequence u) (u_createSeq u) rnd)
  | SchemeRandom => (u, NewId rnd)
  | SchemeULID | SchemeOther _ => (u, NewULID now rnd)
  end.

Fixpoint check_kinds (t : Type_) (prior : option Object) (l : list (bytes * bytes)) : result unit :=
  match l with
  | [] => Ok tt
  | (name, raw) :: l' =>
      if bool_decide (name = bs "id") then check_kinds t prior l'
      else
        match t_Properties t !! name with
        | None => Err (Errorf "unknown property")
        | Some p =>
            if match prior with Some o => bool_decide (raw = default [] (o !! name)) | None => false end
            then check_kinds t prior l'
            else _ ← CheckValue p raw; check_kinds t prior l'
        end
  end.

Definition checkKinds (t : Type_) (obj : Object) (prior : option Object) : result unit :=
  check_kinds t prior (range_map obj).

(** [json.Marshal(id)]: the id alphabet needs no escapes. *)
Definition marshal_id (id : Id) : bytes := [x22] ++ id ++ [x22].

Definition Create (u : Update) (now : Z) (rnd : bytes) (typeName : bytes) (obj : Object) : result (Update * Id) :=
  match db_types db !! typeName with
  | None => Err ErrUnknownType
  | Some t =>
      match obj !! bs "id" with
      | Some _ => Err (Errorf "create must not carry an id")
      | None =>
          _ ← checkKinds t obj None;
          let '(u1, id) := newId u now rnd in
          Ok (set_staged u1 (mkStaged typeName id None (Some (<[bs "id" := marshal_id id]> obj)) true false), id)
      end
  end.

(** [jsonscan.String(obj["id"])] is [id]; an absent member reads as empty
    bytes. *)
Definition id_matches (obj : Object) (id : Id) : bool :=
  match JString (default [] (obj !! bs "id")) with Some v => bool_decide (v = id) | None => false end.

Definition Put (u : Update) (typeName : bytes) (id : Id) (obj : Object) : result Update :=
  match db_types db !! typeName with
  | None => Err ErrUnknownType
  | Some t =>
      if negb (id_matches obj id) then Err (Errorf "put object id mismatch")
      else
        match u_staged u !! stagedKey typeName id with
        | Some st =>
            match st_new st with
            | None => Err ErrNotFound
            | Some cur =>
                _ ← checkKinds t obj (Some cur);
                Ok (set_staged u (mkStaged (st_typeName st) (st_id st) (st_old st) (Some obj) (st_created st) false))
            end
        | None =>
            uo ← getCommitted u typeName id;
            _ ← checkKinds t obj uo.2;
            Ok (set_staged uo.1 (mkStaged typeName id uo.2 (Some obj) false false))
        end
  end.

(** The names whose raw values differ between two versions of a record. *)
Definition diffProps (old new : option Object) : list bytes :=
  let o := default ∅ old in
  let n := default ∅ new in
  (filter (fun nr : bytes * bytes => o !! nr.1 <> Some nr.2) (range_map n)).*1
  ++ (filter (fun nr : bytes * bytes => n !! nr.1 = None) (range_map o)).*1.

Definition is_internal (t : Type_) (name : bytes) : bool :=
  match t_Properties t !! name with Some p => p_Internal p | None => false end.

Definition PutInternal (u : Update) (typeName : bytes) (id : Id) (obj : Object) : result Update :=
  match db_types db !! typeName with
  | None => Err ErrUnknownType
  | Some t =>
      if negb (id_matches obj id) then Err (Errorf "put object id mismatch")
      else
        up ← u_Get u typeName id;
        _ ← checkKinds t obj up.2;
        if negb (forallb (is_internal t) (diffProps up.2 (Some obj))) then Err (Errorf "PutInternal changes non-Internal property")
        else
          match u_staged up.1 !! stagedKey typeName id with
          | Some st => Ok (set_staged up.1 (mkStaged (st_typeName st) (st_id st) (st_old st) (Some obj) (st_created st) (st_quiet st)))
          | None => Ok (set_staged up.1 (mkStaged typeName id up.2 (Some obj) false true))
          end
  end.

Definition Destroy (u : Update) (typeName : bytes) (id : Id) : result Update :=
  match db_types db !! typeName with
  | None => Err ErrUnknownType
  | Some _ =>
      match u_staged u !! stagedKey typeName id with
      | Some st =>
          match st_new st with
          | None => Err ErrNotFound
          | Some _ => Ok (set_staged u (mkStaged (st_typeName st) (st_id st) (st_old st) None (st_created st) (st_quiet st)))
          end
      | None =>
          uo ← getCommitted u typeName id;
          Ok (set_staged uo.1 (mkStaged typeName id uo.2 None false false))
      end
  end.

Definition BumpState (u : Update) (typeName : bytes) : result Update :=
  match db_types db !! typeName with None => Err ErrUnknownType | Some _ => Ok (set_bumped u typeName) end.

Definition SetAccountTag (u : Update) (tag : bytes) : result Update :=
  if bool_decide (tag = []) then Err (Errorf "empty tag name") else Ok (set_tag u tag true).

Definition ClearAccountTag (u : Update) (tag : bytes) : result Update :=
  if bool_decide (tag = []) then Err (Errorf "empty tag name")
  else if bool_decide (tag = tagExists) then Err (Errorf "the account registry tag cannot be cleared")
  else Ok (set_tag u tag false).

(** The committed matches overlaid with the staged records: [matches] says
    whether a staged object is one. *)
Fixpoint overlay (typeName : bytes) (matches : Object -> result bool) (sts : list stagedRecord) (set : gset Id)
  : result (gset Id) :=
  match sts with
  | [] => Ok set
  | st :: sts' =>
      if negb (bool_decide (st_typeName st = typeName)) then overlay typeName matches sts' set
      else
        let set' := set ∖ {[ st_id st ]} in
        match st_new st with
        | None => overlay typeName matches sts' set'
        | Some o =>
            m ← matches o;
            overlay typeName matches sts' (if m : bool then set' ∪ {[ st_id st ]} else set')
        end
  end.

Definition staged_list (u : Update) : list stagedRecord := (map_to_list (u_staged u)).*2.

Definition u_IdsWhereEqual (u : Update) (typeName prop value : bytes) : result (list Id) :=
  tp ← indexed_prop db typeName prop;
  want ← indexValue tp.2 value;
  committed ← IdsWhereEqual db s acct typeName prop value 0;
  set ← overlay typeName
          (fun o => match o !! prop with
                    | None => Ok false
                    | Some raw => got ← indexValue tp.2 raw; Ok (bool_decide (got = want))
                    end)
          (staged_list u) (list_to_set committed);
  Ok (sort_strings (elements set)).
End update_methods.
End operations.
End ObjectDB.
