(* ===== verification/SetIndex.v ===== *)
(** * SetIndex: the membership index (core/objectdb/setindex.go)

    One index entry per member of a composite property, maintained in the
    commit of the record, and the lookups that read it. *)

From S2P Require Import Prelude GoLib Keyenc Backend Jsonscan Jmap Descriptor Keys ObjectDB.

Module SetIndex.
Import Keyenc Backend Jsonscan Jmap Descriptor Keys ObjectDB.

(** [slices.Contains] *)
Definition contains (l : list bytes) (x : bytes) : bool := bool_decide (x ∈ l).

(** Keep the first occurrence of each name, as the callback of [EachKey] does. *)
Definition add_new (out : list bytes) (k : bytes) : list bytes := if contains out k then out else out ++ [k].

(** [raw = None] is a [nil] value: an absent property. *)
Definition setMembers (p : Property) (raw : option bytes) : result (list bytes) :=
  match raw with
  | None => Ok []
  | Some raw =>
      match p_Kind p with
      | KindObject => ks ← EachKey raw; Ok (fold_left add_new ks [])
      | KindArray => EachString raw
      | _ => Err (Errorf "kind is not set-indexable")
      end
  end.

Section operations.
Context `{MapRange, TimeParse, CaseFold}.

(** The operations for one property: departed members, then arrived ones. *)
Definition member_ops (acct : Id) (t : Type_) (id : Id) (name : bytes) (oldM newM : list bytes) (batch : Batch) : Batch :=
  let b1 := fold_left (fun b m => if contains newM m then b
                                  else Delete b (idxKey acct (t_Name t) name m [] id)) oldM batch in
  fold_left (fun b m => if contains oldM m then b
                        else Set_ b (idxKey acct (t_Name t) name m [] id) None) newM b1.

Definition set_index_prop (acct : Id) (t : Type_) (id : Id) (old new : option Object) (batch : Batch) (np : bytes * Property)
  : result Batch :=
  let '(name, p) := np in
  if negb (p_SetIndexed p) then Ok batch
  else
    let oldRaw := o ← old; o !! name in
    let newRaw := n ← new; n !! name in
    if bool_decide (sbytes oldRaw = sbytes newRaw) then Ok batch
    else
      oldM ← setMembers p oldRaw;
      newM ← setMembers p newRaw;
      Ok (member_ops acct t id name oldM newM batch).

Fixpoint fold_props (f : Batch -> bytes * Property -> result Batch) (ps : list (bytes * Property)) (batch : Batch) : result Batch :=
  match ps with
  | [] => Ok batch
  | np :: ps' => b ← f batch np; fold_props f ps' b
  end.

Definition setIndexOps (batch : Batch) (acct : Id) (t : Type_) (id : Id) (old new : option Object) : result Batch :=
  fold_props (set_index_prop acct t id old new) (range_map (t_Properties t)) batch.

(** ** Lookups *)

Context {S : Type} `{Backend S}.

Definition set_indexed_prop (db : DB) (typeName prop : bytes) : result Property :=
  match db_types db !! typeName with
  | None => Err ErrUnknownType
  | Some t =>
      match t_Properties t !! prop with
      | Some p => if p_SetIndexed p then Ok p else Err (Errorf "property is not set-indexed")
      | None => Err (Errorf "property is not set-indexed")
      end
  end.

Definition IdsWhereMember (db : DB) (s : S) (acct : Id) (typeName prop member : bytes) : result (list Id) :=
  _ ← set_indexed_prop db typeName prop;
  let '(start, end_) := prefixRange [acct; bs "x"; typeName; prop; member] in
  be_Scan s start end_ false (fun ids k _ => (ids ++ [idFromObjKey k], true)) [].

Definition is_member (p : Property) (prop member : bytes) (o : Object) : result bool :=
  ms ← setMembers p (o !! prop); Ok (contains ms member).

Definition u_IdsWhereMember (db : DB) (s : S) (acct : Id) (u : Update) (typeName prop member : bytes) : result (list Id) :=
  p ← set_indexed_prop db typeName prop;
  committed ← IdsWhereMember db s acct typeName prop member;
  set ← overlay typeName (is_member p prop member) (staged_list u) (list_to_set committed);
  Ok (sort_strings (elements set)).

(** The staged ids of the type, and the smallest staged id that is a member. *)
Fixpoint staged_best (p : Property) (typeName prop member : bytes) (sts : list stagedRecord)
  (ids : gset Id) (best : option Id) : result (gset Id * option Id) :=
  match sts with
  | [] => Ok (ids, best)
  | st :: sts' =>
      if negb (bool_decide (st_typeName st = typeName)) then staged_best p typeName prop member sts' ids best
      else
        let ids' := ids ∪ {[ st_id st ]} in
        match st_new st with
        | None => staged_best p typeName prop member sts' ids' best
        | Some o =>
            m ← is_member p prop member o;
            let best' :=
              if m : bool then
                match best with
                | None => Some (st_id st)
                | Some b => if blt (st_id st) b then Some (st_id st) else Some b
                end
              else best in
            staged_best p typeName prop member sts' ids' best'
        end
  end.

Definition LowestMemberId (db : DB) (s : S) (acct : Id) (u : Update) (typeName prop member : bytes) : result (option Id) :=
  p ← set_indexed_prop db typeName prop;
  sb ← staged_best p typeName prop member (staged_list u) ∅ None;
  let '(start, end_) := prefixRange [acct; bs "x"; typeName; prop; member] in
  committed ← be_Scan s start end_ false
                (fun found k _ =>
                   let id := idFromObjKey k in
                   if bool_decide (id ∈ sb.1) then (found, true) else (Some id, false)) None;
  Ok match committed, sb.2 with
     | Some c, Some b => if blt c b then Some c else Some b
     | Some c, None => Some c
     | None, Some b => Some b
     | None, None => None
     end.
End operations.
End SetIndex.
