(* ===== verification/Commit.v ===== *)
(** * Commit: one atomic batch per Update (core/objectdb: buildBatch, update)

    The batch a commit writes: record writes, index updates, blob references
    and hints, account tags, type states, the change log entry, the sequence
    bump and the fence. *)

From S2P Require Import Prelude GoLib Keyenc Backend Jsonscan Jmap Descriptor Keys ObjectDB SetIndex.

Module Commit.
Import Keyenc Backend Jsonscan Jmap Descriptor Keys ObjectDB SetIndex.

Section operations.
Context `{MapRange, TimeParse, CaseFold, LogCodec}.

(** ** Property indexes *)

Fixpoint order_segs (t : Type_) (obs : list bytes) (obj : option Object) : result (list bytes) :=
  match obs with
  | [] => Ok []
  | ob :: obs' =>
      v ← match default ∅ obj !! ob with
          | None => Ok []
          | Some raw => indexValue (default zeroProperty (t_Properties t !! ob)) raw
          end;
      vs ← order_segs t obs' obj; Ok (v :: vs)
  end.

Definition orderSegs (t : Type_) (p : Property) (obj : option Object) : result (list bytes) :=
  order_segs t (p_OrderBy p) obj.

(** The encoded value of a property of a record, [None] where it has none. *)
Definition prop_value (p : Property) (name : bytes) (obj : option Object) : result (option bytes) :=
  match obj with
  | None => Ok None
  | Some o => match o !! name with None => Ok None | Some raw => v ← indexValue p raw; Ok (Some v) end
  end.

Definition index_prop (acct : Id) (t : Type_) (id : Id) (old new : option Object) (batch : Batch) (np : bytes * Property)
  : result Batch :=
  let '(name, p) := np in
  if negb (p_Indexed p) then Ok batch
  else
    oldVal ← prop_value p name old;
    newVal ← prop_value p name new;
    match oldVal, newVal with
    | None, None => Ok batch
    | None, Some nv => ord ← orderSegs t p new; Ok (Set_ batch (idxKey acct (t_Name t) name nv ord id) None)
    | Some ov, None => ord ← orderSegs t p old; Ok (Delete batch (idxKey acct (t_Name t) name ov ord id))
    | Some ov, Some nv =>
        if bool_decide (ov = nv) then Ok batch
        else
          ord ← orderSegs t p new;
          Ok (Set_ (Delete batch (idxKey acct (t_Name t) name ov ord id)) (idxKey acct (t_Name t) name nv ord id) None)
    end.

Definition indexOps (batch : Batch) (acct : Id) (t : Type_) (id : Id) (old new : option Object) : result Batch :=
  fold_props (index_prop acct t id old new) (range_map (t_Properties t)) batch.

(** ** Blob references *)

Definition add_ref (obj : Object) (refs : gmap Id unit) (np : bytes * Property) : gmap Id unit :=
  let '(name, p) := np in
  if negb (p_BlobRef p) then refs
  else
    match obj !! name with
    | None => refs
    | Some raw => match JString raw with None => refs | Some v => <[v := tt]> refs end
    end.

Definition blobRefsOf (t : Type_) (obj : option Object) : gmap Id unit :=
  fold_left (add_ref (default ∅ obj)) (range_map (t_Properties t)) ∅.

Definition has_ref (refs : gmap Id unit) (b : Id) : bool := match refs !! b with Some _ => true | None => false end.

Definition refOps (batch : Batch) (acct : Id) (t : Type_) (id : Id) (old new : option Object) : Batch :=
  let oldRefs := blobRefsOf t old in
  let newRefs := blobRefsOf t new in
  let b1 := fold_left (fun b (r : Id * unit) =>
              if has_ref newRefs r.1 then b
              else Set_ (Delete b (refKey acct r.1 (t_Name t) id)) (pendingKey acct r.1) None)
              (range_map oldRefs) batch in
  fold_left (fun b (r : Id * unit) =>
    if has_ref oldRefs r.1 then b
    else Delete (Set_ b (refKey acct r.1 (t_Name t) id) None) (pendingKey acct r.1))
    (range_map newRefs) b1.

(** ** The batch *)

(** The pre-image check of assertion mode: every cached read still equals what
    its stored bytes decode to. *)
Definition read_pristine (db : DB) (r : readRecord) : result unit :=
  pristine ← decodeStored db (sbytes (r_raw r));
  if bool_decide (default ∅ pristine = default ∅ (r_obj r)) then Ok tt
  else Err (Errorf "object was modified after Get returned it").

Fixpoint verify_reads (db : DB) (l : list readRecord) : result unit :=
  match l with [] => Ok tt | r :: l' => _ ← read_pristine db r; verify_reads db l' end.

Definition verifyReads (db : DB) (u : Update) : result unit := verify_reads db ((map_to_list (u_read u)).*2).

Definition zeroLogType : logTypeEntry := mkLogType [] [] [] None.

(** [sort.Slice] over the staged keys: by type, then by id. *)
Definition reckey_le (a b : recKey) : Prop :=
  bytes_lt a.1 b.1 \/ (a.1 = b.1 /\ bytes_le a.2 b.2).
#[export] Instance reckey_le_dec : RelDecision reckey_le.
Proof. intros a b. unfold reckey_le. apply _. Defined.

Definition sorted_staged (u : Update) : list stagedRecord :=
  omap (fun k => u_staged u !! k) (merge_sort reckey_le (map_to_list (u_staged u)).*1).

Definition mergeProps (a b : list bytes) : list bytes := sort_strings (remove_dups (a ++ b)).

(** The three index families of one record, in the order of the source. *)
Definition record_indexes (batch : Batch) (acct : Id) (t : Type_) (id : Id) (old new : option Object) : result Batch :=
  b1 ← indexOps batch acct t id old new;
  setIndexOps (refOps b1 acct t id old new) acct t id old new.

(** One staged record: its operations and its part of the log entry. *)
Definition stage_record (db : DB) (acct : Id) (acc : Batch * gmap bytes logTypeEntry) (st : stagedRecord)
  : result (Batch * gmap bytes logTypeEntry) :=
  let '(batch, types) := acc in
  let t := default (mkType [] [] ∅ false) (db_types db !! st_typeName st) in
  if st_created st && bool_decide (st_new st = None) then Ok (batch, types)
  else
    let te := default zeroLogType (types !! st_typeName st) in
    let ok := objKey acct (st_typeName st) (st_id st) in
    match st_new st with
    | None =>
        b ← record_indexes (Delete batch ok) acct t (st_id st) (st_old st) None;
        Ok (b, <[st_typeName st := mkLogType (lt_Created te) (lt_Updated te) (lt_Destroyed te ++ [st_id st]) (lt_UpdatedProps te)]> types)
    | Some new =>
        raw ← encodeObject new;
        if st_created st then
          b ← record_indexes (Set_ batch ok (Some raw)) acct t (st_id st) None (Some new);
          Ok (b, <[st_typeName st := mkLogType (lt_Created te ++ [st_id st]) (lt_Updated te) (lt_Destroyed te) (lt_UpdatedProps te)]> types)
        else
          b ← record_indexes (Set_ batch ok (Some raw)) acct t (st_id st) (st_old st) (Some new);
          if st_quiet st then Ok (b, <[st_typeName st := te]> types)
          else
            let visible := List.filter (fun n => negb (is_internal t n)) (diffProps (st_old st) (Some new)) in
            Ok (b, <[st_typeName st := mkLogType (lt_Created te) (lt_Updated te ++ [st_id st]) (lt_Destroyed te)
                                         (Some (mergeProps (default [] (lt_UpdatedProps te)) visible))]> types)
    end.

Fixpoint stage_records (db : DB) (acct : Id) (sts : list stagedRecord) (acc : Batch * gmap bytes logTypeEntry)
  : result (Batch * gmap bytes logTypeEntry) :=
  match sts with [] => Ok acc | st :: sts' => acc' ← stage_record db acct acc st; stage_records db acct sts' acc' end.

Definition entry_empty (te : logTypeEntry) : bool :=
  (length (lt_Created te) + length (lt_Updated te) + length (lt_Destroyed te) =? 0)%nat.

(** The account tags of the commit: the registry tag, then the staged ones in
    order of name. *)
Definition tag_ops (acct : Id) (tags : gmap bytes bool) : Batch :=
  fold_left (fun b tag => if default false (tags !! tag) then Set_ b (tagKey tag acct) None
                          else Delete b (tagKey tag acct))
    (sort_strings (map_to_list tags).*1) (Set_ [] (tagKey tagExists acct) None).

Definition state_ops (acct : Id) (sequence : Z) (names : list bytes) (batch : Batch) : Batch :=
  fold_left (fun b n => Set_ b (typeStateKey acct n) (Some (EncodeInt64 sequence))) names batch.

Definition buildBatch (db : DB) (acct : Id) (u : Update) (sequence now : Z) : result (Batch * list bytes) :=
  _ ← (if db_verifyPreImages db then verifyReads db u else Ok tt);
  r ← stage_records db acct (sorted_staged u) (tag_ops acct (u_tagOps u), ∅);
  let '(batch, types) := r in
  let live := filter (fun nt : bytes * logTypeEntry => entry_empty nt.2 = false) types in
  let recs := (range_map live).*1 in
  let bumps := (filter (fun n : bytes * unit => live !! n.1 = None) (range_map (u_bumped u))).*1 in
  let touched := recs ++ bumps in
  let batch1 := state_ops acct sequence touched batch in
  match touched with
  | [] => Ok (batch1, [])
  | _ =>
      if bool_decide (live = ∅) then Ok (batch1, touched)
      else Ok (Set_ batch1 (logKey acct sequence) (Some (marshalLog (mkLogEntry live now))), touched)
  end.

(** ** The commit *)

Context {S : Type} `{Backend S}.

(** What a commit leaves behind: the store, the new states, and what the
    notifier is given. *)
Record Committed := mkCommitted {
  c_store : S;
  c_states : gmap bytes bytes;
  c_published : gmap bytes bytes;
}.

Definition idle (u : Update) : bool :=
  bool_decide (u_staged u = ∅) && bool_decide (u_bumped u = ∅) && bool_decide (u_tagOps u = ∅).

(** [fn] is the caller's function over the Update; [fence] appends the lease's
    assertion; [now] is the commit clock in milliseconds. *)
Definition update (db : DB) (s : S) (acct : Id) (fence : Batch -> Batch) (now : Z) (fn : Update -> result Update)
  : result Committed :=
  current ← Sequence s acct;
  let sequence := int64 (current + 1) in
  u ← fn (newUpdate sequence);
  if idle u then Ok (mkCommitted s ∅ ∅)
  else
    bt ← buildBatch db acct u sequence now;
    let batch := fence (Set_ bt.1 (seqKey acct) (Some (EncodeInt64 sequence))) in
    s' ← be_WriteBatch s batch;
    let states : gmap bytes bytes := list_to_map (map (fun t => (t, FormatInt sequence)) bt.2) in
    let pub := filter (fun ns : bytes * bytes => match db_types db !! ns.1 with Some t => t_Internal t | None => false end = false) states in
    Ok (mkCommitted s' states pub).
End operations.
End Commit.
