(* ===== verification/Indexing.v ===== *)
(** * Indexing: the index maintenance of a commit is exact

    For one record, the operations [indexOps], [refOps] and [setIndexOps] put
    into a batch turn exactly the index entries of the record's old version
    into those of its new one, and touch nothing else but the pending hints of
    blobs. *)

From S2P Require Import Prelude GoLib Keyenc Backend Batches Jsonscan Jmap Descriptor Keys ObjectDB SetIndex Commit.

Module Indexing.
Import Keyenc Backend Batches Jsonscan Jmap Descriptor Keys ObjectDB SetIndex Commit.

(** ** Footprints and entries of a record *)

Section record.
Context `{MR : MapRange, TP : TimeParse, CF : CaseFold}.
Variable acct : Id.
Variable t : Type_.
Variable id : Id.

Definition is_pending (k : bytes) : Prop := exists b, k = pendingKey acct b.

(** The index keys of property [name] that belong to record [id]. *)
Definition idx_fp (name k : bytes) : Prop :=
  exists rest, k = Key ([acct; bs "x"; t_Name t; name] ++ rest ++ [id]).
Definition ref_fp (k : bytes) : Prop := exists b, k = refKey acct b (t_Name t) id.

Definition idx_entry (name : bytes) (p : Property) (o : option Object) (k : bytes) : Prop :=
  exists v ord, prop_value p name o = Ok (Some v) /\ orderSegs t p o = Ok ord /\ k = idxKey acct (t_Name t) name v ord id.
Definition set_entry (name : bytes) (p : Property) (o : option Object) (k : bytes) : Prop :=
  exists ms m, setMembers p (o ≫= (.!! name)) = Ok ms /\ m ∈ ms /\ k = idxKey acct (t_Name t) name m [] id.
Definition ref_entry (o : option Object) (k : bytes) : Prop :=
  exists b, has_ref (blobRefsOf t o) b = true /\ k = refKey acct b (t_Name t) id.

Lemma idxKey_fp name v ord : idx_fp name (idxKey acct (t_Name t) name v ord id).
Proof. exists (v :: ord). done. Qed.

Lemma idx_fp_inj name name' k : idx_fp name k -> idx_fp name' k -> name = name'.
Proof. intros [r ->] [r' E]. apply Key_injective in E. by injection E. Qed.

Lemma idx_ref_disjoint name k : idx_fp name k -> ref_fp k -> False.
Proof. intros [r ->] [b E]. apply Key_injective in E. by injection E. Qed.

Lemma idx_not_pending name k : idx_fp name k -> ~ is_pending k.
Proof. intros [r ->] [b E]. apply Key_injective in E. by injection E. Qed.
Lemma ref_not_pending k : ref_fp k -> ~ is_pending k.
Proof. intros [r ->] [b E]. apply Key_injective in E. by injection E. Qed.

Lemma idxKey_inj name v ord v' ord' :
  idxKey acct (t_Name t) name v ord id = idxKey acct (t_Name t) name v' ord' id -> v = v' /\ ord = ord'.
Proof.
  intros E. apply Key_injective in E. injection E as -> E. split; [done|]. by apply app_inj_2 in E as [-> _].
Qed.

(** The order siblings of an indexed property do not change under a record:
    they are declared Immutable, and the runtime enforces that. *)
Definition order_kept (name : bytes) (p : Property) (old new : option Object) : Prop :=
  forall v v', prop_value p name old = Ok (Some v) -> prop_value p name new = Ok (Some v') ->
  orderSegs t p old = orderSegs t p new.

Lemma Set_app b k v : Set_ b k v = b ++ [OpSet k v].
Proof. done. Qed.
Lemma Delete_app b k : Delete b k = b ++ [OpDelete k].
Proof. done. Qed.

(** ** One indexed property *)

Lemma index_prop_realises old new batch name p b :
  p_Indexed p = true -> order_kept name p old new ->
  index_prop acct t id old new batch (name, p) = Ok b ->
  exists ops, b = batch ++ ops /\ realises is_pending ops (idx_fp name) (idx_entry name p old) (idx_entry name p new).
Proof.
  intros Hi Hord. unfold index_prop. rewrite Hi. cbn [negb].
  intros (ov & Hov & (nv & Hnv & Hr)%result_bind_Ok)%result_bind_Ok.
  destruct ov as [ov|], nv as [nv|].
  - specialize (Hord ov nv Hov Hnv). destruct (bool_decide (ov = nv)) eqn:E.
    + injection Hr as <-. apply bool_decide_eq_true in E as ->. exists []. rewrite app_nil_r. split; [done|].
      eapply realises_ext; [done|..|apply (realises_nil _ _ (idx_entry name p old))]; [done|].
      intros k _. unfold idx_entry. rewrite Hov, Hnv, Hord. done.
    + apply bool_decide_eq_false in E. apply result_bind_Ok in Hr as (ord & Ho & [= <-]).
      set (k1 := idxKey acct (t_Name t) name ov ord id). set (k2 := idxKey acct (t_Name t) name nv ord id).
      exists (dels [k1] ++ sets [k2]). split; [by rewrite Set_app, Delete_app, <- app_assoc|].
      apply realises_diff; [intros k ->%list_elem_of_singleton; apply idxKey_fp..|].
      intros k Hk. rewrite !list_elem_of_singleton. unfold idx_entry. rewrite Hov, Hnv, Hord. split.
      * intros (v & o & [= <-] & Ho' & ->). left. by assert (o = ord) as -> by congruence.
      * intros [-> |[(v & o & [= <-] & Ho' & ->) Hne]]; [by exists nv, ord|].
        exfalso. apply Hne. by assert (o = ord) as -> by congruence.
  - apply result_bind_Ok in Hr as (ord & Ho & [= <-]). set (k1 := idxKey acct (t_Name t) name ov ord id).
    exists (dels [k1] ++ sets []). split; [by rewrite app_nil_r|].
    apply realises_diff; [intros k ->%list_elem_of_singleton; apply idxKey_fp|intros k Hk; set_solver|].
    intros k Hk. rewrite list_elem_of_singleton. unfold idx_entry. rewrite Hov, Hnv. split; [by intros (? & ? & ? & _)|].
    intros [Hin|[(v & o & [= <-] & Ho' & ->) Hne]]; [set_solver|]. exfalso. apply Hne. unfold k1. congruence.
  - apply result_bind_Ok in Hr as (ord & Ho & [= <-]). set (k2 := idxKey acct (t_Name t) name nv ord id).
    exists (dels [] ++ sets [k2]). split; [done|].
    apply realises_diff; [intros k Hk; set_solver|intros k ->%list_elem_of_singleton; apply idxKey_fp|].
    intros k Hk. rewrite list_elem_of_singleton. unfold idx_entry. rewrite Hov, Hnv. split.
    + intros (v & o & [= <-] & Ho' & ->). left. unfold k2. congruence.
    + intros [-> |[(? & ? & ? & _) _]]; [|done]. by exists nv, ord.
  - injection Hr as <-. exists []. rewrite app_nil_r. split; [done|].
    eapply realises_ext; [done|..|apply (realises_nil _ _ (idx_entry name p old))]; [done|].
    intros k _. unfold idx_entry. rewrite Hov, Hnv. split; intros (? & ? & ? & _); done.
Qed.

(** ** One set-indexed property *)

Lemma fold_members_del (f : bytes -> bytes) (other : list bytes) l batch :
  fold_left (fun b m => if contains other m then b else Delete b (f m)) l batch
  = batch ++ dels (map f (List.filter (fun m => negb (contains other m)) l)).
Proof.
  revert batch. induction l as [|m l IH]; intros batch; cbn; [by rewrite app_nil_r|].
  rewrite IH. destruct (contains other m); cbn; [done|]. rewrite Delete_app. by rewrite <- app_assoc.
Qed.

Lemma fold_members_set (f : bytes -> bytes) (other : list bytes) l batch :
  fold_left (fun b m => if contains other m then b else Set_ b (f m) None) l batch
  = batch ++ sets (map f (List.filter (fun m => negb (contains other m)) l)).
Proof.
  revert batch. induction l as [|m l IH]; intros batch; cbn; [by rewrite app_nil_r|].
  rewrite IH. destruct (contains other m); cbn; [done|]. rewrite Set_app. by rewrite <- app_assoc.
Qed.

Lemma elem_of_keep (f : bytes -> bytes) other l k :
  k ∈ map f (List.filter (fun m => negb (contains other m)) l) <-> exists m, k = f m /\ m ∈ l /\ m ∉ other.
Proof.
  rewrite list_elem_of_fmap. apply exist_proper. intros m. rewrite list_elem_of_In, filter_In, <- list_elem_of_In.
  unfold contains. rewrite negb_true_iff, bool_decide_eq_false. done.
Qed.

(** A stored value is never empty: with this, equal bytes are equal values. *)
Definition nonempty_value (name : bytes) (o : option Object) : Prop := o ≫= (.!! name) <> Some [].

Lemma set_index_prop_realises old new batch name p b :
  p_SetIndexed p = true -> nonempty_value name old -> nonempty_value name new ->
  set_index_prop acct t id old new batch (name, p) = Ok b ->
  exists ops, b = batch ++ ops /\ realises is_pending ops (idx_fp name) (set_entry name p old) (set_entry name p new).
Proof.
  intros Hi Hne Hne' Hr. unfold set_index_prop in Hr. rewrite Hi in Hr. cbn [negb] in Hr. unfold nonempty_value in *.
  change (o ← old; o !! name) with (old ≫= (.!! name)) in Hr. change (n ← new; n !! name) with (new ≫= (.!! name)) in Hr.
  destruct (bool_decide _) eqn:E.
  - injection Hr as <-. apply bool_decide_eq_true in E. exists []. rewrite app_nil_r. split; [done|].
    assert (Heq : old ≫= (.!! name) = new ≫= (.!! name)).
    { destruct (old ≫= _) as [a|], (new ≫= _) as [b|]; cbn in *; congruence. }
    eapply realises_ext; [done|..|apply (realises_nil _ _ (set_entry name p old))]; [done|].
    intros k _. unfold set_entry. by rewrite Heq.
  - apply result_bind_Ok in Hr as (oldM & Ho & (newM & Hn & [= <-])%result_bind_Ok).
    unfold member_ops. rewrite fold_members_del, fold_members_set, <- app_assoc.
    set (f := fun m => idxKey acct (t_Name t) name m [] id).
    eexists. split; [done|].
    assert (Hf : forall m m', f m = f m' -> m = m') by (intros m m' Em; by apply idxKey_inj in Em as [-> _]).
    apply realises_diff.
    + intros k (m & -> & _)%elem_of_keep. apply idxKey_fp.
    + intros k (m & -> & _)%elem_of_keep. apply idxKey_fp.
    + intros k Hk. rewrite !elem_of_keep. unfold set_entry. rewrite Ho, Hn. split.
      * intros (ms & m & [= <-] & Hm & ->). destruct (decide (m ∈ oldM)) as [Hin|Hin].
        -- right. split; [by exists oldM, m|]. intros (m' & Em & _ & Hn'). by apply Hf in Em as ->.
        -- left. by exists m.
      * intros [(m & -> & Hm & _)|[(ms & m & [= <-] & Hm & ->) Hn']]; [by exists newM, m|].
        exists newM, m. split; [done|]. split; [|done]. destruct (decide (m ∈ newM)); [done|].
        exfalso. apply Hn'. by exists m.
Qed.

(** ** Blob references *)

Lemma fold_refs_old (other : gmap Id unit) l batch :
  fold_left (fun b (r : Id * unit) => if has_ref other r.1 then b
    else Set_ (Delete b (refKey acct r.1 (t_Name t) id)) (pendingKey acct r.1) None) l batch
  = batch ++ concat (map (fun b => [OpDelete (refKey acct b (t_Name t) id); OpSet (pendingKey acct b) None])
              (List.filter (fun b => negb (has_ref other b)) l.*1)).
Proof.
  revert batch. induction l as [|[b []] l IH]; intros batch; cbn; [by rewrite app_nil_r|].
  rewrite IH. destruct (has_ref other b); cbn; [done|]. rewrite Set_app, Delete_app. by rewrite <- !app_assoc.
Qed.

Lemma fold_refs_new (other : gmap Id unit) l batch :
  fold_left (fun b (r : Id * unit) => if has_ref other r.1 then b
    else Delete (Set_ b (refKey acct r.1 (t_Name t) id) None) (pendingKey acct r.1)) l batch
  = batch ++ concat (map (fun b => [OpSet (refKey acct b (t_Name t) id) None; OpDelete (pendingKey acct b)])
              (List.filter (fun b => negb (has_ref other b)) l.*1)).
Proof.
  revert batch. induction l as [|[b []] l IH]; intros batch; cbn; [by rewrite app_nil_r|].
  rewrite IH. destruct (has_ref other b); cbn; [done|]. rewrite Set_app, Delete_app. by rewrite <- !app_assoc.
Qed.

Lemma refKey_inj b b' : refKey acct b (t_Name t) id = refKey acct b' (t_Name t) id -> b = b'.
Proof. intros E. apply Key_injective in E. by injection E. Qed.

(** Operations on pending hints do not show outside them. *)
Lemma run_ref_dels m bl k :
  ~ is_pending k ->
  present (run m (concat (map (fun b => [OpDelete (refKey acct b (t_Name t) id); OpSet (pendingKey acct b) None]) bl))) k
  <-> present m k /\ k ∉ map (fun b => refKey acct b (t_Name t) id) bl.
Proof.
  intros Hk. rewrite <- run_dels. revert m. induction bl as [|b bl IH]; intros m; [done|].
  cbn [map concat dels app]. rewrite !run_cons, IH. cbn [run_op].
  assert (forall m', run (<[pendingKey acct b := None]> m') (dels (map (fun b => refKey acct b (t_Name t) id) bl)) !! k
                   = run m' (dels (map (fun b => refKey acct b (t_Name t) id) bl)) !! k) as Hins.
  { intros m'. clear IH. revert m'. induction bl as [|b' bl IH']; intros m'.
    - unfold run. cbn. rewrite lookup_insert_ne; [done|]. intros <-. apply Hk. by exists b.
    - cbn [map dels]. rewrite !run_cons. cbn [run_op]. rewrite delete_insert_ne; [apply IH'|].
      intros E. apply Key_injective in E. by injection E. }
  unfold present. by rewrite Hins.
Qed.

Lemma run_ref_sets m bl k :
  ~ is_pending k ->
  present (run m (concat (map (fun b => [OpSet (refKey acct b (t_Name t) id) None; OpDelete (pendingKey acct b)]) bl))) k
  <-> present m k \/ k ∈ map (fun b => refKey acct b (t_Name t) id) bl.
Proof.
  intros Hk. revert m. induction bl as [|b bl IH]; intros m.
  - unfold run. cbn. set_solver.
  - cbn [map concat app]. rewrite !run_cons, IH, elem_of_cons. cbn [run_op]. unfold present.
    rewrite lookup_delete_ne by (intros <-; apply Hk; by exists b).
    destruct (decide (k = refKey acct b (t_Name t) id)) as [-> |Hne].
    + rewrite lookup_insert_eq. naive_solver.
    + rewrite lookup_insert_ne by done. naive_solver.
Qed.

Lemma has_ref_elem refs b : b ∈ (range_map refs).*1 <-> has_ref refs b = true.
Proof.
  unfold has_ref. rewrite list_elem_of_fmap. split.
  - intros ([b' []] & -> & Hin%elem_of_range_map). cbn. by rewrite Hin.
  - destruct (refs !! b) as [[]|] eqn:E; [|done]. intros _. exists (b, tt). by rewrite elem_of_range_map.
Qed.

Lemma refOps_realises old new batch :
  exists ops, refOps batch acct t id old new = batch ++ ops /\
    realises is_pending ops ref_fp (ref_entry old) (ref_entry new).
Proof.
  unfold refOps. rewrite fold_refs_old, fold_refs_new, <- app_assoc. eexists. split; [done|].
  set (O := blobRefsOf t old). set (N := blobRefsOf t new).
  assert (Hel : forall refs other b, b ∈ List.filter (fun b => negb (has_ref other b)) (range_map refs).*1 <->
                has_ref refs b = true /\ has_ref other b = false).
  { intros refs other b. rewrite list_elem_of_In, filter_In, <- list_elem_of_In, has_ref_elem, negb_true_iff. done. }
  constructor.
  - apply no_adds_app. split; apply Forall_concat, Forall_map, Forall_true; intros; repeat constructor.
  - intros m Hm k Hk. pose proof (ref_not_pending k Hk) as Hp.
    rewrite run_app, run_ref_sets, run_ref_dels, Hm by done. destruct Hk as [b ->].
    assert (Hin : forall bl, refKey acct b (t_Name t) id ∈ map (fun b => refKey acct b (t_Name t) id) bl <-> b ∈ bl).
    { intros bl. rewrite list_elem_of_fmap. split; [by intros (b' & <-%refKey_inj & ?)|eauto]. }
    assert (He : forall o, ref_entry o (refKey acct b (t_Name t) id) <-> has_ref (blobRefsOf t o) b = true).
    { intros o. unfold ref_entry. split; [by intros (b' & ? & <-%refKey_inj)|eauto]. }
    rewrite !Hin, !Hel, !He. fold O N. destruct (has_ref O b), (has_ref N b); naive_solver.
  - intros m k HnF HnD. apply run_untouched. apply Forall_app. split; apply Forall_concat, Forall_map, Forall_true;
      intros b; repeat constructor; cbn; intros <-; try (apply HnF; by exists b); apply HnD; by exists b.
Qed.

(** ** All properties of a record *)

Definition props_fp (sel : Property -> bool) (l : list (bytes * Property)) (k : bytes) : Prop :=
  exists name p, (name, p) ∈ l /\ sel p = true /\ idx_fp name k.
Definition props_entry (sel : Property -> bool) (E : bytes -> Property -> bytes -> Prop) (l : list (bytes * Property)) (k : bytes) : Prop :=
  exists name p, (name, p) ∈ l /\ sel p = true /\ E name p k.

Lemma fold_props_realises (sel : Property -> bool) (f : Batch -> bytes * Property -> result Batch) (O N : bytes -> Property -> bytes -> Prop) l batch b :
  (forall name p k, O name p k -> idx_fp name k) -> (forall name p k, N name p k -> idx_fp name k) ->
  NoDup (l.*1) ->
  (forall name p (batch b : Batch), (name, p) ∈ l -> f batch (name, p) = Ok b ->
     if sel p then exists ops, b = batch ++ ops /\ realises is_pending ops (idx_fp name) (O name p) (N name p) else b = batch) ->
  fold_props f l batch = Ok b ->
  exists ops, b = batch ++ ops /\
    realises is_pending ops (props_fp sel l) (props_entry sel O l) (props_entry sel N l).
Proof.
  intros HO HN. revert batch. induction l as [|[name p] l IH]; intros batch Hnd Hf.
  - intros [= <-]. exists []. rewrite app_nil_r. split; [done|].
    eapply realises_ext; [done|..|apply (realises_nil _ _ (props_entry sel O []))]; [done|].
    intros k (? & ? & ? & _). set_solver.
  - cbn [fold_props]. intros (b1 & H1 & H2)%result_bind_Ok. inversion Hnd as [|? ? Hnot Hnd']; subst.
    apply IH in H2 as (ops2 & -> & Hr2); [|done|]; cycle 1.
    { intros. apply Hf; [by right|done]. }
    specialize (Hf name p batch b1 ltac:(left) H1).
    assert (Hsplit : forall E : bytes -> Property -> bytes -> Prop, forall k, props_entry sel E ((name, p) :: l) k <->
              (sel p = true /\ E name p k) \/ props_entry sel E l k).
    { intros E k. unfold props_entry. split.
      - intros (n & q & [[= -> ->]|Hin]%elem_of_cons & Hs & He); [by left|right; eauto].
      - intros [[Hs He]|(n & q & Hin & Hs & He)]; [exists name, p; by rewrite elem_of_cons; auto|].
        exists n, q. rewrite elem_of_cons. auto. }
    destruct (sel p) eqn:Es.
    + destruct Hf as (ops1 & -> & Hr1). exists (ops1 ++ ops2). rewrite app_assoc. split; [done|].
      eapply realises_ext; [..|eapply realises_app; [| |exact Hr1|exact Hr2]].
      * intros k. unfold props_fp. split.
        -- intros [Hk|(n & q & Hin & Hs & Hk)]; [exists name, p|exists n, q]; rewrite elem_of_cons; auto.
        -- intros (n & q & [[= -> ->]|Hin]%elem_of_cons & Hs & Hk); [by left|right; eauto].
      * intros k _. rewrite Hsplit. split; [naive_solver|]. intros [[_ He]|He]; [left; eauto|right].
        split; [|done]. destruct He as (n & q & ? & ? & ?). exists n, q. eauto.
      * intros k _. rewrite Hsplit. split; [naive_solver|]. intros [[_ He]|He]; [left; eauto|right].
        split; [|done]. destruct He as (n & q & ? & ? & ?). exists n, q. eauto.
      * intros k Hk (n & q & Hin & _ & Hk'). pose proof (idx_fp_inj _ _ _ Hk Hk') as ->. apply Hnot.
        apply list_elem_of_fmap. by exists (n, q).
      * intros k [Hk|(n & q & _ & _ & Hk)]; by eapply idx_not_pending.
    + subst b1. exists ops2. split; [done|]. eapply realises_ext; [..|apply Hr2].
      * intros k. unfold props_fp. split; [intros (n & q & Hin & ?); exists n, q; rewrite elem_of_cons; auto|].
        intros (n & q & [[= -> ->]|Hin]%elem_of_cons & Hs & Hk); [congruence|eauto].
      * intros k _. rewrite Hsplit. naive_solver.
      * intros k _. rewrite Hsplit. naive_solver.
Qed.

(** ** A whole record *)

Definition declared_fp (sel : Property -> bool) (k : bytes) : Prop :=
  exists name p, t_Properties t !! name = Some p /\ sel p = true /\ idx_fp name k.

(** Every key an index entry of the record can have. *)
Definition rec_fp (k : bytes) : Prop :=
  declared_fp p_Indexed k \/ ref_fp k \/ declared_fp p_SetIndexed k.

(** The index entries a version of the record calls for. *)
Definition rec_entry (o : option Object) (k : bytes) : Prop :=
  (exists name p, t_Properties t !! name = Some p /\ p_Indexed p = true /\ idx_entry name p o k) \/
  ref_entry o k \/
  (exists name p, t_Properties t !! name = Some p /\ p_SetIndexed p = true /\ set_entry name p o k).

Definition orders_kept (old new : option Object) : Prop :=
  forall name p, t_Properties t !! name = Some p -> p_Indexed p = true -> order_kept name p old new.

Definition values_nonempty (o : option Object) : Prop := forall name, nonempty_value name o.

Lemma idx_entry_fp name p o k : idx_entry name p o k -> idx_fp name k.
Proof. intros (v & ord & _ & _ & ->). apply idxKey_fp. Qed.
Lemma set_entry_fp name p o k : set_entry name p o k -> idx_fp name k.
Proof. intros (ms & m & _ & _ & ->). apply idxKey_fp. Qed.
Lemma ref_entry_fp o k : ref_entry o k -> ref_fp k.
Proof. intros (b & _ & ->). by exists b. Qed.

Lemma rec_fp_not_pending k : rec_fp k -> ~ is_pending k.
Proof.
  intros [(? & ? & _ & _ & Hk)|[Hk|(? & ? & _ & _ & Hk)]]; [by eapply idx_not_pending|by apply ref_not_pending|by eapply idx_not_pending].
Qed.

Lemma indexOps_realises old new batch b :
  orders_kept old new -> indexOps batch acct t id old new = Ok b ->
  exists ops, b = batch ++ ops /\
    realises is_pending ops (declared_fp p_Indexed)
      (fun k => exists name p, t_Properties t !! name = Some p /\ p_Indexed p = true /\ idx_entry name p old k)
      (fun k => exists name p, t_Properties t !! name = Some p /\ p_Indexed p = true /\ idx_entry name p new k).
Proof.
  intros Hk Hi. unfold indexOps in Hi.
  apply (fold_props_realises p_Indexed _ (fun n p => idx_entry n p old) (fun n p => idx_entry n p new)) in Hi as (ops & -> & Hr);
    eauto using idx_entry_fp, NoDup_range_map.
  - exists ops. split; [done|]. eapply realises_ext; [..|apply Hr]; unfold props_fp, props_entry, declared_fp;
      intros k; try intros _; setoid_rewrite elem_of_range_map; done.
  - intros name p batch' b' Hin%elem_of_range_map Hf. destruct (p_Indexed p) eqn:E.
    + eapply index_prop_realises; eauto.
    + cbn in Hf. rewrite E in Hf. by injection Hf.
Qed.

Lemma setIndexOps_realises old new batch b :
  values_nonempty old -> values_nonempty new -> setIndexOps batch acct t id old new = Ok b ->
  exists ops, b = batch ++ ops /\
    realises is_pending ops (declared_fp p_SetIndexed)
      (fun k => exists name p, t_Properties t !! name = Some p /\ p_SetIndexed p = true /\ set_entry name p old k)
      (fun k => exists name p, t_Properties t !! name = Some p /\ p_SetIndexed p = true /\ set_entry name p new k).
Proof.
  intros Ho Hn Hi. unfold setIndexOps in Hi.
  apply (fold_props_realises p_SetIndexed _ (fun n p => set_entry n p old) (fun n p => set_entry n p new)) in Hi as (ops & -> & Hr);
    eauto using set_entry_fp, NoDup_range_map.
  - exists ops. split; [done|]. eapply realises_ext; [..|apply Hr]; unfold props_fp, props_entry, declared_fp;
      intros k; try intros _; setoid_rewrite elem_of_range_map; done.
  - intros name p batch' b' Hin%elem_of_range_map Hf. destruct (p_SetIndexed p) eqn:E.
    + eapply set_index_prop_realises; eauto.
    + cbn in Hf. rewrite E in Hf. by injection Hf.
Qed.

Lemma record_indexes_realises old new batch b :
  Validate t = Ok tt -> orders_kept old new -> values_nonempty old -> values_nonempty new ->
  record_indexes batch acct t id old new = Ok b ->
  exists ops, b = batch ++ ops /\ realises is_pending ops rec_fp (rec_entry old) (rec_entry new).
Proof.
  intros Hv Hk Ho Hn (b1 & H1 & H2)%result_bind_Ok.
  apply indexOps_realises in H1 as (o1 & -> & R1); [|done].
  destruct (refOps_realises old new (batch ++ o1)) as (o2 & E2 & R2). rewrite E2 in H2.
  apply setIndexOps_realises in H2 as (o3 & -> & R3); [|done..].
  exists (o1 ++ (o2 ++ o3)). split; [by rewrite <- !app_assoc|].
  assert (Hd : forall k, ref_fp k -> declared_fp p_SetIndexed k -> False).
  { intros k Hr (? & ? & _ & _ & Hx). by eapply idx_ref_disjoint. }
  eapply realises_ext; [..|eapply realises_app; [| |exact R1|eapply realises_app; [exact Hd| |exact R2|exact R3]]].
  - intros k. unfold rec_fp. tauto.
  - intros k Hf. unfold rec_entry. split; [tauto|]. intros [Hx|[Hx|Hx]].
    + left. split; [|done]. destruct Hx as (n & p & ? & ? & ?%idx_entry_fp). exists n, p. auto.
    + right. split; [left|left]; eauto using ref_entry_fp.
    + right. assert (declared_fp p_SetIndexed k) by (destruct Hx as (n & p & ? & ? & ?%set_entry_fp); exists n, p; auto). auto.
  - intros k Hf. unfold rec_entry. split; [tauto|]. intros [Hx|[Hx|Hx]].
    + left. split; [|done]. destruct Hx as (n & p & ? & ? & ?%idx_entry_fp). exists n, p. auto.
    + right. split; [left|left]; eauto using ref_entry_fp.
    + right. assert (declared_fp p_SetIndexed k) by (destruct Hx as (n & p & ? & ? & ?%set_entry_fp); exists n, p; auto). auto.
  - intros k (n & p & Hp & Hi & Hx) [Hr|(n' & p' & Hp' & Hs & Hx')]; [by eapply idx_ref_disjoint|].
    pose proof (idx_fp_inj _ _ _ Hx Hx') as ->. assert (p' = p) as -> by congruence.
    destruct (Validate_property t n' p Hv Hp) as [Hc _]. apply check_property_indexed in Hc as [Hc _].
    destruct (Hc Hi) as [_ ?]. congruence.
  - intros k Hf. apply rec_fp_not_pending. unfold rec_fp. tauto.
  - intros k [Hf|Hf]; apply rec_fp_not_pending; unfold rec_fp; tauto.
Qed.
End record.
End Indexing.
