(* ===== verification/CommitFacts.v ===== *)
(** * CommitFacts: what a commit does to the store

    The methods of an Update keep it well formed ([reach_wf]); a commit of a
    well-formed Update leaves every index of the account in exact agreement
    with the records, and writes exactly the staged records. *)

From S2P Require Import Prelude GoLib Keyenc Backend Batches Jsonscan Jsonwords Jsongrammar Jsonobject Jmap Descriptor.
From S2P Require Import Keys ObjectDB SetIndex Commit Indexing.

Module CommitFacts.
Import Keyenc Backend Batches Jsonscan Jsongrammar Jsonobject Jmap Descriptor Keys ObjectDB SetIndex Commit Indexing.

Section facts.
Context `{MR : MapRange, TP : TimeParse, CF : CaseFold, LC : LogCodec}.

(** ** Well-formed databases *)

(** What registration establishes: descriptors are filed under their names and
    validated, the decoder's dictionary interns; property names are Go string
    literals in UTF-8. *)
Record db_wf (db : DB) : Prop := mkDbWf {
  dw_types : forall n t, db_types db !! n = Some t ->
    t_Name t = n /\ Validate t = Ok tt /\ forall name, is_Some (t_Properties t !! name) -> utf8_Valid name = true;
  dw_names : interning (db_propNames db);
}.

Lemma New_wf scheme verify : db_wf (New scheme verify).
Proof.
  constructor; cbn; [intros n t Ht; by rewrite lookup_empty in Ht|].
  intros k v Hk. by apply lookup_singleton_Some in Hk as [<- <-].
Qed.

Lemma fold_names_interning {A} (l : list (bytes * A)) names :
  interning names -> interning (fold_left (fun names np => <[np.1 := np.1]> names) l names).
Proof.
  revert names. induction l as [|[n x] l IH]; intros names Hn; [done|]. cbn. apply IH.
  intros k v Hk. apply lookup_insert_Some in Hk as [[<- <-]|[_ Hk]]; [done|by apply Hn].
Qed.

Lemma RegisterType_wf db t db' :
  db_wf db -> (forall name, is_Some (t_Properties t !! name) -> utf8_Valid name = true) ->
  RegisterType db t = Ok db' -> db_wf db'.
Proof.
  intros [Ht Hn] Hu ([] & Hv & Hr)%result_bind_Ok. destruct (db_types db !! t_Name t); [done|].
  injection Hr as <-. constructor; cbn.
  - intros n t' Hl. apply lookup_insert_Some in Hl as [[<- <-]|[_ Hl]]; [done|by apply Ht].
  - by apply fold_names_interning.
Qed.

(** ** The records of an account *)

Definition obj_at (db : DB) (m : kvmap) (acct : Id) (typeName : bytes) (id : Id) : option Object :=
  match m !! objKey acct typeName id with
  | Some raw => match decodeStored db (sbytes raw) with Ok o => o | Err _ => None end
  | None => None
  end.

(** The matched pair: records decode, and every index key of the account is
    present exactly when the record it belongs to calls for it. *)
Record index_inv (db : DB) (acct : Id) (m : kvmap) : Prop := mkIndexInv {
  ii_decodes : forall n t id raw, db_types db !! n = Some t -> m !! objKey acct n id = Some raw ->
    exists o, decodeStored db (sbytes raw) = Ok (Some o) /\ values_nonempty (Some o);
  ii_index : forall n t id k, db_types db !! n = Some t -> rec_fp acct t id k ->
    (present m k <-> rec_entry acct t id (obj_at db m acct n id) k);
}.

Definition type_of (db : DB) (st : stagedRecord) : Type_ :=
  default (mkType [] [] ∅ false) (db_types db !! st_typeName st).

(** A staged record against the committed state it was staged over. *)
Record staged_wf (db : DB) (acct : Id) (m : kvmap) (st : stagedRecord) : Prop := mkStagedWf {
  sw_type : db_types db !! st_typeName st = Some (type_of db st);
  sw_names : forall n, st_new st = Some n -> forall name, is_Some (n !! name) ->
    name = bs "id" \/ is_Some (t_Properties (type_of db st) !! name);
  sw_old : if st_created st then st_old st = None /\ m !! objKey acct (st_typeName st) (st_id st) = None
           else exists raw, m !! objKey acct (st_typeName st) (st_id st) = Some raw /\
                            decodeStored db (sbytes raw) = Ok (st_old st);
}.

Record update_wf (db : DB) (acct : Id) (m : kvmap) (u : Update) : Prop := mkUpdateWf {
  uw_staged : forall k st, u_staged u !! k = Some st ->
    k = stagedKey (st_typeName st) (st_id st) /\ staged_wf db acct m st;
  uw_read : forall n id r, u_read u !! stagedKey n id = Some r ->
    is_Some (db_types db !! n) /\ m !! objKey acct n id = Some (r_raw r) /\ decodeStored db (sbytes (r_raw r)) = Ok (r_obj r);
}.

(** ** The methods of an Update keep it well formed *)

Context {S : Type} `{BE : Backend S, BL : !BackendLaws S}.

Section methods.
Variable db : DB.
Variable s : S.
Variable acct : Id.
Hypothesis Hs : be_inv s.

Abbreviation m := (be_map s).
Abbreviation uwf := (update_wf db acct m).

Lemma newUpdate_wf seq : uwf (newUpdate seq).
Proof. constructor; cbn; intros *; by rewrite lookup_empty. Qed.

Lemma getRaw_spec n id o raw :
  getRaw db s acct n id = Ok (o, raw) ->
  is_Some (db_types db !! n) /\ m !! objKey acct n id = Some raw /\ decodeStored db (sbytes raw) = Ok o.
Proof.
  unfold getRaw. destruct (db_types db !! n); [|done]. rewrite be_Get_spec by done.
  destruct (m !! objKey acct n id) as [raw'|] eqn:E; [|done].
  intros (o' & Ho & [= -> ->])%result_bind_Ok. eauto.
Qed.

Lemma set_read_wf u n id r :
  uwf u -> is_Some (db_types db !! n) -> m !! objKey acct n id = Some (r_raw r) ->
  decodeStored db (sbytes (r_raw r)) = Ok (r_obj r) -> uwf (set_read u (stagedKey n id) r).
Proof.
  intros [Hst Hr] Hn Hm Hd. constructor; [done|]. cbn. intros n' id' r' Hl.
  apply lookup_insert_Some in Hl as [[[= <- <-] <-]|[_ Hl]]; [done|eauto].
Qed.

Lemma getCommitted_wf u n id u' o :
  uwf u -> getCommitted db s acct u n id = Ok (u', o) ->
  uwf u' /\ u_staged u' = u_staged u /\ is_Some (db_types db !! n) /\
  exists raw, m !! objKey acct n id = Some raw /\ decodeStored db (sbytes raw) = Ok o.
Proof.
  intros Hu. unfold getCommitted. destruct (u_read u !! stagedKey n id) as [r|] eqn:E.
  - intros [= <- <-]. apply (uw_read _ _ _ _ Hu) in E as (? & ? & ?). eauto 6.
  - intros ([o' raw] & Hg & [= <- <-])%result_bind_Ok. apply getRaw_spec in Hg as (Hn & Hm & Hd).
    split; [by apply set_read_wf|]. eauto.
Qed.

Lemma set_staged_wf u st : uwf u -> staged_wf db acct m st -> uwf (set_staged u st).
Proof.
  intros [Hst Hr] Hw. constructor; [|done]. cbn. intros k st' Hl.
  apply lookup_insert_Some in Hl as [[<- <-]|[_ Hl]]; [by split|eauto].
Qed.

Lemma u_Get_wf u n id u' o : uwf u -> u_Get db s acct u n id = Ok (u', o) -> uwf u' /\ u_staged u' = u_staged u.
Proof.
  intros Hu. unfold u_Get. destruct (u_staged u !! stagedKey n id) as [st|].
  - destruct (st_new st); [|done]. by intros [= <- <-].
  - intros (? & ? & _)%getCommitted_wf; done.
Qed.

(** Names that pass [checkKinds] are declared. *)
Lemma check_kinds_names t prior l :
  check_kinds t prior l = Ok tt -> forall name, name ∈ l.*1 -> name = bs "id" \/ is_Some (t_Properties t !! name).
Proof.
  induction l as [|[name raw] l IH]; cbn [check_kinds fmap list_fmap fst]; [intros _ name Hn; by apply not_elem_of_nil in Hn|].
  intros Hc name' [-> |Hn]%elem_of_cons.
  - destruct (bool_decide (name = bs "id")) eqn:E; [left; by apply bool_decide_eq_true in E|right].
    destruct (t_Properties t !! name); [eauto|done].
  - apply IH; [|done]. destruct (bool_decide (name = bs "id")); [done|].
    destruct (t_Properties t !! name); [|done]. destruct (match prior with Some _ => _ | None => _ end); [done|].
    by apply result_bind_Ok in Hc as (_ & _ & Hc).
Qed.

Lemma checkKinds_names t obj prior :
  checkKinds t obj prior = Ok tt ->
  forall name, is_Some (obj !! name) -> name = bs "id" \/ is_Some (t_Properties t !! name).
Proof.
  intros Hc name [v Hv]. eapply check_kinds_names; [exact Hc|].
  apply list_elem_of_fmap. exists (name, v). by rewrite elem_of_range_map.
Qed.

Lemma Create_wf u now rnd n obj u' id :
  uwf u -> Create db u now rnd n obj = Ok (u', id) -> m !! objKey acct n id = None -> uwf u'.
Proof.
  intros Hu. unfold Create. destruct (db_types db !! n) as [t|] eqn:Et; [|done].
  destruct (obj !! bs "id"); [done|]. intros ([] & Hc & Hr)%result_bind_Ok Hfresh.
  destruct (newId db u now rnd) as [u1 id1] eqn:En. injection Hr as <- <-.
  apply set_staged_wf.
  - unfold newId in En. destruct (db_idScheme db); injection En as <- _; try done. by destruct Hu.
  - assert (Ht : forall b1 b2 o1 o2, type_of db (mkStaged n id1 o1 o2 b1 b2) = t) by (intros; unfold type_of; cbn; by rewrite Et).
    constructor; cbn [st_typeName st_created st_old st_id st_new]; rewrite ?Ht; [done| |done].
    intros o [= <-] name Hn. destruct (decide (name = bs "id")); [by left|].
    rewrite lookup_insert_ne in Hn by done. by eapply checkKinds_names.
Qed.

(** Replacing the staged version of a record. *)
Lemma restage_wf u st new quiet :
  uwf u -> u_staged u !! stagedKey (st_typeName st) (st_id st) = Some st ->
  (forall n, new = Some n -> forall name, is_Some (n !! name) -> name = bs "id" \/ is_Some (t_Properties (type_of db st) !! name)) ->
  uwf (set_staged u (mkStaged (st_typeName st) (st_id st) (st_old st) new (st_created st) quiet)).
Proof.
  intros Hu Hl Hn. apply (uw_staged _ _ _ _ Hu) in Hl as [_ [Ht _ Ho]]. apply set_staged_wf; [done|].
  constructor; [exact Ht|exact Hn|exact Ho].
Qed.

Lemma stage_new_wf u n id t old new quiet :
  uwf u -> db_types db !! n = Some t ->
  (exists raw, m !! objKey acct n id = Some raw /\ decodeStored db (sbytes raw) = Ok old) ->
  (forall o, new = Some o -> forall name, is_Some (o !! name) -> name = bs "id" \/ is_Some (t_Properties t !! name)) ->
  uwf (set_staged u (mkStaged n id old new false quiet)).
Proof.
  intros Hu Ht Ho Hn. apply set_staged_wf; [done|].
  assert (Htt : type_of db (mkStaged n id old new false quiet) = t) by (unfold type_of; cbn; by rewrite Ht).
  constructor; cbn [st_typeName st_created st_old st_id st_new]; rewrite ?Htt; done.
Qed.

Lemma staged_key_eq u n id st :
  uwf u -> u_staged u !! stagedKey n id = Some st -> st_typeName st = n /\ st_id st = id.
Proof. intros Hu Hl. apply (uw_staged _ _ _ _ Hu) in Hl as [[= -> ->] _]. done. Qed.

Lemma Put_wf u n id obj u' : uwf u -> Put db s acct u n id obj = Ok u' -> uwf u'.
Proof.
  intros Hu. unfold Put. destruct (db_types db !! n) as [t|] eqn:Et; [|done].
  destruct (negb _); [done|]. destruct (u_staged u !! stagedKey n id) as [st|] eqn:Es.
  - destruct (st_new st); [|done]. intros ([] & Hc & [= <-])%result_bind_Ok.
    destruct (staged_key_eq _ _ _ _ Hu Es) as [<- <-]. apply restage_wf; [done|done|].
    intros o [= <-]. unfold type_of. rewrite Et. by eapply checkKinds_names.
  - intros ([u1 old] & Hg & ([] & Hc & [= <-])%result_bind_Ok)%result_bind_Ok.
    apply getCommitted_wf in Hg as (Hu1 & _ & _ & Hraw); [|done]. cbn [fst snd] in *.
    eapply stage_new_wf; eauto. intros o [= <-]. by eapply checkKinds_names.
Qed.

Lemma PutInternal_wf u n id obj u' : uwf u -> PutInternal db s acct u n id obj = Ok u' -> uwf u'.
Proof.
  intros Hu. unfold PutInternal. destruct (db_types db !! n) as [t|] eqn:Et; [|done].
  destruct (negb _); [done|].
  intros ([u1 prior] & Hg & ([] & Hc & Hr)%result_bind_Ok)%result_bind_Ok. cbn [fst snd] in *.
  destruct (negb _); [done|]. pose proof (u_Get_wf _ _ _ _ _ Hu Hg) as [Hu1 Hst].
  destruct (u_staged u1 !! stagedKey n id) as [st|] eqn:Es.
  - injection Hr as <-. destruct (staged_key_eq _ _ _ _ Hu1 Es) as [<- <-]. apply restage_wf; [done|done|].
    intros o [= <-]. unfold type_of. rewrite Et. by eapply checkKinds_names.
  - injection Hr as <-. unfold u_Get in Hg. rewrite <- Hst, Es in Hg.
    apply getCommitted_wf in Hg as (_ & _ & _ & Hraw); [|done].
    eapply stage_new_wf; eauto. intros o [= <-]. by eapply checkKinds_names.
Qed.

Lemma Destroy_wf u n id u' : uwf u -> Destroy db s acct u n id = Ok u' -> uwf u'.
Proof.
  intros Hu. unfold Destroy. destruct (db_types db !! n) as [t|] eqn:Et; [|done].
  destruct (u_staged u !! stagedKey n id) as [st|] eqn:Es.
  - destruct (st_new st); [|done]. intros [= <-]. destruct (staged_key_eq _ _ _ _ Hu Es) as [<- <-].
    by apply restage_wf.
  - intros ([u1 old] & Hg & [= <-])%result_bind_Ok.
    apply getCommitted_wf in Hg as (Hu1 & _ & _ & Hraw); [|done]. cbn [fst snd] in *. by eapply stage_new_wf.
Qed.

(** What a batched read returns for one id. *)
Definition read_ok (n : bytes) (id : Id) (r : option Object * slice) : Prop :=
  r.1 = None \/ (m !! objKey acct n id = Some r.2 /\ decodeStored db (sbytes r.2) = Ok r.1).

Lemma get_each_ok n ids rs :
  get_each s (decodeStored db) acct n ids = Ok rs -> Forall2 (read_ok n) ids rs.
Proof.
  revert rs. induction ids as [|id ids IH]; intros rs; cbn [get_each]; [intros [= <-]; constructor|].
  intros (r & Hr & (rs' & Hrs & [= <-])%result_bind_Ok)%result_bind_Ok. constructor; [|by apply IH].
  rewrite be_Get_spec in Hr by done. destruct (m !! objKey acct n id) as [raw|] eqn:E.
  - apply result_bind_Ok in Hr as (o & Ho & [= <-]). right. done.
  - injection Hr as <-. by left.
Qed.

Lemma decode_vals_ok n ids rs :
  decode_vals (decodeStored db) (map (fun k => mjoin (m !! k)) (map (objKey acct n) ids)) = Ok rs ->
  Forall2 (read_ok n) ids rs.
Proof.
  revert rs. induction ids as [|id ids IH]; intros rs; cbn [map decode_vals]; [intros [= <-]; constructor|].
  destruct (mjoin (m !! objKey acct n id)) as [raw|] eqn:E.
  - intros (o & Ho & (rs' & Hrs & [= <-])%result_bind_Ok)%result_bind_Ok. constructor; [|by apply IH].
    right. split; [|done]. unfold mjoin, option_join in E. cbn [snd]. destruct (m !! objKey acct n id) as [[|]|]; congruence.
  - intros (rs' & Hrs & [= <-])%result_bind_Ok. constructor; [by left|by apply IH].
Qed.

Lemma get_chunks_ok fuel mg n ids rs :
  be_MultiGet = Some mg ->
  get_chunks fuel s mg (decodeStored db) acct n ids = Ok rs -> Forall2 (read_ok n) ids rs.
Proof.
  intros Hmg. revert ids rs. induction fuel as [|fuel IH]; intros ids rs.
  - destruct ids; [intros [= <-]; constructor|done].
  - destruct ids as [|id ids]; [intros [= <-]; constructor|]. set (l := id :: ids).
    change (get_chunks (Datatypes.S fuel) s mg (decodeStored db) acct n l) with
      (vals ← mg s (map (objKey acct n) (take MaxMultiGetBatch l)); rs ← decode_vals (decodeStored db) vals;
       rs' ← get_chunks fuel s mg (decodeStored db) acct n (drop MaxMultiGetBatch l); Ok (rs ++ rs')).
    rewrite (be_MultiGet_spec mg s _ Hmg Hs). cbn [mbind result_bind].
    intros (r1 & H1%decode_vals_ok & (r2 & H2%IH & [= <-])%result_bind_Ok)%result_bind_Ok.
    rewrite <- (take_drop MaxMultiGetBatch l). by apply Forall2_app.
Qed.

Lemma getManyRaw_ok n ids rs :
  getManyRaw db s acct n ids None = Ok rs -> is_Some (db_types db !! n) /\ Forall2 (read_ok n) ids rs.
Proof.
  unfold getManyRaw. destruct (db_types db !! n); [|done]. destruct be_MultiGet as [mg|] eqn:Hmg.
  - intros H%get_chunks_ok; eauto.
  - intros H%get_each_ok. eauto.
Qed.

Lemma cache_reads_wf n ids rs u out :
  uwf u -> is_Some (db_types db !! n) -> Forall2 (read_ok n) ids rs ->
  uwf (fold_left (cache_read n) (zip ids rs) (u, out)).1 /\
  u_staged (fold_left (cache_read n) (zip ids rs) (u, out)).1 = u_staged u.
Proof.
  intros Hu Hn Hf. revert u out Hu. induction Hf as [|id [o raw] ids rs Hr Hf IH]; intros u out Hu; [done|].
  cbn [zip zip_with fold_left]. cbn [cache_read]. destruct o as [o|]; [|by apply IH].
  destruct Hr as [|[Hm Hd]]; [done|]. cbn in Hm, Hd.
  destruct (IH (set_read u (stagedKey n id) (mkRead (Some o) raw)) (<[id := Some o]> out)) as [? ->]; [by apply set_read_wf|done].
Qed.

Lemma u_GetMany_wf u n ids u' out : uwf u -> u_GetMany db s acct u n ids = Ok (u', out) -> uwf u' /\ u_staged u' = u_staged u.
Proof.
  intros Hu. unfold u_GetMany. destruct (split_known u n ids ∅ []) as [out0 remaining].
  destruct remaining as [|id rem]; [by intros [= <- <-]|].
  intros (rs & [Hn Hr]%getManyRaw_ok & E)%result_bind_Ok.
  pose proof (cache_reads_wf n _ rs u out0 Hu Hn Hr) as Hc.
  assert (E' : fold_left (cache_read n) (zip (id :: rem) rs) (u, out0) = (u', out)) by congruence. by rewrite E' in Hc.
Qed.

(** ** Reachable Updates

    Everything a caller's function can do to its Update: any sequence of
    method calls.  A created id is fresh: it comes from 64 bits or more of
    [crypto/rand]. *)
Inductive reach : Update -> Prop :=
  | reach_new seq : reach (newUpdate seq)
  | reach_Get u n id u' o : reach u -> u_Get db s acct u n id = Ok (u', o) -> reach u'
  | reach_GetMany u n ids u' out : reach u -> u_GetMany db s acct u n ids = Ok (u', out) -> reach u'
  | reach_Create u now rnd n obj u' id :
      reach u -> Create db u now rnd n obj = Ok (u', id) ->
      m !! objKey acct n id = None -> u_staged u !! stagedKey n id = None -> reach u'
  | reach_Put u n id obj u' : reach u -> Put db s acct u n id obj = Ok u' -> reach u'
  | reach_PutInternal u n id obj u' : reach u -> PutInternal db s acct u n id obj = Ok u' -> reach u'
  | reach_Destroy u n id u' : reach u -> Destroy db s acct u n id = Ok u' -> reach u'
  | reach_BumpState u n u' : reach u -> BumpState db u n = Ok u' -> reach u'
  | reach_SetAccountTag u tag u' : reach u -> SetAccountTag u tag = Ok u' -> reach u'
  | reach_ClearAccountTag u tag u' : reach u -> ClearAccountTag u tag = Ok u' -> reach u'.

Lemma reach_wf u : reach u -> uwf u.
Proof.
  induction 1 as [| | | | | | |u n u' _ IH Hb|u tag u' _ IH Hb|u tag u' _ IH Hb];
    eauto using newUpdate_wf, Create_wf, Put_wf, PutInternal_wf, Destroy_wf.
  - eapply u_Get_wf; eauto.
  - eapply u_GetMany_wf; eauto.
  - unfold BumpState in Hb. destruct (db_types db !! n); [|done]. injection Hb as <-. by destruct IH.
  - unfold SetAccountTag in Hb. destruct (bool_decide _); [done|]. injection Hb as <-. by destruct IH.
  - unfold ClearAccountTag in Hb. destruct (bool_decide _); [done|]. destruct (bool_decide _); [done|].
    injection Hb as <-. by destruct IH.
Qed.
End methods.
End facts.
End CommitFacts.
