(* ===== verification/Instances.v ===== *)
(** * Instances: concrete parameters

    The development is parametric in what the program takes from elsewhere:
    the order a map is ranged in, [time.Parse], [strings.ToLower] and
    [encoding/json] over the change log.  This file gives one concrete value
    for each, shows that the laws can hold, and sets up the small database
    the examples of the later files run on. *)

From S2P Require Import Prelude GoLib Keyenc Backend Batches Memory Jsonscan Jsongrammar Jmap Descriptor Keys ObjectDB.
From S2P Require Import SetIndex Commit Indexing CommitFacts.

Module Instances.
Import Keyenc Backend Batches Jsonscan Jsongrammar Jmap Descriptor Keys ObjectDB SetIndex Commit Indexing CommitFacts.

(** ** A codec for the log: any countable type has one *)

Fixpoint pos_bytes (p : positive) : bytes :=
  match p with
  | xH => []
  | xO p' => "0"%byte :: pos_bytes p'
  | xI p' => "1"%byte :: pos_bytes p'
  end.

Fixpoint bytes_pos (l : bytes) : positive :=
  match l with
  | [] => xH
  | c :: l' => if c =b "0"%byte then xO (bytes_pos l') else xI (bytes_pos l')
  end.

Lemma bytes_pos_bytes p : bytes_pos (pos_bytes p) = p.
Proof. induction p; cbn; congruence. Qed.

Definition count_marshal {A} `{Countable A} (a : A) : bytes := pos_bytes (encode a).
Definition count_unmarshal {A} `{Countable A} (l : bytes) : result A :=
  match decode (bytes_pos l) with Some a => Ok a | None => Err (Errorf "unexpected end of JSON input") end.

Lemma count_roundtrip {A} `{Countable A} (a : A) : count_unmarshal (count_marshal a) = Ok a.
Proof. unfold count_unmarshal, count_marshal. by rewrite bytes_pos_bytes, decode_encode. Qed.

Definition lt_tuple (te : logTypeEntry) := (lt_Created te, lt_Updated te, lt_Destroyed te, lt_UpdatedProps te).
Definition lt_untuple (x : list Id * list Id * list Id * option (list bytes)) : logTypeEntry :=
  let '(c, u, d, p) := x in mkLogType c u d p.

#[export] Instance logTypeEntry_eq_dec : EqDecision logTypeEntry.
Proof. solve_decision. Defined.
#[export] Instance logTypeEntry_countable : Countable logTypeEntry.
Proof. refine (inj_countable' lt_tuple lt_untuple _). by intros []. Defined.
#[export] Instance logEntry_eq_dec : EqDecision logEntry.
Proof. solve_decision. Defined.
#[export] Instance logEntry_countable : Countable logEntry.
Proof.
  refine (inj_countable' (fun e => (le_Types e, le_At e)) (fun x => mkLogEntry x.1 x.2) _). by intros [].
Defined.

Definition demo_codec : LogCodec := {| marshalLog := count_marshal; unmarshalLog := count_unmarshal |}.
Lemma demo_codec_laws : @LogCodecLaws demo_codec.
Proof. constructor. intros e. apply count_roundtrip. Qed.

(** The indexes of an account without records are empty. *)
Lemma index_inv_empty `{MR : MapRange, TP : TimeParse, CF : CaseFold} db acct : index_inv db acct ∅.
Proof.
  assert (He : forall n id, obj_at db ∅ acct n id = None) by (intros; unfold obj_at; by rewrite lookup_empty).
  constructor.
  - intros n t id raw _. by rewrite lookup_empty.
  - intros n t id k _ _. unfold present. rewrite lookup_empty, He. split; [by intros []|].
    intros [(name & p & _ & _ & v & ord & Hv & _)|[(b & Hb & _)|(name & p & _ & _ & ms & m & Hm & Hin & _)]].
    + done.
    + exfalso. unfold has_ref, blobRefsOf in Hb. revert Hb.
      assert (Hf : forall l (r : gmap Id unit), fold_left (add_ref ∅) l r = r).
      { induction l as [|[x q] l IH]; intros r; [done|]. cbn. rewrite IH. destruct (negb _); [done|]. by rewrite lookup_empty. }
      change (default ∅ None) with (∅ : Object). rewrite Hf, lookup_empty. done.
    + cbn in Hm. injection Hm as <-. by apply not_elem_of_nil in Hin.
Qed.

Definition demo_time : TimeParse := fun _ => None.
Definition demo_fold : CaseFold := fun s => s.

#[local] Existing Instances map_order demo_codec demo_time demo_fold Memory.memory_backend Memory.memory_laws.

(** ** A small database *)

Definition plain_prop (k : Kind) : Property := mkProperty k false false false [] false false false false None.

(** A type with one property of each index family, and an internal one. *)
Definition demo_type : Type_ :=
  mkType (bs "Note") (bs "urn:demo")
    (list_to_map
      [(bs "title", mkProperty KindString false false true [] false false false false None);
       (bs "labels", mkProperty KindObject false false false [] true false false false None);
       (bs "blobId", mkProperty KindId false false false [] false true false false None);
       (bs "hidden", mkProperty KindInt false false false [] false false false true None)]) false.

Definition demo_db : DB := ok_or (New SchemeSequence false) (RegisterType (New SchemeSequence false) demo_type).
Definition demo_acct : Id := bs "A1".
Definition demo_rnd : bytes := bs "0123456789abcdef".
Definition no_fence : Batch -> Batch := fun b => b.

Lemma demo_db_wf : db_wf demo_db.
Proof.
  eapply (RegisterType_wf (New SchemeSequence false) demo_type); [apply New_wf| |].
  - intros name [p Hp%elem_of_list_to_map_2]. cbn [t_Properties demo_type] in Hp.
    repeat (apply elem_of_cons in Hp as [[= -> _]|Hp]; [vm_compute; reflexivity|]). by apply not_elem_of_nil in Hp.
  - apply ok_or_eq. vm_compute. reflexivity.
Qed.

Definition demo_obj : Object :=
  list_to_map [(bs "title", quoted (bs "Hello")); (bs "labels", [x7b] ++ quoted (bs "red") ++ bs ":true" ++ [x7d]);
               (bs "blobId", quoted (bs "Gb1"))].

(** One commit over the empty store: a record is created. *)
Definition demo_fn (u : Update) : result Update := r ← Create demo_db u 0 demo_rnd (bs "Note") demo_obj; Ok r.1.
Definition demo_create : Update * Id := ok_or (newUpdate 1, []) (Create demo_db (newUpdate 1) 0 demo_rnd (bs "Note") demo_obj).
Definition demo_u : Update := demo_create.1.
Definition demo_id : Id := demo_create.2.
Definition empty_store : Memory.Store := Memory.New [].
Definition demo_c : Committed := ok_or (mkCommitted empty_store ∅ ∅) (update demo_db empty_store demo_acct no_fence 1700 demo_fn).

Lemma demo_create_ok : Create demo_db (newUpdate 1) 0 demo_rnd (bs "Note") demo_obj = Ok demo_create.
Proof. apply ok_or_eq. vm_compute. reflexivity. Qed.
Lemma demo_fn_ok : demo_fn (newUpdate 1) = Ok demo_u.
Proof. unfold demo_fn. rewrite demo_create_ok. reflexivity. Qed.
Lemma demo_update_ok : update demo_db empty_store demo_acct no_fence 1700 demo_fn = Ok demo_c.
Proof. apply ok_or_eq. vm_compute. reflexivity. Qed.

Lemma demo_reach : reach demo_db empty_store demo_acct demo_u.
Proof.
  eapply (reach_Create _ _ _ (newUpdate 1) 0 demo_rnd (bs "Note") demo_obj demo_u demo_id); [constructor| | |].
  - rewrite demo_create_ok. unfold demo_u, demo_id. by destruct demo_create.
  - vm_compute. reflexivity.
  - vm_compute. reflexivity.
Qed.
End Instances.
