(* ===== verification/CommitIndex.v ===== *)
(** * CommitIndex: a commit keeps indexes and records in agreement

    The effect of every staged record on the store, composed over the batch,
    and the invariant theorem of the object database: indexes mirror records
    after every commit. *)

From S2P Require Import Prelude GoLib Keyenc Backend Batches Jsonscan Jsonwords Jsongrammar Jsonobject Jmap Descriptor.
From S2P Require Import Keys ObjectDB SetIndex Commit Indexing CommitFacts Instances Memory.

Module CommitIndex.
Import Keyenc Backend Batches Jsonscan Jsongrammar Jsonobject Jmap Descriptor Keys ObjectDB SetIndex Commit Indexing CommitFacts.

Section effects.
Context `{MR : MapRange, TP : TimeParse, CF : CaseFold, LC : LogCodec}.
Variable db : DB.
Variable acct : Id.
Hypothesis Hdb : db_wf db.

(** ** One staged record *)

Definition st_fp (st : stagedRecord) (k : bytes) : Prop :=
  k = objKey acct (st_typeName st) (st_id st) \/ rec_fp acct (type_of db st) (st_id st) k.

(** Values as [json.RawMessage] members carry them: without surrounding white
    space. *)
Definition compact (o : Object) : Prop := forall k v, o !! k = Some v -> trim v = v.

(** What the commit relies on of a staged record beyond its well-formedness. *)
Record staged_ok (m : kvmap) (st : stagedRecord) : Prop := mkStagedOk {
  so_wf : staged_wf db acct m st;
  so_orders : orders_kept (type_of db st) (st_old st) (st_new st);
  so_compact : forall o, st_new st = Some o -> compact o;
}.

Definition st_pre (m : kvmap) (st : stagedRecord) : Prop :=
  (forall k, rec_fp acct (type_of db st) (st_id st) k -> (present m k <-> rec_entry acct (type_of db st) (st_id st) (st_old st) k)) /\
  (st_created st = true -> m !! objKey acct (st_typeName st) (st_id st) = None /\ st_old st = None).

Definition st_post (m : kvmap) (st : stagedRecord) : Prop :=
  (forall k, rec_fp acct (type_of db st) (st_id st) k -> (present m k <-> rec_entry acct (type_of db st) (st_id st) (st_new st) k)) /\
  match st_new st with
  | None => m !! objKey acct (st_typeName st) (st_id st) = None
  | Some o => exists raw, EncodeObject o = Ok raw /\ m !! objKey acct (st_typeName st) (st_id st) = Some (Some raw)
  end.

(** The effect of a list of operations on behalf of staged records. *)
Record effects (ops : Batch) (sts : list stagedRecord) : Prop := mkEffects {
  ef_adds : no_adds ops;
  ef_post : forall m, (forall st, st ∈ sts -> st_pre m st) -> forall st, st ∈ sts -> st_post (run m ops) st;
  ef_frame : forall m k, (forall st, st ∈ sts -> ~ st_fp st k) -> ~ is_pending acct k -> run m ops !! k = m !! k;
}.

Lemma objKey_not_fp t id n id' : ~ rec_fp acct t id (objKey acct n id').
Proof.
  intros [(? & ? & _ & _ & r & E)|[[b E]|(? & ? & _ & _ & r & E)]]; apply Key_injective in E; by injection E.
Qed.

Lemma objKey_not_pending n id : ~ is_pending acct (objKey acct n id).
Proof. intros [b E]. apply Key_injective in E. by injection E. Qed.

Lemma encoded_nonempty o raw name : EncodeObject o = Ok raw -> nonempty_value name (Some o).
Proof.
  intros [Ha _]%EncodeObject_spec. unfold nonempty_value. cbn. intros E.
  unfold all_single in Ha. rewrite Forall_forall in Ha. specialize (Ha name ltac:(apply elem_of_keys; eauto)).
  rewrite E in Ha. destruct Ha as (w1 & v & w2 & E' & _ & _ & (c & v' & -> & _)%JValue_head).
  symmetry in E'. apply app_eq_nil in E' as [_ [? _]%app_eq_nil]. done.
Qed.

Lemma nonempty_None name : nonempty_value name None.
Proof. done. Qed.

(** A record operation followed by index maintenance. *)
Lemma record_effects st old objop iops :
  (objop = OpDelete (objKey acct (st_typeName st) (st_id st)) /\ st_new st = None \/
   exists o raw, st_new st = Some o /\ EncodeObject o = Ok raw /\
                 objop = OpSet (objKey acct (st_typeName st) (st_id st)) (Some raw)) ->
  (forall m, st_pre m st -> forall k, rec_fp acct (type_of db st) (st_id st) k ->
     (present m k <-> rec_entry acct (type_of db st) (st_id st) old k)) ->
  realises (is_pending acct) iops (rec_fp acct (type_of db st) (st_id st))
    (rec_entry acct (type_of db st) (st_id st) old) (rec_entry acct (type_of db st) (st_id st) (st_new st)) ->
  effects (objop :: iops) [st].
Proof.
  intros Hop Hold [Ha Hp Hf]. set (ok := objKey acct (st_typeName st) (st_id st)) in *.
  assert (Hkey : op_key objop = ok) by (destruct Hop as [[-> _]|(? & ? & _ & _ & ->)]; done).
  assert (Hrun : forall m k, k <> ok -> run_op m objop !! k = m !! k).
  { intros m k Hne. apply (run_untouched m [objop]). constructor; [|constructor]. rewrite Hkey. congruence. }
  constructor.
  - constructor; [|done]. destruct Hop as [[-> _]|(? & ? & _ & _ & ->)]; done.
  - intros m Hpre st' ->%list_elem_of_singleton. rewrite run_cons. specialize (Hpre st ltac:(by left)). split.
    + apply Hp. intros k Hk. unfold present. rewrite Hrun by (intros ->; by eapply objKey_not_fp). by apply Hold.
    + assert (Hobj : run (run_op m objop) iops !! ok = run_op m objop !! ok).
      { apply Hf; [apply objKey_not_fp|apply objKey_not_pending]. }
      fold ok. destruct Hop as [[-> ->]|(o & raw & -> & He & ->)]; cbn [run_op] in *.
      * by rewrite Hobj, lookup_delete_eq.
      * exists raw. by rewrite Hobj, lookup_insert_eq.
  - intros m k Hk Hd. specialize (Hk st ltac:(by left)). unfold st_fp in Hk. rewrite run_cons, Hf, Hrun; tauto.
Qed.

Lemma stage_record_effects m0 batch types st batch' types' :
  staged_ok m0 st -> (forall o, st_old st = Some o -> values_nonempty (Some o)) ->
  stage_record db acct (batch, types) st = Ok (batch', types') ->
  exists ops, batch' = batch ++ ops /\ effects ops [st].
Proof.
  intros [[Ht Hn Ho] Hord Hc] Hne. unfold stage_record. fold (type_of db st).
  destruct (dw_types db Hdb _ _ Ht) as (_ & Hval & _).
  assert (Hold : values_nonempty (st_old st)) by (destruct (st_old st); [by apply Hne|intros name; apply nonempty_None]).
  destruct (st_created st && bool_decide (st_new st = None)) eqn:Ecd.
  { intros [= <- <-]. exists []. rewrite app_nil_r. split; [done|]. apply andb_prop in Ecd as [Ec En].
    apply bool_decide_eq_true in En. constructor; [constructor| |done].
    intros m Hpre st' ->%list_elem_of_singleton. destruct (Hpre st ltac:(by left)) as [Hp Hcr]. unfold st_post.
    rewrite En. destruct (Hcr Ec) as [Hm E]. rewrite E in Hp. done. }
  destruct (st_new st) as [new|] eqn:En.
  - intros (raw & He & Hr)%result_bind_Ok. change (encodeObject new) with (EncodeObject new) in He.
    assert (Hnew : values_nonempty (Some new)) by (intros name; by eapply encoded_nonempty).
    destruct (st_created st) eqn:Ec.
    + apply result_bind_Ok in Hr as (b & Hi & [= <- <-]). destruct Ho as [Eo Hm]. rewrite Eo in *.
      apply record_indexes_realises in Hi as (ops & -> & Hrz); [|done..].
      eexists. split; [by rewrite Set_app, <- app_assoc|]. rewrite <- En in Hrz.
      eapply (record_effects st None); [right; exists new, raw; done| |exact Hrz].
      intros m [Hp _] k Hk. rewrite Eo in Hp. by apply Hp.
    + apply result_bind_Ok in Hr as (b & Hi & Hr).
      apply record_indexes_realises in Hi as (ops & -> & Hrz); [|done..].
      assert (batch' = Set_ batch (objKey acct (st_typeName st) (st_id st)) (Some raw) ++ ops) as ->.
      { destruct (st_quiet st); by injection Hr. }
      eexists. split; [by rewrite Set_app, <- app_assoc|]. rewrite <- En in Hrz.
      eapply (record_effects st (st_old st)); [right; exists new, raw; done| |exact Hrz].
      intros m [Hp _] k Hk. by apply Hp.
  - intros (b & Hi & [= <- <-])%result_bind_Ok.
    apply record_indexes_realises in Hi as (ops & -> & Hrz); [|done..|intros name; apply nonempty_None].
    eexists. split; [by rewrite Delete_app, <- app_assoc|]. rewrite <- En in Hrz.
    eapply (record_effects st (st_old st)); [by left| |exact Hrz].
    intros m [Hp _] k Hk. by apply Hp.
Qed.

(** ** All staged records *)

Definition st_key (st : stagedRecord) : recKey := stagedKey (st_typeName st) (st_id st).

Lemma rec_fp_key t t' id id' k :
  rec_fp acct t id k -> rec_fp acct t' id' k -> t_Name t = t_Name t' /\ id = id'.
Proof.
  assert (Hidx : forall n n' r r', Key ([acct; bs "x"; t_Name t; n] ++ r ++ [id]) = Key ([acct; bs "x"; t_Name t'; n'] ++ r' ++ [id']) ->
                 t_Name t = t_Name t' /\ id = id').
  { intros n n' r r' E%Key_injective. injection E as -> _ E. by apply app_inj_2 in E as [_ [= ->]]. }
  intros [(? & ? & _ & _ & r & ->)|[[b ->]|(? & ? & _ & _ & r & ->)]]
    [(? & ? & _ & _ & r' & E)|[[b' E]|(? & ? & _ & _ & r' & E)]]; eauto;
    apply Key_injective in E; by injection E.
Qed.

Lemma st_fp_disjoint m st st' k :
  staged_wf db acct m st -> staged_wf db acct m st' -> st_fp st k -> st_fp st' k -> st_key st = st_key st'.
Proof.
  intros [Ht _ _] [Ht' _ _]. pose proof (dw_types db Hdb _ _ Ht) as [Hn _].
  pose proof (dw_types db Hdb _ _ Ht') as [Hn' _].
  intros [-> |Hk] [E|Hk'].
  - apply Key_injective in E. unfold st_key, stagedKey. by injection E as -> ->.
  - by apply objKey_not_fp in Hk'.
  - subst. by apply objKey_not_fp in Hk.
  - destruct (rec_fp_key _ _ _ _ _ Hk Hk') as [E1 E2]. unfold st_key, stagedKey. congruence.
Qed.

Lemma st_fp_not_pending st k : st_fp st k -> ~ is_pending acct k.
Proof. intros [-> |Hk]; [apply objKey_not_pending|by eapply rec_fp_not_pending]. Qed.

Lemma effects_cons ops1 ops2 m0 st sts :
  (forall st', st' ∈ sts -> st_key st' <> st_key st) ->
  (forall st', st' ∈ st :: sts -> staged_wf db acct m0 st') ->
  effects ops1 [st] -> effects ops2 sts -> effects (ops1 ++ ops2) (st :: sts).
Proof.
  intros Hnd Hwf [A1 P1 F1] [A2 P2 F2].
  assert (Hdis : forall st', st' ∈ sts -> forall k, st_fp st' k -> ~ st_fp st k).
  { intros st' Hin k Hk Hk'. apply (Hnd st' Hin). eapply st_fp_disjoint; [apply Hwf; by right|apply Hwf; by left|done|done]. }
  (* a footprint that keeps its lookups keeps its conditions *)
  assert (Hkeep : forall m m' st', (forall k, st_fp st' k -> m' !! k = m !! k) ->
            (st_pre m st' -> st_pre m' st') /\ (st_post m st' -> st_post m' st')).
  { intros m m' st' Heq. unfold st_pre, st_post, present. split.
    - intros [Hp Hc]. split; [intros k Hk; rewrite Heq by (by right); by apply Hp|].
      intros Hcr. rewrite Heq by (by left). by apply Hc.
    - intros [Hp Hc]. split; [intros k Hk; rewrite Heq by (by right); by apply Hp|].
      rewrite Heq by (by left). done. }
  constructor.
  - by apply no_adds_app.
  - intros m Hpre st' Hin. rewrite run_app. apply elem_of_cons in Hin as [-> |Hin].
    + apply (Hkeep (run m ops1)).
      * intros k Hk. apply F2; [|by eapply st_fp_not_pending]. intros st' Hin Hk'. by eapply Hdis.
      * apply P1; [|by left]. intros st' ->%list_elem_of_singleton. apply Hpre. by left.
    + apply P2; [|done]. intros st2 Hin2. apply (Hkeep m); [|apply Hpre; by right].
      intros k Hk. apply F1; [|by eapply st_fp_not_pending]. intros st1 ->%list_elem_of_singleton. by eapply Hdis.
  - intros m k Hk Hd. rewrite run_app, F2, F1; [done| |done| |done].
    + intros st1 ->%list_elem_of_singleton. apply Hk. by left.
    + intros st1 Hin. apply Hk. by right.
Qed.

Lemma stage_records_effects m0 sts batch types batch' types' :
  NoDup (st_key <$> sts) -> (forall st, st ∈ sts -> staged_ok m0 st) ->
  (forall st, st ∈ sts -> forall o, st_old st = Some o -> values_nonempty (Some o)) ->
  stage_records db acct sts (batch, types) = Ok (batch', types') ->
  exists ops, batch' = batch ++ ops /\ effects ops sts.
Proof.
  revert batch types. induction sts as [|st sts IH]; intros batch types Hnd Hok Hne; cbn [stage_records].
  - intros [= <- <-]. exists []. rewrite app_nil_r. split; [done|]. constructor; [constructor|set_solver|done].
  - intros ([b1 ty1] & H1 & H2)%result_bind_Ok. cbn [fmap list_fmap] in Hnd. inversion Hnd as [|? ? Hnot Hnd']; subst.
    apply (stage_record_effects m0) in H1 as (o1 & -> & E1); [|apply Hok; by left|apply Hne; by left].
    apply IH in H2 as (o2 & -> & E2); [|done|intros; apply Hok; by right|intros st' Hin; apply Hne; by right].
    exists (o1 ++ o2). split; [by rewrite app_assoc|]. eapply effects_cons; [..|exact E1|exact E2].
    + intros st' Hin E. apply Hnot. apply list_elem_of_fmap. exists st'. by rewrite <- E.
    + intros st' Hin. apply Hok. done.
Qed.

(** ** The rest of the batch *)

(** Keys of an account's control data: tags, type states, log, sequence. *)
Definition ctl_key (k : bytes) : Prop :=
  (exists tag a, k = tagKey tag a) \/ (exists n, k = typeStateKey acct n) \/ (exists z, k = logKey acct z) \/ k = seqKey acct.
Definition ctl_ops (ops : Batch) : Prop := Forall (fun op => is_add op = false /\ ctl_key (op_key op)) ops.

(** Keys of records and their index entries, of any type. *)
Definition data_key (k : bytes) : Prop :=
  (exists n id, k = objKey acct n id) \/ (exists t id, rec_fp acct t id k).

Lemma data_key_shape k :
  data_key k -> exists tag rest, k = Key (acct :: tag :: rest) /\ (tag = bs "o" \/ tag = bs "x" \/ tag = bs "r").
Proof.
  intros [(n & id & ->)|(t & id & [(? & ? & _ & _ & r & ->)|[[b ->]|(? & ? & _ & _ & r & ->)]])]; eexists _, _; (split; [reflexivity|]); auto.
Qed.

Lemma acct_not_tag : Valid acct = true -> acct <> bs "!tag".
Proof. by intros Hv ->. Qed.

Lemma ctl_not_data k : Valid acct = true -> ctl_key k -> ~ data_key k.
Proof.
  intros Hv%acct_not_tag Hc (tag & rest & -> & Htag)%data_key_shape.
  destruct Hc as [(tg & a & E)|[(n & E)|[(z & E)|E]]]; apply Key_injective in E; injection E as E; subst; try done;
    by destruct Htag as [?|[?|?]].
Qed.

Lemma ctl_run m ops k : Valid acct = true -> ctl_ops ops -> data_key k -> run m ops !! k = m !! k.
Proof.
  intros Hv Hc Hk. apply run_untouched. eapply Forall_impl; [exact Hc|]. intros op [_ Ho] <-. by eapply ctl_not_data.
Qed.

Lemma ctl_no_adds ops : ctl_ops ops -> no_adds ops.
Proof. intros H. eapply Forall_impl; [exact H|]. by intros op [? _]. Qed.

Lemma ctl_snoc b op : ctl_ops b -> is_add op = false -> ctl_key (op_key op) -> ctl_ops (b ++ [op]).
Proof. intros Hb Ha Hk. apply Forall_app. split; [done|]. by apply Forall_singleton. Qed.

Lemma ctl_tag tag a : ctl_key (tagKey tag a).
Proof. left. eauto. Qed.

Lemma tag_ops_ctl tags : ctl_ops (tag_ops acct tags).
Proof.
  unfold tag_ops. assert (Hb : ctl_ops (Set_ [] (tagKey tagExists acct) None)).
  { by apply ctl_snoc; [constructor|done|apply ctl_tag]. }
  revert Hb. generalize (Set_ [] (tagKey tagExists acct) None) as b. induction (sort_strings _) as [|tag l IH]; intros b Hb; [done|].
  cbn [fold_left]. apply IH. destruct (default false _); by apply ctl_snoc; [done|done|apply ctl_tag].
Qed.

Lemma state_ops_app seq names b : exists ops, state_ops acct seq names b = b ++ ops /\ ctl_ops ops.
Proof.
  revert b. induction names as [|n names IH]; intros b; [exists []; rewrite app_nil_r; split; [done|constructor]|].
  destruct (IH (Set_ b (typeStateKey acct n) (Some (EncodeInt64 seq)))) as (ops & Hops & Hc).
  change (state_ops acct seq (n :: names) b) with (state_ops acct seq names (Set_ b (typeStateKey acct n) (Some (EncodeInt64 seq)))).
  rewrite Hops. exists (OpSet (typeStateKey acct n) (Some (EncodeInt64 seq)) :: ops).
  rewrite Set_app, <- app_assoc. split; [done|]. constructor; [|done]. split; [done|]. right. left. cbn. eauto.
Qed.

Lemma buildBatch_shape u seq now batch touched :
  buildBatch db acct u seq now = Ok (batch, touched) ->
  exists ops types post, stage_records db acct (sorted_staged u) (tag_ops acct (u_tagOps u), ∅) = Ok (ops, types) /\
    batch = ops ++ post /\ ctl_ops post.
Proof.
  unfold buildBatch. intros ([] & _ & ([ops types] & Hs & Hr)%result_bind_Ok)%result_bind_Ok.
  exists ops, types. destruct (state_ops_app seq
    ((range_map (filter (fun nt : bytes * logTypeEntry => entry_empty nt.2 = false) types)).*1 ++
     (filter (fun n : bytes * unit => filter (fun nt : bytes * logTypeEntry => entry_empty nt.2 = false) types !! n.1 = None) (range_map (u_bumped u))).*1) ops)
    as (post & Hpost & Hc).
  rewrite Hpost in Hr. destruct (_ ++ _) in Hr at 1.
  - injection Hr as <- <-. eauto.
  - destruct (bool_decide _).
    + injection Hr as <- <-. eauto.
    + injection Hr as <- <-. eexists. split; [done|]. rewrite Set_app, <- app_assoc. split; [done|].
      apply Forall_app. split; [done|]. constructor; [|constructor]. split; [done|]. right. right. left. cbn. eauto.
Qed.

(** ** The staged list *)

Lemma sorted_staged_spec m u :
  update_wf db acct m u ->
  NoDup (st_key <$> sorted_staged u) /\ forall st, st ∈ sorted_staged u <-> u_staged u !! st_key st = Some st.
Proof.
  intros Hu. unfold sorted_staged. set (l := merge_sort reckey_le (map_to_list (u_staged u)).*1).
  assert (Hl : l ≡ₚ (map_to_list (u_staged u)).*1) by apply merge_sort_Permutation.
  assert (Hin : forall k, k ∈ l <-> is_Some (u_staged u !! k)).
  { intros k. rewrite Hl, list_elem_of_fmap. split.
    - intros ([k' st] & -> & H%elem_of_map_to_list). eauto.
    - intros [st H%elem_of_map_to_list]. by exists (k, st). }
  assert (Hkey : forall k st, u_staged u !! k = Some st -> st_key st = k).
  { intros k st Hk. by apply (uw_staged _ _ _ _ Hu) in Hk as [-> _]. }
  assert (Hmap : st_key <$> omap (fun k => u_staged u !! k) l = l).
  { assert (Hall : Forall (fun k => is_Some (u_staged u !! k)) l) by (apply Forall_forall; intros k Hk; by apply Hin).
    clear Hl Hin. induction Hall as [|k l [st Hst] Hall IH]; [done|]. cbn. rewrite Hst. cbn. f_equal; [by apply Hkey|done]. }
  split.
  - rewrite Hmap, Hl. apply NoDup_fst_map_to_list.
  - intros st. rewrite list_elem_of_omap. split.
    + intros (k & _ & Hk). by rewrite (Hkey _ _ Hk).
    + intros Hk. exists (st_key st). rewrite Hin. eauto.
Qed.
End effects.

(** ** The commit *)

Section commit.
Context `{MR : MapRange, TP : TimeParse, CF : CaseFold, LC : LogCodec}.
Context {S : Type} `{BE : Backend S, BL : !BackendLaws S}.

(** [Fence] appends assertions and nothing else. *)
Definition is_fence (fence : Batch -> Batch) : Prop :=
  forall b, exists asserts, fence b = b ++ asserts /\ Forall (fun op => is_assert op = true) asserts.

Lemma is_assert_no_adds ops : Forall (fun op => is_assert op = true) ops -> no_adds ops.
Proof. intros H. eapply Forall_impl; [exact H|]. by intros []. Qed.

(** A batch without counters that the backend accepted: its effect. *)
Lemma WriteBatch_run s ops s' :
  be_inv s -> no_adds ops -> be_WriteBatch s ops = Ok s' -> be_inv s' /\ be_map s' = run (be_map s) ops.
Proof.
  intros Hi Ha Hw. apply be_WriteBatch_Ok in Hw as [Hi' Hs]; [|done]. split; [done|].
  unfold spec_write in Hs. destruct (forallb _ _); [|done]. rewrite apply_ops_run in Hs by done. by injection Hs.
Qed.

Variable db : DB.
Variable s : S.
Variable acct : Id.
Hypothesis Hdb : db_wf db.
Hypothesis Hacct : Valid acct = true.
Hypothesis Hs : be_inv s.
Hypothesis Hinv : index_inv db acct (be_map s).

(** What a caller owes the commit: the order siblings of indexed properties
    are left alone, and values carry no surrounding white space. *)
Definition staging_ok (u : Update) : Prop :=
  forall k st, u_staged u !! k = Some st ->
    orders_kept (type_of db st) (st_old st) (st_new st) /\ forall o, st_new st = Some o -> compact o.

Lemma decode_encoded o raw :
  compact o -> (forall name, is_Some (o !! name) -> utf8_Valid name = true) ->
  EncodeObject o = Ok raw -> decodeStored db raw = Ok (Some o).
Proof.
  intros Hc Hu He. unfold decodeStored.
  rewrite (DecodeObject_encoded o (db_propNames db) raw (dw_names db Hdb) Hu He). do 2 f_equal.
  apply map_eq. intros k. rewrite lookup_fmap. destruct (o !! k) eqn:E; [|done]. cbn. f_equal. by eapply Hc.
Qed.

Lemma staged_utf8 m st o name :
  staged_wf db acct m st -> st_new st = Some o -> is_Some (o !! name) -> utf8_Valid name = true.
Proof.
  intros [Ht Hn _] Ho Hs'. destruct (Hn o Ho name Hs') as [-> |Hp]; [done|].
  by apply (dw_types db Hdb _ _ Ht).
Qed.

(** The store after a commit, in terms of the store before it. *)
Record committed (u : Update) (m m' : kvmap) : Prop := mkCommittedTo {
  cm_staged : forall st, st ∈ sorted_staged u -> st_post db acct m' st;
  cm_other : forall k, data_key acct k -> (forall st, st ∈ sorted_staged u -> ~ st_fp db acct st k) -> m' !! k = m !! k;
}.

Lemma old_is_committed u st :
  update_wf db acct (be_map s) u -> u_staged u !! st_key st = Some st ->
  obj_at db (be_map s) acct (st_typeName st) (st_id st) = st_old st /\
  forall o, st_old st = Some o -> values_nonempty (Some o).
Proof.
  intros Hu Hst. apply (uw_staged _ _ _ _ Hu) in Hst as [_ [Ht _ Ho]]. unfold obj_at.
  destruct (st_created st).
  - destruct Ho as [-> ->]. done.
  - destruct Ho as (raw & Hm & Hd). rewrite Hm, Hd. split; [done|]. intros o E.
    destruct (ii_decodes _ _ _ Hinv _ _ _ _ Ht Hm) as (o' & Hd' & Hne). rewrite Hd, E in Hd'. by injection Hd' as ->.
Qed.

Lemma update_committed u fence now cur fn c :
  reach db s acct u -> staging_ok u -> is_fence fence ->
  Sequence s acct = Ok cur -> fn (newUpdate (int64 (cur + 1))) = Ok u ->
  update db s acct fence now fn = Ok c ->
  be_inv (c_store c) /\ committed u (be_map s) (be_map (c_store c)).
Proof.
  intros Hreach Hok Hf Hseq Hfn. unfold update. rewrite Hseq. cbn [mbind result_bind]. rewrite Hfn. cbn [mbind result_bind].
  pose proof (reach_wf db s acct Hs u Hreach) as Hu. pose proof (sorted_staged_spec db acct _ u Hu) as [Hnd Hin].
  destruct (idle u) eqn:Eidle.
  { intros [= <-]. cbn. split; [done|]. unfold idle in Eidle. apply andb_prop in Eidle as [[E _]%andb_prop _].
    apply bool_decide_eq_true in E. constructor; [|done]. intros st Hst. apply Hin in Hst.
    rewrite E, lookup_empty in Hst. done. }
  intros ([batch touched] & Hb & (s' & Hw & [= <-])%result_bind_Ok)%result_bind_Ok. cbn [fst snd c_store] in *.
  apply buildBatch_shape in Hb as (ops & types & post & Hst & -> & Hpost).
  assert (Hwf : forall st, st ∈ sorted_staged u -> staged_ok db acct (be_map s) st).
  { intros st Hst'%Hin. pose proof (uw_staged _ _ _ _ Hu _ _ Hst') as [_ Hsw]. destruct (Hok _ _ Hst'). by constructor. }
  eapply (stage_records_effects db acct Hdb (be_map s)) in Hst as (rops & -> & [Ra Rp Rf]); [|done|done|].
  2: { intros st Hst'%Hin. by eapply old_is_committed. }
  destruct (Hf (Set_ ((tag_ops acct (u_tagOps u) ++ rops) ++ post) (seqKey acct) (Some (EncodeInt64 (int64 (cur + 1))))))
    as (asserts & Hfe & Has). rewrite Hfe in Hw. rewrite Set_app in Hw.
  set (tail := post ++ [OpSet (seqKey acct) (Some (EncodeInt64 (int64 (cur + 1))))]).
  assert (Htail : ctl_ops acct tail).
  { apply ctl_snoc; [done|done|]. right. right. by right. }
  apply WriteBatch_run in Hw as [Hi' Hm']; [|done|].
  2: { pose proof (ctl_no_adds acct _ (tag_ops_ctl acct (u_tagOps u))). pose proof (ctl_no_adds acct _ Hpost).
       pose proof (is_assert_no_adds _ Has). rewrite !no_adds_app. repeat split; try done. by repeat constructor. }
  split; [done|].
  assert (Hm : forall k, data_key acct k -> be_map s' !! k = run (run (be_map s) (tag_ops acct (u_tagOps u))) rops !! k).
  { intros k Hk. rewrite Hm'. rewrite run_app, (run_asserts _ _ Has), <- !app_assoc, !run_app. fold tail.
    rewrite <- run_app. by apply (ctl_run acct _ tail). }
  assert (H1 : forall k, data_key acct k -> run (be_map s) (tag_ops acct (u_tagOps u)) !! k = be_map s !! k).
  { intros k Hk. by apply (ctl_run acct); [|apply tag_ops_ctl|]. }
  assert (Hfp : forall st k, st_fp db acct st k -> data_key acct k).
  { intros st k [-> |Hk]; [left; eauto|right; eauto]. }
  constructor.
  - intros st Hst. assert (Hpre : forall st, st ∈ sorted_staged u -> st_pre db acct (run (be_map s) (tag_ops acct (u_tagOps u))) st).
    { clear st Hst. intros st Hst. pose proof (Hwf st Hst) as [[Ht _ Ho] _ _]. apply Hin in Hst.
      pose proof (old_is_committed u st Hu Hst) as [Hold _]. split.
      - intros k Hk. unfold present. rewrite H1 by (right; eauto). rewrite <- Hold. by apply (ii_index _ _ _ Hinv).
      - intros Hc. rewrite Hc in Ho. rewrite H1 by (left; eauto). naive_solver. }
    pose proof (Rp _ Hpre st Hst) as [Hp Hob]. split.
    + intros k Hk. unfold present. rewrite Hm by (right; eauto). by apply Hp.
    + rewrite Hm by (left; eauto). exact Hob.
  - intros k Hk Hnot. rewrite Hm by done. rewrite Rf; [by apply H1|done|].
    intros [b ->]. apply data_key_shape in Hk as (tg & rest & E & Htg). apply Key_injective in E. injection E as <- _.
    by destruct Htg as [?|[?|?]].
Qed.

Lemma committed_staged u m' k st :
  update_wf db acct (be_map s) u -> staging_ok u -> committed u (be_map s) m' -> u_staged u !! k = Some st ->
  obj_at db m' acct (st_typeName st) (st_id st) = st_new st /\
  forall raw, m' !! objKey acct (st_typeName st) (st_id st) = Some raw ->
    exists o, decodeStored db (sbytes raw) = Ok (Some o) /\ values_nonempty (Some o).
Proof.
  intros Hu Hok [Hst _] Hk. pose proof (uw_staged _ _ _ _ Hu _ _ Hk) as [-> Hwf].
  destruct (Hok _ _ Hk) as [_ Hc]. pose proof (sorted_staged_spec db acct _ u Hu) as [_ Hin].
  destruct (Hst st (proj2 (Hin st) Hk)) as [_ Hob]. unfold obj_at. destruct (st_new st) as [o|] eqn:En.
  - destruct Hob as (raw & He & ->). assert (Hd : decodeStored db raw = Ok (Some o)).
    { apply decode_encoded; [by apply Hc| |done]. intros name. by eapply staged_utf8. }
    change (sbytes (Some raw)) with raw. rewrite Hd. split; [done|]. intros raw' [= <-]. exists o.
    change (sbytes (Some raw)) with raw.
    split; [done|]. intros name. by eapply encoded_nonempty.
  - by rewrite Hob.
Qed.

(** A record that is not staged lies outside every staged footprint. *)
Lemma unstaged_outside u n t id k :
  update_wf db acct (be_map s) u -> db_types db !! n = Some t -> u_staged u !! stagedKey n id = None ->
  (k = objKey acct n id \/ rec_fp acct t id k) -> forall st, st ∈ sorted_staged u -> ~ st_fp db acct st k.
Proof.
  intros Hu Ht Hno Hk st Hst Hfp. pose proof (sorted_staged_spec db acct _ u Hu) as [_ Hin]. apply Hin in Hst.
  pose proof (uw_staged _ _ _ _ Hu _ _ Hst) as [_ [Ht' _ _]].
  assert (st_typeName st = n /\ st_id st = id) as [E1 E2].
  { destruct Hk as [-> |Hk], Hfp as [E|Hk'].
    - apply Key_injective in E. by injection E as -> ->.
    - by apply objKey_not_fp in Hk'.
    - subst k. by apply objKey_not_fp in Hk.
    - destruct (rec_fp_key _ _ _ _ _ _ Hk Hk') as [E1 ->]. split; [|done].
      destruct (dw_types db Hdb _ _ Ht) as [<- _]. destruct (dw_types db Hdb _ _ Ht') as [<- _]. done. }
  unfold st_key in Hst. rewrite E1, E2, Hno in Hst. done.
Qed.

Lemma committed_index_inv u m' :
  update_wf db acct (be_map s) u -> staging_ok u -> committed u (be_map s) m' ->
  index_inv db acct m' /\
  (forall n t id, db_types db !! n = Some t -> u_staged u !! stagedKey n id = None ->
     obj_at db m' acct n id = obj_at db (be_map s) acct n id).
Proof.
  intros Hu Hok Hcm. pose proof Hcm as [Hst Hother].
  assert (Hun : forall n t id k, db_types db !! n = Some t -> u_staged u !! stagedKey n id = None ->
    (k = objKey acct n id \/ rec_fp acct t id k) -> m' !! k = be_map s !! k).
  { intros n t id k Ht Hno Hk. apply Hother; [|by eapply unstaged_outside].
    destruct Hk as [-> |Hk]; [left; eauto|right; eauto]. }
  assert (Hobj : forall n t id, db_types db !! n = Some t -> u_staged u !! stagedKey n id = None ->
     obj_at db m' acct n id = obj_at db (be_map s) acct n id).
  { intros n t id Ht Hno. unfold obj_at. by rewrite (Hun n t id) by auto. }
  split; [|done]. constructor.
  - intros n t id raw Ht Hraw. destruct (u_staged u !! stagedKey n id) as [st|] eqn:Est.
    + pose proof (uw_staged _ _ _ _ Hu _ _ Est) as [[= -> ->] _]. by eapply (committed_staged u m').
    + rewrite (Hun n t id) in Hraw by auto. by eapply (ii_decodes _ _ _ Hinv).
  - intros n t id k Ht Hk. destruct (u_staged u !! stagedKey n id) as [st|] eqn:Est.
    + pose proof (uw_staged _ _ _ _ Hu _ _ Est) as [[= -> ->] [Ht' _ _]].
      assert (t = type_of db st) as -> by congruence.
      destruct (committed_staged u m' _ st Hu Hok Hcm Est) as [-> _].
      pose proof (sorted_staged_spec db acct _ u Hu) as [_ Hin]. by apply (Hst st (proj2 (Hin st) Est)).
    + unfold present. rewrite (Hun n t id), (Hobj n t id) by auto. by apply (ii_index _ _ _ Hinv).
Qed.
End commit.

(** What a create stages. *)
Lemma Create_staged `{MR : MapRange, TP : TimeParse} (db : DB) (u : Update) (now : Z) (rnd n : bytes) (obj : Object) (u' : Update) (id : Id) :
  Create db u now rnd n obj = Ok (u', id) ->
  u_staged u' = <[stagedKey n id := mkStaged n id None (Some (<[bs "id" := marshal_id id]> obj)) true false]> (u_staged u).
Proof.
  unfold Create. destruct (db_types db !! n); [|done]. destruct (obj !! _); [done|].
  intros (_ & _ & Hr)%result_bind_Ok. destruct (newId db u now rnd) as [u1 id1] eqn:En.
  injection Hr as <- <-. cbn. unfold newId in En. destruct (db_idScheme db); by injection En as <- _.
Qed.

(** ** The example database *)

Section demo.
#[local] Existing Instances map_order Instances.demo_codec Instances.demo_time Instances.demo_fold Memory.memory_backend Memory.memory_laws.
Import Instances.

Lemma no_fence_fence : is_fence no_fence.
Proof. intros b. exists []. by rewrite app_nil_r. Qed.

Lemma demo_staged :
  u_staged demo_u !! stagedKey (bs "Note") demo_id =
  Some (mkStaged (bs "Note") demo_id None (Some (<[bs "id" := marshal_id demo_id]> demo_obj)) true false).
Proof.
  unfold demo_u. rewrite (Create_staged demo_db (newUpdate 1) 0 demo_rnd (bs "Note") demo_obj _ demo_id).
  - apply lookup_insert_eq.
  - rewrite demo_create_ok. unfold demo_id. by destruct demo_create.
Qed.

Lemma demo_staging_ok : staging_ok demo_db demo_u.
Proof.
  intros k st Hst. unfold demo_u in Hst. rewrite (Create_staged demo_db (newUpdate 1) 0 demo_rnd (bs "Note") demo_obj _ demo_create.2) in Hst.
  2: { rewrite demo_create_ok. by destruct demo_create. }
  apply lookup_insert_Some in Hst as [[_ <-]|[_ Hst]]; [|unfold newUpdate in Hst; cbn [u_staged] in Hst; by rewrite lookup_empty in Hst]. cbn [st_old st_new].
  split; [intros name p Hp Hi; done|]. intros o [= <-] name v Hv.
  apply lookup_insert_Some in Hv as [[_ <-]|[_ Hv%elem_of_list_to_map_2]]; [vm_compute; reflexivity|].
  repeat (apply elem_of_cons in Hv as [[= _ ->]|Hv]; [vm_compute; reflexivity|]). by apply not_elem_of_nil in Hv.
Qed.
End demo.


End CommitIndex.
