(* ===== verification/Reach.v ===== *)
(** * Reach: every key of an account, in every reachable store

    Which keys a commit may write ([written_by]), and with it the invariant of
    an account over any sequence of commits: indexes mirror records, index
    keys have the layout of [idxKey], record ids are valid. *)

From S2P Require Import Prelude GoLib Keyenc Backend Batches Memory Jsonscan Jmap Descriptor Keys ObjectDB SetIndex.
From S2P Require Import Commit Indexing CommitFacts Instances CommitIndex.

Module Reach.
Import Keyenc Backend Batches Jsonscan Jmap Descriptor Keys ObjectDB SetIndex Commit Indexing CommitFacts CommitIndex.

(** ** Batches that grow by operations on known keys *)

Definition extends (P : bytes -> Prop) (b b' : Batch) : Prop :=
  exists ops, b' = b ++ ops /\ Forall (fun op => is_add op = false /\ P (op_key op)) ops.

Lemma extends_refl P b : extends P b b.
Proof. exists []. rewrite app_nil_r. split; [done|constructor]. Qed.

Lemma extends_trans P b1 b2 b3 : extends P b1 b2 -> extends P b2 b3 -> extends P b1 b3.
Proof.
  intros (o1 & -> & H1) (o2 & -> & H2). exists (o1 ++ o2). rewrite app_assoc. split; [done|]. by apply Forall_app.
Qed.

Lemma extends_mono (P Q : bytes -> Prop) b b' : (forall k, P k -> Q k) -> extends P b b' -> extends Q b b'.
Proof. intros H (ops & -> & Hf). exists ops. split; [done|]. eapply Forall_impl; [exact Hf|]. intros op [? ?]. auto. Qed.

Lemma extends_Set (P : bytes -> Prop) b b' k v : P k -> extends P b b' -> extends P b (Set_ b' k v).
Proof. intros Hk H. eapply extends_trans; [exact H|]. exists [OpSet k v]. by repeat constructor. Qed.

Lemma extends_Delete (P : bytes -> Prop) b b' k : P k -> extends P b b' -> extends P b (Delete b' k).
Proof. intros Hk H. eapply extends_trans; [exact H|]. exists [OpDelete k]. by repeat constructor. Qed.

Lemma extends_fold {A} P (f : Batch -> A -> Batch) l b :
  (forall b x, x ∈ l -> extends P b (f b x)) -> extends P b (fold_left f l b).
Proof.
  revert b. induction l as [|x l IH]; intros b H; [apply extends_refl|]. cbn.
  eapply extends_trans; [apply H; by left|]. apply IH. intros b' y Hy. apply H. by right.
Qed.

Create HintDb batch discriminated.
#[export] Hint Resolve extends_refl extends_Set extends_Delete extends_fold : batch.

(** A key that is present after a batch was there before or was written. *)
Lemma run_present m ops k : present (run m ops) k -> present m k \/ exists v, OpSet k v ∈ ops.
Proof.
  revert m. induction ops as [|op ops IH]; intros m; [by left|]. rewrite run_cons. intros [H|[v H]]%IH.
  - destruct op as [k0 v|k0|k0|k0]; cbn [run_op] in H; unfold present in *; auto.
    + destruct (decide (k = k0)) as [-> |Hne]; [right; exists v; by left|]. rewrite lookup_insert_ne in H by done. auto.
    + destruct (decide (k = k0)) as [-> |Hne]; [rewrite lookup_delete_eq in H; by destruct H|].
      rewrite lookup_delete_ne in H by done. auto.
  - right. exists v. by right.
Qed.

Section keys.
Context `{MR : MapRange, TP : TimeParse, CF : CaseFold, LC : LogCodec}.
Variable acct : Id.

(** A key of the record [id] of type [t]: an index entry, a reference, or the
    sweep hint of a blob it refers to. *)
Definition index_key (t : Type_) (id : Id) (k : bytes) : Prop :=
  (exists name v rest, k = Key ([acct; bs "x"; t_Name t; name] ++ (v :: rest) ++ [id])) \/ ref_fp acct t id k \/ is_pending acct k.

Lemma idxKey_index t id name v ord : index_key t id (idxKey acct (t_Name t) name v ord id).
Proof. left. by exists name, v, ord. Qed.
Lemma refKey_index t id b : index_key t id (refKey acct b (t_Name t) id).
Proof. right. left. by exists b. Qed.
Lemma pendingKey_index t id b : index_key t id (pendingKey acct b).
Proof. right. right. by exists b. Qed.
Hint Resolve idxKey_index refKey_index pendingKey_index : batch.

Lemma index_prop_extends t id old new b np b' :
  index_prop acct t id old new b np = Ok b' -> extends (index_key t id) b b'.
Proof.
  destruct np as [name p]. unfold index_prop. destruct (negb _); [intros [= <-]; auto with batch|].
  intros (ov & _ & (nv & _ & Hr)%result_bind_Ok)%result_bind_Ok. destruct ov as [ov|], nv as [nv|].
  - destruct (bool_decide _); [injection Hr as <-; auto with batch|].
    apply result_bind_Ok in Hr as (ord & _ & [= <-]). auto 6 with batch.
  - apply result_bind_Ok in Hr as (ord & _ & [= <-]). auto with batch.
  - apply result_bind_Ok in Hr as (ord & _ & [= <-]). auto with batch.
  - injection Hr as <-. auto with batch.
Qed.

Lemma set_index_prop_extends t id old new b np b' :
  set_index_prop acct t id old new b np = Ok b' -> extends (index_key t id) b b'.
Proof.
  destruct np as [name p]. unfold set_index_prop. destruct (negb _); [intros [= <-]; auto with batch|].
  destruct (bool_decide _); [intros [= <-]; auto with batch|].
  intros (oldM & _ & (newM & _ & [= <-])%result_bind_Ok)%result_bind_Ok. unfold member_ops.
  eapply extends_trans; [|apply extends_fold; intros b1 m _; destruct (contains _ _); auto with batch].
  apply extends_fold; intros b1 m _; destruct (contains _ _); auto with batch.
Qed.

Lemma fold_props_extends P f ps b b' :
  (forall b np b', f b np = Ok b' -> extends P b b') -> fold_props f ps b = Ok b' -> extends P b b'.
Proof.
  intros Hf. revert b. induction ps as [|np ps IH]; intros b; cbn; [intros [= <-]; apply extends_refl|].
  intros (b1 & H1%Hf & H2%IH)%result_bind_Ok. by eapply extends_trans.
Qed.

Lemma refOps_extends t id old new b : extends (index_key t id) b (refOps b acct t id old new).
Proof.
  unfold refOps. eapply extends_trans; [|apply extends_fold; intros b1 r _; destruct (has_ref _ _); auto 6 with batch].
  apply extends_fold; intros b1 r _; destruct (has_ref _ _); auto 6 with batch.
Qed.

Lemma record_indexes_extends b t id old new b' :
  record_indexes b acct t id old new = Ok b' -> extends (index_key t id) b b'.
Proof.
  intros (b1 & H1 & H2)%result_bind_Ok.
  eapply extends_trans; [eapply fold_props_extends; [apply index_prop_extends|exact H1]|].
  eapply extends_trans; [apply refOps_extends|]. eapply fold_props_extends; [apply set_index_prop_extends|exact H2].
Qed.

(** What staging a record may write. *)
Definition written_by (db : DB) (st : stagedRecord) (k : bytes) : Prop :=
  k = objKey acct (st_typeName st) (st_id st) \/ index_key (type_of db st) (st_id st) k.

Lemma stage_record_extends db b types st b' types' :
  stage_record db acct (b, types) st = Ok (b', types') -> extends (written_by db st) b b'.
Proof.
  assert (Hi : forall b0 old new b1, record_indexes b0 acct (type_of db st) (st_id st) old new = Ok b1 -> extends (written_by db st) b0 b1).
  { intros b0 old new b1 H%record_indexes_extends. eapply extends_mono; [|exact H]. intros k Hk. by right. }
  unfold stage_record. fold (type_of db st). destruct (_ && _); [intros [= <- _]; auto with batch|].
  destruct (st_new st) as [new|].
  - intros (raw & _ & Hr)%result_bind_Ok.
    assert (Hr' : exists old b1, record_indexes (Set_ b (objKey acct (st_typeName st) (st_id st)) (Some raw)) acct (type_of db st) (st_id st) old (Some new) = Ok b1 /\ b' = b1).
    { destruct (st_created st); apply result_bind_Ok in Hr as (b1 & H1 & Hr); [|destruct (st_quiet st)]; injection Hr as <- _; eauto. }
    destruct Hr' as (old & b1 & H1%Hi & ->). eapply extends_trans; [|exact H1]. apply extends_Set; [by left|apply extends_refl].
  - intros (b1 & H1%Hi & [= <- _])%result_bind_Ok. eapply extends_trans; [|exact H1].
    apply extends_Delete; [by left|apply extends_refl].
Qed.

Lemma stage_records_extends db sts b types b' types' :
  stage_records db acct sts (b, types) = Ok (b', types') ->
  extends (fun k => exists st, st ∈ sts /\ written_by db st k) b b'.
Proof.
  revert b types. induction sts as [|st sts IH]; intros b types; cbn; [intros [= <- _]; apply extends_refl|].
  intros ([b1 ty1] & H1%stage_record_extends & H2%IH)%result_bind_Ok.
  eapply extends_trans; [eapply extends_mono; [|exact H1]|eapply extends_mono; [|exact H2]].
  - intros k Hk. exists st. split; [by left|done].
  - intros k (st' & Hin & Hk). exists st'. split; [by right|done].
Qed.

(** Every key of a batch is control data, or belongs to a staged record. *)
Lemma buildBatch_keys db u seq now batch touched :
  buildBatch db acct u seq now = Ok (batch, touched) ->
  Forall (fun op => is_add op = false /\
    (ctl_key acct (op_key op) \/ exists st, st ∈ sorted_staged u /\ written_by db st (op_key op))) batch.
Proof.
  intros (ops & types & post & Hs & -> & Hp)%buildBatch_shape.
  apply stage_records_extends in Hs as (rops & -> & Hr). rewrite !Forall_app. split; [split|].
  - eapply Forall_impl; [apply tag_ops_ctl|]. cbn. tauto.
  - eapply Forall_impl; [exact Hr|]. cbn. tauto.
  - eapply Forall_impl; [exact Hp|]. cbn. tauto.
Qed.
End keys.

(** ** The layout of an account *)

Record index_shape (acct : Id) (m : kvmap) : Prop := mkIndexShape {
  is_keys : forall k n name t, present m k -> k = Key [acct; bs "x"; n; name] ++ t ->
    exists v rest id, k = Key ([acct; bs "x"; n; name] ++ (v :: rest) ++ [id]);
  is_ids : forall n id, present m (objKey acct n id) -> Valid id = true;
  is_objs : forall k n t, present m k -> k = Key [acct; bs "o"; n] ++ t -> exists id, k = objKey acct n id;
}.

Lemma index_shape_empty acct : index_shape acct ∅.
Proof. constructor; intros *; unfold present; rewrite lookup_empty; by intros []. Qed.

Section shape.
Context `{MR : MapRange, TP : TimeParse, CF : CaseFold, LC : LogCodec}.
Context {S : Type} `{BE : Backend S, BL : !BackendLaws S}.
Variable db : DB.
Variable s : S.
Variable acct : Id.

(** Ids made by the Update itself are valid. *)
Definition created_valid (u : Update) : Prop :=
  forall k st, u_staged u !! k = Some st -> st_created st = true -> Valid (st_id st) = true.

Lemma newId_valid u now rnd u' id : newId db u now rnd = (u', id) -> Valid id = true /\ u_staged u' = u_staged u.
Proof.
  assert (Ht : forall n (l : bytes), (length (take n l) <= n)%nat) by (intros; rewrite length_take; lia).
  assert (Hb : forall n z, length (be_bytes n z) = n) by (intros; apply be_bytes_length).
  unfold newId, NewId, NewULID, NewSequenceId. specialize (Ht 16%nat rnd) as H1. specialize (Ht 10%nat rnd) as H2. specialize (Ht 8%nat rnd) as H3.
  destruct (db_idScheme db); intros [= <- <-]; (split; [apply Valid_encoded|done]); rewrite ?length_app, ?Hb; cbn [length]; lia.
Qed.

Lemma created_valid_staged u st : created_valid u -> (st_created st = true -> Valid (st_id st) = true) -> created_valid (set_staged u st).
Proof. intros Hu Hst k st' Hl. cbn in Hl. apply lookup_insert_Some in Hl as [[_ <-]|[_ Hl]]; [done|by eapply Hu]. Qed.

Lemma reach_created_valid (Hs : be_inv s) u : reach db s acct u -> created_valid u.
Proof.
  induction 1 as [seq|u n id u' o Hr IH Hg|u n ids u' out Hr IH Hg|u now rnd n obj u' id Hr IH Hc _ _|u n id obj u' Hr IH Hp|u n id obj u' Hr IH Hp
    |u n id u' Hr IH Hp|u n u' Hr IH Hb|u tag u' Hr IH Hb|u tag u' Hr IH Hb].
  - intros k st. cbn. by rewrite lookup_empty.
  - pose proof (u_Get_wf db s acct Hs _ _ _ _ _ (reach_wf db s acct Hs u Hr) Hg) as [_ E].
    intros k st. rewrite E. apply IH.
  - pose proof (u_GetMany_wf db s acct Hs _ _ _ _ _ (reach_wf db s acct Hs u Hr) Hg) as [_ E].
    intros k st. rewrite E. apply IH.
  - unfold Create in Hc. destruct (db_types db !! n); [|done]. destruct (obj !! _); [done|].
    apply result_bind_Ok in Hc as (_ & _ & Hc). destruct (newId db u now rnd) as [u1 id1] eqn:En. injection Hc as <- <-.
    apply newId_valid in En as [Hv E]. apply created_valid_staged; [|done]. intros k st. rewrite E. apply IH.
  - unfold Put in Hp. destruct (db_types db !! n); [|done]. destruct (negb _); [done|].
    destruct (u_staged u !! stagedKey n id) as [st|] eqn:Es.
    + destruct (st_new st); [|done]. apply result_bind_Ok in Hp as (_ & _ & [= <-]). apply created_valid_staged; [done|]. by apply (IH _ _ Es).
    + apply result_bind_Ok in Hp as ([u1 old] & Hg & (_ & _ & [= <-])%result_bind_Ok). cbn [fst snd].
      pose proof (getCommitted_wf db s acct Hs _ _ _ _ _ (reach_wf db s acct Hs u Hr) Hg) as (_ & E & _).
      apply created_valid_staged; [|done]. intros k st. rewrite E. apply IH.
  - unfold PutInternal in Hp. destruct (db_types db !! n); [|done]. destruct (negb _); [done|].
    apply result_bind_Ok in Hp as ([u1 prior] & Hg & (_ & _ & Hp)%result_bind_Ok). cbn [fst snd] in *. destruct (negb _); [done|].
    pose proof (u_Get_wf db s acct Hs _ _ _ _ _ (reach_wf db s acct Hs u Hr) Hg) as [_ E].
    assert (IH' : created_valid u1) by (intros k st; rewrite E; apply IH).
    destruct (u_staged u1 !! stagedKey n id) as [st|] eqn:Es; injection Hp as <-; apply created_valid_staged; try done. by apply (IH' _ _ Es).
  - unfold Destroy in Hp. destruct (db_types db !! n); [|done].
    destruct (u_staged u !! stagedKey n id) as [st|] eqn:Es.
    + destruct (st_new st); [|done]. injection Hp as <-. apply created_valid_staged; [done|]. by apply (IH _ _ Es).
    + apply result_bind_Ok in Hp as ([u1 old] & Hg & [= <-]). cbn [fst snd].
      pose proof (getCommitted_wf db s acct Hs _ _ _ _ _ (reach_wf db s acct Hs u Hr) Hg) as (_ & E & _).
      apply created_valid_staged; [|done]. intros k st. rewrite E. apply IH.
  - unfold BumpState in Hb. destruct (db_types db !! n); [|done]. by injection Hb as <-.
  - unfold SetAccountTag in Hb. destruct (bool_decide _); [done|]. by injection Hb as <-.
  - unfold ClearAccountTag in Hb. do 2 (destruct (bool_decide _); [done|]). by injection Hb as <-.
Qed.

(** ** What a commit writes *)

Lemma update_inv u fence now cur fn c :
  be_inv s -> is_fence fence -> Sequence s acct = Ok cur -> fn (newUpdate (int64 (cur + 1))) = Ok u ->
  update db s acct fence now fn = Ok c ->
  (idle u = true /\ c = mkCommitted s ∅ ∅) \/
  (idle u = false /\ exists batch touched, buildBatch db acct u (int64 (cur + 1)) now = Ok (batch, touched) /\
     be_inv (c_store c) /\
     be_map (c_store c) = run (be_map s) (Set_ batch (seqKey acct) (Some (EncodeInt64 (int64 (cur + 1))))) /\
     c_states c = list_to_map (map (fun t => (t, FormatInt (int64 (cur + 1)))) touched)).
Proof.
  intros Hs Hf Hseq Hfn. unfold update. rewrite Hseq. cbn [mbind result_bind]. rewrite Hfn. cbn [mbind result_bind].
  destruct (idle u); [intros [= <-]; by left|]. intros Hr. right. split; [done|].
  apply result_bind_Ok in Hr as ([batch touched] & Hb & (s' & Hw & [= <-])%result_bind_Ok). cbn [fst snd c_store c_states] in *.
  exists batch, touched. split; [done|].
  destruct (Hf (Set_ batch (seqKey acct) (Some (EncodeInt64 (int64 (cur + 1)))))) as (asserts & E & Ha). rewrite E in Hw.
  apply WriteBatch_run in Hw as [Hi Hm]; [|done|].
  - rewrite Hm, run_app, (run_asserts _ _ Ha). done.
  - apply no_adds_app. split; [|by apply is_assert_no_adds]. apply no_adds_app. split; [|by repeat constructor].
    eapply Forall_impl; [by eapply buildBatch_keys|]. by intros op [? _].
Qed.

Lemma good_obj k tag rest n t : k = Key (acct :: tag :: rest) -> k = Key [acct; bs "o"; n] ++ t -> tag = bs "o".
Proof. intros -> E. symmetry in E. apply Key_prefix_inv in E as (c & E & _). by injection E. Qed.

Lemma good_seg k tag rest n name t : k = Key (acct :: tag :: rest) -> k = Key [acct; bs "x"; n; name] ++ t -> tag = bs "x".
Proof. intros -> E. symmetry in E. apply Key_prefix_inv in E as (c & E & _). by injection E. Qed.

(** A written key has the layout of its family. *)
Lemma written_shape u k :
  Valid acct = true -> created_valid u -> update_wf db acct (be_map s) u -> index_shape acct (be_map s) ->
  k = seqKey acct \/ ctl_key acct k \/ (exists st, st ∈ sorted_staged u /\ written_by acct db st k) ->
  (forall n name t, k = Key [acct; bs "x"; n; name] ++ t ->
     exists v rest id, k = Key ([acct; bs "x"; n; name] ++ (v :: rest) ++ [id])) /\
  (forall n id, k = objKey acct n id -> Valid id = true) /\
  (forall n t, k = Key [acct; bs "o"; n] ++ t -> exists id, k = objKey acct n id).
Proof.
  intros Hv Hcv Hu Hsh Hk. pose proof (acct_not_tag acct Hv) as Htag.
  assert (Hctl : ctl_key acct k -> (forall n name t, k <> Key [acct; bs "x"; n; name] ++ t) /\ (forall n id, k <> objKey acct n id) /\
    (forall n t, k <> Key [acct; bs "o"; n] ++ t)).
  { intros Hc. split; [|split].
    - intros n name t E. destruct Hc as [(tg & a & ->)|[(n' & ->)|[(z & ->)| ->]]].
      + symmetry in E. apply Key_prefix_inv in E as (c & E & _). injection E as E. by subst.
      + eapply good_seg in E; [|reflexivity]. done.
      + eapply good_seg in E; [|reflexivity]. done.
      + eapply good_seg in E; [|reflexivity]. done.
    - intros n id ->. eapply ctl_not_data; [exact Hv|exact Hc|]. left. eauto.
    - intros n t E. destruct Hc as [(tg & a & ->)|[(n' & ->)|[(z & ->)| ->]]].
      + symmetry in E. apply Key_prefix_inv in E as (c & E & _). injection E as E. by subst.
      + eapply good_obj in E; [|reflexivity]. done.
      + eapply good_obj in E; [|reflexivity]. done.
      + eapply good_obj in E; [|reflexivity]. done. }
  destruct Hk as [Hk|[Hc|(st & Hin & Hw)]].
  - destruct Hctl as (H1 & H2 & H3); [subst; right; right; by right|].
    split; [intros n name t E; by apply H1 in E|split; [intros n id E; by apply H2 in E|intros n t E; by apply H3 in E]].
  - destruct Hctl as (H1 & H2 & H3); [done|].
    split; [intros n name t E; by apply H1 in E|split; [intros n id E; by apply H2 in E|intros n t E; by apply H3 in E]].
  - destruct Hw as [-> |[(name & v & rest & ->)|[[b ->]|[b ->]]]].
    + split; [intros n name t E; by eapply good_seg in E; [|reflexivity]|split].
      2: { intros n t E. exists (st_id st). symmetry in E. apply Key_prefix_inv in E as (c & E & _). by injection E as <- _. }
      intros n id E. apply Key_injective in E. injection E as _ <-.
      apply (sorted_staged_spec db acct _ u Hu) in Hin. pose proof (uw_staged _ _ _ _ Hu _ _ Hin) as [_ [_ _ Ho]].
      destruct (st_created st) eqn:Ec; [by eapply Hcv|]. destruct Ho as (raw & Hm & _).
      eapply (is_ids _ _ Hsh (st_typeName st)). unfold present. by rewrite Hm.
    + split; [|split; [intros n id E; apply Key_injective in E; by injection E|intros n t E; by eapply good_obj in E; [|reflexivity]]].
      intros n name' t E. exists v, rest, (st_id st). symmetry in E. apply Key_prefix_inv in E as (c & E & _). by injection E as <- <- _.
    + split; [intros n name t E; by eapply good_seg in E; [|reflexivity]|]. split; [|intros n t E; by eapply good_obj in E; [|reflexivity]].
      intros n id E. apply Key_injective in E. by injection E.
    + split; [intros n name t E; by eapply good_seg in E; [|reflexivity]|]. split; [|intros n t E; by eapply good_obj in E; [|reflexivity]].
      intros n id E. apply Key_injective in E. by injection E.
Qed.

Lemma update_shape u fence now cur fn c :
  be_inv s -> Valid acct = true -> reach db s acct u -> is_fence fence -> Sequence s acct = Ok cur ->
  fn (newUpdate (int64 (cur + 1))) = Ok u -> update db s acct fence now fn = Ok c ->
  index_shape acct (be_map s) -> index_shape acct (be_map (c_store c)).
Proof.
  intros Hs Hv Hr Hf Hseq Hfn Hc Hsh.
  destruct (update_inv u fence now cur fn c) as [[_ ->]|(_ & batch & touched & Hb & _ & Hm & _)]; [done..|].
  pose proof (reach_wf db s acct Hs u Hr) as Hu. pose proof (reach_created_valid Hs u Hr) as Hcv.
  apply buildBatch_keys in Hb. rewrite Hm.
  assert (Hk : forall k, present (run (be_map s) (Set_ batch (seqKey acct) (Some (EncodeInt64 (int64 (cur + 1)))))) k ->
    present (be_map s) k \/ (k = seqKey acct \/ ctl_key acct k \/ (exists st, st ∈ sorted_staged u /\ written_by acct db st k))).
  { intros k [Hk|[v Hin]]%run_present; [by left|right]. rewrite Set_app in Hin.
    apply elem_of_app in Hin as [Hin|[= -> ->]%list_elem_of_singleton]; [right|by left].
    rewrite Forall_forall in Hb. by apply Hb in Hin as [_ Hin]. }
  constructor.
  - intros k n name t [Hp|Hw]%Hk E; [by eapply is_keys|]. by eapply (written_shape u k).
  - intros n id [Hp|Hw]%Hk; [by eapply is_ids|]. by eapply (written_shape u (objKey acct n id)).
  - intros k n t [Hp|Hw]%Hk E; [by eapply is_objs|]. by eapply (written_shape u k).
Qed.
End shape.

(** ** Reachable accounts *)

(** The stores an account goes through: it starts without keys; its commits
    run under its lease, so each starts from the store the previous one left,
    up to writes that are not to its records and indexes - commits of other
    accounts, and this account's uploads, sweeps and log trims. *)
Definition same_data (acct : Id) (m m' : kvmap) : Prop :=
  forall tag tl, tag = bs "o" \/ tag = bs "x" \/ tag = bs "r" ->
    m' !! (Key [acct; tag] ++ tl) = m !! (Key [acct; tag] ++ tl).

Inductive account_reach `{MR : MapRange, TP : TimeParse, CF : CaseFold, LC : LogCodec}
  {S : Type} `{BE : Backend S, BL : !BackendLaws S} (db : DB) (acct : Id) : S -> Prop :=
  | ar_new s : be_inv s -> be_map s = ∅ -> account_reach db acct s
  | ar_commit s fence now cur fn u c :
      account_reach db acct s -> is_fence fence -> Sequence s acct = Ok cur -> fn (newUpdate (int64 (cur + 1))) = Ok u ->
      reach db s acct u -> staging_ok db u -> update db s acct fence now fn = Ok c ->
      account_reach db acct (c_store c)
  | ar_other s s' : account_reach db acct s -> be_inv s' -> same_data acct (be_map s) (be_map s') -> account_reach db acct s'.

Section reachable.
Context `{MR : MapRange, TP : TimeParse, CF : CaseFold, LC : LogCodec}.
Context {S : Type} `{BE : Backend S, BL : !BackendLaws S}.
Variable db : DB.
Variable acct : Id.
Hypothesis Hdb : db_wf db.
Hypothesis Hacct : Valid acct = true.

Lemma same_data_key m m' k : same_data acct m m' -> data_key acct k -> m' !! k = m !! k.
Proof.
  intros Hd (tag & rest & -> & Ht)%data_key_shape. change (acct :: tag :: rest) with ([acct; tag] ++ rest).
  rewrite Key_app. by apply Hd.
Qed.

Lemma same_data_inv m m' : same_data acct m m' -> index_inv db acct m -> index_inv db acct m'.
Proof.
  intros Hd [H1 H2]. assert (Ho : forall n id, m' !! objKey acct n id = m !! objKey acct n id).
  { intros n id. eapply same_data_key; [exact Hd|]. left. eauto. }
  constructor.
  - intros n t id raw Ht. rewrite Ho. by apply (H1 n t).
  - intros n t id k Ht Hk. unfold present, obj_at. rewrite Ho, (same_data_key m m' k Hd); [by apply (H2 n t)|]. right. eauto.
Qed.

Lemma same_data_shape m m' : same_data acct m m' -> index_shape acct m -> index_shape acct m'.
Proof.
  intros Hd [H1 H2 H3]. constructor.
  - intros k n name t Hp ->. apply (H1 _ n name t); [|done]. unfold present in *.
    change [acct; bs "x"; n; name] with ([acct; bs "x"] ++ [n; name]) in *. rewrite Key_app, <- app_assoc in *.
    by rewrite <- (Hd (bs "x") (Key [n; name] ++ t)) by auto.
  - intros n id Hp. apply (H2 n). unfold present in *. rewrite <- (same_data_key m m' _ Hd); [done|]. left. eauto.
  - intros k n t Hp ->. apply (H3 _ n t); [|done]. unfold present in *.
    change [acct; bs "o"; n] with ([acct; bs "o"] ++ [n]) in *. rewrite Key_app, <- app_assoc in *.
    by rewrite <- (Hd (bs "o") (Key [n] ++ t)) by auto.
Qed.

Lemma account_reach_inv s :
  account_reach db acct s -> be_inv s /\ index_inv db acct (be_map s) /\ index_shape acct (be_map s).
Proof.
  induction 1 as [s Hi Hm|s fence now cur fn u c _ (Hi & Hii & Hsh) Hf Hseq Hfn Hr Hok Hc|s s' _ (Hi & Hii & Hsh) Hi' Hd].
  - rewrite Hm. split; [done|]. split; [apply Instances.index_inv_empty|apply index_shape_empty].
  - destruct (update_committed db s acct Hdb Hacct Hi Hii u fence now cur fn c) as [Hi' Hcm]; [done..|].
    split; [done|]. split; [|by eapply (update_shape db s acct u)].
    by apply (committed_index_inv db s acct Hdb Hii u _ (reach_wf db s acct Hi u Hr) Hok Hcm).
  - split; [done|]. split; [by eapply same_data_inv|by eapply same_data_shape].
Qed.
End reachable.
End Reach.
