(* ===== verification/CommitLog.v ===== *)
(** * CommitLog: what a commit tells its readers

    The sequence number, the type states and the change log entry of one
    commit, as functions of what its Update staged. *)

From S2P Require Import Prelude GoLib Keyenc Backend Batches Memory Jsonscan Jmap Descriptor Keys ObjectDB SetIndex.
From S2P Require Import Commit Indexing CommitFacts Instances CommitIndex Reach.

Module CommitLog.
Import Keyenc Backend Batches Jsonscan Jmap Descriptor Keys ObjectDB SetIndex Commit Indexing CommitFacts CommitIndex Reach.

(** ** The specification of a log entry *)

(** How a staged record shows in the log: created, updated, destroyed, or -
    created and destroyed in one Update, or written by [PutInternal] alone -
    not at all. *)
Definition is_created (st : stagedRecord) : Prop := st_created st = true /\ st_new st <> None.
Definition is_updated (st : stagedRecord) : Prop := st_created st = false /\ st_new st <> None /\ st_quiet st = false.
Definition is_destroyed (st : stagedRecord) : Prop := st_created st = false /\ st_new st = None.
#[export] Instance is_created_dec st : Decision (is_created st).
Proof. unfold is_created. apply _. Defined.
#[export] Instance is_updated_dec st : Decision (is_updated st).
Proof. unfold is_updated. apply _. Defined.
#[export] Instance is_destroyed_dec st : Decision (is_destroyed st).
Proof. unfold is_destroyed. apply _. Defined.

(** The ids of the staged records of type [n] that satisfy [P], in order. *)
Definition ids_of (P : stagedRecord -> Prop) `{!forall st, Decision (P st)} (n : bytes) (sts : list stagedRecord) : list Id :=
  st_id <$> filter (fun st => st_typeName st = n /\ P st) sts.

Definition changed (n : bytes) (sts : list stagedRecord) : Prop :=
  ids_of is_created n sts ++ ids_of is_updated n sts ++ ids_of is_destroyed n sts <> [].
#[export] Instance changed_dec n sts : Decision (changed n sts).
Proof. unfold changed. apply _. Defined.

Section log.
Context `{MR : MapRange, TP : TimeParse, CF : CaseFold, LC : LogCodec}.

(** The visible names in which a record's two versions differ. *)
Definition visible_diff (db : DB) (st : stagedRecord) : list bytes :=
  List.filter (fun name => negb (is_internal (type_of db st) name)) (diffProps (st_old st) (st_new st)).

Lemma ids_of_snoc P `{!forall st, Decision (P st)} n sts st :
  ids_of P n (sts ++ [st]) = ids_of P n sts ++ (if decide (st_typeName st = n /\ P st) then [st_id st] else []).
Proof.
  unfold ids_of. rewrite filter_app, fmap_app. f_equal. rewrite filter_cons. by destruct (decide _).
Qed.

Lemma elem_of_mergeProps a b name : name ∈ mergeProps a b <-> name ∈ a \/ name ∈ b.
Proof. unfold mergeProps. by rewrite elem_of_sort_strings, elem_of_remove_dups, elem_of_app. Qed.

(** [name] is among the visible changes of the updates of type [n]. *)
Definition updated_name (db : DB) (n : bytes) (sts : list stagedRecord) (name : bytes) : Prop :=
  exists st, st ∈ sts /\ st_typeName st = n /\ is_updated st /\ name ∈ visible_diff db st.

Lemma updated_name_snoc db n sts st name :
  updated_name db n (sts ++ [st]) name <->
  updated_name db n sts name \/ (st_typeName st = n /\ is_updated st /\ name ∈ visible_diff db st).
Proof.
  unfold updated_name. split.
  - intros (st' & [Hin| ->%list_elem_of_singleton]%elem_of_app & H); eauto.
  - intros [(st' & Hin & H)|H]; [exists st'|exists st]; rewrite elem_of_app, list_elem_of_singleton; auto.
Qed.

(** [te] is the part of the log entry about type [n]. *)
Record describes (db : DB) (n : bytes) (sts : list stagedRecord) (te : logTypeEntry) : Prop := mkDescribes {
  ds_created : lt_Created te = ids_of is_created n sts;
  ds_updated : lt_Updated te = ids_of is_updated n sts;
  ds_destroyed : lt_Destroyed te = ids_of is_destroyed n sts;
  ds_props : match lt_UpdatedProps te with
             | None => ids_of is_updated n sts = []
             | Some ps => forall name, name ∈ ps <-> updated_name db n sts name
             end;
}.

(** A record that is no update of [n] leaves the property names alone. *)
Lemma props_skip db n sts st (ps : option (list bytes)) :
  ~ (st_typeName st = n /\ is_updated st) ->
  match ps with None => ids_of is_updated n sts = [] | Some l => forall name, name ∈ l <-> updated_name db n sts name end ->
  match ps with None => ids_of is_updated n (sts ++ [st]) = [] | Some l => forall name, name ∈ l <-> updated_name db n (sts ++ [st]) name end.
Proof.
  intros Hno. destruct ps as [l|].
  - intros H name. rewrite H, updated_name_snoc. tauto.
  - rewrite ids_of_snoc, decide_False, app_nil_r by done. done.
Qed.

Lemma ids_skip P {HD : forall st, Decision (P st)} n sts st : ~ (st_typeName st = n /\ P st) -> ids_of P n (sts ++ [st]) = ids_of P n sts.
Proof. intros Hn. by rewrite ids_of_snoc, decide_False, app_nil_r. Qed.
Lemma ids_add P {HD : forall st, Decision (P st)} sts st : P st -> ids_of P (st_typeName st) (sts ++ [st]) = ids_of P (st_typeName st) sts ++ [st_id st].
Proof. intros Hn. by rewrite ids_of_snoc, decide_True. Qed.

Lemma describes_skip db n sts st te :
  describes db n sts te -> ~ (st_typeName st = n /\ (is_created st \/ is_updated st \/ is_destroyed st)) ->
  describes db n (sts ++ [st]) te.
Proof. intros [H1 H2 H3 H4] Hno. constructor; [rewrite ids_skip by tauto; done..|]. apply props_skip; [tauto|done]. Qed.

Lemma describes_created db sts st te :
  describes db (st_typeName st) sts te -> is_created st ->
  describes db (st_typeName st) (sts ++ [st]) (mkLogType (lt_Created te ++ [st_id st]) (lt_Updated te) (lt_Destroyed te) (lt_UpdatedProps te)).
Proof.
  intros [H1 H2 H3 H4] Hc. assert (~ is_updated st /\ ~ is_destroyed st) as [Hu Hd].
  { destruct Hc as [Hc _]. split; [intros [? _]|intros [? _]]; congruence. }
  constructor; cbn; [rewrite ids_add by tauto; congruence|rewrite ids_skip by tauto; done..|]. apply props_skip; [tauto|done].
Qed.

Lemma describes_destroyed db sts st te :
  describes db (st_typeName st) sts te -> is_destroyed st ->
  describes db (st_typeName st) (sts ++ [st]) (mkLogType (lt_Created te) (lt_Updated te) (lt_Destroyed te ++ [st_id st]) (lt_UpdatedProps te)).
Proof.
  intros [H1 H2 H3 H4] Hc. assert (~ is_updated st /\ ~ is_created st) as [Hu Hd].
  { destruct Hc as [Hc Hn]. split; [intros (_ & ? & _)|intros [? _]]; congruence. }
  constructor; cbn; [rewrite ids_skip by tauto; done..|rewrite ids_add by tauto; congruence|]. apply props_skip; [tauto|done].
Qed.

Lemma describes_updated db sts st te :
  describes db (st_typeName st) sts te -> is_updated st ->
  describes db (st_typeName st) (sts ++ [st])
    (mkLogType (lt_Created te) (lt_Updated te ++ [st_id st]) (lt_Destroyed te)
       (Some (mergeProps (default [] (lt_UpdatedProps te)) (visible_diff db st)))).
Proof.
  intros [H1 H2 H3 H4] Hc. assert (~ is_destroyed st /\ ~ is_created st) as [Hu Hd].
  { destruct Hc as (Hc & Hn & _). split; [intros [_ ?]|intros [? _]]; congruence. }
  assert (Hold : forall name, name ∈ default [] (lt_UpdatedProps te) <-> updated_name db (st_typeName st) sts name).
  { intros name. destruct (lt_UpdatedProps te) as [ps|]; [apply H4|]. cbn. split; [by intros ?%not_elem_of_nil|].
    intros (st' & Hin & Hn & Hup & _). exfalso.
    assert (Hin' : st_id st' ∈ ids_of is_updated (st_typeName st) sts).
    { unfold ids_of. apply list_elem_of_fmap. exists st'. split; [done|]. by rewrite list_elem_of_filter. }
    rewrite H4 in Hin'. by apply not_elem_of_nil in Hin'. }
  constructor; cbn; [rewrite ids_skip by tauto; done|rewrite ids_add by tauto; congruence|rewrite ids_skip by tauto; done|].
  intros name. rewrite elem_of_mergeProps, Hold, updated_name_snoc. tauto.
Qed.

Lemma zero_describes db n : describes db n [] zeroLogType.
Proof. by constructor. Qed.

Definition types_describe (db : DB) (sts : list stagedRecord) (types : gmap bytes logTypeEntry) : Prop :=
  forall n, describes db n sts (default zeroLogType (types !! n)).

Lemma empty_describes db : types_describe db [] ∅.
Proof. intros n. rewrite lookup_empty. apply zero_describes. Qed.

Lemma types_describe_insert db sts types st te :
  types_describe db sts types ->
  describes db (st_typeName st) (sts ++ [st]) te ->
  types_describe db (sts ++ [st]) (<[st_typeName st := te]> types).
Proof.
  intros Ht Hte n. destruct (decide (n = st_typeName st)) as [-> |Hne].
  - by rewrite lookup_insert_eq.
  - rewrite lookup_insert_ne by done. apply describes_skip; [apply Ht|]. intros [E _]. by apply Hne.
Qed.

Lemma stage_record_types db acct b types sts st b' types' :
  types_describe db sts types -> stage_record db acct (b, types) st = Ok (b', types') ->
  types_describe db (sts ++ [st]) types'.
Proof.
  intros Ht. unfold stage_record. fold (type_of db st). set (te := default zeroLogType (types !! st_typeName st)).
  pose proof (Ht (st_typeName st)) as Hd. fold te in Hd.
  destruct (st_created st && bool_decide (st_new st = None)) eqn:Ecd.
  { intros [= _ <-]. apply andb_prop in Ecd as [Ec En]. apply bool_decide_eq_true in En. intros n.
    apply describes_skip; [apply Ht|]. intros [_ [[_ ?]|[[? _]|[? _]]]]; congruence. }
  destruct (st_new st) as [new|] eqn:En.
  - intros (raw & _ & Hr)%result_bind_Ok. destruct (st_created st) eqn:Ec.
    + apply result_bind_Ok in Hr as (b1 & _ & [= _ <-]). apply types_describe_insert; [done|].
      apply describes_created; [done|]. split; [done|by rewrite En].
    + apply result_bind_Ok in Hr as (b1 & _ & Hr). destruct (st_quiet st) eqn:Eq; injection Hr as _ <-; apply types_describe_insert; try done.
      * apply describes_skip; [done|]. intros [_ [[? _]|[(_ & _ & ?)|[_ ?]]]]; congruence.
      * rewrite <- En. apply describes_updated; [done|]. split; [done|]. by rewrite En.
  - intros (b1 & _ & [= _ <-])%result_bind_Ok. apply types_describe_insert; [done|].
    apply describes_destroyed; [done|]. split; [by destruct (st_created st)|done].
Qed.

Lemma stage_records_types db acct sts0 sts b types b' types' :
  types_describe db sts0 types -> stage_records db acct sts (b, types) = Ok (b', types') ->
  types_describe db (sts0 ++ sts) types'.
Proof.
  revert sts0 b types. induction sts as [|st sts IH]; intros sts0 b types Ht; cbn [stage_records].
  - intros [= _ <-]. by rewrite app_nil_r.
  - intros ([b1 t1] & H1 & H2)%result_bind_Ok. apply (stage_record_types db acct b types sts0) in H1; [|done].
    apply IH with (sts0 := sts0 ++ [st]) in H2; [|done]. by rewrite <- app_assoc in H2.
Qed.

(** ** The batch *)

Lemma describes_empty db n sts te : describes db n sts te -> entry_empty te = true <-> ~ changed n sts.
Proof.
  intros [H1 H2 H3 _]. unfold entry_empty, changed. rewrite H1, H2, H3, Nat.eqb_eq. split.
  - intros Hl Hne. apply Hne. apply length_zero_iff_nil. rewrite !length_app. lia.
  - intros Hne. destruct (decide (ids_of is_created n sts ++ ids_of is_updated n sts ++ ids_of is_destroyed n sts = [])) as [E|E]; [|done].
    apply (f_equal length) in E. rewrite !length_app in E. cbn in E. lia.
Qed.

(** The types of the log entry: those with changes, described. *)
Definition live_describes (db : DB) (sts : list stagedRecord) (live : gmap bytes logTypeEntry) : Prop :=
  forall n, match live !! n with Some te => describes db n sts te /\ changed n sts | None => ~ changed n sts end.

Lemma live_types db sts types :
  types_describe db sts types -> live_describes db sts (filter (fun nt : bytes * logTypeEntry => entry_empty nt.2 = false) types).
Proof.
  intros Ht n. specialize (Ht n). pose proof (describes_empty _ _ _ _ Ht) as He.
  destruct (filter _ types !! n) as [te|] eqn:E.
  - apply map_lookup_filter_Some in E as [E Hne]. rewrite E in Ht, He. cbn in Ht, He, Hne. split; [done|].
    destruct (decide (changed n sts)) as [|Hn]; [done|]. apply He in Hn. congruence.
  - apply He. apply map_lookup_filter_None in E as [E|E].
    + by rewrite E.
    + destruct (types !! n) as [te|]; [|done]. specialize (E te eq_refl). cbn in *. by destruct (entry_empty te).
Qed.

Definition state_sets (acct : Id) (seq : Z) (names : list bytes) : Batch :=
  map (fun n => OpSet (typeStateKey acct n) (Some (EncodeInt64 seq))) names.

Lemma state_ops_sets acct seq names b : state_ops acct seq names b = b ++ state_sets acct seq names.
Proof.
  revert b. induction names as [|n names IH]; intros b; [by rewrite app_nil_r|].
  change (state_ops acct seq (n :: names) b) with (state_ops acct seq names (Set_ b (typeStateKey acct n) (Some (EncodeInt64 seq)))).
  rewrite IH, Set_app, <- app_assoc. done.
Qed.

Definition log_sets (acct : Id) (seq now : Z) (live : gmap bytes logTypeEntry) : Batch :=
  if decide (live = ∅) then [] else [OpSet (logKey acct seq) (Some (marshalLog (mkLogEntry live now)))].

Lemma buildBatch_log db acct u seq now batch touched :
  buildBatch db acct u seq now = Ok (batch, touched) ->
  exists rops live,
    Forall (fun op => is_add op = false /\ exists st, st ∈ sorted_staged u /\ written_by acct db st (op_key op)) rops /\
    live_describes db (sorted_staged u) live /\
    (forall n, n ∈ touched <-> changed n (sorted_staged u) \/ is_Some (u_bumped u !! n)) /\
    batch = ((tag_ops acct (u_tagOps u) ++ rops) ++ state_sets acct seq touched) ++ log_sets acct seq now live.
Proof.
  unfold buildBatch. intros ([] & _ & ([ops types] & Hs & Hr)%result_bind_Ok)%result_bind_Ok.
  pose proof (stage_records_types db acct [] _ _ _ _ _ (empty_describes db) Hs) as Ht. cbn [app] in Ht.
  apply live_types in Ht. apply stage_records_extends in Hs as (rops & -> & Hrops).
  set (live := filter (fun nt : bytes * logTypeEntry => entry_empty nt.2 = false) types) in *.
  set (bumps := (filter (fun n : bytes * unit => live !! n.1 = None) (range_map (u_bumped u))).*1) in *.
  exists rops, live. split; [done|]. split; [done|].
  assert (Hlive : forall n, n ∈ (range_map live).*1 <-> changed n (sorted_staged u)).
  { intros n. rewrite list_elem_of_fmap. specialize (Ht n). split.
    - intros ([n' te] & -> & Hin%elem_of_range_map). cbn in *. rewrite Hin in Ht. tauto.
    - intros Hc. destruct (live !! n) as [te|] eqn:E; [|done]. exists (n, te). by rewrite elem_of_range_map. }
  assert (Htouched : forall n, n ∈ (range_map live).*1 ++ bumps <-> changed n (sorted_staged u) \/ is_Some (u_bumped u !! n)).
  { intros n. rewrite elem_of_app, Hlive. split; [intros [?|Hb]; [by left|right]|intros [?|[[] Hb]]; [by left|]].
    - unfold bumps in Hb. apply list_elem_of_fmap in Hb as ([n' []] & -> & [_ Hin%elem_of_range_map]%list_elem_of_filter). eauto.
    - destruct (live !! n) as [te|] eqn:E; [left; specialize (Ht n); rewrite E in Ht; tauto|right].
      unfold bumps. apply list_elem_of_fmap. exists (n, tt). split; [done|]. apply list_elem_of_filter. split; [done|]. by apply elem_of_range_map. }
  rewrite state_ops_sets in Hr. unfold log_sets.
  destruct ((range_map live).*1 ++ bumps) as [|n0 rest] eqn:E.
  - injection Hr as <- <-. split; [done|]. rewrite decide_True; [symmetry; apply app_nil_r|].
    apply map_empty. intros n. destruct (live !! n) as [te|] eqn:El; [|done]. exfalso.
    specialize (Ht n). rewrite El in Ht. assert (Hin : n ∈ []) by (apply Htouched; tauto). by apply not_elem_of_nil in Hin.
  - destruct (bool_decide (live = ∅)) eqn:El; injection Hr as <- <-; (split; [done|]).
    + apply bool_decide_eq_true in El. rewrite decide_True by done. symmetry. apply app_nil_r.
    + apply bool_decide_eq_false in El. by rewrite decide_False.
Qed.

(** ** Lookups through the batch *)

Lemma run_state_sets acct seq names m k :
  run m (state_sets acct seq names) !! k =
  (if decide (k ∈ map (typeStateKey acct) names) then Some (Some (EncodeInt64 seq)) else m !! k).
Proof.
  revert m. induction names as [|n names IH]; intros m; [done|]. cbn [state_sets map]. rewrite run_cons.
  fold (state_sets acct seq names). rewrite IH. cbn [run_op]. destruct (decide (k ∈ map (typeStateKey acct) names)) as [Hin|Hin].
  - rewrite decide_True; [done|by right].
  - destruct (decide (k = typeStateKey acct n)) as [-> |Hne].
    + rewrite decide_True by (by left). apply lookup_insert_eq.
    + rewrite decide_False by (by rewrite elem_of_cons; intros [?|?]). by apply lookup_insert_ne.
Qed.

(** The control keys that tags and records do not touch. *)
Definition reader_key (acct : Id) (k : bytes) : Prop :=
  exists tag tl, k = Key [acct; tag] ++ tl /\ (tag = bs "q" \/ tag = bs "s" \/ tag = bs "g" \/ tag = bs "f").

Lemma seqKey_reader acct : reader_key acct (seqKey acct).
Proof. exists (bs "q"), []. rewrite app_nil_r. auto. Qed.
Lemma logFloorKey_reader acct : reader_key acct (logFloorKey acct).
Proof. exists (bs "f"), []. rewrite app_nil_r. auto 6. Qed.
Lemma typeStateKey_reader acct n : reader_key acct (typeStateKey acct n).
Proof. exists (bs "s"), (Key [n]). rewrite <- Key_app. auto. Qed.
Lemma log_reader acct tl : reader_key acct (Key [acct; bs "g"] ++ tl).
Proof. exists (bs "g"), tl. auto. Qed.
Lemma logKey_prefix acct z : logKey acct z = Key [acct; bs "g"] ++ Key [EncodeInt64 z].
Proof. by rewrite <- Key_app. Qed.

Lemma tag_ops_keys acct tags : Forall (fun op => exists tag, op_key op = tagKey tag acct) (tag_ops acct tags).
Proof.
  unfold tag_ops. assert (Hb : Forall (fun op => exists tag, op_key op = tagKey tag acct) (Set_ [] (tagKey tagExists acct) None)).
  { apply Forall_singleton. by exists tagExists. }
  revert Hb. generalize (Set_ [] (tagKey tagExists acct) None) as b. induction (sort_strings _) as [|tag l IH]; intros b Hb; [done|].
  cbn [fold_left]. apply IH. destruct (default false _); rewrite ?Set_app, ?Delete_app; (apply Forall_app; split; [done|]; apply Forall_singleton; by exists tag).
Qed.

Lemma run_reader_key db acct u rops m k :
  Valid acct = true -> reader_key acct k ->
  Forall (fun op => is_add op = false /\ exists st, st ∈ sorted_staged u /\ written_by acct db st (op_key op)) rops ->
  run m (tag_ops acct (u_tagOps u) ++ rops) !! k = m !! k.
Proof.
  intros Hv%acct_not_tag Hk Hr.
  destruct Hk as (tag & tl & -> & Htag). apply run_untouched, Forall_app. split.
  - eapply Forall_impl; [apply tag_ops_keys|]. intros op [tg Eo] E. rewrite Eo in E.
    symmetry in E. apply Key_prefix_inv in E as (c & E & _). by injection E.
  - eapply Forall_impl; [exact Hr|]. intros op (_ & st & _ & Hw) E. rewrite E in Hw.
    destruct Hw as [Hw|[(name & v & r & Hw)|[[b Hw]|[b Hw]]]]; apply Key_prefix_inv in Hw as (c & Hw & _);
      injection Hw as Hw _; subst; by destruct Htag as [?|[?|[?|?]]].
Qed.

(** ** The store a reader sees *)

Definition touched (u : Update) (n : bytes) : Prop := changed n (sorted_staged u) \/ is_Some (u_bumped u !! n).
#[export] Instance touched_dec u n : Decision (touched u n).
Proof. unfold touched. apply _. Defined.

Lemma logKey_inj acct z z' : is_int64 z -> is_int64 z' -> logKey acct z = logKey acct z' -> z = z'.
Proof. intros Hz Hz' E. rewrite <- (seqFromLogKey_logKey acct z), E by done. by apply seqFromLogKey_logKey. Qed.

Lemma typeStateKey_inj acct n n' : typeStateKey acct n = typeStateKey acct n' -> n = n'.
Proof. intros E. apply Key_injective in E. by injection E. Qed.

Lemma elem_of_state_keys acct n names : typeStateKey acct n ∈ map (typeStateKey acct) names <-> n ∈ names.
Proof.
  rewrite list_elem_of_fmap. split; [by intros (n' & ->%typeStateKey_inj & ?)|]. intros Hin. by exists n.
Qed.

Lemma run_log_sets acct seq now live m k :
  run m (log_sets acct seq now live) !! k =
  (if decide (k = logKey acct seq /\ live <> ∅) then Some (Some (marshalLog (mkLogEntry live now))) else m !! k).
Proof.
  unfold log_sets. destruct (decide (live = ∅)) as [E|E]; [rewrite decide_False by tauto; done|].
  unfold run. cbn [fold_left run_op]. destruct (decide (k = logKey acct seq)) as [-> |Hne].
  - rewrite decide_True by done. apply lookup_insert_eq.
  - rewrite decide_False by tauto. by apply lookup_insert_ne.
Qed.

(** The reader's keys after the batch, one family at a time. *)
Lemma commit_reader_keys db acct u seq now batch names m :
  Valid acct = true -> is_int64 seq -> buildBatch db acct u seq now = Ok (batch, names) ->
  let m' := run m (Set_ batch (seqKey acct) (Some (EncodeInt64 seq))) in
  (forall n, n ∈ names <-> touched u n) /\
  m' !! seqKey acct = Some (Some (EncodeInt64 seq)) /\
  (forall n, m' !! typeStateKey acct n = if decide (touched u n) then Some (Some (EncodeInt64 seq)) else m !! typeStateKey acct n) /\
  m' !! logFloorKey acct = m !! logFloorKey acct /\
  exists live, live_describes db (sorted_staged u) live /\
    forall k tl, k = Key [acct; bs "g"] ++ tl -> m' !! k =
      if decide (k = logKey acct seq /\ live <> ∅) then Some (Some (marshalLog (mkLogEntry live now))) else m !! k.
Proof.
  intros Hv Hseq (rops & live & Hr & Hl & Ht & ->)%buildBatch_log. cbv zeta. split; [exact Ht|].
  rewrite Set_app, run_app. set (m1 := run m _). unfold run at 1 2 3 4. cbn [fold_left run_op].
  assert (Hm1 : forall k, reader_key acct k -> m1 !! k =
    (if decide (k = logKey acct seq /\ live <> ∅) then Some (Some (marshalLog (mkLogEntry live now)))
     else if decide (k ∈ map (typeStateKey acct) names) then Some (Some (EncodeInt64 seq)) else m !! k)).
  { intros k Hk. unfold m1. rewrite run_app, run_log_sets, run_app, run_state_sets.
    by rewrite (run_reader_key db acct u rops m k Hv Hk Hr). }
  assert (Hns : forall tag tl, tag <> bs "s" -> Key [acct; tag] ++ tl ∉ map (typeStateKey acct) names).
  { intros tag tl Hne (n & E & _)%list_elem_of_fmap. apply Key_prefix_inv in E as (c & E & _). by injection E. }
  split; [apply lookup_insert_eq|]. split; [|split].
  - intros n. rewrite lookup_insert_ne by (intros E; apply Key_injective in E; by injection E). rewrite Hm1 by apply typeStateKey_reader.
    rewrite decide_False by (intros [E _]; apply Key_injective in E; by injection E).
    destruct (decide (touched u n)) as [Hn|Hn].
    + rewrite decide_True; [done|]. by apply elem_of_state_keys, Ht.
    + rewrite decide_False; [done|]. rewrite elem_of_state_keys. by rewrite Ht.
  - rewrite lookup_insert_ne by (intros E; apply Key_injective in E; by injection E). rewrite Hm1 by apply logFloorKey_reader.
    rewrite decide_False by (intros [E _]; apply Key_injective in E; by injection E).
    rewrite decide_False; [done|]. specialize (Hns (bs "f") []). rewrite app_nil_r in Hns. by apply Hns.
  - exists live. split; [done|]. intros k tl ->.
    rewrite lookup_insert_ne by (intros E; symmetry in E; apply Key_prefix_inv in E as (c & E & _); by injection E).
    rewrite Hm1 by apply log_reader. by rewrite (decide_False (P := _ ∈ _)) by (by apply Hns).
Qed.

Context {S : Type} `{BE : Backend S, BL : !BackendLaws S}.

Lemma get_counter_spec (s : S) k absent :
  be_inv s -> get_counter s k absent =
    match be_map s !! k with Some raw => DecodeInt64 (sbytes raw) | None => Ok absent end.
Proof. intros Hs. unfold get_counter. rewrite be_Get_spec by done. by destruct (be_map s !! k). Qed.

Lemma TypeState_spec db (s : S) acct n t :
  be_inv s -> db_types db !! n = Some t ->
  TypeState db s acct n = (seq ← match be_map s !! typeStateKey acct n with Some raw => DecodeInt64 (sbytes raw) | None => Ok 0 end; Ok (FormatInt seq)).
Proof. intros Hs Ht. unfold TypeState. by rewrite Ht, get_counter_spec. Qed.

Lemma states_lookup (names : list bytes) (v : bytes) n :
  (list_to_map (map (fun t => (t, v)) names) : gmap bytes bytes) !! n = if decide (n ∈ names) then Some v else None.
Proof.
  induction names as [|x names IH]; [done|]. cbn [map list_to_map foldr]. cbn [fst snd]. destruct (decide (n = x)) as [-> |Hne].
  - rewrite lookup_insert_eq, decide_True; [done|by left].
  - rewrite lookup_insert_ne, IH by done. destruct (decide (n ∈ names)) as [H|H].
    + rewrite decide_True; [done|by right].
    + rewrite decide_False; [done|]. intros [-> |?]%elem_of_cons; done.
Qed.
End log.

(** What a commit that staged something leaves for its readers. *)
Lemma commit_readers `{MR : MapRange, TP : TimeParse, CF : CaseFold, LC : LogCodec}
  {S : Type} `{BE : Backend S, BL : !BackendLaws S}
  (db : DB) (s : S) (acct : Id) (fence : Batch -> Batch) (now cur : Z) (fn : Update -> result Update) (u : Update) c
  (Hacct : Valid acct = true) (Hs : be_inv s) (Hf : is_fence fence)
  (Hseq : Sequence s acct = Ok cur) (Hcur : is_int64 (cur + 1)) (Hfn : fn (newUpdate (cur + 1)) = Ok u)
  (Hidle : idle u = false) (Hc : update db s acct fence now fn = Ok c) :
  Sequence (c_store c) acct = Ok (cur + 1) /\
  (forall n t, db_types db !! n = Some t ->
     TypeState db (c_store c) acct n = if decide (touched u n) then Ok (FormatInt (cur + 1)) else TypeState db s acct n) /\
  (forall n, c_states c !! n = if decide (touched u n) then Some (FormatInt (cur + 1)) else None) /\
  exists live, live_describes db (sorted_staged u) live /\
    forall z, is_int64 z -> be_map (c_store c) !! logKey acct z =
      if decide (z = cur + 1 /\ live <> ∅) then Some (Some (marshalLog (mkLogEntry live now))) else be_map s !! logKey acct z.
Proof.
  assert (E : int64 (cur + 1) = cur + 1) by (by apply int64_small).
  destruct (update_inv db s acct u fence now cur fn c) as [[Hi _]|(_ & batch & names & Hb & Hs' & Hm & Hst)]; [done|done|done|by rewrite E|done|congruence|].
  rewrite E in *. destruct (commit_reader_keys db acct u (cur + 1) now batch names (be_map s) Hacct Hcur Hb) as (Hn & H1 & H2 & _ & live & Hl & H3).
  rewrite <- Hm in H1, H2, H3. split; [|split; [|split]].
  - unfold Sequence. rewrite get_counter_spec, H1 by done. by apply DecodeInt64_EncodeInt64.
  - intros n t Ht. rewrite !(TypeState_spec db _ acct n t), H2 by done. destruct (decide (touched u n)); [|done].
    cbn [sbytes]. change (sbytes (Some (EncodeInt64 (cur + 1)))) with (EncodeInt64 (cur + 1)). by rewrite DecodeInt64_EncodeInt64.
  - intros n. rewrite Hst, states_lookup. by apply decide_ext, Hn.
  - exists live. split; [done|]. intros z Hz. rewrite (H3 _ _ (logKey_prefix acct z)). apply decide_ext.
    split; intros [Ez ?]; (split; [|done]); [by eapply logKey_inj|by rewrite Ez].
Qed.

(** C6: what a commit tells its readers.  A commit that staged anything moves
    the account sequence from [cur] to exactly [cur + 1]; the state of a type
    becomes the new sequence number precisely when a record of it was created,
    updated or destroyed (quiet [PutInternal] writes and records created and
    destroyed in the same Update do not count) or its state was bumped, and
    keeps its value otherwise; the states returned to the caller are those;
    and the log gains at most the entry numbered [cur + 1], which lists for
    every changed type exactly the created, updated and destroyed ids and the
    visible property names that differ. *)
Theorem commit_log `{MR : MapRange, TP : TimeParse, CF : CaseFold, LC : LogCodec}
  {S : Type} `{BE : Backend S, BL : !BackendLaws S}
  (db : DB) (s : S) (acct : Id) (fence : Batch -> Batch) (now cur : Z) (fn : Update -> result Update) (u : Update) c
  (Hacct : Valid acct = true) (Hs : be_inv s) (Hf : is_fence fence)
  (Hseq : Sequence s acct = Ok cur) (Hcur : is_int64 (cur + 1)) (Hfn : fn (newUpdate (cur + 1)) = Ok u)
  (Hidle : idle u = false) (Hc : update db s acct fence now fn = Ok c) :
  Sequence (c_store c) acct = Ok (cur + 1) /\
  (forall n t, db_types db !! n = Some t ->
     TypeState db (c_store c) acct n = if decide (touched u n) then Ok (FormatInt (cur + 1)) else TypeState db s acct n) /\
  (forall n, c_states c !! n = if decide (touched u n) then Some (FormatInt (cur + 1)) else None) /\
  exists live, live_describes db (sorted_staged u) live /\
    forall z, is_int64 z -> be_map (c_store c) !! logKey acct z =
      if decide (z = cur + 1 /\ live <> ∅) then Some (Some (marshalLog (mkLogEntry live now))) else be_map s !! logKey acct z.
Proof. by apply (commit_readers db s acct fence now cur fn u c). Qed.

Lemma commit_log_witness :
  @Sequence Memory.Store Memory.memory_backend (c_store Instances.demo_c) Instances.demo_acct = Ok 1 /\
  c_states Instances.demo_c !! bs "Note" = Some (bs "1").
Proof.
  destruct (@commit_log map_order Instances.demo_time Instances.demo_fold Instances.demo_codec
    Memory.Store Memory.memory_backend Memory.memory_laws Instances.demo_db Instances.empty_store Instances.demo_acct Instances.no_fence 1700 0
    Instances.demo_fn Instances.demo_u Instances.demo_c) as (H1 & _ & H3 & _).
  - vm_compute. reflexivity.
  - apply Memory.empty_inv.
  - apply no_fence_fence.
  - vm_compute. reflexivity.
  - unfold is_int64. lia.
  - apply Instances.demo_fn_ok.
  - vm_compute. reflexivity.
  - apply Instances.demo_update_ok.
  - split; [exact H1|]. rewrite H3. vm_compute. reflexivity.
Defined.
End CommitLog.
