(* ===== verification/Visible.v ===== *)
(** * Visible: what the change log does not mention has not visibly changed

    [PutInternal] writes without a log entry; it may only change properties
    declared internal.  So a record a commit's log entry does not mention has
    the same visible properties before and after the commit. *)

From S2P Require Import Prelude GoLib Keyenc Backend Batches Jsonscan Jmap Descriptor Keys ObjectDB SetIndex.
From S2P Require Import Commit Indexing CommitFacts CommitIndex Reach CommitLog.

Module Visible.
Import Keyenc Backend Batches Jsonscan Jmap Descriptor Keys ObjectDB SetIndex Commit Indexing CommitFacts CommitIndex Reach CommitLog.

(** Two versions of a record that differ in internal properties only. *)
Definition visibly (t : Type_) (a b : Object) : Prop := forall name, is_internal t name = false -> a !! name = b !! name.

Definition visible_same (t : Type_) (a b : option Object) : Prop :=
  match a, b with Some o, Some o' => visibly t o o' | None, None => True | _, _ => False end.

Lemma visible_same_refl t a : visible_same t a a.
Proof. by destruct a. Qed.

Lemma visible_same_trans t a b c : visible_same t a b -> visible_same t b c -> visible_same t a c.
Proof. destruct a, b, c; cbn; try done. intros H1 H2 name Hn. rewrite (H1 name Hn). by apply H2. Qed.

Section visible.
Context `{MR : MapRange, TP : TimeParse, CF : CaseFold, LC : LogCodec}.

Lemma diffProps_internal (t : Type_) (old : option Object) (new : Object) :
  forallb (is_internal t) (diffProps old (Some new)) = true -> visibly t (default ∅ old) new.
Proof.
  rewrite forallb_forall. intros Hall name Hi. unfold diffProps in Hall. change (default ∅ (Some new)) with new in Hall. set (o := default ∅ old) in *.
  assert (Hnot : name ∉ (filter (fun nr : bytes * bytes => o !! nr.1 <> Some nr.2) (range_map new)).*1 ++ (filter (fun nr : bytes * bytes => new !! nr.1 = None) (range_map o)).*1).
  { intros Hin%list_elem_of_In%Hall. congruence. }
  apply not_elem_of_app in Hnot as [H1 H2]. rewrite !list_elem_of_fmap in H1, H2. destruct (new !! name) as [v|] eqn:En.
  - destruct (decide (o !! name = Some v)) as [|Hne]; [done|]. destruct H1. exists (name, v). split; [done|]. apply list_elem_of_filter.
    split; [done|]. by apply elem_of_range_map.
  - destruct (o !! name) as [v|] eqn:Eo; [|done]. destruct H2. exists (name, v). split; [done|]. apply list_elem_of_filter. split; [done|]. by apply elem_of_range_map.
Qed.

Context {S : Type} `{BE : Backend S, BL : !BackendLaws S}.
Variable db : DB.
Variable s : S.
Variable acct : Id.
Hypothesis Hdb : db_wf db.
Hypothesis Hs : be_inv s.

(** A quiet staging has changed nothing visible. *)
Definition quiet_staged (st : stagedRecord) : Prop :=
  st_quiet st = true -> st_created st = false -> forall new, st_new st = Some new -> visibly (type_of db st) (default ∅ (st_old st)) new.
Definition quiet_update (u : Update) : Prop := forall k st, u_staged u !! k = Some st -> quiet_staged st.

Lemma quiet_set u st : quiet_update u -> quiet_staged st -> quiet_update (set_staged u st).
Proof. intros Hu Hst k st' Hl. cbn in Hl. apply lookup_insert_Some in Hl as [[_ <-]|[_ Hl]]; [done|by eapply Hu]. Qed.

Lemma quiet_same u u' : u_staged u' = u_staged u -> quiet_update u -> quiet_update u'.
Proof. intros E Hu k st. rewrite E. apply Hu. Qed.

Lemma PutInternal_quiet u n id obj u' :
  update_wf db acct (be_map s) u -> quiet_update u -> PutInternal db s acct u n id obj = Ok u' -> quiet_update u'.
Proof.
  intros Hw Hu. unfold PutInternal. destruct (db_types db !! n) as [t|] eqn:Et; [|done]. destruct (negb _); [done|].
  intros ([u1 prior] & Hg & ([] & Hc & Hp)%result_bind_Ok)%result_bind_Ok. cbn [fst snd] in *.
  destruct (forallb (is_internal t) (diffProps prior (Some obj))) eqn:Ed; cbn [negb] in Hp; [|done]. apply diffProps_internal in Ed.
  destruct (u_Get_wf db s acct Hs _ _ _ _ _ Hw Hg) as [Hw1 E]. assert (Hu1 : quiet_update u1) by (by eapply quiet_same).
  destruct (u_staged u1 !! stagedKey n id) as [st|] eqn:Es; injection Hp as <-; (apply quiet_set; [done|]).
  - destruct (staged_key_eq db s acct u1 n id st Hw1 Es) as [E1 _]. intros Hq Hcr new [= <-]. cbn [st_quiet st_created st_old] in *.
    unfold u_Get in Hg. rewrite <- E, Es in Hg. destruct (st_new st) as [cur|] eqn:En; [|done]. injection Hg as <- <-.
    unfold type_of. cbn [st_typeName]. rewrite E1, Et. change (default ?d (Some t)) with t. intros name Hi.
    pose proof (Hu1 _ _ Es Hq Hcr cur En) as Hv. unfold type_of in Hv. rewrite E1, Et in Hv. rewrite (Hv name Hi). by apply (Ed name).
  - intros _ _ new [= <-]. cbn [st_old]. unfold type_of. cbn [st_typeName]. by rewrite Et.
Qed.

Lemma reach_quiet u : reach db s acct u -> quiet_update u.
Proof.
  induction 1 as [seq|u n id u' o Hr IH Hg|u n ids u' out Hr IH Hg|u now rnd n obj u' id Hr IH Hc _ _|u n id obj u' Hr IH Hp|u n id obj u' Hr IH Hp
    |u n id u' Hr IH Hp|u n u' Hr IH Hb|u tag u' Hr IH Hb|u tag u' Hr IH Hb]; try pose proof (reach_wf db s acct Hs u Hr) as Hw.
  - intros k st. cbn. by rewrite lookup_empty.
  - eapply quiet_same; [|exact IH]. by eapply u_Get_wf.
  - eapply quiet_same; [|exact IH]. by eapply u_GetMany_wf.
  - unfold Create in Hc. destruct (db_types db !! n) as [t|]; [|done]. destruct (obj !! bs "id"); [done|].
    apply result_bind_Ok in Hc as ([] & _ & Hc). destruct (newId db u now rnd) as [u1 id1] eqn:En. injection Hc as <- <-.
    apply newId_valid in En as [_ E]. apply quiet_set; [by eapply quiet_same|done].
  - unfold Put in Hp. destruct (db_types db !! n) as [t|]; [|done]. destruct (negb _); [done|].
    destruct (u_staged u !! stagedKey n id) as [st|].
    + destruct (st_new st); [|done]. apply result_bind_Ok in Hp as ([] & _ & [= <-]). by apply quiet_set.
    + apply result_bind_Ok in Hp as ([u1 old] & Hg & ([] & _ & [= <-])%result_bind_Ok). apply quiet_set; [|done].
      eapply quiet_same; [|exact IH]. by destruct (getCommitted_wf db s acct Hs _ _ _ _ _ Hw Hg) as (_ & E & _).
  - by eapply PutInternal_quiet.
  - unfold Destroy in Hp. destruct (db_types db !! n); [|done]. destruct (u_staged u !! stagedKey n id) as [st|].
    + destruct (st_new st); [|done]. injection Hp as <-. by apply quiet_set.
    + apply result_bind_Ok in Hp as ([u1 old] & Hg & [= <-]). apply quiet_set; [|done].
      eapply quiet_same; [|exact IH]. by destruct (getCommitted_wf db s acct Hs _ _ _ _ _ Hw Hg) as (_ & E & _).
  - unfold BumpState in Hb. destruct (db_types db !! n); [|done]. by injection Hb as <-.
  - unfold SetAccountTag in Hb. destruct (bool_decide _); [done|]. by injection Hb as <-.
  - unfold ClearAccountTag in Hb. destruct (bool_decide _); [done|]. destruct (bool_decide _); [done|]. by injection Hb as <-.
Qed.

(** A commit keeps the visible properties of every record it does not log. *)
Lemma commit_visible u m' n t id :
  index_inv db acct (be_map s) -> reach db s acct u -> staging_ok db u -> committed db acct u (be_map s) m' -> db_types db !! n = Some t ->
  (forall st, u_staged u !! stagedKey n id = Some st -> ~ is_created st /\ ~ is_updated st /\ ~ is_destroyed st) ->
  visible_same t (obj_at db (be_map s) acct n id) (obj_at db m' acct n id).
Proof.
  intros Hii Hr Hok Hcm Ht Hno. pose proof (reach_wf db s acct Hs u Hr) as Hu.
  destruct (committed_index_inv db s acct Hdb Hii u m' Hu Hok Hcm) as [_ Hob]. destruct (u_staged u !! stagedKey n id) as [st|] eqn:Es.
  - destruct (Hno st eq_refl) as (H1 & H2 & H3). pose proof (uw_staged _ _ _ _ Hu _ _ Es) as [[= -> ->] [_ _ Ho]].
    destruct (committed_staged db s acct Hdb u m' _ st Hu Hok Hcm Es) as [-> _]. unfold is_created, is_updated, is_destroyed in *.
    destruct (st_created st) eqn:Ec.
    + destruct Ho as [_ Ho]. unfold obj_at. rewrite Ho. destruct (st_new st); [|done]. exfalso. by apply H1.
    + destruct Ho as (raw & Hraw & Hd). destruct (ii_decodes _ _ _ Hii _ t _ raw Ht Hraw) as (o & Hd' & _). rewrite Hd in Hd'. injection Hd' as Hd'.
      unfold obj_at. rewrite Hraw, Hd, Hd'. destruct (st_new st) as [new|] eqn:En; [|exfalso; by apply H3].
      destruct (st_quiet st) eqn:Eq; [|exfalso; by apply H2]. cbn [visible_same].
      pose proof (reach_quiet u Hr _ _ Es Eq Ec new En) as Hv. unfold type_of in Hv. rewrite Ht, Hd' in Hv. exact Hv.
  - rewrite (Hob n t id Ht Es). apply visible_same_refl.
Qed.
End visible.
End Visible.
