(* ===== verification/Typed.v ===== *)
(** * Typed: stored records are well typed

    Every way a record reaches the store checks it against its descriptor, so
    in every reachable store each declared property holds a value of its kind,
    no other name is present, and the record's id member is its id. *)

From S2P Require Import Prelude GoLib Keyenc Backend Batches Memory Jsonscan Jsonwords Jsongrammar Jsonobject Jmap Descriptor Keys ObjectDB SetIndex.
From S2P Require Import Commit Indexing CommitFacts Instances CommitIndex Reach.

Module Typed.
Import Keyenc Backend Batches Jsonscan Jsonwords Jsongrammar Jsonobject Jmap Descriptor Keys ObjectDB Commit Indexing CommitFacts CommitIndex Reach.

(** ** Ids as JSON strings *)

Lemma id_char_plain c : id_char c = true -> passes c = true /\ negb ((c =b "\"%byte) || (RuneSelf <=? bz c)) = true /\ (34 <? bz c) = true.
Proof. destruct c; vm_compute; intros H; try discriminate H; repeat split. Qed.

Lemma Valid_chars id : Valid id = true -> Forall (fun c => id_char c = true) id.
Proof. unfold Valid. destruct (_ || _); [done|]. rewrite forallb_forall. intros H. apply Forall_forall. intros c Hc. by apply H, list_elem_of_In. Qed.

Lemma marshal_id_String id : Valid id = true -> JString (marshal_id id) = Some id.
Proof.
  intros Hv%Valid_chars. assert (Hc : string_chars id).
  { induction Hv as [|c id Hc Hv IH]; constructor; [by apply id_char_plain in Hc as [? _]|done]. }
  assert (Hp : plain id = true).
  { unfold plain. rewrite forallb_forall. intros c Hin. rewrite Forall_forall in Hv.
    by destruct (id_char_plain c (Hv c (proj2 (list_elem_of_In _ _) Hin))) as (_ & ? & _). }
  unfold JString. assert (E : skipSpace (marshal_id id) = quoted id ++ []) by (by rewrite app_nil_r).
  rewrite E, parseString_spec by done. unfold name_of. rewrite Hp. done.
Qed.

(** ** Typed objects *)

Section typed.
Context `{MR : MapRange, TP : TimeParse, CF : CaseFold, LC : LogCodec}.

(** Every non-empty declared value is of its kind.  (An empty value is no JSON
    and cannot be stored.) *)
Definition typed_obj (t : Type_) (o : Object) : Prop :=
  forall name p raw, t_Properties t !! name = Some p -> o !! name = Some raw -> raw <> [] -> CheckValue p raw = Ok tt.

Lemma check_kinds_typed t prior l name raw p :
  check_kinds t prior l = Ok tt -> (forall o, prior = Some o -> typed_obj t o) ->
  t_Properties t !! bs "id" = None -> (name, raw) ∈ l -> t_Properties t !! name = Some p -> raw <> [] -> CheckValue p raw = Ok tt.
Proof.
  intros Hc Hprior Hid. induction l as [|[n r] l IH]; intros Hin Hp Hne; [by apply not_elem_of_nil in Hin|]. cbn [check_kinds] in Hc.
  destruct (bool_decide (n = bs "id")) eqn:En.
  { apply bool_decide_eq_true in En as ->. apply elem_of_cons in Hin as [[= -> ->]|Hin]; [congruence|auto]. }
  destruct (t_Properties t !! n) as [q|] eqn:Eq; [|done].
  destruct (match prior with Some o => bool_decide (r = default [] (o !! n)) | None => false end) eqn:Ep.
  - apply elem_of_cons in Hin as [[= -> ->]|Hin]; [|auto]. destruct prior as [o|]; [|done]. apply bool_decide_eq_true in Ep.
    destruct (o !! n) as [r'|] eqn:Eo; cbn in Ep; [subst r'|done]. eapply (Hprior o); eauto.
  - apply result_bind_Ok in Hc as ([] & Hv & Hc). apply elem_of_cons in Hin as [[= -> ->]|Hin]; [congruence|auto].
Qed.

Lemma checkKinds_typed t obj prior :
  checkKinds t obj prior = Ok tt -> (forall o, prior = Some o -> typed_obj t o) -> t_Properties t !! bs "id" = None -> typed_obj t obj.
Proof.
  intros Hc Hprior Hid name p raw Hp Hr Hne. eapply check_kinds_typed; [exact Hc|exact Hprior|exact Hid| |exact Hp|exact Hne].
  by apply elem_of_range_map.
Qed.

Context {S : Type} `{BE : Backend S, BL : !BackendLaws S}.

Section update.
Variable db : DB.
Variable s : S.
Variable acct : Id.
Hypothesis Hdb : db_wf db.
Hypothesis Hs : be_inv s.

Definition typed_inv (m : kvmap) : Prop :=
  forall n t id o, db_types db !! n = Some t -> obj_at db m acct n id = Some o -> typed_obj t o /\ id_matches o id = true.

Hypothesis Hty : typed_inv (be_map s).

Lemma type_no_id n t : db_types db !! n = Some t -> t_Properties t !! bs "id" = None.
Proof.
  intros Ht. destruct (dw_types db Hdb n t Ht) as (_ & Hv & _). destruct (t_Properties t !! bs "id") as [p|] eqn:E; [|done].
  by destruct (Validate_property t _ p Hv E).
Qed.

Definition typed_staged (st : stagedRecord) : Prop :=
  forall o, st_new st = Some o -> typed_obj (type_of db st) o /\ id_matches o (st_id st) = true.
Definition typed_update (u : Update) : Prop := forall k st, u_staged u !! k = Some st -> typed_staged st.

Lemma typed_set u st : typed_update u -> typed_staged st -> typed_update (set_staged u st).
Proof. intros Hu Hst k st' Hl. cbn in Hl. apply lookup_insert_Some in Hl as [[_ <-]|[_ Hl]]; [done|by eapply Hu]. Qed.

Lemma typed_same u u' : u_staged u' = u_staged u -> typed_update u -> typed_update u'.
Proof. intros E Hu k st. rewrite E. apply Hu. Qed.

(** The prior version a method reads is typed. *)
Lemma committed_typed n t id raw o :
  db_types db !! n = Some t -> be_map s !! objKey acct n id = Some raw -> decodeStored db (sbytes raw) = Ok o ->
  forall o', o = Some o' -> typed_obj t o'.
Proof. intros Ht Hr Hd o' ->. apply (Hty n t id o' Ht). unfold obj_at. by rewrite Hr, Hd. Qed.

Lemma type_of_name n t id old new c q : db_types db !! n = Some t -> type_of db (mkStaged n id old new c q) = t.
Proof. intros Ht. unfold type_of. cbn. by rewrite Ht. Qed.

Lemma staged_prior u n t id st o :
  update_wf db acct (be_map s) u -> typed_update u -> db_types db !! n = Some t ->
  u_staged u !! stagedKey n id = Some st -> st_new st = Some o -> typed_obj t o.
Proof.
  intros Hu Hut Ht Es En. destruct (staged_key_eq db s acct u n id st Hu Es) as [En' _].
  destruct (Hut _ _ Es o En) as [Hto _]. unfold type_of in Hto. by rewrite En', Ht in Hto.
Qed.

Lemma Create_typed u now rnd n obj u' id : typed_update u -> Create db u now rnd n obj = Ok (u', id) -> typed_update u'.
Proof.
  intros Hu. unfold Create. destruct (db_types db !! n) as [t|] eqn:Et; [|done]. destruct (obj !! bs "id") eqn:Eid; [done|].
  intros ([] & Hc & Hr)%result_bind_Ok. destruct (newId db u now rnd) as [u1 id1] eqn:En. injection Hr as <- <-.
  apply newId_valid in En as [Hv E]. apply typed_set; [by eapply typed_same|]. intros o [= <-]. cbn [st_id]. split.
  - rewrite (type_of_name n t) by done. intros name p raw Hp Hr Hne. destruct (decide (name = bs "id")) as [-> |Hni].
    + by rewrite (type_no_id n t Et) in Hp.
    + rewrite lookup_insert_ne in Hr by done. eapply (checkKinds_typed t obj None); [done|done|by eapply type_no_id|done..].
  - unfold id_matches. rewrite lookup_insert_eq. change (default [] (Some ?x)) with x. rewrite marshal_id_String by done. by apply bool_decide_eq_true.
Qed.

Lemma Put_typed u n id obj u' :
  update_wf db acct (be_map s) u -> typed_update u -> Put db s acct u n id obj = Ok u' -> typed_update u'.
Proof.
  intros Hw Hu. unfold Put. destruct (db_types db !! n) as [t|] eqn:Et; [|done].
  destruct (id_matches obj id) eqn:Eid; cbn [negb]; [|done]. destruct (u_staged u !! stagedKey n id) as [st|] eqn:Es.
  - destruct (st_new st) as [cur|] eqn:En; [|done]. intros ([] & Hc & [= <-])%result_bind_Ok.
    destruct (staged_key_eq db s acct u n id st Hw Es) as [E1 E2]. apply typed_set; [done|]. intros o [= <-]. cbn [st_id].
    rewrite E2. split; [|done]. rewrite (type_of_name _ t) by congruence. eapply checkKinds_typed; [exact Hc| |by eapply type_no_id].
    intros o [= <-]. by eapply (staged_prior u n t id st).
  - intros ([u1 old] & Hg & ([] & Hc & [= <-])%result_bind_Ok)%result_bind_Ok. cbn [fst snd] in *.
    destruct (getCommitted_wf db s acct Hs _ _ _ _ _ Hw Hg) as (_ & E & _ & raw & Hr & Hd).
    apply typed_set; [by eapply typed_same|]. intros o [= <-]. cbn [st_id]. split; [|done]. rewrite (type_of_name _ t) by done.
    eapply checkKinds_typed; [exact Hc|by eapply committed_typed|by eapply type_no_id].
Qed.

Lemma PutInternal_typed u n id obj u' :
  update_wf db acct (be_map s) u -> typed_update u -> PutInternal db s acct u n id obj = Ok u' -> typed_update u'.
Proof.
  intros Hw Hu. unfold PutInternal. destruct (db_types db !! n) as [t|] eqn:Et; [|done].
  destruct (id_matches obj id) eqn:Eid; cbn [negb]; [|done].
  intros ([u1 prior] & Hg & ([] & Hc & Hp)%result_bind_Ok)%result_bind_Ok. cbn [fst snd] in *. destruct (negb _); [done|].
  destruct (u_Get_wf db s acct Hs _ _ _ _ _ Hw Hg) as [Hw1 E]. assert (Hu1 : typed_update u1) by (by eapply typed_same).
  assert (Hprior : forall o, prior = Some o -> typed_obj t o).
  { intros o ->. unfold u_Get in Hg. destruct (u_staged u !! stagedKey n id) as [st|] eqn:Es.
    - destruct (st_new st) eqn:En; [|done]. injection Hg as <- <-. by eapply (staged_prior u n t id st).
    - destruct (getCommitted_wf db s acct Hs _ _ _ _ _ Hw Hg) as (_ & _ & _ & raw & Hr & Hd). by eapply committed_typed. }
  assert (Ho : typed_obj t obj) by (eapply checkKinds_typed; [exact Hc|exact Hprior|by eapply type_no_id]).
  destruct (u_staged u1 !! stagedKey n id) as [st|] eqn:Es; injection Hp as <-; (apply typed_set; [done|]); intros o [= <-]; cbn [st_id].
  - destruct (staged_key_eq db s acct u1 n id st Hw1 Es) as [E1 E2]. rewrite E2, (type_of_name _ t) by congruence. done.
  - by rewrite (type_of_name _ t).
Qed.

Lemma Destroy_typed u n id u' : update_wf db acct (be_map s) u -> typed_update u -> Destroy db s acct u n id = Ok u' -> typed_update u'.
Proof.
  intros Hw Hu. unfold Destroy. destruct (db_types db !! n); [|done]. destruct (u_staged u !! stagedKey n id) as [st|].
  - destruct (st_new st); [|done]. intros [= <-]. by apply typed_set.
  - intros ([u1 old] & Hg & [= <-])%result_bind_Ok. destruct (getCommitted_wf db s acct Hs _ _ _ _ _ Hw Hg) as (_ & E & _).
    apply typed_set; [|done]. by eapply typed_same.
Qed.

Lemma reach_typed u : reach db s acct u -> typed_update u.
Proof.
  induction 1 as [seq|u n id u' o Hr IH Hg|u n ids u' out Hr IH Hg|u now rnd n obj u' id Hr IH Hc _ _|u n id obj u' Hr IH Hp|u n id obj u' Hr IH Hp
    |u n id u' Hr IH Hp|u n u' Hr IH Hb|u tag u' Hr IH Hb|u tag u' Hr IH Hb]; try pose proof (reach_wf db s acct Hs u Hr) as Hw.
  - intros k st. cbn. by rewrite lookup_empty.
  - eapply typed_same; [|exact IH]. by eapply u_Get_wf.
  - eapply typed_same; [|exact IH]. by eapply u_GetMany_wf.
  - by eapply Create_typed.
  - by eapply Put_typed.
  - by eapply PutInternal_typed.
  - by eapply Destroy_typed.
  - unfold BumpState in Hb. destruct (db_types db !! n); [|done]. by injection Hb as <-.
  - unfold SetAccountTag in Hb. destruct (bool_decide _); [done|]. by injection Hb as <-.
  - unfold ClearAccountTag in Hb. destruct (bool_decide _); [done|]. destruct (bool_decide _); [done|]. by injection Hb as <-.
Qed.
End update.

Section account.
Variable db : DB.
Variable acct : Id.
Hypothesis Hdb : db_wf db.
Hypothesis Hacct : Valid acct = true.

Definition named_inv (m : kvmap) : Prop :=
  forall n t id o name, db_types db !! n = Some t -> obj_at db m acct n id = Some o -> is_Some (o !! name) ->
    name = bs "id" \/ is_Some (t_Properties t !! name).

Lemma account_reach_typed s : account_reach db acct s -> typed_inv db acct (be_map s) /\ named_inv (be_map s).
Proof.
  induction 1 as [s Hi Hm|s fence now cur fn u c Hreach [IHt IHn] Hf Hseq Hfn Hr Hok Hc|s s' _ [IHt IHn] Hi' Hd].
  - assert (Hno : forall n id, obj_at db (be_map s) acct n id = None) by (intros n id; unfold obj_at; by rewrite Hm, lookup_empty).
    split; [intros n t id o _ Ho|intros n t id o name _ Ho]; by rewrite Hno in Ho.
  - destruct (account_reach_inv db acct Hdb Hacct s Hreach) as (Hs & Hii & _).
    destruct (update_committed db s acct Hdb Hacct Hs Hii u fence now cur fn c) as [_ Hcm]; [done..|].
    pose proof (reach_wf db s acct Hs u Hr) as Hu. pose proof (reach_typed db s acct Hdb Hs IHt u Hr) as Hut.
    destruct (committed_index_inv db s acct Hdb Hii u _ Hu Hok Hcm) as [_ Hob].
    assert (Hst : forall k st, u_staged u !! k = Some st -> obj_at db (be_map (c_store c)) acct (st_typeName st) (st_id st) = st_new st).
    { intros k st Hk. by eapply (committed_staged db s acct Hdb u). }
    split.
    + intros n t id o Ht Ho. destruct (u_staged u !! stagedKey n id) as [st|] eqn:Es.
      * pose proof (uw_staged _ _ _ _ Hu _ _ Es) as [[= -> ->] _]. rewrite (Hst _ _ Es) in Ho.
        destruct (Hut _ _ Es o Ho) as [H1 H2]. unfold type_of in H1. by rewrite Ht in H1.
      * rewrite (Hob n t id Ht Es) in Ho. by apply (IHt n t id o).
    + intros n t id o name Ht Ho Hn. destruct (u_staged u !! stagedKey n id) as [st|] eqn:Es.
      * pose proof (uw_staged _ _ _ _ Hu _ _ Es) as [[= -> ->] Hwf]. rewrite (Hst _ _ Es) in Ho.
        pose proof (sw_names _ _ _ _ Hwf o Ho name Hn) as H. unfold type_of in H. by rewrite Ht in H.
      * rewrite (Hob n t id Ht Es) in Ho. by apply (IHn n t id o).
  - assert (Ho : forall n id, obj_at db (be_map s') acct n id = obj_at db (be_map s) acct n id).
    { intros n id. unfold obj_at. rewrite (same_data_key acct (be_map s) (be_map s') _ Hd); [done|]. left. eauto. }
    split; [intros n t id o Ht E|intros n t id o name Ht E]; rewrite Ho in E; [by apply (IHt n)|by apply (IHn n t id)].
Qed.

Lemma account_checked s n t id o :
  account_reach db acct s -> db_types db !! n = Some t -> obj_at db (be_map s) acct n id = Some o ->
  JString (default [] (o !! bs "id")) = Some id /\
  (forall name p raw, t_Properties t !! name = Some p -> o !! name = Some raw -> CheckValue p raw = Ok tt).
Proof.
  intros Hr Ht Ho. destruct (account_reach_typed s Hr) as [Hty _]. destruct (account_reach_inv db acct Hdb Hacct s Hr) as (_ & Hii & _).
  destruct (Hty n t id o Ht Ho) as [Hto Hid]. split.
  - unfold id_matches in Hid. destruct (JString _); [|done]. by apply bool_decide_eq_true in Hid as ->.
  - intros name p raw Hp Hraw. apply (Hto name p raw Hp Hraw). unfold obj_at in Ho.
    destruct (be_map s !! objKey acct n id) as [r|] eqn:Er; [|done]. destruct (ii_decodes _ _ _ Hii n t id r Ht Er) as (o' & Hd & Hne).
    rewrite Hd in Ho. injection Ho as <-. intros ->. by apply (Hne name).
Qed.
End account.
End typed.

(** C20: the store is well typed.  In every store an account can reach through
    commits of Update methods, each member of each record is its id - the
    JSON string of the id it is stored under - or a declared property whose
    value the descriptor's [CheckValue] accepts. *)
Theorem stored_typed `{MR : MapRange, TP : TimeParse, CF : CaseFold, LC : LogCodec} {S : Type} `{BE : Backend S, BL : !BackendLaws S}
  (db : DB) (acct : Id) (s : S) (n : bytes) (t : Type_) (id : Id) (o : Object)
  (Hdb : db_wf db) (Hacct : Valid acct = true) (Hr : account_reach db acct s)
  (Ht : db_types db !! n = Some t) (Ho : obj_at db (be_map s) acct n id = Some o) :
  JString (default [] (o !! bs "id")) = Some id /\
  forall name raw, o !! name = Some raw -> name = bs "id" \/ exists p, t_Properties t !! name = Some p /\ CheckValue p raw = Ok tt.
Proof.
  destruct (account_checked db acct Hdb Hacct s n t id o Hr Ht Ho) as [Hid Hch]. split; [done|].
  destruct (account_reach_typed db acct Hdb Hacct s Hr) as [_ Hnm]. intros name raw Hraw.
  destruct (Hnm n t id o name Ht Ho) as [?|[p Hp]]; [by eexists|by left|right; eauto].
Qed.

Section demo.
#[local] Existing Instances map_order Instances.demo_time Instances.demo_fold Instances.demo_codec Memory.memory_backend Memory.memory_laws.

Lemma demo_account_reach : account_reach Instances.demo_db Instances.demo_acct (c_store Instances.demo_c).
Proof.
  eapply (ar_commit Instances.demo_db Instances.demo_acct Instances.empty_store Instances.no_fence 1700 0 Instances.demo_fn Instances.demo_u);
    [apply ar_new; [apply Memory.empty_inv|reflexivity]|apply no_fence_fence|vm_compute; reflexivity|apply Instances.demo_fn_ok
    |apply Instances.demo_reach|apply demo_staging_ok|apply Instances.demo_update_ok].
Qed.
End demo.

Lemma stored_typed_witness :
  JString (default [] ((<[bs "id" := marshal_id Instances.demo_id]> Instances.demo_obj) !! bs "id")) = Some Instances.demo_id.
Proof.
  set (o := <[bs "id" := marshal_id Instances.demo_id]> Instances.demo_obj).
  destruct (@stored_typed map_order Instances.demo_time Instances.demo_fold Instances.demo_codec Memory.Store Memory.memory_backend Memory.memory_laws
    Instances.demo_db Instances.demo_acct (c_store Instances.demo_c) (bs "Note") Instances.demo_type Instances.demo_id o) as [H _].
  - apply Instances.demo_db_wf.
  - vm_compute. reflexivity.
  - apply demo_account_reach.
  - reflexivity.
  - apply (bool_decide_unpack _). vm_compute. exact I.
  - exact H.
Defined.
End Typed.
