(* ===== verification/Queries.v ===== *)
(** * Queries: the index lookups are exact

    Over an account whose indexes mirror its records ([index_inv], which every
    commit keeps), the index reads return exactly the matching record ids, in
    index order and without repetition. *)

From S2P Require Import Prelude GoLib Keyenc Backend Batches Jsonscan Jsongrammar Jmap Descriptor Keys ObjectDB.
From S2P Require Import SetIndex Commit Indexing CommitFacts Instances CommitIndex Reach Memory.

Module Queries.
Import Keyenc Backend Batches Jsonscan Jmap Descriptor Keys ObjectDB SetIndex Commit Indexing CommitFacts CommitIndex Reach.

Section queries.
Context `{MR : MapRange, TP : TimeParse, CF : CaseFold, LC : LogCodec}.
Context {S : Type} `{BE : Backend S, BL : !BackendLaws S}.
Variable db : DB.
Variable s : S.
Variable acct : Id.

Abbreviation m := (be_map s).

Hypothesis Hdb : db_wf db.
Hypothesis Hs : be_inv s.
Hypothesis Hinv : index_inv db acct m.
Hypothesis Hshape : index_shape acct m.

Variable n prop : bytes.
Variable t : Type_.
Variable p : Property.
Hypothesis Ht : db_types db !! n = Some t.
Hypothesis Hp : t_Properties t !! prop = Some p.

Abbreviation pre := [acct; bs "x"; n; prop].

Lemma type_name : t_Name t = n.
Proof. by destruct (dw_types db Hdb _ _ Ht). Qed.

Lemma obj_at_id n' id o : obj_at db m acct n' id = Some o -> no_zero id.
Proof.
  unfold obj_at. destruct (m !! objKey acct n' id) eqn:E; [|done]. intros _.
  apply Valid_no_zero, (is_ids _ _ Hshape n'). unfold present. by rewrite E.
Qed.

(** ** Property indexes *)

(** Record [id] has the index value [v] and the order segments [ord]. *)
Definition indexed_at (id : Id) (v : bytes) (ord : list bytes) : Prop :=
  exists o, obj_at db m acct n id = Some o /\ prop_value p prop (Some o) = Ok (Some v) /\ orderSegs t p (Some o) = Ok ord.

Hypothesis Hi : p_Indexed p = true.

Lemma index_keys k :
  (present m k /\ exists tl, k = Key pre ++ tl) <->
  exists id v ord, indexed_at id v ord /\ k = idxKey acct n prop v ord id.
Proof.
  pose proof type_name as Hn. split.
  - intros [Hk [tl Htl]]. destruct (is_keys _ _ Hshape k n prop tl Hk Htl) as (v & rest & id & E).
    assert (Hfp : idx_fp acct t id prop k) by (exists (v :: rest); by rewrite Hn).
    assert (Hrf : rec_fp acct t id k) by (left; exists prop, p; done).
    apply (ii_index _ _ _ Hinv n t id k Ht Hrf) in Hk.
    destruct Hk as [(name & p' & Hp' & _ & He)|[He|(name & p' & Hp' & Hset & He)]].
    + pose proof (idx_fp_inj acct t id _ _ k (idx_entry_fp _ _ _ _ _ _ _ He) Hfp) as ->.
      assert (p' = p) as -> by congruence. destruct He as (v' & ord & Hv & Ho & ->).
      destruct (obj_at db m acct n id) as [o|] eqn:Eo; [|done].
      exists id, v', ord. rewrite Hn. split; [|done]. exists o. done.
    + exfalso. eapply idx_ref_disjoint; [exact Hfp|]. by eapply ref_entry_fp.
    + pose proof (idx_fp_inj acct t id _ _ k (set_entry_fp _ _ _ _ _ _ _ He) Hfp) as ->.
      assert (p' = p) as -> by congruence. exfalso.
      destruct (dw_types db Hdb _ _ Ht) as (_ & Hval & _). destruct (Validate_property t prop p Hval Hp) as [Hc _].
      apply check_property_indexed in Hc as [Hc _]. destruct (Hc Hi) as [_ ?]. congruence.
  - intros (id & v & ord & (o & Eo & Hv & Ho) & ->). split.
    + assert (Hfp : idx_fp acct t id prop (idxKey acct n prop v ord id)) by (exists (v :: ord); by rewrite Hn).
      apply (ii_index _ _ _ Hinv n t id _ Ht); [left; exists prop, p; done|]. left. exists prop, p.
      split; [done|]. split; [done|]. rewrite Eo. exists v, ord. by rewrite Hn.
    + exists (Key ((v :: ord) ++ [id])). unfold idxKey, key. rewrite <- Key_app. done.
Qed.

Lemma indexed_at_fun id v ord v' ord' : indexed_at id v ord -> indexed_at id v' ord' -> v = v' /\ ord = ord'.
Proof. intros (o & E & H1 & H2) (o' & E' & H1' & H2'). rewrite E in E'. injection E' as <-. split; congruence. Qed.

Lemma indexed_at_id id v ord : indexed_at id v ord -> no_zero id.
Proof. intros (o & Eo & _). by eapply obj_at_id. Qed.

(** An index entry: value, order segments, record id; entries are ordered by
    value, then order segments, then id. *)
Abbreviation entry := (bytes * list bytes * Id)%type.
Definition entry_key (e : entry) : bytes := idxKey acct n prop e.1.1 e.1.2 e.2.
Definition entry_segs (e : entry) : list bytes := e.1.1 :: e.1.2 ++ [e.2].
Definition entry_lt (e e' : entry) : Prop := segs_compare (entry_segs e) (entry_segs e') = Lt.

Lemma entry_key_compare e e' : bcompare (entry_key e) (entry_key e') = segs_compare (entry_segs e) (entry_segs e').
Proof.
  unfold entry_key, idxKey, key. rewrite Key_compare. cbn [app segs_compare]. by rewrite !bcompare_refl.
Qed.

Lemma keys_entries (Q : entry -> Prop) l :
  (forall k, k ∈ l -> exists e, Q e /\ k = entry_key e) -> StronglySorted bytes_lt l ->
  exists es, l = map entry_key es /\ Forall Q es /\ StronglySorted entry_lt es.
Proof.
  intros Hl Hsort. induction Hsort as [|k l Hsort IH Hk]; [exists []; by repeat constructor|].
  destruct IH as (es & -> & Hq & Hs'); [intros k' Hk'; apply Hl; by right|].
  destruct (Hl k ltac:(by left)) as (e & He & ->). exists (e :: es). split; [done|]. split; [by constructor|].
  constructor; [done|]. apply Forall_forall. intros e' He'. unfold entry_lt. rewrite <- entry_key_compare. apply blt_lt.
  rewrite Forall_forall in Hk. apply Hk. apply list_elem_of_fmap. eauto.
Qed.

(** A scan over a subrange of the property's keys, which are those of the
    entries [A]. *)
Lemma scan_ids (A : Id -> bytes -> list bytes -> Prop) start end_ (P : bytes -> Prop) :
  (forall k, (present m k /\ exists tl, k = Key pre ++ tl) <->
     exists id v ord, A id v ord /\ k = idxKey acct n prop v ord id) ->
  (forall id v ord, A id v ord -> no_zero id) ->
  (forall id v ord v' ord', A id v ord -> A id v' ord' -> P v -> P v' -> v = v' /\ ord = ord') ->
  (forall k, present m k -> in_range start end_ k = true -> exists tl, k = Key pre ++ tl) ->
  (forall v ord id, in_range start end_ (idxKey acct n prop v ord id) = true <-> P v) ->
  exists es, map idFromObjKey (range_keys m start end_) = es.*2 /\ StronglySorted entry_lt es /\ NoDup es.*2 /\
    forall e, e ∈ es <-> A e.2 e.1.1 e.1.2 /\ P e.1.1.
Proof.
  intros index_keys Hid Hfun Hrange HP.
  set (Q := fun e : entry => A e.2 e.1.1 e.1.2 /\ P e.1.1).
  assert (Hk : forall k, k ∈ range_keys m start end_ <-> exists e, Q e /\ k = entry_key e).
  { intros k. rewrite elem_of_range_keys. split.
    - intros [Hr Hpr]. destruct (proj1 (index_keys k) (conj Hpr (Hrange k Hpr Hr))) as (id & v & ord & Ha & ->).
      exists (v, ord, id). unfold Q, entry_key. cbn. by rewrite <- (HP v ord id).
    - intros ([[v ord] id] & [Ha HPv] & ->). unfold entry_key. cbn in *. split; [by apply HP|]. apply index_keys. eauto. }
  destruct (keys_entries Q (range_keys m start end_)) as (es & E & Hq & Hsort);
    [intros k; by apply Hk|apply range_keys_sorted|].
  rewrite Forall_forall in Hq.
  assert (Hids : map idFromObjKey (map entry_key es) = es.*2).
  { clear E Hk Hsort. induction es as [|e es IH]; [done|]. cbn [map fmap list_fmap]. f_equal.
    - unfold entry_key, idxKey, key. rewrite app_assoc. apply idFromObjKey_Key; [done|]. eapply Hid, Hq. by left.
    - apply IH. intros e' He'. apply Hq. by right. }
  exists es. split; [by rewrite E|]. split; [done|]. split.
  - clear E Hk Hids. induction Hsort as [|e es Hsort IH He]; [constructor|]. cbn. constructor.
    + intros ([[v ord] id] & Eid & Hin)%list_elem_of_fmap. cbn in Eid.
      pose proof (Hq e ltac:(by left)) as [Ha HP1]. pose proof (Hq _ ltac:(right; exact Hin)) as [Ha' HP2]. cbn [fst snd] in Ha', HP2. rewrite Eid in Ha.
      destruct (Hfun _ _ _ _ _ Ha Ha' HP1 HP2) as [E1 E2]. rewrite Forall_forall in He. specialize (He _ Hin).
      unfold entry_lt in He. rewrite <- entry_key_compare in He. unfold entry_key in He. cbn in He. rewrite E1, E2, Eid, bcompare_refl in He. done.
    + apply IH. intros e' He'. apply Hq. by right.
  - intros e. split; [by apply Hq|]. intros He. assert (Hin : entry_key e ∈ range_keys m start end_) by (apply Hk; eauto).
    rewrite E in Hin. apply list_elem_of_fmap in Hin as (e' & Ek & Hin). pose proof (Hq e' Hin) as [Ha _].
    assert (e = e') as ->; [|done]. destruct He as [He _]. destruct e as [[v ord] id], e' as [[v' ord'] id'].
    unfold entry_key, idxKey, key in Ek. cbn [fst snd] in Ek. apply Key_injective in Ek. injection Ek as -> Ek. by apply app_inj_2 in Ek as [-> [= ->]].
Qed.

Lemma range_list_ids start end_ :
  map (fun kv : bytes * slice => idFromObjKey kv.1) (range_list m start end_ false) = map idFromObjKey (range_keys m start end_).
Proof. rewrite <- range_list_fst. unfold fmap. induction (range_list m start end_ false); cbn; congruence. Qed.

Lemma collect_scan start end_ limit :
  be_Scan s start end_ false (collect_ids limit) [] =
  Ok (take_limit limit (map idFromObjKey (range_keys m start end_))).
Proof.
  rewrite be_Scan_spec by done. f_equal. unfold collect_ids. rewrite scan_fold_limit. f_equal. apply range_list_ids.
Qed.

Lemma pre_v_range v k : in_range (prefixRange (pre ++ [v])).1 (prefixRange (pre ++ [v])).2 k = true -> exists tl, k = Key pre ++ tl.
Proof. intros [tl ->]%PrefixSuccessor_range. exists (Key [v] ++ tl). by rewrite app_assoc, <- Key_app. Qed.

Lemma pre_v_idx v v' ord id :
  in_range (prefixRange (pre ++ [v])).1 (prefixRange (pre ++ [v])).2 (idxKey acct n prop v' ord id) = true <-> v' = v.
Proof.
  unfold idxKey, key. rewrite Key_range. split.
  - intros [rest E]. by injection E.
  - intros ->. by exists (ord ++ [id]).
Qed.

(** The end of the subrange of [v] bounds exactly the values up to [v]. *)
Lemma successor_below q k : q <> [] -> blt k (default [] (PrefixSuccessor q)) = true \/ PrefixSuccessor q = None <->
  (blt k q = true \/ exists tl, k = q ++ tl) \/ PrefixSuccessor q = None.
Proof.
  intros Hq. destruct (PrefixSuccessor q) as [e|] eqn:E; [|naive_solver]. cbn.
  assert (Hr : forall k, in_range q (Some e) k = true <-> exists tl, k = q ++ tl) by (intros; rewrite <- E; apply PrefixSuccessor_range).
  unfold in_range in Hr. setoid_rewrite andb_true_iff in Hr.
  assert (Hqe : blt q e = true) by (apply (Hr q); exists []; by rewrite app_nil_r).
  split; [intros [Hk|?]; [|done]|intros [[Hk|Hk]|?]; [| |done]].
  - left. destruct (ble q k) eqn:Eq; [right; by apply Hr|left]. by rewrite blt_negb, Eq.
  - left. eapply blt_trans; eauto.
  - left. by apply Hr in Hk as [_ ?].
Qed.

Lemma idx_at_most v v' ord id :
  in_range (Key pre) (PrefixSuccessor (Key (pre ++ [v]))) (idxKey acct n prop v' ord id) = true <-> ble v' v = true.
Proof.
  assert (Hne : PrefixSuccessor (Key (pre ++ [v])) <> None) by (by apply Key_has_successor).
  unfold in_range. rewrite andb_true_iff.
  assert (Hle : ble (Key pre) (idxKey acct n prop v' ord id) = true).
  { unfold idxKey, key. change ([acct; bs "x"; n; prop; v'] ++ ord ++ [id]) with (pre ++ (v' :: ord) ++ [id]).
    rewrite (Key_app pre). apply ble_prefix. }
  pose proof (successor_below (Key (pre ++ [v])) (idxKey acct n prop v' ord id)) as Hsb.
  destruct (PrefixSuccessor (Key (pre ++ [v]))) as [e|] eqn:E; [|done]. change (default [] (Some e)) with e in Hsb.
  assert (Hq : Key (pre ++ [v]) <> []).
  { change (pre ++ [v]) with (acct :: [bs "x"; n; prop; v]). rewrite Key_cons. apply enc_not_nil. }
  assert (blt (idxKey acct n prop v' ord id) e = true <->
          blt (idxKey acct n prop v' ord id) (Key (pre ++ [v])) = true \/ exists tl, idxKey acct n prop v' ord id = Key (pre ++ [v]) ++ tl)
    as He by (specialize (Hsb Hq); naive_solver).
  rewrite He, (ble_blt_eq v' v), (blt_lt v' v), (blt_lt _ (Key (pre ++ [v]))). unfold idxKey, key in *.
  change ([acct; bs "x"; n; prop; v'] ++ ord ++ [id]) with (pre ++ (v' :: ord ++ [id])).
  rewrite Key_compare. cbn [app segs_compare]. rewrite !bcompare_refl. split.
  - intros [_ [H|[tl H]]].
    + destruct (bcompare v' v) eqn:Ec; [|by left|done]. right. by apply bcompare_eq.
    + symmetry in H. apply Key_prefix_inv in H as (rest & Er & _). injection Er as <- _. by right.
  - intros [H| ->]; (split; [done|]).
    + left. by rewrite H.
    + right. exists (Key (ord ++ [id])). by rewrite <- Key_app.
Qed.

Lemma idx_at_least v v' ord id :
  in_range (Key (pre ++ [v])) (PrefixSuccessor (Key pre)) (idxKey acct n prop v' ord id) = true <-> ble v v' = true.
Proof.
  assert (Hin : in_range (Key pre) (PrefixSuccessor (Key pre)) (idxKey acct n prop v' ord id) = true).
  { apply PrefixSuccessor_range. exists (Key ((v' :: ord) ++ [id])). unfold idxKey, key. by rewrite <- Key_app. }
  unfold in_range in *. apply andb_true_iff in Hin as [_ ->]. rewrite andb_true_r, ble_gt, (ble_gt v).
  unfold idxKey, key. change ([acct; bs "x"; n; prop; v'] ++ ord ++ [id]) with (pre ++ (v' :: ord ++ [id])).
  rewrite Key_compare. cbn [app segs_compare]. rewrite !bcompare_refl.
  destruct (bcompare v v') eqn:E; [|done|done]. by destruct (ord ++ [id]).
Qed.

Lemma at_least_range v k :
  in_range (Key (pre ++ [v])) (PrefixSuccessor (Key pre)) k = true -> exists tl, k = Key pre ++ tl.
Proof.
  unfold in_range. intros [H1 H2]%andb_true_iff. apply (PrefixSuccessor_range (Key pre)). unfold in_range. apply andb_true_iff.
  split; [|done]. eapply ble_trans; [|exact H1]. rewrite Key_app. apply ble_prefix.
Qed.

Lemma at_most_range v k :
  in_range (Key pre) (PrefixSuccessor (Key (pre ++ [v]))) k = true -> exists tl, k = Key pre ++ tl.
Proof.
  intros H. apply (PrefixSuccessor_range (Key pre)). unfold in_range in *. apply andb_true_iff in H as [H1 H2].
  apply andb_true_iff. split; [done|]. destruct (PrefixSuccessor (Key pre)) as [e|] eqn:E; [|done].
  destruct (PrefixSuccessor (Key (pre ++ [v]))) as [e'|] eqn:E'; [|exfalso; by eapply Key_has_successor in E'].
  assert (Hlast : forall k, in_range (Key (pre ++ [v])) (Some e') k = true -> in_range (Key pre) (Some e) k = true).
  { intros k'. rewrite <- E', <- E, !PrefixSuccessor_range. intros [tl ->]. exists (Key [v] ++ tl). by rewrite app_assoc, <- Key_app. }
  destruct (ble (Key (pre ++ [v])) k) eqn:Eq.
  - specialize (Hlast k). unfold in_range in Hlast. rewrite Eq, H2 in Hlast. by apply andb_true_iff in Hlast as [_ ?].
  - rewrite ble_negb, negb_false_iff in Eq. eapply blt_trans; [exact Eq|].
    specialize (Hlast (Key (pre ++ [v]))). unfold in_range in Hlast. rewrite ble_refl in Hlast.
    assert (Hb : blt (Key (pre ++ [v])) e' = true).
    { assert (Hr : in_range (Key (pre ++ [v])) (Some e') (Key (pre ++ [v])) = true).
      { rewrite <- E'. apply PrefixSuccessor_range. exists []. by rewrite app_nil_r. }
      unfold in_range in Hr. by apply andb_true_iff in Hr as [_ ?]. }
    rewrite Hb in Hlast. by apply andb_true_iff in Hlast as [_ ?].
Qed.

(** ** Answers *)

(** [r] is the ids of exactly the records whose index value satisfies [P], in
    the order of their index entries, each once, cut at [limit]. *)
Definition answers (P : bytes -> Prop) (limit : Z) (r : result (list Id)) : Prop :=
  exists es : list entry, r = Ok (take_limit limit es.*2) /\ StronglySorted entry_lt es /\ NoDup es.*2 /\
    forall e, e ∈ es <-> indexed_at e.2 e.1.1 e.1.2 /\ P e.1.1.

Lemma scan_answers P start end_ limit :
  (forall k, present m k -> in_range start end_ k = true -> exists tl, k = Key pre ++ tl) ->
  (forall v ord id, in_range start end_ (idxKey acct n prop v ord id) = true <-> P v) ->
  answers P limit (be_Scan s start end_ false (collect_ids limit) []).
Proof.
  intros Hr HP. rewrite collect_scan. destruct (scan_ids indexed_at start end_ P) as (es & E & H);
    [apply index_keys|apply indexed_at_id|intros * H1 H2 _ _; by eapply indexed_at_fun|done|done|].
  exists es. by rewrite E.
Qed.

Lemma indexed_prop_ok : indexed_prop db n prop = Ok (t, p).
Proof. unfold indexed_prop. by rewrite Ht, Hp, Hi. Qed.

Lemma IdsWhereEqual_answers value v limit :
  indexValue p value = Ok v -> 0 <= limit -> answers (fun x => x = v) limit (IdsWhereEqual db s acct n prop value limit).
Proof.
  intros Hv Hl. unfold IdsWhereEqual. rewrite indexed_prop_ok. cbn [mbind result_bind snd]. rewrite Hv. cbn [mbind result_bind].
  rewrite (surjective_pairing (prefixRange [acct; bs "x"; n; prop; v])).
  change [acct; bs "x"; n; prop; v] with (pre ++ [v]).
  assert (Hcb : forall l acc, scan_fold (fun ids k (_ : slice) => let ids' := ids ++ [idFromObjKey k] in (ids', (limit =? 0) || (Z.of_nat (length ids') <? limit))) l acc
                = scan_fold (collect_ids limit) l acc).
  { induction l as [|[k x] l IH]; intros acc; [done|]. cbn [scan_fold]. unfold collect_ids at 1, collect_limit at 1. cbn [fst snd].
    replace (limit <=? 0) with (limit =? 0) by (destruct (Z.eqb_spec limit 0), (Z.leb_spec limit 0); lia).
    by destruct (_ || _). }
  rewrite be_Scan_spec, Hcb, <- be_Scan_spec by done. apply scan_answers.
  - intros k _. apply pre_v_range.
  - intros v' ord id. apply pre_v_idx.
Qed.

Lemma IdsWhereAtMost_answers max v limit :
  indexValue p max = Ok v -> answers (fun x => ble x v = true) limit (IdsWhereAtMost db s acct n prop (Some max) limit).
Proof.
  intros Hv. unfold IdsWhereAtMost. rewrite indexed_prop_ok. cbn [mbind result_bind snd].
  rewrite (surjective_pairing (prefixRange pre)), Hv. cbn [mbind result_bind]. apply scan_answers.
  - intros k _. apply (at_most_range v).
  - intros v' ord id. apply (idx_at_most v).
Qed.

Lemma IdsWhereAtLeast_answers min v limit :
  indexValue p min = Ok v -> answers (fun x => ble v x = true) limit (IdsWhereAtLeast db s acct n prop (Some min) limit).
Proof.
  intros Hv. unfold IdsWhereAtLeast. rewrite indexed_prop_ok. cbn [mbind result_bind snd].
  rewrite (surjective_pairing (prefixRange pre)), Hv. cbn [mbind result_bind]. apply scan_answers.
  - intros k _. apply (at_least_range v).
  - intros v' ord id. apply (idx_at_least v).
Qed.
End queries.

(** ** Membership *)

Section members.
Context `{MR : MapRange, TP : TimeParse, CF : CaseFold, LC : LogCodec}.
Context {S : Type} `{BE : Backend S, BL : !BackendLaws S}.
Variable db : DB.
Variable s : S.
Variable acct : Id.
Hypothesis Hdb : db_wf db.
Hypothesis Hs : be_inv s.
Hypothesis Hinv : index_inv db acct (be_map s).
Hypothesis Hshape : index_shape acct (be_map s).
Variable n prop : bytes.
Variable t : Type_.
Variable p : Property.
Hypothesis Ht : db_types db !! n = Some t.
Hypothesis Hp : t_Properties t !! prop = Some p.
Hypothesis Hi : p_SetIndexed p = true.

Definition member_at (id : Id) (v : bytes) (ord : list bytes) : Prop :=
  ord = [] /\ exists o ms, obj_at db (be_map s) acct n id = Some o /\ setMembers p (o !! prop) = Ok ms /\ v ∈ ms.

Lemma member_keys k :
  (present (be_map s) k /\ exists tl, k = Key [acct; bs "x"; n; prop] ++ tl) <->
  exists id v ord, member_at id v ord /\ k = idxKey acct n prop v ord id.
Proof.
  pose proof (type_name db Hdb n t Ht) as Hn.
  assert (Hix : p_Indexed p = false).
  { destruct (p_Indexed p) eqn:E; [|done]. destruct (dw_types db Hdb _ _ Ht) as (_ & Hval & _).
    destruct (Validate_property t prop p Hval Hp) as [Hc _]. apply check_property_indexed in Hc as [Hc _].
    destruct (Hc E) as [_ ?]. congruence. }
  split.
  - intros [Hk [tl Htl]]. destruct (is_keys _ _ Hshape k n prop tl Hk Htl) as (v & rest & id & E).
    assert (Hfp : idx_fp acct t id prop k) by (exists (v :: rest); by rewrite Hn).
    assert (Hrf : rec_fp acct t id k) by (right; right; exists prop, p; done).
    apply (ii_index _ _ _ Hinv n t id k Ht Hrf) in Hk.
    destruct Hk as [(name & p' & Hp' & Hi' & He)|[He|(name & p' & Hp' & _ & He)]].
    + pose proof (idx_fp_inj acct t id _ _ k (idx_entry_fp _ _ _ _ _ _ _ He) Hfp) as ->. congruence.
    + exfalso. eapply idx_ref_disjoint; [exact Hfp|]. by eapply ref_entry_fp.
    + pose proof (idx_fp_inj acct t id _ _ k (set_entry_fp _ _ _ _ _ _ _ He) Hfp) as ->.
      assert (p' = p) as -> by congruence. destruct He as (ms & x & Hms & Hx & ->).
      destruct (obj_at db (be_map s) acct n id) as [o|] eqn:Eo; [|cbn in Hms; injection Hms as <-; by apply not_elem_of_nil in Hx].
      exists id, x, []. rewrite Hn. split; [|done]. split; [done|]. exists o, ms. done.
  - intros (id & v & ord & (-> & o & ms & Eo & Hms & Hv) & ->). split.
    + apply (ii_index _ _ _ Hinv n t id _ Ht).
      * right. right. exists prop, p. split; [done|]. split; [done|]. exists [v]. by rewrite Hn.
      * right. right. exists prop, p. split; [done|]. split; [done|]. rewrite Eo. exists ms, v. by rewrite Hn.
    + exists (Key ([v] ++ [id])). unfold idxKey, key. rewrite <- Key_app. done.
Qed.

Lemma IdsWhereMember_answers member :
  exists ids, IdsWhereMember db s acct n prop member = Ok ids /\ StronglySorted bytes_lt ids /\
    forall id, id ∈ ids <-> member_at id member [].
Proof.
  unfold IdsWhereMember, set_indexed_prop. rewrite Ht, Hp, Hi. cbn [mbind result_bind].
  rewrite (surjective_pairing (prefixRange [acct; bs "x"; n; prop; member])).
  change [acct; bs "x"; n; prop; member] with ([acct; bs "x"; n; prop] ++ [member]).
  destruct (scan_ids s acct n prop member_at (prefixRange ([acct; bs "x"; n; prop] ++ [member])).1
              (prefixRange ([acct; bs "x"; n; prop] ++ [member])).2 (fun x => x = member)) as (es & E & Hsort & Hnd & Hes).
  - apply member_keys.
  - intros id v ord (_ & o & ms & Eo & _). by eapply obj_at_id.
  - intros id v ord v' ord' [-> _] [-> _] -> ->. done.
  - intros k _. apply pre_v_range.
  - intros v ord id. apply pre_v_idx.
  - exists es.*2. rewrite be_Scan_spec by done. split.
    + f_equal. rewrite scan_fold_collect. cbn [app]. rewrite <- E. apply range_list_ids.
    + split.
      * assert (Hall : forall e, e ∈ es -> e.1 = (member, [])).
        { intros e [[E1 _] Hm]%Hes. destruct e as [[v ord] id]. cbn in *. by subst. }
        clear E Hnd Hes. induction Hsort as [|e es Hsort IH He]; [constructor|]. cbn [fmap list_fmap]. constructor.
        -- apply IH. intros e' He'. apply Hall. by right.
        -- apply Forall_fmap, Forall_forall. intros e' He'. rewrite Forall_forall in He. specialize (He e' He').
           unfold entry_lt, entry_segs in He. rewrite (Hall e ltac:(by left)), (Hall e' ltac:(by right)) in He.
           cbn [fst snd app segs_compare] in He. rewrite bcompare_refl in He. apply blt_lt. cbn. by destruct (bcompare e.2 e'.2).
      * intros id. rewrite list_elem_of_fmap. split.
        -- intros (e & -> & [Hm E1]%Hes). destruct e as [[v ord] id']. cbn [fst snd] in *. subst. by destruct Hm as [-> ?].
        -- intros Hm. exists (member, [], id). split; [done|]. by apply Hes.
Qed.
End members.

(** ** Properties *)

(** The account of the example database after its commit. *)
Section demo.
#[local] Existing Instances map_order Instances.demo_codec Instances.demo_time Instances.demo_fold Memory.memory_backend Memory.memory_laws.
Import Instances.

Lemma demo_account : account_reach demo_db demo_acct (c_store demo_c).
Proof.
  eapply (ar_commit demo_db demo_acct empty_store no_fence 1700 0 demo_fn demo_u);
    [by apply ar_new; [apply Memory.empty_inv|]|apply no_fence_fence|vm_compute; reflexivity|apply demo_fn_ok|
     apply demo_reach|apply demo_staging_ok|apply demo_update_ok].
Qed.

Definition demo_title : Property := default zeroProperty (t_Properties demo_type !! bs "title").
Definition demo_labels : Property := default zeroProperty (t_Properties demo_type !! bs "labels").
Lemma demo_lookup : db_types demo_db !! bs "Note" = Some demo_type.
Proof. vm_compute. reflexivity. Qed.
End demo.

(** C24: an equality query over an indexed property is exact.  In every
    reachable store of an account, [IdsWhereEqual] returns the ids of exactly
    the records whose property has the queried index value - each once, in
    the declared order (OrderBy segments, then id), cut at the limit. *)
Theorem IdsWhereEqual_exact `{MR : MapRange, TP : TimeParse, CF : CaseFold, LC : LogCodec}
  {S : Type} `{BE : Backend S, BL : !BackendLaws S}
  (db : DB) (s : S) (acct : Id) (n prop : bytes) (t : Type_) (p : Property) (value v : bytes) (limit : Z)
  (Hdb : db_wf db) (Hacct : Valid acct = true) (Hr : account_reach db acct s)
  (Ht : db_types db !! n = Some t) (Hp : t_Properties t !! prop = Some p) (Hi : p_Indexed p = true)
  (Hv : indexValue p value = Ok v) (Hl : 0 <= limit) :
  answers db s acct n prop t p (fun x => x = v) limit (IdsWhereEqual db s acct n prop value limit).
Proof.
  destruct (account_reach_inv db acct Hdb Hacct s Hr) as (Hs & Hii & Hsh).
  by apply (IdsWhereEqual_answers db s acct Hdb Hs Hii Hsh n prop t p Ht Hp Hi).
Qed.

Lemma IdsWhereEqual_exact_witness :
  @IdsWhereEqual Instances.demo_time Instances.demo_fold Memory.Store Memory.memory_backend Instances.demo_db (c_store Instances.demo_c) Instances.demo_acct (bs "Note") (bs "title")
    (Jsongrammar.quoted (bs "HELLO")) 0 = Ok [Instances.demo_id] /\
  exists es, [Instances.demo_id] = es.*2 /\ forall e, e ∈ es <->
    @indexed_at Instances.demo_time Instances.demo_fold Memory.Store Memory.memory_backend Memory.memory_laws Instances.demo_db
      (c_store Instances.demo_c) Instances.demo_acct (bs "Note") (bs "title") Instances.demo_type demo_title e.2 e.1.1 e.1.2 /\ e.1.1 = bs "hello".
Proof.
  assert (E : @IdsWhereEqual Instances.demo_time Instances.demo_fold Memory.Store Memory.memory_backend Instances.demo_db (c_store Instances.demo_c) Instances.demo_acct (bs "Note") (bs "title")
    (Jsongrammar.quoted (bs "HELLO")) 0 = Ok [Instances.demo_id]) by (vm_compute; reflexivity).
  split; [exact E|].
  destruct (@IdsWhereEqual_exact map_order Instances.demo_time Instances.demo_fold Instances.demo_codec
    Memory.Store Memory.memory_backend Memory.memory_laws Instances.demo_db (c_store Instances.demo_c) Instances.demo_acct
    (bs "Note") (bs "title") Instances.demo_type demo_title (Jsongrammar.quoted (bs "HELLO")) (bs "hello") 0) as (es & Hes & _ & _ & Hin).
  - apply Instances.demo_db_wf.
  - vm_compute. reflexivity.
  - apply demo_account.
  - apply demo_lookup.
  - vm_compute. reflexivity.
  - vm_compute. reflexivity.
  - vm_compute. reflexivity.
  - vm_compute. discriminate.
  - rewrite E in Hes. injection Hes as Hes. exists es. split; [exact Hes|exact Hin].
Defined.

(** C25: a range query over an indexed property is exact: [IdsWhereAtMost]
    returns exactly the records whose index value is at most the bound under
    [bytes.Compare], [IdsWhereAtLeast] those at least the bound, each once,
    in ascending index order, cut at the limit. *)
Theorem range_queries_exact `{MR : MapRange, TP : TimeParse, CF : CaseFold, LC : LogCodec}
  {S : Type} `{BE : Backend S, BL : !BackendLaws S}
  (db : DB) (s : S) (acct : Id) (n prop : bytes) (t : Type_) (p : Property) (bound v : bytes) (limit : Z)
  (Hdb : db_wf db) (Hacct : Valid acct = true) (Hr : account_reach db acct s)
  (Ht : db_types db !! n = Some t) (Hp : t_Properties t !! prop = Some p) (Hi : p_Indexed p = true)
  (Hv : indexValue p bound = Ok v) :
  answers db s acct n prop t p (fun x => ble x v = true) limit (IdsWhereAtMost db s acct n prop (Some bound) limit) /\
  answers db s acct n prop t p (fun x => ble v x = true) limit (IdsWhereAtLeast db s acct n prop (Some bound) limit).
Proof.
  destruct (account_reach_inv db acct Hdb Hacct s Hr) as (Hs & Hii & Hsh). split.
  - by apply (IdsWhereAtMost_answers db s acct Hdb Hs Hii Hsh n prop t p Ht Hp Hi).
  - by apply (IdsWhereAtLeast_answers db s acct Hdb Hs Hii Hsh n prop t p Ht Hp Hi).
Qed.

Lemma range_queries_exact_witness :
  @IdsWhereAtMost Instances.demo_time Instances.demo_fold Memory.Store Memory.memory_backend Instances.demo_db (c_store Instances.demo_c) Instances.demo_acct (bs "Note") (bs "title")
    (Some (Jsongrammar.quoted (bs "i"))) 0 = Ok [Instances.demo_id] /\
  exists es, [Instances.demo_id] = es.*2 /\ forall e, e ∈ es <->
    @indexed_at Instances.demo_time Instances.demo_fold Memory.Store Memory.memory_backend Memory.memory_laws Instances.demo_db
      (c_store Instances.demo_c) Instances.demo_acct (bs "Note") (bs "title") Instances.demo_type demo_title e.2 e.1.1 e.1.2 /\ ble e.1.1 (bs "i") = true.
Proof.
  assert (E : @IdsWhereAtMost Instances.demo_time Instances.demo_fold Memory.Store Memory.memory_backend Instances.demo_db (c_store Instances.demo_c) Instances.demo_acct (bs "Note") (bs "title")
    (Some (Jsongrammar.quoted (bs "i"))) 0 = Ok [Instances.demo_id]) by (vm_compute; reflexivity).
  split; [exact E|].
  destruct (@range_queries_exact map_order Instances.demo_time Instances.demo_fold Instances.demo_codec
    Memory.Store Memory.memory_backend Memory.memory_laws Instances.demo_db (c_store Instances.demo_c) Instances.demo_acct
    (bs "Note") (bs "title") Instances.demo_type demo_title (Jsongrammar.quoted (bs "i")) (bs "i") 0) as [(es & Hes & _ & _ & Hin) _].
  - apply Instances.demo_db_wf.
  - vm_compute. reflexivity.
  - apply demo_account.
  - apply demo_lookup.
  - vm_compute. reflexivity.
  - vm_compute. reflexivity.
  - vm_compute. reflexivity.
  - rewrite E in Hes. injection Hes as Hes. exists es. split; [exact Hes|exact Hin].
Defined.

(** A membership query is exact: [IdsWhereMember] returns, in ascending
    order and without repetition, exactly the records whose set-indexed
    property holds the member. *)
Theorem IdsWhereMember_exact `{MR : MapRange, TP : TimeParse, CF : CaseFold, LC : LogCodec}
  {S : Type} `{BE : Backend S, BL : !BackendLaws S}
  (db : DB) (s : S) (acct : Id) (n prop : bytes) (t : Type_) (p : Property) (member : bytes)
  (Hdb : db_wf db) (Hacct : Valid acct = true) (Hr : account_reach db acct s)
  (Ht : db_types db !! n = Some t) (Hp : t_Properties t !! prop = Some p) (Hi : p_SetIndexed p = true) :
  exists ids, IdsWhereMember db s acct n prop member = Ok ids /\ StronglySorted bytes_lt ids /\
    forall id, id ∈ ids <-> exists o ms, obj_at db (be_map s) acct n id = Some o /\ setMembers p (o !! prop) = Ok ms /\ member ∈ ms.
Proof.
  destruct (account_reach_inv db acct Hdb Hacct s Hr) as (Hs & Hii & Hsh).
  destruct (IdsWhereMember_answers db s acct Hdb Hs Hii Hsh n prop t p Ht Hp Hi member) as (ids & E & Hso & Hin).
  exists ids. split; [done|]. split; [done|]. intros id. rewrite Hin. unfold member_at. naive_solver.
Qed.

Lemma IdsWhereMember_exact_witness :
  exists ids, @IdsWhereMember Memory.Store Memory.memory_backend Instances.demo_db (c_store Instances.demo_c) Instances.demo_acct (bs "Note") (bs "labels") (bs "red") = Ok ids /\
    ids = [Instances.demo_id] /\ StronglySorted bytes_lt ids.
Proof.
  destruct (@IdsWhereMember_exact map_order Instances.demo_time Instances.demo_fold Instances.demo_codec
    Memory.Store Memory.memory_backend Memory.memory_laws Instances.demo_db (c_store Instances.demo_c) Instances.demo_acct
    (bs "Note") (bs "labels") Instances.demo_type demo_labels (bs "red")) as (ids & E & Hs & _).
  - apply Instances.demo_db_wf.
  - vm_compute. reflexivity.
  - apply demo_account.
  - apply demo_lookup.
  - vm_compute. reflexivity.
  - vm_compute. reflexivity.
  - exists ids. split; [exact E|]. split; [|exact Hs].
    assert (E2 : @IdsWhereMember Memory.Store Memory.memory_backend Instances.demo_db (c_store Instances.demo_c) Instances.demo_acct (bs "Note") (bs "labels") (bs "red") = Ok [Instances.demo_id])
      by (vm_compute; reflexivity).
    congruence.
Defined.
End Queries.
