(* ===== verification/Changes.v ===== *)
(** * Changes: reading and trimming the change log
      (core/objectdb: changes.go, changedids.go, trim.go)

    The readers hold no lease, so each backend call of a reader may observe a
    different store: every read takes its own.  [TrimChanges] runs under the
    account lease and observes one. *)

From S2P Require Import Prelude GoLib Keyenc Backend Jsonscan Jmap Descriptor Keys ObjectDB SetIndex Commit.

Module Changes.
Import Keyenc Backend Jmap Keys ObjectDB Commit.

Record ChangeSet := mkChangeSet {
  cs_OldState : bytes;
  cs_NewState : bytes;
  cs_HasMore : bool;
  cs_Created : list Id;
  cs_Updated : list Id;
  cs_Destroyed : list Id;
  cs_UpdatedProps : option (list bytes);
}.

Inductive Disp := dispCreated | dispUpdated | dispDestroyed | dispOmitted.
#[export] Instance Disp_eq_dec : EqDecision Disp.
Proof. solve_decision. Defined.

(** The variables the scan callback of [Changes] captures. *)
Record ScanState := mkScan {
  sc_disp : gmap Id Disp;
  sc_propsKnown : bool;
  sc_updatedProps : list bytes;
  sc_lastConsumed : Z;
  sc_hasMore : bool;
  sc_err : option error;
}.

(** [apply(id, next)] over the dispositions and [propsKnown]. *)
Definition apply_disp (next : Disp) (acc : gmap Id Disp * bool) (id : Id) : gmap Id Disp * bool :=
  let '(disp, known) := acc in
  match disp !! id with
  | None => (<[id := next]> disp, known)
  | Some prev =>
      match prev, next with
      | dispCreated, dispUpdated => (disp, known)
      | dispCreated, dispDestroyed => (delete id disp, known)
      | dispUpdated, dispDestroyed => (<[id := dispDestroyed]> disp, known)
      | dispDestroyed, dispCreated => (<[id := dispUpdated]> disp, false)
      | _, _ => (<[id := next]> disp, known)
      end
  end.

Definition apply_entry (te : logTypeEntry) (acc : gmap Id Disp * bool) : gmap Id Disp * bool :=
  fold_left (apply_disp dispDestroyed) (lt_Destroyed te)
    (fold_left (apply_disp dispUpdated) (lt_Updated te)
      (fold_left (apply_disp dispCreated) (lt_Created te) acc)).

Definition entry_size (te : logTypeEntry) : Z :=
  Z.of_nat (length (lt_Created te)) + Z.of_nat (length (lt_Updated te)) + Z.of_nat (length (lt_Destroyed te)).

Definition sc_fail (st : ScanState) (e : error) : ScanState :=
  mkScan (sc_disp st) (sc_propsKnown st) (sc_updatedProps st) (sc_lastConsumed st) (sc_hasMore st) (Some e).
Definition sc_more (st : ScanState) : ScanState :=
  mkScan (sc_disp st) (sc_propsKnown st) (sc_updatedProps st) (sc_lastConsumed st) true (sc_err st).
Definition sc_at (st : ScanState) (n : Z) : ScanState :=
  mkScan (sc_disp st) (sc_propsKnown st) (sc_updatedProps st) n (sc_hasMore st) (sc_err st).

(** Consume a whole entry of the type. *)
Definition consume (te : logTypeEntry) (seqOfEntry : Z) (st : ScanState) : ScanState :=
  let '(disp, known) := apply_entry te (sc_disp st, sc_propsKnown st) in
  let '(known', props) :=
    match lt_Updated te with
    | [] => (known, sc_updatedProps st)
    | _ => match lt_UpdatedProps te with
           | None => (false, sc_updatedProps st)
           | Some ps => (known, mergeProps (sc_updatedProps st) ps)
           end
    end in
  mkScan disp known' props seqOfEntry (sc_hasMore st) (sc_err st).

(** The ids with a disposition, sorted. *)
Definition ids_with (d : Disp) (disp : gmap Id Disp) : list Id :=
  sort_strings ((map_to_list (filter (fun kd : Id * Disp => kd.2 = d) disp)).*1).

Section operations.
Context `{MapRange, TimeParse, CaseFold, LogCodec}.
Context {S : Type} `{Backend S}.

Definition changes_step (typeName : bytes) (maxChanges : Z) (st : ScanState) (k : bytes) (v : slice) : ScanState * bool :=
  match unmarshalLog (sbytes v) with
  | Err e => (sc_fail st e, false)
  | Ok entry =>
      let seqOfEntry := seqFromLogKey k in
      match le_Types entry !! typeName with
      | None => (if bool_decide (sc_disp st = ∅) then sc_at st seqOfEntry else st, true)
      | Some te =>
          let projected := Z.of_nat (size (sc_disp st)) + entry_size te in
          if (0 <? maxChanges) && (maxChanges <? projected) then
            if bool_decide (sc_disp st = ∅) then (sc_fail st ErrCannotCalculateChanges, false)
            else (sc_more st, false)
          else (consume te seqOfEntry st, true)
      end
  end.

Definition logFloor (s : S) (acct : Id) : result Z := get_counter s (logFloorKey acct) 0.

(** [strconv.ParseInt(sinceState, 10, 64)], a failure or a negative value
    refused. *)
Definition parse_state (sinceState : bytes) : result Z :=
  match ParseInt sinceState with
  | Some since => if since <? 0 then Err ErrCannotCalculateChanges else Ok since
  | None => Err ErrCannotCalculateChanges
  end.

(** The stores the five reads observe: the sequence, the floor, the log, the
    floor again, the type state. *)
Definition Changes (db : DB) (s_seq s_floor s_log s_floor2 s_state : S) (acct : Id) (typeName sinceState : bytes) (maxChanges : Z)
  : result ChangeSet :=
  match db_types db !! typeName with
  | None => Err ErrUnknownType
  | Some _ =>
      since ← parse_state sinceState;
      global ← get_counter s_seq (seqKey acct) 0;
      if global <? since then Err ErrCannotCalculateChanges
      else
        floor ← logFloor s_floor acct;
        if int64 (since + 1) <? floor then Err ErrCannotCalculateChanges
        else
          st ← be_Scan s_log (logKey acct (int64 (since + 1))) (prefixRange [acct; bs "g"]).2 false
                 (changes_step typeName maxChanges) (mkScan ∅ true [] since false None);
          match sc_err st with
          | Some e => Err e
          | None =>
              floor2 ← logFloor s_floor2 acct;
              if int64 (since + 1) <? floor2 then Err ErrCannotCalculateChanges
              else
                newState ← (if sc_hasMore st then Ok (FormatInt (sc_lastConsumed st)) else TypeState db s_state acct typeName);
                Ok (mkChangeSet sinceState newState (sc_hasMore st)
                      (ids_with dispCreated (sc_disp st)) (ids_with dispUpdated (sc_disp st)) (ids_with dispDestroyed (sc_disp st))
                      (if sc_propsKnown st then Some (sc_updatedProps st) else None))
          end
  end.

(** ** ChangedSince *)

Record TypeChanges := mkTypeChanges { tc_Created : list Id; tc_Updated : list Id; tc_Destroyed : list Id }.

Definition Touched (tc : option TypeChanges) : bool :=
  match tc with
  | None => false
  | Some c => negb ((length (tc_Created c) =? 0) && (length (tc_Updated c) =? 0) && (length (tc_Destroyed c) =? 0))%nat
  end.

(** The variables of the walk: dispositions by type, how many ids are held,
    and the two ways it stops early. *)
Record WalkState := mkWalk {
  w_disp : gmap bytes (gmap Id Disp);
  w_held : Z;
  w_budgetHit : bool;
  w_err : option error;
}.

Definition next_disp (prev next : Disp) : Disp :=
  match prev, next with
  | dispOmitted, _ => dispCreated
  | dispCreated, dispDestroyed => dispOmitted
  | dispCreated, _ => dispCreated
  | dispDestroyed, dispCreated => dispUpdated
  | _, _ => next
  end.

(** [apply(d, id, next)]; the boolean is whether the budget still holds. *)
Definition apply_since (maxIds : Z) (next : Disp) (d : gmap Id Disp) (held : Z) (id : Id) : gmap Id Disp * Z * bool :=
  match d !! id with
  | None => (<[id := next]> d, held + 1, (maxIds <=? 0) || (held + 1 <=? maxIds))
  | Some prev => (<[id := next_disp prev next]> d, held, true)
  end.

Fixpoint apply_ids (maxIds : Z) (next : Disp) (ids : list Id) (d : gmap Id Disp) (held : Z) : gmap Id Disp * Z * bool :=
  match ids with
  | [] => (d, held, true)
  | id :: ids' =>
      let '(d', held', ok) := apply_since maxIds next d held id in
      if ok : bool then apply_ids maxIds next ids' d' held' else (d', held', false)
  end.

Definition since_entry (maxIds : Z) (te : logTypeEntry) (d : gmap Id Disp) (held : Z) : gmap Id Disp * Z * bool :=
  let '(d1, h1, ok1) := apply_ids maxIds dispCreated (lt_Created te) d held in
  if ok1 then
    let '(d2, h2, ok2) := apply_ids maxIds dispUpdated (lt_Updated te) d1 h1 in
    if ok2 then apply_ids maxIds dispDestroyed (lt_Destroyed te) d2 h2 else (d2, h2, false)
  else (d1, h1, false).

Fixpoint since_types (maxIds : Z) (entry : logEntry) (names : list (bytes * gmap Id Disp)) (st : WalkState) : WalkState :=
  match names with
  | [] => st
  | (name, d) :: names' =>
      match le_Types entry !! name with
      | None => since_types maxIds entry names' st
      | Some te =>
          let '(d', held', ok) := since_entry maxIds te d (w_held st) in
          let st' := mkWalk (<[name := d']> (w_disp st)) held' (negb ok) (w_err st) in
          if ok : bool then since_types maxIds entry names' st' else st'
      end
  end.

Definition since_step (upTo maxIds : Z) (st : WalkState) (k : bytes) (v : slice) : WalkState * bool :=
  if upTo <? seqFromLogKey k then (st, false)
  else
    match unmarshalLog (sbytes v) with
    | Err e => (mkWalk (w_disp st) (w_held st) (w_budgetHit st) (Some e), false)
    | Ok entry =>
        let st' := since_types maxIds entry (range_map (w_disp st)) st in (st', negb (w_budgetHit st'))
    end.

Definition type_changes (d : gmap Id Disp) : TypeChanges :=
  mkTypeChanges (ids_with dispCreated d) (ids_with dispUpdated d) (ids_with dispDestroyed d).

Definition ChangedSince (db : DB) (s_seq s_floor s_log s_floor2 : S) (acct : Id) (typeNames : list bytes)
  (since maxBehind maxIds : Z) : result (gmap bytes TypeChanges * Z) :=
  if existsb (fun n => match db_types db !! n with None => true | Some _ => false end) typeNames then Err ErrUnknownType
  else if since <? 0 then Err ErrCannotCalculateChanges
  else
    upTo ← get_counter s_seq (seqKey acct) 0;
    if upTo <? since then Err ErrCannotCalculateChanges
    else if (0 <? maxBehind) && (maxBehind <? upTo - since) then Err ErrCannotCalculateChanges
    else
      floor ← logFloor s_floor acct;
      if int64 (since + 1) <? floor then Err ErrCannotCalculateChanges
      else
        st ← be_Scan s_log (logKey acct (int64 (since + 1))) (prefixRange [acct; bs "g"]).2 false
               (since_step upTo maxIds)
               (mkWalk (list_to_map (map (fun n => (n, ∅)) typeNames)) 0 false None);
        match w_err st with
        | Some e => Err e
        | None =>
            if w_budgetHit st then Err ErrCannotCalculateChanges
            else
              floor2 ← logFloor s_floor2 acct;
              if int64 (since + 1) <? floor2 then Err ErrCannotCalculateChanges
              else Ok (type_changes <$> w_disp st, upTo)
        end.

(** ** TrimChanges *)

Definition maxTrimPerCall : Z := 4096.

Record CountState := mkCount { ct_total : Z; ct_expired : Z; ct_prefixLive : bool; ct_err : option error }.

(** Pass one: the expired prefix and, when the cap is in play, the total. *)
Definition count_step (retention cutoff : Z) (overCap : bool) (st : CountState) (_ : bytes) (v : slice) : CountState * bool :=
  let total := ct_total st + 1 in
  if ct_prefixLive st then (mkCount total (ct_expired st) true (ct_err st), overCap)
  else
    match unmarshalLog (sbytes v) with
    | Err e => (mkCount total (ct_expired st) false (Some e), false)
    | Ok entry =>
        if (retention <=? 0) || (le_At entry =? 0) || (cutoff <? le_At entry) then
          (mkCount total (ct_expired st) true None, overCap)
        else
          let expired := ct_expired st + 1 in
          (mkCount total expired false None, negb ((maxTrimPerCall <=? expired) && negb overCap))
    end.

Record DropState := mkDrop { dr_batch : Batch; dr_newFloor : Z; dr_deleted : Z }.

(** Pass two: delete the prefix and remember the floor. *)
Definition drop_step (drop : Z) (st : DropState) (k : bytes) (_ : slice) : DropState * bool :=
  if dr_deleted st =? drop then (st, false)
  else (mkDrop (Delete (dr_batch st) k) (int64 (seqFromLogKey k + 1)) (dr_deleted st + 1), true).

(** [now] and [retention] in nanoseconds. *)
Definition TrimChanges (s : S) (acct : Id) (fence : Batch -> Batch) (now retention maxEntries : Z) : result (S * Z) :=
  if (retention <=? 0) && (maxEntries <=? 0) then Ok (s, 0)
  else
    floor ← logFloor s acct;
    global ← get_counter s (seqKey acct) 0;
    let oldest := if floor <? 1 then 1 else floor in
    if global <? oldest then Ok (s, 0)
    else
      let overCap := (0 <? maxEntries) && (maxEntries <? global - oldest + 1) in
      let '(start, end_) := prefixRange [acct; bs "g"] in
      let cutoff := (now - retention) / 1000000 in
      ct ← be_Scan s start end_ false (count_step retention cutoff overCap) (mkCount 0 0 false None);
      match ct_err ct with
      | Some e => Err e
      | None =>
          let drop1 := if overCap && (ct_expired ct <? ct_total ct - maxEntries) then ct_total ct - maxEntries else ct_expired ct in
          let drop2 := if maxTrimPerCall <? drop1 then maxTrimPerCall else drop1 in
          if drop2 <=? 0 then Ok (s, 0)
          else
            dr ← be_Scan s start end_ false (drop_step drop2) (mkDrop [] 0 0);
            if dr_deleted dr =? 0 then Ok (s, 0)
            else
              s' ← be_WriteBatch s (fence (Set_ (dr_batch dr) (logFloorKey acct) (Some (EncodeInt64 (dr_newFloor dr)))));
              Ok (s', dr_deleted dr)
      end.
End operations.
End Changes.
