(* ===== verification/ChangesFacts.v ===== *)
(** * ChangesFacts: the change log answers exactly what changed

    A log is a history of one type's record set.  Folding the entries after a
    state yields, for every id, its net change between that state and the
    state the fold stops at; [Changes] is that fold over the stored log, cut
    into pages. *)

From S2P Require Import Prelude GoLib Keyenc Backend Batches Memory Jsonscan Jmap Descriptor Keys ObjectDB SetIndex.
From S2P Require Import Commit Indexing CommitFacts Instances CommitIndex Reach CommitLog Changes.

Module ChangesFacts.
Import Keyenc Backend Batches Jsonscan Jmap Descriptor Keys ObjectDB Commit Reach CommitLog Changes.

(** ** The history of a record set *)

(** An entry fits the ids alive before it: it creates absent ids, updates and
    destroys present ones, and mentions each id once. *)
Record coherent (E : gset Id) (te : logTypeEntry) : Prop := mkCoherent {
  co_nodup : NoDup (lt_Created te ++ lt_Updated te ++ lt_Destroyed te);
  co_created : forall id, id ∈ lt_Created te -> id ∉ E;
  co_updated : forall id, id ∈ lt_Updated te -> id ∈ E;
  co_destroyed : forall id, id ∈ lt_Destroyed te -> id ∈ E;
}.

Definition evolve (E : gset Id) (te : logTypeEntry) : gset Id :=
  (E ∪ list_to_set (lt_Created te)) ∖ list_to_set (lt_Destroyed te).

Definition touches (te : logTypeEntry) : gset Id :=
  list_to_set (lt_Created te) ∪ list_to_set (lt_Updated te) ∪ list_to_set (lt_Destroyed te).

(** The ids alive after a sequence of entries, and the ids they mention. *)
Fixpoint history (E : gset Id) (tes : list logTypeEntry) (E' T : gset Id) : Prop :=
  match tes with
  | [] => E' = E /\ T = ∅
  | te :: tes' => coherent E te /\ exists T', history (evolve E te) tes' E' T' /\ T = touches te ∪ T'
  end.

Lemma history_app E a b E' T :
  history E (a ++ b) E' T <-> exists E1 T1 T2, history E a E1 T1 /\ history E1 b E' T2 /\ T = T1 ∪ T2.
Proof.
  revert E T. induction a as [|te a IH]; intros E T; cbn.
  - split; [intros H; exists E, ∅, T; split; [done|split; [done|by rewrite (left_id_L ∅ (∪))]]|].
    intros (E1 & T1 & T2 & [-> ->] & H & ->). by rewrite (left_id_L ∅ (∪)).
  - split.
    + intros (Hc & T' & (E1 & T1 & T2 & H1 & H2 & ->)%IH & ->).
      exists E1, (touches te ∪ T1), T2. split; [split; [done|eauto]|]. split; [done|]. set_solver.
    + intros (E1 & T1 & T2 & (Hc & T' & H1 & ->) & H2 & ->). split; [done|]. exists (T' ∪ T2).
      split; [apply IH; eauto 6|set_solver].
Qed.

(** The net change of one id: alive before, alive after, mentioned. *)
Definition net (before after mentioned : bool) : option Disp :=
  match before, after with
  | false, true => Some dispCreated
  | true, false => Some dispDestroyed
  | true, true => if mentioned then Some dispUpdated else None
  | false, false => None
  end.

Definition nets (E0 E T : gset Id) (disp : gmap Id Disp) : Prop :=
  forall id, disp !! id = net (bool_decide (id ∈ E0)) (bool_decide (id ∈ E)) (bool_decide (id ∈ T)).

Lemma nets_empty E : nets E E ∅ ∅.
Proof. intros id. rewrite lookup_empty. by destruct (bool_decide (id ∈ E)). Qed.

(** One call of [apply]: the three moves an id can make. *)
Lemma nets_move E0 E E' T next disp known id :
  nets E0 E T disp ->
  match next with
  | dispCreated => (id ∉ E) /\ E' = E ∪ {[id]}
  | dispUpdated => id ∈ E /\ E' = E
  | dispDestroyed => id ∈ E /\ E' = E ∖ {[id]}
  | dispOmitted => False
  end ->
  nets E0 E' (T ∪ {[id]}) (apply_disp next (disp, known) id).1.
Proof.
  intros Hn Hmove. pose proof (Hn id) as Hid. unfold apply_disp.
  assert (Hother : forall id', id' <> id -> bool_decide (id' ∈ E') = bool_decide (id' ∈ E)).
  { intros id' Hne. apply bool_decide_ext. destruct next; [destruct Hmove as [_ ->]..|done]; set_solver. }
  assert (HT : forall id', id' <> id -> bool_decide (id' ∈ T ∪ {[id]}) = bool_decide (id' ∈ T)) by (intros; apply bool_decide_ext; set_solver).
  assert (HTid : bool_decide (id ∈ T ∪ {[id]}) = true) by (apply bool_decide_eq_true; set_solver).
  assert (Hset : forall disp' d, disp' !! id = d -> (forall id', id' <> id -> disp' !! id' = disp !! id') ->
            d = net (bool_decide (id ∈ E0)) (bool_decide (id ∈ E')) true -> nets E0 E' (T ∪ {[id]}) disp').
  { intros disp' d H1 H2 H3 id'. destruct (decide (id' = id)) as [-> |Hne]; [by rewrite H1, HTid|].
    rewrite H2, Hother, HT by done. apply Hn. }
  assert (Hin : forall d, nets E0 E' (T ∪ {[id]}) (<[id := d]> disp) <-> Some d = net (bool_decide (id ∈ E0)) (bool_decide (id ∈ E')) true).
  { intros d. split; [intros H; specialize (H id); by rewrite lookup_insert_eq, HTid in H|].
    intros H. eapply Hset; [apply lookup_insert_eq| |done]. intros id' Hne. by apply lookup_insert_ne. }
  destruct next.
  - destruct Hmove as [H1 ->]. assert (E1 : bool_decide (id ∈ E) = false) by (by apply bool_decide_eq_false).
    assert (E2 : bool_decide (id ∈ E ∪ {[id]}) = true) by (apply bool_decide_eq_true; set_solver).
    rewrite E1 in Hid. destruct (bool_decide (id ∈ E0)) eqn:E0'; cbn in Hid; rewrite Hid; cbn; apply Hin; by rewrite E2.
  - destruct Hmove as [H1 ->]. assert (E1 : bool_decide (id ∈ E) = true) by (by apply bool_decide_eq_true).
    rewrite E1 in Hid. destruct (bool_decide (id ∈ E0)) eqn:E0'; cbn in Hid.
    + destruct (bool_decide (id ∈ T)); rewrite Hid; cbn; apply Hin; by rewrite E1.
    + rewrite Hid. cbn. eapply Hset; [exact Hid|done|]. by rewrite E1.
  - destruct Hmove as [H1 ->]. assert (E1 : bool_decide (id ∈ E) = true) by (by apply bool_decide_eq_true).
    assert (E2 : bool_decide (id ∈ E ∖ {[id]}) = false) by (apply bool_decide_eq_false; set_solver).
    rewrite E1 in Hid. destruct (bool_decide (id ∈ E0)) eqn:E0'; cbn in Hid.
    + destruct (bool_decide (id ∈ T)); rewrite Hid; cbn; apply Hin; by rewrite E2.
    + rewrite Hid. cbn. eapply Hset; [apply lookup_delete_eq| |by rewrite E2].
      intros id' Hne. by apply lookup_delete_ne.
  - done.
Qed.

(** The three loops of an entry. *)
Lemma nets_created E0 E T ids disp known :
  NoDup ids -> (forall id, id ∈ ids -> id ∉ E) -> nets E0 E T disp ->
  nets E0 (E ∪ list_to_set ids) (T ∪ list_to_set ids) (fold_left (apply_disp dispCreated) ids (disp, known)).1.
Proof.
  intros Hnd. revert E T disp known. induction Hnd as [|id ids Hid Hnd IH]; intros E T disp known Hout Hn; cbn [fold_left list_to_set foldr fst].
  - by rewrite !(right_id_L ∅ (∪)).
  - destruct (apply_disp dispCreated (disp, known) id) as [d k] eqn:Ea.
    assert (H1 : nets E0 (E ∪ {[id]}) (T ∪ {[id]}) d).
    { change d with (d, k).1. rewrite <- Ea. apply (nets_move E0 E); [done|]. split; [apply Hout; by left|done]. }
    rewrite !(assoc_L (∪)). apply IH; [|done]. intros id' Hin. specialize (Hout id' ltac:(by right)). set_solver.
Qed.

Lemma nets_updated E0 E T ids disp known :
  (forall id, id ∈ ids -> id ∈ E) -> nets E0 E T disp ->
  nets E0 E (T ∪ list_to_set ids) (fold_left (apply_disp dispUpdated) ids (disp, known)).1.
Proof.
  revert T disp known. induction ids as [|id ids IH]; intros T disp known Hin Hn; cbn [fold_left list_to_set foldr fst].
  - by rewrite !(right_id_L ∅ (∪)).
  - destruct (apply_disp dispUpdated (disp, known) id) as [d k] eqn:Ea.
    assert (H1 : nets E0 E (T ∪ {[id]}) d).
    { change d with (d, k).1. rewrite <- Ea. apply (nets_move E0 E); [done|]. split; [apply Hin; by left|done]. }
    rewrite !(assoc_L (∪)). apply IH; [|done]. intros id' Hin'. apply Hin. by right.
Qed.

Lemma nets_destroyed E0 E T ids disp known :
  NoDup ids -> (forall id, id ∈ ids -> id ∈ E) -> nets E0 E T disp ->
  nets E0 (E ∖ list_to_set ids) (T ∪ list_to_set ids) (fold_left (apply_disp dispDestroyed) ids (disp, known)).1.
Proof.
  intros Hnd. revert E T disp known. induction Hnd as [|id ids Hid Hnd IH]; intros E T disp known Hin Hn; cbn [fold_left list_to_set foldr fst].
  - by rewrite difference_empty_L, (right_id_L ∅ (∪)).
  - destruct (apply_disp dispDestroyed (disp, known) id) as [d k] eqn:Ea.
    assert (H1 : nets E0 (E ∖ {[id]}) (T ∪ {[id]}) d).
    { change d with (d, k).1. rewrite <- Ea. apply (nets_move E0 E); [done|]. split; [apply Hin; by left|done]. }
    rewrite (assoc_L (∪)), <- difference_difference_l_L. apply IH; [|done]. intros id' Hin'. specialize (Hin id' ltac:(by right)). set_solver.
Qed.

Lemma nets_entry E0 E T te disp known :
  coherent E te -> nets E0 E T disp -> nets E0 (evolve E te) (T ∪ touches te) (apply_entry te (disp, known)).1.
Proof.
  intros [Hnd Hc Hu Hd] Hn. apply NoDup_app in Hnd as (N1 & N2 & N3%NoDup_app). destruct N3 as (N3 & N4 & N5).
  unfold apply_entry. destruct (fold_left (apply_disp dispCreated) (lt_Created te) (disp, known)) as [d1 k1] eqn:E1.
  pose proof (nets_created E0 E T _ disp known N1 Hc Hn) as H1. rewrite E1 in H1. cbn [fst] in H1.
  destruct (fold_left (apply_disp dispUpdated) (lt_Updated te) (d1, k1)) as [d2 k2] eqn:E2.
  assert (H2 : nets E0 (E ∪ list_to_set (lt_Created te)) (T ∪ list_to_set (lt_Created te) ∪ list_to_set (lt_Updated te)) d2).
  { change d2 with (d2, k2).1. rewrite <- E2. apply nets_updated; [set_solver|done]. }
  eapply nets_destroyed in H2; [|exact N5|set_solver].
  unfold evolve, touches. rewrite !(assoc_L (∪)). exact H2.
Qed.

(** ** The stored log *)

Section stored.
Context `{LC : LogCodec, LL : !LogCodecLaws}.
Variable acct : Id.

(** The log of the account, oldest entry first. *)
Record log_ok (m : kvmap) (log : list (Z * logEntry)) : Prop := mkLogOk {
  lo_sorted : StronglySorted (fun a b => a.1 < b.1) log;
  lo_range : forall z e, (z, e) ∈ log -> is_int64 z;
  lo_keys : forall k v, (m !! k = Some v /\ exists tl, k = Key [acct; bs "g"] ++ tl) <->
    exists z e, (z, e) ∈ log /\ k = logKey acct z /\ v = Some (marshalLog e);
}.

Definition after_seq (since : Z) (log : list (Z * logEntry)) : list (Z * logEntry) := filter (fun ze => since < ze.1) log.
Definition stored (ze : Z * logEntry) : bytes * slice := (logKey acct ze.1, Some (marshalLog ze.2)).

Lemma logKey_compare z z' : is_int64 z -> is_int64 z' -> bcompare (logKey acct z) (logKey acct z') = (z ?= z').
Proof.
  intros Hz Hz'. unfold logKey, key. rewrite Key_compare. cbn [segs_compare]. rewrite !bcompare_refl, EncodeInt64_compare by done.
  by destruct (z ?= z').
Qed.

Lemma logKey_in_range since z :
  is_int64 (since + 1) -> is_int64 z ->
  in_range (logKey acct (since + 1)) (prefixRange [acct; bs "g"]).2 (logKey acct z) = true <-> since < z.
Proof.
  intros Hs Hz. assert (Hin : in_range (prefixRange [acct; bs "g"]).1 (prefixRange [acct; bs "g"]).2 (logKey acct z) = true).
  { apply (PrefixSuccessor_range (Key [acct; bs "g"])). exists (Key [EncodeInt64 z]). unfold logKey, key. by rewrite <- Key_app. }
  unfold in_range in *. apply andb_true_iff in Hin as [_ ->]. rewrite andb_true_r, ble_gt, logKey_compare by done.
  rewrite Z.compare_gt_iff. lia.
Qed.

Lemma log_range_prefix since k :
  in_range (logKey acct (since + 1)) (prefixRange [acct; bs "g"]).2 k = true -> exists tl, k = Key [acct; bs "g"] ++ tl.
Proof.
  unfold in_range. intros [H1 H2]%andb_true_iff. apply (PrefixSuccessor_range (Key [acct; bs "g"])). unfold in_range. apply andb_true_iff.
  split; [|done]. eapply ble_trans; [|exact H1]. unfold logKey, key.
  change [acct; bs "g"; EncodeInt64 (since + 1)] with ([acct; bs "g"] ++ [EncodeInt64 (since + 1)]). rewrite Key_app. apply ble_prefix.
Qed.

(** A scan from the entry after [since] meets the entries after [since]. *)
Lemma log_scan_list m log since :
  log_ok m log -> is_int64 (since + 1) ->
  range_list m (logKey acct (since + 1)) (prefixRange [acct; bs "g"]).2 false = map stored (after_seq since log).
Proof.
  intros [Hsort Hr Hk] Hs.
  assert (Hr' : forall ze, ze ∈ after_seq since log -> is_int64 ze.1).
  { intros [z e] [_ Hin]%list_elem_of_filter. by eapply Hr. }
  assert (Hkeys : range_keys m (logKey acct (since + 1)) (prefixRange [acct; bs "g"]).2 = map (fun ze => logKey acct ze.1) (after_seq since log)).
  { apply sorted_lt_ext; [apply range_keys_sorted| |].
    - assert (Hsort' : StronglySorted (fun a b : Z * logEntry => a.1 < b.1) (after_seq since log)) by (by apply StronglySorted_filter).
      clear -Hsort' Hr'. induction Hsort' as [|a l Hl IH Ha]; cbn [map]; constructor.
      + apply IH. intros ze Hin. apply Hr'. by right.
      + apply Forall_fmap, Forall_forall. intros b Hb. rewrite Forall_forall in Ha. unfold compose, bytes_lt. apply blt_lt.
        rewrite logKey_compare; [by apply Z.compare_lt_iff, Ha|apply Hr'; by left|apply Hr'; by right].
    - intros k. rewrite elem_of_range_keys, list_elem_of_fmap. split.
      + intros [Hin [v Hv]]. destruct (proj1 (Hk k v)) as (z & e & Hze & -> & _); [split; [done|by eapply log_range_prefix]|].
        exists (z, e). split; [done|]. apply list_elem_of_filter. split; [|done]. cbn. apply logKey_in_range; [done|by eapply Hr|done].
      + intros ([z e] & -> & [Hz Hin]%list_elem_of_filter). cbn [fst] in *. split; [apply logKey_in_range; [done|by eapply Hr|done]|].
        destruct (proj2 (Hk (logKey acct z) (Some (marshalLog e)))) as [-> _]; eauto. }
  unfold range_list. rewrite Hkeys, map_map. apply map_ext_in. intros [z e] Hin%list_elem_of_In. unfold stored. cbn [fst snd].
  apply list_elem_of_filter in Hin as [_ Hin]. destruct (proj2 (Hk (logKey acct z) (Some (marshalLog e)))) as [-> _]; eauto.
Qed.

(** ** Folding the log *)

Variable n : bytes. (* the type asked about *)

Definition tes (log : list (Z * logEntry)) : list logTypeEntry := omap (fun ze => le_Types ze.2 !! n) log.

Lemma tes_app a b : tes (a ++ b) = tes a ++ tes b.
Proof. apply omap_app. Qed.

(** [changes_step] on a decoded entry. *)
Definition changes_entry (maxChanges : Z) (st : ScanState) (ze : Z * logEntry) : ScanState * bool :=
  match le_Types ze.2 !! n with
  | None => (if bool_decide (sc_disp st = ∅) then sc_at st ze.1 else st, true)
  | Some te =>
      if (0 <? maxChanges) && (maxChanges <? Z.of_nat (size (sc_disp st)) + entry_size te) then
        if bool_decide (sc_disp st = ∅) then (sc_fail st ErrCannotCalculateChanges, false) else (sc_more st, false)
      else (consume te ze.1 st, true)
  end.

Fixpoint changes_fold (maxChanges : Z) (st : ScanState) (log : list (Z * logEntry)) : ScanState :=
  match log with
  | [] => st
  | ze :: log' => let r := changes_entry maxChanges st ze in if r.2 then changes_fold maxChanges r.1 log' else r.1
  end.

Lemma changes_scan maxChanges st log :
  (forall ze, ze ∈ log -> is_int64 ze.1) ->
  scan_fold (changes_step n maxChanges) (map stored log) st = changes_fold maxChanges st log.
Proof.
  revert st. induction log as [|[z e] log IH]; intros st Hr; [done|].
  change (map stored ((z, e) :: log)) with ((logKey acct z, Some (marshalLog e)) :: map stored log). cbn [scan_fold changes_fold].
  assert (Hstep : changes_step n maxChanges st (logKey acct z) (Some (marshalLog e)) = changes_entry maxChanges st (z, e)).
  { unfold changes_step, changes_entry. cbn [fst snd]. change (sbytes (Some (marshalLog e))) with (marshalLog e).
    rewrite unmarshal_marshal. rewrite seqFromLogKey_logKey; [done|]. apply (Hr (z, e)). by left. }
  rewrite Hstep. destruct (changes_entry maxChanges st (z, e)) as [st' []]; [|done].
  cbn [fst snd]. apply IH. intros ze Hin. apply Hr. by right.
Qed.

(** What the fold has established after the entries [pre], about the page it
    is filling: [E0] alive at the start, [E] alive now. *)
Record page (E0 E : gset Id) (since maxChanges : Z) (pre : list (Z * logEntry)) (st : ScanState) : Prop := mkPage {
  pg_history : exists T, history E0 (tes pre) E T /\ nets E0 E T (sc_disp st);
  pg_last : since <= sc_lastConsumed st /\ (pre = [] -> sc_lastConsumed st = since) /\
            (sc_lastConsumed st = since \/ exists e, (sc_lastConsumed st, e) ∈ pre);
  pg_seen : forall ze, ze ∈ pre -> is_Some (le_Types ze.2 !! n) -> ze.1 <= sc_lastConsumed st;
  pg_max : 0 < maxChanges -> Z.of_nat (size (sc_disp st)) <= maxChanges;
  pg_props : sc_propsKnown st = true -> forall te, te ∈ tes pre -> lt_Updated te <> [] ->
    exists ps, lt_UpdatedProps te = Some ps /\ forall name, name ∈ ps -> name ∈ sc_updatedProps st;
}.

Lemma apply_disp_size next acc id : (size (apply_disp next acc id).1 <= S (size acc.1))%nat.
Proof.
  destruct acc as [d k]. unfold apply_disp. cbn [fst].
  assert (Hi : forall x, (size (<[id := x]> d) <= S (size d))%nat).
  { intros x. rewrite map_size_insert. destruct (d !! id); cbn; lia. }
  assert (Hd : (size (delete id d) <= size d)%nat) by (rewrite map_size_delete; destruct (d !! id); cbn; lia).
  destruct (d !! id) as [prev|]; [|apply Hi]. destruct prev, next; cbn [fst]; auto; lia.
Qed.

Lemma fold_apply_size next ids acc : (size (fold_left (apply_disp next) ids acc).1 <= size acc.1 + length ids)%nat.
Proof.
  revert acc. induction ids as [|id ids IH]; intros acc; cbn [fold_left length]; [lia|].
  specialize (IH (apply_disp next acc id)). pose proof (apply_disp_size next acc id). lia.
Qed.

Lemma apply_entry_size te acc : Z.of_nat (size (apply_entry te acc).1) <= Z.of_nat (size acc.1) + entry_size te.
Proof.
  unfold apply_entry, entry_size.
  pose proof (fold_apply_size dispCreated (lt_Created te) acc). set (a1 := fold_left _ (lt_Created te) acc) in *.
  pose proof (fold_apply_size dispUpdated (lt_Updated te) a1). set (a2 := fold_left _ (lt_Updated te) a1) in *.
  pose proof (fold_apply_size dispDestroyed (lt_Destroyed te) a2). lia.
Qed.

(** [propsKnown] only ever goes from true to false. *)
Lemma apply_known next ids acc : (fold_left (apply_disp next) ids acc).2 = true -> acc.2 = true.
Proof.
  revert acc. induction ids as [|id ids IH]; intros [d k]; [done|]. cbn [fold_left]. intros H%IH. revert H.
  unfold apply_disp. destruct (d !! id) as [prev|]; [|done]. by destruct prev, next.
Qed.

Lemma consume_known te z st :
  sc_propsKnown (consume te z st) = true -> sc_propsKnown st = true /\
  (lt_Updated te <> [] -> exists ps, lt_UpdatedProps te = Some ps /\ forall name, name ∈ ps -> name ∈ sc_updatedProps (consume te z st)) /\
  (forall name, name ∈ sc_updatedProps st -> name ∈ sc_updatedProps (consume te z st)).
Proof.
  unfold consume, apply_entry. destruct (fold_left (apply_disp dispDestroyed) _ _) as [d k] eqn:E.
  assert (Hk : k = true -> sc_propsKnown st = true).
  { intros ->. assert (H : (fold_left (apply_disp dispDestroyed) (lt_Destroyed te)
        (fold_left (apply_disp dispUpdated) (lt_Updated te) (fold_left (apply_disp dispCreated) (lt_Created te) (sc_disp st, sc_propsKnown st)))).2 = true)
      by (by rewrite E). by do 3 apply apply_known in H. }
  destruct (lt_Updated te) as [|i l].
  - cbn. intros H. split; [by apply Hk|]. split; [done|done].
  - destruct (lt_UpdatedProps te) as [ps|]; cbn; [|done]. intros H. split; [by apply Hk|]. split.
    + intros _. exists ps. split; [done|]. intros name Hn. apply elem_of_mergeProps. by right.
    + intros name Hn. apply elem_of_mergeProps. by left.
Qed.

Lemma consume_fields te z st :
  sc_disp (consume te z st) = (apply_entry te (sc_disp st, sc_propsKnown st)).1 /\ sc_lastConsumed (consume te z st) = z /\
  sc_err (consume te z st) = sc_err st /\ sc_hasMore (consume te z st) = sc_hasMore st.
Proof. unfold consume. destruct (apply_entry _ _). by destruct (match lt_Updated te with [] => _ | _ => _ end). Qed.

Lemma page_skip E0 E since mx pre ze st :
  page E0 E since mx pre st -> sc_lastConsumed st < ze.1 -> le_Types ze.2 !! n = None ->
  page E0 E since mx (pre ++ [ze]) (if bool_decide (sc_disp st = ∅) then sc_at st ze.1 else st).
Proof.
  intros [Hh (Hl1 & Hl2 & Hl3) Hseen Hmax Hprops] Hlt Hno. set (st' := if bool_decide _ then _ else _).
  assert (Hd : sc_disp st' = sc_disp st) by (unfold st'; by destruct (bool_decide _)).
  assert (Hk : sc_propsKnown st' = sc_propsKnown st) by (unfold st'; by destruct (bool_decide _)).
  assert (Hu : sc_updatedProps st' = sc_updatedProps st) by (unfold st'; by destruct (bool_decide _)).
  assert (Hlc : sc_lastConsumed st' = ze.1 \/ sc_lastConsumed st' = sc_lastConsumed st) by (unfold st'; destruct (bool_decide _); cbn; auto).
  assert (Ht : tes (pre ++ [ze]) = tes pre).
  { rewrite tes_app. unfold tes at 2. cbn. rewrite Hno. by rewrite app_nil_r. }
  constructor; rewrite ?Hd, ?Hk, ?Hu, ?Ht; try done.
  - split; [lia|]. split; [by intros [_ ?]%app_nil|]. destruct Hlc as [-> | ->].
    + right. exists ze.2. rewrite elem_of_app. right. destruct ze. by left.
    + destruct Hl3 as [?|[e He]]; [by left|right]. exists e. rewrite elem_of_app. by left.
  - intros ze' [Hin| ->%list_elem_of_singleton]%elem_of_app Hs; [specialize (Hseen ze' Hin Hs); lia|].
    rewrite Hno in Hs. by destruct Hs.
Qed.

Lemma page_consume E0 E since mx pre ze te st :
  page E0 E since mx pre st -> sc_lastConsumed st < ze.1 -> le_Types ze.2 !! n = Some te -> coherent E te ->
  (0 < mx -> Z.of_nat (size (sc_disp st)) + entry_size te <= mx) ->
  page E0 (evolve E te) since mx (pre ++ [ze]) (consume te ze.1 st).
Proof.
  intros [(T & Hh & Hn) (Hl1 & Hl2 & Hl3) Hseen Hmax Hprops] Hlt Hte Hc Hsz.
  destruct (consume_fields te ze.1 st) as (Hd & Hlc & _).
  assert (Ht : tes (pre ++ [ze]) = tes pre ++ [te]).
  { rewrite tes_app. unfold tes at 2. cbn. by rewrite Hte. }
  constructor; rewrite ?Hd, ?Hlc, ?Ht.
  - exists (T ∪ touches te). split; [|by apply nets_entry]. apply history_app. exists E, T, (touches te).
    split; [done|]. split; [|done]. cbn. split; [done|]. exists ∅. split; [done|]. set_solver.
  - split; [lia|]. split; [by intros [_ ?]%app_nil|]. right. exists ze.2. rewrite elem_of_app. right. destruct ze. by left.
  - intros ze' [Hin| ->%list_elem_of_singleton]%elem_of_app Hs; [specialize (Hseen ze' Hin Hs)|]; lia.
  - intros Hm. specialize (Hsz Hm). pose proof (apply_entry_size te (sc_disp st, sc_propsKnown st)) as H. cbn [fst] in H. lia.
  - intros (Hk & H1 & H2)%consume_known te' [Hin| ->%list_elem_of_singleton]%elem_of_app Hne; [|by apply H1].
    destruct (Hprops Hk te' Hin Hne) as (ps & Hps & Hall). exists ps. split; [done|]. auto.
Qed.

Lemma page_more E0 E since mx pre st : page E0 E since mx pre st -> page E0 E since mx pre (sc_more st).
Proof. by intros []. Qed.

Lemma changes_fold_page E0 since mx log : forall pre st E E' T,
  page E0 E since mx pre st -> sc_err st = None -> sc_hasMore st = false ->
  StronglySorted (fun a b : Z * logEntry => a.1 < b.1) log -> (forall ze, ze ∈ log -> sc_lastConsumed st < ze.1) ->
  history E (tes log) E' T ->
  let st' := changes_fold mx st log in
  (sc_err st' = Some ErrCannotCalculateChanges /\ 0 < mx) \/
  (sc_err st' = None /\ exists p q E1 T1, log = p ++ q /\ page E0 E1 since mx (pre ++ p) st' /\ history E1 (tes q) E' T1 /\
     if sc_hasMore st' then 0 < mx /\ sc_disp st' <> ∅ /\ tes q <> [] else q = []).
Proof.
  induction log as [|ze log IH]; intros pre st E E' T Hp He Hm Hs Hlt Hh; cbn [changes_fold].
  { right. split; [done|]. exists [], [], E, T. rewrite (app_nil_r pre), Hm. by repeat (split; [done|]). }
  apply StronglySorted_cons in Hs as [Hze Hs]. pose proof (Hlt ze ltac:(by left)) as Hlz.
  assert (Hnext : forall st' E1 T1, page E0 E1 since mx (pre ++ [ze]) st' -> sc_err st' = None -> sc_hasMore st' = false ->
    (sc_lastConsumed st' = ze.1 \/ sc_lastConsumed st' = sc_lastConsumed st) -> history E1 (tes log) E' T1 ->
    let st2 := changes_fold mx st' log in
    (sc_err st2 = Some ErrCannotCalculateChanges /\ 0 < mx) \/
    (sc_err st2 = None /\ exists p q E1 T1, ze :: log = p ++ q /\ page E0 E1 since mx (pre ++ p) st2 /\ history E1 (tes q) E' T1 /\
       if sc_hasMore st2 then 0 < mx /\ sc_disp st2 <> ∅ /\ tes q <> [] else q = [])).
  { intros st' E1 T1 Hp' He' Hm' Hlc Hh'. destruct (IH (pre ++ [ze]) st' E1 E' T1) as [?|(H1 & p & q & E2 & T2 & -> & H2 & H3 & H4)];
      [done|done|done|done| |done|by left|].
    - intros ze' Hin. rewrite Forall_forall in Hze. specialize (Hze ze' Hin). specialize (Hlt ze' ltac:(by right)). lia.
    - right. split; [done|]. exists (ze :: p), q, E2, T2. split; [done|]. rewrite <- app_assoc in H2. done. }
  unfold changes_entry. unfold tes in Hh. cbn [omap list_omap] in Hh. destruct (le_Types ze.2 !! n) as [te|] eqn:Hte.
  - destruct Hh as (Hc & T' & Hh & _). destruct ((0 <? mx) && _) eqn:Ec.
    + apply andb_prop in Ec as [Hmx%Z.ltb_lt _]. destruct (bool_decide (sc_disp st = ∅)) eqn:Ed; cbn [fst snd]; [left; done|right].
      apply bool_decide_eq_false in Ed. split; [done|]. exists [], (ze :: log), E, (touches te ∪ T'). split; [done|].
      rewrite (app_nil_r pre). split; [by apply page_more|]. unfold tes. cbn [omap list_omap]. rewrite Hte.
      split; [split; [done|by exists T']|done].
    + cbn [fst snd]. destruct (consume_fields te ze.1 st) as (_ & Hlc & Her & Hmo).
      apply (Hnext _ (evolve E te) T'); [|congruence|congruence|by left|done].
      apply page_consume; [done..|]. intros Hmx. apply andb_false_iff in Ec as [Ec|Ec]; lia.
  - cbn [fst snd]. apply (Hnext _ E T); [by apply page_skip|by destruct (bool_decide _)..| |done].
    destruct (bool_decide _); cbn; auto.
Qed.

(** Where the next page resumes: no entry of the type is skipped or repeated. *)
Lemma page_resume E0 E1 since mx p q log st :
  StronglySorted (fun a b : Z * logEntry => a.1 < b.1) log -> after_seq since log = p ++ q ->
  page E0 E1 since mx p st -> tes (after_seq (sc_lastConsumed st) log) = tes q.
Proof.
  intros Hs Hpq [_ (Hl1 & _ & Hl3) Hseen _ _]. set (z := sc_lastConsumed st) in *.
  assert (Hz : after_seq z log = after_seq z (after_seq since log)).
  { unfold after_seq. rewrite list_filter_filter. apply list_filter_ext_in. intros ze _. lia. }
  assert (Hspq : StronglySorted (fun a b : Z * logEntry => a.1 < b.1) (p ++ q)) by (rewrite <- Hpq; by apply StronglySorted_filter).
  rewrite Hz, Hpq. unfold after_seq. rewrite filter_app, tes_app.
  assert (Hq : filter (fun ze : Z * logEntry => z < ze.1) q = q).
  { apply list_filter_all, Forall_forall. intros ze Hin. destruct Hl3 as [-> |[e He]].
    - assert (Hin' : ze ∈ after_seq since log) by (rewrite Hpq; apply elem_of_app; by right).
      by apply list_elem_of_filter in Hin' as [? _].
    - exact (StronglySorted_app_1_elem_of _ _ _ _ _ Hspq He Hin). }
  rewrite Hq. assert (Hp : tes (filter (fun ze : Z * logEntry => z < ze.1) p) = []); [|by rewrite Hp].
  clear -Hseen. induction p as [|ze p IH]; [done|]. rewrite filter_cons.
  assert (IH' : tes (filter (fun ze : Z * logEntry => z < ze.1) p) = []) by (apply IH; intros ze' Hin; apply Hseen; by right).
  destruct (decide (z < ze.1)) as [Hlt|]; [|done]. unfold tes in *. cbn [omap list_omap].
  destruct (le_Types ze.2 !! n) eqn:E; [|done]. specialize (Hseen ze ltac:(by left) ltac:(by rewrite E)). lia.
Qed.
End stored.

(** ** What a change set reports *)

Lemma elem_of_ids_with d disp id : id ∈ ids_with d disp <-> disp !! id = Some d.
Proof.
  unfold ids_with. rewrite elem_of_sort_strings, list_elem_of_fmap. split.
  - intros ([id' d'] & -> & [H1 H2]%elem_of_map_to_list%map_lookup_filter_Some). cbn in *. by subst.
  - intros H. exists (id, d). split; [done|]. by apply elem_of_map_to_list, map_lookup_filter_Some.
Qed.

Lemma ids_with_sorted d disp : StronglySorted bytes_lt (ids_with d disp).
Proof.
  apply StronglySorted_le_lt; [apply sort_strings_sorted|]. unfold ids_with. rewrite sort_strings_perm. apply NoDup_fst_map_to_list.
Qed.

(** The lists are the exact difference between the ids alive at the two ends,
    plus the surviving ids the entries mention as updated; each ascending. *)
Record reports (E0 E1 T : gset Id) (created updated destroyed : list Id) : Prop := mkReports {
  rp_created : forall id, id ∈ created <-> (id ∉ E0) /\ id ∈ E1;
  rp_updated : forall id, id ∈ updated <-> id ∈ E0 /\ id ∈ E1 /\ id ∈ T;
  rp_destroyed : forall id, id ∈ destroyed <-> id ∈ E0 /\ id ∉ E1;
  rp_sorted : StronglySorted bytes_lt created /\ StronglySorted bytes_lt updated /\ StronglySorted bytes_lt destroyed;
}.

Lemma nets_reports E0 E1 T disp :
  nets E0 E1 T disp -> reports E0 E1 T (ids_with dispCreated disp) (ids_with dispUpdated disp) (ids_with dispDestroyed disp).
Proof.
  intros Hn. constructor; [..|split_and!; apply ids_with_sorted]; intros id; rewrite elem_of_ids_with, Hn;
    destruct (bool_decide_reflect (id ∈ E0)), (bool_decide_reflect (id ∈ E1)), (bool_decide_reflect (id ∈ T)); cbn; naive_solver.
Qed.

Lemma ids_with_length disp : (length (ids_with dispCreated disp) + length (ids_with dispUpdated disp) + length (ids_with dispDestroyed disp) <= size disp)%nat.
Proof.
  unfold ids_with. rewrite !(Permutation_length (sort_strings_perm _)), !length_fmap, !length_map_to_list.
  induction disp as [|id d disp Hid IH] using map_ind; [by rewrite !map_filter_empty|].
  rewrite map_size_insert_None by done.
  assert (Hf : forall x, size (filter (fun kd : Id * Disp => kd.2 = x) (<[id := d]> disp)) =
     ((if decide (d = x) then 1 else 0) + size (filter (fun kd : Id * Disp => kd.2 = x) disp))%nat).
  { intros x. rewrite map_filter_insert. cbn [snd]. destruct (decide (d = x)) as [E|E].
    - rewrite map_size_insert_None; [done|]. apply map_lookup_filter_None. by left.
    - by rewrite delete_id by done. }
  rewrite !Hf. destruct d; repeat (destruct (decide _); [congruence || idtac|congruence || idtac]); lia.
Qed.

(** ** Changes over an unchanging store *)

Section changes.
Context `{MR : MapRange, TP : TimeParse, CF : CaseFold, LC : LogCodec, LL : !LogCodecLaws}.
Context {S : Type} `{BE : Backend S, BL : !BackendLaws S}.

(** One answer of [Changes]: the exact difference up to the point [q] of the
    log it stopped at.  With [HasMore] the returned state resumes there;
    without, the answer is complete and carries the type's state. *)
Definition answer (n : bytes) (since maxChanges : Z) (log : list (Z * logEntry)) (E0 E' : gset Id) (ts : bytes) (cs : ChangeSet) : Prop :=
  exists p q E1 T1 T2,
    after_seq since log = p ++ q /\ history E0 (tes n p) E1 T1 /\ history E1 (tes n q) E' T2 /\
    reports E0 E1 T1 (cs_Created cs) (cs_Updated cs) (cs_Destroyed cs) /\
    (0 < maxChanges -> Z.of_nat (length (cs_Created cs) + length (cs_Updated cs) + length (cs_Destroyed cs)) <= maxChanges) /\
    (forall ps, cs_UpdatedProps cs = Some ps -> forall te, te ∈ tes n p -> lt_Updated te <> [] ->
       exists l, lt_UpdatedProps te = Some l /\ forall name, name ∈ l -> name ∈ ps) /\
    if cs_HasMore cs
    then 0 < maxChanges /\ exists z, cs_NewState cs = FormatInt z /\ since < z /\ tes n (after_seq z log) = tes n q /\ tes n q <> []
    else q = [] /\ cs_NewState cs = ts.

Lemma changes_page db (s : S) acct n t ss since maxChanges global floor ts log E0 E' T :
  be_inv s -> db_types db !! n = Some t -> parse_state ss = Ok since -> is_int64 (since + 1) ->
  Sequence s acct = Ok global -> since <= global -> logFloor s acct = Ok floor -> floor <= since + 1 ->
  TypeState db s acct n = Ok ts -> log_ok acct (be_map s) log -> history E0 (tes n (after_seq since log)) E' T ->
  (Changes db s s s s s acct n ss maxChanges = Err ErrCannotCalculateChanges /\ 0 < maxChanges) \/
  exists cs, Changes db s s s s s acct n ss maxChanges = Ok cs /\ cs_OldState cs = ss /\ answer n since maxChanges log E0 E' ts cs.
Proof.
  intros Hs Ht Hps Hi Hseq Hg Hfl Hf Hts Hlog Hh. unfold Changes. rewrite Ht, Hps. cbn [mbind result_bind].
  unfold Sequence in Hseq. rewrite Hseq. cbn [mbind result_bind]. rewrite (proj2 (Z.ltb_ge _ _)) by lia.
  rewrite Hfl. cbn [mbind result_bind]. rewrite int64_small by done. rewrite (proj2 (Z.ltb_ge _ _)) by lia.
  rewrite be_Scan_spec, (log_scan_list acct _ log since Hlog Hi) by done. cbn [mbind result_bind].
  assert (Hsub : forall ze, ze ∈ after_seq since log -> is_int64 ze.1 /\ since < ze.1).
  { intros [z e] [Hlt Hin]%list_elem_of_filter. split; [by eapply (lo_range _ _ _ Hlog)|done]. }
  rewrite (changes_scan acct n) by (intros ze Hin; by apply Hsub).
  set (st0 := mkScan ∅ true [] since false None).
  assert (Hp0 : page n E0 E0 since maxChanges [] st0).
  { constructor.
    - exists ∅. split; [done|apply nets_empty].
    - split; [cbn; lia|]. split; [done|by left].
    - by intros ze ?%not_elem_of_nil.
    - intros Hm. change (sc_disp st0) with (∅ : gmap Id Disp). rewrite map_size_empty. lia.
    - by intros _ te ?%not_elem_of_nil. }
  assert (Hss : StronglySorted (fun a b : Z * logEntry => a.1 < b.1) (after_seq since log)) by (apply StronglySorted_filter, Hlog).
  destruct (changes_fold_page n E0 since maxChanges (after_seq since log) [] st0 E0 E' T Hp0 eq_refl eq_refl Hss) as [[He Hm]|(He & p & q & E1 & T1 & Hpq & Hp & Hq & Hmore)].
  { intros ze Hin. cbn. by apply Hsub. } { done. }
  { left. split; [|done]. by rewrite He. }
  right. rewrite He. set (st := changes_fold n maxChanges st0 (after_seq since log)) in *. cbn [app] in Hp.
  pose proof (page_resume n E0 E1 since maxChanges p q log st (lo_sorted _ _ _ Hlog) Hpq Hp) as Hres.
  destruct Hp as [(T0 & Hh0 & Hn0) (Hl1 & _ & Hl3) Hseen Hmax Hprops].
  assert (Hans : forall ns, (if sc_hasMore st then ns = FormatInt (sc_lastConsumed st) else ns = ts) ->
    answer n since maxChanges log E0 E' ts (mkChangeSet ss ns (sc_hasMore st) (ids_with dispCreated (sc_disp st))
      (ids_with dispUpdated (sc_disp st)) (ids_with dispDestroyed (sc_disp st)) (if sc_propsKnown st then Some (sc_updatedProps st) else None))).
  { intros ns Hns. exists p, q, E1, T0, T1. cbn [cs_Created cs_Updated cs_Destroyed cs_UpdatedProps cs_HasMore cs_NewState].
    split; [done|]. split; [done|]. split; [done|]. split; [by apply nets_reports|]. split; [|split].
    - intros Hm. specialize (Hmax Hm). pose proof (ids_with_length (sc_disp st)). lia.
    - intros ps Hps' te Hin Hne. destruct (sc_propsKnown st); [|done]. injection Hps' as <-. by apply (Hprops eq_refl te).
    - destruct (sc_hasMore st); [|done]. destruct Hmore as (Hm & Hd & Hq'). split; [done|].
      exists (sc_lastConsumed st). split; [done|]. split; [|done].
      destruct Hl3 as [Hls|[e Hin]]; [|eapply (Hsub (sc_lastConsumed st, e)); rewrite Hpq; apply elem_of_app; by left].
      exfalso. apply Hd. assert (Hnil : tes n p = []).
      { destruct (tes n p) as [|te l] eqn:E; [done|]. exfalso. assert (Hin : te ∈ tes n p) by (rewrite E; by left).
        unfold tes in Hin. apply list_elem_of_omap in Hin as (ze & Hin & Hze). specialize (Hseen ze Hin ltac:(by rewrite Hze)).
        destruct (Hsub ze) as [_ ?]; [rewrite Hpq; apply elem_of_app; by left|lia]. }
      rewrite Hnil in Hh0. destruct Hh0 as [-> ->]. apply map_empty. intros id. rewrite (Hn0 id).
      by destruct (bool_decide (id ∈ E0)). }
  cbn [mbind result_bind]. destruct (sc_hasMore st) eqn:Emo; cbn [mbind result_bind].
  - eexists. split; [done|]. split; [done|]. by apply Hans.
  - rewrite Hts. cbn [mbind result_bind]. eexists. split; [done|]. split; [done|]. by apply Hans.
Qed.
End changes.
End ChangesFacts.
