(* ===== verification/History.v ===== *)
(** * History: the change log is the history of the records

    Every commit appends to the log exactly its effect on the record set, so
    at any time the log replays the record set of each type, and [Changes]
    between two moments is the difference between the two record sets. *)

From S2P Require Import Prelude GoLib Keyenc Backend Batches Memory Jsonscan Jmap Descriptor Keys ObjectDB SetIndex.
From S2P Require Import Commit Indexing CommitFacts Instances CommitIndex Reach CommitLog Visible Changes ChangesFacts.

Module History.
Import Keyenc Backend Batches Jsonscan Jmap Descriptor Keys ObjectDB SetIndex Commit Indexing CommitFacts CommitIndex Reach
  CommitLog Visible Changes ChangesFacts.

(** ** The effect of a commit on one type's record set *)

Section effect.
Context `{MR : MapRange, TP : TimeParse, CF : CaseFold, LC : LogCodec}.
Variable db : DB.
Variable acct : Id.
Hypothesis Hdb : db_wf db.

(** The ids of the stored records of a type. *)
Definition alive (m : kvmap) (n : bytes) (E : gset Id) : Prop := forall id, id ∈ E <-> present m (objKey acct n id).

Lemma elem_of_ids_of P `{HD : forall st, Decision (P st)} m u n id :
  update_wf db acct m u ->
  id ∈ ids_of P n (sorted_staged u) <-> exists st, u_staged u !! stagedKey n id = Some st /\ P st.
Proof.
  intros Hu. pose proof (sorted_staged_spec db acct m u Hu) as [_ Hin]. unfold ids_of. rewrite list_elem_of_fmap. split.
  - intros (st & -> & [[<- HP] Hst%Hin]%list_elem_of_filter). eauto.
  - intros (st & Hst & HP). pose proof (uw_staged _ _ _ _ Hu _ _ Hst) as [[= -> ->] _]. exists st. split; [done|].
    apply list_elem_of_filter. split; [done|]. by apply Hin.
Qed.

Lemma NoDup_ids_of P `{HD : forall st, Decision (P st)} m u n :
  update_wf db acct m u -> NoDup (ids_of P n (sorted_staged u)).
Proof.
  intros Hu. pose proof (sorted_staged_spec db acct m u Hu) as [Hnd _]. unfold ids_of.
  induction (sorted_staged u) as [|st l IH]; [constructor|]. cbn [fmap list_fmap] in Hnd. inversion Hnd as [|? ? Hnot Hnd']; subst.
  rewrite filter_cons. destruct (decide (st_typeName st = n /\ P st)) as [[Hn HP]|]; [|by apply IH]. cbn [fmap list_fmap]. constructor; [|by apply IH].
  intros (st' & Eid & [[Hn' _] Hin]%list_elem_of_filter)%list_elem_of_fmap. apply Hnot, list_elem_of_fmap. exists st'.
  split; [|done]. unfold st_key, stagedKey. congruence.
Qed.

(** What the log entry of a commit says is what the commit did. *)
Lemma commit_coherent m m' u n t E te :
  update_wf db acct m u -> committed db acct u m m' -> db_types db !! n = Some t ->
  describes db n (sorted_staged u) te -> alive m n E ->
  coherent E te /\ alive m' n (evolve E te).
Proof.
  intros Hu Hcm Ht [Dc Du Dd _] Hal.
  assert (Hmem : forall id, (id ∈ lt_Created te <-> exists st, u_staged u !! stagedKey n id = Some st /\ is_created st) /\
                            (id ∈ lt_Updated te <-> exists st, u_staged u !! stagedKey n id = Some st /\ is_updated st) /\
                            (id ∈ lt_Destroyed te <-> exists st, u_staged u !! stagedKey n id = Some st /\ is_destroyed st)).
  { intros id. rewrite Dc, Du, Dd, !(elem_of_ids_of _ m u n id Hu). done. }
  assert (Hold : forall id st, u_staged u !! stagedKey n id = Some st -> (id ∈ E <-> st_created st = false)).
  { intros id st Hst. rewrite (Hal id). pose proof (uw_staged _ _ _ _ Hu _ _ Hst) as [[= -> ->] [_ _ Ho]]. unfold present.
    destruct (st_created st); [destruct Ho as [_ ->]|destruct Ho as (raw & -> & _)]; [|by eauto]. split; [by intros []|done]. }
  split.
  - constructor.
    + rewrite Dc, Du, Dd. apply NoDup_app. split; [by eapply NoDup_ids_of|]. split.
      * intros id. rewrite elem_of_app, !(elem_of_ids_of _ m u n id Hu). unfold is_created, is_updated, is_destroyed.
        intros (st & Hst & Hc & _) [(st' & Hst' & Hc' & _)|(st' & Hst' & Hc' & _)]; congruence.
      * apply NoDup_app. split; [by eapply NoDup_ids_of|]. split; [|by eapply NoDup_ids_of].
        intros id. rewrite !(elem_of_ids_of _ m u n id Hu). unfold is_updated, is_destroyed.
        intros (st & Hst & _ & Hc & _) (st' & Hst' & _ & Hc'). congruence.
    + intros id. rewrite (proj1 (Hmem id)). intros (st & Hst & Hc & _). rewrite (Hold id st Hst). congruence.
    + intros id. rewrite (proj1 (proj2 (Hmem id))). intros (st & Hst & Hc & _). by rewrite (Hold id st Hst).
    + intros id. rewrite (proj2 (proj2 (Hmem id))). intros (st & Hst & Hc & _). by rewrite (Hold id st Hst).
  - intros id. unfold evolve. rewrite elem_of_difference, elem_of_union, !elem_of_list_to_set. destruct (Hmem id) as (-> & _ & ->).
    destruct (u_staged u !! stagedKey n id) as [st|] eqn:Hst.
    + rewrite (Hold id st Hst). pose proof (uw_staged _ _ _ _ Hu _ _ Hst) as [[= -> ->] _].
      pose proof (sorted_staged_spec db acct m u Hu) as [_ Hin].
      destruct (cm_staged _ _ _ _ _ Hcm st (proj2 (Hin st) Hst)) as [_ Hob]. unfold present, is_created, is_destroyed.
      destruct (st_new st) as [o|] eqn:En.
      * destruct Hob as (raw & _ & ->). split; [by eauto|]. intros _. split; [|intros (? & [= <-] & _ & ?); congruence].
        destruct (st_created st) eqn:Ec; [right|by left]. exists st. by rewrite Ec, En.
      * rewrite Hob. split; [|by intros []]. intros [[Hc|(? & [= <-] & _ & ?)] Hnd]; [|congruence]. exfalso. apply Hnd. eauto.
    + assert (Hout : m' !! objKey acct n id = m !! objKey acct n id).
      { apply (cm_other _ _ _ _ _ Hcm); [left; eauto|]. intros st Hst' Hfp.
        pose proof (sorted_staged_spec db acct m u Hu) as [_ Hin]. apply Hin in Hst'. destruct Hfp as [Eo|Hk]; [|by apply objKey_not_fp in Hk].
        apply Key_injective in Eo. injection Eo as -> ->. unfold st_key in Hst'. by rewrite Hst in Hst'. }
      unfold present. rewrite Hout. change (is_Some (m !! objKey acct n id)) with (present m (objKey acct n id)). rewrite <- (Hal id).
      split; [by intros [[?|(? & ? & _)] _]|]. intros HE. split; [by left|]. by intros (? & ? & _).
Qed.

Lemma unchanged_nil n sts : ~ changed n sts -> ids_of is_created n sts = [] /\ ids_of is_updated n sts = [] /\ ids_of is_destroyed n sts = [].
Proof.
  unfold changed. intros Hno. destruct (ids_of is_created n sts), (ids_of is_updated n sts), (ids_of is_destroyed n sts); try done; exfalso; by apply Hno.
Qed.

(** A type without an entry keeps its record set. *)
Lemma commit_unchanged m m' u n t E :
  update_wf db acct m u -> committed db acct u m m' -> db_types db !! n = Some t ->
  ~ changed n (sorted_staged u) -> alive m n E -> alive m' n E.
Proof.
  intros Hu Hcm Ht Hno Hal. destruct (unchanged_nil n _ Hno) as (H1 & H2 & H3). destruct (commit_coherent m m' u n t E zeroLogType Hu Hcm Ht) as [_ Hev]; [|done|].
  - constructor; cbn; by rewrite ?H1, ?H2, ?H3.
  - unfold evolve in Hev. cbn in Hev. intros id. rewrite <- (Hev id). set_solver.
Qed.
End effect.

(** ** Histories of an account *)

(** One step of the account: a commit of its own, or writes elsewhere in the
    store. *)
Inductive account_step `{MR : MapRange, TP : TimeParse, CF : CaseFold, LC : LogCodec}
  {S : Type} `{BE : Backend S, BL : !BackendLaws S} (db : DB) (acct : Id) : S -> S -> Prop :=
  | as_commit s fence now cur fn u c :
      is_fence fence -> Sequence s acct = Ok cur -> is_int64 (cur + 1) -> fn (newUpdate (cur + 1)) = Ok u ->
      reach db s acct u -> staging_ok db u -> update db s acct fence now fn = Ok c ->
      account_step db acct s (c_store c)
  | as_other s s' :
      be_inv s' -> (forall tl, be_map s' !! (Key [acct] ++ tl) = be_map s !! (Key [acct] ++ tl)) -> account_step db acct s s'.

Section histories.
Context `{MR : MapRange, TP : TimeParse, CF : CaseFold, LC : LogCodec, LL : !LogCodecLaws}.
Context {S : Type} `{BE : Backend S, BL : !BackendLaws S}.
Variable db : DB.
Variable acct : Id.
Hypothesis Hdb : db_wf db.
Hypothesis Hacct : Valid acct = true.

(** The stored state number of a type. *)
Definition state_at (m : kvmap) (n : bytes) (z : Z) : Prop :=
  match m !! typeStateKey acct n with Some raw => raw = Some (EncodeInt64 z) | None => z = 0 end.

(** The log replays every type's record set; the state of a type is at or past
    its last entry. *)
Record log_inv (s : S) (log : list (Z * logEntry)) (cur : Z) : Prop := mkLogInv {
  li_inv : be_inv s;
  li_index : index_inv db acct (be_map s);
  li_seq : Sequence s acct = Ok cur;
  li_cur : 0 <= cur /\ is_int64 cur;
  li_log : log_ok acct (be_map s) log;
  li_seqs : forall ze, ze ∈ log -> 1 <= ze.1 <= cur;
  li_floor : be_map s !! logFloorKey acct = None;
  li_states : forall n, exists z, state_at (be_map s) n z /\ 0 <= z <= cur /\
    forall ze, ze ∈ log -> is_Some (le_Types ze.2 !! n) -> ze.1 <= z;
  li_alive : forall n t, db_types db !! n = Some t -> exists E T, alive acct (be_map s) n E /\ history ∅ (tes n log) E T;
}.

(** An account that was never written to. *)
Lemma log_inv_empty s : be_inv s -> be_map s = ∅ -> log_inv s [] 0.
Proof.
  intros Hs Hm. constructor; rewrite ?Hm.
  - done.
  - apply Instances.index_inv_empty.
  - unfold Sequence. rewrite get_counter_spec by done. by rewrite Hm, lookup_empty.
  - split; [lia|]. unfold is_int64. lia.
  - constructor; [constructor|by intros z e ?%not_elem_of_nil|]. intros k v. rewrite lookup_empty.
    split; [by intros [? _]|]. by intros (z & e & ?%not_elem_of_nil & _).
  - by intros ze ?%not_elem_of_nil.
  - apply lookup_empty.
  - intros n. exists 0. unfold state_at. rewrite lookup_empty. split; [done|]. split; [lia|]. by intros ze ?%not_elem_of_nil.
  - intros n t _. exists ∅, ∅. split; [|done]. intros id. unfold present. rewrite lookup_empty. split; [set_solver|by intros []].
Qed.

(** The log after a commit. *)
Lemma log_ok_snoc m m' log cur live now :
  log_ok acct m log -> (forall ze, ze ∈ log -> ze.1 <= cur) -> is_int64 (cur + 1) -> live <> ∅ ->
  (forall k tl, k = Key [acct; bs "g"] ++ tl -> m' !! k =
     if decide (k = logKey acct (cur + 1) /\ live <> ∅) then Some (Some (marshalLog (mkLogEntry live now))) else m !! k) ->
  log_ok acct m' (log ++ [(cur + 1, mkLogEntry live now)]).
Proof.
  intros [Hs Hr Hk] Hle Hi Hne Hm. constructor.
  - apply StronglySorted_app. split; [|split; [done|repeat constructor]].
    intros ze1 ze2 Hin ->%list_elem_of_singleton. cbn. specialize (Hle ze1 Hin). lia.
  - intros z e [Hin|[= -> ->]%list_elem_of_singleton]%elem_of_app; [by eapply Hr|done].
  - intros k v. split.
    + intros [Hv [tl Etl]]. rewrite (Hm k tl Etl) in Hv. destruct (decide _) as [[-> _]|Hn].
      * injection Hv as <-. exists (cur + 1), (mkLogEntry live now). rewrite elem_of_app, list_elem_of_singleton. auto.
      * destruct (proj1 (Hk k v)) as (z & e & Hin & -> & ->); [eauto|]. exists z, e. rewrite elem_of_app. auto.
    + intros (z & e & [Hin|[= -> ->]%list_elem_of_singleton]%elem_of_app & -> & ->).
      * split; [|exists (Key [EncodeInt64 z]); apply logKey_prefix]. rewrite (Hm _ _ (logKey_prefix acct z)). rewrite decide_False.
        -- by apply Hk; eauto.
        -- intros [E _]. apply logKey_inj in E; [|by eapply Hr|done]. specialize (Hle _ Hin). cbn in Hle. lia.
      * split; [|exists (Key [EncodeInt64 (cur + 1)]); apply logKey_prefix]. rewrite (Hm _ _ (logKey_prefix acct (cur + 1))).
        by rewrite decide_True.
Qed.

Lemma log_ok_same m m' log :
  log_ok acct m log -> (forall tl, m' !! (Key [acct; bs "g"] ++ tl) = m !! (Key [acct; bs "g"] ++ tl)) -> log_ok acct m' log.
Proof.
  intros [Hs Hr Hk] Hm. constructor; [done|done|]. intros k v. rewrite <- Hk. split; intros [Hv [tl ->]]; (split; [|by exists tl]);
    [by rewrite <- Hm|by rewrite Hm].
Qed.

(** What a step adds to the log. *)
Definition step_entry (cur : Z) (live : gmap bytes logTypeEntry) (now : Z) : list (Z * logEntry) :=
  if decide (live = ∅) then [] else [(cur + 1, mkLogEntry live now)].

Lemma tes_step_entry n cur live now :
  tes n (step_entry cur live now) = match live !! n with Some te => [te] | None => [] end.
Proof.
  unfold step_entry. destruct (decide (live = ∅)) as [-> |]; [by rewrite lookup_empty|]. unfold tes. cbn. by destruct (live !! n).
Qed.

(** The records the entries do not mention keep their visible properties. *)
Definition keeps_unmentioned (s s' : S) (new : list (Z * logEntry)) : Prop :=
  forall n t id, db_types db !! n = Some t -> (forall te, te ∈ tes n new -> id ∉ touches te) ->
    visible_same t (obj_at db (be_map s) acct n id) (obj_at db (be_map s') acct n id).

Lemma not_logged u n id te :
  update_wf db acct (be_map u.1) u.2 -> describes db n (sorted_staged u.2) te -> id ∉ touches te ->
  forall st, u_staged u.2 !! stagedKey n id = Some st -> ~ is_created st /\ ~ is_updated st /\ ~ is_destroyed st.
Proof.
  destruct u as [s u]. cbn [fst snd]. intros Hu [Dc Du Dd _] Hno st Hst. unfold touches in Hno. rewrite !not_elem_of_union, !elem_of_list_to_set in Hno.
  destruct Hno as [[H1 H2] H3]. rewrite Dc, (elem_of_ids_of db acct _ _ u n id Hu) in H1. rewrite Du, (elem_of_ids_of db acct _ _ u n id Hu) in H2.
  rewrite Dd, (elem_of_ids_of db acct _ _ u n id Hu) in H3. split_and!; intros Hp; [apply H1|apply H2|apply H3]; eauto.
Qed.

Lemma commit_log_inv s log cur fence now fn u c :
  log_inv s log cur -> is_fence fence -> is_int64 (cur + 1) -> fn (newUpdate (cur + 1)) = Ok u ->
  reach db s acct u -> staging_ok db u -> update db s acct fence now fn = Ok c -> idle u = false ->
  exists live, log_inv (c_store c) (log ++ step_entry cur live now) (cur + 1) /\
    (forall n t E, db_types db !! n = Some t -> alive acct (be_map s) n E ->
      exists E' T', alive acct (be_map (c_store c)) n E' /\ history E (tes n (step_entry cur live now)) E' T') /\
    keeps_unmentioned s (c_store c) (step_entry cur live now).
Proof.
  intros [Hi Hii Hseq [Hc0 Hc64] Hlog Hseqs Hfloor Hst Hal] Hf Hi64 Hfn Hr Hok Hc Hidle.
  pose proof (reach_wf db s acct Hi u Hr) as Hu. assert (E64 : int64 (cur + 1) = cur + 1) by (by apply int64_small).
  assert (Hfn' : fn (newUpdate (int64 (cur + 1))) = Ok u) by (by rewrite E64).
  destruct (update_committed db s acct Hdb Hacct Hi Hii u fence now cur fn c) as [Hi' Hcm]; [done..|].
  destruct (committed_index_inv db s acct Hdb Hii u _ Hu Hok Hcm) as [Hii' _].
  destruct (update_inv db s acct u fence now cur fn c) as [[? _]|(_ & batch & names & Hb & _ & Hm & _)]; [done..|congruence|].
  rewrite E64 in Hb, Hm.
  destruct (commit_reader_keys db acct u (cur + 1) now batch names (be_map s) Hacct Hi64 Hb) as (_ & H1 & H2 & H4 & live & Hl & H3).
  rewrite <- Hm in H1, H2, H3, H4. exists live.
  assert (Hstep : forall n t E, db_types db !! n = Some t -> alive acct (be_map s) n E ->
      exists E' T', alive acct (be_map (c_store c)) n E' /\ history E (tes n (step_entry cur live now)) E' T').
  { intros n t E Ht HE. rewrite tes_step_entry. specialize (Hl n). destruct (live !! n) as [te|].
    - destruct (commit_coherent db acct _ _ u n t E te Hu Hcm Ht (proj1 Hl) HE) as [Hco Hev].
      exists (evolve E te), (touches te ∪ ∅). split; [done|]. cbn. split; [done|]. by exists ∅.
    - exists E, ∅. split; [|done]. exact (commit_unchanged db acct Hdb _ _ u n t E Hu Hcm Ht Hl HE). }
  assert (Hkeep : keeps_unmentioned s (c_store c) (step_entry cur live now)).
  { intros n t id Ht Hno. apply (commit_visible db s acct Hdb Hi u); [done..|]. rewrite tes_step_entry in Hno. specialize (Hl n).
    destruct (live !! n) as [te|].
    - apply (not_logged (s, u) n id te); [done|apply Hl|]. apply Hno. by left.
    - apply (not_logged (s, u) n id zeroLogType); [done| |set_solver]. destruct (unchanged_nil n _ Hl) as (E1 & E2 & E3). constructor; cbn; congruence. }
  split; [|done]. constructor.
  - done.
  - done.
  - unfold Sequence. rewrite get_counter_spec, H1 by done. by apply DecodeInt64_EncodeInt64.
  - split; [lia|done].
  - unfold step_entry. destruct (decide (live = ∅)) as [-> |Hne].
    + rewrite app_nil_r. eapply log_ok_same; [exact Hlog|]. intros tl. rewrite (H3 _ tl eq_refl). by rewrite decide_False by (by intros [_ ?]).
    + eapply log_ok_snoc; [exact Hlog| |done|done|exact H3]. intros ze Hin. by apply Hseqs.
  - intros ze [Hin|Hin]%elem_of_app; [specialize (Hseqs ze Hin); lia|]. unfold step_entry in Hin.
    destruct (decide (live = ∅)); [by apply not_elem_of_nil in Hin|]. apply list_elem_of_singleton in Hin as ->. cbn. lia.
  - by rewrite H4.
  - intros n. destruct (Hst n) as (z & Hz & Hzr & Hzs). destruct (decide (touched u n)) as [Ht|Ht].
    + exists (cur + 1). unfold state_at. rewrite H2, decide_True by done. split; [done|]. split; [lia|].
      intros ze [Hin|Hin]%elem_of_app _; [specialize (Hseqs ze Hin); lia|]. unfold step_entry in Hin.
      destruct (decide (live = ∅)); [by apply not_elem_of_nil in Hin|]. apply list_elem_of_singleton in Hin as ->. cbn. lia.
    + exists z. unfold state_at. rewrite H2, decide_False by done. split; [done|]. split; [lia|].
      intros ze [Hin|Hin]%elem_of_app Hs; [by apply Hzs|]. exfalso. unfold step_entry in Hin.
      destruct (decide (live = ∅)); [by apply not_elem_of_nil in Hin|]. apply list_elem_of_singleton in Hin as ->. cbn in Hs.
      specialize (Hl n). destruct (live !! n); [|by destruct Hs]. apply Ht. left. tauto.
  - intros n t Ht. destruct (Hal n t Ht) as (E & T & HE & HT). destruct (Hstep n t E Ht HE) as (E' & T' & HE' & HT').
    exists E', (T ∪ T'). split; [done|]. rewrite tes_app. apply history_app. eauto 6.
Qed.

(** A step extends the log by what it did to the records. *)
Definition extends_log (s s' : S) (cur : Z) (new : list (Z * logEntry)) : Prop :=
  (forall ze, ze ∈ new -> cur < ze.1) /\
  (forall n t E, db_types db !! n = Some t -> alive acct (be_map s) n E ->
    exists E' T', alive acct (be_map s') n E' /\ history E (tes n new) E' T') /\
  keeps_unmentioned s s' new.

Lemma extends_log_refl s cur : extends_log s s cur [].
Proof.
  split; [by intros ze ?%not_elem_of_nil|]. split; [|intros n t id _ _; apply visible_same_refl]. intros n t E _ HE. exists E, ∅. done.
Qed.

Lemma extends_log_trans s1 s2 s3 c1 c2 a b :
  c1 <= c2 -> extends_log s1 s2 c1 a -> extends_log s2 s3 c2 b -> extends_log s1 s3 c1 (a ++ b).
Proof.
  intros Hc (Ha1 & Ha2 & Ha3) (Hb1 & Hb2 & Hb3). split; [|split].
  - intros ze [Hin|Hin]%elem_of_app; [by apply Ha1|]. specialize (Hb1 ze Hin). lia.
  - intros n t E Ht HE. destruct (Ha2 n t E Ht HE) as (E1 & T1 & HE1 & HT1). destruct (Hb2 n t E1 Ht HE1) as (E2 & T2 & HE2 & HT2).
    exists E2, (T1 ∪ T2). split; [done|]. rewrite tes_app. apply history_app. eauto 6.
  - intros n t id Ht Hno. rewrite tes_app in Hno. eapply visible_same_trans; [apply Ha3; [done|]|apply Hb3; [done|]]; intros te Hin; apply Hno, elem_of_app; auto.
Qed.

Lemma other_log_inv s s' log cur :
  log_inv s log cur -> be_inv s' -> (forall tl, be_map s' !! (Key [acct] ++ tl) = be_map s !! (Key [acct] ++ tl)) ->
  log_inv s' log cur /\ extends_log s s' cur [].
Proof.
  intros [Hi Hii Hseq Hc Hlog Hseqs Hfloor Hst Hal] Hi' Hm.
  assert (Hkey : forall segs, be_map s' !! Key (acct :: segs) = be_map s !! Key (acct :: segs)).
  { intros segs. change (acct :: segs) with ([acct] ++ segs). rewrite Key_app. apply Hm. }
  assert (Hobj : forall n E, alive acct (be_map s) n E -> alive acct (be_map s') n E).
  { intros n E HE id. rewrite (HE id). unfold present, objKey, key. by rewrite Hkey. }
  assert (Hkeep : keeps_unmentioned s s' []).
  { intros n t id _ _. unfold obj_at, objKey, key. rewrite Hkey. apply visible_same_refl. }
  split; [|split; [by intros ze ?%not_elem_of_nil|split; [intros n t E _ HE; exists E, ∅; split; [by apply Hobj|done]|done]]].
  constructor; [done| | |done| |done| | |].
  - eapply same_data_inv; [|exact Hii]. intros tag tl _. change [acct; tag] with ([acct] ++ [tag]). rewrite Key_app, <- app_assoc. apply Hm.
  - unfold Sequence in *. rewrite get_counter_spec in * by done. unfold seqKey, key in *. by rewrite Hkey.
  - eapply log_ok_same; [exact Hlog|]. intros tl. change [acct; bs "g"] with ([acct] ++ [bs "g"]). rewrite Key_app, <- app_assoc. apply Hm.
  - unfold logFloorKey, key in *. by rewrite Hkey.
  - intros n. destruct (Hst n) as (z & Hz & H). exists z. split; [|done]. unfold state_at, typeStateKey, key in *. by rewrite Hkey.
  - intros n t Ht. destruct (Hal n t Ht) as (E & T & HE & HT). exists E, T. auto.
Qed.

Lemma step_log_inv s s' log cur :
  log_inv s log cur -> account_step db acct s s' ->
  exists new cur', log_inv s' (log ++ new) cur' /\ cur <= cur' /\ extends_log s s' cur new.
Proof.
  intros Hli Hstep. destruct Hstep as [s fence now cur' fn u c Hf Hseq Hi64 Hfn Hr Hok Hc|s s' Hi' Hm].
  - assert (cur' = cur) as -> by (pose proof (li_seq _ _ _ Hli); congruence).
    destruct (idle u) eqn:Eidle.
    + exists [], cur. rewrite app_nil_r.
      destruct (update_inv db s acct u fence now cur fn c) as [[_ ->]|[? _]]; [by apply Hli|done|done|by rewrite int64_small|done| |congruence].
      cbn. split; [done|]. split; [lia|apply extends_log_refl].
    + destruct (commit_log_inv s log cur fence now fn u c) as (live & Hli' & Hext); [done..|].
      exists (step_entry cur live now), (cur + 1). split; [done|]. split; [lia|]. split; [|done].
      intros ze Hin. unfold step_entry in Hin. destruct (decide (live = ∅)); [by apply not_elem_of_nil in Hin|].
      apply list_elem_of_singleton in Hin as ->. cbn. lia.
  - exists [], cur. rewrite app_nil_r. destruct (other_log_inv s s' log cur) as [? ?]; [done..|]. split; [done|]. split; [lia|done].
Qed.

Lemma steps_log_inv s s' log cur :
  log_inv s log cur -> rtc (account_step db acct) s s' ->
  exists new cur', log_inv s' (log ++ new) cur' /\ cur <= cur' /\ extends_log s s' cur new.
Proof.
  intros Hli Hsteps. revert log cur Hli. induction Hsteps as [s|s1 s2 s3 Hstep _ IH]; intros log cur Hli.
  - exists [], cur. rewrite app_nil_r. split; [done|]. split; [lia|apply extends_log_refl].
  - destruct (step_log_inv _ _ _ _ Hli Hstep) as (a & c1 & Ha & Hc1 & Hea).
    destruct (IH _ _ Ha) as (b & c2 & Hb & Hc2 & Heb). exists (a ++ b), c2. rewrite app_assoc.
    split; [done|]. split; [lia|]. by eapply extends_log_trans.
Qed.

Lemma state_TypeState s n t z : be_inv s -> db_types db !! n = Some t -> is_int64 z -> state_at (be_map s) n z -> TypeState db s acct n = Ok (FormatInt z).
Proof.
  intros Hs Ht Hz. rewrite (TypeState_spec db s acct n t) by done. unfold state_at. destruct (be_map s !! typeStateKey acct n).
  - intros ->. change (sbytes (Some (EncodeInt64 z))) with (EncodeInt64 z). by rewrite DecodeInt64_EncodeInt64.
  - by intros ->.
Qed.

Lemma steps_reach s s' : account_reach db acct s -> rtc (account_step db acct) s s' -> account_reach db acct s'.
Proof.
  intros Hr Hsteps. induction Hsteps as [s|s1 s2 s3 Hstep _ IH]; [done|]. apply IH.
  destruct Hstep as [s fence now cur fn u c Hf Hseq Hi64 Hfn Hu Hok Hc|s s' Hi' Hm].
  - eapply ar_commit; [exact Hr|exact Hf|exact Hseq| |exact Hu|exact Hok|exact Hc]. by rewrite int64_small.
  - eapply ar_other; [exact Hr|exact Hi'|]. intros tag tl _. change [acct; tag] with ([acct] ++ [tag]). rewrite Key_app, <- app_assoc. apply Hm.
Qed.

Lemma history_touches E l E' T id : history E l E' T -> id ∉ T -> forall te, te ∈ l -> id ∉ touches te.
Proof.
  revert E T. induction l as [|te l IH]; intros E T Hh Hid te' Hin; [by apply not_elem_of_nil in Hin|].
  destruct Hh as (_ & T' & Hh & ->). apply elem_of_cons in Hin as [-> |Hin]; [set_solver|]. eapply IH; [exact Hh|set_solver|done].
Qed.

(** The log between the state of a type and a later store. *)
Record since_log (s0 s1 : S) (n : bytes) (t : Type_) (z : Z) (log : list (Z * logEntry)) (cur z1 : Z) (E0 E1 T : gset Id) : Prop := mkSince {
  sl_inv : log_inv s1 log cur;
  sl_range : is_int64 (z + 1) /\ 0 <= z <= cur /\ is_int64 z1;
  sl_state : TypeState db s1 acct n = Ok (FormatInt z1);
  sl_alive : alive acct (be_map s0) n E0 /\ alive acct (be_map s1) n E1;
  sl_history : history E0 (tes n (after_seq z log)) E1 T;
  sl_keeps : forall id, id ∉ T -> visible_same t (obj_at db (be_map s0) acct n id) (obj_at db (be_map s1) acct n id);
  sl_quiet : z1 <= z -> T = ∅;
}.

Lemma since_history init s0 s1 n t ss :
  be_inv init -> be_map init = ∅ -> rtc (account_step db acct) init s0 -> rtc (account_step db acct) s0 s1 ->
  db_types db !! n = Some t -> TypeState db s0 acct n = Ok ss -> (forall cur, Sequence s1 acct = Ok cur -> is_int64 (cur + 1)) ->
  exists z log cur z1 E0 E1 T, ss = FormatInt z /\ since_log s0 s1 n t z log cur z1 E0 E1 T.
Proof.
  intros Hi Hm Hr0 Hr1 Ht Hts Hroom.
  destruct (steps_log_inv _ _ _ _ (log_inv_empty init Hi Hm) Hr0) as (log0 & cur0 & H0 & _ & _). cbn [app] in H0.
  destruct (steps_log_inv _ _ _ _ H0 Hr1) as (new & cur1 & H1 & Hc & Hnew & Hext & Hkeep).
  destruct (li_alive _ _ _ H0 n t Ht) as (E0 & T0 & HE0 & _). destruct (Hext n t E0 Ht HE0) as (E1 & T1 & HE1 & HT1).
  destruct (li_states _ _ _ H0 n) as (z & Hz & Hzr & Hzs). destruct (li_states _ _ _ H1 n) as (z1 & Hz1 & Hz1r & Hzs1).
  specialize (Hroom cur1 (li_seq _ _ _ H1)). pose proof (li_cur _ _ _ H0) as [Hc0 Hc064].
  assert (Hz64 : is_int64 z /\ is_int64 z1 /\ is_int64 (z + 1)) by (unfold is_int64 in *; lia). destruct Hz64 as (Hz64 & Hz164 & Hzs64).
  assert (ss = FormatInt z) as -> by (rewrite (state_TypeState s0 n t z) in Hts by (done || by apply H0); by injection Hts).
  exists z, (log0 ++ new), cur1, z1, E0, E1, T1. split; [done|].
  assert (Htes : tes n (after_seq z (log0 ++ new)) = tes n new).
  { unfold after_seq. rewrite filter_app, tes_app, (list_filter_all _ new).
    2: { apply Forall_forall. intros ze Hin. specialize (Hnew ze Hin). lia. }
    assert (Hnil : tes n (filter (fun ze : Z * logEntry => z < ze.1) log0) = []); [|by rewrite Hnil].
    clear -Hzs. induction log0 as [|ze l IH]; [done|]. rewrite filter_cons.
    assert (IH' : tes n (filter (fun ze : Z * logEntry => z < ze.1) l) = []) by (apply IH; intros ze' Hin; apply Hzs; by right).
    destruct (decide (z < ze.1)) as [Hlt|]; [|done]. unfold tes in *. cbn [omap list_omap].
    destruct (le_Types ze.2 !! n) eqn:E; [|done]. specialize (Hzs ze ltac:(by left) ltac:(by rewrite E)). lia. }
  constructor; [done|split; [done|split; [lia|done]]|eapply state_TypeState; [apply H1|exact Ht|done|done]|done|by rewrite Htes| |].
  - intros id Hid. apply Hkeep; [done|]. by eapply history_touches.
  - intros Hle. assert (Hnil : tes n new = []); [|rewrite Hnil in HT1; by destruct HT1 as [_ ->]].
    destruct (tes n new) as [|te l] eqn:E; [done|]. exfalso. assert (Hin : te ∈ tes n new) by (rewrite E; by left).
    unfold tes in Hin. apply list_elem_of_omap in Hin as (ze & Hin & Hze). specialize (Hnew ze Hin).
    specialize (Hzs1 ze ltac:(apply elem_of_app; by right) ltac:(by rewrite Hze)). lia.
Qed.

(** The state of a type, seen from a later store. *)
Lemma changes_since init s0 s1 n t ss maxChanges :
  be_inv init -> be_map init = ∅ -> rtc (account_step db acct) init s0 -> rtc (account_step db acct) s0 s1 ->
  db_types db !! n = Some t -> TypeState db s0 acct n = Ok ss -> (forall cur, Sequence s1 acct = Ok cur -> is_int64 (cur + 1)) ->
  exists since log E0 E1 ts, alive acct (be_map s0) n E0 /\ alive acct (be_map s1) n E1 /\ TypeState db s1 acct n = Ok ts /\
    ((Changes db s1 s1 s1 s1 s1 acct n ss maxChanges = Err ErrCannotCalculateChanges /\ 0 < maxChanges) \/
     exists cs, Changes db s1 s1 s1 s1 s1 acct n ss maxChanges = Ok cs /\ cs_OldState cs = ss /\ answer n since maxChanges log E0 E1 ts cs).
Proof.
  intros Hi Hm Hr0 Hr1 Ht Hts Hroom.
  destruct (since_history init s0 s1 n t ss) as (z & log & cur & z1 & E0 & E1 & T & -> & [H1 (Hz64 & Hzr & Hz164) Hts1 [HE0 HE1] Hh _ _]); [done..|].
  exists z, log, E0, E1, (FormatInt z1). split; [done|]. split; [done|]. split; [done|].
  assert (Hps : parse_state (FormatInt z) = Ok z).
  { unfold parse_state. rewrite ParseInt_FormatInt by (unfold is_int64 in *; lia). by rewrite (proj2 (Z.ltb_ge _ _)) by lia. }
  assert (Hfl : logFloor s1 acct = Ok 0).
  { unfold logFloor. rewrite get_counter_spec by apply H1. by rewrite (li_floor _ _ _ H1). }
  eapply (changes_page db s1 acct n t); [apply H1|exact Ht|exact Hps|done|apply H1|lia|exact Hfl|lia|exact Hts1|apply H1|exact Hh].
Qed.
End histories.

Section demo.
#[local] Existing Instances map_order Instances.demo_codec Instances.demo_time Instances.demo_fold Memory.memory_backend Memory.memory_laws.
Import Instances.

Lemma demo_steps : rtc (account_step demo_db demo_acct) empty_store (c_store demo_c).
Proof.
  apply rtc_once. eapply (as_commit demo_db demo_acct empty_store no_fence 1700 0 demo_fn demo_u);
    [apply no_fence_fence|vm_compute; reflexivity|unfold is_int64; lia|apply demo_fn_ok|apply demo_reach|apply demo_staging_ok|apply demo_update_ok].
Qed.

Lemma demo_room cur : Sequence (c_store demo_c) demo_acct = Ok cur -> is_int64 (cur + 1).
Proof.
  assert (E : Sequence (c_store demo_c) demo_acct = Ok 1) by (vm_compute; reflexivity).
  rewrite E. intros [= <-]. unfold is_int64. lia.
Qed.
End demo.

(** C5: [Changes] is the true difference between two moments.  Take any
    account, any history of commits leading from the empty store to [s0] and
    on to [s1], and the state of a type at [s0].  Asked at [s1] for the
    changes since that state, without a limit, [Changes] succeeds, is
    complete, returns the type's state at [s1], and lists as created exactly
    the ids stored at [s1] and not at [s0], as destroyed exactly those stored
    at [s0] and not at [s1], and as updated only ids stored at both; each list
    is ascending and without repetition. *)
Theorem changes_between `{MR : MapRange, TP : TimeParse, CF : CaseFold, LC : LogCodec, LL : !LogCodecLaws}
  {S : Type} `{BE : Backend S, BL : !BackendLaws S}
  (db : DB) (acct : Id) (init s0 s1 : S) (n : bytes) (t : Type_) (ss : bytes)
  (Hdb : db_wf db) (Hacct : Valid acct = true) (Hi : be_inv init) (Hm : be_map init = ∅)
  (Hr0 : rtc (account_step db acct) init s0) (Hr1 : rtc (account_step db acct) s0 s1)
  (Ht : db_types db !! n = Some t) (Hts : TypeState db s0 acct n = Ok ss)
  (Hroom : forall cur, Sequence s1 acct = Ok cur -> is_int64 (cur + 1)) :
  exists cs, Changes db s1 s1 s1 s1 s1 acct n ss 0 = Ok cs /\ cs_OldState cs = ss /\ cs_HasMore cs = false /\
    TypeState db s1 acct n = Ok (cs_NewState cs) /\
    (forall id, id ∈ cs_Created cs <-> ~ present (be_map s0) (objKey acct n id) /\ present (be_map s1) (objKey acct n id)) /\
    (forall id, id ∈ cs_Destroyed cs <-> present (be_map s0) (objKey acct n id) /\ ~ present (be_map s1) (objKey acct n id)) /\
    (forall id, id ∈ cs_Updated cs -> present (be_map s0) (objKey acct n id) /\ present (be_map s1) (objKey acct n id)) /\
    StronglySorted bytes_lt (cs_Created cs) /\ StronglySorted bytes_lt (cs_Updated cs) /\ StronglySorted bytes_lt (cs_Destroyed cs).
Proof.
  destruct (changes_since db acct Hdb Hacct init s0 s1 n t ss 0 Hi Hm Hr0 Hr1 Ht Hts Hroom)
    as (since & log & E0 & E1 & ts & HE0 & HE1 & Hts1 & [[_ ?]|(cs & Hc & Ho & p & q & E2 & T1 & T2 & _ & _ & Hq & Hrep & _ & _ & Hmore)]); [lia|].
  exists cs. split; [done|]. split; [done|]. destruct (cs_HasMore cs); [lia|]. destruct Hmore as [-> ->]. destruct Hq as [-> _].
  destruct Hrep as [R1 R2 R3 R4]. split; [done|]. split; [done|]. split; [|split; [|split; [|exact R4]]].
  - intros id. rewrite R1, (HE0 id), (HE1 id). done.
  - intros id. rewrite R3, (HE0 id), (HE1 id). done.
  - intros id (H1 & H2 & _)%R2. split; [by apply HE0|by apply HE1].
Qed.

Lemma changes_between_witness :
  let s1 := c_store Instances.demo_c in
  exists cs, @Changes Instances.demo_codec Memory.Store Memory.memory_backend Instances.demo_db s1 s1 s1 s1 s1 Instances.demo_acct (bs "Note") (bs "0") 0 = Ok cs /\
    cs_HasMore cs = false /\ cs_Created cs = [Instances.demo_id].
Proof.
  cbv zeta. set (s1 := c_store Instances.demo_c).
  destruct (@changes_between map_order Instances.demo_time Instances.demo_fold Instances.demo_codec Instances.demo_codec_laws
    Memory.Store Memory.memory_backend Memory.memory_laws Instances.demo_db Instances.demo_acct Instances.empty_store Instances.empty_store s1
    (bs "Note") Instances.demo_type (bs "0")) as (cs & Hc & _ & Hm & _).
  - apply Instances.demo_db_wf.
  - vm_compute. reflexivity.
  - apply Memory.empty_inv.
  - reflexivity.
  - constructor.
  - apply demo_steps.
  - vm_compute. reflexivity.
  - vm_compute. reflexivity.
  - apply demo_room.
  - exists cs. split; [exact Hc|]. split; [exact Hm|].
    assert (E : cs_Created <$> @Changes Instances.demo_codec Memory.Store Memory.memory_backend Instances.demo_db s1 s1 s1 s1 s1 Instances.demo_acct (bs "Note") (bs "0") 0 = Ok [Instances.demo_id])
      by (vm_compute; reflexivity).
    rewrite Hc in E. injection E as E. exact E.
Defined.


(** ** A race *)

Section race.
#[local] Existing Instances map_order Instances.demo_codec Instances.demo_time Instances.demo_fold Memory.memory_backend Memory.memory_laws.
Import Instances.

(** A second commit creates another record. *)
Definition second_rnd : bytes := bs "fedcba9876543210".
Definition second_fn (u : Update) : result Update := r ← Create demo_db u 0 second_rnd (bs "Note") demo_obj; Ok r.1.
Definition second_c : Committed := ok_or demo_c (update demo_db (c_store demo_c) demo_acct no_fence 1800 second_fn).

End race.
End History.
