(* ===== verification/WalkFacts.v ===== *)
(** * WalkFacts: the coalesced walk of the change log

    [ChangedSince] over an unchanging store reports, within its budget, the
    exact difference between the record sets at the two ends of the walk, and
    every record it does not mention has the same visible properties at both. *)

From S2P Require Import Prelude GoLib Keyenc Backend Batches Memory Jsonscan Jmap Descriptor Keys ObjectDB SetIndex.
From S2P Require Import Commit Indexing CommitFacts Instances CommitIndex Reach CommitLog Visible Changes ChangesFacts History.

Module WalkFacts.
Import Keyenc Backend Batches Jsonscan Jmap Descriptor Keys ObjectDB SetIndex Commit Indexing CommitFacts CommitIndex Reach
  CommitLog Visible Changes ChangesFacts History.

(** ** Dispositions with tombstones *)

(** As [nets], but an id created and destroyed within the walk stays in the
    map as omitted. *)
Definition wnets (E0 E T : gset Id) (d : gmap Id Disp) : Prop :=
  forall id, match d !! id with
             | Some dispOmitted => (id ∉ E0) /\ id ∉ E
             | x => x = net (bool_decide (id ∈ E0)) (bool_decide (id ∈ E)) (bool_decide (id ∈ T))
             end.

Lemma wnets_empty E : wnets E E ∅ ∅.
Proof. intros id. rewrite lookup_empty. by destruct (bool_decide (id ∈ E)). Qed.

Definition moves (next : Disp) (id : Id) (E E' : gset Id) : Prop :=
  match next with
  | dispCreated => (id ∉ E) /\ E' = E ∪ {[id]}
  | dispUpdated => id ∈ E /\ E' = E
  | dispDestroyed => id ∈ E /\ E' = E ∖ {[id]}
  | dispOmitted => False
  end.

Lemma wnets_move E0 E E' T next d held mx id :
  wnets E0 E T d -> moves next id E E' -> wnets E0 E' (T ∪ {[id]}) (apply_since mx next d held id).1.1.
Proof.
  intros Hn Hmove. pose proof (Hn id) as Hid.
  assert (Ed : exists x, (apply_since mx next d held id).1.1 = <[id := x]> d /\ x = match d !! id with None => next | Some prev => next_disp prev next end).
  { unfold apply_since. destruct (d !! id); by eexists. }
  destruct Ed as (x & -> & Ex). intros id'. destruct (decide (id' = id)) as [-> |Hne].
  - rewrite lookup_insert_eq. assert (HT : bool_decide (id ∈ T ∪ {[id]}) = true) by (apply bool_decide_eq_true; set_solver). rewrite HT.
    destruct next; cbn [moves] in Hmove; [| | |done]; destruct Hmove as [H1 ->].
    + rewrite (bool_decide_eq_false_2 (id ∈ E)) in Hid by done. rewrite (bool_decide_eq_true_2 (id ∈ E ∪ {[id]})) by set_solver.
      destruct (d !! id) as [[]|], (bool_decide_reflect (id ∈ E0)); cbn in Hid, Ex; subst x; try done; by destruct Hid.
    + rewrite (bool_decide_eq_true_2 (id ∈ E)) in Hid |- * by done.
      destruct (d !! id) as [[]|], (bool_decide_reflect (id ∈ E0)), (bool_decide (id ∈ T)); cbn in Hid, Ex; subst x; try done; by destruct Hid.
    + rewrite (bool_decide_eq_true_2 (id ∈ E)) in Hid by done. rewrite (bool_decide_eq_false_2 (id ∈ E ∖ {[id]})) by set_solver.
      destruct (d !! id) as [[]|], (bool_decide_reflect (id ∈ E0)), (bool_decide (id ∈ T)); cbn in Hid, Ex; subst x; try done; try (by destruct Hid); set_solver.
  - rewrite lookup_insert_ne by done. specialize (Hn id').
    assert (HE : id' ∈ E' <-> id' ∈ E) by (destruct next; cbn [moves] in Hmove; [destruct Hmove as [_ ->]..|done]; set_solver).
    rewrite (bool_decide_ext (id' ∈ E') (id' ∈ E)) by done. rewrite (bool_decide_ext (id' ∈ T ∪ {[id]}) (id' ∈ T)) by set_solver.
    destruct (d !! id') as [[]|]; try done. by rewrite HE.
Qed.

(** The ids of one list of an entry. *)
Definition all_move (next : Disp) (ids : list Id) (E : gset Id) : Prop :=
  match next with
  | dispCreated => forall id, id ∈ ids -> id ∉ E
  | dispUpdated | dispDestroyed => forall id, id ∈ ids -> id ∈ E
  | dispOmitted => ids = []
  end.
Definition moved (next : Disp) (ids : list Id) (E : gset Id) : gset Id :=
  match next with dispCreated => E ∪ list_to_set ids | dispDestroyed => E ∖ list_to_set ids | _ => E end.

Lemma wnets_ids E0 E T mx next ids d held d' held' :
  NoDup ids -> all_move next ids E -> wnets E0 E T d -> apply_ids mx next ids d held = (d', held', true) ->
  wnets E0 (moved next ids E) (T ∪ list_to_set ids) d'.
Proof.
  intros Hnd. revert E T d held. induction Hnd as [|id ids Hid Hnd IH]; intros E T d held Hall Hn; cbn [apply_ids].
  - intros [= <- <-]. replace (moved next [] E) with E by (destruct next; cbn; set_solver). cbn [list_to_set foldr]. by rewrite (right_id_L ∅ (∪)).
  - destruct (apply_since mx next d held id) as [[d1 h1] ok] eqn:Ea. destruct ok; [|done]. intros Hrest.
    set (E' := match next with dispCreated => E ∪ {[id]} | dispDestroyed => E ∖ {[id]} | _ => E end).
    assert (Hmv : moves next id E E').
    { unfold E'. destruct next; cbn in *; [split; [apply Hall; by left|done]..|done]. }
    pose proof (wnets_move E0 E E' T next d held mx id Hn Hmv) as H1. rewrite Ea in H1. cbn [fst] in H1.
    assert (Hall' : all_move next ids E').
    { unfold E'. destruct next; cbn in *; [..|done]; intros id' Hin; specialize (Hall id' ltac:(by right)); set_solver. }
    pose proof (IH E' _ d1 h1 Hall' H1 Hrest) as H2. cbn [list_to_set foldr]. rewrite (assoc_L (∪)).
    replace (moved next (id :: ids) E) with (moved next ids E'); [done|]. unfold E'. destruct next; cbn; set_solver.
Qed.

Lemma wnets_entry E0 E T mx te d held d' held' :
  coherent E te -> wnets E0 E T d -> since_entry mx te d held = (d', held', true) -> wnets E0 (evolve E te) (T ∪ touches te) d'.
Proof.
  intros [Hnd Hc Hu Hd] Hn. apply NoDup_app in Hnd as (N1 & N2 & N3%NoDup_app). destruct N3 as (N3 & N4 & N5). unfold since_entry.
  destruct (apply_ids mx dispCreated (lt_Created te) d held) as [[d1 h1] ok1] eqn:E1. destruct ok1; [|done].
  destruct (apply_ids mx dispUpdated (lt_Updated te) d1 h1) as [[d2 h2] ok2] eqn:E2. destruct ok2; [|done]. intros E3.
  apply (wnets_ids E0 E T) in E1; [|done..]. pose proof (wnets_ids E0 (E ∪ list_to_set (lt_Created te)) _ mx dispUpdated _ d1 h1 d2 h2 N3 ltac:(cbn; set_solver) E1 E2) as H2.
  pose proof (wnets_ids E0 (E ∪ list_to_set (lt_Created te)) _ mx dispDestroyed _ d2 h2 d' held' N5 ltac:(cbn; set_solver) H2 E3) as H3. cbn [moved] in H3. unfold evolve, touches. by rewrite !(assoc_L (∪)).
Qed.

(** The budget is the one way a walk stops early. *)
Lemma apply_ids_budget mx next ids d held : (apply_ids mx next ids d held).2 = false -> 0 < mx.
Proof.
  revert d held. induction ids as [|id ids IH]; intros d held; cbn [apply_ids]; [done|]. unfold apply_since. destruct (d !! id); [apply IH|].
  destruct ((mx <=? 0) || (held + 1 <=? mx)) eqn:E; [apply IH|]. intros _. apply orb_false_iff in E as [E%Z.leb_gt _]. lia.
Qed.

Lemma since_entry_budget mx te d held d' held' : since_entry mx te d held = (d', held', false) -> 0 < mx.
Proof.
  unfold since_entry. destruct (apply_ids mx dispCreated (lt_Created te) d held) as [[d1 h1] ok1] eqn:E1.
  destruct ok1; [|intros _; apply (apply_ids_budget mx dispCreated (lt_Created te) d held); by rewrite E1].
  destruct (apply_ids mx dispUpdated (lt_Updated te) d1 h1) as [[d2 h2] ok2] eqn:E2.
  destruct ok2; [|intros _; apply (apply_ids_budget mx dispUpdated (lt_Updated te) d1 h1); by rewrite E2].
  intros E3. apply (apply_ids_budget mx dispDestroyed (lt_Destroyed te) d2 h2). by rewrite E3.
Qed.

Lemma wnets_reports E0 E1 T d :
  wnets E0 E1 T d -> reports E0 E1 T (ids_with dispCreated d) (ids_with dispUpdated d) (ids_with dispDestroyed d).
Proof.
  intros Hn. constructor; [..|split_and!; apply ids_with_sorted]; intros id; rewrite elem_of_ids_with; specialize (Hn id);
    destruct (d !! id) as [[]|]; destruct (bool_decide_reflect (id ∈ E0)), (bool_decide_reflect (id ∈ E1)), (bool_decide_reflect (id ∈ T)); cbn in Hn; naive_solver.
Qed.

(** ** The walk *)

Section walk.
Context `{MR : MapRange, TP : TimeParse, CF : CaseFold, LC : LogCodec, LL : !LogCodecLaws}.
Variable acct : Id.
Variable n : bytes.

(** The walk of one type, so far. *)
Record walked (E0 E T : gset Id) (st : WalkState) : Prop := mkWalked {
  wk_disp : exists d, w_disp st = {[n := d]} /\ wnets E0 E T d;
  wk_fine : w_budgetHit st = false /\ w_err st = None;
}.

Lemma range_map_singleton {A} (k : bytes) (a : A) : range_map {[k := a]} = [(k, a)].
Proof.
  pose proof (range_map_perm A {[k := a]}) as Hp. rewrite map_to_list_singleton in Hp. symmetry in Hp. by apply Permutation_singleton_l in Hp.
Qed.

Lemma walk_entry E0 E T mx e st :
  walked E0 E T st -> (forall te, le_Types e !! n = Some te -> coherent E te) ->
  let st' := since_types mx e (range_map (w_disp st)) st in
  (w_budgetHit st' = true /\ 0 < mx) \/
  match le_Types e !! n with Some te => walked E0 (evolve E te) (T ∪ touches te) st' | None => walked E0 E T st' end.
Proof.
  intros [(d & Ed & Hn) [Hb He]] Hco. rewrite Ed, range_map_singleton. cbn [since_types]. destruct (le_Types e !! n) as [te|] eqn:Et; [|right; constructor; eauto].
  destruct (since_entry mx te d (w_held st)) as [[d' h'] ok] eqn:Es. destruct ok; cbn [negb]; [right|left; split; [done|by eapply since_entry_budget]]. constructor; [|done].
  exists d'. cbn [w_disp]. rewrite Ed, insert_singleton_eq. split; [done|]. by eapply wnets_entry; [apply Hco| |exact Es].
Qed.

Lemma walk_scan E0 E T upTo mx log st E1 T1 :
  (forall ze, ze ∈ log -> is_int64 ze.1 /\ ze.1 <= upTo) -> walked E0 E T st -> history E (tes n log) E1 T1 ->
  let st' := scan_fold (since_step upTo mx) (map (stored acct) log) st in
  (w_budgetHit st' = true /\ w_err st' = None /\ 0 < mx) \/ walked E0 E1 (T ∪ T1) st'.
Proof.
  revert E T st T1. induction log as [|[z e] log IH]; intros E T st T1 Hr Hw Hh.
  { cbn in Hh. destruct Hh as [-> ->]. right. by rewrite (right_id_L ∅ (∪)). }
  change (map (stored acct) ((z, e) :: log)) with ((logKey acct z, Some (marshalLog e)) :: map (stored acct) log). cbn [scan_fold]. cbv zeta.
  destruct (Hr (z, e)) as [Hz Hup]; [by left|]. cbn [fst] in *. set (st1 := since_types mx e (range_map (w_disp st)) st).
  assert (Hs : since_step upTo mx st (logKey acct z) (Some (marshalLog e)) = (st1, negb (w_budgetHit st1))).
  { unfold since_step. rewrite seqFromLogKey_logKey by done. rewrite (proj2 (Z.ltb_ge upTo z)) by done.
    change (sbytes (Some (marshalLog e))) with (marshalLog e). by rewrite unmarshal_marshal. }
  rewrite Hs.
  assert (Hco : forall te, le_Types e !! n = Some te -> coherent E te).
  { intros te Ete. unfold tes in Hh. cbn [omap list_omap snd] in Hh. rewrite Ete in Hh. by destruct Hh. }
  pose proof (walk_entry E0 E T mx e st Hw Hco) as Hstep. cbv zeta in Hstep. fold st1 in Hstep.
  destruct (w_budgetHit st1) eqn:Eb; cbn [negb].
  { left. split; [done|]. split; [|destruct Hstep as [[_ ?]|Hstep]; [done|destruct (le_Types e !! n); destruct Hstep as [_ [? _]]; congruence]]. unfold st1. destruct Hw as [(d & Ed & _) [_ He]]. rewrite Ed, range_map_singleton. cbn [since_types].
    destruct (le_Types e !! n); [|done]. destruct (since_entry _ _ _ _) as [[d' h'] []]; done. }
  destruct Hstep as [[? _]|Hstep]; [done|]. unfold tes in Hh. cbn [omap list_omap snd] in Hh. destruct (le_Types e !! n) as [te|] eqn:Et.
  - destruct Hh as (_ & T' & Hh & ->). rewrite (assoc_L (∪)). apply (IH (evolve E te)); [|done|done]. intros ze Hin. apply Hr. by right.
  - apply (IH E); [|done|done]. intros ze Hin. apply Hr. by right.
Qed.
End walk.

(** ** ChangedSince over an unchanging store *)

Section since.
Context `{MR : MapRange, TP : TimeParse, CF : CaseFold, LC : LogCodec, LL : !LogCodecLaws}.
Context {S : Type} `{BE : Backend S, BL : !BackendLaws S}.
Variable db : DB.
Variable acct : Id.

Lemma ChangedSince_reports s0 s1 n t z log cur z1 E0 E1 T maxBehind maxIds :
  since_log db acct s0 s1 n t z log cur z1 E0 E1 T -> db_types db !! n = Some t ->
  (ChangedSince db s1 s1 s1 s1 acct [n] z maxBehind maxIds = Err ErrCannotCalculateChanges /\ (0 < maxBehind \/ 0 < maxIds)) \/
  exists changed tc, ChangedSince db s1 s1 s1 s1 acct [n] z maxBehind maxIds = Ok (changed, cur) /\ changed !! n = Some tc /\
    reports E0 E1 T (tc_Created tc) (tc_Updated tc) (tc_Destroyed tc).
Proof.
  intros [Hli (Hz64 & Hzr & _) _ _ Hh _ _] Ht. unfold ChangedSince. cbn [existsb]. rewrite Ht. cbn [orb].
  rewrite (proj2 (Z.ltb_ge z 0)) by lia. pose proof (li_seq _ _ _ _ _ Hli) as Hseq. unfold Sequence in Hseq. rewrite Hseq. cbn [mbind result_bind].
  rewrite (proj2 (Z.ltb_ge cur z)) by lia. destruct ((0 <? maxBehind) && (maxBehind <? cur - z)) eqn:Eb.
  { left. split; [done|]. apply andb_true_iff in Eb as [Eb%Z.ltb_lt _]. by left. }
  assert (Hfl : logFloor s1 acct = Ok 0).
  { unfold logFloor. rewrite get_counter_spec by apply Hli. by rewrite (li_floor _ _ _ _ _ Hli). }
  rewrite Hfl. cbn [mbind result_bind]. rewrite int64_small by done. rewrite (proj2 (Z.ltb_ge (z + 1) 0)) by lia.
  rewrite be_Scan_spec, (log_scan_list acct _ log z (li_log _ _ _ _ _ Hli) Hz64) by apply Hli. cbn [mbind result_bind map].
  set (st0 := mkWalk _ 0 false None).
  assert (H0 : walked n E0 E0 ∅ st0).
  { constructor; [|done]. exists ∅. split; [|apply wnets_empty]. cbn [st0 w_disp list_to_map foldr]. by rewrite insert_empty. }
  destruct (walk_scan acct n E0 E0 ∅ cur maxIds (after_seq z log) st0 E1 T) as [(Hb & He & Hmx)|[(d & Ed & Hn) [Hb He]]]; [|done|done| |].
  { intros [z' e] [_ Hin]%list_elem_of_filter. split; [by eapply (lo_range _ _ _ (li_log _ _ _ _ _ Hli))|]. by apply (li_seqs _ _ _ _ _ Hli). }
  - rewrite He, Hb. left. auto.
  - rewrite He, Hb. right. eexists _, _. split; [done|]. rewrite Ed, map_fmap_singleton, lookup_singleton_eq. split; [done|].
    rewrite (left_id_L ∅ (∪)) in Hn. by apply wnets_reports.
Qed.
End since.
End WalkFacts.
