(* ===== verification/Blobs.v ===== *)
(** * Blobs: upload records, references and the sweep (core/objectdb/blobs.go)

    The blob store itself is a provider: [bw.ID] and [bw.Commit] of a writer,
    [Delete] and [AppendDelete] of a store are arguments.  Deletions reach the
    store through the list of ids they were asked for. *)

From S2P Require Import Prelude GoLib Keyenc Backend Jsonscan Jmap Descriptor Keys ObjectDB SetIndex Commit.

Module Blobs.
Import Keyenc Backend Jmap Keys ObjectDB Commit.

(** Times are nanoseconds since the epoch. *)
Record BlobUpload := mkUpload { bu_UploadedAt : Z; bu_Uploaders : list bytes }.

(** [encoding/json] over the upload record. *)
Class UploadCodec := {
  marshalUpload : BlobUpload -> bytes;
  unmarshalUpload : bytes -> option BlobUpload;
}.
Class UploadCodecLaws `{UploadCodec} := {
  unmarshal_marshal_upload : forall r, unmarshalUpload (marshalUpload r) = Some r;
}.

Definition BlobMinUnreferencedAge : Z := 3600 * 1000000000.
Definition maxSweepPerCall : Z := 1024.

Section operations.
Context `{MR : MapRange, TP : TimeParse, CF : CaseFold, LC : LogCodec, UC : UploadCodec}.
Context {S : Type} `{BE : Backend S}.

Definition getBlobUpload (s : S) (acct blobID : Id) : result BlobUpload :=
  match be_Get s (uploadKey acct blobID) with
  | Err BackendErrNotFound => Err ErrNotFound
  | Err e => Err e
  | Ok raw => match unmarshalUpload (sbytes raw) with Some r => Ok r | None => Err (Errorf "invalid upload record") end
  end.

Definition BlobReferenced (s : S) (acct blobID : Id) : result bool :=
  let '(start, end_) := prefixRange [acct; bs "r"; blobID] in
  be_Scan s start end_ false (fun (_ : bool) _ _ => (true, false)) false.

Definition BlobExists (s : S) (acct blobID : Id) : result bool :=
  match getBlobUpload s acct blobID with
  | Err ErrNotFound => Ok false
  | Err e => Err e
  | Ok _ => Ok true
  end.

Definition truncate_second (now : Z) : Z := now / 1000000000 * 1000000000.

Definition recordUpload (s : S) (acct blobID : Id) (uploader : bytes) (now : Z) (fence : Batch -> Batch) : result S :=
  rec ← match getBlobUpload s acct blobID with
        | Err ErrNotFound => Ok (mkUpload 0 [])
        | Err e => Err e
        | Ok r => Ok r
        end;
  let ups := if bool_decide (uploader ∈ bu_Uploaders rec) then bu_Uploaders rec else bu_Uploaders rec ++ [uploader] in
  let raw := marshalUpload (mkUpload (truncate_second now) ups) in
  be_WriteBatch s (fence (Set_ (Set_ [] (uploadKey acct blobID) (Some raw)) (pendingKey acct blobID) None)).

(** The record is written before the writer publishes the content; the store
    is returned on both paths, for a failed publication leaves the record. *)
Definition finalizeBlobUpload (s : S) (acct blobID : Id) (commit : result Id) (uploader : bytes) (now : Z)
  (fence : Batch -> Batch) : S * result Id :=
  match recordUpload s acct blobID uploader now fence with
  | Err e => (s, Err e)
  | Ok s' => match commit with Err e => (s', Err e) | Ok _ => (s', Ok blobID) end
  end.

Definition FinalizeBlobUploadThenUpdate (db : DB) (s : S) (acct blobID : Id) (commit : result Id) (uploader : bytes) (now : Z)
  (fence : Batch -> Batch) (clock : Z) (fn : Update -> result Update) : S * result (Id * result (@Committed S)) :=
  match finalizeBlobUpload s acct blobID commit uploader now fence with
  | (s', Err e) => (s', Err e)
  | (s', Ok b) =>
      match update db s' acct fence clock fn with
      | Ok c => (c_store c, Ok (b, Ok c))
      | Err e => (s', Ok (b, Err e))
      end
  end.

(** ** The sweep *)

(** How the store deletes: into the fenced batch ([blob.BatchDeleter] over
    this backend) or by a call that may fail. *)
Inductive Deleter :=
  | Fenced (append : Batch -> Id -> Id -> result Batch)
  | Direct (del : Id -> Id -> result unit).

(** One candidate: the batch, the ids reported deleted and the ids whose
    content the store was asked to delete. *)
Record SweepState := mkSweep { sw_batch : Batch; sw_deleted : list Id; sw_asked : list Id }.

Definition sweep_delete (d : Deleter) (acct : Id) (st : SweepState) (blobID : Id) : SweepState * result Batch :=
  match d with
  | Fenced append => (st, append (sw_batch st) acct blobID)
  | Direct del =>
      (mkSweep (sw_batch st) (sw_deleted st) (sw_asked st ++ [blobID]),
       match del acct blobID with Ok _ => Ok (sw_batch st) | Err e => Err e end)
  end.

Fixpoint sweep_loop (s : S) (acct : Id) (d : Deleter) (now grace : Z) (candidates : list Id) (st : SweepState)
  : SweepState * result unit :=
  match candidates with
  | [] => (st, Ok tt)
  | blobID :: rest =>
      let drop_hint := mkSweep (Delete (sw_batch st) (pendingKey acct blobID)) (sw_deleted st) (sw_asked st) in
      match getBlobUpload s acct blobID with
      | Err ErrNotFound => sweep_loop s acct d now grace rest drop_hint
      | Err e => (st, Err e)
      | Ok rec =>
          if now - bu_UploadedAt rec <? grace then sweep_loop s acct d now grace rest st
          else
            match BlobReferenced s acct blobID with
            | Err e => (st, Err e)
            | Ok true => sweep_loop s acct d now grace rest drop_hint
            | Ok false =>
                match sweep_delete d acct st blobID with
                | (st', Err e) => (st', Err e)
                | (st', Ok b) =>
                    sweep_loop s acct d now grace rest
                      (mkSweep (Delete (Delete b (uploadKey acct blobID)) (pendingKey acct blobID))
                         (sw_deleted st' ++ [blobID]) (sw_asked st'))
                end
            end
      end
  end.

(** [s_probe] is what the lease-free probe observes, [s] the store under the
    lease.  The first component is the ids asked of the store, whatever the
    outcome; the second the new store, the deleted ids and [more]. *)
Definition SweepBlobs (s_probe s : S) (acct : Id) (d : Deleter) (fence : Batch -> Batch) (now grace0 : Z)
  : list Id * result (S * list Id * bool) :=
  let grace := if grace0 <? BlobMinUnreferencedAge then BlobMinUnreferencedAge else grace0 in
  let '(start, end_) := prefixRange [acct; bs "p"] in
  match be_Scan s_probe start end_ false (fun (_ : bool) _ _ => (false, false)) true with
  | Err e => ([], Err e)
  | Ok true => ([], Ok (s, [], false))
  | Ok false =>
      match be_Scan s start end_ false
              (fun c k _ => let c' := c ++ [idFromObjKey k] in (c', Z.of_nat (length c') <? maxSweepPerCall)) [] with
      | Err e => ([], Err e)
      | Ok candidates =>
          match sweep_loop s acct d now grace candidates (mkSweep [] [] []) with
          | (st, Err e) => (sw_asked st, Err e)
          | (st, Ok _) =>
              (sw_asked st,
               match sw_batch st with
               | [] => Ok (s, [], false)
               | b => s' ← be_WriteBatch s (fence b);
                      Ok (s', sw_deleted st, Z.of_nat (length candidates) =? maxSweepPerCall)
               end)
          end
      end
  end.
End operations.
End Blobs.
