(* ===== verification/BlobFacts.v ===== *)
(** * BlobFacts: the sweep deletes only what nothing needs

    Safety of the sweep - it never asks for the deletion of a referenced or
    recently uploaded blob - and the invariant that makes it complete: every
    upload that nothing refers to carries a pending hint. *)

From S2P Require Import Prelude GoLib Keyenc Backend Batches Memory Jsonscan Jmap Descriptor Keys ObjectDB SetIndex.
From S2P Require Import Commit Indexing CommitFacts Instances CommitIndex Reach CommitLog Blobs.

Module BlobFacts.
Import Keyenc Backend Batches Jsonscan Jmap Descriptor Keys ObjectDB SetIndex Commit Indexing CommitFacts CommitIndex Reach CommitLog Blobs.

(** ** Keys through a batch *)

#[export] Instance Op_eq_dec : EqDecision Op.
Proof. solve_decision. Defined.

Definition sets_key (k : bytes) (ops : Batch) : Prop := exists v, OpSet k v ∈ ops.

(** A key that is deleted and never set is gone. *)
Lemma run_deleted m ops k : OpDelete k ∈ ops -> ~ sets_key k ops -> run m ops !! k = None.
Proof.
  revert m. induction ops as [|op ops IH]; intros m Hin Hno; [by apply not_elem_of_nil in Hin|]. rewrite run_cons.
  assert (Hno' : ~ sets_key k ops) by (intros [v Hv]; apply Hno; exists v; by right).
  assert (Hkeep : forall m', m' !! k = None -> run m' ops !! k = None).
  { intros m' Hm'. destruct (run m' ops !! k) eqn:E; [|done]. exfalso.
    destruct (run_present m' ops k) as [[w Hw]|[w Hw]]; [unfold present; by rewrite E|congruence|]. apply Hno'. by exists w. }
  apply elem_of_cons in Hin as [<-|Hin]; [|by apply IH]. apply Hkeep. cbn. apply lookup_delete_eq.
Qed.

(** A key that is there or gets set, and is never deleted, is there. *)
Lemma run_stays m ops k : OpDelete k ∉ ops -> present m k \/ sets_key k ops -> present (run m ops) k.
Proof.
  revert m. induction ops as [|op ops IH]; intros m Hno Hp; [destruct Hp as [?|[v Hv]]; [done|by apply not_elem_of_nil in Hv]|].
  rewrite run_cons. apply not_elem_of_cons in Hno as [Hne Hno]. apply IH; [done|].
  destruct Hp as [Hp|[v [Hv|Hv]%elem_of_cons]]; [left|left|right; by exists v].
  - destruct op as [k' w|k'|k' w|k' w]; cbn [run_op]; unfold present in *; try done.
    + destruct (decide (k = k')) as [-> |]; [rewrite lookup_insert_eq; eauto|by rewrite lookup_insert_ne].
    + rewrite lookup_delete_ne; [done|]. congruence.
  - subst op. cbn [run_op]. unfold present. rewrite lookup_insert_eq. eauto.
Qed.

(** The family of an account's key is its second segment. *)
Lemma Key_tag_inj acct t t' x y : Key [acct; t] ++ x = Key [acct; t'] ++ y -> t = t'.
Proof.
  rewrite !Key_cons, <- !app_assoc. intros [_ E]%enc_app_inj. rewrite <- ?app_assoc in E. by apply enc_app_inj in E as [-> _].
Qed.

(** ** References and uploads in a store *)

Section store.
Context {S : Type} `{BE : Backend S, BL : !BackendLaws S}.
Variable acct : Id.

(** Some reference key of the blob is stored. *)
Definition referenced (m : kvmap) (b : Id) : Prop := exists tl, present m (Key [acct; bs "r"; b] ++ tl).

Lemma scan_first m start end_ a :
  scan_fold (fun (_ : bool) (_ : bytes) (_ : slice) => (negb a, false)) (range_list m start end_ false) a = negb a <->
  exists k, in_range start end_ k = true /\ present m k.
Proof.
  destruct (range_list m start end_ false) as [|[k v] l] eqn:E; cbn.
  - split; [by destruct a|]. intros (k & Hin & [v Hv]). exfalso.
    assert (Hk : (k, v) ∈ range_list m start end_ false) by (by apply elem_of_range_list). rewrite E in Hk. by apply not_elem_of_nil in Hk.
  - split; [intros _|done]. exists k. assert (Hk : (k, v) ∈ range_list m start end_ false) by (rewrite E; by left).
    apply elem_of_range_list in Hk as [? ?]. split; [done|]. by exists v.
Qed.

Lemma BlobReferenced_spec (s : S) b :
  be_inv s -> exists r, BlobReferenced s acct b = Ok r /\ (r = true <-> referenced (be_map s) b).
Proof.
  intros Hs. unfold BlobReferenced. rewrite (surjective_pairing (prefixRange [acct; bs "r"; b])), be_Scan_spec by done.
  eexists. split; [done|]. rewrite (scan_first (be_map s) _ _ false). unfold referenced. split.
  - intros (k & [tl ->]%PrefixSuccessor_range & Hp). by exists tl.
  - intros [tl Hp]. eexists. split; [|exact Hp]. apply PrefixSuccessor_range. by exists tl.
Qed.
End store.

(** ** Safety *)

Section sweep.
Context `{UC : UploadCodec}.
Context {S : Type} `{BE : Backend S, BL : !BackendLaws S}.
Variable s : S.
Variable acct : Id.
Hypothesis Hs : be_inv s.

(** The blob may be collected: nothing refers to it, and its last upload is
    [grace] or more ago. *)
Definition collectable (now grace : Z) (b : Id) : Prop :=
  ~ referenced acct (be_map s) b /\
  exists raw r, be_map s !! uploadKey acct b = Some raw /\ unmarshalUpload (sbytes raw) = Some r /\ grace <= now - bu_UploadedAt r.

(** A store that deletes through the batch works on its own keys: the content
    families of the account. *)
Definition content_key (k : bytes) : Prop := exists tag tl, k = Key [acct; tag] ++ tl /\ (tag = bs "B" \/ tag = bs "C").
Definition deleter_ok (d : Deleter) : Prop :=
  match d with
  | Direct _ => True
  | Fenced append => forall b id b', append b acct id = Ok b' ->
      exists ops, b' = b ++ ops /\ Forall (fun op => is_add op = false /\ content_key (op_key op)) ops
  end.

(** What a batch of the sweep consists of. *)
Definition sweep_op (now grace : Z) (op : Op) : Prop :=
  is_add op = false /\
  (content_key (op_key op) \/
   (exists b, op = OpDelete (uploadKey acct b) /\ collectable now grace b) \/
   (exists b, op = OpDelete (pendingKey acct b) /\
      (collectable now grace b \/ referenced acct (be_map s) b \/ be_map s !! uploadKey acct b = None))).

(** A hint goes only with its upload record, or when it is stale. *)
Definition hints_kept (ops : Batch) : Prop :=
  forall b, OpDelete (pendingKey acct b) ∈ ops ->
    OpDelete (uploadKey acct b) ∈ ops \/ referenced acct (be_map s) b \/ be_map s !! uploadKey acct b = None.

Record sweep_ok (now grace : Z) (st : SweepState) : Prop := mkSweepOk {
  so_ops : Forall (sweep_op now grace) (sw_batch st);
  so_deleted : Forall (collectable now grace) (sw_deleted st);
  so_asked : Forall (collectable now grace) (sw_asked st);
  so_gone : Forall (fun b => OpDelete (uploadKey acct b) ∈ sw_batch st /\ OpDelete (pendingKey acct b) ∈ sw_batch st) (sw_deleted st);
  so_hints : hints_kept (sw_batch st);
}.

Lemma getBlobUpload_spec b :
  getBlobUpload s acct b = match be_map s !! uploadKey acct b with
    | Some raw => match unmarshalUpload (sbytes raw) with Some r => Ok r | None => Err (Errorf "invalid upload record") end
    | None => Err ErrNotFound end.
Proof. unfold getBlobUpload. rewrite be_Get_spec by done. by destruct (be_map s !! uploadKey acct b). Qed.

Lemma pendingKey_inj b b' : pendingKey acct b = pendingKey acct b' -> b = b'.
Proof. intros E. apply Key_injective in E. by injection E. Qed.

Lemma sweep_snoc now grace b batch :
  Forall (sweep_op now grace) batch ->
  collectable now grace b \/ referenced acct (be_map s) b \/ be_map s !! uploadKey acct b = None ->
  Forall (sweep_op now grace) (Delete batch (pendingKey acct b)).
Proof. intros Hb Hc. rewrite Delete_app. apply Forall_app. split; [done|]. apply Forall_singleton. split; [done|]. right. right. eauto. Qed.

Lemma Forall_in_app {A} (f g : A -> Op) (l : list A) ops ops' :
  Forall (fun b => f b ∈ ops /\ g b ∈ ops) l -> Forall (fun b => f b ∈ ops ++ ops' /\ g b ∈ ops ++ ops') l.
Proof. intros H. eapply Forall_impl; [exact H|]. intros b [? ?]. rewrite !elem_of_app. auto. Qed.

Lemma sweep_drop_hint now grace st b :
  sweep_ok now grace st -> referenced acct (be_map s) b \/ be_map s !! uploadKey acct b = None ->
  sweep_ok now grace (mkSweep (Delete (sw_batch st) (pendingKey acct b)) (sw_deleted st) (sw_asked st)).
Proof.
  intros [H1 H2 H3 H4 H5] Hb. constructor; cbn [sw_batch sw_deleted sw_asked]; [apply sweep_snoc; tauto|done|done| |]; rewrite Delete_app.
  - by apply Forall_in_app.
  - intros b' [Hin|[= E]%list_elem_of_singleton]%elem_of_app; [rewrite elem_of_app; destruct (H5 b' Hin); tauto|].
    apply pendingKey_inj in E as ->. tauto.
Qed.

Lemma sweep_delete_ok d now grace st b st' r :
  deleter_ok d -> sweep_ok now grace st -> collectable now grace b -> sweep_delete d acct st b = (st', r) ->
  Forall (collectable now grace) (sw_asked st') /\
  forall batch, r = Ok batch ->
    sweep_ok now grace (mkSweep (Delete (Delete batch (uploadKey acct b)) (pendingKey acct b)) (sw_deleted st' ++ [b]) (sw_asked st')).
Proof.
  intros Hd [H1 H2 H3 H4 H5] Hc E.
  assert (Hbatch : exists ops, Forall (fun op => is_add op = false /\ content_key (op_key op)) ops /\
            (forall batch, r = Ok batch -> batch = sw_batch st ++ ops) /\ sw_deleted st' = sw_deleted st /\
            Forall (collectable now grace) (sw_asked st')).
  { destruct d as [append|del]; cbn in E; injection E as <- <-.
    - destruct (append (sw_batch st) acct b) as [b'|e] eqn:Ea.
      + destruct (Hd _ _ _ Ea) as (ops & -> & Hops). exists ops. split; [done|]. split; [by intros batch [= <-]|]. done.
      + exists []. split; [constructor|]. done.
    - exists []. split; [constructor|]. rewrite app_nil_r. split; [by destruct (del acct b); [intros batch [= <-]|]|]. cbn.
      split; [done|]. apply Forall_app. split; [done|]. by apply Forall_singleton. }
  destruct Hbatch as (ops & Hops & Hb & Hdel & Hask). split; [done|]. intros batch Hr. specialize (Hb batch Hr) as ->.
  constructor; cbn [sw_batch sw_deleted sw_asked].
  - apply sweep_snoc; [|by left]. rewrite Delete_app, !Forall_app. split; [split; [done|]|].
    + eapply Forall_impl; [exact Hops|]. intros op [? ?]. split; [done|]. by left.
    + apply Forall_singleton. split; [done|]. right. left. eauto.
  - rewrite Hdel. apply Forall_app. split; [done|]. by apply Forall_singleton.
  - done.
  - rewrite !Delete_app, Hdel. apply Forall_app. split; [rewrite <- !app_assoc; by apply Forall_in_app|].
    apply Forall_singleton. rewrite !elem_of_app, !list_elem_of_singleton. auto.
  - intros b'. rewrite !Delete_app, !elem_of_app, !list_elem_of_singleton. intros [[[Hin|Hin]|E1]|[= E1]].
    + destruct (H5 b' Hin); tauto.
    + exfalso. rewrite Forall_forall in Hops. destruct (Hops _ Hin) as (_ & tag & tl & Ek & Htag). cbn [op_key] in Ek.
      symmetry in Ek. apply Key_prefix_inv in Ek as (c & Ek & _). injection Ek as Ek _. subst tag. by destruct Htag.
    + injection E1 as E1. apply Key_injective in E1. by injection E1.
    + apply pendingKey_inj in E1 as ->. tauto.
Qed.

Lemma sweep_loop_ok d now grace cs st st' r :
  deleter_ok d -> sweep_ok now grace st -> sweep_loop s acct d now grace cs st = (st', r) ->
  Forall (collectable now grace) (sw_asked st') /\ (r = Ok tt -> sweep_ok now grace st').
Proof.
  intros Hd. revert st. induction cs as [|b cs IH]; intros st Hst; cbn [sweep_loop].
  { intros [= <- <-]. split; [apply Hst|done]. }
  rewrite getBlobUpload_spec. destruct (be_map s !! uploadKey acct b) as [raw|] eqn:Eu.
  2: { apply IH. apply sweep_drop_hint; auto. }
  destruct (unmarshalUpload (sbytes raw)) as [r0|] eqn:Er; [|intros [= <- <-]; split; [apply Hst|done]].
  destruct (Z.ltb_spec (now - bu_UploadedAt r0) grace) as [Hy|Hy]; [by apply IH|].
  destruct (BlobReferenced_spec acct s b Hs) as (rf & -> & Hrf). destruct rf; [apply IH, sweep_drop_hint; [done|]; left; by apply Hrf|].
  assert (Hc : collectable now grace b).
  { split; [rewrite <- Hrf; done|]. exists raw, r0. split; [done|]. split; [done|lia]. }
  destruct (sweep_delete d acct st b) as [st1 r1] eqn:Ed. destruct (sweep_delete_ok d now grace st b st1 r1 Hd Hst Hc Ed) as [Ha Hb].
  destruct r1 as [batch|e]; [|by intros [= <- <-]]. apply IH. by apply Hb.
Qed.

(** What the whole call did: the deletions it asked for, and on success the
    new store. *)
Lemma SweepBlobs_ok s_probe d fence now grace0 asked r :
  be_inv s_probe -> deleter_ok d -> is_fence fence -> SweepBlobs s_probe s acct d fence now grace0 = (asked, r) ->
  let grace := Z.max grace0 BlobMinUnreferencedAge in
  Forall (collectable now grace) asked /\
  forall s' deleted more, r = Ok (s', deleted, more) ->
    be_inv s' /\ exists ops, be_map s' = run (be_map s) ops /\ Forall (sweep_op now grace) ops /\
      Forall (collectable now grace) deleted /\
      Forall (fun b => OpDelete (uploadKey acct b) ∈ ops /\ OpDelete (pendingKey acct b) ∈ ops) deleted /\ hints_kept ops.
Proof.
  intros Hp Hd Hf. cbv zeta. unfold SweepBlobs.
  assert (Eg : (if grace0 <? BlobMinUnreferencedAge then BlobMinUnreferencedAge else grace0) = Z.max grace0 BlobMinUnreferencedAge)
    by (destruct (Z.ltb_spec grace0 BlobMinUnreferencedAge); lia). rewrite Eg. set (grace := Z.max _ _).
  assert (Hnil : forall s' deleted more, Ok (s, [], false) = Ok (s', deleted, more) ->
    be_inv s' /\ exists ops, be_map s' = run (be_map s) ops /\ Forall (sweep_op now grace) ops /\
      Forall (collectable now grace) deleted /\
      Forall (fun b => OpDelete (uploadKey acct b) ∈ ops /\ OpDelete (pendingKey acct b) ∈ ops) deleted /\ hints_kept ops).
  { intros s' deleted more [= <- <- _]. split; [done|]. exists []. repeat (split; [done|]). by intros b ?%not_elem_of_nil. }
  rewrite (surjective_pairing (prefixRange [acct; bs "p"])), !be_Scan_spec by done. destruct (scan_fold _ _ true).
  { intros [= <- <-]. split; [constructor|exact Hnil]. }
  match goal with |- context [sweep_loop s acct d now grace ?c _] => set (cands := c) end.
  destruct (sweep_loop s acct d now grace cands (mkSweep [] [] [])) as [st r0] eqn:El.
  apply sweep_loop_ok in El as [Ha Hok]; [|done|constructor; [constructor..|by intros b ?%not_elem_of_nil]].
  destruct r0 as [[]|e]; [|by intros [= <- <-]]. specialize (Hok eq_refl). intros [= <- <-]. split; [done|].
  destruct Hok as [H1 H2 _ H4 H5]. intros s' deleted more Hr. destruct (sw_batch st) as [|op ops] eqn:Eb; [by apply (Hnil s' deleted more)|].
  rewrite <- Eb in *. apply result_bind_Ok in Hr as (s1 & Hw & [= <- <- _]). destruct (Hf (sw_batch st)) as (asserts & E & Has).
  rewrite E in Hw. apply WriteBatch_run in Hw as [Hi Hm]; [|done|].
  - split; [done|]. exists (sw_batch st). rewrite Hm, run_app, (run_asserts _ _ Has). done.
  - apply no_adds_app. split; [|by apply is_assert_no_adds]. eapply Forall_impl; [exact H1|]. by intros op' [? _].
Qed.

(** Sweep operations write nothing, and touch only content, uploads, hints. *)
Lemma sweep_ops_sets now grace ops k : Forall (sweep_op now grace) ops -> sets_key k ops -> content_key k.
Proof.
  intros Hf [v Hv]. rewrite Forall_forall in Hf. destruct (Hf _ Hv) as (_ & [?|[(b & ? & _)|(b & ? & _)]]); done.
Qed.

Lemma content_not k tag rest : content_key k -> k = Key (acct :: tag :: rest) -> tag = bs "B" \/ tag = bs "C".
Proof.
  intros (tag' & tl & -> & Ht) E. apply Key_prefix_inv in E as (c & E & _). injection E as -> _. done.
Qed.

Lemma upload_not_content b : ~ content_key (uploadKey acct b).
Proof. intros H. apply (content_not _ (bs "u") [b]) in H as [?|?]; done. Qed.
Lemma pending_not_content b : ~ content_key (pendingKey acct b).
Proof. intros H. apply (content_not _ (bs "p") [b]) in H as [?|?]; done. Qed.

(** Everything else of the account is left alone. *)
Lemma sweep_ops_frame now grace ops k :
  Forall (sweep_op now grace) ops -> ~ content_key k ->
  (forall b, k = uploadKey acct b -> ~ collectable now grace b) -> (forall b, k <> pendingKey acct b) ->
  run (be_map s) ops !! k = be_map s !! k.
Proof.
  intros Hf Hc Hu Hp. apply run_untouched. eapply Forall_impl; [exact Hf|]. intros op (_ & [H|[(b & -> & H)|(b & -> & _)]]) E.
  - subst k. done.
  - cbn in E. by eapply Hu.
  - cbn in E. by eapply Hp.
Qed.

(** ** Hints *)

(** Every upload that nothing refers to has a pending hint. *)
Definition hint_inv (m : kvmap) : Prop :=
  forall b, present m (uploadKey acct b) -> referenced acct m b \/ present m (pendingKey acct b).

Lemma sweep_hints now grace ops :
  Forall (sweep_op now grace) ops -> hints_kept ops -> hint_inv (be_map s) -> hint_inv (run (be_map s) ops).
Proof.
  intros Hf Hk Hh b Hu.
  assert (Hnset : forall k, ~ content_key k -> ~ sets_key k ops) by (intros k Hc Hset; eapply sweep_ops_sets in Hset; eauto).
  assert (Hu0 : present (be_map s) (uploadKey acct b)).
  { apply run_present in Hu as [?|Hset]; [done|]. exfalso. by eapply (Hnset _ (upload_not_content b)). }
  assert (Hnd : OpDelete (uploadKey acct b) ∉ ops).
  { intros Hin. apply (run_deleted (be_map s)) in Hin; [|apply Hnset, upload_not_content]. unfold present in Hu. rewrite Hin in Hu. by destruct Hu. }
  assert (Href : referenced acct (be_map s) b -> referenced acct (run (be_map s) ops) b).
  { intros [tl Hp]. exists tl. unfold present in *. rewrite (sweep_ops_frame now grace); [done|done| | |].
    - intros (tag & tl' & E & Ht). assert (E' : Key [acct; tag] ++ tl' = Key [acct; bs "r"] ++ (Key [b] ++ tl)).
      { rewrite <- E, app_assoc, <- Key_app. done. }
      apply Key_tag_inj in E' as ->. by destruct Ht.
    - intros b' E. apply Key_prefix_inv in E as (c & E & _). by injection E.
    - intros b' E. apply Key_prefix_inv in E as (c & E & _). by injection E. }
  destruct (Hh b Hu0) as [Hr|Hp]; [left; by apply Href|].
  destruct (decide (Exists (fun op => op_key op = pendingKey acct b) ops)) as [He|He].
  - apply Exists_exists in He as (op & Hin & Ek). rewrite Forall_forall in Hf. destruct (Hf op Hin) as (_ & [H|[(b' & -> & _)|(b' & -> & _)]]).
    + rewrite Ek in H. by apply pending_not_content in H.
    + apply Key_injective in Ek. by injection Ek.
    + apply pendingKey_inj in Ek as ->. destruct (Hk b Hin) as [?|[Hr|Hn]]; [done|left; by apply Href|].
      unfold present in Hu0. rewrite Hn in Hu0. by destruct Hu0.
  - right. unfold present. rewrite run_untouched; [done|]. apply Forall_Exists_neg in He. done.
Qed.
End sweep.

(** ** Hints of a commit *)

Section commit_hints.
Context `{MR : MapRange, TP : TimeParse, CF : CaseFold, LC : LogCodec}.
Variable acct : Id.

(** A dropped reference leaves a hint; a hint is dropped only for a blob that
    satisfies [R]. *)
Record hinted (R : Id -> Prop) (ops : Batch) : Prop := mkHinted {
  hd_drop : forall b tl, OpDelete (Key [acct; bs "r"; b] ++ tl) ∈ ops -> sets_key (pendingKey acct b) ops;
  hd_hint : forall b, OpDelete (pendingKey acct b) ∈ ops -> R b;
}.

Lemma hinted_app R a b : hinted R a -> hinted R b -> hinted R (a ++ b).
Proof.
  intros [A1 A2] [B1 B2]. constructor.
  - intros x tl [Hin|Hin]%elem_of_app; [destruct (A1 _ _ Hin) as [v Hv]|destruct (B1 _ _ Hin) as [v Hv]]; exists v; rewrite elem_of_app; auto.
  - intros x [Hin|Hin]%elem_of_app; auto.
Qed.

Lemma hinted_mono (R R' : Id -> Prop) ops : (forall b, R b -> R' b) -> hinted R ops -> hinted R' ops.
Proof. intros HR [H1 H2]. constructor; [done|]. auto. Qed.

(** Operations outside the reference and hint families. *)
Definition foreign (k : bytes) : Prop := (forall b tl, k <> Key [acct; bs "r"; b] ++ tl) /\ (forall b, k <> pendingKey acct b).

Lemma hinted_foreign R ops : Forall (fun op => foreign (op_key op)) ops -> hinted R ops.
Proof.
  intros Hf. rewrite Forall_forall in Hf. constructor; [intros b tl Hin|intros b Hin]; exfalso; destruct (Hf _ Hin) as [H1 H2]; cbn in *;
    [by eapply H1|by eapply H2].
Qed.

Lemma foreign_tag tag rest : tag <> bs "r" -> tag <> bs "p" -> foreign (Key (acct :: tag :: rest)).
Proof.
  intros H1 H2. split.
  - intros b tl E. symmetry in E. apply Key_prefix_inv in E as (c & E & _). by injection E.
  - intros b E. apply Key_injective in E. by injection E.
Qed.

Lemma extends_foreign R b b' : extends foreign b b' -> exists ops, b' = b ++ ops /\ hinted R ops.
Proof.
  intros (ops & -> & Hf). exists ops. split; [done|]. apply hinted_foreign. eapply Forall_impl; [exact Hf|]. by intros op [_ ?].
Qed.

Lemma elem_of_concat_map {A B} (f : A -> list B) l x : x ∈ concat (map f l) <-> exists y, y ∈ l /\ x ∈ f y.
Proof.
  rewrite list_elem_of_In, in_concat. split.
  - intros (ys & (y & <- & Hy)%in_map_iff & Hx). exists y. by rewrite !list_elem_of_In.
  - intros (y & Hy & Hx). exists (f y). split; [|by apply list_elem_of_In]. apply in_map_iff. exists y. by rewrite <- list_elem_of_In.
Qed.

Lemma refOps_hinted t id old new b :
  exists ops, refOps b acct t id old new = b ++ ops /\ hinted (fun x => has_ref (blobRefsOf t new) x = true) ops.
Proof.
  unfold refOps. rewrite fold_refs_old, fold_refs_new, <- app_assoc. eexists. split; [done|]. apply hinted_app; constructor.
  - intros x tl (y & Hy & [[= E]|[?|?%not_elem_of_nil]%elem_of_cons]%elem_of_cons)%elem_of_concat_map; [|done|done].
    apply Key_prefix_inv in E as (c & E & _). injection E as -> _. exists None. apply elem_of_concat_map.
    exists x. split; [done|]. right. by left.
  - intros x (y & Hy & [[= E]|[?|?%not_elem_of_nil]%elem_of_cons]%elem_of_cons)%elem_of_concat_map; [|done|done].
    apply Key_injective in E. by injection E.
  - intros x tl (y & Hy & [?|[[= E]|?%not_elem_of_nil]%elem_of_cons]%elem_of_cons)%elem_of_concat_map; [done| |done].
    apply Key_prefix_inv in E as (c & E & _). by injection E.
  - intros x (y & Hy & [?|[[= E]|?%not_elem_of_nil]%elem_of_cons]%elem_of_cons)%elem_of_concat_map; [done| |done].
    apply pendingKey_inj in E as <-. apply list_elem_of_In, filter_In in Hy as [Hy _]. by apply has_ref_elem, list_elem_of_In.
Qed.

(** The other index families are foreign. *)
Lemma index_extends_foreign t id old new b ps b' :
  fold_props (index_prop acct t id old new) ps b = Ok b' -> extends foreign b b'.
Proof.
  apply fold_props_extends. clear b b'. intros b [name p] b'. unfold index_prop. destruct (negb _); [intros [= <-]; apply extends_refl|].
  assert (Hf : forall v ord, foreign (idxKey acct (t_Name t) name v ord id)) by (intros; by apply foreign_tag).
  intros (ov & _ & (nv & _ & Hr)%result_bind_Ok)%result_bind_Ok. destruct ov as [ov|], nv as [nv|].
  - destruct (bool_decide _); [injection Hr as <-; apply extends_refl|].
    apply result_bind_Ok in Hr as (ord & _ & [= <-]). apply extends_Set, extends_Delete, extends_refl; auto.
  - apply result_bind_Ok in Hr as (ord & _ & [= <-]). apply extends_Delete, extends_refl; auto.
  - apply result_bind_Ok in Hr as (ord & _ & [= <-]). apply extends_Set, extends_refl; auto.
  - injection Hr as <-. apply extends_refl.
Qed.

Lemma set_extends_foreign t id old new b ps b' :
  fold_props (set_index_prop acct t id old new) ps b = Ok b' -> extends foreign b b'.
Proof.
  apply fold_props_extends. clear b b'. intros b [name p] b'. unfold set_index_prop. destruct (negb _); [intros [= <-]; apply extends_refl|].
  destruct (bool_decide _); [intros [= <-]; apply extends_refl|].
  intros (oldM & _ & (newM & _ & [= <-])%result_bind_Ok)%result_bind_Ok. unfold member_ops.
  assert (Hf : forall v, foreign (idxKey acct (t_Name t) name v [] id)) by (intros; by apply foreign_tag).
  eapply extends_trans; [|apply extends_fold; intros b1 m _; destruct (contains _ _); [apply extends_refl|apply extends_Set, extends_refl; auto]].
  apply extends_fold; intros b1 m _; destruct (contains _ _); [apply extends_refl|apply extends_Delete, extends_refl; auto].
Qed.

Lemma record_indexes_hinted b t id old new b' :
  record_indexes b acct t id old new = Ok b' -> exists ops, b' = b ++ ops /\ hinted (fun x => has_ref (blobRefsOf t new) x = true) ops.
Proof.
  intros (b1 & H1%index_extends_foreign & H2%set_extends_foreign)%result_bind_Ok.
  apply (extends_foreign (fun x => has_ref (blobRefsOf t new) x = true)) in H1 as (o1 & -> & Ho1).
  destruct (refOps_hinted t id old new (b ++ o1)) as (o2 & E & Ho2). rewrite E in H2.
  apply (extends_foreign (fun x => has_ref (blobRefsOf t new) x = true)) in H2 as (o3 & -> & Ho3).
  exists (o1 ++ o2 ++ o3). rewrite <- !app_assoc. split; [done|]. by repeat apply hinted_app.
Qed.

Lemma stage_record_hinted db b types st b' types' :
  stage_record db acct (b, types) st = Ok (b', types') ->
  exists ops, b' = b ++ ops /\ hinted (fun x => has_ref (blobRefsOf (type_of db st) (st_new st)) x = true) ops.
Proof.
  set (R := fun x => has_ref (blobRefsOf (type_of db st) (st_new st)) x = true).
  assert (Hobj : forall op, op_key op = objKey acct (st_typeName st) (st_id st) -> hinted R [op]).
  { intros op E. apply hinted_foreign, Forall_singleton. rewrite E. by apply foreign_tag. }
  unfold stage_record. fold (type_of db st). destruct (_ && _); [intros [= <- _]; exists []; rewrite app_nil_r; split; [done|by apply hinted_foreign]|].
  destruct (st_new st) as [new|] eqn:En.
  - intros (raw & _ & Hr)%result_bind_Ok.
    assert (Hr' : exists old b1, record_indexes (Set_ b (objKey acct (st_typeName st) (st_id st)) (Some raw)) acct (type_of db st) (st_id st) old (Some new) = Ok b1 /\ b' = b1).
    { destruct (st_created st); apply result_bind_Ok in Hr as (b1 & H1 & Hr); [|destruct (st_quiet st)]; injection Hr as <- _; eauto. }
    destruct Hr' as (old & b1 & (ops & -> & Ho)%record_indexes_hinted & ->). eexists. split; [by rewrite Set_app, <- app_assoc|].
    apply hinted_app; [by apply Hobj|done].
  - intros (b1 & (ops & -> & Ho)%record_indexes_hinted & [= <- _])%result_bind_Ok. eexists. split; [by rewrite Delete_app, <- app_assoc|].
    apply hinted_app; [by apply Hobj|done].
Qed.

Lemma stage_records_hinted db sts b types b' types' :
  stage_records db acct sts (b, types) = Ok (b', types') ->
  exists ops, b' = b ++ ops /\ hinted (fun x => exists st, st ∈ sts /\ has_ref (blobRefsOf (type_of db st) (st_new st)) x = true) ops.
Proof.
  revert b types. induction sts as [|st sts IH]; intros b types; cbn [stage_records].
  - intros [= <- _]. exists []. rewrite app_nil_r. split; [done|by apply hinted_foreign].
  - intros ([b1 ty1] & (o1 & -> & H1)%stage_record_hinted & (o2 & -> & H2)%IH)%result_bind_Ok. exists (o1 ++ o2).
    split; [by rewrite app_assoc|]. apply hinted_app.
    + eapply hinted_mono; [|exact H1]. intros x Hx. exists st. split; [by left|done].
    + eapply hinted_mono; [|exact H2]. intros x (st' & Hin & Hx). exists st'. split; [by right|done].
Qed.

Lemma ctl_foreign k : Valid acct = true -> ctl_key acct k -> foreign k.
Proof.
  intros Hv%acct_not_tag [(tg & a & ->)|[(n & ->)|[(z & ->)| ->]]]; try (by apply foreign_tag). split.
  - intros b tl E. symmetry in E. apply Key_prefix_inv in E as (c & E & _). by injection E.
  - intros b E. apply Key_injective in E. by injection E.
Qed.

Lemma buildBatch_hinted db u seq now batch touched :
  Valid acct = true -> buildBatch db acct u seq now = Ok (batch, touched) ->
  hinted (fun x => exists st, st ∈ sorted_staged u /\ has_ref (blobRefsOf (type_of db st) (st_new st)) x = true)
    (Set_ batch (seqKey acct) (Some (EncodeInt64 seq))).
Proof.
  intros Hv (ops & types & post & (rops & -> & Hr)%stage_records_hinted & -> & Hp)%buildBatch_shape.
  assert (Hctl : forall R l, ctl_ops acct l -> hinted R l).
  { intros R l Hl. apply hinted_foreign. eapply Forall_impl; [exact Hl|]. intros op [_ ?]. by apply ctl_foreign. }
  rewrite Set_app. repeat apply hinted_app; [apply Hctl, tag_ops_ctl|done|by apply Hctl|].
  apply Hctl, Forall_singleton. split; [done|]. right. right. by right.
Qed.

Lemma written_not_upload db st b : ~ written_by acct db st (uploadKey acct b).
Proof.
  intros [E|[(name & v & r & E)|[[b' E]|[b' E]]]]; apply Key_injective in E; by injection E.
Qed.
Lemma ctl_not_upload b : Valid acct = true -> ~ ctl_key acct (uploadKey acct b).
Proof.
  intros Hv%acct_not_tag [(tg & a & E)|[(n & E)|[(z & E)|E]]]; apply Key_injective in E; by injection E.
Qed.
End commit_hints.

Section hints.
Context `{MR : MapRange, TP : TimeParse, CF : CaseFold, LC : LogCodec, UC : UploadCodec}.
Context {S : Type} `{BE : Backend S, BL : !BackendLaws S}.
Variable db : DB.
Variable s : S.
Variable acct : Id.
Hypothesis Hdb : db_wf db.
Hypothesis Hacct : Valid acct = true.
Hypothesis Hs : be_inv s.

Lemma commit_hints (Hii : index_inv db acct (be_map s)) u fence now cur fn c :
  is_fence fence -> Sequence s acct = Ok cur -> fn (newUpdate (int64 (cur + 1))) = Ok u ->
  reach db s acct u -> staging_ok db u -> update db s acct fence now fn = Ok c ->
  hint_inv acct (be_map s) -> hint_inv acct (be_map (c_store c)).
Proof.
  intros Hf Hseq Hfn Hr Hok Hc Hh. pose proof (reach_wf db s acct Hs u Hr) as Hu.
  destruct (update_committed db s acct Hdb Hacct Hs Hii u fence now cur fn c) as [_ Hcm]; [done..|].
  destruct (update_inv db s acct u fence now cur fn c) as [[_ ->]|(_ & batch & names & Hb & _ & Hm & _)]; [done..|].
  pose proof (buildBatch_hinted acct db u _ now batch names Hacct Hb) as [Hdrop Hhint]. apply buildBatch_keys in Hb.
  set (ops := Set_ batch (seqKey acct) (Some (EncodeInt64 (int64 (cur + 1))))) in *.
  intros b Hup. assert (Hup0 : present (be_map s) (uploadKey acct b)).
  { unfold present in *. rewrite Hm, run_untouched in Hup; [done|]. apply Forall_app. split.
    - eapply Forall_impl; [exact Hb|]. intros op [_ [Hk|(st & _ & Hk)]] E; rewrite E in Hk; [by eapply ctl_not_upload|by eapply written_not_upload].
    - apply Forall_singleton. intros E. apply Key_injective in E. by injection E. }
  destruct (decide (OpDelete (pendingKey acct b) ∈ ops)) as [Hin|Hno].
  - left. destruct (Hhint b Hin) as (st & Hst & Href). exists (Key [st_typeName st; st_id st]).
    rewrite <- Key_app. change (Key ([acct; bs "r"; b] ++ [st_typeName st; st_id st])) with (refKey acct b (st_typeName st) (st_id st)).
    destruct (cm_staged _ _ _ _ _ Hcm st Hst) as [Hp _].
    assert (Hn : t_Name (type_of db st) = st_typeName st).
    { pose proof (proj1 (proj2 (sorted_staged_spec db acct _ u Hu) st) Hst) as Hst'.
      destruct (uw_staged _ _ _ _ Hu _ _ Hst') as [_ [Ht _ _]]. by destruct (dw_types db Hdb _ _ Ht). }
    rewrite <- Hn. apply Hp; [right; left; by exists b|]. right. left. exists b. by rewrite Hn.
  - destruct (Hh b Hup0) as [[tl Hk]|Hpend].
    + destruct (be_map (c_store c) !! (Key [acct; bs "r"; b] ++ tl)) as [v|] eqn:Ek; [left; exists tl; unfold present; by rewrite Ek|right].
      rewrite Hm in Ek |- *. destruct (decide (OpDelete (Key [acct; bs "r"; b] ++ tl) ∈ ops)) as [Hd|Hd].
      * apply run_stays; [done|]. right. by eapply Hdrop.
      * exfalso. pose proof (run_stays (be_map s) ops _ Hd (or_introl Hk)) as [w Hw]. congruence.
    + right. rewrite Hm. apply run_stays; auto.
Qed.

Lemma upload_hints b uploader now fence s' :
  is_fence fence -> recordUpload s acct b uploader now fence = Ok s' -> hint_inv acct (be_map s) ->
  be_inv s' /\ hint_inv acct (be_map s').
Proof.
  intros Hf Hr Hh. apply result_bind_Ok in Hr as (r & _ & Hw). cbv zeta in Hw. match type of Hw with context [marshalUpload ?x] => set (raw := marshalUpload x) in Hw end.
  destruct (Hf (Set_ (Set_ [] (uploadKey acct b) (Some raw)) (pendingKey acct b) None)) as (asserts & E & Has). rewrite E in Hw.
  apply WriteBatch_run in Hw as [Hi Hm]; [|done|apply no_adds_app; split; [by repeat constructor|by apply is_assert_no_adds]].
  split; [done|]. rewrite Hm, run_app, (run_asserts _ _ Has). unfold run. cbn [fold_left run_op Set_ app].
  assert (Hup_pend : forall b1 b2, uploadKey acct b1 <> pendingKey acct b2) by (intros b1 b2 Ek; apply Key_injective in Ek; by injection Ek).
  assert (Hup_inj : forall b1 b2, b1 <> b2 -> uploadKey acct b1 <> uploadKey acct b2) by (intros b1 b2 Hb Ek; apply Key_injective in Ek; injection Ek; congruence).
  intros b' Hup. destruct (decide (b' = b)) as [-> |Hb].
  - right. unfold present. rewrite lookup_insert_eq. eauto.
  - assert (Hup0 : present (be_map s) (uploadKey acct b')).
    { unfold present in *. rewrite !lookup_insert_ne in Hup; [done|by apply Hup_inj, not_eq_sym|by apply not_eq_sym]. }
    destruct (Hh b' Hup0) as [[tl Hk]|Hp]; [left; exists tl|right]; unfold present in *.
    + rewrite !lookup_insert_ne; [done| |]; intros Ek; symmetry in Ek; apply Key_prefix_inv in Ek as (c & Ek & _); by injection Ek.
    + rewrite !lookup_insert_ne; [done|done|]. intros Ek. apply pendingKey_inj in Ek. congruence.
Qed.
End hints.

(** ** The example *)

Section demo.
#[local] Existing Instances map_order Instances.demo_codec Instances.demo_time Instances.demo_fold Memory.memory_backend Memory.memory_laws.
Import Instances.

#[export] Instance BlobUpload_eq_dec : EqDecision BlobUpload.
Proof. solve_decision. Defined.
#[export] Instance BlobUpload_countable : Countable BlobUpload.
Proof. refine (inj_countable' (fun r => (bu_UploadedAt r, bu_Uploaders r)) (fun x => mkUpload x.1 x.2) _). by intros []. Defined.

Definition demo_uploads : UploadCodec :=
  {| marshalUpload := count_marshal; unmarshalUpload := fun raw => match count_unmarshal raw with Ok r => Some r | Err _ => None end |}.
#[local] Existing Instance demo_uploads.

(** A blob uploaded at the epoch, and nothing that refers to it. *)
Definition upload_store : Memory.Store := ok_or empty_store (recordUpload empty_store demo_acct (bs "Gb2") (bs "alice") 0 no_fence).
Definition del_ok : Deleter := Direct (fun _ _ => Ok tt).
Definition two_hours : Z := 7200 * 1000000000.

Lemma upload_store_ok : recordUpload empty_store demo_acct (bs "Gb2") (bs "alice") 0 no_fence = Ok upload_store.
Proof. apply ok_or_eq. vm_compute. reflexivity. Qed.

Lemma empty_hints : hint_inv demo_acct (be_map empty_store).
Proof. intros b [v Hv]. change (be_map empty_store) with (∅ : kvmap) in Hv. by rewrite lookup_empty in Hv. Qed.

Lemma upload_store_inv : be_inv upload_store /\ hint_inv demo_acct (be_map upload_store).
Proof.
  eapply (upload_hints (BL := Memory.memory_laws) empty_store demo_acct); [apply Memory.empty_inv|apply no_fence_fence|apply upload_store_ok|apply empty_hints].
Qed.

Definition swept : list Id * result (Memory.Store * list Id * bool) :=
  SweepBlobs upload_store upload_store demo_acct del_ok no_fence two_hours 0.
End demo.



(** C40: no unreferenced blob escapes the sweep.  In every reachable store of an
    account, recording an upload, committing an Update and sweeping all keep
    the invariant that each upload record belongs to a blob that is still
    referenced or carries a pending hint - the only thing the sweep looks
    at. *)
Theorem hints_complete `{MR : MapRange, TP : TimeParse, CF : CaseFold, LC : LogCodec, UC : UploadCodec}
  {S : Type} `{BE : Backend S, BL : !BackendLaws S}
  (db : DB) (s : S) (acct : Id) (fence : Batch -> Batch)
  (Hdb : db_wf db) (Hacct : Valid acct = true) (Hr : account_reach db acct s) (Hf : is_fence fence)
  (Hh : hint_inv acct (be_map s)) :
  (forall b uploader now s', recordUpload s acct b uploader now fence = Ok s' -> hint_inv acct (be_map s')) /\
  (forall now cur fn u c, Sequence s acct = Ok cur -> fn (newUpdate (int64 (cur + 1))) = Ok u -> reach db s acct u -> staging_ok db u ->
     update db s acct fence now fn = Ok c -> hint_inv acct (be_map (c_store c))) /\
  (forall s_probe d now grace asked s' deleted more, be_inv s_probe -> deleter_ok acct d ->
     SweepBlobs s_probe s acct d fence now grace = (asked, Ok (s', deleted, more)) -> hint_inv acct (be_map s')).
Proof.
  destruct (account_reach_inv db acct Hdb Hacct s Hr) as (Hs & Hii & _). split; [|split].
  - intros b uploader now s' Hu. by eapply (upload_hints s acct Hs).
  - intros now cur fn u c Hseq Hfn Hre Hok Hc. by eapply (commit_hints db s acct Hdb Hacct Hs Hii u).
  - intros s_probe d now grace asked s' deleted more Hp Hd E.
    destruct (SweepBlobs_ok s acct Hs s_probe d fence now grace asked _ Hp Hd Hf E) as [_ Hok].
    destruct (Hok s' deleted more eq_refl) as (_ & ops & -> & Hops & _ & _ & Hk). by eapply sweep_hints.
Qed.

Lemma hints_complete_witness :
  hint_inv Instances.demo_acct (@be_map Memory.Store Memory.memory_backend Memory.memory_laws (c_store Instances.demo_c)).
Proof.
  destruct (@hints_complete map_order Instances.demo_time Instances.demo_fold Instances.demo_codec demo_uploads
    Memory.Store Memory.memory_backend Memory.memory_laws Instances.demo_db Instances.empty_store Instances.demo_acct Instances.no_fence) as (_ & H & _).
  - apply Instances.demo_db_wf.
  - vm_compute. reflexivity.
  - apply ar_new; [apply Memory.empty_inv|reflexivity].
  - apply no_fence_fence.
  - apply empty_hints.
  - eapply (H 1700 0 Instances.demo_fn Instances.demo_u).
    + vm_compute. reflexivity.
    + apply Instances.demo_fn_ok.
    + apply Instances.demo_reach.
    + apply demo_staging_ok.
    + apply Instances.demo_update_ok.
Defined.
End BlobFacts.
