(* ===== verification/TrimFacts.v ===== *)
(** * TrimFacts: trimming drops a prefix of the log and says so

    [TrimChanges] deletes a contiguous oldest part of the log and moves the
    floor past it in the same batch, so that a reader either finds every entry
    it needs or is refused. *)

From S2P Require Import Prelude GoLib Keyenc Backend Batches Memory Jsonscan Jmap Descriptor Keys ObjectDB SetIndex.
From S2P Require Import Commit Indexing CommitFacts Instances CommitIndex Reach CommitLog Changes ChangesFacts History.

Module TrimFacts.
Import Keyenc Backend Batches Jsonscan Jmap Descriptor Keys ObjectDB Commit CommitIndex Reach CommitLog Changes ChangesFacts History.

Section trim.
Context `{LC : LogCodec, LL : !LogCodecLaws}.
Variable acct : Id.

(** The whole log, scanned from the start of its family. *)
Lemma log_scan_all m log :
  log_ok acct m log ->
  range_list m (prefixRange [acct; bs "g"]).1 (prefixRange [acct; bs "g"]).2 false = map (stored acct) log.
Proof.
  intros Hlog. pose proof Hlog as [Hsort Hr Hk].
  set (lo := -2 ^ 63 - 1). assert (Hall : after_seq lo log = log).
  { apply list_filter_all, Forall_forall. intros [z e] Hin. specialize (Hr z e Hin). unfold is_int64 in Hr. cbn. unfold lo. lia. }
  rewrite <- Hall at 1. rewrite <- (log_scan_list acct m log lo Hlog) by (unfold is_int64, lo; lia).
  assert (Hkeys : range_keys m (prefixRange [acct; bs "g"]).1 (prefixRange [acct; bs "g"]).2 =
                  range_keys m (logKey acct (lo + 1)) (prefixRange [acct; bs "g"]).2).
  { apply list_filter_ext_in. intros k [v Hv]%elem_of_keys_of. split.
    - intros [tl Etl]%(PrefixSuccessor_range (Key [acct; bs "g"])). destruct (proj1 (Hk k v)) as (z & e & Hin & -> & _); [eauto|].
      specialize (Hr z e Hin). apply logKey_in_range; [unfold is_int64, lo; lia|done|]. unfold is_int64 in Hr. unfold lo. lia.
    - intros [tl ->]%log_range_prefix. apply PrefixSuccessor_range. by exists tl. }
  unfold range_list. by rewrite Hkeys.
Qed.

(** ** Pass one *)

Definition is_expired (retention cutoff : Z) (e : logEntry) : bool :=
  negb ((retention <=? 0) || (le_At e =? 0) || (cutoff <? le_At e)).

(** [count_step] on a decoded entry. *)
Definition count_entry (retention cutoff : Z) (overCap : bool) (st : CountState) (e : logEntry) : CountState * bool :=
  if ct_prefixLive st then (mkCount (ct_total st + 1) (ct_expired st) true (ct_err st), overCap)
  else if is_expired retention cutoff e
  then (mkCount (ct_total st + 1) (ct_expired st + 1) false None, negb ((maxTrimPerCall <=? ct_expired st + 1) && negb overCap))
  else (mkCount (ct_total st + 1) (ct_expired st) true None, overCap).

Fixpoint count_fold (retention cutoff : Z) (overCap : bool) (st : CountState) (log : list (Z * logEntry)) : CountState :=
  match log with
  | [] => st
  | ze :: log' =>
      let r := count_entry retention cutoff overCap st ze.2 in
      if r.2 then count_fold retention cutoff overCap r.1 log' else r.1
  end.

Lemma count_scan retention cutoff overCap st log :
  scan_fold (count_step retention cutoff overCap) (map (stored acct) log) st = count_fold retention cutoff overCap st log.
Proof.
  revert st. induction log as [|[z e] log IH]; intros st; [done|].
  change (map (stored acct) ((z, e) :: log)) with ((logKey acct z, Some (marshalLog e)) :: map (stored acct) log). cbn [scan_fold count_fold snd].
  assert (Hstep : count_step retention cutoff overCap st (logKey acct z) (Some (marshalLog e)) = count_entry retention cutoff overCap st e).
  { unfold count_step, count_entry, is_expired. change (sbytes (Some (marshalLog e))) with (marshalLog e). rewrite unmarshal_marshal.
    destruct (ct_prefixLive st); [done|]. by destruct (_ || _ || _). }
  rewrite Hstep. destruct (count_entry retention cutoff overCap st e) as [st' []]; [|done]. apply IH.
Qed.

(** What pass one knows after the entries [pre]. *)
Record counted (retention cutoff : Z) (overCap : bool) (pre : list (Z * logEntry)) (st : CountState) : Prop := mkCounted {
  cn_err : ct_err st = None;
  cn_total : ct_total st = Z.of_nat (length pre);
  cn_range : 0 <= ct_expired st <= ct_total st;
  cn_live : ct_prefixLive st = false -> ct_expired st = ct_total st;
  cn_expired : Forall (fun ze => is_expired retention cutoff ze.2 = true) (take (Z.to_nat (ct_expired st)) pre);
  cn_stop : ct_prefixLive st = true -> exists ze, pre !! Z.to_nat (ct_expired st) = Some ze /\ is_expired retention cutoff ze.2 = false;
}.

Lemma counted_step retention cutoff overCap pre st ze :
  counted retention cutoff overCap pre st -> counted retention cutoff overCap (pre ++ [ze]) (count_entry retention cutoff overCap st ze.2).1.
Proof.
  intros [He Ht Hr Hl Hx Hst]. unfold count_entry.
  assert (Hkeep : Forall (fun ze => is_expired retention cutoff ze.2 = true) (take (Z.to_nat (ct_expired st)) (pre ++ [ze]))).
  { rewrite take_app_le by lia. done. }
  destruct (ct_prefixLive st) eqn:El.
  { constructor; cbn; rewrite ?length_app; cbn; [done|lia|lia|done|done|].
    intros _. destruct (Hst eq_refl) as (z & Hz & Hn). exists z. split; [|done]. by apply lookup_app_l_Some. }
  specialize (Hl eq_refl).
  destruct (is_expired retention cutoff ze.2) eqn:Ee; constructor; cbn; rewrite ?length_app; cbn; try done; try lia.
  - rewrite take_ge by (rewrite length_app; cbn; lia). rewrite take_ge in Hx by lia.
    apply Forall_app. split; [done|]. by apply Forall_singleton.
  - intros _. exists ze. split; [|done]. rewrite Hl, Ht, Nat2Z.id. by apply list_lookup_middle.
Qed.

(** Where pass one stops: at the end of the log, or, out of the cap's way, at
    the first live entry or with enough to delete. *)
Lemma count_fold_counted retention cutoff overCap pre st log :
  counted retention cutoff overCap pre st ->
  exists p q, log = p ++ q /\ counted retention cutoff overCap (pre ++ p) (count_fold retention cutoff overCap st log) /\
    (q = [] \/ overCap = false /\ (ct_prefixLive (count_fold retention cutoff overCap st log) = true \/
                                   maxTrimPerCall <= ct_expired (count_fold retention cutoff overCap st log))).
Proof.
  revert pre st. induction log as [|ze log IH]; intros pre st Hc; cbn [count_fold].
  - exists [], []. rewrite (app_nil_r pre). split; [done|]. split; [done|]. by left.
  - pose proof (counted_step _ _ _ _ _ ze Hc) as Hc'. destruct (count_entry retention cutoff overCap st ze.2) as [st' go] eqn:E. cbn [fst snd] in *.
    destruct go.
    + destruct (IH _ _ Hc') as (p & q & -> & H1 & H2). exists (ze :: p), q. rewrite <- app_assoc in H1. done.
    + exists [ze], log. split; [done|]. split; [done|]. right. unfold count_entry in E.
      destruct (ct_prefixLive st); [injection E as <- ->; auto|]. destruct (is_expired _ _ _); injection E as <- E; [|auto].
      apply negb_false_iff, andb_true_iff in E as [E1%Z.leb_le E2%negb_true_iff]. cbn. auto.
Qed.

(** ** What may go *)

(** [log] split into the part that goes and the part that stays: everything
    that goes has aged out, or the cap is still full without it; and unless
    the per-call bound was hit, no expired prefix is longer and the cap
    holds. *)
Record trimmed (retention cutoff maxEntries : Z) (log a b : list (Z * logEntry)) : Prop := mkTrimmed {
  tm_split : log = a ++ b;
  tm_bound : Z.of_nat (length a) <= maxTrimPerCall;
  tm_safe : Forall (fun ze => is_expired retention cutoff ze.2 = true) a \/ 0 < maxEntries <= Z.of_nat (length b);
  tm_retention : Z.of_nat (length a) < maxTrimPerCall -> forall p q, log = p ++ q ->
    Forall (fun ze => is_expired retention cutoff ze.2 = true) p -> (length p <= length a)%nat;
  tm_cap : Z.of_nat (length a) < maxTrimPerCall -> 0 < maxEntries -> Z.of_nat (length b) <= maxEntries;
}.

Lemma not_expired_disabled retention cutoff e : retention <= 0 -> is_expired retention cutoff e = false.
Proof. intros H. unfold is_expired. by rewrite (proj2 (Z.leb_le _ _)) by lia. Qed.

(** Distinct sequence numbers of an interval are at most as many as it has. *)
Lemma sorted_span (log : list (Z * logEntry)) lo hi :
  StronglySorted (fun a b => a.1 < b.1) log -> (forall ze, ze ∈ log -> lo <= ze.1 <= hi) -> lo <= hi + 1 ->
  Z.of_nat (length log) <= hi - lo + 1.
Proof.
  intros Hs. revert lo. induction Hs as [|[z e] log Hs IH Hz]; intros lo Hr Hle; cbn [length]; [lia|].
  assert (Hz' : lo <= z <= hi) by (apply (Hr (z, e)); by left).
  assert (Hrest : forall ze, ze ∈ log -> z + 1 <= ze.1 <= hi).
  { intros ze Hin. rewrite Forall_forall in Hz. specialize (Hz ze Hin). cbn in Hz. split; [lia|]. apply Hr. by right. }
  specialize (IH (z + 1) Hrest). lia.
Qed.

Lemma trimmed_nothing retention cutoff maxEntries log :
  (forall p q, log = p ++ q -> Forall (fun ze => is_expired retention cutoff ze.2 = true) p -> p = []) ->
  (0 < maxEntries -> Z.of_nat (length log) <= maxEntries) -> trimmed retention cutoff maxEntries log [] log.
Proof.
  intros Hp Hcap. constructor; [done|cbn; unfold maxTrimPerCall; lia|by left| |auto].
  intros _ p q E Hx. by rewrite (Hp p q E Hx).
Qed.

Definition drop_count (overCap : bool) (maxEntries : Z) (ct : CountState) : Z :=
  let drop1 := if overCap && (ct_expired ct <? ct_total ct - maxEntries) then ct_total ct - maxEntries else ct_expired ct in
  if maxTrimPerCall <? drop1 then maxTrimPerCall else drop1.

(** An expired prefix cannot reach past the first live entry. *)
Lemma expired_prefix retention cutoff overCap log p q p' q' ct :
  log = p ++ q -> counted retention cutoff overCap p ct -> q = [] \/ ct_prefixLive ct = true ->
  log = p' ++ q' -> Forall (fun ze => is_expired retention cutoff ze.2 = true) p' -> Z.of_nat (length p') <= ct_expired ct.
Proof.
  intros E [_ Ht Hr Hl _ Hst] Hstop E' Hx. destruct (Z.le_gt_cases (Z.of_nat (length p')) (ct_expired ct)) as [|Hgt]; [done|exfalso].
  destruct (ct_prefixLive ct) eqn:El.
  - destruct (Hst eq_refl) as (ze & Hze & Hno). assert (Hin : log !! Z.to_nat (ct_expired ct) = Some ze) by (rewrite E; by apply lookup_app_l_Some).
    rewrite E', lookup_app_l in Hin by lia. rewrite Forall_lookup in Hx. specialize (Hx _ _ Hin). cbn in Hx. congruence.
  - destruct Hstop as [-> |]; [|done]. specialize (Hl eq_refl). rewrite app_nil_r in E. subst p. apply (f_equal length) in E'.
    rewrite length_app in E'. lia.
Qed.

Lemma trimmed_count retention cutoff maxEntries overCap room log p q ct :
  log = p ++ q -> counted retention cutoff overCap p ct ->
  q = [] \/ overCap = false /\ (ct_prefixLive ct = true \/ maxTrimPerCall <= ct_expired ct) ->
  overCap = (0 <? maxEntries) && (maxEntries <? room) -> Z.of_nat (length log) <= room ->
  let d := Z.to_nat (drop_count overCap maxEntries ct) in
  (d <= length log)%nat /\ trimmed retention cutoff maxEntries log (take d log) (drop d log).
Proof.
  intros E Hc Hstop Hcap Hroom. pose proof Hc as [_ Ht Hr _ Hx _]. assert (Hlen : length log = (length p + length q)%nat) by (rewrite E; apply length_app).
  assert (Hq : overCap = true -> length q = 0%nat) by (intros ->; destruct Hstop as [-> |[? _]]; done).
  assert (Hmax : overCap = true -> 0 < maxEntries).
  { intros Ho. rewrite Hcap in Ho. apply andb_true_iff in Ho as [Ho _]. lia. }
  assert (Hd : 0 <= drop_count overCap maxEntries ct <= maxTrimPerCall /\
               (drop_count overCap maxEntries ct <= ct_expired ct \/ overCap = true /\ drop_count overCap maxEntries ct <= ct_total ct - maxEntries) /\
               (drop_count overCap maxEntries ct < maxTrimPerCall ->
                  ct_expired ct <= drop_count overCap maxEntries ct /\ (overCap = true -> ct_total ct - maxEntries <= drop_count overCap maxEntries ct))).
  { unfold drop_count, maxTrimPerCall. destruct overCap; cbn [andb].
    - specialize (Hmax eq_refl). destruct (Z.ltb_spec (ct_expired ct) (ct_total ct - maxEntries)); case_match; lia.
    - destruct (Z.ltb_spec 4096 (ct_expired ct)); lia. }
  destruct Hd as (Hd1 & Hd2 & Hd3). generalize dependent (drop_count overCap maxEntries ct). intros d Hd1 Hd2 Hd3 n.
  assert (Hn : (n <= length log)%nat).
  { unfold n. destruct Hd2 as [?|[Ho ?]]; [lia|]. specialize (Hq Ho). specialize (Hmax Ho). lia. }
  split; [done|]. constructor.
  - by rewrite take_drop.
  - rewrite length_take. lia.
  - destruct Hd2 as [Hle|[Ho Hle]].
    + left. unfold n. rewrite E, take_app_le by lia.
      replace (take (Z.to_nat d) p) with (take (Z.to_nat d) (take (Z.to_nat (ct_expired ct)) p)) by (rewrite take_take; f_equal; lia).
      by apply Forall_take.
    + right. specialize (Hq Ho). specialize (Hmax Ho). rewrite length_drop. unfold n. lia.
  - rewrite length_take. intros Hlt p' q' E' Hx'. destruct Hd3 as [Hge _]; [lia|].
    assert (Hs : q = [] \/ ct_prefixLive ct = true) by (destruct Hstop as [?|[_ [?|?]]]; [auto|auto|lia]).
    pose proof (expired_prefix _ _ _ _ _ _ _ _ _ E Hc Hs E' Hx'). lia.
  - rewrite length_take, length_drop. intros Hlt Hm. destruct overCap.
    + specialize (Hq eq_refl). destruct Hd3 as [_ Hge]; [lia|]. specialize (Hge eq_refl). lia.
    + symmetry in Hcap. apply andb_false_iff in Hcap as [?|?]; lia.
Qed.

(** ** Pass two *)

Definition drop_ops (log : list (Z * logEntry)) : Batch := map (fun ze => OpDelete (logKey acct ze.1)) log.

Definition floor_after (a : list (Z * logEntry)) (d : Z) : Z := match last a with Some ze => int64 (ze.1 + 1) | None => d end.

Lemma drop_scan drop a log st :
  (forall ze, ze ∈ log -> is_int64 ze.1) ->
  dr_batch st = drop_ops a -> dr_deleted st = Z.of_nat (length a) -> dr_newFloor st = floor_after a 0 -> dr_deleted st <= drop ->
  let st' := scan_fold (drop_step drop) (map (stored acct) log) st in
  let a' := a ++ take (Z.to_nat (drop - dr_deleted st)) log in
  dr_batch st' = drop_ops a' /\ dr_deleted st' = Z.of_nat (length a') /\ dr_newFloor st' = floor_after a' 0.
Proof.
  revert a st. induction log as [|[z e] log IH]; intros a st Hr Hb Hd Hf Hle.
  { cbn. rewrite take_nil, app_nil_r. done. }
  change (map (stored acct) ((z, e) :: log)) with ((logKey acct z, Some (marshalLog e)) :: map (stored acct) log). cbn [scan_fold].
  destruct (drop_step drop st (logKey acct z) (Some (marshalLog e))) as [st1 go] eqn:Ed.
  unfold drop_step in Ed. destruct (Z.eqb_spec (dr_deleted st) drop) as [E|E]; injection Ed as <- <-; cbn [fst snd].
  - replace (drop - dr_deleted st) with 0 by lia. cbn [take Z.to_nat]. rewrite app_nil_r. done.
  - set (st1 := mkDrop _ _ _).
    assert (H1 : dr_batch st1 = drop_ops (a ++ [(z, e)])) by (unfold drop_ops; rewrite map_app; cbn; rewrite Hb; done).
    destruct (IH (a ++ [(z, e)]) st1) as (R1 & R2 & R3).
    + intros ze Hin. apply Hr. by right.
    + done.
    + cbn. rewrite length_app. cbn. lia.
    + unfold st1, floor_after. cbn [dr_newFloor]. rewrite last_snoc. rewrite seqFromLogKey_logKey; [done|]. apply (Hr (z, e)). by left.
    + cbn. lia.
    + unfold st1 in R1, R2, R3. cbn [dr_deleted] in R1, R2, R3. replace (Z.to_nat (drop - dr_deleted st)) with (Datatypes.S (Z.to_nat (drop - (dr_deleted st + 1)))) by lia.
      cbn [take]. rewrite <- app_assoc in R1, R2, R3. done.
Qed.

(** The log without its first entries. *)
Lemma run_drop_ops m a k : run m (drop_ops a) !! k = if decide (k ∈ map (fun ze => logKey acct ze.1) a) then None else m !! k.
Proof.
  revert m. induction a as [|ze a IH]; intros m; [done|]. cbn [drop_ops map]. rewrite run_cons. fold (drop_ops a). rewrite IH. cbn [run_op].
  destruct (decide (k ∈ map (fun ze => logKey acct ze.1) a)) as [Hin|Hin].
  - rewrite decide_True; [done|by right].
  - destruct (decide (k = logKey acct ze.1)) as [-> |Hne].
    + rewrite decide_True by (by left). apply lookup_delete_eq.
    + rewrite decide_False by (by rewrite elem_of_cons; intros [?|?]). by apply lookup_delete_ne.
Qed.

Lemma log_ok_drop m m' a b :
  log_ok acct m (a ++ b) ->
  (forall tl, m' !! (Key [acct; bs "g"] ++ tl) = run m (drop_ops a) !! (Key [acct; bs "g"] ++ tl)) -> log_ok acct m' b.
Proof.
  intros [Hs Hr Hk] Hm. constructor.
  - by eapply StronglySorted_app_1_r.
  - intros z e Hin. eapply Hr. apply elem_of_app. by right.
  - assert (Hsep : forall z e, (z, e) ∈ b -> logKey acct z ∉ map (fun ze => logKey acct ze.1) a).
    { intros z e Hin ([z' e'] & E & Hin')%list_elem_of_fmap. cbn in E. apply logKey_inj in E; [|eapply Hr, elem_of_app; eauto..].
      pose proof (StronglySorted_app_1_elem_of _ _ _ _ _ Hs Hin' Hin) as Hlt. cbn in Hlt. lia. }
    intros k v. split.
    + intros [Hv [tl ->]]. rewrite Hm, run_drop_ops in Hv. destruct (decide _) as [|Hno]; [done|].
      destruct (proj1 (Hk (Key [acct; bs "g"] ++ tl) v)) as (z & e & [Hin|Hin]%elem_of_app & E & ->); [eauto| |eauto].
      exfalso. apply Hno. rewrite E. apply list_elem_of_fmap. by exists (z, e).
    + intros (z & e & Hin & -> & ->). split; [|exists (Key [EncodeInt64 z]); apply logKey_prefix].
      rewrite logKey_prefix, Hm, run_drop_ops, <- logKey_prefix, decide_False by (by eapply Hsep).
      apply Hk. exists z, e. rewrite elem_of_app. auto.
Qed.

(** ** The operation *)

Context {S : Type} `{BE : Backend S, BL : !BackendLaws S}.

Definition trim_ops (a : list (Z * logEntry)) : Batch :=
  drop_ops a ++ [OpSet (logFloorKey acct) (Some (EncodeInt64 (floor_after a 0)))].

Lemma drop_ops_no_adds a : no_adds (drop_ops a).
Proof. apply Forall_fmap, Forall_forall. done. Qed.

Lemma TrimChanges_effect (s s' : S) fence now retention maxEntries n log fl cur :
  be_inv s -> is_fence fence -> log_ok acct (be_map s) log -> logFloor s acct = Ok fl -> Sequence s acct = Ok cur ->
  (forall ze, ze ∈ log -> Z.max 1 fl <= ze.1 <= cur) -> TrimChanges s acct fence now retention maxEntries = Ok (s', n) ->
  exists a b, trimmed retention ((now - retention) / 1000000) maxEntries log a b /\ n = Z.of_nat (length a) /\ be_inv s' /\
    (a = [] /\ s' = s \/ a <> [] /\ be_map s' = run (be_map s) (trim_ops a)).
Proof.
  intros Hs Hf Hlog Hfl Hseq Hr. unfold TrimChanges. set (cutoff := (now - retention) / 1000000).
  destruct ((retention <=? 0) && (maxEntries <=? 0)) eqn:E0.
  { intros [= <- <-]. exists [], log. apply andb_true_iff in E0 as [E1 E2]. split; [|eauto 6]. apply trimmed_nothing; [|lia].
    intros [|ze p] q _ Hx; [done|]. apply Forall_cons in Hx as [Hx _]. by rewrite not_expired_disabled in Hx by lia. }
  rewrite Hfl. unfold Sequence in Hseq. rewrite Hseq. cbn [mbind result_bind].
  set (oldest := if fl <? 1 then 1 else fl). assert (Ho : oldest = Z.max 1 fl) by (unfold oldest; destruct (Z.ltb_spec fl 1); lia).
  destruct (Z.ltb_spec cur oldest) as [Hlt|Hge].
  { intros [= <- <-]. exists [], log. split; [|eauto 6]. assert (log = []) as ->.
    { destruct log as [|ze log]; [done|]. specialize (Hr ze). assert (Z.max 1 fl <= ze.1 <= cur) by (apply Hr; by left). lia. }
    apply trimmed_nothing; [|cbn; lia]. intros p q E _. symmetry in E. by apply app_nil in E as [-> _]. }
  set (overCap := (0 <? maxEntries) && (maxEntries <? cur - oldest + 1)).
  destruct (prefixRange [acct; bs "g"]) as [start end_] eqn:Ep. rewrite be_Scan_spec by done.
  pose proof (log_scan_all _ _ Hlog) as Hall. rewrite Ep in Hall. cbn [fst snd] in Hall. rewrite Hall, count_scan. cbn [mbind result_bind].
  destruct (count_fold_counted retention cutoff overCap [] (mkCount 0 0 false None) log) as (p & q & E & Hc & Hstop).
  { constructor; cbn; try done; lia. }
  cbn [app] in Hc. generalize dependent (count_fold retention cutoff overCap (mkCount 0 0 false None) log). intros ct Hc Hstop.
  rewrite (cn_err _ _ _ _ _ Hc).
  destruct (trimmed_count retention cutoff maxEntries overCap (cur - oldest + 1) log p q ct E Hc Hstop eq_refl) as [Hd Htr].
  { apply sorted_span; [apply Hlog|intros ze Hin; specialize (Hr ze Hin); lia|lia]. }
  change (if maxTrimPerCall <? _ then _ else _) with (drop_count overCap maxEntries ct).
  generalize dependent (drop_count overCap maxEntries ct). intros d Hd Htr.
  destruct (Z.leb_spec d 0) as [Hle|Hgt].
  { intros [= <- <-]. replace (Z.to_nat d) with 0%nat in Htr by lia. exists [], log. eauto 8. }
  destruct (drop_scan d [] log (mkDrop [] 0 0)) as (R1 & R2 & R3); [|done|done|done|cbn; lia|].
  { intros [z e] Hin. by eapply (lo_range _ _ _ Hlog). }
  cbn [dr_deleted] in R1, R2, R3. rewrite Z.sub_0_r in R1, R2, R3. cbn [app] in R1, R2, R3.
  rewrite be_Scan_spec, Hall by done. cbn [mbind result_bind]. rewrite R1, R2, R3.
  destruct (Z.eqb_spec (Z.of_nat (length (take (Z.to_nat d) log))) 0) as [Hz|Hnz].
  { intros [= <- <-]. exists [], log. assert (Ht : take (Z.to_nat d) log = []) by (apply length_zero_iff_nil; lia). rewrite Ht in Htr.
    pose proof (tm_split _ _ _ _ _ _ Htr) as Hsp. cbn [app] in Hsp. rewrite <- Hsp in Htr. eauto 8. }
  destruct (be_WriteBatch s _) as [s1|] eqn:Ew; [|done]. cbn [mbind result_bind]. intros [= <- <-].
  exists (take (Z.to_nat d) log), (drop (Z.to_nat d) log). split; [done|]. split; [done|].
  destruct (Hf (trim_ops (take (Z.to_nat d) log))) as (asserts & Ef & Ha). unfold Set_ in Ew. fold (trim_ops (take (Z.to_nat d) log)) in Ew. rewrite Ef in Ew.
  apply WriteBatch_run in Ew as [Hi' Hm]; [|done|].
  - split; [done|]. right. split; [by intros Hn; rewrite Hn in Hnz|]. rewrite Hm, run_app. by apply run_asserts.
  - apply no_adds_app. split; [|by apply is_assert_no_adds]. apply no_adds_app. split; [apply drop_ops_no_adds|]. by apply Forall_singleton.
Qed.

Lemma logFloorKey_not_log z : is_int64 z -> logFloorKey acct <> logKey acct z.
Proof. intros _ E. unfold logFloorKey, logKey, key in E. apply Key_injective in E. discriminate. Qed.

(** What the batch changes: the dropped entries and the floor. *)
Lemma run_trim m a k :
  a <> [] -> (forall ze, ze ∈ a -> is_int64 ze.1) ->
  run m (trim_ops a) !! k =
    if decide (k = logFloorKey acct) then Some (Some (EncodeInt64 (floor_after a 0)))
    else if decide (k ∈ map (fun ze => logKey acct ze.1) a) then None else m !! k.
Proof.
  intros Ha Hr. unfold trim_ops. rewrite run_app, run_cons. cbn [run_op]. change (run ?x []) with x.
  destruct (decide (k = logFloorKey acct)) as [-> |Hne]; [by rewrite lookup_insert_eq|].
  rewrite lookup_insert_ne by done. apply run_drop_ops.
Qed.

(** The new floor: what is kept lies at or above it, what went below it. *)
Lemma floor_after_bounds a b fl :
  StronglySorted (fun x y : Z * logEntry => x.1 < y.1) (a ++ b) -> (forall ze, ze ∈ a ++ b -> fl <= ze.1 /\ is_int64 (ze.1 + 1)) ->
  (forall ze, ze ∈ b -> floor_after a fl <= ze.1) /\ (forall ze, ze ∈ a -> ze.1 < floor_after a fl) /\ fl <= floor_after a fl.
Proof.
  intros Hs Hr. unfold floor_after. destruct (last a) as [[z e]|] eqn:El.
  - apply last_Some in El as [a' ->]. cbn [fst].
    assert (Hz : fl <= z /\ is_int64 (z + 1)) by (apply (Hr (z, e)); rewrite !elem_of_app; left; right; by left).
    rewrite int64_small by apply Hz. split; [|split; [|lia]].
    + intros ze Hin. pose proof (StronglySorted_app_1_elem_of _ _ _ (z, e) ze Hs) as Hlt. cbn in Hlt.
      assert (z < ze.1) by (apply Hlt; [apply elem_of_app; right; by left|done]). lia.
    + intros ze [Hin|Hin]%elem_of_app; [|apply list_elem_of_singleton in Hin as ->; cbn; lia].
      apply StronglySorted_app_1_l in Hs. pose proof (StronglySorted_app_1_elem_of _ _ _ ze (z, e) Hs Hin) as Hlt. cbn in Hlt.
      assert (ze.1 < z) by (apply Hlt; by left). lia.
  - apply last_None in El as ->. split; [|split; [by intros ze ?%not_elem_of_nil|lia]].
    intros ze Hin. by apply Hr.
Qed.

Lemma after_seq_dropped a b since f :
  (forall ze, ze ∈ a -> ze.1 < f) -> f <= since + 1 -> after_seq since (a ++ b) = after_seq since b.
Proof.
  intros Ha Hf. unfold after_seq. rewrite filter_app.
  assert (E : filter (fun ze : Z * logEntry => since < ze.1) a = []).
  { apply list_filter_none, Forall_forall. intros ze Hin. specialize (Ha ze Hin). lia. }
  by rewrite E.
Qed.

(** A log range scan reads nothing but log keys. *)
Lemma log_scan_after m log since :
  log_ok acct m log -> is_int64 (since + 1) ->
  range_list m (logKey acct (int64 (since + 1))) (prefixRange [acct; bs "g"]).2 false = map (stored acct) (after_seq since log).
Proof. intros Hlog Hi. rewrite int64_small by done. by apply log_scan_list. Qed.

(** [Changes] depends on the sequence, the floor, the type state and the part
    of the log past the asked state. *)
Lemma Changes_same db (s s' : S) n ss since maxChanges fl fl' log log' :
  be_inv s -> be_inv s' -> parse_state ss = Ok since -> is_int64 (since + 1) ->
  logFloor s acct = Ok fl -> logFloor s' acct = Ok fl' -> fl <= since + 1 -> fl' <= since + 1 ->
  Sequence s' acct = Sequence s acct -> TypeState db s' acct n = TypeState db s acct n ->
  log_ok acct (be_map s) log -> log_ok acct (be_map s') log' -> after_seq since log' = after_seq since log ->
  Changes db s' s' s' s' s' acct n ss maxChanges = Changes db s s s s s acct n ss maxChanges.
Proof.
  intros Hs Hs' Hps Hi Hfl Hfl' Hle Hle' Hseq Hts Hlog Hlog' Haf. unfold Changes, Sequence in *.
  destruct (db_types db !! n); [|done]. rewrite Hps. cbn [mbind result_bind]. rewrite Hseq.
  destruct (get_counter s (seqKey acct) 0) as [cur|]; [|done]. cbn [mbind result_bind]. destruct (cur <? since); [done|].
  rewrite Hfl, Hfl'. cbn [mbind result_bind]. rewrite !be_Scan_spec by done.
  rewrite (log_scan_after _ log'), (log_scan_after _ log), Haf by done. rewrite int64_small by done.
  rewrite !(proj2 (Z.ltb_ge _ _)) by lia. cbn [mbind result_bind].
  destruct (sc_err _); [done|]. cbn [mbind result_bind]. rewrite ?(proj2 (Z.ltb_ge _ _)) by lia. by rewrite Hts.
Qed.

Lemma Changes_below_floor db (s : S) n t ss since maxChanges fl cur :
  db_types db !! n = Some t -> parse_state ss = Ok since -> is_int64 (since + 1) ->
  Sequence s acct = Ok cur -> logFloor s acct = Ok fl -> since + 1 < fl ->
  Changes db s s s s s acct n ss maxChanges = Err ErrCannotCalculateChanges.
Proof.
  intros Ht Hps Hi Hseq Hfl Hlt. unfold Changes, Sequence in *. rewrite Ht, Hps, Hseq. cbn [mbind result_bind].
  destruct (cur <? since); [done|]. rewrite Hfl. cbn [mbind result_bind]. rewrite int64_small by done.
  by rewrite (proj2 (Z.ltb_lt _ _)).
Qed.

(** Every key of the account outside the log and its floor is kept. *)
Lemma run_trim_other m a segs :
  a <> [] -> (forall ze, ze ∈ a -> is_int64 ze.1) -> Key segs <> logFloorKey acct -> (forall z, segs <> [acct; bs "g"; EncodeInt64 z]) ->
  run m (trim_ops a) !! Key segs = m !! Key segs.
Proof.
  intros Ha Hr Hf Hl. rewrite run_trim, decide_False, decide_False; [done| |done..].
  intros ([z e] & E & _)%list_elem_of_fmap. unfold logKey, key in E. apply Key_injective in E. by apply (Hl z).
Qed.
End trim.

(** C38: trimming is safe, complete and honest.  On a log whose entries lie
    between the floor and the sequence, [TrimChanges] removes an oldest part
    [a] of at most 4096 entries and keeps the rest [b]: every removed entry
    has aged out, or the cap is still filled without it; unless the per-call
    bound was reached no longer expired prefix exists and the cap holds; the
    count returned is the number removed.  The floor is the sequence behind
    the last removed entry, the same invariant holds again, and no other key
    changes.  A reader is never given a partial answer: [Changes] from a state
    below the new floor is refused, and from any other state answers exactly
    as before the trim. *)
Theorem trim_safe `{LC : LogCodec, LL : !LogCodecLaws} {S : Type} `{BE : Backend S, BL : !BackendLaws S}
  (acct : Id) (s s' : S) (fence : Batch -> Batch) (now retention maxEntries n fl cur : Z) (log : list (Z * logEntry))
  (Hs : be_inv s) (Hf : is_fence fence) (Hlog : log_ok acct (be_map s) log)
  (Hfl : logFloor s acct = Ok fl) (Hseq : Sequence s acct = Ok cur) (Hcur : is_int64 (cur + 1))
  (Hr : forall ze, ze ∈ log -> Z.max 1 fl <= ze.1 <= cur)
  (Htrim : TrimChanges s acct fence now retention maxEntries = Ok (s', n)) :
  exists a b, trimmed retention ((now - retention) / 1000000) maxEntries log a b /\ n = Z.of_nat (length a) /\
    be_inv s' /\ log_ok acct (be_map s') b /\ logFloor s' acct = Ok (floor_after a fl) /\ Sequence s' acct = Ok cur /\
    (forall ze, ze ∈ b -> Z.max 1 (floor_after a fl) <= ze.1 <= cur) /\
    (forall segs, Key segs <> logFloorKey acct -> (forall z, segs <> [acct; bs "g"; EncodeInt64 z]) -> be_map s' !! Key segs = be_map s !! Key segs) /\
    (forall db name t ss since maxChanges, db_types db !! name = Some t -> parse_state ss = Ok since -> is_int64 (since + 1) ->
       Changes db s' s' s' s' s' acct name ss maxChanges =
         if since + 1 <? floor_after a fl then Err ErrCannotCalculateChanges else Changes db s s s s s acct name ss maxChanges).
Proof.
  destruct (TrimChanges_effect acct s s' fence now retention maxEntries n log fl cur) as (a & b & Htr & Hn & Hs' & Heff); [done..|].
  exists a, b. split; [done|]. split; [done|]. split; [done|]. pose proof (tm_split _ _ _ _ _ _ Htr) as Hsp.
  assert (Hr64 : forall ze, ze ∈ log -> is_int64 ze.1) by (intros [z e] Hin; by eapply (lo_range _ _ _ Hlog)).
  destruct (floor_after_bounds a b fl) as (Hb & Ha & Hle).
  { rewrite <- Hsp. apply Hlog. }
  { intros ze Hin. rewrite <- Hsp in Hin. specialize (Hr ze Hin). specialize (Hr64 ze Hin). unfold is_int64 in *. lia. }
  assert (Hlog' : log_ok acct (be_map s') b /\ logFloor s' acct = Ok (floor_after a fl) /\
    (forall segs, Key segs <> logFloorKey acct -> (forall z, segs <> [acct; bs "g"; EncodeInt64 z]) -> be_map s' !! Key segs = be_map s !! Key segs)).
  { destruct Heff as [[-> ->]|[Hne Hm]]; [cbn [app] in Hsp; by rewrite <- Hsp|].
    assert (Hra : forall ze, ze ∈ a -> is_int64 ze.1) by (intros ze Hin; apply Hr64; rewrite Hsp, elem_of_app; auto).
    split; [|split].
    - eapply (log_ok_drop acct (be_map s) _ a b); [by rewrite <- Hsp|]. intros tl. rewrite Hm, run_trim, run_drop_ops by done.
      rewrite decide_False; [done|]. unfold logFloorKey, key. intros E. apply (Key_prefix_inv [acct; bs "g"]) in E as (rest & E & _). discriminate.
    - unfold logFloor. rewrite get_counter_spec, Hm, run_trim, decide_True by done. change (sbytes (Some ?x)) with x.
      rewrite DecodeInt64_EncodeInt64.
      + unfold floor_after. destruct (last a) eqn:El; [done|]. by apply last_None in El.
      + unfold floor_after. destruct (last a); [apply int64_range|]. unfold is_int64. lia.
    - intros segs H1 H2. rewrite Hm. by apply run_trim_other. }
  destruct Hlog' as (Hlog' & Hfl' & Hkeep). split; [done|]. split; [done|].
  assert (Hk : forall segs, segs !! 1%nat <> Some (bs "g") -> segs <> [acct; bs "f"] -> be_map s' !! Key segs = be_map s !! Key segs).
  { intros segs H1 H2. apply Hkeep; [|by intros z ->]. unfold logFloorKey, key. by intros E%Key_injective. }
  assert (Hseq' : Sequence s' acct = Sequence s acct).
  { unfold Sequence. rewrite !get_counter_spec by done. unfold seqKey, key. by rewrite Hk. }
  split; [by rewrite Hseq'|]. split; [|split; [done|]].
  - intros ze Hin. specialize (Hb ze Hin). assert (Hin' : ze ∈ log) by (rewrite Hsp, elem_of_app; auto). specialize (Hr ze Hin'). lia.
  - intros db name t ss since maxChanges Ht Hps Hi. destruct (Z.ltb_spec (since + 1) (floor_after a fl)) as [Hlt|Hge].
    + eapply Changes_below_floor; [exact Ht|exact Hps|exact Hi|rewrite Hseq'; exact Hseq|exact Hfl'|exact Hlt].
    + apply (Changes_same acct db s s' name ss since maxChanges fl (floor_after a fl) log b); [done..|lia|lia|done| |done|done|].
      * rewrite !(TypeState_spec db _ acct name t) by done. unfold typeStateKey, key. by rewrite Hk.
      * rewrite Hsp. symmetry. by eapply after_seq_dropped.
Qed.
Section demo.
#[local] Existing Instances map_order Instances.demo_time Instances.demo_fold Instances.demo_codec Instances.demo_codec_laws Memory.memory_backend Memory.memory_laws.

(** A store with one commit, trimmed long after it. *)
Definition trim_result : result (Memory.Store * Z) :=
  TrimChanges (c_store Instances.demo_c) Instances.demo_acct Instances.no_fence (10 ^ 18) 1000000000 0.
Definition trim_store : Memory.Store := (ok_or (Instances.empty_store, 0) trim_result).1.

Lemma trim_store_ok : trim_result = Ok (trim_store, 1).
Proof.
  assert (E : snd <$> trim_result = Ok 1) by (vm_compute; reflexivity).
  unfold trim_store. destruct trim_result as [[s z]|]; cbn in *; congruence.
Qed.

Lemma trim_safe_witness :
  exists (a b : list (Z * logEntry)), length a = 1%nat /\ @log_ok Instances.demo_codec Instances.demo_acct (be_map trim_store) b.
Proof.
  assert (Hli0 : log_inv Instances.demo_db Instances.demo_acct Instances.empty_store [] 0).
  { apply log_inv_empty; [apply Instances.demo_db_wf|vm_compute; reflexivity|apply Memory.empty_inv|reflexivity]. }
  assert (Hv : Valid Instances.demo_acct = true) by (vm_compute; reflexivity).
  destruct (steps_log_inv Instances.demo_db Instances.demo_acct Instances.demo_db_wf Hv Instances.empty_store _ [] 0 Hli0 demo_steps) as (new & cur & Hli & _).
  assert (Hc : cur = 1).
  { pose proof (li_seq _ _ _ _ _ Hli) as E. vm_compute in E. by injection E. }
  destruct (@trim_safe Instances.demo_codec Instances.demo_codec_laws Memory.Store Memory.memory_backend Memory.memory_laws
    Instances.demo_acct (c_store Instances.demo_c) trim_store Instances.no_fence (10 ^ 18) 1000000000 0 1 0 cur ([] ++ new)) as (a & b & _ & Hn & _ & Hlog & _).
  - apply Hli.
  - apply no_fence_fence.
  - apply Hli.
  - vm_compute. reflexivity.
  - apply Hli.
  - subst cur. unfold is_int64. lia.
  - intros ze Hin. pose proof (li_seqs _ _ _ _ _ Hli ze Hin). lia.
  - apply trim_store_ok.
  - exists a, b. split; [lia|exact Hlog].
Defined.
End demo.
End TrimFacts.
