(* ===== verification/Sorting.v ===== *)
(** * Sorting: the order of query results
      (core/runtime/query.go: comparators, sortRecords, selectPrefix)

    Comparators decode a record's value once into a [sortValue] and compare
    decoded values.  [sortRecords] sorts a permutation of positions, and when
    only a window of the results is read it selects the window's positions
    first and sorts those.  Index panics are [None]. *)

From S2P Require Import Prelude GoLib Keyenc Backend Jsonscan Jmap Descriptor Keys ObjectDB.

Module Sorting.
Import Backend Jsonscan Jmap Descriptor Keys ObjectDB.

(** What [cmp.Compare], [bytes.Compare] and [strings.Compare] return. *)
Definition sign (c : comparison) : Z := match c with Lt => -1 | Eq => 0 | Gt => 1 end.

(** [slices.SortStableFunc]. *)
Definition at_most {A} (cmp : A -> A -> Z) (x y : A) : Prop := cmp x y <= 0.
#[export] Instance at_most_dec {A} (cmp : A -> A -> Z) : RelDecision (at_most cmp).
Proof. intros x y. unfold at_most. apply Z_le_dec. Defined.
Definition SortStableFunc {A} (cmp : A -> A -> Z) (l : list A) : list A := merge_sort (at_most cmp) l.

(** ** selectPrefix *)

Section select.
Context {A : Type}.
Variable less : A -> A -> Z.

Definition swap (order : list A) (i j : nat) : option (list A) :=
  x ← order !! i; y ← order !! j; Some (<[i := y]> (<[j := x]> order)).

Definition medianOfThree (order : list A) (a b c : nat) : option nat :=
  ob ← order !! b; oa ← order !! a;
  let '(a, b) := if less ob oa <? 0 then (b, a) else (a, b) in
  oc ← order !! c; ob ← order !! b;
  if less oc ob <? 0 then
    let b := c in
    ob ← order !! b; oa ← order !! a;
    Some (if less ob oa <? 0 then a else b)
  else Some b.

(** [for i <= j && less(order[i], pivot) < 0 { i++ }] *)
Fixpoint scan_up (fuel : nat) (order : list A) (pivot : A) (i j : nat) : option nat :=
  match fuel with
  | O => None
  | S fuel' =>
      if (i <=? j)%nat then
        x ← order !! i;
        if less x pivot <? 0 then scan_up fuel' order pivot (S i) j else Some i
      else Some i
  end.

(** [for i <= j && less(order[j], pivot) > 0 { j-- }] *)
Fixpoint scan_down (fuel : nat) (order : list A) (pivot : A) (i j : nat) : option nat :=
  match fuel with
  | O => None
  | S fuel' =>
      if (i <=? j)%nat then
        x ← order !! j;
        if 0 <? less x pivot then scan_down fuel' order pivot i (j - 1) else Some j
      else Some j
  end.

(** The partition loop; [i] stays above the pivot's position, so [j] never
    drops below it. *)
Fixpoint partition_loop (fuel : nat) (order : list A) (pivot : A) (i j : nat) : option (list A * nat) :=
  match fuel with
  | O => None
  | S fuel' =>
      i' ← scan_up fuel order pivot i j;
      j' ← scan_down fuel order pivot i' j;
      if (j' <? i')%nat then Some (order, j')
      else order' ← swap order i' j'; partition_loop fuel' order' pivot (S i') (j' - 1)
  end.

(** [slices.SortStableFunc(order[lo:hi], less)] *)
Definition sort_range (order : list A) (lo hi : nat) : list A :=
  take lo order ++ SortStableFunc less (drop lo (take hi order)) ++ drop hi order.

Fixpoint select_loop (budget : nat) (order : list A) (w lo hi : nat) : option (list A) :=
  if (12 <? hi - lo)%nat then
    match budget with
    | O => Some (sort_range order lo hi)
    | S budget' =>
        mid ← medianOfThree order lo (lo + (hi - lo) / 2) (hi - 1);
        order1 ← swap order lo mid;
        pivot ← order1 !! lo;
        r ← partition_loop (S (S (hi - lo))) order1 pivot (lo + 1) (hi - 1);
        let '(order2, j) := r in
        order3 ← swap order2 lo j;
        if (w <=? j)%nat then select_loop budget' order3 w lo j
        else if (w =? j + 1)%nat then Some order3
        else select_loop budget' order3 w (j + 1) hi
    end
  else Some (sort_range order lo hi).

(** [bits.Len] *)
Definition bits_Len (n : nat) : nat := match n with O => 0 | _ => S (Nat.log2 n) end.

Definition selectPrefix (order : list A) (w : nat) : option (list A) :=
  select_loop (2 * bits_Len (length order)) order w 0 (length order).
End select.

(** ** Comparators *)

Record comparator := mkComparator { c_prop : Property; c_name : bytes; c_descending : bool; c_numeric : bool }.

Record sortValue := mkSortValue {
  sv_present : bool;
  sv_ok : bool;
  sv_isInt : bool;
  sv_num : Z;
  sv_key : bytes;
  sv_digits : bytes;
}.

Definition absentValue : sortValue := mkSortValue false false false 0 [] [].

Fixpoint digit_run (s : bytes) : bytes :=
  match s with c :: s' => if is_digit c then c :: digit_run s' else [] | [] => [] end.

(** [strings.TrimLeft(s, "0")] *)
Fixpoint trim_zeros (s : bytes) : bytes :=
  match s with c :: s' => if c =b "0"%byte then trim_zeros s' else s | [] => [] end.

(** [json.Unmarshal] into a string; [null] leaves it empty, which has no
    digits, as a value that is not a string. *)
Definition leadingDigits (raw : bytes) : option bytes :=
  match JString raw with
  | None => None
  | Some s => match digit_run s with [] => None | run => Some (trim_zeros run) end
  end.

Section comparators.
Context `{TP : TimeParse, CF : CaseFold}.

Definition sortValueOf (c : comparator) (obj : Object) : sortValue :=
  match obj !! c_name c with
  | None => absentValue
  | Some raw =>
      if c_numeric c then
        match leadingDigits raw with
        | Some digits => mkSortValue true true false 0 [] digits
        | None => mkSortValue true false false 0 [] []
        end
      else
        match SortInt (c_prop c) raw with
        | Some n => mkSortValue true true true n [] []
        | None =>
            match SortKey (c_prop c) raw with
            | Err _ => mkSortValue true false false 0 [] []
            | Ok k => mkSortValue true true false 0 k []
            end
        end
  end.

Definition compareDigitRuns (a b : sortValue) : Z :=
  if negb (sv_ok a) && negb (sv_ok b) then 0
  else if negb (sv_ok a) then 1
  else if negb (sv_ok b) then -1
  else if negb (length (sv_digits a) =? length (sv_digits b))%nat then
    if (length (sv_digits a) <? length (sv_digits b))%nat then -1 else 1
  else sign (bcompare (sv_digits a) (sv_digits b)).

Definition compareValues (c : comparator) (a b : sortValue) : Z :=
  if negb (sv_present a) && negb (sv_present b) then 0
  else if sv_present a && sv_present b && negb (c_numeric c) && (negb (sv_ok a) || negb (sv_ok b)) then 0
  else
    let r :=
      if negb (sv_present a) then -1
      else if negb (sv_present b) then 1
      else if c_numeric c then compareDigitRuns a b
      else if sv_isInt a && sv_isInt b then sign (sv_num a ?= sv_num b)
      else sign (bcompare (sv_key a) (sv_key b)) in
    if c_descending c then - r else r.

Definition compare (c : comparator) (a b : Object) : Z := compareValues c (sortValueOf c a) (sortValueOf c b).

(** The raw id member; an absent one reads as empty bytes. *)
Definition raw_id (obj : Object) : bytes := default [] (obj !! bs "id").

(** [ordering]: the core comparators, or a comparison the type supplies (none
    for an empty sort); [o_window] is how many leading results are read, zero
    for all. *)
Record ordering := mkOrdering { o_cmps : option (list comparator); o_less : option (Object -> Object -> Z); o_window : Z }.

Fixpoint chain (cmps : list comparator) (a b : Object) (last : Z) : Z :=
  match cmps with
  | [] => last
  | c :: cmps' => let r := compare c a b in if r =? 0 then chain cmps' a b last else r
  end.

Definition withIdTiebreak (less : option (Object -> Object -> Z)) (a b : Object) : Z :=
  let r := match less with Some f => f a b | None => 0 end in
  if r =? 0 then sign (bcompare (raw_id a) (raw_id b)) else r.

Definition compareFunc (o : ordering) (a b : Object) : Z :=
  match o_cmps o with
  | None => withIdTiebreak (o_less o) a b
  | Some cmps => chain cmps a b (sign (bcompare (raw_id a) (raw_id b)))
  end.

Record QueryRecord := mkQueryRecord { q_Id : Id; q_Obj : Object }.

(** A row of decoded values per record, compared column by column. *)
Fixpoint compare_rows (cmps : list comparator) (vx vy : list sortValue) (last : Z) : Z :=
  match cmps, vx, vy with
  | c :: cmps', a :: vx', b :: vy' => let r := compareValues c a b in if r =? 0 then compare_rows cmps' vx' vy' last else r
  | _, _, _ => last
  end.

(** The comparison of two positions: values, then ids, then the positions.
    Only positions of records are compared. *)
Definition row_at (cmps : list comparator) (values : list (list sortValue)) (x : nat) : list sortValue :=
  default (map (fun _ => absentValue) cmps) (values !! x).
Definition less_at (cmps : list comparator) (values : list (list sortValue)) (ids : list bytes) (x y : nat) : Z :=
  compare_rows cmps (row_at cmps values x) (row_at cmps values y)
    (let r := sign (bcompare (default [] (ids !! x)) (default [] (ids !! y))) in
     if r =? 0 then sign (Nat.compare x y) else r).

Definition sortRecords (o : ordering) (matched : list QueryRecord) : option (list QueryRecord) :=
  match o_cmps o with
  | None => Some (SortStableFunc (fun a b => compareFunc o (q_Obj a) (q_Obj b)) matched)
  | Some cmps =>
      let values := map (fun m => map (fun c => sortValueOf c (q_Obj m)) cmps) matched in
      let ids := map (fun m => raw_id (q_Obj m)) matched in
      let order := seq 0 (length matched) in
      let less := less_at cmps values ids in
      order' ← (if (0 <? o_window o) && (o_window o <? Z.of_nat (length order)) then
                  let w := Z.to_nat (o_window o) in
                  sel ← selectPrefix less order w;
                  Some (SortStableFunc less (take w sel) ++ drop w sel)
                else Some (SortStableFunc less order));
      mapM (fun pos => matched !! pos) order'
  end.

(** [collapseByKey]: the first record of each grouping-key value. *)
Fixpoint collapse_loop (key : bytes) (seen : gset bytes) (matched : list QueryRecord) : list QueryRecord :=
  match matched with
  | [] => []
  | m :: matched' =>
      let k := default [] (q_Obj m !! key) in
      if decide (k ∈ seen) then collapse_loop key seen matched' else m :: collapse_loop key ({[ k ]} ∪ seen) matched'
  end.
Definition collapseByKey (matched : list QueryRecord) (key : bytes) : list QueryRecord := collapse_loop key ∅ matched.
End comparators.
End Sorting.
