(* ===== verification/SortingFacts.v ===== *)
(** * SortingFacts: selection and decorated sorting agree with a plain sort *)

From S2P Require Import Prelude GoLib Keyenc Backend Jsonscan Jsonwords Jsongrammar Jsonobject Jmap Descriptor Keys ObjectDB Instances Sorting.

Module SortingFacts.
Import Backend Jsonscan Jsongrammar Jsonobject Jmap Descriptor Keys ObjectDB Sorting.

(** ** Comparisons *)

(** A three-way comparison that is a strict total order. *)
Record total_cmp {A} (less : A -> A -> Z) : Prop := mkTotal {
  tc_anti : forall x y, 0 < less x y <-> less y x < 0;
  tc_trans : forall x y z, less x y < 0 -> less y z < 0 -> less x z < 0;
  tc_eq : forall x y, less x y = 0 <-> x = y;
}.

Definition before {A} (less : A -> A -> Z) (x y : A) : Prop := less x y < 0.

Section sorted.
Context {A : Type}.
Variable less : A -> A -> Z.
Hypothesis Hless : total_cmp less.

Lemma at_most_before x y : at_most less x y <-> before less x y \/ x = y.
Proof. unfold at_most, before. rewrite <- (tc_eq _ Hless). lia. Qed.

Lemma before_irrefl x : ~ before less x x.
Proof. unfold before. pose proof (proj2 (tc_eq _ Hless x x) eq_refl). lia. Qed.

Lemma before_trans x y z : before less x y -> before less y z -> before less x z.
Proof. apply (tc_trans _ Hless). Qed.

Lemma before_total x y : before less x y \/ x = y \/ before less y x.
Proof. unfold before. rewrite <- (tc_eq _ Hless). pose proof (tc_anti _ Hless x y). lia. Qed.

#[local] Instance at_most_trans : Transitive (at_most less).
Proof. intros x y z. rewrite !at_most_before. intros [?| ->] [?| ->]; eauto using before_trans. Qed.
#[local] Instance at_most_total : Total (at_most less).
Proof. intros x y. rewrite !at_most_before. destruct (before_total x y) as [?|[?|?]]; auto. Qed.

Lemma SortStableFunc_perm l : SortStableFunc less l ≡ₚ l.
Proof. apply merge_sort_Permutation. Qed.

Lemma SortStableFunc_sorted l : NoDup l -> StronglySorted (before less) (SortStableFunc less l).
Proof.
  intros Hn. assert (Hs : StronglySorted (at_most less) (SortStableFunc less l)) by (apply StronglySorted_merge_sort; apply _).
  assert (Hn' : NoDup (SortStableFunc less l)) by (by rewrite SortStableFunc_perm).
  induction Hs as [|x l' Hs IH Hx]; constructor.
  - apply IH. by apply NoDup_cons in Hn' as [_ ?].
  - apply NoDup_cons in Hn' as [Hnx _]. rewrite Forall_forall in *. intros y Hy. specialize (Hx y Hy).
    apply at_most_before in Hx as [?| ->]; done.
Qed.

(** A sorted list is determined by its elements. *)
Lemma sorted_unique l1 l2 : StronglySorted (before less) l1 -> StronglySorted (before less) l2 -> l1 ≡ₚ l2 -> l1 = l2.
Proof.
  intros H1. revert l2. induction H1 as [|x l1 H1 IH Hx]; intros l2 H2 Hp.
  - by apply Permutation_nil_l in Hp.
  - destruct H2 as [|y l2 H2 Hy]; [by apply Permutation_nil_r in Hp|].
    assert (x = y) as ->.
    { assert (Hxin : x ∈ y :: l2) by (rewrite <- Hp; by left). assert (Hyin : y ∈ x :: l1) by (rewrite Hp; by left).
      apply elem_of_cons in Hxin as [?|Hxin]; [done|]. apply elem_of_cons in Hyin as [?|Hyin]; [done|].
      rewrite Forall_forall in *. exfalso. apply (before_irrefl x). eapply before_trans; eauto. }
    f_equal. apply IH; [done|]. by apply Permutation_cons_inv in Hp.
Qed.

(** Splitting a list at the rank [n] of its sort. *)
Definition split_at (l : list A) (n : nat) : Prop :=
  forall i j x y, (i < n <= j)%nat -> l !! i = Some x -> l !! j = Some y -> before less x y.

Lemma split_sorted l n : NoDup l -> (n <= length l)%nat -> split_at l n ->
  SortStableFunc less l = SortStableFunc less (take n l) ++ SortStableFunc less (drop n l).
Proof.
  intros Hn Hle Hsp. pose proof Hn as Hn'. rewrite <- (take_drop n l) in Hn'. apply NoDup_app in Hn' as (Ht & _ & Hd).
  apply sorted_unique.
  - by apply SortStableFunc_sorted.
  - apply StronglySorted_app_2; [|by apply SortStableFunc_sorted..].
    intros x y Hx Hy. rewrite SortStableFunc_perm in Hx. rewrite SortStableFunc_perm in Hy.
    apply list_elem_of_lookup in Hx as [i Hi]. apply list_elem_of_lookup in Hy as [j Hj].
    apply lookup_take_Some in Hi as [Hi Hin]. rewrite lookup_drop in Hj. eapply (Hsp i (n + j)%nat); [lia|done|done].
  - rewrite !SortStableFunc_perm, take_drop. done.
Qed.
End sorted.

(** ** Selection *)

Lemma StronglySorted_at {A} (R : relation A) l i j x y :
  StronglySorted R l -> l !! i = Some x -> l !! j = Some y -> (i < j)%nat -> R x y.
Proof.
  intros Hs. revert i j. induction Hs as [|z l Hs IH Hz]; intros i j Hx Hy Hij; [done|].
  destruct i as [|i], j as [|j]; [lia| |lia|].
  - injection Hx as ->. rewrite Forall_forall in Hz. apply Hz. by eapply list_elem_of_lookup_2.
  - eapply (IH i j); [done|done|lia].
Qed.

Section select.
Context {A : Type}.
Variable less : A -> A -> Z.
Hypothesis Hless : total_cmp less.

Definition transpose (i j k : nat) : nat := if decide (k = i) then j else if decide (k = j) then i else k.

Lemma transpose_inj i j : Inj (=) (=) (transpose i j).
Proof. intros a b. unfold transpose. repeat case_decide; lia. Qed.

Lemma swap_spec (order : list A) i j :
  (i < length order)%nat -> (j < length order)%nat ->
  exists order', swap order i j = Some order' /\ order' ≡ₚ order /\ forall k, order' !! k = order !! transpose i j k.
Proof.
  intros Hi Hj. destruct (lookup_lt_is_Some_2 _ _ Hi) as [x Hx]. destruct (lookup_lt_is_Some_2 _ _ Hj) as [y Hy].
  exists (<[i := y]> (<[j := x]> order)). unfold swap. rewrite Hx, Hy. split; [done|].
  assert (Hk : forall k, <[i := y]> (<[j := x]> order) !! k = order !! transpose i j k).
  { intros k. unfold transpose. destruct (decide (k = i)) as [-> |Hki].
    - rewrite list_lookup_insert_eq by (by rewrite length_insert). done.
    - rewrite list_lookup_insert_ne by done. destruct (decide (k = j)) as [-> |Hkj].
      + by rewrite list_lookup_insert_eq.
      + by rewrite list_lookup_insert_ne. }
  split; [|done]. apply Permutation_inj. split; [by rewrite !length_insert|]. exists (transpose i j). split; [apply transpose_inj|done].
Qed.

Lemma medianOfThree_spec (order : list A) a b c :
  (a < length order)%nat -> (b < length order)%nat -> (c < length order)%nat ->
  exists m, medianOfThree less order a b c = Some m /\ (m = a \/ m = b \/ m = c).
Proof.
  intros Ha Hb Hc. destruct (lookup_lt_is_Some_2 _ _ Ha) as [x Hx]. destruct (lookup_lt_is_Some_2 _ _ Hb) as [y Hy].
  destruct (lookup_lt_is_Some_2 _ _ Hc) as [z Hz]. unfold medianOfThree. rewrite Hx, Hy. cbn.
  destruct (less y x <? 0); cbn; rewrite Hz; cbn; rewrite ?Hx, ?Hy; cbn;
    match goal with |- context [if ?b then _ else Some _] => destruct b end; cbn; rewrite ?Hx, ?Hy, ?Hz; cbn;
    try (destruct (_ <? _)); eauto.
Qed.

(** The part of [order] between [lo] and [hi] in relation to the rest. *)
Definition agree_outside (lo hi : nat) (o o' : list A) : Prop := forall k, (k < lo \/ hi <= k)%nat -> o' !! k = o !! k.

Lemma agree_trans lo hi a b c : agree_outside lo hi a b -> agree_outside lo hi b c -> agree_outside lo hi a c.
Proof. intros H1 H2 k Hk. by rewrite H2, H1. Qed.

Lemma scan_up_spec fuel order pivot i j :
  (S j - i < fuel)%nat -> (j < length order)%nat -> (i <= S j)%nat ->
  exists i', scan_up less fuel order pivot i j = Some i' /\ (i <= i' <= S j)%nat /\
    (forall k x, (i <= k < i')%nat -> order !! k = Some x -> before less x pivot) /\
    (forall x, (i' <= j)%nat -> order !! i' = Some x -> ~ before less x pivot).
Proof.
  revert i. induction fuel as [|fuel IH]; intros i Hf Hj Hi; [lia|]. cbn [scan_up].
  destruct (Nat.leb_spec i j) as [Hle|Hgt].
  - destruct (lookup_lt_is_Some_2 order i) as [x Hx]; [lia|]. rewrite Hx. cbn.
    destruct (Z.ltb_spec (less x pivot) 0) as [Hlt|Hge].
    + destruct (IH (S i)) as (i' & -> & Hr & Hb & Hs); [lia..|]. exists i'. split; [done|]. split; [lia|]. split; [|done].
      intros k y Hk Hy. destruct (decide (k = i)) as [-> |Hne]; [|apply (Hb k); [lia|done]].
      rewrite Hx in Hy. by injection Hy as <-.
    + exists i. split; [done|]. split; [lia|]. split; [intros; lia|]. intros y _ Hy. rewrite Hx in Hy. injection Hy as <-. unfold before. lia.
  - exists i. split; [done|]. split; [lia|]. split; intros; lia.
Qed.

Lemma scan_down_spec fuel order pivot i j :
  (S j - i < fuel)%nat -> (j < length order)%nat -> (1 <= i <= S j)%nat ->
  exists j', scan_down less fuel order pivot i j = Some j' /\ (j' <= j /\ i <= S j')%nat /\
    (forall k x, (j' < k <= j)%nat -> order !! k = Some x -> before less pivot x) /\
    (forall x, (i <= j')%nat -> order !! j' = Some x -> ~ before less pivot x).
Proof.
  revert j. induction fuel as [|fuel IH]; intros j Hf Hj Hi; [lia|]. cbn [scan_down].
  destruct (Nat.leb_spec i j) as [Hle|Hgt].
  - destruct (lookup_lt_is_Some_2 order j) as [x Hx]; [lia|]. rewrite Hx. cbn.
    destruct (Z.ltb_spec 0 (less x pivot)) as [Hlt|Hge].
    + apply (tc_anti _ Hless) in Hlt.
      destruct (IH (j - 1)%nat) as (j' & -> & Hr & Hb & Hs); [lia..|]. exists j'. split; [done|]. split; [lia|]. split; [|done].
      intros k y Hk Hy. destruct (decide (k = j)) as [-> |Hne]; [|apply (Hb k); [lia|done]].
      rewrite Hx in Hy. by injection Hy as <-.
    + exists j. split; [done|]. split; [lia|]. split; [intros; lia|]. intros y _ Hy. rewrite Hx in Hy. injection Hy as <-.
      unfold before. pose proof (tc_anti _ Hless x pivot). lia.
  - exists j. split; [done|]. split; [lia|]. split; intros; lia.
Qed.

(** Between [lo] and [hi], with the pivot at [lo]: the entries below [i] come
    before it and those above [j] after it. *)
Record parted (orig order : list A) (pivot : A) (lo hi i j : nat) : Prop := mkParted {
  pt_perm : order ≡ₚ orig;
  pt_out : agree_outside lo hi orig order;
  pt_pivot : order !! lo = Some pivot;
  pt_i : (lo < i <= S j)%nat;
  pt_j : (j < hi)%nat;
  pt_lo : forall k x, (lo < k < i)%nat -> order !! k = Some x -> before less x pivot;
  pt_hi : forall k x, (j < k < hi)%nat -> order !! k = Some x -> before less pivot x;
}.

Lemma partition_loop_spec fuel orig order pivot lo hi i j :
  NoDup orig -> (hi <= length orig)%nat -> (S j - i < fuel)%nat -> parted orig order pivot lo hi i j ->
  exists order' j', partition_loop less fuel order pivot i j = Some (order', j') /\ parted orig order' pivot lo hi (S j') j'.
Proof.
  intros Hn Hhi. revert order i j. induction fuel as [|fuel IH]; intros order i j Hf [Hp Ho Hpv Hi Hj Hlo Hh]; [lia|].
  assert (Hlen : length order = length orig) by (by rewrite Hp). assert (Hn' : NoDup order) by (by rewrite Hp).
  cbn [partition_loop].
  destruct (scan_up_spec (S fuel) order pivot i j) as (i' & -> & Hi' & Hup & Hstop); [lia..|].
  change (Some i' ≫= ?f) with (f i'). cbv beta.
  destruct (scan_down_spec (S fuel) order pivot i' j) as (j' & -> & Hj' & Hdn & Hstop'); [lia..|].
  change (Some j' ≫= ?f) with (f j'). cbv beta.
  assert (Hpt : parted orig order pivot lo hi i' j').
  { constructor; [done|done|done|lia|lia| |].
    - intros k x Hk Hx. destruct (Nat.lt_ge_cases k i); [apply (Hlo k); [lia|done]|apply (Hup k); [lia|done]].
    - intros k x Hk Hx. destruct (Nat.lt_ge_cases j k); [apply (Hh k); [lia|done]|apply (Hdn k); [lia|done]]. }
  destruct (Nat.ltb_spec j' i') as [Hlt|Hge].
  { exists order, j'. split; [done|]. by replace i' with (S j') in Hpt by lia. }
  destruct (swap_spec order i' j') as (order' & -> & Hp' & Hk'); [lia..|]. change (Some order' ≫= ?f) with (f order'). cbv beta.
  destruct (lookup_lt_is_Some_2 order i') as [x Hx]; [lia|]. destruct (lookup_lt_is_Some_2 order j') as [y Hy]; [lia|].
  assert (Hxp : before less pivot x).
  { destruct (before_total less Hless x pivot) as [Hb|[-> |Hb]]; [exfalso; by apply (Hstop x); [lia| |]| |done].
    pose proof (NoDup_lookup _ _ _ _ Hn' Hx Hpv). lia. }
  assert (Hyp : before less y pivot).
  { destruct (before_total less Hless y pivot) as [Hb|[-> |Hb]]; [done| |exfalso; by apply (Hstop' y); [lia| |]].
    pose proof (NoDup_lookup _ _ _ _ Hn' Hy Hpv). lia. }
  destruct (decide (i' = j')) as [-> |Hne].
  { assert (x = y) as -> by congruence. exfalso. apply (before_irrefl less Hless y). by eapply before_trans. }
  destruct Hpt as [_ _ _ Hi2 Hj2 Hlo2 Hh2]. apply IH; [lia|]. constructor.
  - by rewrite Hp', Hp.
  - intros k Hk. rewrite Hk'. unfold transpose. repeat case_decide; try lia. by apply Ho.
  - rewrite Hk'. unfold transpose. repeat case_decide; try lia. done.
  - lia.
  - lia.
  - intros k z Hk Hz. rewrite Hk' in Hz. unfold transpose in Hz. repeat case_decide; try lia.
    + assert (z = y) as -> by congruence. done.
    + apply (Hlo2 k); [lia|done].
  - intros k z Hk Hz. rewrite Hk' in Hz. unfold transpose in Hz. repeat case_decide; try lia.
    + assert (z = x) as -> by congruence. done.
    + apply (Hh2 k); [lia|done].
Qed.

(** The selection's loop invariant: everything before [lo] comes before what
    follows it, and likewise at [hi]. *)
Lemma sort_range_split order lo hi w :
  NoDup order -> (lo <= w <= hi)%nat -> (hi <= length order)%nat -> split_at less order lo -> split_at less order hi ->
  sort_range less order lo hi ≡ₚ order /\ split_at less (sort_range less order lo hi) w.
Proof.
  intros Hn Hw Hhi Hlo Hh. unfold sort_range.
  set (mid := drop lo (take hi order)). set (smid := SortStableFunc less mid).
  assert (Hmid : take lo order ++ mid ++ drop hi order = order).
  { unfold mid. rewrite app_assoc. replace (take lo order) with (take lo (take hi order)) by (rewrite take_take; f_equal; lia).
    by rewrite take_drop, take_drop. }
  assert (Hsm : smid ≡ₚ mid) by apply SortStableFunc_perm.
  assert (Hnm : NoDup mid).
  { rewrite <- Hmid in Hn. apply NoDup_app in Hn as (_ & _ & Hn). by apply NoDup_app in Hn as (? & _). }
  assert (Hl : length (take lo order) = lo) by (rewrite length_take; lia).
  assert (Hlm : length smid = (hi - lo)%nat) by (rewrite Hsm; unfold mid; rewrite length_drop, length_take; lia).
  assert (Hss : StronglySorted (before less) smid) by (by apply SortStableFunc_sorted).
  split.
  - by rewrite Hsm, Hmid.
  - intros i j x y Hij Hx Hy.
    assert (Hin : forall k z, (take lo order ++ smid ++ drop hi order) !! k = Some z -> (lo <= k < hi)%nat -> exists k', (lo <= k' < hi)%nat /\ order !! k' = Some z).
    { intros k z Hz Hk. rewrite lookup_app_r in Hz by lia. rewrite lookup_app_l in Hz by lia.
      apply list_elem_of_lookup_2 in Hz. rewrite Hsm in Hz. unfold mid in Hz. apply list_elem_of_lookup in Hz as [k' Hz].
      rewrite lookup_drop in Hz. apply lookup_take_Some in Hz as [Hz Hk']. exists (lo + k')%nat. split; [lia|done]. }
    assert (Hpos : forall k z, (take lo order ++ smid ++ drop hi order) !! k = Some z ->
      exists k', order !! k' = Some z /\ ((k < lo)%nat -> k' = k) /\ ((hi <= k)%nat -> k' = k) /\ ((lo <= k < hi)%nat -> (lo <= k' < hi)%nat)).
    { intros k z Hz. destruct (Nat.lt_ge_cases k lo) as [Hk|Hk]; [|destruct (Nat.lt_ge_cases k hi) as [Hk2|Hk2]].
      - rewrite lookup_app_l in Hz by lia. apply lookup_take_Some in Hz as [Hz _]. exists k. repeat split; [done|lia..].
      - destruct (Hin k z Hz) as (k' & Hk' & Hz'); [lia|]. exists k'. repeat split; [done|lia..].
      - rewrite app_assoc, lookup_app_r in Hz by (rewrite length_app; lia). rewrite length_app, lookup_drop in Hz.
        replace (hi + (k - (length (take lo order) + length smid)))%nat with k in Hz by lia. exists k. repeat split; [done|lia..]. }
    destruct (Hpos i x Hx) as (i' & Hi' & Hi1 & Hi2 & Hi3). destruct (Hpos j y Hy) as (j' & Hj' & Hj1 & Hj2 & Hj3).
    destruct (Nat.lt_ge_cases i lo) as [Hil|Hil].
    { apply (Hlo i' j'); [|done|done]. destruct (Nat.lt_ge_cases j hi); lia. }
    destruct (Nat.lt_ge_cases j hi) as [Hjh|Hjh].
    + rewrite lookup_app_r, lookup_app_l in Hx by lia. rewrite lookup_app_r, lookup_app_l in Hy by lia.
      eapply (StronglySorted_at _ _ (i - length (take lo order)) (j - length (take lo order)) x y Hss); [done|done|lia].
    + apply (Hh i' j'); [lia|done|done].
Qed.

(** Rearranging inside [lo..hi) keeps the splits outside it. *)
Lemma inside order order' lo hi k z :
  NoDup order -> order' ≡ₚ order -> agree_outside lo hi order order' -> (lo <= k < hi)%nat -> order' !! k = Some z ->
  exists k', (lo <= k' < hi)%nat /\ order !! k' = Some z.
Proof.
  intros Hn Hp Ho Hk Hz. assert (Hin : z ∈ order) by (rewrite <- Hp; by eapply list_elem_of_lookup_2).
  apply list_elem_of_lookup in Hin as [k' Hk']. exists k'. split; [|done].
  destruct (decide (k' < lo \/ hi <= k')%nat) as [Hout|?]; [|lia].
  assert (Hz' : order' !! k' = Some z) by (by rewrite Ho). assert (Hn' : NoDup order') by (by rewrite Hp).
  pose proof (NoDup_lookup _ _ _ _ Hn' Hz Hz'). lia.
Qed.

Lemma split_keep order order' lo hi n :
  NoDup order -> order' ≡ₚ order -> agree_outside lo hi order order' -> (n <= lo \/ hi <= n)%nat ->
  split_at less order n -> split_at less order' n.
Proof.
  intros Hn Hp Ho Hlh Hs i j x y Hij Hx Hy.
  assert (Hpos : forall k z, order' !! k = Some z -> exists k', order !! k' = Some z /\ ((lo <= k < hi)%nat -> (lo <= k' < hi)%nat) /\ ((k < lo \/ hi <= k)%nat -> k' = k)).
  { intros k z Hz. destruct (decide (lo <= k < hi)%nat) as [Hk|Hk].
    - destruct (inside order order' lo hi k z) as (k' & ? & ?); [done..|]. exists k'. split; [done|]. split; lia.
    - exists k. rewrite <- Ho by lia. split; [done|]. split; lia. }
  destruct (Hpos i x Hx) as (i' & Hi' & ? & ?). destruct (Hpos j y Hy) as (j' & Hj' & ? & ?).
  apply (Hs i' j'); [|done|done]. destruct (decide (lo <= i < hi)%nat), (decide (lo <= j < hi)%nat); lia.
Qed.

(** One partition: the pivot lands at [j], and the order splits around it. *)
Lemma partition_step order lo hi mid :
  NoDup order -> (hi <= length order)%nat -> (lo + 1 < hi)%nat -> (lo <= mid < hi)%nat -> split_at less order lo -> split_at less order hi ->
  exists order1 pivot order2 j order3,
    swap order lo mid = Some order1 /\ order1 !! lo = Some pivot /\
    partition_loop less (S (S (hi - lo))) order1 pivot (lo + 1) (hi - 1) = Some (order2, j) /\ swap order2 lo j = Some order3 /\
    order3 ≡ₚ order /\ (lo <= j < hi)%nat /\
    split_at less order3 lo /\ split_at less order3 hi /\ split_at less order3 j /\ split_at less order3 (j + 1).
Proof.
  intros Hn Hhi Hlo Hm Hsl Hsh. destruct (swap_spec order lo mid) as (order1 & E1 & Hp1 & Hk1); [lia..|].
  destruct (lookup_lt_is_Some_2 order1 lo) as [pivot Hpv]; [rewrite Hp1; lia|].
  destruct (partition_loop_spec (S (S (hi - lo))) order order1 pivot lo hi (lo + 1) (hi - 1)) as (order2 & j & E2 & [Hp2 Ho2 Hpv2 Hi2 Hj2 Hlo2 Hh2]); [done|done|lia| |].
  { constructor; [done| |done|lia|lia|intros; lia|intros; lia]. intros k Hk. rewrite Hk1. unfold transpose. repeat case_decide; try lia. done. }
  destruct (swap_spec order2 lo j) as (order3 & E3 & Hp3 & Hk3); [rewrite Hp2; lia..|].
  exists order1, pivot, order2, j, order3. do 4 (split; [done|]). assert (Hp : order3 ≡ₚ order) by (by rewrite Hp3, Hp2).
  assert (Ho3 : agree_outside lo hi order order3).
  { eapply agree_trans; [exact Ho2|]. intros k Hk. rewrite Hk3. unfold transpose. repeat case_decide; try lia. done. }
  split; [done|]. split; [lia|].
  assert (S1 : split_at less order3 lo) by (eapply split_keep; [exact Hn|exact Hp|exact Ho3|lia|done]).
  assert (S2 : split_at less order3 hi) by (eapply split_keep; [exact Hn|exact Hp|exact Ho3|lia|done]).
  split; [done|]. split; [done|].
  assert (Hj : order3 !! j = Some pivot) by (rewrite Hk3; unfold transpose; repeat case_decide; congruence).
  assert (Hl : forall k x, (lo <= k < j)%nat -> order3 !! k = Some x -> before less x pivot).
  { intros k x Hk Hx. rewrite Hk3 in Hx. unfold transpose in Hx. repeat case_decide; try lia; [|apply (Hlo2 k); [lia|done]].
    apply (Hlo2 j); [lia|done]. }
  assert (Hr : forall k x, (j < k < hi)%nat -> order3 !! k = Some x -> before less pivot x).
  { intros k x Hk Hx. rewrite Hk3 in Hx. unfold transpose in Hx. repeat case_decide; try lia. apply (Hh2 k); [lia|done]. }
  assert (Hcase : forall i k x y, (i <= j <= k)%nat -> (i < k)%nat -> order3 !! i = Some x -> order3 !! k = Some y -> before less x y).
  { intros i k x y Hij Hik Hx Hy. destruct (Nat.lt_ge_cases i lo) as [Hil|Hil]; [apply (S1 i k); [lia|done|done]|].
    destruct (Nat.lt_ge_cases k hi) as [Hkh|Hkh]; [|apply (S2 i k); [lia|done|done]].
    destruct (decide (i = j)) as [-> |]; [assert (x = pivot) as -> by congruence; apply (Hr k); [lia|done]|].
    destruct (decide (k = j)) as [-> |]; [assert (y = pivot) as -> by congruence; apply (Hl i); [lia|done]|].
    eapply before_trans; [done|apply (Hl i); [lia|done]|apply (Hr k); [lia|done]]. }
  split; intros i k x y Hik Hx Hy; (apply (Hcase i k); [lia|lia|done|done]).
Qed.

Lemma select_loop_spec budget order w lo hi :
  NoDup order -> (lo <= w <= hi)%nat -> (hi <= length order)%nat -> split_at less order lo -> split_at less order hi ->
  exists order', select_loop less budget order w lo hi = Some order' /\ order' ≡ₚ order /\ split_at less order' w.
Proof.
  revert order lo hi. induction budget as [|budget IH]; intros order lo hi Hn Hw Hhi Hsl Hsh; cbn [select_loop].
  { destruct (12 <? hi - lo)%nat; (eexists; split; [done|]; by apply sort_range_split). }
  destruct (Nat.ltb_spec 12 (hi - lo)) as [Hbig|_]; [|eexists; split; [done|]; by apply sort_range_split].
  assert (Hd : ((hi - lo) / 2 < hi - lo)%nat) by (apply Nat.div_lt; lia).
  destruct (medianOfThree_spec order lo (lo + (hi - lo) / 2) (hi - 1)) as (mid & -> & Hmid); [lia..|].
  destruct (partition_step order lo hi mid) as (order1 & pivot & order2 & j & order3 & E1 & Epv & E2 & E3 & Hp & Hj & T1 & T2 & T3 & T4); [done|lia|lia| |done|done|].
  { destruct Hmid as [-> |[-> | ->]]; lia. }
  change (Some mid ≫= ?f) with (f mid). cbv beta. rewrite E1. change (Some order1 ≫= ?f) with (f order1). cbv beta.
  rewrite Epv. change (Some pivot ≫= ?f) with (f pivot). cbv beta. rewrite E2. change (Some ?p ≫= ?f) with (f p). cbv beta iota.
  rewrite E3. change (Some order3 ≫= ?f) with (f order3). cbv beta.
  assert (Hn3 : NoDup order3) by (by rewrite Hp). assert (Hl3 : (hi <= length order3)%nat) by (by rewrite Hp).
  assert (Hperm : forall o, o ≡ₚ order3 -> o ≡ₚ order) by (intros o Ho; by rewrite Ho).
  destruct (Nat.leb_spec w j) as [Hwj|Hwj]; [|destruct (Nat.eqb_spec w (j + 1)) as [-> |Hne]].
  - destruct (IH order3 lo j) as (o & -> & Ho & Hs); [done|lia|lia|done|done|]. eauto.
  - eauto.
  - destruct (IH order3 (j + 1)%nat hi) as (o & -> & Ho & Hs); [done|lia|lia|done|done|]. eauto.
Qed.

Lemma split_ends (l : list A) : split_at less l 0 /\ split_at less l (length l).
Proof. split; intros i j x y Hij Hx Hy; [lia|]. apply lookup_lt_Some in Hy. lia. Qed.

(** [selectPrefix] returns, without an index panic, a rearrangement whose first
    [w] entries come before all others. *)
Lemma selectPrefix_spec order w :
  NoDup order -> (w <= length order)%nat -> exists order', selectPrefix less order w = Some order' /\ order' ≡ₚ order /\ split_at less order' w.
Proof. intros Hn Hw. destruct (split_ends order). apply select_loop_spec; [done|lia|lia|done|done]. Qed.

(** Selecting and then sorting the prefix is the prefix of the full sort. *)
Lemma select_sort_prefix order w :
  NoDup order -> (w <= length order)%nat ->
  exists sel, selectPrefix less order w = Some sel /\ SortStableFunc less (take w sel) ++ drop w sel ≡ₚ order /\
    take w (SortStableFunc less (take w sel) ++ drop w sel) = take w (SortStableFunc less order).
Proof.
  intros Hn Hw. destruct (selectPrefix_spec order w Hn Hw) as (sel & E & Hp & Hs). exists sel. split; [done|].
  assert (Hns : NoDup sel) by (by rewrite Hp). assert (Hls : (w <= length sel)%nat) by (by rewrite Hp).
  assert (Hlw : length (SortStableFunc less (take w sel)) = w) by (rewrite SortStableFunc_perm, length_take; lia).
  split.
  - by rewrite SortStableFunc_perm, take_drop.
  - assert (Eo : SortStableFunc less order = SortStableFunc less sel).
    { apply (sorted_unique less Hless); [by apply SortStableFunc_sorted..|]. by rewrite !SortStableFunc_perm. }
    rewrite Eo, (split_sorted less Hless sel w Hns Hls Hs). rewrite !take_app_le by lia. done.
Qed.
End select.

(** ** Comparators are total preorders *)

(** A three-way comparison that is a total preorder on [D]. *)
Record weak_cmp {A} (D : A -> Prop) (f : A -> A -> Z) : Prop := mkWeak {
  wc_anti : forall x y, D x -> D y -> f y x = - f x y;
  wc_trans : forall x y z, D x -> D y -> D z -> f x y <= 0 -> f y z <= 0 -> f x z <= 0;
}.

Section weak.
Context {A : Type} (D : A -> Prop).

Lemma weak_lt_le f x y z : weak_cmp D f -> D x -> D y -> D z -> f x y < 0 -> f y z <= 0 -> f x z < 0.
Proof.
  intros [Ha Ht] Hx Hy Hz H1 H2. assert (f x z <= 0) by (apply (Ht x y z); [done..|lia|done]).
  destruct (Z.eq_dec (f x z) 0) as [E|]; [|lia]. assert (f z x <= 0) by (rewrite Ha by done; lia).
  assert (f y x <= 0) by (by apply (Ht y z x)). pose proof (Ha x y Hx Hy). lia.
Qed.

Lemma weak_le_lt f x y z : weak_cmp D f -> D x -> D y -> D z -> f x y <= 0 -> f y z < 0 -> f x z < 0.
Proof.
  intros [Ha Ht] Hx Hy Hz H1 H2. assert (f x z <= 0) by (apply (Ht x y z); [done..|lia]).
  destruct (Z.eq_dec (f x z) 0) as [E|]; [|lia]. assert (f z x <= 0) by (rewrite Ha by done; lia).
  assert (f z y <= 0) by (by apply (Ht z x y)). pose proof (Ha y z Hy Hz). lia.
Qed.

Lemma weak_Z (g : A -> Z) : weak_cmp D (fun x y => sign (g x ?= g y)).
Proof.
  constructor.
  - intros x y _ _. destruct (Z.compare_spec (g x) (g y)), (Z.compare_spec (g y) (g x)); cbn; lia.
  - intros x y z _ _ _. destruct (Z.compare_spec (g x) (g y)), (Z.compare_spec (g y) (g z)), (Z.compare_spec (g x) (g z)); cbn; lia.
Qed.

Lemma weak_bytes (g : A -> bytes) : weak_cmp D (fun x y => sign (bcompare (g x) (g y))).
Proof.
  constructor.
  - intros x y _ _. rewrite (bcompare_antisym (g x) (g y)). by destruct (bcompare (g x) (g y)).
  - intros x y z _ _ _ H1 H2. assert (L1 : ble (g x) (g y) = true) by (unfold ble; by destruct (bcompare (g x) (g y))).
    assert (L2 : ble (g y) (g z) = true) by (unfold ble; by destruct (bcompare (g y) (g z))).
    pose proof (ble_trans _ _ _ L1 L2) as L3. unfold ble in L3. by destruct (bcompare (g x) (g z)).
Qed.

Lemma weak_neg f : weak_cmp D f -> weak_cmp D (fun x y => - f x y).
Proof.
  intros Hw. pose proof Hw as [Ha Ht]. constructor; [intros x y Hx Hy; pose proof (Ha x y Hx Hy); lia|].
  intros x y z Hx Hy Hz H1 H2. pose proof (Ha x z Hx Hz). assert (f z x <= 0); [|lia].
  pose proof (Ha x y Hx Hy). pose proof (Ha y z Hy Hz). apply (Ht z y x); [done..|lia|lia].
Qed.

Lemma weak_lex f g : weak_cmp D f -> weak_cmp D g -> weak_cmp D (fun x y => if f x y =? 0 then g x y else f x y).
Proof.
  intros Hf Hg. pose proof Hf as [Ha Ht]. pose proof Hg as [Ga Gt]. constructor.
  - intros x y Hx Hy. rewrite Ha, (Ga x y) by done.
    destruct (Z.eqb_spec (f x y) 0), (Z.eqb_spec (- f x y) 0); lia.
  - intros x y z Hx Hy Hz. destruct (Z.eqb_spec (f x y) 0) as [E1|E1], (Z.eqb_spec (f y z) 0) as [E2|E2]; intros H1 H2.
    + assert (f x z <= 0) by (apply (Ht x y z); [done..|lia|lia]).
      pose proof (Ha x y Hx Hy). pose proof (Ha y z Hy Hz). pose proof (Ha x z Hx Hz).
      assert (f z x <= 0) by (apply (Ht z y x); [done..|lia|lia]).
      destruct (Z.eqb_spec (f x z) 0); [by apply (Gt x y z)|lia].
    + assert (f x z < 0) by (apply (weak_le_lt f x y z); [done..|lia|lia]). destruct (Z.eqb_spec (f x z) 0); lia.
    + assert (f x z < 0) by (apply (weak_lt_le f x y z); [done..|lia|lia]). destruct (Z.eqb_spec (f x z) 0); lia.
    + assert (f x z < 0) by (apply (weak_lt_le f x y z); [done..|lia|lia]). destruct (Z.eqb_spec (f x z) 0); lia.
Qed.

Lemma weak_zero : weak_cmp D (fun _ _ => 0).
Proof. by constructor. Qed.

Lemma weak_ext f g : (forall x y, D x -> D y -> f x y = g x y) -> weak_cmp D f -> weak_cmp D g.
Proof.
  intros E [Ha Ht]. constructor.
  - intros x y Hx Hy. rewrite <- !E by done. by apply Ha.
  - intros x y z Hx Hy Hz. rewrite <- !E by done. by apply Ht.
Qed.
End weak.

Section comparators.
Context `{TP : TimeParse, CF : CaseFold}.

(** Decoded values of one property that a comparator can order: an absent one
    carries nothing, a numeric one without digits carries none, and otherwise
    all present ones decode alike - or none does, short of one fixed value. *)
Definition value_ok (c : comparator) (ok isInt : bool) (v : sortValue) : Prop :=
  if sv_present v then
    if c_numeric c then (sv_ok v = false -> sv_digits v = [])
    else if ok then sv_ok v = true /\ sv_isInt v = isInt
    else sv_ok v = true -> sv_isInt v = false /\ sv_key v = [x00]
  else v = absentValue.

(** The comparison as a lexicographic one. *)
Definition rank (c : comparator) (ok isInt : bool) (a b : sortValue) : Z :=
  let by_value :=
    if c_numeric c then
      if sign (Z.b2z (negb (sv_ok a)) ?= Z.b2z (negb (sv_ok b))) =? 0 then
        if sign (Z.of_nat (length (sv_digits a)) ?= Z.of_nat (length (sv_digits b))) =? 0
        then sign (bcompare (sv_digits a) (sv_digits b))
        else sign (Z.of_nat (length (sv_digits a)) ?= Z.of_nat (length (sv_digits b)))
      else sign (Z.b2z (negb (sv_ok a)) ?= Z.b2z (negb (sv_ok b)))
    else if negb ok then 0
    else if isInt then sign (sv_num a ?= sv_num b)
    else sign (bcompare (sv_key a) (sv_key b)) in
  if sign (Z.b2z (sv_present a) ?= Z.b2z (sv_present b)) =? 0 then by_value else sign (Z.b2z (sv_present a) ?= Z.b2z (sv_present b)).

Lemma rank_weak c ok isInt D : weak_cmp D (rank c ok isInt).
Proof.
  unfold rank. apply (weak_lex D (fun a b => sign (Z.b2z (sv_present a) ?= Z.b2z (sv_present b)))); [apply weak_Z|].
  destruct (c_numeric c); [|destruct ok; [destruct isInt|]; cbn [negb]].
  - apply (weak_lex D (fun a b => sign (Z.b2z (negb (sv_ok a)) ?= Z.b2z (negb (sv_ok b))))); [apply weak_Z|].
    apply (weak_lex D (fun a b => sign (Z.of_nat (length (sv_digits a)) ?= Z.of_nat (length (sv_digits b))))); [apply weak_Z|apply weak_bytes].
  - apply weak_Z.
  - apply weak_bytes.
  - apply weak_zero.
Qed.

Lemma digit_runs_lex a b :
  (sv_ok a = false -> sv_digits a = []) -> (sv_ok b = false -> sv_digits b = []) ->
  compareDigitRuns a b =
    if sign (Z.b2z (negb (sv_ok a)) ?= Z.b2z (negb (sv_ok b))) =? 0 then
      if sign (Z.of_nat (length (sv_digits a)) ?= Z.of_nat (length (sv_digits b))) =? 0
      then sign (bcompare (sv_digits a) (sv_digits b))
      else sign (Z.of_nat (length (sv_digits a)) ?= Z.of_nat (length (sv_digits b)))
    else sign (Z.b2z (negb (sv_ok a)) ?= Z.b2z (negb (sv_ok b))).
Proof.
  intros Ha Hb. unfold compareDigitRuns. destruct (sv_ok a) eqn:Ea, (sv_ok b) eqn:Eb; cbn [negb andb Z.b2z].
  - change (sign (0 ?= 0) =? 0) with true. cbv iota.
    destruct (Z.compare_spec (Z.of_nat (length (sv_digits a))) (Z.of_nat (length (sv_digits b)))) as [E|E|E]; cbn [sign].
    + rewrite (proj2 (Nat.eqb_eq _ _)) by lia. done.
    + rewrite (proj2 (Nat.eqb_neq _ _)), (proj2 (Nat.ltb_lt _ _)) by lia. done.
    + rewrite (proj2 (Nat.eqb_neq _ _)), (proj2 (Nat.ltb_ge _ _)) by lia. done.
  - done.
  - done.
  - rewrite (Ha eq_refl), (Hb eq_refl). done.
Qed.

Lemma compareValues_rank c ok isInt a b :
  value_ok c ok isInt a -> value_ok c ok isInt b ->
  compareValues c a b = if c_descending c then - rank c ok isInt a b else rank c ok isInt a b.
Proof.
  intros Ha Hb. unfold compareValues, rank, value_ok in *.
  destruct (sv_present a) eqn:Pa, (sv_present b) eqn:Pb; cbn [negb andb Z.b2z].
  - change (sign (1 ?= 1) =? 0) with true. cbv iota. destruct (c_numeric c); cbn [negb andb].
    + by rewrite digit_runs_lex.
    + destruct ok; cbn [negb orb].
      * destruct Ha as [-> ->], Hb as [-> ->]. by destruct isInt.
      * destruct (sv_ok a), (sv_ok b); cbn [negb orb]; [|by destruct (c_descending c)..].
        destruct Ha as [Ia Ka], Hb as [Ib Kb]; [done..|]. rewrite Ia, Ka, Kb. cbn [andb]. rewrite bcompare_refl. by destruct (c_descending c).
  - done.
  - done.
  - subst a b. cbn. destruct (c_numeric c), ok, isInt, (c_descending c); done.
Qed.

Lemma compareValues_weak c ok isInt : weak_cmp (value_ok c ok isInt) (compareValues c).
Proof.
  eapply weak_ext; [intros x y Hx Hy; symmetry; by apply compareValues_rank|].
  destruct (c_descending c); [apply weak_neg|]; apply rank_weak.
Qed.

(** A collection of records a comparator list can order: for each comparator
    the present values decode alike. *)
Definition orderable (cmps : list comparator) (objs : list Object) : Prop :=
  forall c, c ∈ cmps -> exists ok isInt, forall o, o ∈ objs -> value_ok c ok isInt (sortValueOf c o).

Lemma compare_weak (c : comparator) (D : Object -> Prop) :
  (exists ok isInt, forall o, D o -> value_ok c ok isInt (sortValueOf c o)) -> weak_cmp D (compare c).
Proof.
  intros (ok & isInt & Hd). destruct (compareValues_weak c ok isInt) as [Ha Ht]. unfold compare. constructor.
  - intros x y Hx Hy. apply Ha; auto.
  - intros x y z Hx Hy Hz. apply Ht; auto.
Qed.

Lemma chain_weak {X} (cmps : list comparator) (f : X -> Object) (D : X -> Prop) (last : X -> X -> Z) :
  (forall c, c ∈ cmps -> weak_cmp D (fun x y => compare c (f x) (f y))) -> weak_cmp D last ->
  weak_cmp D (fun x y => chain cmps (f x) (f y) (last x y)).
Proof.
  intros Hc Hl. induction cmps as [|c cmps IH]; [done|]. cbn [chain].
  apply (weak_lex D (fun x y => compare c (f x) (f y))); [apply Hc; by left|]. apply IH. intros c' Hc'. apply Hc. by right.
Qed.

Lemma compare_rows_chain cmps a b last :
  compare_rows cmps (map (fun c => sortValueOf c a) cmps) (map (fun c => sortValueOf c b) cmps) last = chain cmps a b last.
Proof. induction cmps as [|c cmps IH]; [done|]. cbn. by rewrite IH. Qed.

Lemma chain_zero cmps a b last : chain cmps a b last = 0 -> last = 0.
Proof. induction cmps as [|c cmps IH]; cbn; [done|]. destruct (Z.eqb_spec (compare c a b) 0); [done|lia]. Qed.

Lemma sign_bcompare_zero a b : sign (bcompare a b) = 0 <-> a = b.
Proof. rewrite <- bcompare_eq. by destruct (bcompare a b). Qed.

(** ** Checked values are orderable *)

Lemma ValidString_StringFolded f raw : ValidString raw = true -> is_Some (StringFolded f raw).
Proof.
  unfold ValidString, StringFolded. destruct (skipString (skipSpace raw)) as [rest|] eqn:E; [|done]. intros ->. cbn [negb].
  apply skipString_spec in E as (b & Hb & E). rewrite E, body_quoted. destruct (cleanASCII b); cbn [negb]; [by eexists|].
  destruct (unquote_total b Hb) as [v ->]. by eexists.
Qed.

(** [SortInt] and [SortKey] succeed on what [CheckValue] accepts. *)
Lemma CheckValue_key p raw :
  CheckValue p raw = Ok tt -> isNull raw = false -> composite (p_Kind p) = false -> exists k, bareValue (p_Kind p) raw = Ok k.
Proof.
  intros Hc Hn Hk. unfold CheckValue in Hc. rewrite Hn in Hc. destruct (p_Kind p) eqn:Ek; try done; cbn [bareValue].
  - destruct (ValidString raw) eqn:Ev; [|done]. destruct (ValidString_StringFolded ToLower raw Ev) as [v ->]. eauto.
  - destruct (JBool raw); [eauto|done].
  - destruct (JInt raw); [eauto|done].
  - destruct (JInt raw); [eauto|done].
  - destruct (utcDateMicros raw); [eauto|]. destruct (JString raw) as [s|]; [|done]. unfold ValidDate in Hc.
    destruct (time_Parse s); [eauto|done].
  - destruct (JString raw); [eauto|done].
Qed.

Lemma SortInt_checked p raw :
  CheckValue p raw = Ok tt ->
  is_Some (SortInt p raw) <-> p_Nullable p = false /\ (p_Kind p = KindBool \/ p_Kind p = KindInt \/ p_Kind p = KindUnsignedInt \/ p_Kind p = KindDate).
Proof.
  intros Hc. unfold SortInt. destruct (p_Nullable p) eqn:En; [split; [by intros [? ?]|by intros [? _]]|].
  assert (Hn : isNull raw = false) by (unfold CheckValue in Hc; rewrite En in Hc; by destruct (isNull raw)).
  assert (Hb : composite (p_Kind p) = false -> exists k, bareValue (p_Kind p) raw = Ok k) by (by apply CheckValue_key).
  destruct (p_Kind p) eqn:Ek; cbn [bareValue composite] in Hb; try (split; [by intros [? ?]|intros [_ H]; by destruct H as [?|[?|[?|?]]]]);
    (split; [intros _; split; [done|by auto]|intros _]); destruct (Hb eq_refl) as [k Hk].
  - destruct (JBool raw); [eauto|done].
  - destruct (JInt raw); [eauto|done].
  - destruct (JInt raw); [eauto|done].
  - destruct (utcDateMicros raw); [eauto|]. destruct (JString raw) as [s|]; [|done]. destruct (time_Parse s); [eauto|done].
Qed.

(** Whether a property's values decode, and into integers. *)
Definition decodes (p : Property) : bool := negb (composite (p_Kind p)).
Definition decodes_int (p : Property) : bool :=
  negb (p_Nullable p) && match p_Kind p with KindBool | KindInt | KindUnsignedInt | KindDate => true | _ => false end.

Lemma checked_value_ok c raw o :
  o !! c_name c = Some raw -> CheckValue (c_prop c) raw = Ok tt -> value_ok c (decodes (c_prop c)) (decodes_int (c_prop c)) (sortValueOf c o).
Proof.
  intros Ho Hc. unfold sortValueOf. rewrite Ho. unfold value_ok. destruct (c_numeric c).
  { destruct (leadingDigits raw); done. }
  pose proof (SortInt_checked _ _ Hc) as Hi. destruct (SortInt (c_prop c) raw) as [n|] eqn:Es.
  - destruct (proj1 Hi) as [Hn Hk]; [by eexists|]. cbn [sv_present sv_ok sv_isInt]. unfold decodes, decodes_int. rewrite Hn.
    destruct Hk as [-> |[-> |[-> | ->]]]; done.
  - assert (Hd : decodes_int (c_prop c) = false).
    { unfold decodes_int. destruct (p_Nullable (c_prop c)) eqn:En; [done|]. destruct (p_Kind (c_prop c)) eqn:Ek; try done;
        (destruct (proj2 Hi); [split; [done|by auto]|done]). }
    rewrite Hd. unfold SortKey, indexValue, decodes. destruct (p_Nullable (c_prop c)) eqn:En.
    + destruct (bool_decide (TrimSpace raw = bs "null")) eqn:Enull.
      * by destruct (composite (p_Kind (c_prop c))).
      * destruct (composite (p_Kind (c_prop c))) eqn:Ek; cbn [negb].
        -- destruct (p_Kind (c_prop c)); done.
        -- destruct (CheckValue_key _ _ Hc Enull Ek) as [k ->]. done.
    + assert (Enull : isNull raw = false) by (unfold CheckValue in Hc; rewrite En in Hc; by destruct (isNull raw)).
      destruct (composite (p_Kind (c_prop c))) eqn:Ek; cbn [negb].
      * destruct (p_Kind (c_prop c)); done.
      * destruct (CheckValue_key _ _ Hc Enull Ek) as [k ->]. done.
Qed.

(** Records whose sorted properties hold checked values. *)
Definition checked (cmps : list comparator) (objs : list Object) : Prop :=
  forall c o raw, c ∈ cmps -> o ∈ objs -> o !! c_name c = Some raw -> CheckValue (c_prop c) raw = Ok tt.

Lemma checked_orderable cmps objs : checked cmps objs -> orderable cmps objs.
Proof.
  intros Hch c Hc. exists (decodes (c_prop c)), (decodes_int (c_prop c)). intros o Ho.
  destruct (o !! c_name c) as [raw|] eqn:E; [by eapply checked_value_ok, Hch|]. unfold sortValueOf, value_ok. by rewrite E.
Qed.

(** ** sortRecords *)

Section records.
Variable cmps : list comparator.
Variable matched : list QueryRecord.
Hypothesis Hord : orderable cmps (q_Obj <$> matched).

Definition obj_of (k : nat) : Object := default ∅ (q_Obj <$> matched !! k).
Definition rows : list (list sortValue) := map (fun m => map (fun c => sortValueOf c (q_Obj m)) cmps) matched.
Definition row_ids : list bytes := map (fun m => raw_id (q_Obj m)) matched.
Definition position_less : nat -> nat -> Z := less_at cmps rows row_ids.

Lemma row_at_obj x : row_at cmps rows x = map (fun c => sortValueOf c (obj_of x)) cmps.
Proof.
  unfold row_at, rows, obj_of. rewrite list_lookup_fmap. destruct (matched !! x) as [m|]; [done|]. cbn.
  apply map_ext. intros c. unfold sortValueOf. by rewrite lookup_empty.
Qed.

Lemma row_id_obj x : default [] (row_ids !! x) = raw_id (obj_of x).
Proof. unfold row_ids, obj_of, raw_id. rewrite list_lookup_fmap. destruct (matched !! x); [done|]. cbn. by rewrite lookup_empty. Qed.

Lemma position_less_chain x y :
  position_less x y = chain cmps (obj_of x) (obj_of y)
    (let r := sign (bcompare (raw_id (obj_of x)) (raw_id (obj_of y))) in if r =? 0 then sign (Nat.compare x y) else r).
Proof. unfold position_less, less_at. by rewrite !row_at_obj, compare_rows_chain, !row_id_obj. Qed.

Lemma obj_of_ok c : c ∈ cmps -> exists ok isInt, forall x, value_ok c ok isInt (sortValueOf c (obj_of x)).
Proof.
  intros Hc. destruct (Hord c Hc) as (ok & isInt & Hv). exists ok, isInt. intros x. unfold obj_of.
  destruct (matched !! x) as [m|] eqn:E; cbn.
  - apply Hv, list_elem_of_fmap. exists m. split; [done|]. by eapply list_elem_of_lookup_2.
  - unfold value_ok, sortValueOf. by rewrite lookup_empty.
Qed.

Lemma position_weak : weak_cmp (fun _ => True) position_less.
Proof.
  eapply weak_ext; [intros x y _ _; symmetry; apply position_less_chain|].
  apply (chain_weak cmps obj_of (fun _ => True)).
  - intros c Hc. destruct (obj_of_ok c Hc) as (ok & isInt & Hv). destruct (compareValues_weak c ok isInt) as [Ha Ht].
    constructor; intros; unfold compare in *; eauto.
  - apply (weak_lex (fun _ => True) (fun x y => sign (bcompare (raw_id (obj_of x)) (raw_id (obj_of y)))) (fun x y => sign (Nat.compare x y))); [apply weak_bytes|].
    eapply weak_ext; [|apply (weak_Z (fun _ => True) Z.of_nat)]. intros x y _ _. cbn. by rewrite Nat2Z.inj_compare.
Qed.

Lemma position_total : total_cmp position_less.
Proof.
  pose proof position_weak as Hw. pose proof Hw as [Ha Ht]. constructor.
  - intros x y. rewrite (Ha x y) by done. lia.
  - intros x y z H1 H2. eapply (weak_lt_le (fun _ => True) _ x y z Hw); [done..|lia].
  - intros x y. split.
    + rewrite position_less_chain. intros E%chain_zero. cbv zeta in E. destruct (Z.eqb_spec (sign (bcompare (raw_id (obj_of x)) (raw_id (obj_of y)))) 0) as [E'|E']; [|done].
      destruct (Nat.compare_spec x y); cbn in E; [done|lia|lia].
    + intros ->. pose proof (Ha y y I I). lia.
Qed.

(** Distinct ids decide the comparison before the positions do. *)
Lemma position_less_compare x y :
  raw_id (obj_of x) <> raw_id (obj_of y) -> position_less x y = chain cmps (obj_of x) (obj_of y) (sign (bcompare (raw_id (obj_of x)) (raw_id (obj_of y)))).
Proof.
  intros Hne. rewrite position_less_chain. cbv zeta. rewrite (proj2 (Z.eqb_neq _ _)); [done|]. by rewrite sign_bcompare_zero.
Qed.

Lemma mapM_positions order :
  (forall k, k ∈ order -> (k < length matched)%nat) -> exists out, mapM (fun pos => matched !! pos) order = Some out /\
    (forall i, out !! i = order !! i ≫= fun k => matched !! k).
Proof.
  induction order as [|k order IH]; intros Hk; [by exists []|].
  destruct IH as (out & E & Hout); [intros; apply Hk; by right|].
  destruct (lookup_lt_is_Some_2 matched k) as [m Hm]; [apply Hk; by left|].
  exists (m :: out). cbn. rewrite Hm, E. split; [done|]. intros [|i]; cbn; [by rewrite Hm|apply Hout].
Qed.

Lemma mapM_take order w out :
  mapM (fun pos => matched !! pos) order = Some out -> mapM (fun pos => matched !! pos) (take w order) = Some (take w out).
Proof.
  revert w out. induction order as [|k order IH]; intros w out E; cbn in E; [injection E as <-; by destruct w|].
  destruct (matched !! k) as [m|] eqn:Em; [|done]. cbn in E. destruct (mapM _ order) as [out'|] eqn:Eo; [|done]. cbn in E. injection E as <-.
  destruct w as [|w]; [done|]. cbn. rewrite Em. cbn. by rewrite (IH w out').
Qed.

Lemma mapM_seq : mapM (fun pos => matched !! pos) (seq 0 (length matched)) = Some matched.
Proof.
  destruct (mapM_positions (seq 0 (length matched))) as (out & E & Hout); [intros k Hk; apply elem_of_seq in Hk; lia|].
  rewrite E. f_equal. apply list_eq. intros i. rewrite Hout. destruct (decide (i < length matched)%nat) as [Hi|Hi].
  - by rewrite lookup_seq_lt.
  - rewrite lookup_seq_ge by lia. cbn. symmetry. apply lookup_ge_None. lia.
Qed.

Lemma mapM_omap order out : mapM (fun pos => matched !! pos) order = Some out -> out = omap (fun pos => matched !! pos) order.
Proof. intros H%mapM_Some_1. induction H as [|k m order out Hm H IH]; [done|]. cbn. by rewrite Hm, IH. Qed.

Lemma mapM_perm order1 order2 out1 out2 :
  order1 ≡ₚ order2 -> mapM (fun pos => matched !! pos) order1 = Some out1 -> mapM (fun pos => matched !! pos) order2 = Some out2 -> out1 ≡ₚ out2.
Proof. intros Hp -> %mapM_omap -> %mapM_omap. by rewrite Hp. Qed.

(** *** The result *)

Hypothesis Hids : NoDup (map (fun m => raw_id (q_Obj m)) matched).

Definition precedes (a b : QueryRecord) : Prop := compareFunc (mkOrdering (Some cmps) None 0) (q_Obj a) (q_Obj b) < 0.

Lemma obj_of_lookup k m : matched !! k = Some m -> obj_of k = q_Obj m.
Proof. intros E. unfold obj_of. by rewrite E. Qed.

Lemma position_precedes x y a b :
  matched !! x = Some a -> matched !! y = Some b -> x <> y -> (before position_less x y <-> precedes a b).
Proof.
  intros Hx Hy Hne. unfold before, precedes, compareFunc. cbn [o_cmps]. rewrite position_less_compare, (obj_of_lookup x a), (obj_of_lookup y b); [done..|].
  rewrite (obj_of_lookup x a), (obj_of_lookup y b) by done. intros E. apply Hne. eapply (NoDup_lookup _ x y (raw_id (q_Obj a)) Hids).
  - by rewrite list_lookup_fmap, Hx.
  - by rewrite list_lookup_fmap, Hy, E.
Qed.

Lemma sorted_positions order out :
  NoDup order -> StronglySorted (before position_less) order -> mapM (fun pos => matched !! pos) order = Some out -> StronglySorted precedes out.
Proof.
  intros Hn Hs Hm%mapM_Some_1. revert Hn Hs. induction Hm as [|k m order out Hk Hm IH]; intros Hn Hs; [constructor|].
  apply NoDup_cons in Hn as [Hnk Hn]. apply StronglySorted_inv in Hs as [Hs Hb]. constructor; [by apply IH|].
  apply Forall_forall. rewrite Forall_forall in Hb. intros b Hb'. apply list_elem_of_lookup in Hb' as [i Hi].
  destruct (Forall2_lookup_r _ _ _ _ _ Hm Hi) as (y & Hy%list_elem_of_lookup_2 & Hyb).
  apply (position_precedes k y m b); [done|done|by intros ->|by apply Hb].
Qed.

Lemma precedes_asym a b : a ∈ matched -> b ∈ matched -> precedes a b -> precedes b a -> False.
Proof.
  intros [x Hx]%list_elem_of_lookup [y Hy]%list_elem_of_lookup H1 H2. destruct (decide (x = y)) as [-> |Hne].
  - assert (a = b) as -> by congruence. assert (Hz : compareFunc (mkOrdering (Some cmps) None 0) (q_Obj b) (q_Obj b) = 0); [|unfold precedes in *; lia].
    pose proof (proj2 (tc_eq _ position_total y y) eq_refl) as Hz. rewrite position_less_chain, (obj_of_lookup y b) in Hz by done.
    unfold compareFunc. cbn [o_cmps]. rewrite bcompare_refl in *. cbn in Hz. by rewrite Nat.compare_refl in Hz.
  - apply (position_precedes x y) in H1; [|done..]. apply (position_precedes y x) in H2; [|done..|lia].
    eapply (before_irrefl _ position_total x), before_trans; [apply position_total|done|done].
Qed.

Lemma precedes_unique l1 l2 :
  (forall a, a ∈ l1 -> a ∈ matched) -> l1 ≡ₚ l2 -> StronglySorted precedes l1 -> StronglySorted precedes l2 -> l1 = l2.
Proof.
  intros Hin Hp H1. revert l2 Hin Hp. induction H1 as [|x l1 H1 IH Hx]; intros l2 Hin Hp H2.
  - by apply Permutation_nil_l in Hp.
  - destruct H2 as [|y l2 H2 Hy]; [by apply Permutation_nil_r in Hp|].
    assert (x = y) as ->.
    { assert (Hxin : x ∈ y :: l2) by (rewrite <- Hp; by left). assert (Hyin : y ∈ x :: l1) by (rewrite Hp; by left).
      pose proof (Hin y Hyin). pose proof (Hin x ltac:(by left)).
      apply elem_of_cons in Hxin as [?|Hxin]; [done|]. apply elem_of_cons in Hyin as [?|Hyin]; [done|].
      rewrite Forall_forall in *. exfalso. apply (precedes_asym x y); auto. }
    f_equal. apply IH; [intros; apply Hin; by right| |done]. by apply Permutation_cons_inv in Hp.
Qed.

Lemma sortRecords_window less w :
  exists full out,
    mapM (fun pos => matched !! pos) (SortStableFunc position_less (seq 0 (length matched))) = Some full /\
    full ≡ₚ matched /\ StronglySorted precedes full /\
    sortRecords (mkOrdering (Some cmps) less w) matched = Some out /\ out ≡ₚ matched /\
    (out = full \/ 0 < w < Z.of_nat (length matched) /\ take (Z.to_nat w) out = take (Z.to_nat w) full).
Proof.
  set (order := seq 0 (length matched)). assert (Hno : NoDup order) by apply NoDup_seq.
  assert (Hlen : length order = length matched) by apply length_seq.
  assert (Hin : forall o, o ≡ₚ order -> forall k, k ∈ o -> (k < length matched)%nat).
  { intros o Ho k Hk. rewrite Ho in Hk. apply elem_of_seq in Hk. lia. }
  assert (Hperm : forall o l, o ≡ₚ order -> mapM (fun pos => matched !! pos) o = Some l -> l ≡ₚ matched).
  { intros o l Ho El. eapply mapM_perm; [exact Ho|exact El|apply mapM_seq]. }
  set (full_order := SortStableFunc position_less order).
  assert (Hfo : full_order ≡ₚ order) by apply SortStableFunc_perm.
  destruct (mapM_positions full_order (Hin _ Hfo)) as (full & Ef & _). exists full.
  assert (Hsf : StronglySorted precedes full).
  { eapply sorted_positions; [|by apply (SortStableFunc_sorted _ position_total order)|exact Ef]. fold full_order. by rewrite Hfo. }
  unfold sortRecords. cbn [o_cmps o_window]. fold rows row_ids position_less order. rewrite Hlen.
  destruct ((0 <? w) && (w <? Z.of_nat (length matched))) eqn:Ew.
  - apply andb_true_iff in Ew as [Ew1%Z.ltb_lt Ew2%Z.ltb_lt].
    destruct (select_sort_prefix position_less position_total order (Z.to_nat w) Hno) as (sel & Es & Hp & Ht); [lia|].
    rewrite Es. change (Some sel ≫= ?f) with (f sel). cbv beta. change (Some ?x ≫= ?f) with (f x). cbv beta.
    destruct (mapM_positions _ (Hin _ Hp)) as (out & Eo & _). exists out. split; [done|]. split; [exact (Hperm _ _ Hfo Ef)|]. split; [done|].
    split; [done|]. split; [exact (Hperm _ _ Hp Eo)|]. right. split; [lia|].
    apply (mapM_take _ (Z.to_nat w)) in Eo, Ef. rewrite Ht in Eo. fold full_order in Eo. congruence.
  - change (Some ?x ≫= ?f) with (f x). cbv beta. exists full. split; [done|]. split; [exact (Hperm _ _ Hfo Ef)|]. split; [done|]. split; [done|].
    split; [exact (Hperm _ _ Hfo Ef)|by left].
Qed.
End records.
End comparators.

(** C17: sorting a window is sorting.  For records whose sorted properties hold
    values of the declared kinds and whose ids differ, the comparators with
    the id tiebreak order them in exactly one way.  [sortRecords] - which
    decodes every value once, sorts positions, and with a window only selects
    and sorts the window - never indexes out of range, returns a
    rearrangement of the records, and every position a caller with that window
    reads holds what that one order puts there. *)
Theorem sortRecords_exact `{TP : TimeParse, CF : CaseFold} (cmps : list comparator) (less : option (Object -> Object -> Z)) (w : Z) (matched : list QueryRecord)
  (Hch : checked cmps (q_Obj <$> matched)) (Hids : NoDup (map (fun m => raw_id (q_Obj m)) matched)) :
  let precedes a b := compareFunc (mkOrdering (Some cmps) None 0) (q_Obj a) (q_Obj b) < 0 in
  exists full out,
    full ≡ₚ matched /\ StronglySorted precedes full /\
    (forall l, l ≡ₚ matched -> StronglySorted precedes l -> l = full) /\
    sortRecords (mkOrdering (Some cmps) less w) matched = Some out /\ out ≡ₚ matched /\
    (if (0 <? w) && (w <? Z.of_nat (length matched)) then take (Z.to_nat w) out = take (Z.to_nat w) full else out = full).
Proof.
  cbv zeta. apply checked_orderable in Hch.
  destruct (sortRecords_window cmps matched Hch Hids less w) as (full & out & _ & Hp & Hs & E & Hpo & Hw).
  exists full, out. split; [done|]. split; [done|]. split; [|split; [done|split; [done|]]].
  - intros l Hl Hsl. eapply (precedes_unique cmps matched Hch Hids); [|by rewrite Hl|done|done]. intros a Ha. by rewrite <- Hl.
  - destruct Hw as [-> |[Hr Ht]]; [by case_match|]. rewrite (proj2 (Z.ltb_lt 0 w)), (proj2 (Z.ltb_lt w _)) by lia. done.
Qed.

Section demo.
#[local] Existing Instances Instances.demo_time Instances.demo_fold.

Definition int_prop : Property := mkProperty KindInt false false true [] false false false false None.
Definition demo_cmps : list comparator := [mkComparator int_prop (bs "size") true false].
Definition demo_record (id : bytes) (size : Z) : QueryRecord :=
  mkQueryRecord id (<[bs "size" := FormatInt size]> (<[bs "id" := marshal_id id]> ∅)).
(** Twenty records with sizes 0, 7, 14, ... modulo 20. *)
Definition demo_records : list QueryRecord :=
  map (fun k => demo_record (bs "a" ++ FormatInt (100 + Z.of_nat k)) (7 * Z.of_nat k mod 20)) (seq 0 20).

Lemma demo_records_checked : checked demo_cmps (q_Obj <$> demo_records).
Proof.
  intros c o raw Hc Ho. apply list_elem_of_singleton in Hc as ->. cbn [c_name c_prop].
  assert (H : forallb (fun o => match o !! bs "size" with Some raw => is_ok (CheckValue int_prop raw) | None => true end) (q_Obj <$> demo_records) = true)
    by (vm_compute; reflexivity).
  rewrite forallb_forall in H. specialize (H o (proj1 (list_elem_of_In _ _) Ho)). intros E. rewrite E in H.
  by destruct (CheckValue int_prop raw) as [[]|].
Qed.
End demo.

Lemma sortRecords_exact_witness :
  exists out, @sortRecords Instances.demo_time Instances.demo_fold (mkOrdering (Some demo_cmps) None 3) demo_records = Some out /\
    out ≡ₚ demo_records /\ map q_Id (take 3 out) = [bs "a117"; bs "a114"; bs "a111"].
Proof.
  destruct (@sortRecords_exact Instances.demo_time Instances.demo_fold demo_cmps None 3 demo_records demo_records_checked)
    as (full & out & _ & _ & _ & E & Hp & _).
  - apply (bool_decide_unpack _). vm_compute. reflexivity.
  - exists out. split; [exact E|]. split; [exact Hp|].
    assert (Ec : (fun l => map q_Id (take 3 l)) <$> @sortRecords Instances.demo_time Instances.demo_fold (mkOrdering (Some demo_cmps) None 3) demo_records =
                 Some [bs "a117"; bs "a114"; bs "a111"]) by (vm_compute; reflexivity).
    rewrite E in Ec. injection Ec as Ec. exact Ec.
Defined.
End SortingFacts.
