(* ===== verification/Filter.v ===== *)
(** * Filter: filters and the index planner of Foo/query
      (core/runtime/query.go: parseFilter, matches, produce, evaluate)

    A filter is parsed once and evaluated in two ways: as a predicate over a
    loaded record, and as a set of candidate ids read from the indexes.  The
    evaluation loads the candidates, keeps those the predicate accepts and
    sorts them.  A type's own filter and sort semantics are parameters. *)

From S2P Require Import Prelude GoLib Keyenc Backend Jsonscan Jmap Descriptor Keys ObjectDB Sorting.

Module Filter.
Import Backend Jsonscan Jmap Descriptor Keys ObjectDB Sorting.

(** The JMAP error types the standard methods answer with (core/jmap/errors.go). *)
Inductive errType :=
  | ErrServerFail | ErrInvalidArguments | ErrAccountNotFound | ErrUnsupportedFilter | ErrUnsupportedSort | ErrAnchorNotFound
  | ErrCannotCalculate | ErrTooManyChanges | ErrAccountReadOnly | ErrRequestTooLarge | ErrStateMismatch
  | IndexPanic (* an index or slice expression out of range *)
  | NoFuel. (* the recursion bound of the model *)

Inductive outcome (A : Type) := Reply (a : A) | Fail (e : errType).
Arguments Reply {A} _.
Arguments Fail {A} _.

#[export] Instance outcome_bind : MBind outcome := fun A B f r => match r with Reply a => f a | Fail e => Fail e end.

(** An error of the object database is a [serverFail]. *)
Definition served {A} (r : result A) : outcome A := match r with Ok a => Reply a | Err _ => Fail ErrServerFail end.

(** ** Values *)

(** [json.Unmarshal] into a map, a string and a slice of raw values. *)
Definition json_object (raw : bytes) : option (gmap bytes bytes) :=
  match DecodeObject raw ∅ with Ok o => Some (default ∅ o) | Err _ => None end.

Definition json_string (raw : bytes) : option bytes := if isNull raw then Some [] else JString raw.

Fixpoint array_elems (fuel : nat) (s : bytes) : result (list bytes) :=
  match fuel with
  | O => Err OutOfFuel
  | S fuel' =>
      let s1 := skipSpace s in
      rest ← skip_value 1 s1;
      sep ← separator "]"%byte rest;
      if sep.1 : bool then es ← array_elems fuel' sep.2; Ok (span s1 rest :: es)
      else _ ← end_ sep.2; Ok [span s1 rest]
  end.

Definition json_array (raw : bytes) : option (list bytes) :=
  match (o ← open_container "["%byte "]"%byte raw;
         match o with ONull | OEmpty => Ok [] | OItems s => array_elems (S (length s)) s end) with
  | Ok es => Some es
  | Err _ => None
  end.

(** ** Filters *)

Inductive FilterOp := AND | OR | NOT.

(** [FNil] is the nil node: no filter. *)
Inductive filterNode := FNil | FOp (op : FilterOp) (children : list filterNode) | FCond (cond : gmap bytes bytes).

(** A type's own conditions: validation (whether an error is an
    [UnsupportedFilterError]), the predicate, and the optional index-backed
    candidate set with its exactness. *)
Record FilterSemantics (S : Type) := mkSemantics {
  fs_Validate : bytes -> bytes -> option bool;
  fs_Match : S -> Id -> Object -> bytes -> bytes -> result bool;
  fs_ConditionSet : option (S -> Id -> bytes -> bytes -> result (option (list Id * bool)));
}.
Arguments mkSemantics {S} _ _ _.
Arguments fs_Validate {S} _.
Arguments fs_Match {S} _.
Arguments fs_ConditionSet {S} _.

Definition filter_op (op : bytes) : option FilterOp :=
  if bool_decide (op = bs "AND") then Some AND
  else if bool_decide (op = bs "OR") then Some OR
  else if bool_decide (op = bs "NOT") then Some NOT
  else None.

Section filters.
Context `{MR : MapRange, TP : TimeParse, CF : CaseFold}.
Context {S : Type}.

(** The conditions of a leaf, in the order the map is ranged over. *)
Fixpoint check_conds (t : Type_) (sem : option (FilterSemantics S)) (conds : list (bytes * bytes)) : outcome unit :=
  match conds with
  | [] => Reply tt
  | (name, v) :: conds' =>
      match sem with
      | Some f =>
          match fs_Validate f name v with
          | Some true => Fail ErrUnsupportedFilter
          | Some false => Fail ErrInvalidArguments
          | None => check_conds t sem conds'
          end
      | None =>
          match t_Properties t !! name with
          | None => Fail ErrUnsupportedFilter
          | Some p =>
              if p_Internal p then Fail ErrUnsupportedFilter
              else match CheckValue p v with Err _ => Fail ErrInvalidArguments | Ok _ => check_conds t sem conds' end
          end
      end
  end.

(** The children of an operator share its budget. *)
Definition parse_children (parse : bytes -> Z -> outcome (filterNode * Z)) : list bytes -> Z -> outcome (list filterNode * Z) :=
  fix children cs budget :=
    match cs with
    | [] => Reply ([], budget)
    | c :: cs' =>
        nb ← parse c budget;
        rest ← children cs' nb.2;
        Reply (nb.1 :: rest.1, rest.2)
    end.

(** [budget] is what is left for the whole tree; each node spends one. *)
Fixpoint parseFilterNode (fuel : nat) (t : Type_) (sem : option (FilterSemantics S)) (raw : slice) (budget : Z) : outcome (filterNode * Z) :=
  match fuel with
  | O => Fail NoFuel
  | Datatypes.S fuel' =>
      let budget := budget - 1 in
      if budget <? 0 then Fail ErrUnsupportedFilter
      else
        match raw with
        | None => Reply (FNil, budget)
        | Some raw =>
            if isNull raw then Reply (FNil, budget)
            else
              match json_object raw with
              | None => Fail ErrInvalidArguments
              | Some m =>
                  match m !! bs "operator" with
                  | Some opRaw =>
                      match json_string opRaw ≫= filter_op with
                      | None => Fail ErrInvalidArguments
                      | Some op =>
                          match m !! bs "conditions" with
                          | None => Fail ErrInvalidArguments
                          | Some condsRaw =>
                              if negb (size m =? 2)%nat then Fail ErrInvalidArguments
                              else
                                match json_array condsRaw with
                                | None => Fail ErrInvalidArguments
                                | Some conds =>
                                    cb ← parse_children (fun c => parseFilterNode fuel' t sem (Some c)) conds budget;
                                    Reply (FOp op cb.1, cb.2)
                                end
                          end
                      end
                  | None => _ ← check_conds t sem (range_map m); Reply (FCond m, budget)
                  end
              end
        end
  end.

Definition parseFilter (maxNodes : Z) (t : Type_) (sem : option (FilterSemantics S)) (raw : slice) : outcome filterNode :=
  nb ← parseFilterNode (Datatypes.S (Z.to_nat maxNodes)) t sem raw maxNodes; Reply nb.1.

(** ** The predicate *)

Fixpoint match_conds (s : S) (acct : Id) (t : Type_) (sem : option (FilterSemantics S)) (obj : Object) (conds : list (bytes * bytes)) : result bool :=
  match conds with
  | [] => Ok true
  | (name, want) :: conds' =>
      match sem with
      | Some f =>
          ok ← fs_Match f s acct obj name want;
          if ok : bool then match_conds s acct t sem obj conds' else Ok false
      | None =>
          match obj !! name with
          | None => Ok false
          | Some got =>
              let p := default zeroProperty (t_Properties t !! name) in
              match SortKey p want, SortKey p got with
              | Ok wk, Ok gk => if bool_decide (wk = gk) then match_conds s acct t sem obj conds' else Ok false
              | _, _ => Ok false
              end
          end
      end
  end.

(** The loop over an operator's children: the first verdict equal to [stop] is
    the answer, [rest] when none is. *)
Definition match_first (stop rest : bool) (f : filterNode -> result bool) : list filterNode -> result bool :=
  fix go cs :=
    match cs with
    | [] => Ok rest
    | c :: cs' => ok ← f c; if bool_decide (ok = stop) then Ok stop else go cs'
    end.

Definition none_match (f : filterNode -> result bool) : list filterNode -> result bool :=
  fix go cs :=
    match cs with
    | [] => Ok true
    | c :: cs' => ok ← f c; if ok : bool then Ok false else go cs'
    end.

Fixpoint matches (s : S) (acct : Id) (t : Type_) (sem : option (FilterSemantics S)) (obj : Object) (n : filterNode) : result bool :=
  match n with
  | FNil => Ok true
  | FOp AND children => match_first false true (matches s acct t sem obj) children
  | FOp OR children => match_first true false (matches s acct t sem obj) children
  | FOp NOT children => none_match (matches s acct t sem obj) children
  | FCond cond => match_conds s acct t sem obj (range_map cond)
  end.

(** ** The planner *)

Context `{BE : Backend S}.

(** What a node produces: [None] is the universe, [Some (ids, exact)] a set of
    candidates and whether it is exactly the match set. *)
Abbreviation produced := (option (gset Id * bool)).

Definition sliceToSet (ids : list Id) : gset Id := list_to_set ids.

(** [intersectSets] iterates over the smaller set. *)
Definition intersectSets (a b : gset Id) : gset Id :=
  let '(a, b) := if (size b <? size a)%nat then (b, a) else (a, b) in filter (fun id => id ∈ b) a.

Definition produceCondition (db : DB) (s : S) (acct : Id) (t : Type_) (sem : option (FilterSemantics S)) (name value : bytes) : result produced :=
  match sem with
  | Some f =>
      match fs_ConditionSet f with
      | None => Ok None
      | Some cs => r ← cs s acct name value; Ok (option_map (fun ie : list Id * bool => (sliceToSet ie.1, ie.2)) r)
      end
  | None =>
      match t_Properties t !! name with
      | None => Ok None
      | Some p =>
          if negb (p_Indexed p) then Ok None
          else ids ← IdsWhereEqual db s acct (t_Name t) name value 0; Ok (Some (sliceToSet ids, true))
      end
  end.

(** The conditions of a leaf, by name; [acc] is [None] until one narrows. *)
Fixpoint leaf_loop (db : DB) (s : S) (acct : Id) (t : Type_) (sem : option (FilterSemantics S)) (cond : gmap bytes bytes)
  (names : list bytes) (acc : option (gset Id)) (exact : bool) : result produced :=
  match names with
  | [] => Ok (option_map (fun ids => (ids, exact)) acc)
  | name :: names' =>
      r ← produceCondition db s acct t sem name (default [] (cond !! name));
      match r with
      | None => leaf_loop db s acct t sem cond names' acc false
      | Some (ids, ex) =>
          let acc' := match acc with None => ids | Some a => intersectSets a ids end in
          leaf_loop db s acct t sem cond names' (Some acc') (exact && ex)
      end
  end.

Definition produceLeaf (db : DB) (s : S) (acct : Id) (t : Type_) (sem : option (FilterSemantics S)) (cond : gmap bytes bytes) : result produced :=
  leaf_loop db s acct t sem cond (sort_strings (range_map cond).*1) None true.

(** AND intersects what its children narrow to; OR is the universe as soon as
    one child is. *)
Definition produce_all (f : filterNode -> result produced) : list filterNode -> option (gset Id) -> bool -> result produced :=
  fix go cs acc exact :=
    match cs with
    | [] => Ok (option_map (fun ids => (ids, exact)) acc)
    | c :: cs' =>
        r ← f c;
        match r with
        | None => go cs' acc false
        | Some (ids, ex) => go cs' (Some (match acc with None => ids | Some a => intersectSets a ids end)) (exact && ex)
        end
    end.

Definition produce_any (f : filterNode -> result produced) : list filterNode -> gset Id -> bool -> result produced :=
  fix go cs acc exact :=
    match cs with
    | [] => Ok (Some (acc, exact))
    | c :: cs' =>
        r ← f c;
        match r with
        | None => Ok None
        | Some (ids, ex) => go cs' (acc ∪ ids) (exact && ex)
        end
    end.

Fixpoint produce (db : DB) (s : S) (acct : Id) (t : Type_) (sem : option (FilterSemantics S)) (n : filterNode) : result produced :=
  match n with
  | FNil => Ok None
  | FOp AND children => produce_all (produce db s acct t sem) children None true
  | FOp OR children => produce_any (produce db s acct t sem) children ∅ true
  | FOp NOT _ => Ok None
  | FCond cond => produceLeaf db s acct t sem cond
  end.

(** The set as a list, in the order a Go map is ranged over. *)
Definition range_set (ids : gset Id) : list Id := (range_map (gset_to_gmap tt ids)).*1.

Definition candidateSet (db : DB) (s : S) (acct : Id) (t : Type_) (sem : option (FilterSemantics S)) (root : filterNode)
  : result (option (list Id * bool)) :=
  r ← produce db s acct t sem root; Ok (option_map (fun ie : gset Id * bool => (range_set ie.1, ie.2)) r).

(** ** Evaluation *)

Fixpoint match_all (s : S) (acct : Id) (t : Type_) (sem : option (FilterSemantics S)) (root : filterNode)
  (l : list (Id * option Object)) : result (list QueryRecord) :=
  match l with
  | [] => Ok []
  | (id, None) :: l' => match_all s acct t sem root l'
  | (id, Some obj) :: l' =>
      ok ← matches s acct t sem obj root;
      rest ← match_all s acct t sem root l';
      Ok (if ok : bool then mkQueryRecord id obj :: rest else rest)
  end.

Definition loadAndMatch (db : DB) (s : S) (acct : Id) (t : Type_) (sem : option (FilterSemantics S)) (root : filterNode) (ids : list Id)
  (wanted : option (gmap bytes bool)) : result (list QueryRecord) :=
  objs ← GetManyProjected db s acct (t_Name t) ids wanted; match_all s acct t sem root (zip ids objs).

Definition dedupSortIds (ids : list Id) : list Id := sort_strings ids.

(** A type's query hooks: its conditions, the parser of its sorts, the key it
    groups by, its arrangement, and the declarations that say which of its
    names depend on a record alone. *)
Record QueryHooks := mkHooks {
  qh_Filter : option (FilterSemantics S);
  qh_Sort : option (Id -> list bytes -> outcome (option (Object -> Object -> Z)));
  qh_CollapseKey : bytes;
  qh_Arrange : option (Id -> list QueryRecord -> (Object -> Object -> Z) -> gmap bytes bytes -> result (list Id));
  qh_LocalConditions : gmap bytes (option (list bytes));
  qh_LocalSorts : gmap bytes (option (list bytes));
  qh_LocalArrange : bool;
  qh_GroupCompanion : bytes;
}.

(** [stdType] with the processor settings and limits it reads. *)
Record stdType := mkStd {
  sd_db : DB;
  sd_t : Type_;
  sd_hooks : option QueryHooks;
  sd_verifyProjection : bool;
  sd_MaxObjectsInGet : Z;
  sd_MaxFilterNodes : Z;
  sd_QueryChangesMaxWork : Z;
}.

Definition filterSemantics (st : stdType) : option (FilterSemantics S) := q ← sd_hooks st; qh_Filter q.
Definition collapseKey (st : stdType) : bytes := match sd_hooks st with Some q => qh_CollapseKey q | None => [] end.

Definition evaluateWith (st : stdType) (s : S) (acct : Id) (root : filterNode) (ord : ordering) (emptySort collapse : bool)
  (extra : gmap bytes bytes) (restrict : option (gset Id)) (wanted : option (gmap bytes bool)) : result (list Id) :=
  let sem := filterSemantics st in
  cand ← candidateSet (sd_db st) s acct (sd_t st) sem root;
  match cand, emptySort, collapse, restrict with
  | Some (set, true), true, false, None => Ok (dedupSortIds set)
  | _, _, _, _ =>
      candidates ← match cand with Some (set, _) => Ok set | None => AllIds (sd_db st) s acct (t_Name (sd_t st)) 0 end;
      let candidates := match restrict with None => candidates | Some r => filter (fun id => id ∈ r) candidates end in
      matched ← loadAndMatch (sd_db st) s acct (sd_t st) sem root candidates wanted;
      match sortRecords ord matched with
      | None => Err Panic
      | Some sorted =>
          let sorted := if collapse then collapseByKey sorted (collapseKey st) else sorted in
          match q ← sd_hooks st; qh_Arrange q with
          | Some arrange => arrange acct sorted (compareFunc ord) extra
          | None => Ok (map q_Id sorted)
          end
      end
  end.

Definition evaluate (st : stdType) (s : S) (acct : Id) (root : filterNode) (ord : ordering) (emptySort collapse : bool)
  (extra : gmap bytes bytes) (restrict : option (gset Id)) (wanted : option (gmap bytes bool)) : result (list Id) :=
  results ← evaluateWith st s acct root ord emptySort collapse extra restrict wanted;
  match wanted with
  | None => Ok results
  | Some _ =>
      if negb (sd_verifyProjection st) then Ok results
      else
        full ← evaluateWith st s acct root ord emptySort collapse extra restrict None;
        if bool_decide (results = full) then Ok results else Err (Errorf "projected query evaluation diverged")
  end.

(** ** What a query reads *)

Definition add_reads (reads : list bytes) (wanted : gmap bytes bool) : gmap bytes bool :=
  fold_left (fun w r => <[r := true]> w) reads wanted.

Fixpoint project_names (st : stdType) (names : list bytes) (wanted : gmap bytes bool) : option (gmap bytes bool) :=
  match names with
  | [] => Some wanted
  | name :: names' =>
      match filterSemantics st with
      | Some _ =>
          match q ← sd_hooks st; mjoin (qh_LocalConditions q !! name) with
          | Some reads => project_names st names' (add_reads reads wanted)
          | None => None
          end
      | None => project_names st names' (<[name := true]> wanted)
      end
  end.

Definition project_children (f : filterNode -> gmap bytes bool -> option (gmap bytes bool))
  : list filterNode -> gmap bytes bool -> option (gmap bytes bool) :=
  fix go cs wanted := match cs with [] => Some wanted | c :: cs' => w ← f c wanted; go cs' w end.

Fixpoint projectConds (st : stdType) (n : filterNode) (wanted : gmap bytes bool) : option (gmap bytes bool) :=
  match n with
  | FNil => Some wanted
  | FOp _ children => project_children (projectConds st) children wanted
  | FCond cond => project_names st (range_map cond).*1 wanted
  end.
End filters.
Arguments QueryHooks : clear implicits.
Arguments stdType : clear implicits.
End Filter.
