(* ===== verification/Query.v ===== *)
(** * Query: Foo/query and Foo/queryChanges (core/runtime/query.go)

    The decoded arguments are records; [encoding/json]'s decoding of a
    Comparator into a struct is a parameter.  An evaluation observes one store.
    [queryChanges] takes no lease: the state read, the log walk, the matching
    of the changed records, the evaluation and the closing sequence read of an
    attempt may each observe a different store. *)

From S2P Require Import Prelude GoLib Keyenc Backend Jsonscan Jmap Descriptor Keys ObjectDB Commit Changes Sorting Filter.

Module Query.
Import Backend Jsonscan Jmap Descriptor Keys ObjectDB Changes Sorting Filter.

(** [json.Unmarshal] into [struct{Property, IsAscending, Collation}] and into
    [struct{Property}]: the decoder skips members without a field, so the two
    read the same property. *)
Class ComparatorDecode := {
  unmarshal_comparator : bytes -> option (bytes * option bool * bytes);
  unmarshal_property : bytes -> option bytes;
  unmarshal_same : forall raw name asc collation, unmarshal_comparator raw = Some (name, asc, collation) -> unmarshal_property raw = Some name;
}.

(** The caller's accounts, each with its [ReadOnly] flag; [None] for a request
    without an identity. *)
Abbreviation Identity := (option (gmap Id bool)).

Definition checkAccount (ident : Identity) (acct : Id) (needWrite : bool) : outcome unit :=
  if bool_decide (acct = []) then Fail ErrInvalidArguments
  else match ident with
       | None => Fail ErrAccountNotFound
       | Some accounts =>
           match accounts !! acct with
           | None => Fail ErrAccountNotFound
           | Some readOnly => if needWrite && readOnly then Fail ErrAccountReadOnly else Reply tt
           end
       end.

Record queryArgs := mkQueryArgs {
  a_AccountId : Id;
  a_Filter : slice;
  a_Sort : list bytes;
  a_Position : Z;
  a_Anchor : option Id;
  a_AnchorOffset : Z;
  a_Limit : option Z;
  a_CalculateTotal : bool;
  a_CollapseThreads : option bool;
}.

Record queryResponse := mkQueryResponse {
  qr_QueryState : bytes;
  qr_CanCalculateChanges : bool;
  qr_Position : Z;
  qr_Ids : list Id;
  qr_Total : option Z;
  qr_Limit : option Z;
}.

Record queryChangesArgs := mkQueryChangesArgs {
  qc_AccountId : Id;
  qc_Filter : slice;
  qc_Sort : list bytes;
  qc_SinceQueryState : option bytes;
  qc_MaxChanges : option Z;
  qc_UpToId : option Id;
  qc_CalculateTotal : bool;
  qc_CollapseThreads : option bool;
}.

Record addedItem := mkAdded { ad_Id : Id; ad_Index : Z }.

Record queryChangesResponse := mkQueryChangesResponse {
  qcr_OldQueryState : bytes;
  qcr_NewQueryState : bytes;
  qcr_Total : option Z;
  qcr_Removed : list Id;
  qcr_Added : list addedItem;
}.

Definition setToSortedIds (set : gset Id) : list Id := sort_strings (elements set).

(** The position of the first occurrence. *)
Fixpoint index_of (id : Id) (l : list Id) (i : Z) : option Z :=
  match l with [] => None | x :: l' => if bool_decide (x = id) then Some i else index_of id l' (i + 1) end.

(** [results[lo:hi]] *)
Definition slice_of (l : list Id) (lo hi : Z) : outcome (list Id) :=
  if (0 <=? lo) && (lo <=? hi) && (hi <=? Z.of_nat (length l)) then Reply (take (Z.to_nat (hi - lo)) (drop (Z.to_nat lo) l))
  else Fail IndexPanic.

Section methods.
Context `{MR : MapRange, TP : TimeParse, CF : CaseFold, LC : LogCodec, CD : ComparatorDecode}.
Context {S : Type} `{BE : Backend S}.

(** ** Sorts *)

Fixpoint parseComparators (t : Type_) (raws : list bytes) : outcome (list comparator) :=
  match raws with
  | [] => Reply []
  | raw :: raws' =>
      match unmarshal_comparator raw with
      | None => Fail ErrInvalidArguments
      | Some (name, asc, collation) =>
          if bool_decide (name = []) then Fail ErrInvalidArguments
          else
            match t_Properties t !! name with
            | None => Fail ErrUnsupportedSort
            | Some p =>
                if p_Internal p then Fail ErrUnsupportedSort
                else
                  let descending := match asc with Some b => negb b | None => false end in
                  numeric ← match p_Kind p with
                            | KindString =>
                                if bool_decide (collation = []) || bool_decide (collation = bs "i;ascii-casemap") then Reply false
                                else if bool_decide (collation = bs "i;ascii-numeric") then Reply true
                                else Fail ErrUnsupportedSort
                            | _ => Reply false
                            end;
                  rest ← parseComparators t raws';
                  Reply (mkComparator p name descending numeric :: rest)
            end
      end
  end.

Definition buildCompare (st : stdType S) (acct : Id) (sortRaw : list bytes) : outcome ordering :=
  match q ← sd_hooks st; qh_Sort q with
  | Some parse => less ← parse acct sortRaw; Reply (mkOrdering None less 0)
  | None => cmps ← parseComparators (sd_t st) sortRaw; Reply (mkOrdering (Some cmps) None 0)
  end.

(** ** What a query reads *)

(** A sort's reads: the property, or what the type declares for it. *)
Fixpoint project_sorts (st : stdType S) (raws : list bytes) (wanted : gmap bytes bool) : option (gmap bytes bool) :=
  match raws with
  | [] => Some wanted
  | raw :: raws' =>
      name ← unmarshal_property raw;
      match sd_hooks st with
      | Some q =>
          match qh_Sort q with
          | Some _ => reads ← mjoin (qh_LocalSorts q !! name); project_sorts st raws' (add_reads reads wanted)
          | None => project_sorts st raws' (<[name := true]> wanted)
          end
      | None => project_sorts st raws' (<[name := true]> wanted)
      end
  end.

Definition queryProjection (st : stdType S) (root : filterNode) (sortRaw : list bytes) (collapse : bool) : option (gmap bytes bool) :=
  match q ← sd_hooks st; qh_Arrange q with
  | Some _ => None
  | None =>
      w1 ← projectConds st root (<[bs "id" := true]> ∅);
      w2 ← project_sorts st sortRaw w1;
      Some (if collapse then <[collapseKey st := true]> w2 else w2)
  end.

Fixpoint condsDeclared (n : filterNode) (declared : gmap bytes (option (list bytes))) : bool :=
  match n with
  | FNil => true
  | FOp _ children => forallb (fun c => condsDeclared c declared) children
  | FCond cond => forallb (fun nv => match declared !! nv.1 with Some _ => true | None => false end) (range_map cond)
  end.

Definition changeCalculable (st : stdType S) (root : filterNode) (sortRaw : list bytes) (collapse hasExtras : bool) : bool :=
  if hasExtras then false
  else
    match sd_hooks st with
    | None => true
    | Some q =>
        if match qh_Arrange q with Some _ => negb (qh_LocalArrange q) | None => false end then false
        else if collapse && bool_decide (qh_GroupCompanion q = []) then false
        else if match qh_Filter q with Some _ => negb (condsDeclared root (qh_LocalConditions q)) | None => false end then false
        else match qh_Sort q with
             | None => true
             | Some _ => forallb (fun raw => match unmarshal_property raw with
                                             | Some name => match qh_LocalSorts q !! name with Some _ => true | None => false end
                                             | None => false
                                             end) sortRaw
             end
    end.

(** The properties the conditions read and whether all are known. *)
Definition name_reads (st : stdType S) (acc : list bytes * bool) (name : bytes) : list bytes * bool :=
  match q ← sd_hooks st; _ ← qh_Filter q; Some q with
  | Some q =>
      match mjoin (qh_LocalConditions q !! name) with
      | Some reads => (acc.1 ++ reads, acc.2)
      | None => (acc.1, false)
      end
  | None => (acc.1 ++ [name], acc.2)
  end.

Definition children_reads (f : filterNode -> list bytes * bool) : list filterNode -> list bytes * bool :=
  fix go cs :=
    match cs with
    | [] => ([], true)
    | c :: cs' => let '(ps, k) := f c in let '(ps', k') := go cs' in (ps ++ ps', k && k')
    end.

Fixpoint cond_reads (st : stdType S) (n : filterNode) : list bytes * bool :=
  match n with
  | FNil => ([], true)
  | FOp _ children => children_reads (cond_reads st) children
  | FCond cond => fold_left (name_reads st) (range_map cond).*1 ([], true)
  end.

Fixpoint sort_reads (st : stdType S) (raws : list bytes) : option (list bytes * bool) :=
  match raws with
  | [] => Some ([], true)
  | raw :: raws' =>
      name ← unmarshal_property raw;
      if bool_decide (name = []) then None
      else
        rest ← sort_reads st raws';
        match q ← sd_hooks st; _ ← qh_Sort q; Some q with
        | Some q =>
            Some (match mjoin (qh_LocalSorts q !! name) with
                  | Some reads => (reads ++ rest.1, rest.2)
                  | None => (rest.1, false)
                  end)
        | None => Some (name :: rest.1, rest.2)
        end
  end.

Definition queryReads (st : stdType S) (root : filterNode) (sortRaw : list bytes) : list bytes * bool :=
  match sort_reads st sortRaw with
  | None => ([], false)
  | Some (ps', k') => let '(ps, k) := cond_reads st root in (ps ++ ps', k && k')
  end.

Definition narrowableSort (st : stdType S) (sortRaw : list bytes) : option bytes :=
  match sortRaw with
  | [raw] =>
      match q ← sd_hooks st; qh_Sort q with
      | Some _ => None
      | None =>
          match unmarshal_comparator raw with
          | None => None
          | Some (name, asc, collation) =>
              if bool_decide (name = []) || negb (bool_decide (collation = [])) then None
              else if match asc with Some b => negb b | None => false end then None
              else match t_Properties (sd_t st) !! name with
                   | Some p => if p_Indexed p then Some name else None
                   | None => None
                   end
          end
      end
  | _ => None
  end.

Definition queryStateOf (st : stdType S) (s : S) (acct : Id) : result bytes :=
  state ← TypeState (sd_db st) s acct (t_Name (sd_t st));
  match sd_hooks st with
  | None => Ok state
  | Some q =>
      if bool_decide (qh_GroupCompanion q = []) then Ok state
      else
        comp ← TypeState (sd_db st) s acct (qh_GroupCompanion q);
        match ParseInt state, ParseInt comp with
        | Some a, Some b => Ok (if a <? b then comp else state)
        | _, _ => Err (Errorf "non-numeric type state")
        end
  end.

(** ** Foo/query *)

(** Where the window starts: the anchor's index plus the offset, or the
    position, counted from the end when negative, and never below zero. *)
Definition window_start (a : queryArgs) (results : list Id) : outcome Z :=
  let total := Z.of_nat (length results) in
  position ← match a_Anchor a with
             | Some anchor =>
                 match index_of anchor results 0 with
                 | Some idx => Reply (int64 (idx + a_AnchorOffset a))
                 | None => Fail ErrAnchorNotFound
                 end
             | None => Reply (if a_Position a <? 0 then int64 (a_Position a + total) else a_Position a)
             end;
  Reply (if position <? 0 then 0 else position).

Definition query (st : stdType S) (s : S) (ident : Identity) (a : queryArgs) (extra : gmap bytes bytes) : outcome queryResponse :=
  _ ← checkAccount ident (a_AccountId a) false;
  if match a_CollapseThreads a with Some _ => bool_decide (collapseKey st = []) | None => false end then Fail ErrInvalidArguments
  else
    let collapse := default false (a_CollapseThreads a) in
    root ← parseFilter (sd_MaxFilterNodes st) (sd_t st) (filterSemantics st) (a_Filter a);
    ord ← buildCompare st (a_AccountId a) (a_Sort a);
    let serverCap := sd_MaxObjectsInGet st in
    if match a_Limit a with Some l => l <? 0 | None => false end then Fail ErrInvalidArguments
    else
      let limitChanged := match a_Limit a with Some l => serverCap <? l | None => true end in
      let limit := if limitChanged then serverCap else default serverCap (a_Limit a) in
      let ord :=
        match a_Anchor a, q ← sd_hooks st; qh_Arrange q with
        | None, None =>
            if (0 <=? a_Position a) && negb collapse then mkOrdering (o_cmps ord) (o_less ord) (int64 (a_Position a + limit)) else ord
        | _, _ => ord
        end in
      results ← served (evaluate st s (a_AccountId a) root ord (length (a_Sort a) =? 0)%nat collapse extra None
                          (queryProjection st root (a_Sort a) collapse));
      let total := Z.of_nat (length results) in
      position ← window_start a results;
      let windowEnd := int64 (position + limit) in
      let windowEnd := if total <? position then position else if total <? windowEnd then total else windowEnd in
      ids ← (if position <? total then slice_of results position windowEnd else Reply []);
      queryState ← served (queryStateOf st s (a_AccountId a));
      Reply (mkQueryResponse queryState (changeCalculable st root (a_Sort a) collapse (negb (bool_decide (extra = ∅)))) position ids
               (if a_CalculateTotal a then Some total else None) (if limitChanged then Some limit else None)).

(** ** Foo/queryChanges *)

(** The stores one attempt observes. *)
Record attemptStores := mkAttempt {
  at_state : S; at_seq : S; at_floor : S; at_log : S; at_floor2 : S; at_groups : S; at_match : S; at_anchor : S; at_eval : S; at_after : S;
}.

Definition tooMany (a : queryChangesArgs) (count : Z) : bool := match qc_MaxChanges a with Some m => m <? count | None => false end.

(** Expand the changed groups to their members within the budget. *)
Fixpoint expand_groups (st : stdType S) (s : S) (acct : Id) (key : bytes) (budget spent : Z) (groups : list Id) (expanded : gset Id)
  : outcome (gset Id) :=
  match groups with
  | [] => Reply expanded
  | gid :: groups' =>
      members ← served (IdsWhereEqual (sd_db st) s acct (t_Name (sd_t st)) key (marshal_id gid) (budget - spent + 1));
      let spent := spent + Z.of_nat (length members) in
      if budget <? spent then Fail ErrCannotCalculate
      else expand_groups st s acct key budget spent groups' (expanded ∪ list_to_set members)
  end.

(** The added items up to the anchor's index, as long as the client takes
    them. *)
Fixpoint collect_added (a : queryChangesArgs) (addCand : gset Id) (trim : option Z) (results : list Id) (i count : Z) (acc : list addedItem)
  : outcome (list addedItem) :=
  match results with
  | [] => Reply acc
  | id :: results' =>
      if match trim with Some k => k <? i | None => false end then Reply acc
      else if decide (id ∈ addCand) then
        if tooMany a (count + 1) then Fail ErrTooManyChanges
        else collect_added a addCand trim results' (i + 1) (count + 1) (acc ++ [mkAdded id i])
      else collect_added a addCand trim results' (i + 1) count acc
  end.

(** The range the evaluation is narrowed to, when the anchor bounds it. *)
Definition anchor_range (st : stdType S) (s : S) (acct : Id) (root : filterNode) (sortRaw : list bytes) (upTo : Id) : outcome (option (gset Id)) :=
  match narrowableSort st sortRaw with
  | None => Reply None
  | Some prop =>
      match Get (sd_db st) s acct (t_Name (sd_t st)) upTo with
      | Err _ => Reply None
      | Ok o =>
          let anchorObj := default ∅ o in
          match matches s acct (sd_t st) (filterSemantics st) anchorObj root with
          | Ok true =>
              match anchorObj !! prop with
              | None => Reply None
              | Some val => ids ← served (IdsWhereAtMost (sd_db st) s acct (t_Name (sd_t st)) prop (Some val) 0); Reply (Some (sliceToSet ids))
              end
          | _ => Reply None
          end
      end
  end.

(** What one attempt comes to: an answer, or [None] when a commit slipped in
    between the walk and the evaluation. *)
Definition attempt (st : stdType S) (x : attemptStores) (a : queryChangesArgs) (root : filterNode) (ord : ordering) (collapse : bool)
  (sinceState : bytes) (since : Z) : outcome (option queryChangesResponse) :=
  let acct := qc_AccountId a in
  newState ← served (queryStateOf st (at_state x) acct);
  newNum ← match ParseInt newState with Some n => Reply n | None => Fail ErrServerFail end;
  if (newNum <=? since) && negb (qc_CalculateTotal a) then
    Reply (Some (mkQueryChangesResponse sinceState newState None [] []))
  else
    let budget := sd_QueryChangesMaxWork st in
    let companion := match sd_hooks st with Some q => qh_GroupCompanion q | None => [] end in
    let types := t_Name (sd_t st) :: (if collapse then [companion] else []) in
    cu ← match ChangedSince (sd_db st) (at_seq x) (at_floor x) (at_log x) (at_floor2 x) acct types since budget budget with
         | Ok cu => Reply cu
         | Err ErrCannotCalculateChanges => Fail ErrCannotCalculate
         | Err _ => Fail ErrServerFail
         end;
    let '(changed, upTo) := cu in
    let no_changes := mkTypeChanges [] [] [] in
    let primary := default no_changes (changed !! t_Name (sd_t st)) in
    let created := sliceToSet (tc_Created primary) in
    let updated := sliceToSet (tc_Updated primary) in
    let destroyed := sliceToSet (tc_Destroyed primary) in
    expanded ← (if collapse then
                  let comp := default no_changes (changed !! companion) in
                  expand_groups st (at_groups x) acct (collapseKey st) budget
                    (Z.of_nat (size created) + Z.of_nat (size updated) + Z.of_nat (size destroyed))
                    (tc_Created comp ++ tc_Updated comp ++ tc_Destroyed comp) ∅
                else Reply ∅);
    let '(reads, readsKnown) := queryReads st root (qc_Sort a) in
    let immutable := readsKnown && negb collapse &&
      forallb (fun p => p_Immutable (default zeroProperty (t_Properties (sd_t st) !! p))) reads in
    let removedSet := if immutable then destroyed else destroyed ∪ updated ∪ (expanded ∖ created) in
    let addCand := if immutable then created else updated ∪ created ∪ expanded in
    let removed := setToSortedIds removedSet in
    if tooMany a (Z.of_nat (length removed)) then Fail ErrTooManyChanges
    else
      let wanted := queryProjection st root (qc_Sort a) collapse in
      quiet ← (if qc_CalculateTotal a then Reply false
               else matched ← served (loadAndMatch (sd_db st) (at_match x) acct (sd_t st) (filterSemantics st) root (setToSortedIds addCand) wanted);
                    Reply (length matched =? 0)%nat);
      if quiet : bool then Reply (Some (mkQueryChangesResponse sinceState newState None removed []))
      else
        let anchor := if immutable then qc_UpToId a else None in
        restrict ← match anchor with
                   | Some up => if qc_CalculateTotal a then Reply None else anchor_range st (at_anchor x) acct root (qc_Sort a) up
                   | None => Reply None
                   end;
        results ← served (evaluate st (at_eval x) acct root ord (length (qc_Sort a) =? 0)%nat collapse ∅ restrict wanted);
        let total := if qc_CalculateTotal a then Some (Z.of_nat (length results)) else None in
        let trim := up ← anchor; index_of up results 0 in
        added ← collect_added a addCand trim results 0 (Z.of_nat (length removed)) [];
        let resp := mkQueryChangesResponse sinceState newState total removed added in
        if negb (length added =? 0)%nat || qc_CalculateTotal a then
          after ← served (Sequence (at_after x) acct);
          Reply (if upTo <? after then None else Some resp)
        else Reply (Some resp).

(** [s_seq]: the store of the opening sequence read; [x0], [x1]: those of the
    first attempt and of the one redo. *)
Definition queryChanges (st : stdType S) (s_seq : S) (x0 x1 : attemptStores) (ident : Identity) (a : queryChangesArgs)
  : outcome queryChangesResponse :=
  _ ← checkAccount ident (qc_AccountId a) false;
  if match qc_CollapseThreads a with Some _ => bool_decide (collapseKey st = []) | None => false end then Fail ErrInvalidArguments
  else
    let collapse := default false (qc_CollapseThreads a) in
    match qc_SinceQueryState a with
    | None => Fail ErrInvalidArguments
    | Some sinceState =>
        if match qc_MaxChanges a with Some m => (m <? 0) || negb (ValidUnsignedInt m) | None => false end then Fail ErrInvalidArguments
        else
          root ← parseFilter (sd_MaxFilterNodes st) (sd_t st) (filterSemantics st) (qc_Filter a);
          ord ← buildCompare st (qc_AccountId a) (qc_Sort a);
          if negb (changeCalculable st root (qc_Sort a) collapse false) then Fail ErrCannotCalculate
          else
            match ParseInt sinceState with
            | None => Fail ErrCannotCalculate
            | Some since =>
                if since <? 0 then Fail ErrCannotCalculate
                else
                  global ← served (Sequence s_seq (qc_AccountId a));
                  if global <? since then Fail ErrCannotCalculate
                  else
                    r0 ← attempt st x0 a root ord collapse sinceState since;
                    match r0 with
                    | Some resp => Reply resp
                    | None =>
                        r1 ← attempt st x1 a root ord collapse sinceState since;
                        match r1 with Some resp => Reply resp | None => Fail ErrCannotCalculate end
                    end
            end
    end.
End methods.
Arguments attemptStores : clear implicits.
End Query.
