(* ===== verification/FilterFacts.v ===== *)
(** * FilterFacts: the planner narrows, never decides

    A filter's candidate set contains every match, and is the match set when
    the planner calls it exact; so the evaluation returns exactly the matching
    records in the one order the sort defines. *)

From S2P Require Import Prelude GoLib Keyenc Backend Batches Memory Jsonscan Jsonwords Jsongrammar Jsonobject Jmap Descriptor Keys ObjectDB SetIndex.
From S2P Require Import Commit Indexing CommitFacts Instances CommitIndex Reach Typed Queries Sorting SortingFacts Filter.

Module FilterFacts.
Import Keyenc Backend Batches Jsonscan Jsonwords Jsongrammar Jsonobject Jmap Descriptor Keys ObjectDB Commit Indexing CommitFacts CommitIndex Reach Typed Queries.
Import Sorting SortingFacts Filter.

(** ** Filter trees *)

Section tree_ind.
Variable P : filterNode -> Prop.
Hypothesis Hnil : P FNil.
Hypothesis Hop : forall op children, Forall P children -> P (FOp op children).
Hypothesis Hcond : forall cond, P (FCond cond).

Fixpoint filterNode_rect (n : filterNode) : P n :=
  match n with
  | FNil => Hnil
  | FOp op children =>
      Hop op children ((fix go (cs : list filterNode) : Forall P cs :=
                          match cs with [] => @List.Forall_nil _ P | c :: cs' => @List.Forall_cons _ P c cs' (filterNode_rect c) (go cs') end) children)
  | FCond cond => Hcond cond
  end.
End tree_ind.

(** Every condition of the tree satisfies [C]. *)
Fixpoint all_conds (C : bytes -> bytes -> Prop) (n : filterNode) : Prop :=
  match n with
  | FNil => True
  | FOp _ children => (fix go (cs : list filterNode) : Prop := match cs with [] => True | c :: cs' => all_conds C c /\ go cs' end) children
  | FCond cond => forall name v, cond !! name = Some v -> C name v
  end.

Lemma all_conds_children C op children : all_conds C (FOp op children) <-> Forall (all_conds C) children.
Proof.
  cbn [all_conds]. induction children as [|c cs IH]; [split; [constructor|done]|]. rewrite Forall_cons, <- IH. done.
Qed.

Lemma all_conds_impl (C D : bytes -> bytes -> Prop) n : (forall name v, C name v -> D name v) -> all_conds C n -> all_conds D n.
Proof.
  intros HCD. induction n as [|op children IH|cond] using filterNode_rect; [done| |].
  - rewrite !all_conds_children. intros Hc. rewrite Forall_forall in *. auto.
  - cbn. eauto.
Qed.

Lemma all_conds_and (C D : bytes -> bytes -> Prop) n : all_conds C n -> all_conds D n -> all_conds (fun name v => C name v /\ D name v) n.
Proof.
  induction n as [|op children IH|cond] using filterNode_rect; [done| |].
  - rewrite !all_conds_children, !Forall_forall. rewrite Forall_forall in IH. auto.
  - cbn [all_conds]. auto.
Qed.

(** The nodes of a tree, the nil ones included. *)
Fixpoint nodes (n : filterNode) : Z :=
  match n with
  | FOp _ children => 1 + (fix go (cs : list filterNode) : Z := match cs with [] => 0 | c :: cs' => nodes c + go cs' end) children
  | _ => 1
  end.

(** ** Parsing *)

Section parse.
Context `{MR : MapRange, TP : TimeParse, CF : CaseFold} {S : Type}.
Variable t : Type_.

(** A condition of the core language: a visible declared property and a value
    of its kind. *)
Definition core_cond (name v : bytes) : Prop :=
  exists p, t_Properties t !! name = Some p /\ p_Internal p = false /\ CheckValue p v = Ok tt.

Lemma check_conds_core (l : list (bytes * bytes)) name v :
  check_conds (S := S) t None l = Reply tt -> (name, v) ∈ l -> core_cond name v.
Proof.
  induction l as [|[n w] l IH]; intros Hc Hin; [by apply not_elem_of_nil in Hin|]. cbn [check_conds] in Hc.
  destruct (t_Properties t !! n) as [p|] eqn:Ep; [|done]. destruct (p_Internal p) eqn:Ei; [done|].
  destruct (CheckValue p w) as [[]|] eqn:Ev; [|done]. apply elem_of_cons in Hin as [[= -> ->]|Hin]; [|auto]. by exists p.
Qed.

Lemma check_conds_fuel sem (l : list (bytes * bytes)) : check_conds (S := S) t sem l <> Fail NoFuel.
Proof.
  induction l as [|[n w] l IH]; [done|]. cbn [check_conds]. destruct sem as [f|].
  - by destruct (fs_Validate f n w) as [[]|].
  - destruct (t_Properties t !! n) as [p|]; [|done]. destruct (p_Internal p); [done|]. by destruct (CheckValue p w).
Qed.

Definition parsed_ok (sem : option (FilterSemantics S)) (budget : Z) (r : outcome (filterNode * Z)) : Prop :=
  r <> Fail NoFuel /\ forall n b, r = Reply (n, b) -> 0 <= b /\ budget = b + nodes n /\ (sem = None -> all_conds core_cond n).

Lemma parse_children_ok fuel sem conds budget :
  (forall raw b, 0 <= b < Z.of_nat fuel -> parsed_ok sem b (parseFilterNode fuel t sem raw b)) ->
  0 <= budget < Z.of_nat fuel ->
  let r := parse_children (fun c => parseFilterNode fuel t sem (Some c)) conds budget in
  r <> Fail NoFuel /\ forall cs b, r = Reply (cs, b) ->
    0 <= b /\ budget + 1 = b + nodes (FOp AND cs) /\ (sem = None -> Forall (all_conds core_cond) cs).
Proof.
  intros Hrec. revert budget. induction conds as [|c conds IH]; intros budget Hb.
  { cbn. split; [done|]. intros cs b [= <- <-]. cbn. split; [lia|]. split; [lia|constructor]. }
  destruct (Hrec (Some c) budget Hb) as [Hnf Hok]. cbn [parse_children]. destruct (parseFilterNode fuel t sem (Some c) budget) as [[n b1]|e]; cbn [mbind outcome_bind fst snd]; [|split; [by intros [= ->]|done]].
  destruct (Hok n b1 eq_refl) as (Hb1 & E1 & Hc1).
  assert (Hpos : 0 < nodes n) by (clear; induction n as [|op children IH|cond] using filterNode_rect; cbn [nodes]; [lia| |lia]; induction IH; lia).
  destruct (IH b1) as [Hnf' Hok']; [lia|]. set (r := parse_children _ conds b1) in *.
  destruct r as [[cs b2]|e]; cbn [mbind outcome_bind fst snd]; [|split; [by intros [= ->]|done]].
  destruct (Hok' cs b2 eq_refl) as (Hb2 & E2 & Hc2). split; [done|]. intros cs' b [= <- <-]. cbn [nodes] in *. split; [lia|]. split; [lia|].
  intros Hs. constructor; auto.
Qed.

Lemma parseFilterNode_ok fuel sem raw budget : 0 <= budget < Z.of_nat fuel -> parsed_ok sem budget (parseFilterNode fuel t sem raw budget).
Proof.
  revert raw budget. induction fuel as [|fuel IH]; intros raw budget Hb; [lia|]. cbn [parseFilterNode].
  destruct (Z.ltb_spec (budget - 1) 0) as [Hlt|Hge]; [done|].
  assert (Hnil : parsed_ok sem budget (Reply (FNil, budget - 1))).
  { split; [done|]. intros n b [= <- <-]. cbn. split; [lia|]. split; [lia|done]. }
  destruct raw as [raw|]; [|done]. destruct (isNull raw); [done|]. destruct (json_object raw) as [m|]; [|done].
  destruct (m !! bs "operator") as [opRaw|].
  - destruct (json_string opRaw ≫= filter_op) as [op|]; [|done]. destruct (m !! bs "conditions") as [condsRaw|]; [|done].
    destruct (negb _); [done|]. destruct (json_array condsRaw) as [conds|]; [|done].
    destruct (parse_children_ok fuel sem conds (budget - 1)) as [Hnf Hok]; [auto|lia|].
    set (r := parse_children _ conds (budget - 1)) in *.
    destruct r as [[cs b]|e]; cbn [mbind outcome_bind fst snd]; [|split; [by intros [= ->]|done]].
    destruct (Hok cs b eq_refl) as (H1 & H2 & H3). split; [done|]. intros n b' [= <- <-]. cbn [nodes] in *. split; [lia|]. split; [lia|].
    intros Hs. apply all_conds_children. auto.
  - pose proof (check_conds_fuel sem (range_map m)) as Hnf. destruct (check_conds t sem (range_map m)) as [[]|e] eqn:Ec; cbn [mbind outcome_bind]; [|split; [by intros [= ->]|done]].
    split; [done|]. intros n b [= <- <-]. cbn [nodes all_conds]. split; [lia|]. split; [lia|]. intros -> name v Hv.
    eapply check_conds_core; [exact Ec|]. by apply elem_of_range_map.
Qed.

Lemma parseFilter_ok maxNodes (sem : option (FilterSemantics S)) raw :
  0 <= maxNodes -> parseFilter maxNodes t sem raw <> Fail NoFuel /\
  forall n, parseFilter maxNodes t sem raw = Reply n -> nodes n <= maxNodes /\ (sem = None -> all_conds core_cond n).
Proof.
  intros Hm. unfold parseFilter. destruct (parseFilterNode_ok (Datatypes.S (Z.to_nat maxNodes)) sem raw maxNodes) as [Hnf Hok]; [lia|].
  destruct (parseFilterNode _ _ _ _ _) as [[n b]|e]; cbn [mbind outcome_bind fst]; [|split; [by intros [= ->]|done]].
  destruct (Hok n b eq_refl) as (Hb & En & Hc). split; [done|]. intros n' [= <-]. split; [lia|done].
Qed.
End parse.

(** C19: filter parsing is bounded.  Whatever the client sends, the recursion
    of [parseFilter] ends within the node budget, never deeper; a tree it
    accepts has at most [MaxFilterNodes] nodes, and for a type without its
    own semantics each condition names a visible declared property with a
    value of that property's kind. *)
Theorem parseFilter_bounded `{MR : MapRange, TP : TimeParse, CF : CaseFold} {S : Type}
  (t : Type_) (sem : option (FilterSemantics S)) (maxNodes : Z) (raw : slice) (Hm : 0 <= maxNodes) :
  parseFilter maxNodes t sem raw <> Fail NoFuel /\
  forall n, parseFilter maxNodes t sem raw = Reply n ->
    nodes n <= maxNodes /\
    (sem = None -> all_conds (fun name v => exists p, t_Properties t !! name = Some p /\ p_Internal p = false /\ CheckValue p v = Ok tt) n).
Proof. by apply parseFilter_ok. Qed.

Section demo_filter.
#[local] Existing Instances map_order Instances.demo_time Instances.demo_fold.

(** {operator: NOT, conditions: [{title: hi}, null]} *)
Definition demo_filter : bytes :=
  bs "{" ++ quoted (bs "operator") ++ bs ":" ++ quoted (bs "NOT") ++ bs "," ++ quoted (bs "conditions") ++ bs ":[{" ++
  quoted (bs "title") ++ bs ":" ++ quoted (bs "hi") ++ bs "}, null]}".

Lemma demo_filter_parses :
  exists n, parseFilter (S := unit) 3 Instances.demo_type None (Some demo_filter) = Reply n /\ nodes n = 3.
Proof. eexists. split; vm_compute; reflexivity. Qed.
End demo_filter.

Lemma parseFilter_bounded_witness :
  exists n, @parseFilter map_order Instances.demo_time unit 3 Instances.demo_type None (Some demo_filter) = Reply n /\ nodes n <= 3 /\
    @parseFilter map_order Instances.demo_time unit 2 Instances.demo_type None (Some demo_filter) = Fail ErrUnsupportedFilter.
Proof.
  destruct demo_filter_parses as (n & E & _). exists n. split; [exact E|]. split; [|vm_compute; reflexivity].
  destruct (@parseFilter_bounded map_order Instances.demo_time Instances.demo_fold unit Instances.demo_type None 3 (Some demo_filter)) as [_ H];
    [discriminate|]. destruct (H n E) as [Hn _]. exact Hn.
Defined.

(** ** The planner *)

(** What a component that answers filter conditions promises the planner, over
    the records [stored] of a type: a verdict for every record, and candidates
    that contain every match and, where they are called exact, nothing else. *)
Section planner.
Context `{MR : MapRange, TP : TimeParse, CF : CaseFold} {S : Type} `{BE : Backend S}.
Variable db : DB.
Variable s : S.
Variable acct : Id.
Variable t : Type_.
Variable sem : option (FilterSemantics S).
Variable stored : Id -> Object -> Prop.

(** [acc], exact or not, are the candidates for the property [P]; [None] is
    the universe, exact when every record has [P]. *)
Definition candidates (P : Object -> Prop) (acc : option (gset Id)) (exact : bool) : Prop :=
  match acc with
  | None => exact = true -> forall id o, stored id o -> P o
  | Some ids => (forall id o, stored id o -> P o -> id ∈ ids) /\ (exact = true -> forall id, id ∈ ids -> exists o, stored id o /\ P o)
  end.

Definition planned (P : Object -> Prop) (r : option (gset Id * bool)) : Prop :=
  match r with None => True | Some (ids, ex) => candidates P (Some ids) ex end.

Record cond_contract (name v : bytes) : Prop := mkContract {
  cc_total : forall id o, stored id o -> exists b, match_conds s acct t sem o [(name, v)] = Ok b;
  cc_cover : exists r, produceCondition db s acct t sem name v = Ok r /\ planned (fun o => match_conds s acct t sem o [(name, v)] = Ok true) r;
}.

Hypothesis stored_fun : forall id o o', stored id o -> stored id o' -> o = o'.

Definition narrow (acc : option (gset Id)) (exact : bool) (r : option (gset Id * bool)) : option (gset Id) * bool :=
  match r with
  | None => (acc, false)
  | Some (ids, ex) => (Some (match acc with None => ids | Some a => intersectSets a ids end), exact && ex)
  end.

Lemma elem_of_intersectSets a b id : id ∈ intersectSets a b <-> id ∈ a /\ id ∈ b.
Proof. unfold intersectSets. destruct (size b <? size a)%nat; rewrite elem_of_filter; tauto. Qed.

Lemma candidates_ext (P Q : Object -> Prop) (acc : option (gset Id)) (exact : bool) : (forall id o, stored id o -> P o <-> Q o) -> candidates P acc exact -> candidates Q acc exact.
Proof.
  intros HPQ. unfold candidates. destruct acc as [ids|].
  - intros [H1 H2]. split; [intros id o Ho HQ; apply (H1 id o Ho), (HPQ id o Ho), HQ|].
    intros He id Hin. destruct (H2 He id Hin) as (o & Ho & HP). exists o. split; [done|]. by apply (HPQ id o Ho).
  - intros H He id o Ho. apply (HPQ id o Ho). eauto.
Qed.

(** The step the leaf's conditions and AND's children share. *)
Lemma candidates_and (P Q : Object -> Prop) (acc : option (gset Id)) (exact : bool) r :
  candidates P acc exact -> planned Q r -> candidates (fun o => P o /\ Q o) (narrow acc exact r).1 (narrow acc exact r).2.
Proof.
  intros Hp Hq. destruct r as [[ids ex]|]; cbn [narrow fst snd].
  - destruct Hq as [Hq1 Hq2]. destruct acc as [a|]; cbn in *.
    + destruct Hp as [Hp1 Hp2]. split.
      * intros id o Ho [HP HQ]. apply elem_of_intersectSets. eauto.
      * intros [He Hx]%andb_true_iff id [Ha Hi]%elem_of_intersectSets. destruct (Hp2 He id Ha) as (o & Ho & HP).
        destruct (Hq2 Hx id Hi) as (o' & Ho' & HQ). exists o. rewrite <- (stored_fun id o o') in HQ by done. auto.
    + split; [intros id o Ho [HP HQ]; eauto|]. intros [He Hx]%andb_true_iff id Hi.
      destruct (Hq2 Hx id Hi) as (o & Ho & HQ). exists o. eauto.
  - unfold candidates in *. destruct acc as [a|]; [|done]. destruct Hp as [Hp1 _]. split; [|done]. intros id o Ho [HP _]. eauto.
Qed.

Lemma planned_option P acc (exact : bool) : candidates P acc exact -> planned P (option_map (fun ids => (ids, exact)) acc).
Proof. by destruct acc. Qed.

(** ** Leaves *)

Lemma match_conds_cons o c l b :
  match_conds s acct t sem o [c] = Ok b -> match_conds s acct t sem o (c :: l) = (if b then match_conds s acct t sem o l else Ok false).
Proof.
  destruct c as [name v]. cbn [match_conds]. destruct sem as [f|].
  - destruct (fs_Match f s acct o name v) as [[]|]; cbn [mbind result_bind]; by intros [= <-].
  - destruct (o !! name) as [got|]; [|by intros [= <-]]. set (p := default zeroProperty _).
    destruct (SortKey p v), (SortKey p got); try (by intros [= <-]). destruct (bool_decide _); by intros [= <-].
Qed.

Definition conds_hold (l : list (bytes * bytes)) (o : Object) : Prop := Forall (fun c => match_conds s acct t sem o [c] = Ok true) l.

Lemma match_conds_all id o l :
  stored id o -> Forall (fun c => cond_contract c.1 c.2) l ->
  exists b, match_conds s acct t sem o l = Ok b /\ (b = true <-> conds_hold l o).
Proof.
  intros Ho. induction 1 as [|[name v] l Hc _ (b & IH & Hb)]; [exists true; split; [done|]; split; [constructor|done]|].
  destruct (cc_total _ _ Hc id o Ho) as (b1 & E1). cbn [fst snd] in E1. rewrite (match_conds_cons o (name, v) l b1 E1). 
  assert (Hh : conds_hold ((name, v) :: l) o <-> b1 = true /\ conds_hold l o).
  { unfold conds_hold. rewrite Forall_cons, E1. split; [by intros [[= ->] ?]|by intros [-> ?]]. }
  destruct b1.
  - exists b. split; [done|]. rewrite Hb, Hh. tauto.
  - exists false. split; [done|]. rewrite Hh. split; [done|by intros [? _]].
Qed.

Lemma leaf_loop_planned (cond : Object) (names : list bytes) (acc : option (gset Id)) (exact : bool) (P : Object -> Prop) :
  (forall name, name ∈ names -> exists v, cond !! name = Some v /\ cond_contract name v) -> candidates P acc exact ->
  exists r, leaf_loop db s acct t sem cond names acc exact = Ok r /\
    planned (fun o => P o /\ conds_hold (map (fun name => (name, default [] (cond !! name))) names) o) r.
Proof.
  revert acc exact P. induction names as [|name names IH]; intros acc exact P Hn Hp.
  { eexists. split; [done|]. apply planned_option. eapply candidates_ext; [|exact Hp]. intros id o _. split; [split; [done|constructor]|tauto]. }
  destruct (Hn name) as (v & Hv & Hc); [by left|]. destruct (cc_cover _ _ Hc) as (r & Er & Hr).
  cbn [leaf_loop]. rewrite Hv. change (default [] (Some v)) with v. rewrite Er. cbn [mbind result_bind].
  pose proof (candidates_and P _ acc exact r Hp Hr) as Hand.
  destruct (IH (narrow acc exact r).1 (narrow acc exact r).2 _ (fun nm H => Hn nm (proj2 (elem_of_cons _ _ _) (or_intror H))) Hand) as (r' & Er' & Hr').
  exists r'. split; [destruct r as [[ids ex]|]; exact Er'|]. destruct r' as [[ids ex]|]; [|done]. unfold planned in *. eapply candidates_ext; [|exact Hr'].
  intros id o _. cbn [map]. rewrite Hv. unfold conds_hold. rewrite Forall_cons. cbn. tauto.
Qed.

Lemma leaf_conds cond : all_conds cond_contract (FCond cond) -> Forall (fun c => cond_contract c.1 c.2) (range_map cond).
Proof. cbn [all_conds]. intros Hc. apply Forall_forall. intros [name v] Hin. apply Hc. by apply elem_of_range_map. Qed.

Lemma leaf_names cond o :
  conds_hold (map (fun name => (name, default [] (cond !! name))) (sort_strings (range_map cond).*1)) o <-> conds_hold (range_map cond) o.
Proof.
  unfold conds_hold. rewrite !Forall_forall. split.
  - intros H [name v] Hin. apply H, list_elem_of_fmap. exists name. apply elem_of_range_map in Hin as Hv. rewrite Hv. split; [done|].
    rewrite sort_strings_perm. apply list_elem_of_fmap. by exists (name, v).
  - intros H c (name & -> & Hin)%list_elem_of_fmap. rewrite sort_strings_perm in Hin. apply list_elem_of_fmap in Hin as ([nm v] & -> & Hin).
    apply elem_of_range_map in Hin as Hv. cbn [fst]. rewrite Hv. by apply H.
Qed.

Lemma produceLeaf_planned cond :
  all_conds cond_contract (FCond cond) ->
  exists r, produceLeaf db s acct t sem cond = Ok r /\ planned (fun o => matches s acct t sem o (FCond cond) = Ok true) r.
Proof.
  intros Hc. pose proof (leaf_conds cond Hc) as Hl. unfold produceLeaf.
  destruct (leaf_loop_planned cond (sort_strings (range_map cond).*1) None true (fun _ => True)) as (r & Er & Hr); [|done|].
  { intros name Hin. rewrite sort_strings_perm in Hin. apply list_elem_of_fmap in Hin as ([nm v] & -> & Hin). exists v.
    rewrite Forall_forall in Hl. split; [by apply elem_of_range_map|by apply (Hl (nm, v))]. }
  exists r. split; [done|]. destruct r as [[ids ex]|]; [|done]. eapply candidates_ext; [|exact Hr]. intros id o Ho. cbn beta.
  rewrite leaf_names. cbn [matches]. destruct (match_conds_all id o (range_map cond) Ho Hl) as (b & -> & Hb). rewrite <- Hb.
  split; [by intros [_ ->]|by intros [= ->]].
Qed.

(** ** Trees *)

Definition holds (n : filterNode) (o : Object) : Prop := matches s acct t sem o n = Ok true.

Lemma match_first_ok (f : filterNode -> result bool) cs stop :
  (forall c, c ∈ cs -> exists b, f c = Ok b) -> exists b, match_first stop (negb stop) f cs = Ok b /\ (b = stop <-> exists c, c ∈ cs /\ f c = Ok stop).
Proof.
  induction cs as [|c cs IH]; intros Hf.
  { exists (negb stop). split; [done|]. split; [by destruct stop|by intros (c & ?%not_elem_of_nil & _)]. }
  destruct (Hf c) as (b & Eb); [by left|]. cbn [match_first]. rewrite Eb. cbn [mbind result_bind]. case_bool_decide as Hs.
  - subst b. exists stop. split; [done|]. split; [|done]. intros _. exists c. split; [by left|done].
  - destruct IH as (b' & E' & Hb'); [intros c' Hc'; apply Hf; by right|]. exists b'. split; [exact E'|]. rewrite Hb'. split.
    + intros (c' & Hc' & Ef). exists c'. split; [by right|done].
    + intros (c' & [->|Hc']%elem_of_cons & Ef); [congruence|by exists c'].
Qed.

Lemma none_match_first f cs : none_match f cs = (b ← match_first true false f cs; Ok (negb b)).
Proof.
  induction cs as [|c cs IH]; [done|]. cbn [none_match match_first]. destruct (f c) as [b|]; [|done]. cbn [mbind result_bind].
  destruct b; [done|]. exact IH.
Qed.

Lemma matches_total n id o : all_conds cond_contract n -> stored id o -> exists b, matches s acct t sem o n = Ok b.
Proof.
  intros Hn Ho. induction n as [|op children IH|cond] using filterNode_rect.
  - by exists true.
  - rewrite all_conds_children in Hn. rewrite !Forall_forall in *.
    assert (Hf : forall c, c ∈ children -> exists b, matches s acct t sem o c = Ok b) by eauto.
    cbn [matches]. destruct op.
    + destruct (match_first_ok _ _ false Hf) as (b & E & _). eauto.
    + destruct (match_first_ok _ _ true Hf) as (b & E & _). eauto.
    + rewrite none_match_first. destruct (match_first_ok _ _ true Hf) as (b & E & _). cbn [negb] in E. rewrite E. by eexists.
  - destruct (match_conds_all id o (range_map cond) Ho (leaf_conds cond Hn)) as (b & E & _). by exists b.
Qed.

Lemma holds_children op cs id o :
  Forall (all_conds cond_contract) cs -> stored id o ->
  (holds (FOp op cs) o <->
   match op with
   | AND => Forall (fun c => holds c o) cs
   | OR => Exists (fun c => holds c o) cs
   | NOT => Forall (fun c => ~ holds c o) cs
   end).
Proof.
  intros Hc Ho. rewrite Forall_forall in Hc. assert (Hf : forall c, c ∈ cs -> exists b, matches s acct t sem o c = Ok b) by (intros c Hin; eapply matches_total; eauto).
  unfold holds at 1. destruct op; cbn [matches].
  - destruct (match_first_ok _ _ false Hf) as (b & E & Hb). cbn [negb] in E. rewrite E, Forall_forall. split.
    + intros [= ->] c Hin. destruct (Hf c Hin) as ([] & Ec); [done|]. exfalso. assert (true = false) by (apply Hb; eauto). done.
    + intros H. destruct b; [done|]. destruct (proj1 Hb eq_refl) as (c & Hin & Ec). specialize (H c Hin). unfold holds in H. congruence.
  - destruct (match_first_ok _ _ true Hf) as (b & E & Hb). cbn [negb] in E. rewrite E, Exists_exists. split; [intros [= ->]; by apply Hb|].
    intros H. by rewrite (proj2 Hb H).
  - rewrite none_match_first. destruct (match_first_ok _ _ true Hf) as (b & E & Hb). cbn [negb] in E. rewrite E. cbn [mbind result_bind]. rewrite Forall_forall. split.
    + intros [= Hneg] c Hin Hh. rewrite (proj2 Hb) in Hneg; [done|by exists c].
    + intros H. destruct b; [|done]. destruct (proj1 Hb eq_refl) as (c & Hin & Ec). by destruct (H c Hin).
Qed.

Definition plans (f : filterNode -> result (option (gset Id * bool))) (c : filterNode) : Prop := exists r, f c = Ok r /\ planned (holds c) r.

Lemma produce_all_planned (f : filterNode -> result (option (gset Id * bool))) (cs : list filterNode) (acc : option (gset Id)) (exact : bool) (P : Object -> Prop) :
  Forall (plans f) cs -> candidates P acc exact ->
  exists r, produce_all f cs acc exact = Ok r /\ planned (fun o => P o /\ Forall (fun c => holds c o) cs) r.
Proof.
  intros Hf. revert acc exact P. induction Hf as [|c cs (r & Er & Hr) _ IH]; intros acc exact P Hp.
  { eexists. split; [done|]. apply planned_option. eapply candidates_ext; [|exact Hp]. intros id o _. split; [split; [done|constructor]|tauto]. }
  cbn [produce_all]. rewrite Er. cbn [mbind result_bind]. pose proof (candidates_and P _ acc exact r Hp Hr) as Hand.
  destruct (IH _ _ _ Hand) as (r' & Er' & Hr'). exists r'. split; [destruct r as [[ids ex]|]; exact Er'|].
  destruct r' as [[ids ex]|]; [|done]. unfold planned in *. eapply candidates_ext; [|exact Hr']. intros id o _. rewrite Forall_cons. tauto.
Qed.

Lemma produce_any_planned (f : filterNode -> result (option (gset Id * bool))) (cs : list filterNode) (acc : gset Id) (exact : bool) (P : Object -> Prop) :
  Forall (plans f) cs -> candidates P (Some acc) exact ->
  exists r, produce_any f cs acc exact = Ok r /\ planned (fun o => P o \/ Exists (fun c => holds c o) cs) r.
Proof.
  intros Hf. revert acc exact P. induction Hf as [|c cs (r & Er & Hr) _ IH]; intros acc exact P Hp.
  { eexists. split; [done|]. unfold planned. eapply candidates_ext; [|exact Hp]. intros id o _. rewrite Exists_nil. tauto. }
  cbn [produce_any]. rewrite Er. cbn [mbind result_bind]. destruct r as [[ids ex]|]; [|by eexists].
  assert (Hor : candidates (fun o => P o \/ holds c o) (Some (acc ∪ ids)) (exact && ex)).
  { destruct Hp as [Hp1 Hp2], Hr as [Hr1 Hr2]. split.
    - intros id o Ho [HP|HQ]; apply elem_of_union; [left|right]; eauto.
    - intros [He Hx]%andb_true_iff id [Hi|Hi]%elem_of_union; [destruct (Hp2 He id Hi) as (o & ? & ?)|destruct (Hr2 Hx id Hi) as (o & ? & ?)]; exists o; tauto. }
  destruct (IH _ _ _ Hor) as (r' & Er' & Hr'). exists r'. split; [done|].
  destruct r' as [[ids' ex']|]; [|done]. unfold planned in *. eapply candidates_ext; [|exact Hr']. intros id o _. rewrite Exists_cons. tauto.
Qed.

Lemma produce_planned n : all_conds cond_contract n -> plans (produce db s acct t sem) n.
Proof.
  induction n as [|op children IH|cond] using filterNode_rect; intros Hn.
  - by exists None.
  - rewrite all_conds_children in Hn. assert (Hc : Forall (plans (produce db s acct t sem)) children).
    { rewrite Forall_forall in Hn, IH |- *. auto. }
    destruct op; unfold plans; cbn [produce].
    + destruct (produce_all_planned _ children None true (fun _ => True) Hc) as (r & Er & Hr); [done|]. exists r. split; [done|].
      destruct r as [[ids ex]|]; [|done]. eapply candidates_ext; [|exact Hr]. intros id o Ho. cbn beta. rewrite (holds_children AND children id o Hn Ho). tauto.
    + destruct (produce_any_planned _ children ∅ true (fun _ => False) Hc) as (r & Er & Hr); [split; [done|intros _ id ?; set_solver]|]. exists r. split; [done|].
      destruct r as [[ids ex]|]; [|done]. eapply candidates_ext; [|exact Hr]. intros id o Ho. cbn beta. rewrite (holds_children OR children id o Hn Ho). tauto.
    + by exists None.
  - by apply produceLeaf_planned.
Qed.

Lemma range_set_spec (ids : gset Id) : NoDup (range_set ids) /\ forall id, id ∈ range_set ids <-> id ∈ ids.
Proof.
  unfold range_set. split; [apply NoDup_range_map|]. intros id. rewrite list_elem_of_fmap. split.
  - intros ([k []] & -> & Hin). apply elem_of_range_map in Hin. by apply lookup_gset_to_gmap_Some in Hin as [? _].
  - intros Hin. exists (id, tt). split; [done|]. apply elem_of_range_map. by apply lookup_gset_to_gmap_Some.
Qed.

(** The planner's answer for a tree: candidates without repetition that
    contain every match, and are the matches when exact. *)
Lemma candidateSet_planned root :
  all_conds cond_contract root ->
  exists r, candidateSet db s acct t sem root = Ok r /\
    match r with
    | None => True
    | Some (ids, ex) => NoDup ids /\ (forall id o, stored id o -> holds root o -> id ∈ ids) /\
        (ex = true -> forall id, id ∈ ids -> exists o, stored id o /\ holds root o)
    end.
Proof.
  intros Hn. destruct (produce_planned root Hn) as (r & Er & Hr). unfold candidateSet. rewrite Er. cbn [mbind result_bind]. eexists. split; [done|].
  destruct r as [[ids ex]|]; cbn [option_map fst snd]; [|done]. destruct (range_set_spec ids) as [Hnd Hel], Hr as [H1 H2].
  split; [done|]. split; [intros id o Ho Hh; apply Hel; eauto|]. intros He id Hin. apply H2; [done|]. by apply Hel.
Qed.
End planner.
End FilterFacts.
