(* ===== verification/EvalFacts.v ===== *)
(** * EvalFacts: a query answers with exactly the matching records, in order

    Over every store an account can reach, the index planner meets its
    contract for the core conditions, the record loads are the stored records
    under the projection, and [evaluate] returns the ids of exactly the
    matching records in the one order the sort defines. *)

From S2P Require Import Prelude GoLib Keyenc Backend Batches Memory Jsonscan Jsonwords Jsongrammar Jsonobject Jmap Descriptor Keys ObjectDB SetIndex.
From S2P Require Import Commit Indexing CommitFacts Instances CommitIndex Reach Typed Queries Changes Sorting SortingFacts Filter Query FilterFacts.

Module EvalFacts.
Import Keyenc Backend Batches Jsonscan Jsonwords Jsongrammar Jsonobject Jmap Descriptor Keys ObjectDB Commit Indexing CommitFacts CommitIndex Reach Typed Queries.
Import Sorting SortingFacts Filter Query FilterFacts.

Section account.
Context `{MR : MapRange, TP : TimeParse, CF : CaseFold, LC : LogCodec}.
Context {S : Type} `{BE : Backend S, BL : !BackendLaws S}.
Variable db : DB.
Variable acct : Id.
Variable s : S.
Variable n : bytes.
Variable t : Type_.
Hypothesis Hdb : db_wf db.
Hypothesis Hacct : Valid acct = true.
Hypothesis Hr : account_reach db acct s.
Hypothesis Ht : db_types db !! n = Some t.

Abbreviation m := (be_map s).

Definition stored (id : Id) (o : Object) : Prop := obj_at db m acct n id = Some o.

Lemma stored_fun id o o' : stored id o -> stored id o' -> o = o'.
Proof. unfold stored. congruence. Qed.

Lemma stored_raw id raw : m !! objKey acct n id = Some raw -> exists b o, raw = Some b /\ decodeStored db b = Ok (Some o) /\ stored id o.
Proof.
  intros Hraw. destruct (account_reach_inv db acct Hdb Hacct s Hr) as (_ & Hii & _).
  destruct (ii_decodes _ _ _ Hii n t id raw Ht Hraw) as (o & Hd & _). destruct raw as [b|]; [|done].
  exists b, o. split; [done|]. split; [done|]. unfold stored, obj_at. by rewrite Hraw, Hd.
Qed.

(** ** Loads *)

Definition project (wanted : option (gmap bytes bool)) (o : Object) : Object :=
  match wanted with None => o | Some w => select_wanted w o end.

(** What a load of [id] answers. *)
Definition loaded (wanted : option (gmap bytes bool)) (id : Id) : option Object := option_map (project wanted) (obj_at db m acct n id).

Section loads.
Variable wanted : option (gmap bytes bool).
Definition decode : bytes -> result (option Object) := match wanted with None => decodeStored db | Some w => fun raw => decodeStoredSubset db raw w end.

Lemma decode_loaded b o : decodeStored db b = Ok (Some o) -> decode b = Ok (Some (project wanted o)).
Proof.
  intros Hd. unfold decode. destruct wanted as [w|]; [|done]. unfold decodeStoredSubset. rewrite DecodeObjectSubset_select by apply (dw_names _ Hdb).
  unfold decodeStored in Hd. by rewrite Hd.
Qed.

Lemma get_each_loaded ids : exists rs, get_each s decode acct n ids = Ok rs /\ rs.*1 = map (loaded wanted) ids.
Proof.
  destruct (account_reach_inv db acct Hdb Hacct s Hr) as (Hs & _ & _).
  induction ids as [|id ids (rs & E & Ers)]; [by exists []|]. cbn [get_each map]. rewrite be_Get_spec by done. unfold loaded at 1.
  destruct (m !! objKey acct n id) as [raw|] eqn:Er.
  - destruct (stored_raw id raw Er) as (b & o & -> & Hd & Ho). change (sbytes (Some b)) with b. rewrite (decode_loaded b o Hd). cbn [mbind result_bind]. rewrite E. cbn [mbind result_bind].
    eexists. split; [done|]. cbn. rewrite Ers, Ho. done.
  - cbn [mbind result_bind]. rewrite E. cbn [mbind result_bind]. eexists. split; [done|]. cbn. rewrite Ers. unfold obj_at. by rewrite Er.
Qed.

Lemma decode_vals_loaded ids :
  exists rs, decode_vals decode (map (fun k => mjoin (m !! k)) (map (objKey acct n) ids)) = Ok rs /\ rs.*1 = map (loaded wanted) ids.
Proof.
  induction ids as [|id ids (rs & E & Ers)]; [by exists []|]. cbn [map decode_vals]. unfold loaded at 1.
  destruct (m !! objKey acct n id) as [raw|] eqn:Er.
  - destruct (stored_raw id raw Er) as (b & o & -> & Hd & Ho). change (mjoin (Some (Some b))) with (Some b). cbn match.
    rewrite (decode_loaded b o Hd). cbn [mbind result_bind]. rewrite E. cbn [mbind result_bind]. eexists. split; [done|]. cbn. rewrite Ers, Ho. done.
  - change (mjoin None) with (@None bytes). cbn match. rewrite E. cbn [mbind result_bind]. eexists. split; [done|]. cbn. rewrite Ers. unfold obj_at. by rewrite Er.
Qed.

(** Chunks of [MaxMultiGetBatch] ids: as many as ids is enough fuel. *)
Lemma get_chunks_loaded fuel mg ids :
  be_MultiGet = Some mg -> (length ids <= fuel)%nat -> exists rs, get_chunks fuel s mg decode acct n ids = Ok rs /\ rs.*1 = map (loaded wanted) ids.
Proof.
  intros Hmg. destruct (account_reach_inv db acct Hdb Hacct s Hr) as (Hs & _ & _).
  revert ids. induction fuel as [|fuel IH]; intros [|id ids] Hlen; [by exists []|cbn in Hlen; lia|by exists []|]. set (l := id :: ids).
  change (get_chunks (Datatypes.S fuel) s mg decode acct n l) with
    (vals ← mg s (map (objKey acct n) (take MaxMultiGetBatch l)); rs ← decode_vals decode vals;
     rs' ← get_chunks fuel s mg decode acct n (drop MaxMultiGetBatch l); Ok (rs ++ rs')).
  rewrite (be_MultiGet_spec mg s _ Hmg Hs). cbn [mbind result_bind].
  destruct (decode_vals_loaded (take MaxMultiGetBatch l)) as (r1 & E1 & H1). rewrite E1. cbn [mbind result_bind].
  destruct (IH (drop MaxMultiGetBatch l)) as (r2 & E2 & H2); [unfold l; cbn in Hlen; rewrite length_drop; cbn; unfold MaxMultiGetBatch; lia|].
  rewrite E2. cbn [mbind result_bind]. eexists. split; [done|]. rewrite fmap_app, H1, H2, <- map_app, take_drop. done.
Qed.

Lemma GetManyProjected_loaded ids : GetManyProjected db s acct n ids wanted = Ok (map (loaded wanted) ids).
Proof.
  unfold GetManyProjected, getManyRaw. rewrite Ht. cbv zeta. fold decode. destruct be_MultiGet as [mg|] eqn:Hmg.
  - destruct (get_chunks_loaded (length ids) mg ids Hmg) as (rs & E & H); [done|]. rewrite E. cbn [mbind result_bind]. by rewrite H.
  - destruct (get_each_loaded ids) as (rs & E & H). rewrite E. cbn [mbind result_bind]. by rewrite H.
Qed.
End loads.

(** ** The listing of all ids *)

Lemma AllIds_stored : exists ids, AllIds db s acct n 0 = Ok ids /\ NoDup ids /\ forall id, id ∈ ids <-> exists o, stored id o.
Proof.
  destruct (account_reach_inv db acct Hdb Hacct s Hr) as (Hs & Hii & Hsh). unfold AllIds. rewrite Ht.
  rewrite (surjective_pairing (prefixRange [acct; bs "o"; n])).
  set (st := (prefixRange [acct; bs "o"; n]).1). set (en := (prefixRange [acct; bs "o"; n]).2).
  rewrite (collect_scan s Hs st en 0).
  assert (Hk : forall k, k ∈ range_keys m st en <-> exists id o, stored id o /\ k = objKey acct n id).
  { intros k. rewrite elem_of_range_keys. split.
    - intros [[tl ->]%PrefixSuccessor_range Hk]. destruct (is_objs _ _ Hsh _ n tl Hk eq_refl) as [id Eid]. rewrite Eid in Hk |- *.
      destruct Hk as [raw Hraw]. destruct (stored_raw id raw Hraw) as (b & o & _ & _ & Ho). eauto.
    - intros (id & o & Ho & ->). split.
      + apply PrefixSuccessor_range. exists (Key [id]). unfold objKey, key. change [acct; bs "o"; n; id] with ([acct; bs "o"; n] ++ [id]). by rewrite Key_app.
      + unfold stored, obj_at in Ho. by destruct (m !! objKey acct n id). }
  assert (Hid : forall id o, stored id o -> idFromObjKey (objKey acct n id) = id).
  { intros id o Ho. apply (idFromObjKey_Key [acct; bs "o"; n] id); [done|]. eapply obj_at_id; [exact Hsh|exact Ho]. }
  eexists. split; [done|]. change (take_limit 0 ?l) with l. split.
  - pose proof (range_keys_sorted m st en) as Hsort. revert Hk Hsort. generalize (range_keys m st en) as l.
    assert (Hgen : forall l, (forall k, k ∈ l -> exists id o, stored id o /\ k = objKey acct n id) -> StronglySorted bytes_lt l -> NoDup (map idFromObjKey l)).
    { induction l as [|k l IH]; intros Hk Hsort; [constructor|]. inversion Hsort as [|? ? Hsort' Hf]; subst. cbn. constructor.
      - intros (k' & Ek & Hin)%list_elem_of_fmap. destruct (Hk k) as (id & o & Ho & ->); [by left|]. destruct (Hk k') as (id' & o' & Ho' & ->); [by right|].
        rewrite (Hid id o Ho), (Hid id' o' Ho') in Ek. subst id'. rewrite Forall_forall in Hf. specialize (Hf _ Hin).
        unfold bytes_lt in Hf. by rewrite blt_irrefl in Hf.
      - apply IH; [intros k' Hk'; apply Hk; by right|done]. }
    intros l Hl. apply Hgen. intros k. by apply Hl.
  - intros id. rewrite list_elem_of_fmap. split.
    + intros (k & -> & Hin). apply Hk in Hin as (id' & o & Ho & ->). rewrite (Hid id' o Ho). eauto.
    + intros [o Ho]. exists (objKey acct n id). rewrite (Hid id o Ho). split; [done|]. apply Hk. eauto.
Qed.

(** ** The core conditions meet the planner's contract *)

Lemma checked_indexValue p raw : CheckValue p raw = Ok tt -> composite (p_Kind p) = false -> exists k, indexValue p raw = Ok k.
Proof.
  intros Hc Hk. unfold indexValue. change (bool_decide (TrimSpace raw = bs "null")) with (isNull raw). destruct (p_Nullable p) eqn:En.
  - destruct (isNull raw) eqn:E; [by eexists|]. destruct (CheckValue_key p raw Hc E Hk) as [k ->]. by eexists.
  - apply CheckValue_key; [done| |done]. unfold CheckValue in Hc. rewrite En in Hc. by destruct (isNull raw).
Qed.

Lemma stored_checked id o name p raw : stored id o -> t_Properties t !! name = Some p -> o !! name = Some raw -> CheckValue p raw = Ok tt.
Proof. intros Ho. destruct (account_checked db acct Hdb Hacct s n t id o Hr Ht Ho) as [_ Hc]. apply Hc. Qed.

Lemma type_property name p : t_Properties t !! name = Some p -> check_property t name p = Ok tt.
Proof. intros Hp. destruct (dw_types db Hdb _ _ Ht) as (_ & Hv & _). by destruct (Validate_property t name p Hv Hp). Qed.

(** A stored record has its order segments. *)
Lemma orderSegs_stored id o name p : stored id o -> t_Properties t !! name = Some p -> exists ord, orderSegs t p (Some o) = Ok ord.
Proof.
  intros Ho Hp. apply type_property, check_property_indexed in Hp as (_ & _ & Hob). unfold orderSegs.
  induction (p_OrderBy p) as [|ob obs IH]; [by exists []|]. cbn [order_segs]. change (default ∅ (Some o)) with o.
  destruct (Hob ob) as (_ & _ & op & Hop & Hck & _); [by left|]. destruct IH as [vs Hvs]; [intros ob' H; apply Hob; by right|].
  destruct (o !! ob) as [raw|] eqn:Er.
  - rewrite Hop. change (default zeroProperty (Some op)) with op. destruct (checked_indexValue op raw) as [k ->]; [by eapply stored_checked|done|].
    cbn [mbind result_bind]. rewrite Hvs. by eexists.
  - cbn [mbind result_bind]. rewrite Hvs. by eexists.
Qed.

Lemma core_contract name v : core_cond t name v -> cond_contract db s acct t None stored name v.
Proof.
  intros (p & Hp & _ & Hc). constructor.
  { intros id o _. cbn [match_conds]. destruct (o !! name) as [got|]; [|eauto]. set (q := default zeroProperty _). destruct (SortKey q v), (SortKey q got); eauto. case_bool_decide; eauto. }
  unfold produceCondition. rewrite Hp. destruct (p_Indexed p) eqn:Hi; cbn [negb]; [|by exists None].
  destruct (proj1 (check_property_indexed _ _ _ (type_property name p Hp)) Hi) as [Hck _].
  destruct (checked_indexValue p v Hc Hck) as [k Hk]. destruct (account_reach_inv db acct Hdb Hacct s Hr) as (Hs & Hii & Hsh).
  rewrite (type_name db Hdb n t Ht).
  destruct (IdsWhereEqual_answers db s acct Hdb Hs Hii Hsh n name t p Ht Hp Hi v k 0 Hk) as (es & Ees & _ & _ & Hes); [lia|].
  rewrite Ees. cbn [mbind result_bind]. eexists. split; [done|]. change (take_limit 0 ?l) with l.
  assert (Hm : forall o, match_conds s acct t None o [(name, v)] = Ok true <-> exists got, o !! name = Some got /\ indexValue p got = Ok k).
  { intros o. cbn [match_conds]. rewrite Hp. change (default zeroProperty (Some p)) with p. unfold SortKey. rewrite Hk.
    destruct (o !! name) as [got|]; [|split; [done|by intros (? & ? & _)]]. destruct (indexValue p got) as [gk|] eqn:Eg.
    - case_bool_decide as Ek; [subst; split; [eauto|done]|]. split; [done|]. intros (g & [= <-] & E). congruence.
    - split; [done|]. intros (g & [= <-] & E). congruence. }
  split.
  - intros id o Ho (got & Hgot & Hgk)%Hm. apply elem_of_list_to_set, list_elem_of_fmap.
    destruct (orderSegs_stored id o name p Ho Hp) as [ord Hord]. exists (k, ord, id). split; [done|]. apply Hes. cbn. split; [|done].
    exists o. split; [done|]. cbn [prop_value]. rewrite Hgot, Hgk. done.
  - intros _ id ([[k' ord] id'] & -> & Hin)%elem_of_list_to_set%list_elem_of_fmap. apply Hes in Hin as [(o & Ho & Hv & _) Ek].
    cbn [fst snd] in *. subst k'. exists o. split; [done|]. apply Hm. cbn [prop_value] in Hv. destruct (o !! name) as [got|]; [|done].
    exists got. split; [done|]. apply result_bind_Ok in Hv as (k' & E & [= ->]). done.
Qed.

(** ** Projection *)

Definition reads (wanted : option (gmap bytes bool)) (name : bytes) : Prop := match wanted with None => True | Some w => is_wanted w name = true end.

Lemma project_lookup wanted o name : reads wanted name -> project wanted o !! name = o !! name.
Proof.
  destruct wanted as [w|]; cbn; [|done]. intros Hw. unfold select_wanted. destruct (o !! name) as [v|] eqn:E.
  - by apply map_lookup_filter_Some.
  - apply map_lookup_filter_None. by left.
Qed.

Lemma match_conds_project o o' l :
  Forall (fun c => o !! c.1 = o' !! c.1) l -> match_conds s acct t None o l = match_conds s acct t None o' l.
Proof. induction 1 as [|[name v] l Hc _ IH]; [done|]. cbn [match_conds]. cbn in Hc. by rewrite Hc, IH. Qed.

Lemma match_first_ext (f g : filterNode -> result bool) stop rest cs :
  Forall (fun c => f c = g c) cs -> match_first stop rest f cs = match_first stop rest g cs.
Proof. induction 1 as [|c cs Hc _ IH]; [done|]. cbn [match_first]. rewrite Hc. destruct (g c); [|done]. cbn [mbind result_bind]. by rewrite IH. Qed.

Lemma matches_project o o' root :
  all_conds (fun name _ => o !! name = o' !! name) root -> matches s acct t None o root = matches s acct t None o' root.
Proof.
  induction root as [|op children IH|cond] using filterNode_rect; intros Hc; [done| |].
  - rewrite all_conds_children in Hc. assert (Hf : Forall (fun c => matches s acct t None o c = matches s acct t None o' c) children).
    { rewrite Forall_forall in IH, Hc |- *. auto. }
    cbn [matches]. destruct op; [by apply match_first_ext..|]. rewrite !none_match_first. by rewrite (match_first_ext _ _ _ _ _ Hf).
  - cbn [matches]. apply match_conds_project. apply Forall_forall. intros [name v] Hin. apply (Hc name v). by apply elem_of_range_map.
Qed.

(** The names a core query reads are wanted. *)
Definition wanted_ok (wanted : option (gmap bytes bool)) (root : filterNode) (cmps : list comparator) : Prop :=
  reads wanted (bs "id") /\ all_conds (fun name _ => reads wanted name) root /\ forall c, c ∈ cmps -> reads wanted (c_name c).

Section projected.
Variable wanted : option (gmap bytes bool).
Variable root : filterNode.
Variable cmps : list comparator.
Hypothesis Hw : wanted_ok wanted root cmps.

Definition project_record (r : QueryRecord) : QueryRecord := mkQueryRecord (q_Id r) (project wanted (q_Obj r)).

Lemma match_all_project ids :
  match_all s acct t None root (zip ids (map (loaded wanted) ids)) =
  (recs ← match_all s acct t None root (zip ids (map (loaded None) ids)); Ok (map project_record recs)).
Proof.
  destruct Hw as (_ & Hc & _). induction ids as [|id ids IH]; [done|]. cbn [map]. change (zip (?a :: ?l) (?b :: ?k)) with ((a, b) :: zip l k). cbn [match_all].
  change (loaded ?w id) with (option_map (project w) (obj_at db m acct n id)).
  destruct (obj_at db m acct n id) as [o|]; cbn [option_map]; [|exact IH].
  rewrite (matches_project (project wanted o) o); [|eapply all_conds_impl; [|exact Hc]; intros name v; apply project_lookup].
  cbn [project]. destruct (matches s acct t None o root) as [ok|]; [|done]. cbn [mbind result_bind]. rewrite IH.
  destruct (match_all s acct t None root (zip ids (map (loaded None) ids))) as [recs|]; [|done]. cbn [mbind result_bind]. by destruct ok.
Qed.

Lemma sortRecords_project less w recs :
  sortRecords (mkOrdering (Some cmps) less w) (map project_record recs) = option_map (map project_record) (sortRecords (mkOrdering (Some cmps) less w) recs).
Proof.
  destruct Hw as (Hid & _ & Hcm). unfold sortRecords. cbn [o_cmps o_window].
  assert (Ev : map (fun r => map (fun c => sortValueOf c (q_Obj r)) cmps) (map project_record recs) = map (fun r => map (fun c => sortValueOf c (q_Obj r)) cmps) recs).
  { rewrite map_map. apply map_ext. intros r. apply map_ext_in. intros c Hc. cbn [project_record q_Obj]. unfold sortValueOf.
    rewrite project_lookup; [done|]. by apply Hcm, list_elem_of_In. }
  assert (Ei : map (fun r => raw_id (q_Obj r)) (map project_record recs) = map (fun r => raw_id (q_Obj r)) recs).
  { rewrite map_map. apply map_ext. intros r. cbn [project_record q_Obj]. unfold raw_id. by rewrite project_lookup. }
  rewrite Ev, Ei, !length_map. lazymatch goal with |- (?x ≫= _) = _ => destruct x as [order|]; [|done] end. change (Some order ≫= ?f) with (f order). cbv beta.
  induction order as [|k order IH]; [done|]. cbn [mapM]. rewrite list_lookup_fmap. destruct (recs !! k) as [r|]; [|done].
  change (Some r ≫= ?f) with (f r). change (project_record <$> Some r) with (Some (project_record r)). change (Some (project_record r) ≫= ?f) with (f (project_record r)).
  cbv beta. rewrite IH. by destruct (mapM (fun pos => recs !! pos) order).
Qed.
End projected.

(** ** Evaluation *)

(** The matching records, within [restrict]. *)
Definition matching (root : filterNode) (restrict : option (gset Id)) (id : Id) : Prop :=
  (exists o, stored id o /\ holds s acct t None root o) /\ match restrict with None => True | Some r => id ∈ r end.

(** The order of a query: the comparators, then the id. *)
Definition id_before (cmps : list comparator) (a b : Id) : Prop :=
  exists oa ob, stored a oa /\ stored b ob /\ compareFunc (mkOrdering (Some cmps) None 0) oa ob < 0.

(** [full] lists the ids with [P], each once, in the order of the query. *)
Record results_of (cmps : list comparator) (P : Id -> Prop) (full : list Id) : Prop := mkResults {
  ro_nodup : NoDup full;
  ro_elem : forall id, id ∈ full <-> P id;
  ro_sorted : StronglySorted (id_before cmps) full;
}.

Lemma match_all_exact root ids :
  NoDup ids -> all_conds (core_cond t) root ->
  exists recs, match_all s acct t None root (zip ids (map (loaded None) ids)) = Ok recs /\ NoDup (map q_Id recs) /\
    forall r, r ∈ recs <-> q_Id r ∈ ids /\ stored (q_Id r) (q_Obj r) /\ holds s acct t None root (q_Obj r).
Proof.
  intros Hnd Hc. induction Hnd as [|id ids Hni Hnd (recs & E & Hn & Hin)].
  { exists []. split; [done|]. split; [constructor|]. intros r. split; [by intros ?%not_elem_of_nil|by intros [?%not_elem_of_nil _]]. }
  cbn [map]. change (zip (?a :: ?l) (?b :: ?k)) with ((a, b) :: zip l k). cbn [match_all]. change (loaded None id) with (option_map (project None) (obj_at db m acct n id)).
  destruct (obj_at db m acct n id) as [o|] eqn:Eo; cbn [option_map project].
  - destruct (matches_total db s acct t None stored root id o) as [ok Em]; [eapply all_conds_impl; [|exact Hc]; apply core_contract|exact Eo|].
    rewrite Em. cbn [mbind result_bind]. rewrite E. cbn [mbind result_bind]. eexists. split; [done|]. destruct ok.
    + split.
      * cbn. constructor; [|done]. intros (r & -> & (Hr' & _)%Hin)%list_elem_of_fmap. done.
      * intros r. rewrite !elem_of_cons, Hin. split.
        -- intros [-> |(H1 & H2 & H3)]; [cbn; auto|auto].
        -- intros ([Eid|H1] & H2 & H3); [|auto]. left. destruct r as [rid robj]. cbn in *. subst rid. f_equal. unfold stored in H2. congruence.
    + split; [done|]. intros r. rewrite elem_of_cons, Hin. split; [tauto|]. intros ([Eid|H1] & H2 & H3); [|auto].
      rewrite Eid in H2. unfold stored in H2. unfold holds in H3. congruence.
  - exists recs. split; [done|]. split; [done|]. intros r. rewrite elem_of_cons, Hin. split; [tauto|]. intros ([Eid|H1] & H2 & H3); [|auto].
    rewrite Eid in H2. unfold stored in H2. congruence.
Qed.

Lemma stored_raw_id id o : stored id o -> JString (raw_id o) = Some id.
Proof. intros Ho. by destruct (account_checked db acct Hdb Hacct s n t id o Hr Ht Ho) as [H _]. Qed.

(** The comparators the parser builds compare declared properties. *)
Definition declared_cmps (cmps : list comparator) : Prop := forall c, c ∈ cmps -> t_Properties t !! c_name c = Some (c_prop c).

Lemma sorted_ids cmps (l : list QueryRecord) :
  (forall r, r ∈ l -> stored (q_Id r) (q_Obj r)) -> StronglySorted (precedes cmps) l -> StronglySorted (id_before cmps) (map q_Id l).
Proof.
  intros Hst. induction 1 as [|r l Hl IH Hf]; [constructor|]. cbn. constructor; [apply IH; intros; apply Hst; by right|].
  apply Forall_forall. intros id (r' & -> & Hin)%list_elem_of_fmap. exists (q_Obj r), (q_Obj r'). split; [apply Hst; by left|].
  split; [apply Hst; by right|]. rewrite Forall_forall in Hf. by apply Hf.
Qed.

Lemma records_sorted cmps less w recs :
  declared_cmps cmps -> NoDup (map q_Id recs) -> (forall r, r ∈ recs -> stored (q_Id r) (q_Obj r)) ->
  exists full out, sortRecords (mkOrdering (Some cmps) less w) recs = Some out /\ results_of cmps (fun id => id ∈ map q_Id recs) full /\
    map q_Id out ≡ₚ full /\ (map q_Id out = full \/ 0 < w < Z.of_nat (length full) /\ take (Z.to_nat w) (map q_Id out) = take (Z.to_nat w) full).
Proof.
  intros Hcm Hnd Hst.
  assert (Hch : orderable cmps (q_Obj <$> recs)).
  { apply checked_orderable. intros c o raw Hc (r & -> & Hin)%list_elem_of_fmap Hraw. eapply stored_checked; [by apply Hst|by apply Hcm|done]. }
  assert (Hids : NoDup (map (fun r => raw_id (q_Obj r)) recs)).
  { clear Hch. induction recs as [|r recs IH]; [constructor|]. cbn in *. apply NoDup_cons in Hnd as [Hni Hnd]. constructor; [|apply IH; [done|intros; apply Hst; by right]].
    intros (r' & Er & Hin)%list_elem_of_fmap. apply Hni, list_elem_of_fmap. exists r'. split; [|done].
    pose proof (stored_raw_id _ _ (Hst r ltac:(by left))) as E1. rewrite Er, (stored_raw_id _ _ (Hst r' ltac:(by right))) in E1. congruence. }
  destruct (sortRecords_window cmps recs Hch Hids less w) as (full & out & _ & Hp & Hs & E & Hpo & Hw).
  exists (map q_Id full), out. split; [done|]. split; [|split].
  - assert (Hp' : map q_Id full ≡ₚ map q_Id recs) by (by apply Permutation_map). constructor.
    + by rewrite Hp'.
    + intros id. by rewrite Hp'.
    + apply sorted_ids; [|done]. intros r Hin. apply Hst. by rewrite <- Hp.
  - apply Permutation_map. by rewrite Hpo, Hp.
  - destruct Hw as [-> |[Hr' Ht']]; [by left|]. right. split; [by rewrite length_map, (Permutation_length Hp)|]. change (map q_Id) with (fmap (M := list) q_Id). by rewrite <- !fmap_take, Ht'.
Qed.

(** ** The fast path *)

(** Valid ids compare as their JSON strings do: every id character is above
    the closing quote. *)
Lemma marshal_id_compare a b : Valid a = true -> Valid b = true -> bcompare (marshal_id a) (marshal_id b) = bcompare a b.
Proof.
  intros Ha%Valid_chars Hb%Valid_chars. unfold marshal_id. rewrite bcompare_app. revert b Hb. induction Ha as [|x a Hx Ha IH]; intros b Hb.
  - destruct Hb as [|y b Hy Hb]; [done|]. apply id_char_plain in Hy as (_ & _ & Hy). apply Z.ltb_lt in Hy. cbn [app bcompare].
    assert (E : bz x22 = 34) by reflexivity. rewrite E. by rewrite (proj2 (Z.compare_lt_iff 34 (bz y)) Hy).
  - destruct Hb as [|y b Hy Hb]; cbn [app bcompare].
    + apply id_char_plain in Hx as (_ & _ & Hx). apply Z.ltb_lt in Hx. assert (E : bz x22 = 34) by reflexivity. rewrite E. by rewrite (proj2 (Z.compare_gt_iff (bz x) 34) Hx).
    + destruct (bz x ?= bz y); [by apply IH|done|done].
Qed.

(** Records keep the id member that [Create] writes. *)
Definition canonical_ids : Prop := forall id o, stored id o -> o !! bs "id" = Some (marshal_id id).

Lemma fast_path_sorted ids :
  canonical_ids -> NoDup ids -> (forall id, id ∈ ids -> exists o, stored id o) -> StronglySorted (id_before []) (dedupSortIds ids).
Proof.
  intros Hcan Hnd Hst. unfold dedupSortIds. assert (Hlt : StronglySorted bytes_lt (sort_strings ids)).
  { apply StronglySorted_le_lt; [apply sort_strings_sorted|by rewrite sort_strings_perm]. }
  assert (Hin : forall id, id ∈ sort_strings ids -> exists o, stored id o) by (intros id; rewrite elem_of_sort_strings; apply Hst).
  clear Hst Hnd. induction Hlt as [|a l Hl IH Hf]; [constructor|]. constructor; [apply IH; intros; apply Hin; by right|].
  apply Forall_forall. intros b Hb. rewrite Forall_forall in Hf. specialize (Hf b Hb).
  destruct (Hin a) as [oa Hoa]; [by left|]. destruct (Hin b) as [ob Hob]; [by right|]. exists oa, ob. split; [done|]. split; [done|].
  unfold compareFunc. cbn [o_cmps chain]. unfold raw_id. rewrite (Hcan a oa Hoa), (Hcan b ob Hob). change (default [] (Some ?x)) with x.
  assert (Hval : forall id o, stored id o -> Valid id = true).
  { intros id o Ho. destruct (account_reach_inv db acct Hdb Hacct s Hr) as (_ & _ & Hsh). apply (is_ids _ _ Hsh n).
    unfold stored, obj_at in Ho. unfold present. by destruct (m !! objKey acct n id). }
  rewrite marshal_id_compare by eauto. apply blt_lt in Hf. by rewrite Hf.
Qed.

(** ** The whole evaluation *)

Section evaluation.
Variable st : stdType S.
Hypothesis Hdbst : sd_db st = db.
Hypothesis Htst : sd_t st = t.
Hypothesis Hook : sd_hooks st = None.
Variable root : filterNode.
Variable cmps : list comparator.
Hypothesis Hroot : all_conds (core_cond t) root.
Hypothesis Hcm : declared_cmps cmps.

Lemma core_semantics : filterSemantics st = None.
Proof. unfold filterSemantics. by rewrite Hook. Qed.

Lemma name_of_type : t_Name t = n.
Proof. by destruct (dw_types db Hdb _ _ Ht). Qed.

(** The candidates of either path, before the predicate. *)
Lemma candidates_loaded :
  exists cand, candidateSet db s acct t None root = Ok cand /\
  exists ids, match cand with Some (set, _) => Ok set | None => AllIds db s acct n 0 end = Ok ids /\ NoDup ids /\
    (forall id, matching root None id -> id ∈ ids) /\
    (forall set, cand = Some (set, true) -> set = ids /\ forall id, id ∈ ids -> matching root None id).
Proof.
  destruct (candidateSet_planned db s acct t None stored stored_fun root) as (cand & E & Hc).
  { eapply all_conds_impl; [|exact Hroot]. apply core_contract. }
  exists cand. split; [done|]. destruct cand as [[set ex]|].
  - destruct Hc as (Hnd & Hcov & Hex). exists set. split; [done|]. split; [done|]. split; [intros id [(o & Ho & Hh) _]; eauto|].
    intros set' [= <- ->]. split; [done|]. intros id Hin. split; [by apply Hex|done].
  - destruct AllIds_stored as (ids & E' & Hnd & Hin). exists ids. split; [done|]. split; [done|].
    split; [intros id [(o & Ho & _) _]; apply Hin; eauto|done].
Qed.

(** A list of ids cut to a window of [w] where one is asked for. *)
Definition in_window (w : Z) (full out : list Id) : Prop :=
  out ≡ₚ full /\ (out = full \/ 0 < w < Z.of_nat (length full) /\ take (Z.to_nat w) out = take (Z.to_nat w) full).

(** Load, match and sort: the path every query but the fastest takes. *)
Lemma load_and_sort less w restrict ids :
  NoDup ids -> (forall id, matching root None id -> id ∈ ids) ->
  let cs := match restrict with None => ids | Some r => filter (fun id => id ∈ r) ids end in
  exists recs sorted full, loadAndMatch db s acct t None root cs None = Ok recs /\ sortRecords (mkOrdering (Some cmps) less w) recs = Some sorted /\
    results_of cmps (matching root restrict) full /\ in_window w full (map q_Id sorted).
Proof.
  intros Hnd Hcov cs. assert (Hcs : NoDup cs) by (unfold cs; destruct restrict; [by apply NoDup_filter|done]).
  assert (Hci : forall id, id ∈ cs <-> id ∈ ids /\ match restrict with None => True | Some r => id ∈ r end).
  { intros id. unfold cs. destruct restrict; [rewrite list_elem_of_filter|]; tauto. }
  destruct (match_all_exact root cs Hcs Hroot) as (recs & Em & Hn & Hin).
  destruct (records_sorted cmps less w recs Hcm Hn) as (full & out & Es & Hres & Hp & Hw); [intros r [_ [? _]]%Hin; done|].
  exists recs, out, full. split; [|split; [done|split; [|done]]].
  - unfold loadAndMatch. rewrite name_of_type, GetManyProjected_loaded. cbn [mbind result_bind]. done.
  - destruct Hres as [H1 H2 H3]. constructor; [done| |done]. intros id. rewrite H2, list_elem_of_fmap. split.
    + intros (r & -> & ([_ ?]%Hci & Ho & Hh)%Hin). split; [eauto|done].
    + intros [(o & Ho & Hh) Hrs]. exists (mkQueryRecord id o). split; [done|]. apply Hin. cbn. split; [|done]. apply Hci. split; [|done].
      apply Hcov. split; [eauto|done].
Qed.

Lemma evaluateWith_exact less w emptySort extra restrict :
  canonical_ids -> (emptySort = true -> cmps = []) ->
  exists full out, evaluateWith st s acct root (mkOrdering (Some cmps) less w) emptySort false extra restrict None = Ok out /\
    results_of cmps (matching root restrict) full /\ in_window w full out.
Proof.
  intros Hcan Hempty. unfold evaluateWith. rewrite core_semantics, Hdbst, Htst, name_of_type, Hook.
  change (None ≫= ?f) with (@None (Id -> list QueryRecord -> (Object -> Object -> Z) -> gmap bytes bytes -> result (list Id))).
  destruct candidates_loaded as (cand & Ec & ids & Eids & Hnd & Hcov & Hex). rewrite Ec. cbn [mbind result_bind]. rewrite Eids. cbn [mbind result_bind].
  destruct (load_and_sort less w restrict ids Hnd Hcov) as (recs & sorted & full & El & Es & Hres & Hw). rewrite El. cbn [mbind result_bind]. rewrite Es.
  assert (Hslow : exists full0 out, Ok (map q_Id sorted) = Ok out /\ results_of cmps (matching root restrict) full0 /\ in_window w full0 out) by eauto.
  destruct cand as [[set [|]]|]; [|exact Hslow|exact Hslow]. destruct emptySort; [|exact Hslow]. destruct restrict as [r|]; [exact Hslow|].
  destruct (Hex set eq_refl) as [-> Hall]. rewrite (Hempty eq_refl). exists (dedupSortIds ids), (dedupSortIds ids).
  split; [done|]. split; [|split; [done|by left]]. constructor.
  - unfold dedupSortIds. by rewrite sort_strings_perm.
  - intros id. unfold dedupSortIds. rewrite elem_of_sort_strings. split; [apply Hall|apply Hcov].
  - apply fast_path_sorted; [done|done|]. intros id Hin. destruct (Hall id Hin) as [(o & Ho & _) _]. eauto.
Qed.

(** What a query does not read does not change its answer. *)
Lemma evaluateWith_project less w emptySort extra restrict wanted :
  wanted_ok wanted root cmps ->
  evaluateWith st s acct root (mkOrdering (Some cmps) less w) emptySort false extra restrict wanted =
  evaluateWith st s acct root (mkOrdering (Some cmps) less w) emptySort false extra restrict None.
Proof.
  intros Hw. unfold evaluateWith. rewrite core_semantics, Hdbst, Htst, name_of_type, Hook.
  change (None ≫= ?f) with (@None (Id -> list QueryRecord -> (Object -> Object -> Z) -> gmap bytes bytes -> result (list Id))).
  assert (Hl : forall ids,
    (matched ← loadAndMatch db s acct t None root ids wanted;
     match sortRecords (mkOrdering (Some cmps) less w) matched with None => Err Panic | Some sorted => Ok (map q_Id sorted) end) =
    (matched ← loadAndMatch db s acct t None root ids None;
     match sortRecords (mkOrdering (Some cmps) less w) matched with None => Err Panic | Some sorted => Ok (map q_Id sorted) end)).
  { intros ids. unfold loadAndMatch. rewrite name_of_type, !GetManyProjected_loaded. cbn [mbind result_bind]. rewrite (match_all_project wanted root cmps Hw).
    destruct (match_all s acct t None root (zip ids (map (loaded None) ids))) as [recs|]; [|done]. cbn [mbind result_bind].
    rewrite (sortRecords_project wanted root cmps Hw). destruct (sortRecords _ recs) as [sorted|]; [|done]. cbn [option_map]. f_equal.
    rewrite map_map. by apply map_ext. }
  destruct (candidateSet _ _ _ _ _ _) as [cand|]; [|done]. cbn [mbind result_bind].
  destruct cand as [[set [|]]|], emptySort, restrict as [r|]; cbn [mbind result_bind]; try done; try apply Hl; destruct (AllIds db s acct n 0); [apply Hl|done|apply Hl|done|apply Hl|done|apply Hl|done].
Qed.

Lemma evaluate_exact less w emptySort extra restrict wanted :
  canonical_ids -> (emptySort = true -> cmps = []) -> wanted_ok wanted root cmps ->
  exists full out, evaluate st s acct root (mkOrdering (Some cmps) less w) emptySort false extra restrict wanted = Ok out /\
    results_of cmps (matching root restrict) full /\ in_window w full out.
Proof.
  intros Hcan Hempty Hw. unfold evaluate. rewrite (evaluateWith_project less w emptySort extra restrict wanted Hw).
  destruct (evaluateWith_exact less w emptySort extra restrict Hcan Hempty) as (full & out & -> & H). exists full, out. cbn [mbind result_bind].
  split; [|done]. destruct wanted; [|done]. destruct (sd_verifyProjection st); cbn [negb]; [|done]. by rewrite bool_decide_true.
Qed.
End evaluation.
End account.

(** C15: the planner narrows, it never decides.  For any semantics whose
    conditions meet the contract - a verdict for every stored record, and
    candidates that contain every match and, where called exact, nothing else -
    [candidateSet] answers every filter tree without error: its candidates
    are distinct and contain every record the tree's predicate accepts, and
    are exactly those records when it reports them exact. *)
Theorem planner_sound `{MR : MapRange, TP : TimeParse, CF : CaseFold} {S : Type} `{BE : Backend S}
  (db : DB) (s : S) (acct : Id) (t : Type_) (sem : option (FilterSemantics S)) (rec : Id -> Object -> Prop) (root : filterNode)
  (Hfun : forall id o o', rec id o -> rec id o' -> o = o')
  (Hc : all_conds (cond_contract db s acct t sem rec) root) :
  exists r, candidateSet db s acct t sem root = Ok r /\
    match r with
    | None => True
    | Some (ids, exact) => NoDup ids /\
        (forall id o, rec id o -> matches s acct t sem o root = Ok true -> id ∈ ids) /\
        (exact = true -> forall id, id ∈ ids -> exists o, rec id o /\ matches s acct t sem o root = Ok true)
    end.
Proof. by apply candidateSet_planned. Qed.

(** ** A small account *)

Section demo.
#[local] Existing Instances map_order Instances.demo_time Instances.demo_fold Instances.demo_codec Memory.memory_backend Memory.memory_laws.

Definition demo_store : Memory.Store := c_store Instances.demo_c.
Definition demo_stored : Id -> Object -> Prop := stored Instances.demo_db Instances.demo_acct demo_store (bs "Note").
Definition demo_std : stdType Memory.Store := mkStd Instances.demo_db Instances.demo_type None false 500 64 1000.

(** The filter {title: HELLO}, as a tree. *)
Definition demo_root : filterNode := FCond {[ bs "title" := quoted (bs "HELLO") ]}.

Lemma demo_root_core : all_conds (core_cond Instances.demo_type) demo_root.
Proof.
  cbn [all_conds demo_root]. intros name v [<- <-]%lookup_singleton_Some. eexists. split; [vm_compute; reflexivity|]. split; vm_compute; reflexivity.
Qed.

Lemma demo_fun id o o' : demo_stored id o -> demo_stored id o' -> o = o'.
Proof. apply stored_fun. Qed.

Lemma demo_contract : all_conds (cond_contract Instances.demo_db demo_store Instances.demo_acct Instances.demo_type None demo_stored) demo_root.
Proof.
  eapply all_conds_impl; [|apply demo_root_core]. intros name v. apply core_contract;
    [apply Instances.demo_db_wf|vm_compute; reflexivity|apply demo_account_reach|reflexivity].
Qed.
End demo.

Lemma planner_sound_witness :
  @candidateSet map_order Instances.demo_time Instances.demo_fold Memory.Store Memory.memory_backend Instances.demo_db demo_store Instances.demo_acct
    Instances.demo_type None demo_root = Ok (Some ([Instances.demo_id], true)) /\
  exists o, demo_stored Instances.demo_id o /\
    @matches map_order Instances.demo_time Instances.demo_fold Memory.Store demo_store Instances.demo_acct Instances.demo_type None o demo_root = Ok true.
Proof.
  assert (E : @candidateSet map_order Instances.demo_time Instances.demo_fold Memory.Store Memory.memory_backend Instances.demo_db demo_store Instances.demo_acct
    Instances.demo_type None demo_root = Ok (Some ([Instances.demo_id], true))) by (vm_compute; reflexivity).
  split; [exact E|].
  destruct (@planner_sound map_order Instances.demo_time Instances.demo_fold Memory.Store Memory.memory_backend Instances.demo_db demo_store Instances.demo_acct
    Instances.demo_type None demo_stored demo_root demo_fun demo_contract) as (r & Er & H).
  rewrite E in Er. injection Er as <-. destruct H as (_ & _ & H). apply (H eq_refl). left.
Defined.

End EvalFacts.
