(* ===== verification/QueryFacts.v ===== *)
(** * QueryFacts: Foo/query answers the window it is asked for

    The projection a query loads covers what it reads, the parsed sort
    compares declared properties, and the response is the asked window of the
    one ordered list of matches: anchors, negative positions, limits and
    machine-width sums included. *)

From S2P Require Import Prelude GoLib Keyenc Backend Batches Memory Jsonscan Jsonwords Jsongrammar Jsonobject Jmap Descriptor Keys ObjectDB SetIndex.
From S2P Require Import Commit Indexing CommitFacts Instances CommitIndex Reach CommitLog Typed Queries Changes Sorting SortingFacts Filter Query FilterFacts EvalFacts.

Module QueryFacts.
Import Keyenc Backend Batches Jsonscan Jsongrammar Jmap Descriptor Keys ObjectDB Commit Indexing CommitFacts CommitIndex Reach CommitLog Typed Queries.
Import Sorting SortingFacts Filter Query FilterFacts EvalFacts.

Section projection.
Context `{MR : MapRange, TP : TimeParse, CF : CaseFold, LC : LogCodec, CD : ComparatorDecode}.
Context {S : Type} `{BE : Backend S}.
Variable st : stdType S.
Hypothesis Hook : sd_hooks st = None.

(** Projections only grow. *)
Definition grows (w w' : gmap bytes bool) : Prop := forall name, is_wanted w name = true -> is_wanted w' name = true.

Lemma grows_insert w name : grows w (<[name := true]> w) /\ is_wanted (<[name := true]> w) name = true.
Proof.
  split; [|unfold is_wanted; by rewrite lookup_insert_eq]. intros x Hx. unfold is_wanted in *. destruct (decide (x = name)) as [-> |Hne].
  - by rewrite lookup_insert_eq.
  - by rewrite lookup_insert_ne.
Qed.

Lemma project_names_wanted names w w' :
  project_names st names w = Some w' -> grows w w' /\ forall name, name ∈ names -> is_wanted w' name = true.
Proof.
  revert w. induction names as [|name names IH]; intros w; cbn [project_names].
  - intros [= ->]. split; [by intros x|by intros x ?%not_elem_of_nil].
  - rewrite (core_semantics st Hook). intros [Hg Hn]%IH.
    destruct (grows_insert w name) as [Hg' Hw]. split; [intros x Hx; auto|]. intros x [-> |Hx]%elem_of_cons; [by apply Hg|by apply Hn].
Qed.

Lemma projectConds_wanted root w w' :
  projectConds st root w = Some w' -> grows w w' /\ all_conds (fun name _ => is_wanted w' name = true) root.
Proof.
  revert w w'. induction root as [|op children IH|cond] using filterNode_rect; intros w w'; cbn [projectConds].
  - intros [= ->]. split; [by intros x|done].
  - rewrite all_conds_children.
    revert w. induction IH as [|c cs Hc _ IH']; intros w; cbn [project_children].
    + intros [= ->]. split; [by intros x|constructor].
    + intros (w1 & [H1 H1']%Hc & H2)%bind_Some. destruct (IH' _ H2) as [H3 H4]. split; [intros x Hx; auto|]. constructor; [|done].
      eapply all_conds_impl; [|exact H1']. cbn. intros name _ Hn. by apply H3.
  - intros [Hg Hn]%project_names_wanted. split; [done|]. cbn [all_conds]. intros name v Hv. apply Hn. apply list_elem_of_fmap.
    exists (name, v). split; [done|]. by apply elem_of_range_map.
Qed.

Lemma project_sorts_wanted t raws cmps w w' :
  parseComparators t raws = Reply cmps -> project_sorts st raws w = Some w' ->
  grows w w' /\ forall c, c ∈ cmps -> is_wanted w' (c_name c) = true.
Proof.
  revert cmps w. induction raws as [|raw raws IH]; intros cmps w; cbn [parseComparators project_sorts].
  - intros [= <-] [= ->]. split; [by intros x|by intros c ?%not_elem_of_nil].
  - destruct (unmarshal_comparator raw) as [[[name asc] coll]|] eqn:E; [|done]. rewrite (unmarshal_same _ _ _ _ E). destruct (bool_decide (name = [])); [done|].
    destruct (t_Properties t !! name) as [p|]; [|done]. destruct (p_Internal p); [done|]. cbv zeta.
    destruct (match p_Kind p with KindString => _ | _ => _ end) as [num|]; [|done]. cbn [mbind outcome_bind].
    destruct (parseComparators t raws) as [rest|] eqn:Er; [|done]. cbn [mbind outcome_bind]. intros [= <-]. rewrite Hook.
    change (Some name ≫= ?f) with (f name). cbv beta iota. intros [Hg Hn]%(IH rest); [|done].
    destruct (grows_insert w name) as [Hg' Hw]. split; [intros x Hx; auto|]. intros c [-> |Hc]%elem_of_cons; [by apply Hg|by apply Hn].
Qed.

Lemma parseComparators_declared t raws cmps : parseComparators t raws = Reply cmps -> declared_cmps t cmps /\ length cmps = length raws.
Proof.
  revert cmps. induction raws as [|raw raws IH]; intros cmps; cbn [parseComparators].
  - intros [= <-]. split; [by intros c ?%not_elem_of_nil|done].
  - destruct (unmarshal_comparator raw) as [[[name asc] coll]|]; [|done]. destruct (bool_decide (name = [])); [done|].
    destruct (t_Properties t !! name) as [p|] eqn:Ep; [|done]. destruct (p_Internal p); [done|]. cbv zeta.
    destruct (match p_Kind p with KindString => _ | _ => _ end) as [num|]; [|done]. cbn [mbind outcome_bind].
    destruct (parseComparators t raws) as [rest|]; [|done]. cbn [mbind outcome_bind]. intros [= <-]. destruct (IH rest eq_refl) as [Hd Hl].
    split; [|cbn; lia]. intros c [-> |Hc]%elem_of_cons; [done|by apply Hd].
Qed.

Lemma queryProjection_ok root raws cmps :
  parseComparators (sd_t st) raws = Reply cmps -> wanted_ok (queryProjection st root raws false) root cmps.
Proof.
  intros Hp. unfold queryProjection. rewrite Hook. cbn [mbind option_bind].
  assert (Hall : forall r, all_conds (fun _ _ => True) r).
  { intros r. induction r as [|op children IH|cond] using filterNode_rect; [done|by rewrite all_conds_children|done]. }
  destruct (projectConds st root (<[bs "id" := true]> ∅)) as [w1|] eqn:E1; [|done].
  change (Some w1 ≫= ?f) with (f w1). cbv beta. destruct (project_sorts st raws w1) as [w2|] eqn:E2; [|done].
  change (Some w2 ≫= ?f) with (f w2). cbv beta iota. apply projectConds_wanted in E1 as [H1 H2]. destruct (project_sorts_wanted _ _ _ _ _ Hp E2) as [H3 H4].
  split; [|split].
  - apply H3, H1. by apply grows_insert.
  - eapply all_conds_impl; [|exact H2]. intros name v Hn. by apply H3.
  - done.
Qed.
End projection.

(** ** Windows *)

(** Where the asked window of the list starts; [None] when the anchor is not
    in it. *)
Definition start_of (a : queryArgs) (full : list Id) : option Z :=
  match a_Anchor a with
  | Some anchor => option_map (fun idx => Z.max 0 (idx + a_AnchorOffset a)) (index_of anchor full 0)
  | None => Some (if a_Position a <? 0 then Z.max 0 (a_Position a + Z.of_nat (length full)) else a_Position a)
  end.

Definition limit_of (cap : Z) (a : queryArgs) : Z := match a_Limit a with Some l => Z.min l cap | None => cap end.

Definition window_of (limit start : Z) (full : list Id) : list Id := take (Z.to_nat limit) (drop (Z.to_nat start) full).

Lemma index_of_range id l i k : index_of id l i = Some k -> i <= k < i + Z.of_nat (length l).
Proof.
  revert i. induction l as [|x l IH]; intros i; cbn [index_of]; [done|]. case_bool_decide; [intros [= <-]; cbn [length]; lia|].
  intros Hk%IH. cbn [length]. lia.
Qed.

(** The window [query] orders by: positions past it are never read. *)
Definition order_window (a : queryArgs) (limit : Z) : Z :=
  match a_Anchor a with None => if 0 <=? a_Position a then int64 (a_Position a + limit) else 0 | Some _ => 0 end.

Lemma limit_read cap a :
  (if match a_Limit a with Some l => cap <? l | None => true end then cap else default cap (a_Limit a)) = limit_of cap a.
Proof. unfold limit_of. destruct (a_Limit a) as [l|]; [|done]. change (default cap (Some l)) with l. destruct (Z.ltb_spec cap l); lia. Qed.

Lemma order_read a cmps limit :
  match a_Anchor a with
  | None => if (0 <=? a_Position a) && negb false then mkOrdering (Some cmps) None (int64 (a_Position a + limit)) else mkOrdering (Some cmps) None 0
  | Some _ => mkOrdering (Some cmps) None 0
  end = mkOrdering (Some cmps) None (order_window a limit).
Proof. unfold order_window. destruct (a_Anchor a); [done|]. by destruct (0 <=? a_Position a). Qed.

Lemma start_of_range a full pos :
  start_of a full = Some pos -> is_int64 (a_Position a) -> - MaxInt <= a_AnchorOffset a <= MaxInt -> Z.of_nat (length full) <= MaxInt ->
  0 <= pos /\ is_int64 pos.
Proof.
  unfold start_of, is_int64, MaxInt. intros E Hp Ho Hl. destruct (a_Anchor a) as [anchor|].
  - destruct (index_of anchor full 0) as [idx|] eqn:Ei; [|done]. apply index_of_range in Ei. injection E as <-. lia.
  - injection E as <-. destruct (Z.ltb_spec (a_Position a) 0); lia.
Qed.

(** Where the sums matter, the whole list was ordered. *)
Lemma order_window_full a limit (out full : list Id) :
  (out = full \/ 0 < order_window a limit < Z.of_nat (length full) /\ take (Z.to_nat (order_window a limit)) out = take (Z.to_nat (order_window a limit)) full) ->
  a_Anchor a = None \/ out = full.
Proof. unfold order_window. destruct (a_Anchor a); [|auto]. intros [?|[? _]]; [auto|lia]. Qed.

Lemma order_window_read a limit (out full : list Id) pos :
  (out = full \/ 0 < order_window a limit < Z.of_nat (length full) /\ take (Z.to_nat (order_window a limit)) out = take (Z.to_nat (order_window a limit)) full) ->
  start_of a full = Some pos -> is_int64 (a_Position a) -> 0 <= limit <= MaxInt -> out = full \/ order_window a limit = pos + limit.
Proof.
  unfold order_window, start_of. destruct (a_Anchor a); [intros [?|[? _]]; [auto|lia]|].
  destruct (Z.leb_spec 0 (a_Position a)); [|intros [?|[? _]]; [auto|lia]]. intros Hw [= <-] Hp Hl. rewrite (proj2 (Z.ltb_ge _ 0)) by done.
  unfold is_int64, MaxInt, int64 in *. destruct Hw as [?|[Hw _]]; [auto|]. right.
  assert (a_Position a + limit < 2 ^ 63 \/ 2 ^ 63 <= a_Position a + limit) as [Hs|Hs] by lia.
  - rewrite Z.mod_small in *; lia.
  - replace (a_Position a + limit + 2 ^ 63) with (a_Position a + limit - 2 ^ 63 + 1 * 2 ^ 64) in Hw by lia. rewrite Z.mod_add, Z.mod_small in Hw; lia.
Qed.

Lemma window_read out full pos limit w :
  out ≡ₚ full -> (out = full \/ 0 < w < Z.of_nat (length full) /\ take (Z.to_nat w) out = take (Z.to_nat w) full) ->
  out = full \/ w = pos + limit -> 0 <= pos -> 0 <= limit -> window_of limit pos out = window_of limit pos full.
Proof.
  intros Hp [-> |[Hw Ht]]; [done|]. intros [-> |Ew] Hpos Hlim; [done|]. unfold window_of. rewrite (take_drop_commute out), (take_drop_commute full).
  replace (Z.to_nat pos + Z.to_nat limit)%nat with (Z.to_nat w) by lia. by rewrite Ht.
Qed.

(** [results[position:windowEnd]] with the sums of the machine. *)
Lemma slice_window (out : list Id) pos limit :
  0 <= pos -> is_int64 pos -> 0 <= limit -> is_int64 (Z.of_nat (length out) + limit) ->
  (if pos <? Z.of_nat (length out)
   then slice_of out pos (if Z.of_nat (length out) <? pos then pos
                          else if Z.of_nat (length out) <? int64 (pos + limit) then Z.of_nat (length out) else int64 (pos + limit))
   else Reply []) = Reply (window_of limit pos out).
Proof.
  intros Hpos Hi Hlim Hsum. unfold window_of. destruct (Z.ltb_spec pos (Z.of_nat (length out))) as [Hlt|Hge].
  - rewrite (proj2 (Z.ltb_ge _ pos)) by lia. rewrite int64_small by (unfold is_int64 in *; lia). unfold slice_of.
    destruct (Z.ltb_spec (Z.of_nat (length out)) (pos + limit)) as [H|H].
    + rewrite (proj2 (Z.leb_le 0 pos)), (proj2 (Z.leb_le pos _)), Z.leb_refl by lia. cbn [andb]. f_equal.
      rewrite !take_ge by (rewrite length_drop; lia). done.
    + rewrite (proj2 (Z.leb_le 0 pos)), (proj2 (Z.leb_le pos _)), (proj2 (Z.leb_le (pos + limit) _)) by lia. cbn [andb]. f_equal. f_equal. lia.
  - rewrite (drop_ge out) by lia. by rewrite take_nil.
Qed.

Lemma window_start_spec a (out full : list Id) :
  a_Position a = 0 \/ is_int64 (a_Position a) -> is_int64 (Z.of_nat (length full) + a_AnchorOffset a) -> is_int64 (a_AnchorOffset a) ->
  Z.of_nat (length full) < 2 ^ 63 -> out ≡ₚ full -> (a_Anchor a = None \/ out = full) ->
  window_start a out = match start_of a full with Some pos => Reply pos | None => Fail ErrAnchorNotFound end.
Proof.
  intros Hpos Hoff1 Hoff2 Hlen Hp Heq. unfold window_start, start_of. rewrite (Permutation_length Hp).
  assert (Hmax : forall z, (if z <? 0 then 0 else z) = Z.max 0 z) by (intros z; destruct (Z.ltb_spec z 0); lia).
  destruct (a_Anchor a) as [anchor|].
  - destruct Heq as [?| ->]; [done|]. destruct (index_of anchor full 0) as [idx|] eqn:E; [|done]. apply index_of_range in E.
    cbn [mbind outcome_bind option_map]. rewrite int64_small by (unfold is_int64 in *; lia). by rewrite Hmax.
  - cbn [mbind outcome_bind]. destruct (Z.ltb_spec (a_Position a) 0) as [H|H].
    + rewrite int64_small by (unfold is_int64 in *; lia). by rewrite Hmax.
    + by rewrite Hmax, Z.max_r.
Qed.

Section exact.
Context `{MR : MapRange, TP : TimeParse, CF : CaseFold, LC : LogCodec, CD : ComparatorDecode}.
Context {S : Type} `{BE : Backend S, BL : !BackendLaws S}.
Variable st : stdType S.
Variable s : S.
Variable a : queryArgs.

(** A standard type without hooks, registered in its database, and an account
    of that database. *)
Record core_type : Prop := mkCore {
  ct_db : db_wf (sd_db st);
  ct_acct : Valid (a_AccountId a) = true;
  ct_reach : account_reach (sd_db st) (a_AccountId a) s;
  ct_type : db_types (sd_db st) !! t_Name (sd_t st) = Some (sd_t st);
  ct_hooks : sd_hooks st = None;
  ct_ids : canonical_ids (sd_db st) (a_AccountId a) s (t_Name (sd_t st));
  ct_nodes : 0 <= sd_MaxFilterNodes st;
  ct_cap : 0 <= sd_MaxObjectsInGet st <= MaxInt;
}.

(** Arguments in the ranges of the protocol: a position of the machine, an
    offset and a limit that are JMAP integers. *)
Record args_ok : Prop := mkArgs {
  ao_position : is_int64 (a_Position a);
  ao_offset : - MaxInt <= a_AnchorOffset a <= MaxInt;
  ao_limit : 0 <= default 0 (a_Limit a);
  ao_collapse : a_CollapseThreads a = None;
}.

Abbreviation acct := (a_AccountId a).
Abbreviation matches_of root := (matching (sd_db st) acct s (t_Name (sd_t st)) (sd_t st) root None).

Lemma query_answer ident extra root cmps qs :
  core_type -> args_ok -> checkAccount ident acct false = Reply tt ->
  parseFilter (S := S) (sd_MaxFilterNodes st) (sd_t st) None (a_Filter a) = Reply root -> parseComparators (sd_t st) (a_Sort a) = Reply cmps ->
  TypeState (sd_db st) s acct (t_Name (sd_t st)) = Ok qs ->
  let limit := limit_of (sd_MaxObjectsInGet st) a in
  exists full, results_of (sd_db st) acct s (t_Name (sd_t st)) cmps (matches_of root) full /\
    (Z.of_nat (length full) <= MaxInt ->
     query st s ident a extra =
     match start_of a full with
     | None => Fail ErrAnchorNotFound
     | Some pos => Reply (mkQueryResponse qs (changeCalculable st root (a_Sort a) false (negb (bool_decide (extra = ∅)))) pos (window_of limit pos full)
                            (if a_CalculateTotal a then Some (Z.of_nat (length full)) else None)
                            (if match a_Limit a with Some l => sd_MaxObjectsInGet st <? l | None => true end then Some limit else None))
     end).
Proof.
  intros [Hdb Hacct Hreach Ht Hook Hcan Hnodes Hcap] [Hpos Hoff Hlim Hcol] Hwho Hroot Hcmps Hqs limit.
  destruct (parseComparators_declared (sd_t st) (a_Sort a) cmps Hcmps) as [Hdecl Hlen].
  assert (Hconds : all_conds (core_cond (sd_t st)) root).
  { by apply (parseFilter_ok (S := S) (sd_t st) (sd_MaxFilterNodes st) None (a_Filter a)). }
  assert (Hlimit : 0 <= limit <= MaxInt).
  { unfold limit, limit_of. destruct (a_Limit a) as [l|]; [|done]. cbn in Hlim. lia. }
  destruct (evaluate_exact (sd_db st) acct s (t_Name (sd_t st)) (sd_t st) Hdb Hacct Hreach Ht st eq_refl eq_refl Hook root cmps Hconds Hdecl
    None (order_window a limit) (length (a_Sort a) =? 0)%nat extra None (queryProjection st root (a_Sort a) false))
    as (full & out & Eval & Hres & Hp & Hw); [done| |by apply queryProjection_ok|].
  { intros E%Nat.eqb_eq. rewrite E in Hlen. by destruct cmps. }
  exists full. split; [done|]. intros Hbig. unfold query. rewrite Hwho, Hcol, (core_semantics st Hook). cbn [mbind outcome_bind].
  rewrite Hroot. cbn [mbind outcome_bind]. unfold buildCompare. rewrite Hook. cbn [mbind option_bind outcome_bind]. rewrite Hcmps. cbn [mbind outcome_bind].
  replace (match a_Limit a with Some l => l <? 0 | None => false end) with false by (destruct (a_Limit a); [cbn in Hlim; symmetry; apply Z.ltb_ge; lia|done]).
  change (default false None) with false. rewrite (limit_read (sd_MaxObjectsInGet st) a). fold limit. cbn [o_cmps o_less]. rewrite (order_read a cmps limit), Eval. cbn [served mbind outcome_bind].
  rewrite (Permutation_length Hp), (window_start_spec a out full) by (try done; unfold is_int64, MaxInt in *; try lia; by apply (order_window_full a limit)).
  destruct (start_of a full) as [pos|] eqn:Epos; [|done]. cbn [mbind outcome_bind].
  destruct (start_of_range a full pos Epos Hpos Hoff Hbig) as [Hp1 Hp2]. rewrite <- (Permutation_length Hp).
  rewrite (slice_window out pos limit Hp1 Hp2 (proj1 Hlimit)) by (rewrite (Permutation_length Hp); unfold is_int64, MaxInt in *; lia). cbn [mbind outcome_bind].
  unfold queryStateOf. rewrite Hqs, Hook. cbn [mbind result_bind served outcome_bind]. f_equal. f_equal.
  apply (window_read out full pos limit (order_window a limit)); [done|done| |done|lia]. by apply (order_window_read a limit).
Qed.
End exact.

(** C16: loading less never changes an answer.  For a type without hooks the
    evaluation over the projection that [queryProjection] computes - the
    filter's properties, the sort's and the id - returns what the evaluation
    over fully decoded records returns, id for id, whatever the window and
    the restriction. *)
Theorem projection_sound `{MR : MapRange, TP : TimeParse, CF : CaseFold, LC : LogCodec, CD : ComparatorDecode} {S : Type} `{BE : Backend S, BL : !BackendLaws S}
  (st : stdType S) (s : S) (acct : Id) (root : filterNode) (sort : list bytes) (cmps : list comparator) (less : option (Object -> Object -> Z)) (w : Z)
  (emptySort : bool) (extra : gmap bytes bytes) (restrict : option (gset Id))
  (Hdb : db_wf (sd_db st)) (Hacct : Valid acct = true) (Hr : account_reach (sd_db st) acct s)
  (Ht : db_types (sd_db st) !! t_Name (sd_t st) = Some (sd_t st)) (Hook : sd_hooks st = None)
  (Hs : parseComparators (sd_t st) sort = Reply cmps) :
  evaluateWith st s acct root (mkOrdering (Some cmps) less w) emptySort false extra restrict (queryProjection st root sort false) =
  evaluateWith st s acct root (mkOrdering (Some cmps) less w) emptySort false extra restrict None.
Proof. apply (evaluateWith_project (sd_db st) acct s (t_Name (sd_t st)) (sd_t st)); try done. by apply queryProjection_ok. Qed.

(** C4: Foo/query is exact.  For a type without hooks and arguments in the
    protocol's ranges, there is one list of the ids of exactly the stored
    records the filter accepts, without repetition, in the order of the sort
    with ties by id; and the answer is the window of that list the arguments
    ask for - from the anchor plus its offset or from the position, negative
    positions counted from the end, cut to the limit and the server's cap -
    or [anchorNotFound] when the anchor is not in the list.  The window alone
    being sorted, the fast path without record loads, the projected loads and
    the machine-width sums do not show. *)
Theorem query_exact `{MR : MapRange, TP : TimeParse, CF : CaseFold, LC : LogCodec, CD : ComparatorDecode} {S : Type} `{BE : Backend S, BL : !BackendLaws S}
  (st : stdType S) (s : S) (ident : Identity) (a : queryArgs) (extra : gmap bytes bytes) (root : filterNode) (cmps : list comparator) (qs : bytes)
  (Hcore : core_type st s a) (Hargs : args_ok a) (Hwho : checkAccount ident (a_AccountId a) false = Reply tt)
  (Hroot : parseFilter (S := S) (sd_MaxFilterNodes st) (sd_t st) None (a_Filter a) = Reply root)
  (Hcmps : parseComparators (sd_t st) (a_Sort a) = Reply cmps)
  (Hqs : TypeState (sd_db st) s (a_AccountId a) (t_Name (sd_t st)) = Ok qs) :
  let stored id o := obj_at (sd_db st) (be_map s) (a_AccountId a) (t_Name (sd_t st)) id = Some o in
  exists full,
    NoDup full /\
    (forall id, id ∈ full <-> exists o, stored id o /\ matches s (a_AccountId a) (sd_t st) None o root = Ok true) /\
    StronglySorted (fun x y => exists ox oy, stored x ox /\ stored y oy /\ compareFunc (mkOrdering (Some cmps) None 0) ox oy < 0) full /\
    (Z.of_nat (length full) <= MaxInt ->
     match start_of a full with
     | None => query st s ident a extra = Fail ErrAnchorNotFound
     | Some pos =>
         exists resp, query st s ident a extra = Reply resp /\ qr_QueryState resp = qs /\ qr_Position resp = pos /\
           qr_Ids resp = window_of (limit_of (sd_MaxObjectsInGet st) a) pos full /\
           qr_Total resp = if a_CalculateTotal a then Some (Z.of_nat (length full)) else None
     end).
Proof.
  cbv zeta. destruct (query_answer st s a ident extra root cmps qs Hcore Hargs Hwho Hroot Hcmps Hqs) as (full & [H1 H2 H3] & Hq).
  exists full. split; [done|]. split; [|split; [done|]].
  - intros id. rewrite H2. unfold matching, holds, stored. split; [by intros [? _]|done].
  - intros Hbig. rewrite (Hq Hbig). destruct (start_of a full); [|done]. by eexists.
Qed.

(** ** Failures *)

Section failures.
Context `{MR : MapRange, TP : TimeParse, CF : CaseFold, LC : LogCodec, CD : ComparatorDecode}.
Context {S : Type} `{BE : Backend S}.
Variable st : stdType S.

(** A sort hook answers with the errors of the protocol. *)
Definition sort_hook_ok : Prop :=
  forall q parse acct raws e, sd_hooks st = Some q -> qh_Sort q = Some parse -> parse acct raws = Fail e -> e <> IndexPanic /\ e <> NoFuel.

Lemma check_conds_panic (t : Type_) (sem : option (FilterSemantics S)) l : check_conds t sem l <> Fail IndexPanic.
Proof.
  induction l as [|[n w] l IH]; [done|]. cbn [check_conds]. destruct sem as [f|].
  - by destruct (fs_Validate f n w) as [[]|].
  - destruct (t_Properties t !! n) as [p|]; [|done]. destruct (p_Internal p); [done|]. by destruct (CheckValue p w).
Qed.

Lemma parse_children_panic parse cs b : (forall c b, parse c b <> Fail IndexPanic) -> parse_children parse cs b <> Fail IndexPanic.
Proof.
  intros Hp. revert b. induction cs as [|c cs IH]; intros b; [done|]. cbn [parse_children]. pose proof (Hp c b) as H.
  destruct (parse c b) as [[nd b1]|e]; cbn [mbind outcome_bind snd]; [|congruence]. specialize (IH b1).
  destruct (parse_children parse cs b1) as [[cs' b2]|e]; cbn [mbind outcome_bind]; [done|congruence].
Qed.

Lemma parseFilterNode_panic fuel (t : Type_) (sem : option (FilterSemantics S)) raw b : parseFilterNode fuel t sem raw b <> Fail IndexPanic.
Proof.
  revert raw b. induction fuel as [|fuel IH]; intros raw b; [done|]. cbn [parseFilterNode]. destruct (b - 1 <? 0); [done|]. destruct raw as [raw|]; [|done].
  destruct (isNull raw); [done|]. destruct (json_object raw) as [m|]; [|done]. destruct (m !! bs "operator") as [op|].
  - destruct (json_string op ≫= filter_op) as [o|]; [|done]. destruct (m !! bs "conditions") as [conds|]; [|done]. destruct (negb _); [done|].
    destruct (json_array conds) as [cs|]; [|done]. pose proof (parse_children_panic (fun c => parseFilterNode fuel t sem (Some c)) cs (b - 1) (fun c b => IH (Some c) b)) as Hc.
    destruct (parse_children _ cs (b - 1)) as [[cs' b']|e]; cbn [mbind outcome_bind]; [done|congruence].
  - pose proof (check_conds_panic t sem (range_map m)). destruct (check_conds t sem (range_map m)) as [[]|e]; cbn [mbind outcome_bind]; [done|congruence].
Qed.

Lemma parseComparators_errors t raws e : parseComparators t raws = Fail e -> e = ErrInvalidArguments \/ e = ErrUnsupportedSort.
Proof.
  induction raws as [|raw raws IH]; cbn [parseComparators]; [done|]. destruct (unmarshal_comparator raw) as [[[name asc] coll]|]; [|intros [= <-]; auto].
  destruct (bool_decide (name = [])); [intros [= <-]; auto|]. destruct (t_Properties t !! name) as [p|]; [|intros [= <-]; auto].
  destruct (p_Internal p); [intros [= <-]; auto|]. cbv zeta. destruct (match p_Kind p with KindString => _ | _ => _ end) as [num|e'] eqn:En; cbn [mbind outcome_bind].
  - destruct (parseComparators t raws); [done|]. cbn [mbind outcome_bind]. intros [= ->]. auto.
  - intros [= ->]. destruct (p_Kind p); try done. destruct (_ || _); [done|]. destruct (bool_decide _); [done|]. injection En as <-. auto.
Qed.

Lemma buildCompare_errors acct raws e : sort_hook_ok -> buildCompare st acct raws = Fail e -> e <> IndexPanic /\ e <> NoFuel.
Proof.
  intros Hh. unfold buildCompare. destruct (sd_hooks st) as [q|] eqn:Eq; cbn [mbind option_bind].
  - destruct (qh_Sort q) as [parse|] eqn:Ep.
    + destruct (parse acct raws) as [less|e'] eqn:E; cbn [mbind outcome_bind]; [done|]. intros [= <-]. by eapply Hh.
    + destruct (parseComparators (sd_t st) raws) as [c|e'] eqn:E; cbn [mbind outcome_bind]; [done|]. intros [= <-]. by apply parseComparators_errors in E as [-> | ->].
  - destruct (parseComparators (sd_t st) raws) as [c|e'] eqn:E; cbn [mbind outcome_bind]; [done|]. intros [= <-]. by apply parseComparators_errors in E as [-> | ->].
Qed.

Lemma parseFilter_panic sem raw e : 0 <= sd_MaxFilterNodes st -> parseFilter (S := S) (sd_MaxFilterNodes st) (sd_t st) sem raw = Fail e -> e <> IndexPanic /\ e <> NoFuel.
Proof.
  intros Hn Hf. split; [|intros ->; by apply (parseFilter_ok (S := S) (sd_t st) (sd_MaxFilterNodes st) sem raw Hn)].
  unfold parseFilter in Hf. pose proof (parseFilterNode_panic (Datatypes.S (Z.to_nat (sd_MaxFilterNodes st))) (sd_t st) sem raw (sd_MaxFilterNodes st)) as Hp.
  destruct (parseFilterNode _ _ _ _ _) as [[nd b]|e']; cbn [mbind outcome_bind] in Hf; [done|]. congruence.
Qed.

Lemma window_start_range a results pos : is_int64 (a_Position a) -> window_start a results = Reply pos -> 0 <= pos /\ is_int64 pos.
Proof.
  intros Hp. unfold window_start. set (p := match a_Anchor a with Some _ => _ | None => _ end).
  assert (Hr : forall z, p = Reply z -> is_int64 z).
  { intros z. unfold p. destruct (a_Anchor a); [destruct (index_of _ _ _); [|done]|]; intros [= <-]; [apply int64_range|]. destruct (a_Position a <? 0); [apply int64_range|done]. }
  destruct p as [z|e]; [|done]. cbn [mbind outcome_bind]. intros [= <-]. specialize (Hr z eq_refl). unfold is_int64 in *. destruct (Z.ltb_spec z 0); lia.
Qed.

(** What the store can still cause once the arguments are accepted. *)
Lemma query_tail (results : list Id) a s limit (f : bytes -> Z -> list Id -> queryResponse) e :
  is_int64 (a_Position a) -> 0 <= limit <= MaxInt -> Z.of_nat (length results) <= MaxInt ->
  (position ← window_start a results;
   let windowEnd := int64 (position + limit) in
   let windowEnd := if Z.of_nat (length results) <? position then position else if Z.of_nat (length results) <? windowEnd then Z.of_nat (length results) else windowEnd in
   ids ← (if position <? Z.of_nat (length results) then slice_of results position windowEnd else Reply []);
   queryState ← served (queryStateOf st s (a_AccountId a));
   Reply (f queryState position ids)) = Fail e -> e = ErrServerFail \/ e = ErrAnchorNotFound.
Proof.
  intros Hp Hl Hb. destruct (window_start a results) as [pos|e'] eqn:Ew; cbn [mbind outcome_bind].
  - destruct (window_start_range a results pos Hp Ew) as [H1 H2]. cbv zeta.
    rewrite (slice_window results pos limit H1 H2 (proj1 Hl)) by (unfold is_int64, MaxInt in *; lia). cbn [mbind outcome_bind].
    destruct (queryStateOf st s (a_AccountId a)); cbn [served mbind outcome_bind]; [done|]. intros [= <-]. auto.
  - intros [= <-]. unfold window_start in Ew. destruct (a_Anchor a); [destruct (index_of _ _ _)|]; cbn in Ew; try done. injection Ew as <-. auto.
Qed.
End failures.

(** C18: how Foo/query fails.  For any type, hooks included, a failing call
    never comes from an index or slice out of range nor from the filter's
    recursion; and apart from [serverFail] and [anchorNotFound] every failure
    is decided by the arguments alone: the same call fails the same way over
    any other store. *)
Theorem query_failures `{MR : MapRange, TP : TimeParse, CF : CaseFold, LC : LogCodec, CD : ComparatorDecode} {S : Type} `{BE : Backend S}
  (st : stdType S) (s s' : S) (ident : Identity) (a : queryArgs) (extra : gmap bytes bytes) (e : errType)
  (Hhook : sort_hook_ok st) (Hnodes : 0 <= sd_MaxFilterNodes st) (Hcap : 0 <= sd_MaxObjectsInGet st <= MaxInt) (Hpos : is_int64 (a_Position a))
  (Hfit : forall root ord w l, parseFilter (sd_MaxFilterNodes st) (sd_t st) (filterSemantics st) (a_Filter a) = Reply root ->
     buildCompare st (a_AccountId a) (a_Sort a) = Reply ord ->
     evaluate st s (a_AccountId a) root (mkOrdering (o_cmps ord) (o_less ord) w) (length (a_Sort a) =? 0)%nat (default false (a_CollapseThreads a)) extra None
       (queryProjection st root (a_Sort a) (default false (a_CollapseThreads a))) = Ok l -> Z.of_nat (length l) <= MaxInt)
  (Hf : query st s ident a extra = Fail e) :
  e <> IndexPanic /\ e <> NoFuel /\ (e = ErrServerFail \/ e = ErrAnchorNotFound \/ query st s' ident a extra = Fail e).
Proof.
  revert Hf. unfold query. destruct (checkAccount ident (a_AccountId a) false) as [[]|e0] eqn:Ea; cbn [mbind outcome_bind].
  2: { intros [= <-]. unfold checkAccount in Ea. destruct (bool_decide _); [injection Ea as <-; auto|].
       destruct ident as [accts|]; [destruct (accts !! a_AccountId a); [done|]|]; injection Ea as <-; auto. }
  destruct (match a_CollapseThreads a with Some _ => _ | None => _ end); [intros [= <-]; auto|].
  destruct (parseFilter _ _ _ _) as [root|e0] eqn:Er; cbn [mbind outcome_bind].
  2: { intros [= <-]. destruct (parseFilter_panic st _ _ _ Hnodes Er). auto. }
  destruct (buildCompare st (a_AccountId a) (a_Sort a)) as [ord|e0] eqn:Eb; cbn [mbind outcome_bind].
  2: { intros [= <-]. destruct (buildCompare_errors st _ _ _ Hhook Eb). auto. }
  destruct (match a_Limit a with Some l => l <? 0 | None => false end) eqn:Elim; [intros [= <-]; auto|].
  rewrite (limit_read (sd_MaxObjectsInGet st) a). set (limit := limit_of _ a). set (ord' := match a_Anchor a with Some _ => _ | None => _ end).
  assert (Hl : 0 <= limit <= MaxInt).
  { unfold limit, limit_of. destruct (a_Limit a) as [l|]; [|done]. apply Z.ltb_ge in Elim. lia. }
  intros Hf. assert (He : e = ErrServerFail \/ e = ErrAnchorNotFound); [|by destruct He as [-> | ->]; auto]. revert Hf.
  assert (Eo : exists w, ord' = mkOrdering (o_cmps ord) (o_less ord) w).
  { assert (Ew : ord = mkOrdering (o_cmps ord) (o_less ord) (o_window ord)) by (by destruct ord). unfold ord'. clearbody limit.
    destruct (a_Anchor a); [by eexists|]. destruct (_ ≫= _); [by eexists|]. destruct (_ && _); by eexists. }
  destruct Eo as [w Eo]. rewrite Eo.
  destruct (evaluate st s _ _ _ _ _ _ _ _) as [results|] eqn:Ev; cbn [served mbind outcome_bind]; [|intros [= <-]; auto].
  apply (query_tail st results a s limit (fun qs position ids => mkQueryResponse qs _ position ids _ _)); [done|done|by eapply Hfit].
Qed.

(** ** A small account *)

(** Comparators decoded with the record decoder. *)
Definition demo_comparator (raw : bytes) : option (bytes * option bool * bytes) :=
  match DecodeObject raw ∅ with
  | Ok (Some o) =>
      name ← match o !! bs "property" with Some v => JString v | None => Some [] end;
      coll ← match o !! bs "collation" with Some v => JString v | None => Some [] end;
      asc ← match o !! bs "isAscending" with Some v => option_map Some (JBool v) | None => Some None end;
      Some (name, asc, coll)
  | _ => None
  end.
Definition demo_decode : ComparatorDecode.
Proof.
  refine {| unmarshal_comparator := demo_comparator; unmarshal_property := fun raw => option_map (fun x => x.1.1) (demo_comparator raw) |}.
  intros raw name asc coll E. by rewrite E.
Defined.

Section demo.
#[local] Existing Instances map_order Instances.demo_time Instances.demo_fold Instances.demo_codec Memory.memory_backend Memory.memory_laws.

Definition demo_sort : list bytes := [bs "{" ++ quoted (bs "property") ++ bs ":" ++ quoted (bs "title") ++ bs "}"].
Definition demo_filter_arg : bytes := bs "{" ++ quoted (bs "title") ++ bs ":" ++ quoted (bs "HELLO") ++ bs "}".
Definition demo_args : queryArgs := mkQueryArgs Instances.demo_acct (Some demo_filter_arg) demo_sort 0 None 0 (Some 10) true None.
Definition demo_cmps : list comparator := [mkComparator (default zeroProperty (t_Properties Instances.demo_type !! bs "title")) (bs "title") false false].

Lemma demo_only id o : demo_stored id o -> id = Instances.demo_id.
Proof.
  intros Ho. destruct (AllIds_stored Instances.demo_db Instances.demo_acct demo_store (bs "Note") Instances.demo_type) as (ids & E & _ & Hin);
    [apply Instances.demo_db_wf|vm_compute; reflexivity|apply demo_account_reach|reflexivity|].
  assert (E' : AllIds Instances.demo_db demo_store Instances.demo_acct (bs "Note") 0 = Ok [Instances.demo_id]) by (vm_compute; reflexivity).
  rewrite E' in E. injection E as <-. apply list_elem_of_singleton, Hin. eauto.
Qed.

Lemma demo_canonical : canonical_ids Instances.demo_db Instances.demo_acct demo_store (bs "Note").
Proof.
  intros id o Ho. assert (Hid : id = Instances.demo_id) by (exact (demo_only id o Ho)).
  subst id. assert (Eo : demo_stored Instances.demo_id (<[bs "id" := marshal_id Instances.demo_id]> Instances.demo_obj)).
  { unfold demo_stored, stored. apply (bool_decide_unpack _). vm_compute. exact I. }
  rewrite (stored_fun _ _ _ _ _ _ _ Ho Eo). by rewrite lookup_insert_eq.
Qed.

Lemma demo_core : core_type demo_std demo_store demo_args.
Proof.
  constructor; [apply Instances.demo_db_wf|vm_compute; reflexivity|apply demo_account_reach|reflexivity|reflexivity|apply demo_canonical|cbn; lia|].
  unfold MaxInt. cbn. lia.
Qed.

Lemma demo_args_ok : args_ok demo_args.
Proof. constructor; unfold is_int64, MaxInt; cbn; try lia. reflexivity. Qed.

Lemma demo_fit root ord w l :
  parseFilter (S := Memory.Store) 64 Instances.demo_type None (Some demo_filter_arg) = Reply root ->
  @buildCompare demo_decode Memory.Store demo_std Instances.demo_acct demo_sort = Reply ord ->
  evaluate demo_std demo_store Instances.demo_acct root (mkOrdering (o_cmps ord) (o_less ord) w) false false ∅ None
    (@queryProjection map_order demo_decode Memory.Store demo_std root demo_sort false) = Ok l -> Z.of_nat (length l) <= MaxInt.
Proof.
  intros Er Eo Ev. assert (Er' : parseFilter (S := Memory.Store) 64 Instances.demo_type None (Some demo_filter_arg) = Reply demo_root) by (vm_compute; reflexivity).
  rewrite Er' in Er. injection Er as <-. assert (Eo' : @buildCompare demo_decode Memory.Store demo_std Instances.demo_acct demo_sort = Reply (mkOrdering (Some demo_cmps) None 0)) by (vm_compute; reflexivity).
  rewrite Eo' in Eo. injection Eo as <-. cbn [o_cmps o_less] in Ev.
  assert (Hc : @parseComparators demo_decode Instances.demo_type demo_sort = Reply demo_cmps) by (vm_compute; reflexivity).
  destruct (evaluate_exact Instances.demo_db Instances.demo_acct demo_store (bs "Note") Instances.demo_type Instances.demo_db_wf eq_refl demo_account_reach eq_refl
    demo_std eq_refl eq_refl eq_refl demo_root demo_cmps demo_root_core (proj1 (@parseComparators_declared demo_decode _ _ _ Hc)) None w false ∅ None
    (@queryProjection map_order demo_decode Memory.Store demo_std demo_root demo_sort false)) as (full & out & E & [Hnd Hel _] & Hp & _).
  - exact demo_canonical.
  - discriminate.
  - by apply (@queryProjection_ok map_order demo_decode Memory.Store demo_std eq_refl).
  - rewrite Ev in E. injection E as <-. assert (Hl : (length full <= 1)%nat); [|rewrite (Permutation_length Hp); unfold MaxInt; lia].
    apply (NoDup_incl_length (l' := [Instances.demo_id])); [by apply NoDup_ListNoDup|]. intros id Hin%list_elem_of_In. apply Hel in Hin as [(o & Ho & _) _].
    left. symmetry. by apply (demo_only id o).
Qed.
End demo.

Lemma projection_sound_witness :
  @evaluateWith map_order Instances.demo_time Instances.demo_fold Memory.Store Memory.memory_backend demo_std demo_store Instances.demo_acct demo_root
    (mkOrdering (Some demo_cmps) None 0) false false ∅ None (@queryProjection map_order demo_decode Memory.Store demo_std demo_root demo_sort false) = Ok [Instances.demo_id].
Proof.
  rewrite (@projection_sound map_order Instances.demo_time Instances.demo_fold Instances.demo_codec demo_decode Memory.Store Memory.memory_backend Memory.memory_laws
    demo_std demo_store Instances.demo_acct demo_root demo_sort demo_cmps None 0 false ∅ None).
  - vm_compute. reflexivity.
  - apply Instances.demo_db_wf.
  - vm_compute. reflexivity.
  - apply demo_account_reach.
  - reflexivity.
  - reflexivity.
  - vm_compute. reflexivity.
Defined.

Lemma query_failures_witness :
  @query map_order Instances.demo_time Instances.demo_fold demo_decode Memory.Store Memory.memory_backend demo_std Instances.empty_store None demo_args ∅ = Fail ErrAccountNotFound.
Proof.
  assert (E : @query map_order Instances.demo_time Instances.demo_fold demo_decode Memory.Store Memory.memory_backend demo_std demo_store None demo_args ∅ = Fail ErrAccountNotFound)
    by (vm_compute; reflexivity).
  destruct (@query_failures map_order Instances.demo_time Instances.demo_fold Instances.demo_codec demo_decode Memory.Store Memory.memory_backend
    demo_std demo_store Instances.empty_store None demo_args ∅ ErrAccountNotFound) as (_ & _ & [H|[H|H]]).
  - intros q parse acct raws e Hq. discriminate Hq.
  - vm_compute. discriminate.
  - vm_compute. split; discriminate.
  - vm_compute. split; discriminate || reflexivity.
  - apply demo_fit.
  - exact E.
  - discriminate H.
  - discriminate H.
  - exact H.
Defined.

Lemma query_exact_witness :
  let answer := @query map_order Instances.demo_time Instances.demo_fold demo_decode Memory.Store Memory.memory_backend demo_std demo_store
    (Some {[ Instances.demo_acct := false ]}) demo_args ∅ in
  (exists resp, answer = Reply resp /\ qr_Ids resp = [Instances.demo_id] /\ qr_Total resp = Some 1) /\
  exists full, NoDup full /\ (Z.of_nat (length full) <= MaxInt -> exists resp, answer = Reply resp /\ qr_Ids resp = window_of 10 0 full).
Proof.
  intros answer. split; [eexists; split; [vm_compute; reflexivity|]; split; vm_compute; reflexivity|].
  destruct (@query_exact map_order Instances.demo_time Instances.demo_fold Instances.demo_codec demo_decode Memory.Store Memory.memory_backend Memory.memory_laws
    demo_std demo_store (Some {[ Instances.demo_acct := false ]}) demo_args ∅ demo_root demo_cmps (bs "1")) as (full & Hnd & _ & _ & H).
  - apply demo_core.
  - apply demo_args_ok.
  - vm_compute. reflexivity.
  - vm_compute. reflexivity.
  - vm_compute. reflexivity.
  - vm_compute. reflexivity.
  - exists full. split; [exact Hnd|]. intros Hb. destruct (H Hb) as (resp & E & _ & _ & Ei & _). exists resp. split; [exact E|exact Ei].
Defined.
End QueryFacts.
