(* ===== verification/SpliceFacts.v ===== *)
(** * SpliceFacts: Foo/queryChanges brings a cached list up to date

    The client of RFC 8620 section 5.6 drops the removed ids from its cached
    list and inserts the added ones at their index, lowest first.  What an
    attempt of [queryChanges] answers takes the list of an old store to the
    list of the new one, provided the change walk reported every record whose
    read properties differ. *)

From S2P Require Import Prelude GoLib Keyenc Backend Batches Memory Jsonscan Jsonwords Jsongrammar Jsonobject Jmap Descriptor Keys ObjectDB SetIndex.
From S2P Require Import Commit Indexing CommitFacts Instances CommitIndex Reach CommitLog Visible Typed Queries Changes ChangesFacts History WalkFacts Sorting SortingFacts.
From S2P Require Import Filter Query FilterFacts EvalFacts QueryFacts.

Module SpliceFacts.
Import Keyenc Backend Batches Jsonscan Jsongrammar Jmap Descriptor Keys ObjectDB Commit Indexing CommitFacts CommitIndex Reach CommitLog Visible Typed Queries Changes.
Import Sorting SortingFacts Filter Query FilterFacts EvalFacts QueryFacts.

(** ** The client *)

Definition insert_at (i : Z) (id : Id) (l : list Id) : list Id := take (Z.to_nat i) l ++ id :: drop (Z.to_nat i) l.

Definition splice (removed : list Id) (added : list addedItem) (cached : list Id) : list Id :=
  fold_left (fun l ad => insert_at (ad_Index ad) (ad_Id ad) l) added (filter (fun id => id ∉ removed) cached).

(** ** Insertion of the candidates *)

(** The added items of the part of the list from position [i]. *)
Fixpoint added_from (cand : gset Id) (l : list Id) (i : Z) : list addedItem :=
  match l with
  | [] => []
  | id :: l' => if decide (id ∈ cand) then mkAdded id i :: added_from cand l' (i + 1) else added_from cand l' (i + 1)
  end.

Lemma insert_candidates cand (pre l : list Id) :
  fold_left (fun l ad => insert_at (ad_Index ad) (ad_Id ad) l) (added_from cand l (Z.of_nat (length pre))) (pre ++ filter (fun id => id ∉ cand) l) = pre ++ l.
Proof.
  revert pre. induction l as [|id l IH]; intros pre; [done|]. cbn [added_from].
  replace (Z.of_nat (length pre) + 1) with (Z.of_nat (length (pre ++ [id]))) by (rewrite length_app; cbn; lia).
  replace (pre ++ id :: l) with ((pre ++ [id]) ++ l) by (by rewrite <- app_assoc). destruct (decide (id ∈ cand)) as [Hin|Hni].
  - rewrite filter_cons_False by tauto. cbn [fold_left ad_Index ad_Id]. rewrite <- IH. f_equal. unfold insert_at. rewrite Nat2Z.id, take_app_length, drop_app_length.
    by rewrite <- app_assoc.
  - rewrite filter_cons_True by done. rewrite <- IH. by rewrite <- app_assoc.
Qed.

Lemma collect_added_from a cand l i count acc added :
  collect_added a cand None l i count acc = Reply added -> added = acc ++ added_from cand l i.
Proof.
  revert i count acc. induction l as [|id l IH]; intros i count acc; cbn [collect_added added_from]; [intros [= <-]; by rewrite app_nil_r|].
  destruct (decide (id ∈ cand)); [|apply IH]. destruct (tooMany a (count + 1)); [done|]. intros ->%IH. by rewrite <- app_assoc.
Qed.

(** The splice of the candidates of the new list into what is left of the old
    one is the new list. *)
Lemma splice_candidates cand removed (old new : list Id) :
  filter (fun id => id ∉ removed) old = filter (fun id => id ∉ cand) new -> splice removed (added_from cand new 0) old = new.
Proof. intros E. unfold splice. rewrite E. apply (insert_candidates cand [] new). Qed.

(** ** Two stores of an account *)

Section diff.
Context `{MR : MapRange, TP : TimeParse, CF : CaseFold, LC : LogCodec, CD : ComparatorDecode}.
Context {S : Type} `{BE : Backend S, BL : !BackendLaws S}.
Variable db : DB.
Variable acct : Id.
Variable n : bytes.
Variable t : Type_.
Hypothesis Hdb : db_wf db.
Hypothesis Hacct : Valid acct = true.
Hypothesis Ht : db_types db !! n = Some t.
Variable s0 s1 : S.
Hypothesis Hr1 : account_reach db acct s1.

Variable root : filterNode.
Variable cmps : list comparator.
Hypothesis Hroot : all_conds (core_cond t) root.
Hypothesis Hcm : declared_cmps t cmps.

Abbreviation stored0 := (stored db acct s0 n).
Abbreviation stored1 := (stored db acct s1 n).

(** Two records a query cannot tell apart. *)
Definition agree (o o' : Object) : Prop :=
  o !! bs "id" = o' !! bs "id" /\ all_conds (fun name _ => o !! name = o' !! name) root /\ forall c, c ∈ cmps -> o !! c_name c = o' !! c_name c.

(** The record of [id] reads the same in both stores, or is in neither. *)
Definition same (id : Id) : Prop :=
  (forall o, stored0 id o -> exists o', stored1 id o' /\ agree o o') /\ (forall o', stored1 id o' -> exists o, stored0 id o /\ agree o o').

Lemma matches_store (o o' : Object) :
  all_conds (fun name _ => o !! name = o' !! name) root -> matches s0 acct t None o root = matches s1 acct t None o' root.
Proof.
  intros Hc. rewrite (matches_project acct s0 t o o' root Hc). clear. induction root as [|op children IH|cond] using filterNode_rect; [done| |].
  - cbn [matches]. destruct op; [by apply match_first_ext..|]. rewrite !none_match_first. by rewrite (match_first_ext _ _ _ _ _ IH).
  - cbn [matches]. induction (range_map cond) as [|[name v] l IH]; [done|]. cbn [match_conds]. by rewrite IH.
Qed.

Lemma compareFunc_agree (a a' b b' : Object) :
  agree a a' -> agree b b' -> compareFunc (mkOrdering (Some cmps) None 0) a b = compareFunc (mkOrdering (Some cmps) None 0) a' b'.
Proof.
  intros (Hai & _ & Hac) (Hbi & _ & Hbc). unfold compareFunc. cbn [o_cmps]. unfold raw_id. rewrite Hai, Hbi. clear Hai Hbi. set (last := sign _).
  clear Hcm. revert Hac Hbc. induction cmps as [|c cs IH]; intros Hac Hbc; [done|]. cbn [chain]. unfold compare, sortValueOf.
  rewrite (Hac c), (Hbc c) by (by left). rewrite IH; [done|intros; apply Hac; by right|intros; apply Hbc; by right].
Qed.

(** Stored records are ordered one way. *)
Lemma id_before_asym a b : id_before db acct s1 n cmps a b -> id_before db acct s1 n cmps b a -> False.
Proof.
  intros (oa & ob & Ha & Hb & H1) (ob' & oa' & Hb' & Ha' & H2). rewrite (stored_fun _ _ _ _ _ _ _ Hb' Hb) in H2. rewrite (stored_fun _ _ _ _ _ _ _ Ha' Ha) in H2.
  assert (Hw : weak_cmp (fun o => o ∈ [oa; ob]) (fun x y => chain cmps x y (sign (bcompare (raw_id x) (raw_id y))))).
  { apply (chain_weak cmps (fun o => o)); [|apply weak_bytes]. intros c Hc. apply compare_weak.
    assert (Hch : checked cmps [oa; ob]).
    { intros c' o raw Hc' Ho Hraw. assert (exists id, stored1 id o) as [id Hid].
      { apply elem_of_cons in Ho as [-> |Ho]; [eauto|]. apply list_elem_of_singleton in Ho as ->. eauto. }
      exact (stored_checked db acct s1 n t Hdb Hacct Hr1 Ht id o (c_name c') (c_prop c') raw Hid (Hcm c' Hc') Hraw). }
    apply checked_orderable in Hch. exact (Hch c Hc). }
  unfold compareFunc in H1, H2. cbn [o_cmps] in H1, H2. rewrite (wc_anti _ _ Hw oa ob) in H2 by set_solver. lia.
Qed.

(** What is left of the old list is what is left of the new one. *)
Lemma kept_equal (removed cand : gset Id) old new :
  (forall id o, id ∉ removed -> stored0 id o -> same id /\ id ∉ cand) -> (forall id o, id ∉ cand -> stored1 id o -> same id /\ id ∉ removed) ->
  results_of db acct s0 n cmps (matching db acct s0 n t root None) old -> results_of db acct s1 n cmps (matching db acct s1 n t root None) new ->
  filter (fun id => id ∉ removed) old = filter (fun id => id ∉ cand) new.
Proof.
  intros Hold Hnew [Hnd0 Hel0 Hs0] [Hnd1 Hel1 Hs1]. apply (StronglySorted_unique_strong (id_before db acct s1 n cmps)).
  - intros a b _ _ H1 H2. exfalso. by eapply id_before_asym.
  - assert (Hin : forall id, id ∈ old -> exists o, stored0 id o) by (intros id [(o & Ho & _) _]%Hel0; eauto). clear Hel0 Hnd0.
    induction Hs0 as [|id old Hs0 IH Hf]; [constructor|]. destruct (decide (id ∉ removed)) as [Hk|Hk].
    + rewrite filter_cons_True by done. constructor; [apply IH; intros; apply Hin; by right|]. apply Forall_forall. intros b [Hb Hbin]%list_elem_of_filter.
      rewrite Forall_forall in Hf. destruct (Hf b Hbin) as (oa & ob & Ha & Hob & Hlt).
      destruct (proj1 (proj1 (Hold id oa Hk Ha)) oa Ha) as (oa' & Ha' & Hag). destruct (proj1 (proj1 (Hold b ob Hb Hob)) ob Hob) as (ob' & Hb' & Hbg).
      exists oa', ob'. split; [done|]. split; [done|]. by rewrite <- (compareFunc_agree oa oa' ob ob').
    + rewrite filter_cons_False by done. apply IH. intros; apply Hin; by right.
  - clear Hel1 Hnd1 Hel0 Hnd0. induction Hs1 as [|id new Hs1 IH Hf]; [constructor|]. destruct (decide (id ∉ cand)).
    + rewrite filter_cons_True by done. constructor; [done|]. apply Forall_forall. intros b [_ Hb]%list_elem_of_filter. rewrite Forall_forall in Hf. auto.
    + by rewrite filter_cons_False.
  - apply NoDup_Permutation; [by apply NoDup_filter..|]. intros id. rewrite !list_elem_of_filter, Hel0, Hel1. unfold matching, holds. split.
    + intros [Hk [(o & Ho & Hm) _]]. destruct (Hold id o Hk Ho) as [[Hsm _] Hni]. destruct (Hsm o Ho) as (o' & Ho' & _ & Hc & _).
      split; [done|]. split; [|done]. exists o'. split; [done|]. by rewrite <- (matches_store o o').
    + intros [Hk [(o & Ho & Hm) _]]. destruct (Hnew id o Hk Ho) as [[_ Hsm] Hni]. destruct (Hsm o Ho) as (o' & Ho' & _ & Hc & _).
      split; [done|]. split; [|done]. exists o'. split; [done|]. by rewrite (matches_store o' o).
Qed.

(** What the change walk promises about two stores: created records are new,
    destroyed ones gone, unmentioned ones read the same - and with them, where
    every property the query reads is immutable, the updated ones. *)
Record walk_report (immutable : bool) (created updated destroyed : gset Id) : Prop := mkReport {
  wr_created : forall id o, id ∈ created -> stored0 id o -> False;
  wr_destroyed : forall id o, id ∈ destroyed -> stored1 id o -> False;
  wr_same : forall id, id ∉ created -> id ∉ updated -> id ∉ destroyed -> same id;
  wr_updated : immutable = true -> forall id, id ∈ updated -> same id;
}.

(** The sets the response is made from. *)
Definition removed_set (immutable : bool) (created updated destroyed : gset Id) : gset Id :=
  if immutable then destroyed else destroyed ∪ updated ∪ (∅ ∖ created).
Definition cand_set (immutable : bool) (created updated : gset Id) : gset Id := if immutable then created else updated ∪ created ∪ ∅.

Lemma report_kept immutable created updated destroyed old new :
  walk_report immutable created updated destroyed ->
  results_of db acct s0 n cmps (matching db acct s0 n t root None) old -> results_of db acct s1 n cmps (matching db acct s1 n t root None) new ->
  filter (fun id => id ∉ removed_set immutable created updated destroyed) old = filter (fun id => id ∉ cand_set immutable created updated) new.
Proof.
  intros [Hc Hd Hs Hu]. apply kept_equal.
  - intros id o Hk Ho. assert (Hnc : id ∉ created) by eauto. unfold removed_set, cand_set in *. destruct immutable.
    + split; [|done]. destruct (decide (id ∈ updated)); [by apply Hu|by apply Hs].
    + split; [apply Hs; set_solver|set_solver].
  - intros id o Hk Ho. assert (Hnd : id ∉ destroyed) by eauto. unfold removed_set, cand_set in *. destruct immutable.
    + split; [|done]. destruct (decide (id ∈ updated)); [by apply Hu|by apply Hs].
    + split; [apply Hs; set_solver|set_solver].
Qed.

Lemma all_same_kept old new :
  (forall id, same id) ->
  results_of db acct s0 n cmps (matching db acct s0 n t root None) old -> results_of db acct s1 n cmps (matching db acct s1 n t root None) new -> old = new.
Proof.
  intros Hs H0 H1. assert (E : forall (X : gset Id) (l : list Id), X = ∅ -> filter (fun id => id ∉ X) l = l).
  { intros X l HX. induction l as [|x l IH]; [done|]. rewrite filter_cons_True by set_solver. by rewrite IH. }
  rewrite <- (E ∅ old), <- (E ∅ new) by done. apply (kept_equal ∅ ∅ old new); [intros; split; [apply Hs|set_solver]..|done|done].
Qed.

Lemma elem_of_setToSortedIds set id : id ∈ setToSortedIds set <-> id ∈ set.
Proof. unfold setToSortedIds. by rewrite elem_of_sort_strings, elem_of_elements. Qed.

Lemma filter_removed set (l : list Id) : filter (fun id => id ∉ setToSortedIds set) l = filter (fun id => id ∉ set) l.
Proof. apply list_filter_iff. intros id. by rewrite elem_of_setToSortedIds. Qed.

(** ** An attempt *)

Variable st : stdType S.
Hypothesis Hdbst : sd_db st = db.
Hypothesis Htst : sd_t st = t.
Hypothesis Hn : t_Name t = n.
Hypothesis Hook : sd_hooks st = None.
Hypothesis Hcan : canonical_ids db acct s1 n.

(** No candidate of the new list: nothing to insert. *)
Lemma no_candidates cand wanted :
  wanted_ok wanted root cmps -> loadAndMatch db s1 acct t None root (setToSortedIds cand) wanted = Ok [] ->
  forall id, matching db acct s1 n t root None id -> id ∉ cand.
Proof.
  intros Hw Hl id [(o & Ho & Hm) _] Hin. unfold loadAndMatch in Hl. rewrite Hn, (GetManyProjected_loaded db acct s1 n t Hdb Hacct Hr1 Ht) in Hl.
  cbn [mbind result_bind] in Hl. rewrite (match_all_project db acct s1 n t wanted root cmps Hw) in Hl.
  destruct (match_all_exact db acct s1 n t Hdb Hacct Hr1 Ht root (setToSortedIds cand)) as (recs & E & _ & Hrec); [|done|].
  { unfold setToSortedIds. rewrite sort_strings_perm. apply NoDup_elements. }
  rewrite E in Hl. cbn [mbind result_bind] in Hl. injection Hl as Hl. destruct recs; [|done].
  apply (not_elem_of_nil (mkQueryRecord id o)), Hrec. cbn. split; [by apply elem_of_setToSortedIds|done].
Qed.

(** Every property the query reads is declared immutable. *)
Definition immutable_reads (sort : list bytes) : bool :=
  (queryReads st root sort).2 && negb false && forallb (fun p => p_Immutable (default zeroProperty (t_Properties t !! p))) (queryReads st root sort).1.

(** The changes of the type the walk found. *)
Definition primary_of (changed : gmap bytes TypeChanges) : TypeChanges := default (mkTypeChanges [] [] []) (changed !! n).

Definition walk_ok (x : attemptStores S) (sort : list bytes) (since : Z) : Prop :=
  forall changed upTo, ChangedSince db (at_seq x) (at_floor x) (at_log x) (at_floor2 x) acct [n] since (sd_QueryChangesMaxWork st) (sd_QueryChangesMaxWork st) = Ok (changed, upTo) ->
    walk_report (immutable_reads sort) (sliceToSet (tc_Created (primary_of changed))) (sliceToSet (tc_Updated (primary_of changed))) (sliceToSet (tc_Destroyed (primary_of changed))).

Definition quiet_ok (x : attemptStores S) (since : Z) : Prop :=
  forall state z, queryStateOf st (at_state x) acct = Ok state -> ParseInt state = Some z -> z <= since -> forall id, same id.

Abbreviation new_results := (results_of db acct s1 n cmps (matching db acct s1 n t root None)).

Lemma evaluate_now (sort : list bytes) wanted :
  wanted_ok wanted root cmps -> ((length sort =? 0)%nat = true -> cmps = []) ->
  exists new, evaluate st s1 acct root (mkOrdering (Some cmps) None 0) (length sort =? 0)%nat false ∅ None wanted = Ok new /\ new_results new.
Proof.
  intros Hw He. destruct (evaluate_exact db acct s1 n t Hdb Hacct Hr1 Ht st Hdbst Htst Hook root cmps Hroot Hcm None 0 (length sort =? 0)%nat ∅ None wanted) as (new & out & E & Hres & _ & Hwin); [done..|].
  exists new. destruct Hwin as [-> |[? _]]; [done|lia].
Qed.

Lemma drop_none (cand : gset Id) new : (forall id, matching db acct s1 n t root None id -> id ∉ cand) -> new_results new -> filter (fun id => id ∉ cand) new = new.
Proof.
  intros Hno [_ Hel _]. assert (Hall : forall id, id ∈ new -> id ∉ cand) by (intros id; rewrite Hel; apply Hno). clear Hel.
  induction new as [|y l IH]; [done|]. rewrite filter_cons_True by (apply Hall; by left). rewrite IH; [done|]. intros; apply Hall; by right.
Qed.

Lemma attempt_splice x a sinceState since resp old :
  at_match x = s1 -> at_eval x = s1 -> qc_AccountId a = acct -> qc_UpToId a = None -> parseComparators t (qc_Sort a) = Reply cmps ->
  walk_ok x (qc_Sort a) since -> quiet_ok x since -> results_of db acct s0 n cmps (matching db acct s0 n t root None) old ->
  attempt st x a root (mkOrdering (Some cmps) None 0) false sinceState since = Reply (Some resp) ->
  new_results (splice (qcr_Removed resp) (qcr_Added resp) old) /\
  (qc_CalculateTotal a = true -> qcr_Total resp = Some (Z.of_nat (length (splice (qcr_Removed resp) (qcr_Added resp) old)))).
Proof.
  intros Hm He Ha Hup Hcmps Hwalk Hquiet Hold. unfold attempt. rewrite Ha, Hm, He, Hup, Hdbst, Htst, Hn. cbv zeta. cbn [app].
  assert (Hwok : wanted_ok (queryProjection st root (qc_Sort a) false) root cmps) by (apply queryProjection_ok; [done|by rewrite Htst]).
  destruct (parseComparators_declared t (qc_Sort a) cmps Hcmps) as [_ Hlen].
  destruct (evaluate_now (qc_Sort a) (queryProjection st root (qc_Sort a) false) Hwok) as (new & Eval & Hnew).
  { intros E%Nat.eqb_eq. rewrite E in Hlen. by destruct cmps. }
  destruct (queryStateOf st (at_state x) acct) as [state|] eqn:Es; [|done]. cbn [served mbind outcome_bind].
  destruct (ParseInt state) as [z|] eqn:Ez; [|done]. cbn [mbind outcome_bind]. destruct ((z <=? since) && negb (qc_CalculateTotal a)) eqn:Eq.
  { intros [= <-]. cbn [qcr_Removed qcr_Added]. apply andb_true_iff in Eq as [Hz%Z.leb_le Hc]. split; [|intros E; by rewrite E in Hc].
    replace (splice [] [] old) with new; [done|]. symmetry. unfold splice. cbn [fold_left].
    rewrite (all_same_kept old new (Hquiet state z Es Ez Hz) Hold Hnew). clear. induction new as [|y l IH]; [done|].
    rewrite filter_cons_True by apply not_elem_of_nil. by rewrite IH. }
  destruct (ChangedSince _ _ _ _ _ _ _ _ _ _) as [[changed upTo]|e] eqn:Ec; [|destruct e; done]. cbn [mbind outcome_bind].
  specialize (Hwalk changed upTo Ec). fold (primary_of changed). rewrite (surjective_pairing (queryReads st root (qc_Sort a))). fold (immutable_reads (qc_Sort a)).
  set (cr := sliceToSet (tc_Created (primary_of changed))) in *. set (up := sliceToSet (tc_Updated (primary_of changed))) in *.
  set (de := sliceToSet (tc_Destroyed (primary_of changed))) in *. fold (removed_set (immutable_reads (qc_Sort a)) cr up de). fold (cand_set (immutable_reads (qc_Sort a)) cr up).
  pose proof (report_kept _ _ _ _ old new Hwalk Hold Hnew) as Hkept. set (rm := removed_set _ cr up de) in *. set (cand := cand_set _ cr up) in *.
  rewrite (core_semantics st Hook).
  replace (if immutable_reads (qc_Sort a) then None else None) with (@None Id) by (by destruct (immutable_reads (qc_Sort a))).
  change (None ≫= ?f) with (@None Z). destruct (tooMany a _); [done|].
  destruct (if qc_CalculateTotal a then _ else _) as [quiet|] eqn:Equiet; [|done]. cbn [mbind outcome_bind]. destruct quiet.
  - intros [= <-]. cbn [qcr_Removed qcr_Added qcr_Total]. destruct (qc_CalculateTotal a); [done|]. split; [|done].
    destruct (loadAndMatch _ _ _ _ _ _ _ _) as [matched|] eqn:El; [|done]. cbn [served mbind outcome_bind] in Equiet. injection Equiet as Equiet%Nat.eqb_eq.
    destruct matched; [|done]. unfold splice. cbn [fold_left]. rewrite filter_removed, Hkept. by rewrite (drop_none cand new (no_candidates cand _ Hwok El) Hnew).
  - rewrite Eval. cbn [served mbind outcome_bind]. destruct (collect_added _ _ _ _ _ _ _) as [added|] eqn:Ead; [|done]. cbn [mbind outcome_bind].
    apply collect_added_from in Ead as ->. cbn [app].
    assert (Hspl : splice (setToSortedIds rm) (added_from cand new 0) old = new) by (apply splice_candidates; by rewrite filter_removed).
    set (resp' := mkQueryChangesResponse _ _ _ _ _). intros Hresp. assert (resp = resp') as ->.
    { destruct (negb _ || _); [|congruence]. destruct (Sequence (at_after x) acct) as [after|]; [|done]. cbn [served mbind outcome_bind] in Hresp.
      destruct (upTo <? after); congruence. }
    cbn [resp' qcr_Removed qcr_Added qcr_Total]. rewrite Hspl. split; [done|]. by intros ->.
Qed.
End diff.

(** ** What a query reads *)

Section reads.
Context `{MR : MapRange, TP : TimeParse, CF : CaseFold, LC : LogCodec, CD : ComparatorDecode}.
Context {S : Type} `{BE : Backend S}.
Variable st : stdType S.
Hypothesis Hook : sd_hooks st = None.

Lemma name_reads_core names acc k : fold_left (name_reads st) names (acc, k) = (acc ++ names, k).
Proof.
  revert acc. induction names as [|name names IH]; intros acc; cbn [fold_left]; [by rewrite app_nil_r|].
  unfold name_reads at 2. rewrite Hook. cbn [mbind option_bind fst snd]. rewrite IH. by rewrite <- app_assoc.
Qed.

Lemma cond_reads_core root : (cond_reads st root).2 = true /\ all_conds (fun name _ => name ∈ (cond_reads st root).1) root.
Proof.
  induction root as [|op children IH|cond] using filterNode_rect; [done| |].
  - rewrite all_conds_children. cbn [cond_reads]. induction IH as [|c cs [Hk Hc] _ [IHk IHc]]; [done|]. cbn [children_reads].
    destruct (cond_reads st c) as [ps k]. destruct (children_reads (cond_reads st) cs) as [ps' k']. cbn [fst snd] in *. subst. split; [done|]. constructor.
    + eapply all_conds_impl; [|exact Hc]. intros name v H. apply elem_of_app. by left.
    + eapply Forall_impl; [exact IHc|]. intros c' H. eapply all_conds_impl; [|exact H]. intros name v H'. apply elem_of_app. by right.
  - cbn [cond_reads all_conds]. rewrite name_reads_core. cbn [fst snd app]. split; [done|]. intros name v Hv. apply list_elem_of_fmap.
    exists (name, v). split; [done|]. by apply elem_of_range_map.
Qed.

Lemma sort_reads_core t raws cmps :
  parseComparators t raws = Reply cmps -> exists ps, sort_reads st raws = Some (ps, true) /\ forall c, c ∈ cmps -> c_name c ∈ ps.
Proof.
  revert cmps. induction raws as [|raw raws IH]; intros cmps; cbn [parseComparators sort_reads].
  - intros [= <-]. exists []. split; [done|]. by intros c ?%not_elem_of_nil.
  - destruct (unmarshal_comparator raw) as [[[name asc] coll]|] eqn:E; [|done]. rewrite (unmarshal_same _ _ _ _ E). destruct (bool_decide (name = [])) eqn:En; [done|].
    destruct (t_Properties t !! name) as [p|]; [|done]. destruct (p_Internal p); [done|]. cbv zeta.
    destruct (match p_Kind p with KindString => _ | _ => _ end) as [num|]; [|done]. cbn [mbind outcome_bind].
    destruct (parseComparators t raws) as [rest|]; [|done]. cbn [mbind outcome_bind]. intros [= <-]. destruct (IH rest eq_refl) as (ps & Eps & Hps).
    change (Some name ≫= ?f) with (f name). cbv beta. rewrite Eps, Hook. change (Some (ps, true) ≫= ?f) with (f (ps, true)). cbn [mbind option_bind fst snd].
    apply bool_decide_eq_false in En. rewrite bool_decide_eq_false_2 by done. exists (name :: ps). split; [done|]. intros c [-> |Hc]%elem_of_cons; [by left|right; by apply Hps].
Qed.

Lemma parseComparators_visible t raws cmps : parseComparators t raws = Reply cmps -> forall c, c ∈ cmps -> is_internal t (c_name c) = false.
Proof.
  revert cmps. induction raws as [|raw raws IH]; intros cmps; cbn [parseComparators].
  - intros [= <-]. by intros c ?%not_elem_of_nil.
  - destruct (unmarshal_comparator raw) as [[[name asc] coll]|]; [|done]. destruct (bool_decide (name = [])); [done|].
    destruct (t_Properties t !! name) as [p|] eqn:Ep; [|done]. destruct (p_Internal p) eqn:Ei; [done|]. cbv zeta.
    destruct (match p_Kind p with KindString => _ | _ => _ end) as [num|]; [|done]. cbn [mbind outcome_bind].
    destruct (parseComparators t raws) as [rest|]; [|done]. cbn [mbind outcome_bind]. intros [= <-] c [-> |Hc]%elem_of_cons; [|by apply (IH rest)].
    cbn [c_name]. unfold is_internal. by rewrite Ep.
Qed.
End reads.

(** ** Between two moments of an account *)

(** Every read of the attempt observes one store. *)
Definition quiet_attempt {S} (s : S) : attemptStores S := mkAttempt s s s s s s s s s s.

Section moments.
Context `{MR : MapRange, TP : TimeParse, CF : CaseFold, LC : LogCodec, LL : !LogCodecLaws, CD : ComparatorDecode}.
Context {S : Type} `{BE : Backend S, BL : !BackendLaws S}.
Variable db : DB.
Variable acct : Id.
Variable n : bytes.
Variable t : Type_.
Hypothesis Hdb : db_wf db.
Hypothesis Hacct : Valid acct = true.
Hypothesis Ht : db_types db !! n = Some t.
Variable s0 s1 : S.
Hypothesis Hr0 : account_reach db acct s0.
Hypothesis Hr1 : account_reach db acct s1.
Variable root : filterNode.
Variable cmps : list comparator.
Hypothesis Hroot : all_conds (core_cond t) root.
Hypothesis Hcm : declared_cmps t cmps.
Hypothesis Hvis : forall c, c ∈ cmps -> is_internal t (c_name c) = false.

Abbreviation stored0 := (stored db acct s0 n).
Abbreviation stored1 := (stored db acct s1 n).
Abbreviation same := (same db acct n s0 s1 root cmps).

Lemma visibly_agree o o' : visibly t o o' -> agree root cmps o o'.
Proof.
  intros Hv. split; [|split].
  - apply Hv. unfold is_internal. by rewrite (type_no_id db Hdb n t Ht).
  - eapply all_conds_impl; [|exact Hroot]. intros name v (p & Hp & Hi & _). apply Hv. unfold is_internal. by rewrite Hp.
  - intros c Hc. by apply Hv, Hvis.
Qed.

Lemma visible_same_same id : visible_same t (obj_at db (be_map s0) acct n id) (obj_at db (be_map s1) acct n id) -> same id.
Proof.
  unfold same, stored. destruct (obj_at db (be_map s0) acct n id) as [o|], (obj_at db (be_map s1) acct n id) as [o'|]; cbn; intros H; try done.
  split; intros ? [= <-]; eexists; (split; [done|by apply visibly_agree]).
Qed.

(** Immutable properties keep their values, which the update path of the
    methods sees to. *)
Definition immutable_kept : Prop :=
  canonical_ids db acct s0 n /\ canonical_ids db acct s1 n /\
  forall id o o' name p, stored0 id o -> stored1 id o' -> t_Properties t !! name = Some p -> p_Immutable p = true -> o !! name = o' !! name.

Lemma alive_stored s E id : account_reach db acct s -> History.alive acct (be_map s) n E -> (id ∈ E <-> exists o, stored db acct s n id o).
Proof.
  intros Hr HE. rewrite (HE id). split.
  - intros [raw Hraw]. destruct (stored_raw db acct s n t Hdb Hacct Hr Ht id raw Hraw) as (b & o & _ & _ & Ho). eauto.
  - intros [o Ho]. unfold stored, obj_at in Ho. unfold present. by destruct (be_map s !! objKey acct n id).
Qed.

Variable st : stdType S.
Hypothesis Htst : sd_t st = t.
Hypothesis Hook : sd_hooks st = None.

Lemma immutable_same sort id o o' :
  parseComparators t sort = Reply cmps -> immutable_kept -> immutable_reads t root st sort = true -> stored0 id o -> stored1 id o' -> agree root cmps o o'.
Proof.
  intros Hs (Hc0 & Hc1 & Him) Hi Ho Ho'. unfold immutable_reads, queryReads in Hi. destruct (sort_reads_core st Hook t sort cmps Hs) as (ps & Eps & Hps). rewrite Eps in Hi.
  destruct (cond_reads_core st Hook root) as [_ Hcr]. destruct (cond_reads st root) as [rs k]. cbn [fst snd] in *. apply andb_true_iff in Hi as [_ Hi]. rewrite forallb_forall in Hi.
  assert (Hread : forall name, name ∈ rs ++ ps -> is_Some (t_Properties t !! name) -> o !! name = o' !! name).
  { intros name Hin [p Hp]. apply (Him id o o' name p Ho Ho' Hp). specialize (Hi name (proj1 (list_elem_of_In _ _) Hin)). by rewrite Hp in Hi. }
  split; [by rewrite (Hc0 id o Ho), (Hc1 id o' Ho')|]. split.
  - pose proof (all_conds_and _ _ _ Hroot Hcr) as Hb.
    eapply all_conds_impl; [|exact Hb]. intros name v [(p & Hp & _) Hin]. apply Hread; [apply elem_of_app; by left|by rewrite Hp].
  - intros c Hc. apply Hread; [apply elem_of_app; right; by apply Hps|]. by rewrite (Hcm c Hc).
Qed.

Lemma report_holds z log cur z1 E0 E1 T sort tc :
  History.since_log db acct s0 s1 n t z log cur z1 E0 E1 T -> ChangesFacts.reports E0 E1 T (tc_Created tc) (tc_Updated tc) (tc_Destroyed tc) ->
  parseComparators t sort = Reply cmps -> immutable_kept ->
  walk_report db acct n s0 s1 root cmps (immutable_reads t root st sort) (sliceToSet (tc_Created tc)) (sliceToSet (tc_Updated tc)) (sliceToSet (tc_Destroyed tc)).
Proof.
  intros [_ _ _ [HE0 HE1] _ Hkeep _] [Hc Hu Hd _] Hs Him. unfold sliceToSet.
  constructor; setoid_rewrite elem_of_list_to_set; [setoid_rewrite Hc|setoid_rewrite Hd|setoid_rewrite Hc; setoid_rewrite Hu; setoid_rewrite Hd|setoid_rewrite Hu].
  - intros id o [H1 _] Ho. apply H1, (alive_stored s0 E0 id Hr0 HE0). eauto.
  - intros id o [_ H1] Ho. apply H1, (alive_stored s1 E1 id Hr1 HE1). eauto.
  - intros id H1 H2 H3. destruct (decide (id ∈ T)) as [HT|HT]; [|by apply visible_same_same, Hkeep].
    destruct (decide (id ∈ E0)) as [I0|I0], (decide (id ∈ E1)) as [I1|I1]; try tauto.
    split; intros o Ho; exfalso; [apply I0, (alive_stored s0 E0 id Hr0 HE0)|apply I1, (alive_stored s1 E1 id Hr1 HE1)]; eauto.
  - intros Hi id (I0 & I1 & _). apply (alive_stored s0 E0 id Hr0 HE0) in I0 as [o Ho]. apply (alive_stored s1 E1 id Hr1 HE1) in I1 as [o' Ho'].
    assert (Ha : agree root cmps o o') by (by eapply immutable_same). split; intros ? Hx.
    + rewrite (stored_fun _ _ _ _ _ _ _ Hx Ho). eauto.
    + rewrite (stored_fun _ _ _ _ _ _ _ Hx Ho'). eauto.
Qed.

(** ** The answer *)

Hypothesis Hdbst : sd_db st = db.
Hypothesis Hn : t_Name t = n.

Lemma collect_added_total a cand l i count acc :
  (exists added, collect_added a cand None l i count acc = Reply added) \/ (collect_added a cand None l i count acc = Fail ErrTooManyChanges /\ is_Some (qc_MaxChanges a)).
Proof.
  revert i count acc. induction l as [|id l IH]; intros i count acc; cbn [collect_added]; [by left; eexists|].
  destruct (decide (id ∈ cand)); [|apply IH]. destruct (tooMany a (count + 1)) eqn:E; [|apply IH]. right. split; [done|].
  unfold tooMany in E. by destruct (qc_MaxChanges a).
Qed.

Lemma loadAndMatch_total s ids wanted :
  account_reach db acct s -> wanted_ok wanted root cmps -> NoDup ids -> exists recs, loadAndMatch db s acct t None root ids wanted = Ok recs.
Proof.
  intros Hr Hw Hnd. unfold loadAndMatch. rewrite Hn, (GetManyProjected_loaded db acct s n t Hdb Hacct Hr Ht). cbn [mbind result_bind].
  rewrite (match_all_project db acct s n t wanted root cmps Hw). destruct (match_all_exact db acct s n t Hdb Hacct Hr Ht root ids Hnd Hroot) as (recs & E & _).
  rewrite E. by eexists.
Qed.

(** An attempt over one store answers, within the budget and the client's
    limit. *)
Lemma attempt_total a ss z log cur z1 E0 E1 T :
  History.since_log db acct s0 s1 n t z log cur z1 E0 E1 T -> canonical_ids db acct s1 n -> qc_AccountId a = acct -> qc_UpToId a = None -> parseComparators t (qc_Sort a) = Reply cmps ->
  let r := attempt st (quiet_attempt s1) a root (mkOrdering (Some cmps) None 0) false ss z in
  (exists resp, r = Reply (Some resp) /\ qcr_NewQueryState resp = FormatInt z1) \/ (r = Fail ErrCannotCalculate /\ 0 < sd_QueryChangesMaxWork st) \/
  (r = Fail ErrTooManyChanges /\ is_Some (qc_MaxChanges a)).
Proof.
  intros Hsl Hcan Ha Hup Hcmps. pose proof Hsl as [Hli (Hz64 & Hzr & Hz1) Hts _ _ _ _]. cbv zeta. unfold attempt, queryStateOf.
  rewrite Ha, Hdbst, Htst, Hn, Hup. cbn [quiet_attempt at_state at_seq at_floor at_log at_floor2 at_groups at_match at_anchor at_eval at_after].
  rewrite Hts, Hook. cbn [mbind result_bind served outcome_bind]. rewrite ParseInt_FormatInt by done. cbn [mbind outcome_bind app].
  destruct ((z1 <=? z) && negb (qc_CalculateTotal a)); [left; by eexists|].
  destruct (WalkFacts.ChangedSince_reports db acct s0 s1 n t z log cur z1 E0 E1 T (sd_QueryChangesMaxWork st) (sd_QueryChangesMaxWork st) Hsl Ht) as [[-> Hb]|(changed & tc & -> & Etc & _)].
  { right. left. split; [done|]. by destruct Hb. }
  cbn [mbind outcome_bind]. fold (primary_of n changed). rewrite (surjective_pairing (queryReads st root (qc_Sort a))). fold (immutable_reads t root st (qc_Sort a)).
  set (cr := sliceToSet (tc_Created (primary_of n changed))). set (up := sliceToSet (tc_Updated (primary_of n changed))).
  set (de := sliceToSet (tc_Destroyed (primary_of n changed))). fold (removed_set (immutable_reads t root st (qc_Sort a)) cr up de).
  fold (cand_set (immutable_reads t root st (qc_Sort a)) cr up). set (rm := removed_set _ cr up de). set (cand := cand_set _ cr up). destruct (tooMany a _) eqn:Etm.
  { right. right. split; [done|]. unfold tooMany in Etm. by destruct (qc_MaxChanges a). }
  assert (Hwok : wanted_ok (queryProjection st root (qc_Sort a) false) root cmps) by (apply queryProjection_ok; [done|by rewrite Htst]).
  destruct (loadAndMatch_total s1 (setToSortedIds cand) _ Hr1 Hwok) as (recs & El).
  { unfold setToSortedIds. rewrite sort_strings_perm. apply NoDup_elements. }
  rewrite (core_semantics st Hook), El. cbn [served mbind outcome_bind].
  assert (Hq : exists quiet, (if qc_CalculateTotal a then Reply false else Reply (length recs =? 0)%nat) = Reply quiet) by (destruct (qc_CalculateTotal a); by eexists).
  destruct Hq as [quiet ->]. cbn [mbind outcome_bind]. destruct quiet; [left; by eexists|].
  replace (if immutable_reads t root st (qc_Sort a) then None else None) with (@None Id) by (by destruct (immutable_reads t root st (qc_Sort a))).
  change (None ≫= ?f) with (@None Z). cbn [mbind outcome_bind].
  destruct (parseComparators_declared t (qc_Sort a) cmps Hcmps) as [_ Hlen].
  destruct (evaluate_now db acct n t Hdb Hacct Ht s1 Hr1 root cmps Hroot Hcm st Hdbst Htst Hook Hcan (qc_Sort a) _ Hwok) as (new & Eval & _).
  { intros E%Nat.eqb_eq. rewrite E in Hlen. by destruct cmps. }
  rewrite Eval. cbn [served mbind outcome_bind].
  destruct (collect_added_total a cand new 0 (Z.of_nat (length (setToSortedIds rm))) []) as [[added ->]|[-> Hmc]]; [|by right; right].
  cbn [mbind outcome_bind]. rewrite (History.li_seq _ _ _ _ _ Hli). cbn [served mbind outcome_bind]. rewrite Z.ltb_irrefl.
  left. destruct (negb _ || _); by eexists.
Qed.

Lemma attempt_answers a ss z log cur z1 E0 E1 T old :
  History.since_log db acct s0 s1 n t z log cur z1 E0 E1 T -> immutable_kept -> qc_AccountId a = acct -> qc_UpToId a = None -> parseComparators t (qc_Sort a) = Reply cmps ->
  results_of db acct s0 n cmps (matching db acct s0 n t root None) old ->
  let r := attempt st (quiet_attempt s1) a root (mkOrdering (Some cmps) None 0) false ss z in
  (exists resp, r = Reply (Some resp) /\ TypeState db s1 acct n = Ok (qcr_NewQueryState resp) /\
     results_of db acct s1 n cmps (matching db acct s1 n t root None) (splice (qcr_Removed resp) (qcr_Added resp) old) /\
     (qc_CalculateTotal a = true -> qcr_Total resp = Some (Z.of_nat (length (splice (qcr_Removed resp) (qcr_Added resp) old))))) \/
  (r = Fail ErrCannotCalculate /\ 0 < sd_QueryChangesMaxWork st) \/ (r = Fail ErrTooManyChanges /\ is_Some (qc_MaxChanges a)).
Proof.
  intros Hsl Him Ha Hup Hcmps Hold. cbv zeta. pose proof Him as (_ & Hcan & _).
  destruct (attempt_total a ss z log cur z1 E0 E1 T Hsl Hcan Ha Hup Hcmps) as [(resp & E & Hns)|H]; [|by right]. left. exists resp. split; [done|].
  pose proof Hsl as [Hli (Hz64 & Hzr & Hz1) Hts _ _ Hkeep Hquiet]. split; [by rewrite Hts, Hns|].
  eapply (attempt_splice db acct n t Hdb Hacct Ht s0 s1 Hr1 root cmps Hroot Hcm st Hdbst Htst Hn Hook Hcan (quiet_attempt s1) a ss z resp old); try done.
  - intros changed upTo Hc. destruct (WalkFacts.ChangedSince_reports db acct s0 s1 n t z log cur z1 E0 E1 T (sd_QueryChangesMaxWork st) (sd_QueryChangesMaxWork st) Hsl Ht) as [[Hc' _]|(changed' & tc & Hc' & Etc & Hrep)].
    + cbn [quiet_attempt at_seq at_floor at_log at_floor2] in Hc. rewrite Hc' in Hc. done.
    + cbn [quiet_attempt at_seq at_floor at_log at_floor2] in Hc. rewrite Hc' in Hc. injection Hc as <- <-. unfold primary_of. rewrite Etc. change (default ?d (Some tc)) with tc.
      by eapply report_holds.
  - intros state z' Hs Hp Hle id. unfold queryStateOf in Hs. rewrite Hdbst, Htst, Hn in Hs. cbn [quiet_attempt at_state] in Hs. rewrite Hts, Hook in Hs.
    cbn [mbind result_bind] in Hs. injection Hs as <-. rewrite ParseInt_FormatInt in Hp by done. injection Hp as <-.
    apply visible_same_same, Hkeep. rewrite (Hquiet Hle). set_solver.
Qed.
End moments.


Section demo.
#[local] Existing Instances map_order Instances.demo_time Instances.demo_fold Instances.demo_codec Memory.memory_backend Memory.memory_laws.

(** The client cached the empty list of the new account. *)
Definition demo_changes_args : queryChangesArgs :=
  mkQueryChangesArgs Instances.demo_acct (Some demo_filter_arg) demo_sort (Some (bs "0")) (Some 10) None true None.

Lemma empty_stored id o : ~ stored Instances.demo_db Instances.demo_acct Instances.empty_store (bs "Note") id o.
Proof. unfold stored, obj_at. change (be_map Instances.empty_store) with (∅ : kvmap). by rewrite lookup_empty. Qed.

Lemma demo_immutable : immutable_kept Instances.demo_db Instances.demo_acct (bs "Note") Instances.demo_type Instances.empty_store demo_store.
Proof.
  split; [intros id o Ho; exfalso; exact (empty_stored id o Ho)|]. split; [exact demo_canonical|]. intros id o o' name p Ho. exfalso. exact (empty_stored id o Ho).
Qed.

Lemma demo_old : results_of Instances.demo_db Instances.demo_acct Instances.empty_store (bs "Note") demo_cmps
  (fun id => exists o, obj_at Instances.demo_db (be_map Instances.empty_store) Instances.demo_acct (bs "Note") id = Some o /\
     matches Instances.empty_store Instances.demo_acct Instances.demo_type None o demo_root = Ok true) [].
Proof.
  constructor; [constructor| |constructor]. intros id. split; [by intros ?%not_elem_of_nil|]. intros (o & Ho & _). exfalso. exact (empty_stored id o Ho).
Qed.
End demo.

End SpliceFacts.
