(* ===== verification/AnchorFacts.v ===== *)
(** * AnchorFacts: an anchored queryChanges over records without the property

    With [upToId] and an immutable sort, [queryChanges] evaluates only the
    records the property index holds at or below the anchor.  A record without
    the property sorts first but has no index entry. *)

From S2P Require Import Prelude GoLib Backend Memory Jsonscan Jsongrammar Jmap Descriptor Keys ObjectDB Commit CommitFacts Instances.
From S2P Require Import Changes Sorting Filter Query QueryFacts SpliceFacts.

Module AnchorFacts.
Import Backend Jsonscan Jsongrammar Jmap Descriptor Keys ObjectDB Commit Changes Sorting Filter Query QueryFacts SpliceFacts.

Section anchored.
#[local] Existing Instances map_order Instances.demo_codec Instances.demo_time Instances.demo_fold Memory.memory_backend Memory.memory_laws demo_decode.
Import Instances.

(** A type with one optional property, immutable and indexed. *)
Definition item_type : Type_ := mkType (bs "Item") (bs "urn:demo") {[ bs "rank" := mkProperty KindInt true false true [] false false false false None ]} false.
Definition item_db : DB := ok_or (New SchemeSequence false) (RegisterType (New SchemeSequence false) item_type).
Definition item_std : stdType Memory.Store := mkStd item_db item_type None false 500 64 1000.

Definition create_item (obj : Object) (s : Memory.Store) (rnd : bytes) : Memory.Store :=
  c_store (ok_or (mkCommitted s ∅ ∅) (update item_db s demo_acct no_fence 1700 (fun u => r ← Create item_db u 0 rnd (bs "Item") obj; Ok r.1))).

(** First a record without a rank, then one of rank 5. *)
Definition first_store : Memory.Store := create_item ∅ empty_store demo_rnd.
Definition second_store : Memory.Store := create_item {[ bs "rank" := bs "5" ]} first_store (bs "fedcba9876543210").

Definition rank_sort : list bytes := [bs "{" ++ quoted (bs "property") ++ bs ":" ++ quoted (bs "rank") ++ bs "}"].
Definition item_query : queryArgs := mkQueryArgs demo_acct None rank_sort 0 None 0 None false None.
Definition item_changes (upTo : option Id) : queryChangesArgs := mkQueryChangesArgs demo_acct None rank_sort (Some (bs "1")) None upTo false None.

Definition ids_of (s : Memory.Store) : list Id := match query item_std s (Some {[ demo_acct := false ]}) item_query ∅ with Reply r => qr_Ids r | Fail _ => [] end.

Definition spliced (upTo : option Id) : option (list Id) :=
  match queryChanges item_std second_store (quiet_attempt second_store) (quiet_attempt second_store) (Some {[ demo_acct := false ]}) (item_changes upTo) with
  | Reply r => Some (splice (qcr_Removed r) (qcr_Added r) (ids_of first_store))
  | Fail _ => None
  end.

End anchored.
End AnchorFacts.
