(* ===== verification/Gotime.v ===== *)
(** * Gotime: package time's RFC 3339 text (Go standard library)

    Instants are nanoseconds since 1970-01-01T00:00:00Z.  [Format] is
    [Time.UTC().Format(time.RFC3339Nano)] and [Parse] is
    [time.Parse(time.RFC3339Nano, _)]: the layout's fields in order, with the
    leniencies of the general parser (a one-digit hour, a comma before the
    fraction, any number of fraction digits). *)

From S2P Require Import Prelude GoLib.

Module Gotime.

(** ** Printing *)

(** [appendInt(b, x, width)] for a non-negative [x] below [10 ^ width]. *)
Fixpoint fixed_digits (width : nat) (x : Z) (acc : bytes) : bytes :=
  match width with
  | O => acc
  | S w => fixed_digits w (x / 10) (zb (48 + x mod 10) :: acc)
  end.

(** A year of more than four digits is printed in full, a negative one with a
    sign. *)
Definition year_digits (y : Z) : bytes :=
  if y <? 0 then "-"%byte :: (if - y <? 10000 then fixed_digits 4 (- y) [] else FormatInt (- y))
  else if y <? 10000 then fixed_digits 4 y [] else FormatInt y.

Fixpoint trim_zeros (l : bytes) : bytes :=
  match l with
  | [] => []
  | c :: l' => match trim_zeros l' with
               | [] => if c =b "0"%byte then [] else [c]
               | t => c :: t
               end
  end.

(** [.999999999]: nine digits without the trailing zeros, nothing for zero. *)
Definition fraction (ns : Z) : bytes :=
  if ns =? 0 then [] else "."%byte :: trim_zeros (fixed_digits 9 ns []).

Definition Format (t : Z) : bytes :=
  let secs := t / 10 ^ 9 in
  let ns := t mod 10 ^ 9 in
  let sod := secs mod 86400 in
  let '(y, m, d) := civil_from_days (secs / 86400) in
  year_digits y ++ "-"%byte :: fixed_digits 2 m ("-"%byte :: fixed_digits 2 d ("T"%byte ::
    fixed_digits 2 (sod / 3600) (":"%byte :: fixed_digits 2 (sod / 60 mod 60) (":"%byte ::
      fixed_digits 2 (sod mod 60) (fraction ns ++ ["Z"%byte]))))).

(** ** Parsing *)

Definition digit (c : byte) : Z := bz c - 48.

(** [getnum(s, fixed)]. *)
Definition getnum (s : bytes) (fixed : bool) : option (Z * bytes) :=
  match s with
  | a :: s1 =>
      if negb (is_digit a) then None
      else match s1 with
           | b :: s2 => if is_digit b then Some (digit a * 10 + digit b, s2)
                        else if fixed then None else Some (digit a, s1)
           | [] => if fixed then None else Some (digit a, s1)
           end
  | [] => None
  end.

(** The literal bytes between the fields. *)
Definition skip (c : byte) (s : bytes) : option bytes :=
  match s with d :: s' => if d =b c then Some s' else None | [] => None end.

Definition get_year (s : bytes) : option (Z * bytes) :=
  if (length s <? 4)%nat then None
  else y ← dec_val 0 (take 4 s); Some (y, drop 4 s).

Fixpoint span_digits (s : bytes) : bytes * bytes :=
  match s with
  | c :: s' => if is_digit c then let '(ds, r) := span_digits s' in (c :: ds, r) else ([], s)
  | [] => ([], [])
  end.

(** [parseNanoseconds]: at most nine digits count, fewer are scaled up. *)
Definition nanoseconds (ds : bytes) : Z :=
  let ds' := take 9 ds in default 0 (dec_val 0 ds') * 10 ^ (9 - Z.of_nat (length ds')).

(** The optional fraction after the seconds. *)
Definition get_fraction (s : bytes) : Z * bytes :=
  match s with
  | c :: ((d :: _) as s1) =>
      if ((c =b "."%byte) || (c =b ","%byte)) && is_digit d
      then let '(ds, r) := span_digits s1 in (nanoseconds ds, r)
      else (0, s)
  | _ => (0, s)
  end.

(** [Z07:00]: the offset in seconds. *)
Definition get_zone (s : bytes) : option (Z * bytes) :=
  match s with
  | c :: s1 =>
      if c =b "Z"%byte then Some (0, s1)
      else
        h ← getnum s1 true;
        r1 ← skip ":"%byte h.2;
        m ← getnum r1 true;
        if (24 <? h.1) || (60 <? m.1) then None
        else
          let off := (h.1 * 60 + m.1) * 60 in
          if c =b "+"%byte then Some (off, m.2) else if c =b "-"%byte then Some (- off, m.2) else None
  | [] => None
  end.

Definition is_leap (y : Z) : bool := (y mod 4 =? 0) && (negb (y mod 100 =? 0) || (y mod 400 =? 0)).
Definition days_in (m y : Z) : Z :=
  if m =? 2 then if is_leap y then 29 else 28
  else if (m =? 4) || (m =? 6) || (m =? 9) || (m =? 11) then 30 else 31.

Definition Parse (s : bytes) : option Z :=
  y ← get_year s;
  r ← skip "-"%byte y.2;
  mo ← getnum r true;
  r ← skip "-"%byte mo.2;
  d ← getnum r true;
  r ← skip "T"%byte d.2;
  h ← getnum r false;
  r ← skip ":"%byte h.2;
  mi ← getnum r true;
  r ← skip ":"%byte mi.2;
  se ← getnum r true;
  let '(ns, r) := get_fraction se.2 in
  z ← get_zone r;
  if bool_decide (z.2 = []) && (1 <=? mo.1) && (mo.1 <=? 12) && (h.1 <? 24) && (mi.1 <? 60) && (se.1 <? 60)
     && (1 <=? d.1) && (d.1 <=? days_in mo.1 y.1)
  then Some ((date_unix y.1 mo.1 d.1 h.1 mi.1 se.1 - z.1) * 10 ^ 9 + ns)
  else None.

Example format_1 : Format 1700000000120000000 = bs "2023-11-14T22:13:20.12Z".
Proof. vm_compute. reflexivity. Qed.
Example parse_1 : Parse (bs "2023-11-14T22:13:20.12Z") = Some 1700000000120000000.
Proof. vm_compute. reflexivity. Qed.
Example parse_2 : Parse (bs "2023-11-14T23:13:20,12+01:00") = Some 1700000000120000000.
Proof. vm_compute. reflexivity. Qed.

(** ** The calendar round trip

    Within 400 years (146097 days) the conversion first finds the year from
    the day, then month and day within the year; the 400 years and the 366
    days are each decided by evaluation. *)

Definition year_start (y : Z) : Z := y * 365 + y / 4 - y / 100.
Definition year_len (y : Z) : Z := 365 + Z.b2z (is_leap (y + 1)).
Definition year_num (doe : Z) : Z := doe - doe / 1460 + doe / 36524 - doe / 146096.

Definition year_ok (y : Z) : bool :=
  (year_num (year_start y) / 365 =? y) && (year_num (year_start y + year_len y - 1) / 365 =? y)
  && ((y =? 399) || (year_start (y + 1) =? year_start y + year_len y)).

Definition day_month (doy : Z) : Z := let mp := (5 * doy + 2) / 153 in if mp <? 10 then mp + 3 else mp - 9.
Definition day_day (doy : Z) : Z := doy - (153 * ((5 * doy + 2) / 153) + 2) / 5 + 1.

Definition day_ok (doy : Z) : bool :=
  let m := day_month doy in
  let d := day_day doy in
  (1 <=? m) && (m <=? 12) && (1 <=? d) && ((153 * ((m + 9) mod 12) + 2) / 5 + d - 1 =? doy)
  && ((d <=? days_in m 1) || ((m =? 2) && (d =? 29) && (doy =? 365))).

Fixpoint check_upto (f : Z -> bool) (n : nat) : bool :=
  match n with O => true | S n' => f (Z.of_nat n') && check_upto f n' end.

Lemma check_upto_spec f n k : check_upto f n = true -> 0 <= k < Z.of_nat n -> f k = true.
Proof.
  induction n as [|n IH]; intros H Hk; [lia|]. cbn in H. apply andb_true_iff in H as [H1 H2].
  destruct (Z.eq_dec k (Z.of_nat n)) as [->|Hne]; [done|]. apply IH; [done|lia].
Qed.

Lemma years_checked y : 0 <= y < 400 -> year_ok y = true.
Proof. intros H. apply (check_upto_spec year_ok 400); [vm_compute; reflexivity|lia]. Qed.

Lemma days_checked doy : 0 <= doy < 366 -> day_ok doy = true.
Proof. intros H. apply (check_upto_spec day_ok 366); [vm_compute; reflexivity|lia]. Qed.

Lemma year_num_succ x : 0 <= x -> year_num x <= year_num (x + 1).
Proof. intros. unfold year_num. Z.to_euclidean_division_equations. lia. Qed.

Lemma year_num_mono x n : 0 <= x -> year_num x <= year_num (x + Z.of_nat n).
Proof.
  intros Hx. induction n as [|n IH]; [by replace (x + Z.of_nat 0) with x by lia|].
  replace (x + Z.of_nat (S n)) with (x + Z.of_nat n + 1) by lia.
  pose proof (year_num_succ (x + Z.of_nat n) ltac:(lia)). lia.
Qed.

(** Every day of the period is in one year, which the formula finds. *)
Lemma year_of_day doe : 0 <= doe < 146097 ->
  let y := year_num doe / 365 in 0 <= y < 400 /\ 0 <= doe - year_start y < year_len y.
Proof.
  intros Hd.
  assert (forall n, (n <= 400)%nat -> doe < (if (n =? 400)%nat then 146097 else year_start (Z.of_nat n)) ->
            exists y, 0 <= y < Z.of_nat n /\ year_start y <= doe < year_start y + year_len y) as Hcover.
  { induction n as [|n IH]; intros Hn Hlt; [change (year_start (Z.of_nat 0)) with 0 in Hlt; cbn in Hlt; lia|].
    destruct (Z.lt_ge_cases doe (year_start (Z.of_nat n))) as [H|H].
    - destruct IH as (y & Hy & Hr); [lia| |exists y; lia].
      by destruct (Nat.eqb_spec n 400); [lia|].
    - exists (Z.of_nat n). split; [lia|]. split; [done|].
      pose proof (years_checked (Z.of_nat n) ltac:(lia)) as Hc. unfold year_ok in Hc.
      destruct (Nat.eqb_spec (S n) 400) as [E|E].
      + assert (n = 399)%nat as -> by lia. change (year_start (Z.of_nat 399) + year_len (Z.of_nat 399)) with 146097. lia.
      + replace (Z.of_nat (S n)) with (Z.of_nat n + 1) in Hlt by lia. lia. }
  destruct (Hcover 400%nat) as (y & Hy & Hr); [lia|cbn; lia|].
  pose proof (years_checked y ltac:(lia)) as Hc. unfold year_ok in Hc.
  assert (0 <= year_start y) by (unfold year_start; Z.to_euclidean_division_equations; lia).
  pose proof (year_num_mono (year_start y) (Z.to_nat (doe - year_start y)) ltac:(lia)) as H1.
  pose proof (year_num_mono doe (Z.to_nat (year_start y + year_len y - 1 - doe)) ltac:(lia)) as H2.
  replace (year_start y + Z.of_nat (Z.to_nat (doe - year_start y))) with doe in H1 by lia.
  replace (doe + Z.of_nat (Z.to_nat (year_start y + year_len y - 1 - doe))) with (year_start y + year_len y - 1) in H2 by lia.
  apply (Z.div_le_mono _ _ 365) in H1, H2; [|lia..].
  cbv zeta. assert (year_num doe / 365 = y) as -> by lia. lia.
Qed.

Lemma is_leap_era y era : is_leap (y + era * 400) = is_leap y.
Proof.
  unfold is_leap. replace (era * 400) with ((era * 100) * 4) at 1 by lia.
  replace (era * 400) with ((era * 4) * 100) at 1 by lia. by rewrite !Z.mod_add by lia.
Qed.

(** A date is a calendar date and its day number is the one it came from. *)
Lemma civil_round z y m d : civil_from_days z = (y, m, d) ->
  1 <= m <= 12 /\ 1 <= d <= days_in m y /\ days_from_civil y m d = z.
Proof.
  unfold civil_from_days. set (era := (z + 719468) / 146097). set (doe := (z + 719468) mod 146097).
  assert (z = era * 146097 + doe - 719468) as Ez by (unfold era, doe; Z.to_euclidean_division_equations; lia).
  assert (0 <= doe < 146097) as Hdoe by (apply Z.mod_pos_bound; lia).
  change (doe - doe / 1460 + doe / 36524 - doe / 146096) with (year_num doe).
  destruct (year_of_day doe Hdoe) as [Hy Hdoy]. set (yoe := year_num doe / 365) in *.
  replace (doe - (365 * yoe + yoe / 4 - yoe / 100)) with (doe - year_start yoe) by (unfold year_start; lia).
  set (doy := doe - year_start yoe) in *.
  change (if (5 * doy + 2) / 153 <? 10 then (5 * doy + 2) / 153 + 3 else (5 * doy + 2) / 153 - 9) with (day_month doy).
  change (doy - (153 * ((5 * doy + 2) / 153) + 2) / 5 + 1) with (day_day doy).
  intros [= <- <- <-].
  assert (doy < 366) as Hlt by (unfold year_len in Hdoy; destruct (is_leap _); cbn in Hdoy; lia).
  pose proof (days_checked doy ltac:(lia)) as Hc. unfold day_ok in Hc. cbv zeta in Hc.
  set (dm := day_month doy) in *. set (dd := day_day doy) in *.
  split; [lia|]. split.
  - split; [lia|]. unfold days_in in *. destruct (Z.eqb_spec dm 2) as [E|E]; [|lia].
    rewrite E in *. change (2 <=? 2) with true. cbv iota.
    replace (yoe + era * 400 + 1) with (yoe + 1 + era * 400) by lia. rewrite is_leap_era.
    change (is_leap 1) with false in Hc. cbv iota in Hc. change (2 =? 2) with true in Hc. unfold year_len in Hdoy. destruct (is_leap (yoe + 1)); cbn in Hdoy; lia.
  - unfold days_from_civil. fold dm dd.
    assert ((if dm <=? 2 then yoe + era * 400 + (if dm <=? 2 then 1 else 0) - 1
             else yoe + era * 400 + (if dm <=? 2 then 1 else 0)) = yoe + era * 400) as -> by (destruct (dm <=? 2); lia).
    rewrite Z.div_add, Z.mod_add, Z.div_small, Z.mod_small by lia.
    unfold year_start in doy. lia.
Qed.
(** ** The text round trip *)

Lemma fixed_digits_app w x acc : fixed_digits w x acc = fixed_digits w x [] ++ acc.
Proof.
  revert x acc; induction w as [|w IH]; intros x acc; [done|]. cbn [fixed_digits].
  rewrite IH, (IH _ [_]), <- app_assoc. done.
Qed.

Lemma fixed_digits_length w x acc : length (fixed_digits w x acc) = (w + length acc)%nat.
Proof. revert x acc; induction w as [|w IH]; intros x acc; [done|]. cbn [fixed_digits]. rewrite IH. cbn. lia. Qed.

Lemma fixed_digits_digit w x : Forall (fun c => is_digit c = true) (fixed_digits w x []).
Proof.
  revert x; induction w as [|w IH]; intros x; [done|]. cbn [fixed_digits]. rewrite fixed_digits_app.
  apply Forall_app. split; [apply IH|]. constructor; [|done].
  apply is_digit_zb. apply Z.mod_pos_bound. lia.
Qed.

Lemma dec_val_app a b acc : dec_val acc (a ++ b) = dec_val acc a ≫= fun v => dec_val v b.
Proof. revert acc; induction a as [|c a IH]; intros acc; [done|]. cbn. destruct (is_digit c); [apply IH|done]. Qed.

Lemma dec_val_fixed w x : 0 <= x < 10 ^ Z.of_nat w -> dec_val 0 (fixed_digits w x []) = Some x.
Proof.
  revert x; induction w as [|w IH]; intros x Hx.
  - change (10 ^ Z.of_nat 0) with 1 in Hx. cbn. f_equal. lia.
  - cbn [fixed_digits]. rewrite Nat2Z.inj_succ, Z.pow_succ_r in Hx by lia.
    rewrite fixed_digits_app, dec_val_app, IH by (Z.to_euclidean_division_equations; lia). cbn [mbind option_bind dec_val].
    pose proof (Z.mod_pos_bound x 10). destruct (is_digit_zb (x mod 10)) as [-> ->]; [lia|].
    f_equal. Z.to_euclidean_division_equations. lia.
Qed.

Lemma get_year_fixed y r : 0 <= y < 10000 -> get_year (fixed_digits 4 y r) = Some (y, r).
Proof.
  intros Hy. unfold get_year. rewrite fixed_digits_length. destruct (Nat.ltb_spec (4 + length r) 4); [lia|].
  rewrite fixed_digits_app. rewrite take_app_length', drop_app_length' by (rewrite fixed_digits_length; done).
  rewrite dec_val_fixed by (change (10 ^ Z.of_nat 4) with 10000; lia). done.
Qed.

Lemma getnum_fixed x r fixed : 0 <= x < 100 -> getnum (fixed_digits 2 x r) fixed = Some (x, r).
Proof.
  intros Hx. cbn [fixed_digits getnum].
  destruct (is_digit_zb (x / 10 mod 10)) as [-> E1]; [apply Z.mod_pos_bound; lia|].
  destruct (is_digit_zb (x mod 10)) as [-> E2]; [apply Z.mod_pos_bound; lia|]. cbn [negb].
  unfold digit. rewrite E1, E2. do 2 f_equal. Z.to_euclidean_division_equations. lia.
Qed.

Lemma trim_zeros_spec l : exists k, l = trim_zeros l ++ repeat "0"%byte k.
Proof.
  induction l as [|c l [k IH]]; [by exists 0%nat|]. cbn [trim_zeros].
  destruct (trim_zeros l) as [|d t] eqn:E.
  - cbn in IH. destruct (c =b "0"%byte) eqn:F.
    + apply beqb_eq in F as ->. exists (S k). cbn. by rewrite <- IH.
    + exists k. cbn. by rewrite <- IH.
  - exists k. cbn. f_equal. exact IH.
Qed.

Lemma dec_val_zeros v k : dec_val v (repeat "0"%byte k) = Some (v * 10 ^ Z.of_nat k).
Proof.
  revert v; induction k as [|k IH]; intros v; [cbn; f_equal; change (10 ^ 0) with 1; lia|].
  cbn [repeat dec_val]. change (is_digit "0") with true. cbv iota. rewrite IH. f_equal.
  change (bz "0") with 48. rewrite Nat2Z.inj_succ, Z.pow_succ_r by lia. lia.
Qed.

Lemma span_digits_app ds c r :
  Forall (fun c => is_digit c = true) ds -> is_digit c = false -> span_digits (ds ++ c :: r) = (ds, c :: r).
Proof. induction 1 as [|d ds Hd _ IH]; intros Hc; cbn; [by rewrite Hc|]. by rewrite Hd, IH. Qed.

Lemma get_fraction_fraction ns : 0 <= ns < 10 ^ 9 -> get_fraction (fraction ns ++ ["Z"%byte]) = (ns, ["Z"%byte]).
Proof.
  intros Hns. unfold fraction. destruct (Z.eqb_spec ns 0) as [-> |Hne]; [done|].
  destruct (trim_zeros_spec (fixed_digits 9 ns [])) as [k Hk].
  set (t := trim_zeros (fixed_digits 9 ns [])) in *.
  assert (Forall (fun c => is_digit c = true) t) as Ht.
  { pose proof (fixed_digits_digit 9 ns) as H. rewrite Hk in H. by apply Forall_app in H as [? _]. }
  pose proof (fixed_digits_length 9 ns []) as Hl. rewrite Hk, length_app, repeat_length in Hl. change (9 + length ([] : bytes))%nat with 9%nat in Hl.
  pose proof (dec_val_fixed 9 ns Hns) as Hv. rewrite Hk, dec_val_app in Hv.
  destruct (dec_val 0 t) as [v|] eqn:Ev; cbn [mbind option_bind] in Hv; [|done].
  rewrite dec_val_zeros in Hv. injection Hv as Hv.
  destruct t as [|d t'] eqn:Et; [cbn in Ev; injection Ev as <-; lia|].
  rewrite <- Et in *. unfold get_fraction. rewrite Et at 1. cbn [app]. rewrite beqb_refl. cbn [orb andb].
  rewrite Et in Ht. pose proof (Forall_inv Ht) as Hd. cbn beta in Hd. rewrite Hd.
  change (d :: t' ++ ["Z"%byte]) with ((d :: t') ++ "Z"%byte :: []). rewrite span_digits_app by done.
  rewrite <- Et. f_equal. unfold nanoseconds. rewrite take_ge by lia. rewrite Ev. cbn [default].
  replace (9 - Z.of_nat (length t)) with (Z.of_nat k) by lia. done.
Qed.

(** The calendar year of an instant. *)
Definition Year (t : Z) : Z := (civil_from_days (t / 10 ^ 9 / 86400)).1.1.

Lemma Parse_Format t : 0 <= Year t < 10000 -> Parse (Format t) = Some t.
Proof.
  unfold Year, Format. set (secs := t / 10 ^ 9). set (ns := t mod 10 ^ 9). set (sod := secs mod 86400).
  destruct (civil_from_days (secs / 86400)) as [[y m] d] eqn:E. cbn [fst]. intros Hy.
  destruct (civil_round _ _ _ _ E) as (Hm & Hd & Hz).
  assert (0 <= sod < 86400) as Hs by (apply Z.mod_pos_bound; lia).
  assert (0 <= ns < 10 ^ 9) as Hns by (apply Z.mod_pos_bound; lia).
  assert (d <= 31) by (unfold days_in in Hd; repeat case_match; lia).
  unfold year_digits. rewrite (proj2 (Z.ltb_ge y 0)), (proj2 (Z.ltb_lt y 10000)) by lia.
  rewrite <- fixed_digits_app. unfold Parse. rewrite get_year_fixed by lia. cbn [mbind option_bind fst snd].
  unfold skip. rewrite !beqb_refl. cbn [mbind option_bind].
  do 2 (rewrite getnum_fixed by lia; cbn [mbind option_bind fst snd]; rewrite !beqb_refl; cbn [mbind option_bind]).
  assert (0 <= sod / 3600 < 24) by (Z.to_euclidean_division_equations; lia).
  assert (0 <= sod / 60 mod 60 < 60) by (Z.to_euclidean_division_equations; lia).
  assert (0 <= sod mod 60 < 60) by (Z.to_euclidean_division_equations; lia).
  do 2 (rewrite getnum_fixed by lia; cbn [mbind option_bind fst snd]; rewrite !beqb_refl; cbn [mbind option_bind]).
  rewrite getnum_fixed by lia. cbn [mbind option_bind fst snd].
  rewrite get_fraction_fraction by done. cbn [get_zone]. rewrite beqb_refl. cbn [mbind option_bind fst snd].
  rewrite bool_decide_eq_true_2 by done.
  match goal with |- (if ?b then _ else _) = _ => assert (b = true) as -> by lia end.
  unfold date_unix. rewrite Hz. f_equal.
  assert (secs = secs / 86400 * 86400 + sod) by (unfold sod; Z.to_euclidean_division_equations; lia).
  assert (t = secs * 10 ^ 9 + ns) by (unfold secs, ns; Z.to_euclidean_division_equations; lia).
  assert (sod / 3600 * 3600 + sod / 60 mod 60 * 60 + sod mod 60 = sod) by (Z.to_euclidean_division_equations; lia).
  lia.
Qed.

(** The bytes a formatted instant is made of. *)
Definition time_byte (c : byte) : bool :=
  is_digit c || (c =b "-"%byte) || (c =b ":"%byte) || (c =b "T"%byte) || (c =b "."%byte) || (c =b "Z"%byte).

Lemma fmt_digits_digit fuel n acc :
  Forall (fun c => is_digit c = true) acc -> Forall (fun c => is_digit c = true) (fmt_digits fuel n acc).
Proof.
  revert n acc; induction fuel as [|fuel IH]; intros n acc Ha; [done|]. cbn [fmt_digits].
  assert (Forall (fun c => is_digit c = true) (zb (48 + n mod 10) :: acc)).
  { constructor; [|done]. apply is_digit_zb. apply Z.mod_pos_bound. lia. }
  destruct (n <? 10); auto.
Qed.

Lemma digits_time l : Forall (fun c => is_digit c = true) l -> Forall (fun c => time_byte c = true) l.
Proof. intros Hl. eapply Forall_impl; [exact Hl|]. intros c H. unfold time_byte. by rewrite H. Qed.

Lemma FormatInt_time n : Forall (fun c => time_byte c = true) (FormatInt n).
Proof. unfold FormatInt. destruct (n <? 0); [constructor; [done|]|]; apply digits_time, fmt_digits_digit; constructor. Qed.

Lemma Format_time t : Forall (fun c => time_byte c = true) (Format t).
Proof.
  unfold Format. destruct (civil_from_days _) as [[y m] d].
  assert (forall w x r, Forall (fun c => time_byte c = true) r -> Forall (fun c => time_byte c = true) (fixed_digits w x r)) as Hf.
  { intros w x r Hr. rewrite fixed_digits_app. apply Forall_app. split; [|done]. apply digits_time, fixed_digits_digit. }
  apply Forall_app. split.
  { unfold year_digits. repeat case_match; try (constructor; [done|]); try apply Hf; try apply FormatInt_time; constructor. }
  do 5 (constructor; [done|]; apply Hf). apply Forall_app. split; [|repeat constructor].
  unfold fraction. case_match; [constructor|]. constructor; [done|].
  destruct (trim_zeros_spec (fixed_digits 9 (t mod 10 ^ 9) [])) as [k Hk].
  pose proof (digits_time _ (fixed_digits_digit 9 (t mod 10 ^ 9))) as H1. rewrite Hk in H1. by apply Forall_app in H1 as [? _].
Qed.
End Gotime.
