(* ===== verification/Lease.v ===== *)
(** * Lease: per-account writer leases (core/providers/lease)

    The claim record and its operations, then the managers as a machine: every
    [Acquire] is a call that moves from one lock, clock or store operation to
    the next, and the calls of any number of instances over one store
    interleave at those points. *)

From S2P Require Import Prelude GoLib Gotime Keyenc Backend Jmap.

Module Lease.
Import Keyenc Backend Jmap.

(** ** Time

    Instants and durations are nanoseconds; a [time.Duration] is an int64. *)

Definition Millisecond : Z := 10 ^ 6.
Definition Second : Z := 10 ^ 9.

(** [Time.Sub] saturates. *)
Definition Sub (t u : Z) : Z := Z.max (- 2 ^ 63) (Z.min (2 ^ 63 - 1) (t - u)).

(** ** Claim values *)

Definition storeClaimKey (account : Id) : bytes := bs "lc/" ++ account.

Definition hex_digit (d : Z) : byte := if d <? 10 then zb (48 + d) else zb (87 + d).

(** [newNonce]: [rnd] is what [crypto/rand] filled the buffer with. *)
Definition newNonce (rnd : bytes) : bytes :=
  concat (map (fun b => [hex_digit (bz b / 16); hex_digit (bz b mod 16)]) (take 8 rnd)).

(** [strconv.FormatUint(n, 36)]: 13 digits hold every 64-bit value. *)
Fixpoint base36 (fuel : nat) (n : Z) (acc : bytes) : bytes :=
  match fuel with
  | O => acc
  | S fuel' => let acc' := hex_digit (n mod 36) :: acc in if n <? 36 then acc' else base36 fuel' (n / 36) acc'
  end.
Definition FormatUint36 (n : Z) : bytes := base36 13 n [].

(** The token and the counter after [seq.Add(1)]. *)
Definition mintToken (nonce : bytes) (seq : Z) (exp : Z) : bytes * Z :=
  let seq' := u64 (seq + 1) in
  (Gotime.Format exp ++ "|"%byte :: nonce ++ "-"%byte :: FormatUint36 seq', seq').

Fixpoint IndexByte (s : bytes) (c : byte) : option nat :=
  match s with
  | [] => None
  | d :: s' => if d =b c then Some O else S <$> IndexByte s' c
  end.

Definition parseClaimExpiry (claim : slice) : option Z :=
  match IndexByte (sbytes claim) "|"%byte with
  | None => None
  | Some i => Gotime.Parse (take i (sbytes claim))
  end.

(** [exp, ok := parseClaimExpiry(old); ok && now.Before(exp)]. *)
Definition claim_live (claim : slice) (now : Z) : bool :=
  match parseClaimExpiry claim with Some exp => now <? exp | None => false end.

(** ** Managers *)

Definition inProcessExpiry : Z := 15 * Second.

(** What sets the two managers apart: the store lease waits out a live claim,
    the in-process one takes any claim over. *)
Inductive Policy := StorePolicy (expiry poll : Z) | InProcessPolicy.

(** [mu] is the call that holds the mutex. *)
Record accountLock := mkLock { al_mu : option nat; al_token : slice }.

Record Manager := mkManager {
  m_policy : Policy;
  m_nonce : bytes;
  m_seq : Z;
  m_locks : gmap Id accountLock;
}.

Definition NewStoreLease (expiry poll : Z) (rnd : bytes) : Manager :=
  let expiry' := if expiry <=? 0 then 15 * Second else expiry in
  let poll' := if poll <=? 0 then 25 * Millisecond else poll in
  mkManager (StorePolicy expiry' poll') (newNonce rnd) 0 ∅.

Definition NewInProcess (rnd : bytes) : Manager := mkManager InProcessPolicy (newNonce rnd) 0 ∅.

(** [m.locks[account]], created on first use. *)
Definition lock_at (m : Manager) (account : Id) : accountLock := default (mkLock None None) (m_locks m !! account).

Definition set_lock (m : Manager) (account : Id) (al : accountLock) : Manager :=
  mkManager (m_policy m) (m_nonce m) (m_seq m) (<[account := al]> (m_locks m)).
Definition set_seq (m : Manager) (seq : Z) : Manager := mkManager (m_policy m) (m_nonce m) seq (m_locks m).

(** A token with its deadline [d] from now. *)
Definition mint (m : Manager) (now d : Z) : bytes * Manager :=
  let '(tok, seq) := mintToken (m_nonce m) (m_seq m) (now + d) in (tok, set_seq m seq).

Definition newClaimValue (m : Manager) (expiry now : Z) : bytes * Manager := mint m now expiry.
Definition newExpiredToken (m : Manager) (now : Z) : bytes * Manager := mint m now (- Second).

(** [jitter] is the value of the jittered poll expression. *)
Definition waitDuration (jitter exp now : Z) : Z :=
  let d := jitter in
  let untilExp := Sub exp now in
  let d := if untilExp <? d then untilExp else d in
  if d <? Millisecond then Millisecond else d.

(** ** Store operations *)

(** [backend.CompareAndSwapper], an optional capability. *)
Class CompareAndSwapper (S : Type) :=
  be_CompareAndSwap : option (S -> bytes -> slice -> bytes -> result (S * bool)).

(** Its contract: atomic, and it swaps exactly when the expectation holds. *)
Class SwapperLaws (S : Type) `{BackendLaws S, CompareAndSwapper S} :=
  be_CompareAndSwap_spec : forall swap s key expected newValue s' swapped,
    be_CompareAndSwap = Some swap -> be_inv s -> swap s key expected newValue = Ok (s', swapped) ->
    be_inv s' /\ assert_ok (be_map s) (OpAssert key expected) = swapped /\
    be_map s' = if swapped then <[key := Some newValue]> (be_map s) else be_map s.

Section operations.
Context {S : Type} `{Backend S, CompareAndSwapper S}.

Definition getClaim (s : S) (key : bytes) : result slice :=
  match be_Get s key with
  | Err BackendErrNotFound => Ok None
  | r => r
  end.

Definition cas (s : S) (key : bytes) (expected : slice) (newVal : bytes) : result (S * bool) :=
  match be_CompareAndSwap with
  | Some swap => swap s key expected newVal
  | None =>
      match be_WriteBatch s (Set_ (Assert [] key expected) key (Some newVal)) with
      | Ok s' => Ok (s', true)
      | Err ErrAssertFailed => Ok (s, false)
      | Err e => Err e
      end
  end.

(** [Fence]: the same assertion for both kinds of lease. *)
Definition Fence (key claim : bytes) (b : Batch) : Batch := Assert b key (Some claim).

(** ** The machine *)

(** Where a call of [Acquire], and the lease it returned, stands. *)
Inductive Pc :=
  | Locking                                          (* blocked on the account mutex *)
  | Abandoned                                        (* ctx ended; the goroutine still waits for the mutex *)
  | HandBack                                         (* ... has it, and hands it back *)
  | FastSwap (claim : bytes)                         (* about to swap the cached token *)
  | Reading (claim : slice)                          (* about to read the claim *)
  | Waiting (d : Z)                                  (* sleeping on a live claim *)
  | Swapping (old : slice) (claim : slice) (at_ : Z) (* about to swap what was read; clock at the check *)
  | Holding (claim : bytes)                          (* Acquire returned this lease *)
  | Unlocking                                        (* released, or failing *)
  | Finished.

Record Call := mkCall { c_mgr : nat; c_account : Id; c_pc : Pc }.

Inductive LogItem := Acquired (t : nat) (account : Id) | Committed (t : nat) (account : Id).

Record State := mkState {
  st_store : S;
  st_mgrs : gmap nat Manager;
  st_calls : gmap nat Call;
  st_log : list LogItem;        (* leases granted and batches applied, in order *)
  st_warned : list Id;          (* warnForeign calls *)
}.

Inductive Event :=
  | EvCall (t mgr : nat) (account : Id)              (* a method call starts Acquire *)
  | EvRun (t : nat) (now now' jitter : Z)            (* a call makes its next operation *)
  | EvCancel (t : nat)                               (* its ctx ends *)
  | EvCommit (t : nat) (account : Id) (b : Batch)    (* the holder writes a fenced batch *)
  | EvRelease (t : nat) (now : Z)
  | EvWrite (b : Batch).                             (* a write under no lease *)

(** The parts of a state a call may change. *)
Definition set_pc (st : State) (t : nat) (c : Call) (pc : Pc) : State :=
  mkState (st_store st) (st_mgrs st) (<[t := mkCall (c_mgr c) (c_account c) pc]> (st_calls st)) (st_log st) (st_warned st).
Definition set_mgr (st : State) (i : nat) (m : Manager) : State :=
  mkState (st_store st) (<[i := m]> (st_mgrs st)) (st_calls st) (st_log st) (st_warned st).
Definition set_store (st : State) (s : S) : State :=
  mkState s (st_mgrs st) (st_calls st) (st_log st) (st_warned st).
Definition add_log (st : State) (x : LogItem) : State :=
  mkState (st_store st) (st_mgrs st) (st_calls st) (st_log st ++ [x]) (st_warned st).
Definition warnForeign (st : State) (account : Id) : State :=
  mkState (st_store st) (st_mgrs st) (st_calls st) (st_log st) (st_warned st ++ [account]).

(** [al.mu.Lock()] by call [t] when the mutex is free, and [al.mu.Unlock()]. *)
Definition lock_mu (m : Manager) (account : Id) (t : nat) : Manager :=
  set_lock m account (mkLock (Some t) (al_token (lock_at m account))).
Definition unlock_mu (m : Manager) (account : Id) : Manager :=
  set_lock m account (mkLock None (al_token (lock_at m account))).
Definition set_token (m : Manager) (account : Id) (claim : bytes) : Manager :=
  set_lock m account (mkLock (al_mu (lock_at m account)) (Some claim)).

(** The mutex has arrived. *)
Definition locked (st : State) (t : nat) (c : Call) (m : Manager) (now : Z) : State :=
  let m1 := lock_mu m (c_account c) t in
  match m_policy m with
  | StorePolicy _ _ => set_pc (set_mgr st (c_mgr c) m1) t c (Reading None)
  | InProcessPolicy =>
      let '(claim, m2) := mint m1 now inProcessExpiry in
      let st' := set_mgr st (c_mgr c) m2 in
      match al_token (lock_at m (c_account c)) with
      | Some _ => set_pc st' t c (FastSwap claim)
      | None => set_pc st' t c (Reading (Some claim))
      end
  end.

(** The lease is granted: InProcess remembers its claim. *)
Definition granted (st : State) (t : nat) (c : Call) (m : Manager) (s : S) (claim : bytes) : State :=
  let m' := match m_policy m with InProcessPolicy => set_token m (c_account c) claim | StorePolicy _ _ => m end in
  add_log (set_pc (set_store (set_mgr st (c_mgr c) m') s) t c (Holding claim)) (Acquired t (c_account c)).

(** The swap against the cached token. *)
Definition fast_swap (st : State) (t : nat) (c : Call) (m : Manager) (claim : bytes) : State :=
  match cas (st_store st) (storeClaimKey (c_account c)) (al_token (lock_at m (c_account c))) claim with
  | Err _ => set_pc st t c Unlocking
  | Ok (s, true) => granted st t c m s claim
  | Ok (s, false) => set_pc (warnForeign (set_store st s) (c_account c)) t c (Reading (Some claim))
  end.

(** The claim is read; a live one makes a store lease wait. *)
Definition read_claim (st : State) (t : nat) (c : Call) (m : Manager) (claim : slice) (now now' jitter : Z) : State :=
  match getClaim (st_store st) (storeClaimKey (c_account c)) with
  | Err _ => set_pc st t c Unlocking
  | Ok old =>
      match m_policy m with
      | InProcessPolicy => set_pc st t c (Swapping old claim now)
      | StorePolicy _ _ =>
          match parseClaimExpiry old with
          | Some exp => if now <? exp then set_pc st t c (Waiting (waitDuration jitter exp now'))
                        else set_pc st t c (Swapping old None now)
          | None => set_pc st t c (Swapping old None now)
          end
      end
  end.

(** The swap against what was read; a store lease mints its token here. *)
Definition swap_claim (st : State) (t : nat) (c : Call) (m : Manager) (old claim : slice) (now : Z) : State :=
  let '(tok, m') := match m_policy m with
                    | StorePolicy expiry _ => newClaimValue m expiry now
                    | InProcessPolicy => (sbytes claim, m)
                    end in
  let st' := set_mgr st (c_mgr c) m' in
  match cas (st_store st) (storeClaimKey (c_account c)) old tok with
  | Err _ => set_pc st' t c Unlocking
  | Ok (s, true) => granted st' t c m' s tok
  | Ok (s, false) =>
      match m_policy m with
      | StorePolicy _ _ => set_pc (set_store st' s) t c (Reading None)
      | InProcessPolicy => set_pc (warnForeign (set_store st' s) (c_account c)) t c (Reading claim)
      end
  end.

Definition unlock (st : State) (t : nat) (c : Call) (m : Manager) : State :=
  set_pc (set_mgr st (c_mgr c) (unlock_mu m (c_account c))) t c Finished.

(** The next operation of a call of [Acquire], or of a lease on its way out. *)
Definition run_call (st : State) (t : nat) (c : Call) (m : Manager) (now now' jitter : Z) : option State :=
  let free := bool_decide (al_mu (lock_at m (c_account c)) = None) in
  match c_pc c with
  | Locking => if free then Some (locked st t c m now) else None
  | Abandoned => if free then Some (set_pc (set_mgr st (c_mgr c) (lock_mu m (c_account c) t)) t c HandBack) else None
  | FastSwap claim => Some (fast_swap st t c m claim)
  | Reading claim => Some (read_claim st t c m claim now now' jitter)
  | Waiting _ => Some (set_pc st t c (Reading None))
  | Swapping old claim _ => Some (swap_claim st t c m old claim now)
  | HandBack | Unlocking => Some (unlock st t c m)
  | Holding _ | Finished => None
  end.

(** The context of a call ends: the mutex wait is abandoned, every later
    operation fails and the mutex is given back. *)
Definition cancel_call (st : State) (t : nat) (c : Call) : option State :=
  match c_pc c with
  | Locking => Some (set_pc st t c Abandoned)
  | FastSwap _ | Reading _ | Waiting _ | Swapping _ _ _ => Some (set_pc st t c Unlocking)
  | _ => None
  end.

(** [Release]: the store lease first swaps its claim for an expired token. *)
Definition Release (st : State) (t : nat) (c : Call) (m : Manager) (claim : bytes) (now : Z) : State :=
  match m_policy m with
  | InProcessPolicy => set_pc st t c Unlocking
  | StorePolicy _ _ =>
      let '(tok, m') := newExpiredToken m now in
      let st' := set_mgr st (c_mgr c) m' in
      match cas (st_store st) (storeClaimKey (c_account c)) (Some claim) tok with
      | Ok (s, _) => set_pc (set_store st' s) t c Unlocking
      | Err _ => set_pc st' t c Unlocking
      end
  end.

(** A key of the claim namespace. *)
Definition claim_key (k : bytes) : bool := bool_decide (take 3 k = bs "lc/").

(** The keys a batch writes. *)
Definition op_writes (op : Op) : option bytes :=
  match op with OpSet k _ | OpDelete k | OpAdd k _ => Some k | OpAssert _ _ => None end.
Definition writes_claim (b : Batch) : bool :=
  existsb (fun op => match op_writes op with Some k => claim_key k | None => false end) b.

(** One event, where it can happen. *)
Definition sys_step (st : State) (e : Event) : option State :=
  match e with
  | EvCall t i account =>
      match st_calls st !! t, st_mgrs st !! i with
      | None, Some _ => Some (set_pc st t (mkCall i account Locking) Locking)
      | _, _ => None
      end
  | EvRun t now now' jitter =>
      c ← st_calls st !! t; m ← st_mgrs st !! c_mgr c; run_call st t c m now now' jitter
  | EvCancel t => c ← st_calls st !! t; cancel_call st t c
  | EvRelease t now =>
      c ← st_calls st !! t; m ← st_mgrs st !! c_mgr c;
      match c_pc c with Holding claim => Some (Release st t c m claim now) | _ => None end
  | EvCommit t account b =>
      c ← st_calls st !! t;
      match c_pc c with
      | Holding claim =>
          if negb (bool_decide (c_account c = account)) || writes_claim b then None
          else match be_WriteBatch (st_store st) (Fence (storeClaimKey account) claim b) with
               | Ok s => Some (add_log (set_store st s) (Committed t account))
               | Err _ => Some st
               end
      | _ => None
      end
  | EvWrite b =>
      if writes_claim b then None
      else match be_WriteBatch (st_store st) b with Ok s => Some (set_store st s) | Err _ => Some st end
  end.

Fixpoint exec (st : State) (es : list Event) : option State :=
  match es with [] => Some st | e :: es' => st' ← sys_step st e; exec st' es' end.

(** Before any call: instances just made, over any store. *)
Definition start (s : S) (mgrs : gmap nat Manager) : State := mkState s mgrs ∅ [] [].
End operations.
Arguments State : clear implicits.
End Lease.
