(* ===== verification/LeaseFacts.v ===== *)
(** * LeaseFacts: claim tokens, and the invariant of the lease machine *)

From S2P Require Import Prelude GoLib Gotime Keyenc Backend Batches Memory Jmap Keys Lease.

Module LeaseFacts.
Import Keyenc Backend Batches Jmap Keys Lease.

(** ** Tokens *)

Definition token (nonce : bytes) (seq exp : Z) : bytes :=
  Gotime.Format exp ++ "|"%byte :: nonce ++ "-"%byte :: FormatUint36 seq.

Lemma bar_split p q x y :
  Forall (fun c => Gotime.time_byte c = true) p -> Forall (fun c => Gotime.time_byte c = true) q ->
  p ++ "|"%byte :: x = q ++ "|"%byte :: y -> p = q /\ x = y.
Proof.
  intros Hp. revert q. induction Hp as [|c p Hc _ IH]; intros [|d q] Hq E; cbn in E.
  - injection E as ->. done.
  - injection E as <- _. by apply Forall_inv in Hq.
  - injection E as -> _. done.
  - injection E as -> E. destruct (IH q) as [-> ->]; [by apply Forall_inv_tail in Hq|done|done].
Qed.

Definition val36 (c : byte) : Z := if bz c <? 58 then bz c - 48 else bz c - 87.
Definition dec36 (acc : Z) (l : bytes) : Z := fold_left (fun a c => 36 * a + val36 c) l acc.

Lemma val36_digit d : 0 <= d < 36 -> val36 (hex_digit d) = d.
Proof.
  intros Hd. unfold val36, hex_digit. destruct (d <? 10) eqn:E; rewrite bz_zb_small by lia;
    [destruct (48 + d <? 58) eqn:F|destruct (87 + d <? 58) eqn:F]; lia.
Qed.

Lemma dec36_base36 fuel n tl : 0 <= n < 36 ^ Z.of_nat (S fuel) -> dec36 0 (base36 (S fuel) n tl) = dec36 n tl.
Proof.
  revert n tl; induction fuel as [|fuel IH]; intros n tl Hn.
  - change (36 ^ Z.of_nat 1) with 36 in Hn. cbn -[hex_digit]. rewrite Z.mod_small by lia.
    destruct (n <? 36) eqn:E; [|lia]. cbn -[hex_digit]. rewrite val36_digit by lia. f_equal.
  - remember (S fuel) as f. cbn [base36].
    assert (0 <= n mod 36 < 36) by (apply Z.mod_pos_bound; lia).
    destruct (n <? 36) eqn:E.
    + rewrite Z.mod_small by lia. cbn -[hex_digit]. rewrite val36_digit by lia. f_equal.
    + rewrite IH.
      * cbn -[hex_digit]. rewrite val36_digit by lia. rewrite <- (Z.div_mod n 36) by lia. done.
      * rewrite Nat2Z.inj_succ, Z.pow_succ_r in Hn by lia.
        split; [apply Z.div_pos; lia|]. apply Z.div_lt_upper_bound; lia.
Qed.

Lemma FormatUint36_inj n m : 0 <= n < 2 ^ 64 -> 0 <= m < 2 ^ 64 -> FormatUint36 n = FormatUint36 m -> n = m.
Proof.
  intros Hn Hm E. assert (2 ^ 64 < 36 ^ Z.of_nat 13) by (vm_compute; reflexivity).
  apply (f_equal (dec36 0)) in E. unfold FormatUint36 in E. rewrite !dec36_base36 in E by lia. exact E.
Qed.

(** A token names its instance and its mint. *)
Lemma token_inj n1 n2 q1 q2 e1 e2 :
  length n1 = length n2 -> 0 <= q1 < 2 ^ 64 -> 0 <= q2 < 2 ^ 64 ->
  token n1 q1 e1 = token n2 q2 e2 -> n1 = n2 /\ q1 = q2.
Proof.
  intros Hl H1 H2 E. apply bar_split in E as [_ E]; [|apply Gotime.Format_time..].
  apply app_inj_1 in E as [-> E]; [|done]. injection E as E. split; [done|]. by apply FormatUint36_inj.
Qed.

Lemma mintToken_token nonce seq exp : (mintToken nonce seq exp).1 = token nonce (u64 (seq + 1)) exp.
Proof. done. Qed.

Lemma newNonce_length rnd : length rnd = 8%nat -> length (newNonce rnd) = 16%nat.
Proof. intros H. do 9 (destruct rnd as [|? rnd]; try done). Qed.

Lemma IndexByte_bar p r : Forall (fun c => Gotime.time_byte c = true) p -> IndexByte (p ++ "|"%byte :: r) "|"%byte = Some (length p).
Proof.
  induction 1 as [|c p Hc _ IH]; [done|]. cbn [app IndexByte]. destruct (c =b "|"%byte) eqn:E.
  - apply beqb_eq in E as ->. done.
  - by rewrite IH.
Qed.

(** A token's deadline is read back from it. *)
Lemma parse_token nonce seq exp :
  0 <= Gotime.Year exp < 10000 -> parseClaimExpiry (Some (token nonce seq exp)) = Some exp.
Proof.
  intros Hy. unfold parseClaimExpiry. change (sbytes (Some ?x)) with x. unfold token.
  rewrite IndexByte_bar by apply Gotime.Format_time. rewrite take_app_length. by apply Gotime.Parse_Format.
Qed.

(** ** Keys *)

Lemma storeClaimKey_inj a b : storeClaimKey a = storeClaimKey b -> a = b.
Proof. unfold storeClaimKey. apply app_inv_head. Qed.

Lemma claim_key_claim a : claim_key (storeClaimKey a) = true.
Proof. unfold claim_key, storeClaimKey. by apply bool_decide_eq_true_2. Qed.

(** The keys of an account: everything under its first key segment. *)
Definition under (a : Id) (k : bytes) : bool := bool_decide (take (length (Key [a])) k = Key [a]).

Lemma under_Key a rest : under a (Key (a :: rest)) = true.
Proof.
  unfold under. apply bool_decide_eq_true_2. change (a :: rest) with ([a] ++ rest). rewrite Key_app. apply take_app_length.
Qed.

(** Claims live outside every account's keys. *)
Lemma claim_not_under a b : Valid a = true -> under a (storeClaimKey b) = false.
Proof.
  intros Ha. apply bool_decide_eq_false_2. intros E. pose proof (Valid_no_zero a Ha) as Hz.
  rewrite Key_enc in E. cbn [map concat] in E. rewrite app_nil_r, (enc_no_zero a Hz) in E.
  unfold storeClaimKey in E. apply (f_equal (fun l => l ++ drop (length (a ++ [x00; x01])) (bs "lc/" ++ b))) in E.
  rewrite take_drop in E. rewrite <- app_assoc in E. cbn [app] in E.
  destruct a as [|c0 [|c1 [|c2 a]]]; cbn in E; simplify_eq. unfold Valid in Ha. destruct (_ || _) in Ha; [done|].
  cbn [forallb] in Ha. change (id_char "/") with false in Ha. cbn in Ha. by rewrite !andb_false_r in Ha.
Qed.

(** ** Store operations *)

Section machine.
Context {S : Type} `{BE : Backend S, BL : !BackendLaws S, CS : !CompareAndSwapper S, SL : !SwapperLaws S}.

(** Either way of swapping: all or nothing, exactly when the expectation holds. *)
Lemma cas_spec s key expected v s' swapped :
  be_inv s -> cas s key expected v = Ok (s', swapped) ->
  be_inv s' /\ assert_ok (be_map s) (OpAssert key expected) = swapped /\
  be_map s' = if swapped then <[key := Some v]> (be_map s) else be_map s.
Proof.
  intros Hs. unfold cas. destruct be_CompareAndSwap as [swap|] eqn:E.
  - intros Hc. by apply (be_CompareAndSwap_spec swap s key expected v).
  - set (b := Set_ _ _ _). destruct (be_WriteBatch s b) as [s1|e] eqn:Ew.
    + intros [= <- <-]. destruct (be_WriteBatch_Ok s b s1 Hs Ew) as [Hi Hw]. unfold spec_write in Hw.
      destruct (forallb _ b) eqn:Ea; [|done]. cbn [b Set_ Assert app forallb] in Ea. rewrite andb_true_r in Ea.
      cbn in Hw. injection Hw as Hw. auto using andb_true_iff.
    + destruct e; try done. intros [= <- <-]. apply be_WriteBatch_assert in Ew; [|done].
      cbn [b Set_ Assert app forallb] in Ew. rewrite andb_true_r in Ew. auto.
Qed.

Lemma getClaim_spec s key : be_inv s -> getClaim s key = Ok (mjoin (be_map s !! key)).
Proof. intros Hs. unfold getClaim. rewrite be_Get_spec by done. by destruct (be_map s !! key). Qed.

(** The claim an account has in the store. *)
Definition claim_of (s : S) (a : Id) : option bytes := sbytes <$> be_map s !! storeClaimKey a.

Lemma assert_claim s a claim :
  assert_ok (be_map s) (OpAssert (storeClaimKey a) (Some claim)) = true <-> claim_of s a = Some claim.
Proof.
  unfold claim_of. cbn [assert_ok]. destruct (be_map s !! storeClaimKey a) as [v|]; cbn; [|done].
  rewrite bool_decide_eq_true. split; [by intros ->|by intros [= ->]].
Qed.

(** Batches away from a key leave it alone. *)
Definition spares_key (k : bytes) (b : Batch) : Prop := Forall (fun op => op_writes op <> Some k) b.

Lemma apply_ops_spares k b m m' : spares_key k b -> apply_ops m b = Ok m' -> m' !! k = m !! k.
Proof.
  intros Hb. revert m. induction Hb as [|op b Hop _ IH]; intros m E; cbn in E; [by injection E as ->|].
  apply result_bind_Ok in E as (m1 & E1 & E2). rewrite (IH _ E2).
  destruct op as [k' v|k'|k' d|k' v]; cbn in E1, Hop.
  - injection E1 as <-. apply lookup_insert_ne. congruence.
  - injection E1 as <-. apply lookup_delete_ne. congruence.
  - apply result_bind_Ok in E1 as (base & _ & [= <-]). apply lookup_insert_ne. congruence.
  - by injection E1 as ->.
Qed.

Lemma WriteBatch_spares s b s' k : be_inv s -> be_WriteBatch s b = Ok s' -> spares_key k b -> be_map s' !! k = be_map s !! k.
Proof.
  intros Hs Hw Hb. apply be_WriteBatch_Ok in Hw as [_ Hw]; [|done]. unfold spec_write in Hw.
  destruct (forallb _ b); [|done]. by apply (apply_ops_spares k b).
Qed.

Lemma writes_claim_spares b a : writes_claim b = false -> spares_key (storeClaimKey a) b.
Proof.
  unfold writes_claim, spares_key. intros H. apply Forall_forall. intros op Hop E.
  assert (existsb (fun op => match op_writes op with Some k => claim_key k | None => false end) b = true) as C; [|congruence].
  apply existsb_exists. exists op. split; [by apply list_elem_of_In|]. rewrite E. apply claim_key_claim.
Qed.

Lemma Fence_spares k key claim b : spares_key k b -> spares_key k (Fence key claim b).
Proof. intros Hb. unfold Fence, Assert. apply Forall_app. split; [done|]. by constructor. Qed.

Lemma Fence_checked s key claim b s' :
  be_inv s -> be_WriteBatch s (Fence key claim b) = Ok s' ->
  be_inv s' /\ assert_ok (be_map s) (OpAssert key (Some claim)) = true.
Proof.
  intros Hs Hw. apply be_WriteBatch_Ok in Hw as [Hi Hw]; [|done]. split; [done|]. unfold spec_write in Hw.
  destruct (forallb _ _) eqn:E; [|done]. unfold Fence, Assert in E. rewrite forallb_app in E.
  apply andb_true_iff in E as [_ E]. cbn [forallb] in E. by rewrite andb_true_r in E.
Qed.

(** ** One step

    What a step of a call, or its Release, can do. *)

(** The token a call carries. *)
Definition own (pc : Pc) : option bytes :=
  match pc with
  | FastSwap claim | Holding claim => Some claim
  | Reading claim | Swapping _ claim _ => claim
  | _ => None
  end.

Definition done (pc : Pc) : bool := match pc with Unlocking | Finished => true | _ => false end.

(** How tokens come about: kept, dropped, or minted. *)
Definition tokens_ok (m m' : Manager) (pc pc' : Pc) : Prop :=
  m_nonce m' = m_nonce m /\ m_policy m' = m_policy m /\
  (m_seq m' = m_seq m /\ (own pc' = None \/ own pc' = own pc) \/
   m_seq m' = u64 (m_seq m + 1) /\
     (own pc' = None \/ own pc' = own pc \/ exists exp, own pc' = Some (token (m_nonce m) (u64 (m_seq m + 1)) exp))).

(** The claim is swapped only to grant the lease, or to release it. *)
Inductive swap_ok (st st' : State S) (t : nat) (c : Call) (m : Manager) (pc' : Pc) : Prop :=
  | swap_none : be_map (st_store st') = be_map (st_store st) -> st_log st' = st_log st ->
      (forall k, pc' <> Holding k) -> swap_ok st st' t c m pc'
  | swap_grant old tok :
      assert_ok (be_map (st_store st)) (OpAssert (storeClaimKey (c_account c)) old) = true ->
      be_map (st_store st') = <[storeClaimKey (c_account c) := Some tok]> (be_map (st_store st)) ->
      pc' = Holding tok -> st_log st' = st_log st ++ [Acquired t (c_account c)] ->
      (match c_pc c with
       | FastSwap claim => claim = tok /\ old = al_token (lock_at m (c_account c))
       | Swapping old' _ _ => old' = old
       | _ => False
       end) -> swap_ok st st' t c m pc'
  | swap_release claim tok exp :
      c_pc c = Holding claim -> pc' = Unlocking -> tok = token (m_nonce m) (u64 (m_seq m + 1)) exp ->
      claim_of (st_store st) (c_account c) = Some claim ->
      be_map (st_store st') = <[storeClaimKey (c_account c) := Some tok]> (be_map (st_store st)) ->
      st_log st' = st_log st -> swap_ok st st' t c m pc'.

(** What each policy's calls carry; a store lease about to swap saw no live
    claim. *)
Definition pc_ok (p : Policy) (pc : Pc) : Prop :=
  match p, pc with
  | StorePolicy _ _, FastSwap _ => False
  | StorePolicy _ _, Reading claim => claim = None
  | StorePolicy _ _, Swapping old claim at_ => claim = None /\ claim_live old at_ = false
  | InProcessPolicy, (Reading claim | Swapping _ claim _) => claim <> None
  | InProcessPolicy, Waiting _ => False
  | _, _ => True
  end.

(** A step of call [t]: it alone moves, only its manager changes. *)
Record stepped (st st' : State S) (t : nat) (c : Call) (m m' : Manager) (pc' : Pc) : Prop := {
  sp_calls : st_calls st' = <[t := mkCall (c_mgr c) (c_account c) pc']> (st_calls st);
  sp_mgrs : st_mgrs st' = <[c_mgr c := m']> (st_mgrs st);
  sp_inv : be_inv (st_store st');
  sp_tokens : tokens_ok m m' (c_pc c) pc';
  sp_swap : swap_ok st st' t c m pc';
  sp_pc : pc_ok (m_policy m') pc';
}.

Lemma tokens_same m pc pc' : own pc' = None \/ own pc' = own pc -> tokens_ok m m pc pc'.
Proof. intros H. split_and!; [done..|]. auto. Qed.

Lemma tokens_lock m a al pc pc' : own pc' = None \/ own pc' = own pc -> tokens_ok m (set_lock m a al) pc pc'.
Proof. intros H. split_and!; [done..|]. auto. Qed.

(** A step that touches neither store nor claims. *)
Lemma quiet_step st t c m m' pc' :
  be_inv (st_store st) -> tokens_ok m m' (c_pc c) pc' -> pc_ok (m_policy m') pc' -> (forall k, pc' <> Holding k) ->
  stepped st (set_pc (set_mgr st (c_mgr c) m') t c pc') t c m m' pc'.
Proof. intros Hi Ht Hp Hh. split; try done. by constructor. Qed.

Lemma still st t c m pc' :
  st_mgrs st !! c_mgr c = Some m ->
  be_inv (st_store st) -> tokens_ok m m (c_pc c) pc' -> pc_ok (m_policy m) pc' -> (forall k, pc' <> Holding k) ->
  stepped st (set_pc st t c pc') t c m m pc'.
Proof. intros Hm Hi Ht Hp Hh. split; try done; [cbn; by rewrite insert_id|by constructor]. Qed.

Lemma locked_step st t c m now :
  be_inv (st_store st) -> c_pc c = Locking -> exists m' pc', stepped st (locked st t c m now) t c m m' pc'.
Proof.
  intros Hi Hpc. unfold locked. destruct (m_policy m) as [e p|] eqn:Ep.
  - eexists _, _. apply quiet_step; [done| | |done]; [by apply tokens_lock; left|]. cbn. by rewrite Ep.
  - unfold mint. destruct (mintToken _ _ _) as [tok seq] eqn:Em.
    assert (seq = u64 (m_seq m + 1) /\ tok = token (m_nonce m) (u64 (m_seq m + 1)) (now + inProcessExpiry)) as [-> ->].
    { unfold mintToken in Em. by injection Em as <- <-. }
    destruct (al_token (lock_at m (c_account c))); eexists _, _; (apply quiet_step; [done| | |done]; [|cbn; by rewrite Ep]);
      (split_and!; [done..|]; right; split; [done|]; right; right; by eexists).
Qed.

Lemma granted_step st t c m m' s tok old :
  be_inv s -> tokens_ok m m' (c_pc c) (Holding tok) ->
  assert_ok (be_map (st_store st)) (OpAssert (storeClaimKey (c_account c)) old) = true ->
  be_map s = <[storeClaimKey (c_account c) := Some tok]> (be_map (st_store st)) ->
  (match c_pc c with
   | FastSwap claim => claim = tok /\ old = al_token (lock_at m (c_account c))
   | Swapping old' _ _ => old' = old
   | _ => False
   end) ->
  exists m'', stepped st (granted (set_mgr st (c_mgr c) m') t c m' s tok) t c m m'' (Holding tok) /\
    m'' = match m_policy m with InProcessPolicy => set_token m' (c_account c) tok | StorePolicy _ _ => m' end.
Proof.
  intros Hi Ht Ha Hm Hpc. destruct Ht as (Hn & Hp & Ht). unfold granted. rewrite Hp.
  eexists. split; [|done]. split; cbn; try done.
  - by rewrite insert_insert_eq.
  - destruct (m_policy m) eqn:E; (split_and!; [done|cbn; congruence|exact Ht]).
  - by apply (swap_grant _ _ _ _ _ _ old tok).
  - destruct (m_policy m); cbn; rewrite Hp; done.
Qed.

Lemma fast_swap_step st t c m claim :
  be_inv (st_store st) -> st_mgrs st !! c_mgr c = Some m -> c_pc c = FastSwap claim -> pc_ok (m_policy m) (c_pc c) ->
  exists m' pc', stepped st (fast_swap st t c m claim) t c m m' pc'.
Proof.
  intros Hi Hm Hpc Hok. rewrite Hpc in Hok. unfold fast_swap.
  assert (m_policy m = InProcessPolicy) as Hp by (by destruct (m_policy m)).
  destruct (cas _ _ _ _) as [[s [|]]|e] eqn:E; [..|by eexists _, _; apply still; auto using tokens_same; rewrite Hp].
  - destruct (cas_spec _ _ _ _ _ _ Hi E) as (Hs & Ha & Hms).
    assert (tokens_ok m m (c_pc c) (Holding claim)) as Ht by (apply tokens_same; rewrite Hpc; auto).
    destruct (granted_step st t c m m s claim _ Hs Ht Ha Hms) as (m'' & Hst & _); [by rewrite Hpc|].
    exists m'', (Holding claim). unfold set_mgr in Hst. rewrite (insert_id _ _ _ Hm) in Hst. by destruct st.
  - destruct (cas_spec _ _ _ _ _ _ Hi E) as (Hs & Ha & Hms).
    exists m, (Reading (Some claim)). split; cbn; try done.
    + by rewrite insert_id.
    + apply tokens_same. rewrite Hpc. auto.
    + by constructor.
    + by rewrite Hp.
Qed.

Lemma read_claim_step st t c m claim now now' jitter :
  be_inv (st_store st) -> st_mgrs st !! c_mgr c = Some m -> c_pc c = Reading claim -> pc_ok (m_policy m) (c_pc c) ->
  exists pc', stepped st (read_claim st t c m claim now now' jitter) t c m m pc' /\
    match pc' with Swapping _ _ at_ => at_ = now | _ => True end.
Proof.
  intros Hi Hm Hpc Hok. rewrite Hpc in Hok. unfold read_claim. rewrite getClaim_spec by done.
  set (old := mjoin _). destruct (m_policy m) as [e p|] eqn:Ep.
  - destruct (parseClaimExpiry old) as [exp|] eqn:Ex; [destruct (now <? exp) eqn:El|];
      eexists; (split; [apply still; auto using tokens_same; rewrite Ep; cbn; unfold claim_live; rewrite ?Ex; auto|done]).
  - eexists. split; [apply still; auto; [apply tokens_same; rewrite Hpc; auto|by rewrite Ep]|done].
Qed.

Lemma swap_claim_step st t c m old claim at_ now :
  be_inv (st_store st) -> st_mgrs st !! c_mgr c = Some m -> c_pc c = Swapping old claim at_ -> pc_ok (m_policy m) (c_pc c) ->
  exists m' pc', stepped st (swap_claim st t c m old claim now) t c m m' pc'.
Proof.
  intros Hi Hm Hpc Hok. rewrite Hpc in Hok. unfold swap_claim.
  assert (exists tok m1, (match m_policy m with
            | StorePolicy expiry _ => newClaimValue m expiry now | InProcessPolicy => (sbytes claim, m) end) = (tok, m1) /\
            m_policy m1 = m_policy m /\ tokens_ok m m1 (c_pc c) (Holding tok) /\
            (forall pc', own pc' = None \/ own pc' = own (c_pc c) -> tokens_ok m m1 (c_pc c) pc')) as (tok & m1 & -> & Hpol & Htok & Hdrop).
  { destruct (m_policy m) as [e p|] eqn:Ep.
    - unfold newClaimValue, mint, mintToken. eexists _, _. split; [done|]. split; [done|]. split.
      + split_and!; [done..|]. right. split; [done|]. right. right. by eexists.
      + intros pc' H. split_and!; [done..|]. right. split; [done|]. tauto.
    - eexists _, _. split; [done|]. split; [done|]. destruct claim as [tok|]; [|done]. split.
      + apply tokens_same. rewrite Hpc. auto.
      + intros pc' H. by apply tokens_same. }
  destruct (cas _ _ _ _) as [[s [|]]|e] eqn:E.
  - destruct (cas_spec _ _ _ _ _ _ Hi E) as (Hs & Ha & Hms).
    destruct (granted_step st t c m m1 s tok _ Hs Htok Ha Hms) as (m'' & Hst & _); [by rewrite Hpc|]. eauto.
  - destruct (cas_spec _ _ _ _ _ _ Hi E) as (Hs & Ha & Hms).
    destruct (m_policy m) as [ex p|] eqn:Ep; eexists m1, _; (split; cbn; try done; [|by constructor|by rewrite Hpol]);
      apply Hdrop; rewrite ?Hpc; auto.
  - eexists m1, _. apply quiet_step; auto. rewrite Hpol. by destruct (m_policy m).
Qed.

Lemma run_call_step st t c m now now' jitter st' :
  be_inv (st_store st) -> st_mgrs st !! c_mgr c = Some m -> pc_ok (m_policy m) (c_pc c) ->
  run_call st t c m now now' jitter = Some st' -> exists m' pc', stepped st st' t c m m' pc'.
Proof.
  intros Hi Hm Hok. unfold run_call. destruct (c_pc c) as [| | |claim|claim|d|old claim at_|claim| |] eqn:Hpc; try done.
  - case_bool_decide; [|done]. intros [= <-]. by apply locked_step.
  - case_bool_decide; [|done]. intros [= <-]. eexists _, _. apply quiet_step; [done| | |done].
    + apply tokens_lock. auto.
    + cbn. by destruct (m_policy m).
  - intros [= <-]. eexists _, _. apply quiet_step; [done| | |done]; [apply tokens_lock; auto|]. cbn. by destruct (m_policy m).
  - intros [= <-]. apply fast_swap_step; [done..|]. by rewrite Hpc.
  - intros [= <-]. destruct (read_claim_step st t c m claim now now' jitter) as (pc' & Hs & _); [done..|by rewrite Hpc|]. eauto.
  - intros [= <-]. eexists _, _. apply still; [done..| | |done]; [apply tokens_same; auto|]. by destruct (m_policy m).
  - intros [= <-]. apply (swap_claim_step st t c m old claim at_); [done..|]. by rewrite Hpc.
  - intros [= <-]. eexists _, _. apply quiet_step; [done| | |done]; [apply tokens_lock; auto|]. cbn. by destruct (m_policy m).
Qed.

Lemma cancel_step st t c m st' :
  be_inv (st_store st) -> st_mgrs st !! c_mgr c = Some m -> cancel_call st t c = Some st' ->
  exists pc', stepped st st' t c m m pc'.
Proof.
  intros Hi Hm. unfold cancel_call.
  destruct (c_pc c) eqn:Hpc; try done; intros [= <-]; eexists; (apply still; [done..| | |done]);
    solve [apply tokens_same; auto|by destruct (m_policy m)].
Qed.

Lemma Release_step st t c m claim now :
  be_inv (st_store st) -> st_mgrs st !! c_mgr c = Some m -> c_pc c = Holding claim ->
  exists m', stepped st (Release st t c m claim now) t c m m' Unlocking.
Proof.
  intros Hi Hm Hpc. unfold Release. destruct (m_policy m) as [e p|] eqn:Ep.
  - unfold newExpiredToken, mint. destruct (mintToken _ _ _) as [tok seq] eqn:Em.
    assert (seq = u64 (m_seq m + 1) /\ tok = token (m_nonce m) (u64 (m_seq m + 1)) (now + - Second)) as [-> ->].
    { unfold mintToken in Em. by injection Em as <- <-. }
    assert (tokens_ok m (set_seq m (u64 (m_seq m + 1))) (c_pc c) Unlocking) as Ht.
    { split_and!; [done..|]. right. split; [done|]. by left. }
    assert (pc_ok (m_policy (set_seq m (u64 (m_seq m + 1)))) Unlocking) as Hp by (cbn; by rewrite Ep).
    destruct (cas _ _ _ _) as [[s sw]|e'] eqn:E; [|eexists; by apply quiet_step].
    destruct (cas_spec _ _ _ _ _ _ Hi E) as (Hs & Ha & Hms). eexists. split; cbn; try done.
    destruct sw; [|by constructor]. apply assert_claim in Ha. eapply swap_release; done.
  - eexists. apply still; [done..| | |done]; [apply tokens_same; auto|by rewrite Ep].
Qed.

(** ** The invariant

    After at most [n] steps: instances have their own nonces, counters are at
    most [n], and every token a call carries was minted by its instance and is
    carried by no other call. *)

Definition minted (st : State S) (i : nat) (tok : bytes) : Prop :=
  exists m q exp, st_mgrs st !! i = Some m /\ tok = token (m_nonce m) q exp /\ 1 <= q <= m_seq m.

Record inv (n : Z) (st : State S) : Prop := {
  inv_store : be_inv (st_store st);
  inv_len : forall i m, st_mgrs st !! i = Some m -> length (m_nonce m) = 16%nat /\ 0 <= m_seq m <= n;
  inv_nonce : forall i j mi mj, st_mgrs st !! i = Some mi -> st_mgrs st !! j = Some mj -> m_nonce mi = m_nonce mj -> i = j;
  inv_mgr : forall t c, st_calls st !! t = Some c -> exists m, st_mgrs st !! c_mgr c = Some m /\ pc_ok (m_policy m) (c_pc c);
  inv_own : forall t c tok, st_calls st !! t = Some c -> own (c_pc c) = Some tok -> minted st (c_mgr c) tok;
  inv_dist : forall t1 t2 c1 c2 tok, st_calls st !! t1 = Some c1 -> st_calls st !! t2 = Some c2 ->
    own (c_pc c1) = Some tok -> own (c_pc c2) = Some tok -> t1 = t2;
}.

Inductive moved (st : State S) (e : Event) (st' : State S) : Prop :=
  | moved_call t i a : e = EvCall t i a -> st_calls st !! t = None -> is_Some (st_mgrs st !! i) ->
      st' = set_pc st t (mkCall i a Locking) Locking -> moved st e st'
  | moved_step t c m m' pc' : st_calls st !! t = Some c -> st_mgrs st !! c_mgr c = Some m ->
      stepped st st' t c m m' pc' -> (forall k, c_pc c = Holding k -> pc' = Unlocking) ->
      (done (c_pc c) = true -> done pc' = true) -> moved st e st'
  | moved_commit t c k b s : e = EvCommit t (c_account c) b -> st_calls st !! t = Some c -> c_pc c = Holding k ->
      writes_claim b = false -> be_WriteBatch (st_store st) (Fence (storeClaimKey (c_account c)) k b) = Ok s ->
      st' = add_log (set_store st s) (Committed t (c_account c)) -> moved st e st'
  | moved_write b s : e = EvWrite b -> writes_claim b = false -> be_WriteBatch (st_store st) b = Ok s ->
      st' = set_store st s -> moved st e st'
  | moved_same : st' = st -> moved st e st'.

Lemma run_call_done st t c m now now' jitter st' :
  run_call st t c m now now' jitter = Some st' -> done (c_pc c) = true -> st' = unlock st t c m.
Proof. unfold run_call. destruct (c_pc c); try done. by intros [= <-]. Qed.

Lemma sys_step_moved n st e st' : inv n st -> sys_step st e = Some st' -> moved st e st'.
Proof.
  intros Hinv. pose proof (inv_store _ _ Hinv) as Hi. destruct e as [t i a|t now now' j|t|t a b|t now|b]; cbn [sys_step]; intros E.
  - destruct (st_calls st !! t) eqn:Et; [done|]. destruct (st_mgrs st !! i) eqn:Em; [|done]. injection E as <-.
    eapply moved_call; eauto.
  - apply bind_Some in E as (c & Hc & E). apply bind_Some in E as (m & Hm & E).
    destruct (inv_mgr _ _ Hinv t c Hc) as (m0 & Hm0 & Hok). assert (m0 = m) as -> by congruence.
    destruct (run_call_step st t c m now now' j st') as (m' & pc' & Hst); [done..|].
    eapply moved_step; [done..| |].
    + intros k Hk. unfold run_call in E. by rewrite Hk in E.
    + intros Hd. pose proof (run_call_done _ _ _ _ _ _ _ _ E Hd) as Eu. pose proof (sp_calls _ _ _ _ _ _ _ Hst) as Hcs.
      rewrite Eu in Hcs. cbn in Hcs. apply (f_equal (fun cs => cs !! t)) in Hcs. rewrite !lookup_insert_eq in Hcs.
      by injection Hcs as <-.
  - apply bind_Some in E as (c & Hc & E). destruct (inv_mgr _ _ Hinv t c Hc) as (m & Hm & _).
    destruct (cancel_step st t c m st') as (pc' & Hst); [done..|].
    eapply moved_step; [done..| |]; unfold cancel_call in E; [intros k Hk; by rewrite Hk in E|by destruct (c_pc c)].
  - apply bind_Some in E as (c & Hc & E). destruct (c_pc c) as [| | |claim|claim|d|old claim at_|claim| |] eqn:Hpc; try done.
    case_bool_decide as Ea; cbn [negb orb] in E; [|done]. subst a.
    destruct (writes_claim b) eqn:Ew; [done|].
    destruct (be_WriteBatch _ _) as [s|] eqn:Eb; injection E as <-; [|by apply moved_same]. by eapply moved_commit.
  - apply bind_Some in E as (c & Hc & E). apply bind_Some in E as (m & Hm & E).
    destruct (c_pc c) as [| | |claim|claim|d|old claim at_|claim| |] eqn:Hpc; try done. injection E as <-.
    destruct (Release_step st t c m claim now) as (m' & Hst); [done..|]. by eapply moved_step.
  - destruct (writes_claim b) eqn:Ew; [done|].
    destruct (be_WriteBatch _ _) as [s|] eqn:Eb; injection E as <-; [|by apply moved_same]. by eapply moved_write.
Qed.

(** A token minted now is carried by no call. *)
Lemma fresh_token n st i m exp t c :
  inv n st -> n + 1 < 2 ^ 64 -> st_mgrs st !! i = Some m -> st_calls st !! t = Some c ->
  own (c_pc c) <> Some (token (m_nonce m) (u64 (m_seq m + 1)) exp).
Proof.
  intros Hinv Hn Hm Hc E. destruct (inv_own _ _ Hinv t c _ Hc E) as (m' & q & exp' & Hm' & Etok & Hq).
  destruct (inv_len _ _ Hinv _ _ Hm) as [Hl Hs]. destruct (inv_len _ _ Hinv _ _ Hm') as [Hl' Hs'].
  unfold u64 in Etok. rewrite Z.mod_small in Etok by lia.
  apply token_inj in Etok as [En Eq]; [|congruence|lia..].
  assert (i = c_mgr c) as -> by (by apply (inv_nonce _ _ Hinv i (c_mgr c) m m')).
  assert (m' = m) as -> by congruence. lia.
Qed.

Lemma inv_stepped n st st' t c m m' pc' :
  inv n st -> n + 1 < 2 ^ 64 -> st_calls st !! t = Some c -> st_mgrs st !! c_mgr c = Some m ->
  stepped st st' t c m m' pc' -> inv (n + 1) st'.
Proof.
  intros Hinv Hn Hc Hm [Hcalls Hmgrs Hi (Hnn & Hpol & Htok) _ Hpc].
  destruct (inv_len _ _ Hinv _ _ Hm) as [Hl Hs].
  assert (u64 (m_seq m + 1) = m_seq m + 1) as Hu by (unfold u64; apply Z.mod_small; lia).
  assert (m_seq m <= m_seq m' <= m_seq m + 1) as Hseq by lia.
  assert (forall i mi, st_mgrs st' !! i = Some mi -> exists mi0, st_mgrs st !! i = Some mi0 /\
            m_nonce mi = m_nonce mi0 /\ m_policy mi = m_policy mi0 /\ m_seq mi0 <= m_seq mi <= m_seq mi0 + 1) as Hback.
  { intros i mi. rewrite Hmgrs. intros [[<- <-]|[_ H]]%lookup_insert_Some; [by exists m|]. exists mi. split_and!; [done..|lia|lia]. }
  assert (forall i mi0, st_mgrs st !! i = Some mi0 -> exists mi, st_mgrs st' !! i = Some mi /\
            m_nonce mi = m_nonce mi0 /\ m_policy mi = m_policy mi0 /\ m_seq mi0 <= m_seq mi) as Hfwd.
  { intros i mi0 H. rewrite Hmgrs. destruct (decide (i = c_mgr c)) as [-> |Hne].
    - assert (mi0 = m) as -> by congruence. exists m'. rewrite lookup_insert_eq. split_and!; [done..|lia].
    - exists mi0. rewrite lookup_insert_ne by done. split_and!; [done..|lia]. }
  assert (forall i tok, minted st i tok -> minted st' i tok) as Hmint.
  { intros i tok (mi & q & exp & Hmi & -> & Hq). destruct (Hfwd i mi Hmi) as (mi' & Hmi' & E1 & _ & E2).
    exists mi', q, exp. rewrite E1. split_and!; [done..|lia|lia]. }
  assert (forall tok, own pc' = Some tok -> own (c_pc c) = Some tok \/
            (exists exp, tok = token (m_nonce m) (m_seq m + 1) exp) /\ m_seq m' = m_seq m + 1) as Hown.
  { intros tok Ho. rewrite Hu in Htok. destruct Htok as [[_ [?|?]]|[E [?|[?|[exp ?]]]]]; try (left; congruence); try congruence.
    right. split; [|done]. exists exp. congruence. }
  split; [done|..].
  - intros i mi (mi0 & H0 & -> & _ & H2)%Hback. destruct (inv_len _ _ Hinv _ _ H0). split; [done|lia].
  - intros i j mi mj (mi0 & H1 & -> & _)%Hback (mj0 & H2 & -> & _)%Hback. by apply (inv_nonce _ _ Hinv).
  - intros t0 c0. rewrite Hcalls. intros [[<- <-]|[_ H]]%lookup_insert_Some.
    + exists m'. rewrite Hmgrs. cbn. by rewrite lookup_insert_eq.
    + destruct (inv_mgr _ _ Hinv _ _ H) as (mi & Hmi & Hok). destruct (Hfwd _ _ Hmi) as (mi' & Hmi' & _ & Ep & _).
      exists mi'. by rewrite Ep.
  - intros t0 c0 tok. rewrite Hcalls. intros [[<- <-]|[_ H]]%lookup_insert_Some Ho.
    + cbn in *. destruct (Hown tok Ho) as [H|[[exp ->] E]]; [by apply Hmint, (inv_own _ _ Hinv t c)|].
      exists m', (m_seq m + 1), exp. rewrite Hmgrs, lookup_insert_eq, Hnn. split_and!; [done..|lia|lia].
    + by apply Hmint, (inv_own _ _ Hinv t0 c0).
  - assert (forall t2 c2 tok, t2 <> t -> st_calls st !! t2 = Some c2 -> own pc' = Some tok -> own (c_pc c2) = Some tok -> False) as Hd.
    { intros t2 c2 tok Hne H2 Ho1 Ho2. destruct (Hown tok Ho1) as [Ho|[[exp ->] _]].
      - by apply Hne, (inv_dist _ _ Hinv t2 t c2 c tok).
      - rewrite <- Hu in Ho2. by apply (fresh_token n st (c_mgr c) m exp t2 c2) in Ho2. }
    intros t1 t2 c1 c2 tok. rewrite Hcalls.
    intros [[<- <-]|[Hn1 H1]]%lookup_insert_Some [[<- <-]|[Hn2 H2]]%lookup_insert_Some Ho1 Ho2; cbn in *; try done.
    + destruct (Hd t2 c2 tok); auto.
    + destruct (Hd t1 c1 tok); auto.
    + by apply (inv_dist _ _ Hinv t1 t2 c1 c2 tok).
Qed.

Lemma inv_weaken n n' st : inv n st -> n <= n' -> inv n' st.
Proof.
  intros [H1 H2 H3 H4 H5 H6] Hn. split; auto. intros i m Hm. destruct (H2 i m Hm). split; [done|lia].
Qed.

Lemma inv_set_store n st s : inv n st -> be_inv s -> inv n (set_store st s).
Proof. intros [H1 H2 H3 H4 H5 H6] Hs. by split. Qed.

Lemma inv_add_log n st x : inv n st -> inv n (add_log st x).
Proof. intros [H1 H2 H3 H4 H5 H6]. by split. Qed.

Lemma inv_call n st t i a :
  inv n st -> st_calls st !! t = None -> is_Some (st_mgrs st !! i) -> inv n (set_pc st t (mkCall i a Locking) Locking).
Proof.
  intros [H1 H2 H3 H4 H5 H6] Ht [m Hm]. split; cbn; auto.
  - intros t0 c [[<- <-]|[_ H]]%lookup_insert_Some; [|eauto]. exists m. split; [done|]. by destruct (m_policy m).
  - intros t0 c tok [[<- <-]|[_ H]]%lookup_insert_Some; [done|]. by apply H5 with t0.
  - intros t1 t2 c1 c2 tok [[<- <-]|[_ Hc1]]%lookup_insert_Some [[<- <-]|[_ Hc2]]%lookup_insert_Some; try done. by apply H6.
Qed.

Lemma sys_step_inv n st e st' : inv n st -> n + 1 < 2 ^ 64 -> sys_step st e = Some st' -> inv (n + 1) st'.
Proof.
  intros Hinv Hn E. pose proof (inv_store _ _ Hinv) as Hi.
  destruct (sys_step_moved n st e st' Hinv E) as [t i a _ Ht Hm ->|t c m m' pc' Hc Hm Hst _ _|t c k b s _ _ _ _ Hw ->|b s _ _ Hw ->| ->].
  - apply (inv_weaken n); [by apply inv_call|lia].
  - by apply (inv_stepped n st st' t c m m' pc').
  - apply Fence_checked in Hw as [Hs _]; [|done]. apply (inv_weaken n); [|lia]. by apply inv_add_log, inv_set_store.
  - apply be_WriteBatch_Ok in Hw as [Hs _]; [|done]. apply (inv_weaken n); [|lia]. by apply inv_set_store.
  - apply (inv_weaken n); [done|lia].
Qed.

Lemma exec_inv es n st st' :
  inv n st -> n + Z.of_nat (length es) < 2 ^ 64 -> exec st es = Some st' -> inv (n + Z.of_nat (length es)) st'.
Proof.
  revert n st. induction es as [|e es IH]; intros n st Hinv Hn E; cbn [length] in Hn.
  - injection E as <-. by apply (inv_weaken n); [|cbn; lia].
  - cbn [exec] in E. apply bind_Some in E as (st1 & E1 & E2).
    apply sys_step_inv with (n := n) in E1; [|done|lia].
    replace (n + Z.of_nat (length (e :: es))) with (n + 1 + Z.of_nat (length es)) by (cbn [length]; lia).
    apply (IH _ st1); [done|lia|done].
Qed.

(** Fresh instances: distinct nonces, no token minted yet. *)
Definition fresh_mgrs (mgrs : gmap nat Manager) : Prop :=
  (forall i m, mgrs !! i = Some m -> length (m_nonce m) = 16%nat /\ m_seq m = 0) /\
  (forall i j mi mj, mgrs !! i = Some mi -> mgrs !! j = Some mj -> m_nonce mi = m_nonce mj -> i = j).

Lemma start_inv s mgrs : be_inv s -> fresh_mgrs mgrs -> inv 0 (start s mgrs).
Proof.
  intros Hs [H1 H2]. split; cbn; auto.
  - intros i m Hm. destruct (H1 i m Hm) as [? ->]. by split; [|lia].
  - intros t c. by rewrite lookup_empty.
  - intros t c tok. by rewrite lookup_empty.
  - intros t1 t2 c1 c2 tok. by rewrite lookup_empty.
Qed.

Lemma exec_app es1 es2 (st : State S) : exec st (es1 ++ es2) = exec st es1 ≫= fun st' => exec st' es2.
Proof.
  revert st. induction es1 as [|e es1 IH]; intros st; [done|]. cbn. destruct (sys_step st e); [apply IH|done].
Qed.
End machine.
End LeaseFacts.
