(* ===== verification/LeaseSafety.v ===== *)
(** * LeaseSafety: what a lease guards

    Fencing: whatever the clocks say and however calls interleave, a batch
    that passes its lease's fence was built on an account nobody else wrote
    since the lease was granted.  Exclusion: among store leases, a holder whose
    claim no clock has seen expire keeps it. *)

From S2P Require Import Prelude GoLib Gotime Keyenc Backend Batches Memory Jmap Keys Lease LeaseFacts.

Module LeaseSafety.
Import Keyenc Backend Batches Jmap Keys Lease LeaseFacts.

(** ** Holding a lease *)

Section safety.
Context {S : Type} `{BE : Backend S, BL : !BackendLaws S, CS : !CompareAndSwapper S, SL : !SwapperLaws S}.
Implicit Types (st : State S).

(** Call [t] holds the lease of account [a] with this claim. *)
Definition holds st (t : nat) (a : Id) (k : bytes) : Prop :=
  exists c, st_calls st !! t = Some c /\ c_account c = a /\ c_pc c = Holding k.

(** Its lease is released. *)
Definition over st (t : nat) : Prop := exists c, st_calls st !! t = Some c /\ done (c_pc c) = true.

Definition item_account (x : LogItem) : Id := match x with Acquired _ a | Committed _ a => a end.
Definition item_call (x : LogItem) : nat := match x with Acquired t _ | Committed t _ => t end.

(** A batch that writes none of the account's keys. *)
Definition batch_spares (a : Id) (b : Batch) : bool :=
  forallb (fun op => match op_writes op with Some k => negb (under a k) | None => true end) b.

(** Only commits under a lease of the account write its keys. *)
Definition spares (a : Id) (e : Event) : bool :=
  match e with
  | EvCommit _ a' b => bool_decide (a' = a) || batch_spares a b
  | EvWrite b => batch_spares a b
  | _ => true
  end.

Lemma batch_spares_key a b k : batch_spares a b = true -> under a k = true -> spares_key k b.
Proof.
  intros Hb Hk. apply Forall_forall. intros op Hop E. unfold batch_spares in Hb. rewrite forallb_forall in Hb.
  specialize (Hb op ltac:(by apply list_elem_of_In)). rewrite E, Hk in Hb. done.
Qed.

Lemma over_step n st e st' t : inv n st -> sys_step st e = Some st' -> over st t -> over st' t.
Proof.
  intros Hinv E (c & Hc & Hd).
  destruct (sys_step_moved n st e st' Hinv E) as [t' i a _ Ht Hm ->|t' c' m m' pc' Hc' Hm Hst _ Hdone|t' c' k b s _ _ _ _ _ ->|b s _ _ _ ->| ->];
    try by exists c.
  - exists c. cbn. rewrite lookup_insert_ne by congruence. done.
  - unfold over. rewrite (sp_calls _ _ _ _ _ _ _ Hst). destruct (decide (t = t')) as [-> |Hne].
    + rewrite lookup_insert_eq. eexists. split; [done|]. cbn. apply Hdone. congruence.
    + rewrite lookup_insert_ne by done. by exists c.
Qed.

(** From [st] to [st'] the log grew by entries that, for account [a], are
    commits of [t]; with none of them the account's data is what it was. *)
Definition guarded (t : nat) (a : Id) (sparing : Prop) st st' : Prop :=
  claim_of (st_store st) a = claim_of (st_store st') a /\
  exists l, st_log st' = st_log st ++ l /\ Forall (fun x => item_account x = a -> x = Committed t a) l /\
    (sparing -> Committed t a ∉ l -> forall key, under a key = true -> be_map (st_store st') !! key = be_map (st_store st) !! key).

Lemma guarded_same t a P st st' :
  be_map (st_store st') = be_map (st_store st) -> st_log st' = st_log st -> guarded t a P st st'.
Proof.
  intros Hm Hl. split; [unfold claim_of; by rewrite Hm|]. exists []. rewrite app_nil_r. split_and!; [done|constructor|].
  intros _ _ key _. by rewrite Hm.
Qed.

(** A swap of another account's claim. *)
Lemma guarded_other t a (P : Prop) st st' a' tok l :
  Valid a = true -> a' <> a -> be_map (st_store st') = <[storeClaimKey a' := Some tok]> (be_map (st_store st)) ->
  st_log st' = st_log st ++ l -> Forall (fun x => item_account x = a') l -> guarded t a P st st'.
Proof.
  intros Hv Hne Hm Hl Hx. split.
  - unfold claim_of. rewrite Hm, lookup_insert_ne; [done|]. by intros E%storeClaimKey_inj.
  - exists l. split_and!; [done| |].
    + eapply Forall_impl; [exact Hx|]. cbn. congruence.
    + intros _ _ key Hk. rewrite Hm, lookup_insert_ne; [done|]. intros <-. by rewrite claim_not_under in Hk.
Qed.

Lemma hold_step n st e st' t a k :
  inv n st -> n + 1 < 2 ^ 64 -> Valid a = true -> sys_step st e = Some st' -> holds st t a k ->
  over st' t \/ holds st' t a k /\
    (claim_of (st_store st') a = Some k -> guarded t a (spares a e = true) st st').
Proof.
  intros Hinv Hn Hv E (c & Hc & Ha & Hpc). pose proof (sys_step_inv n st e st' Hinv Hn E) as Hinv'.
  destruct (sys_step_moved n st e st' Hinv E) as [t' i a' _ Ht Hm ->|t' c' m m' pc' Hc' Hm Hst Hrel _|t' c' k' b s He Hc' Hpc' Hw Hb ->|b s He Hw Hb ->| ->].
  - right. split; [|intros _; by apply guarded_same]. exists c. cbn. rewrite lookup_insert_ne by congruence. done.
  - pose proof (sp_calls _ _ _ _ _ _ _ Hst) as Hcs. destruct (decide (t' = t)) as [-> |Hne].
    { left. unfold over. rewrite Hcs, lookup_insert_eq. eexists. split; [done|]. cbn. assert (c' = c) as -> by congruence.
      by rewrite (Hrel k Hpc). }
    right. assert (st_calls st' !! t = Some c) as Hct by (by rewrite Hcs, lookup_insert_ne).
    split; [by exists c|]. intros Hk.
    assert (forall tok, be_map (st_store st') = <[storeClaimKey a := Some tok]> (be_map (st_store st)) -> tok = k) as Htok.
    { intros tok Hms. unfold claim_of in Hk. rewrite Hms, lookup_insert_eq in Hk. by injection Hk. }
    destruct (sp_swap _ _ _ _ _ _ _ Hst) as [Hms Hl _|old tok _ Hms -> Hl _|claim tok exp _ _ Et _ Hms Hl].
    + by apply guarded_same.
    + destruct (decide (c_account c' = a)) as [Eq|Hd].
      * rewrite Eq in Hms. apply Htok in Hms as ->. destruct Hne.
        eapply (inv_dist _ _ Hinv' t' t _ c k); [by rewrite Hcs, lookup_insert_eq|done|done|by rewrite Hpc].
      * eapply guarded_other; [done..|by constructor].
    + destruct (decide (c_account c' = a)) as [Eq|Hd].
      * rewrite Eq in Hms. apply Htok in Hms as ->. destruct (fresh_token n st (c_mgr c') m exp t c); [done..|].
        rewrite Hpc. cbn [own]. f_equal. exact Et.
      * eapply (guarded_other _ _ _ _ _ _ _ []); [done..|by rewrite app_nil_r|constructor].
  - right. split; [by exists c|]. cbn. intros Hk. pose proof (inv_store _ _ Hinv) as Hi.
    destruct (Fence_checked _ _ _ _ _ Hi Hb) as [_ Hf%assert_claim].
    assert (forall key, spares_key key b -> be_map s !! key = be_map (st_store st) !! key) as Hsame.
    { intros key Hkey. apply (WriteBatch_spares _ _ _ _ Hi Hb). by apply Fence_spares. }
    assert (claim_of s a = claim_of (st_store st) a) as Hcl.
    { unfold claim_of. f_equal. apply Hsame. by apply writes_claim_spares. }
    split; [done|]. exists [Committed t' (c_account c')]. cbn. split_and!; [done| |].
    + constructor; [|constructor]. cbn. intros Eq. rewrite Eq in *.
      assert (k' = k) as -> by congruence. f_equal.
      by eapply (inv_dist _ _ Hinv t' t c' c k); [..|by rewrite Hpc'|by rewrite Hpc].
    + rewrite He. cbn. intros Hsp Hni key Hkey. apply Hsame. apply orb_true_iff in Hsp as [Eq%bool_decide_eq_true|Hsp].
      * destruct Hni. apply list_elem_of_singleton. rewrite Eq in *. assert (k' = k) as -> by congruence. f_equal.
        by eapply (inv_dist _ _ Hinv t t' c c' k); [..|by rewrite Hpc|by rewrite Hpc'].
      * by apply (batch_spares_key a).
  - right. split; [by exists c|]. cbn. intros Hk. pose proof (inv_store _ _ Hinv) as Hi.
    split; [unfold claim_of; f_equal; symmetry; by apply (WriteBatch_spares _ _ _ _ Hi Hb), writes_claim_spares|].
    exists []. cbn. rewrite app_nil_r. split_and!; [done|constructor|]. rewrite He. cbn. intros Hsp _ key Hkey.
    apply (WriteBatch_spares _ _ _ _ Hi Hb). by apply (batch_spares_key a).
  - right. split; [by exists c|]. intros _. by apply guarded_same.
Qed.

Lemma over_exec es n st st' t :
  inv n st -> n + Z.of_nat (length es) < 2 ^ 64 -> exec st es = Some st' -> over st t -> over st' t.
Proof.
  revert n st. induction es as [|e es IH]; intros n st Hinv Hn E Ho; cbn [length] in Hn; [by injection E as <-|].
  cbn [exec] in E. apply bind_Some in E as (st1 & E1 & E2).
  apply (IH (n + 1) st1); [apply (sys_step_inv n st e); auto; lia|lia|done|]. by apply (over_step n st e).
Qed.

Lemma guarded_trans t a P Q st st1 st2 :
  guarded t a P st st1 -> guarded t a Q st1 st2 -> guarded t a (P /\ Q) st st2.
Proof.
  intros (Hc1 & l1 & Hl1 & Hx1 & Hd1) (Hc2 & l2 & Hl2 & Hx2 & Hd2). split; [congruence|].
  exists (l1 ++ l2). rewrite Hl2, Hl1, app_assoc. split_and!; [done|by apply Forall_app|].
  intros [HP HQ] Hni key Hk. rewrite not_elem_of_app in Hni. destruct Hni. rewrite Hd2, Hd1; auto.
Qed.

Lemma guarded_impl t a (P Q : Prop) st st' : (Q -> P) -> guarded t a P st st' -> guarded t a Q st st'.
Proof. intros HQ (Hc & l & Hl & Hx & Hd). split; [done|]. exists l. auto. Qed.

(** While the lease is held and its claim stands at the end, it stood all
    along, and nobody else wrote the account. *)
Lemma hold_exec es n st st' t a k :
  inv n st -> n + Z.of_nat (length es) < 2 ^ 64 -> Valid a = true -> exec st es = Some st' ->
  holds st t a k -> holds st' t a k -> claim_of (st_store st') a = Some k ->
  guarded t a (Forall (fun e => spares a e = true) es) st st'.
Proof.
  revert n st. induction es as [|e es IH]; intros n st Hinv Hn Hv E Hh Hh' Hk; cbn [length] in Hn.
  { injection E as <-. by apply guarded_same. }
  cbn [exec] in E. apply bind_Some in E as (st1 & E1 & E2).
  assert (inv (n + 1) st1) as Hinv1 by (apply (sys_step_inv n st e); auto; lia).
  destruct (hold_step n st e st1 t a k) as [Ho|[Hh1 Hg]]; [done|lia|done..| |].
  - destruct (over_exec es (n + 1) st1 st' t Hinv1 ltac:(lia) E2 Ho) as (c & Hc & Hd).
    destruct Hh' as (c' & Hc' & _ & Hpc). assert (c' = c) as -> by congruence. by rewrite Hpc in Hd.
  - pose proof (IH (n + 1) st1 Hinv1 ltac:(lia) Hv E2 Hh1 Hh' Hk) as Hg2.
    assert (claim_of (st_store st1) a = Some k) as Hk1 by (destruct Hg2 as [-> _]; done).
    eapply guarded_impl; [|exact (guarded_trans _ _ _ _ _ _ _ (Hg Hk1) Hg2)].
    intros Hf. split; [exact (Forall_inv Hf)|exact (Forall_inv_tail Hf)].
Qed.

Lemma exec_one st e st' : exec st [e] = Some st' -> sys_step st e = Some st'.
Proof. cbn [exec]. intros E. by apply bind_Some in E as (st1 & -> & [= ->]). Qed.

Lemma hold_or_over es n st st' t a k :
  inv n st -> n + Z.of_nat (length es) < 2 ^ 64 -> Valid a = true -> exec st es = Some st' ->
  holds st t a k -> over st' t \/ holds st' t a k.
Proof.
  revert n st. induction es as [|e es IH]; intros n st Hinv Hn Hv E Hh; cbn [length] in Hn; [injection E as <-; auto|].
  cbn [exec] in E. apply bind_Some in E as (st1 & E1 & E2).
  assert (inv (n + 1) st1) as Hinv1 by (apply (sys_step_inv n st e); auto; lia).
  destruct (hold_step n st e st1 t a k) as [Ho|[Hh1 _]]; [done|lia|done..| |].
  - left. by apply (over_exec es (n + 1) st1); [|lia|..].
  - by apply (IH (n + 1) st1); [|lia|..].
Qed.

(** A commit that was applied: the lease was held and its claim stood. *)
Lemma committed_fence n st t a b st' :
  inv n st -> sys_step st (EvCommit t a b) = Some st' -> st_log st' <> st_log st ->
  exists k, holds st t a k /\ claim_of (st_store st) a = Some k.
Proof.
  intros Hinv E Hl. cbn [sys_step] in E. apply bind_Some in E as (c & Hc & E). destruct (c_pc c) eqn:Hpc; try done.
  case_bool_decide as Ha; [|done]. cbn in E. destruct (writes_claim b); [done|].
  destruct (be_WriteBatch _ _) as [s|] eqn:Ew; injection E as <-; [|done].
  eexists. split; [by exists c|]. apply assert_claim. by apply (Fence_checked _ _ _ _ _ (inv_store _ _ Hinv) Ew).
Qed.

(** ** Exclusion by expiry *)

Definition all_store (mgrs : gmap nat Manager) : Prop :=
  forall i m, mgrs !! i = Some m -> exists expiry poll, m_policy m = StorePolicy expiry poll.

(** Every clock reading of a step is before [T]. *)
Definition before (T : Z) (e : Event) : bool := match e with EvRun _ now _ _ => now <? T | _ => true end.

(** A claim not expired by [T]. *)
Definition valid_at (T : Z) (k : bytes) : bool :=
  match parseClaimExpiry (Some k) with Some exp => T <=? exp | None => false end.

Record excl (T : Z) st : Prop := {
  ex_store : all_store (st_mgrs st);
  ex_read : forall t c old claim at_, st_calls st !! t = Some c -> c_pc c = Swapping old claim at_ -> at_ < T;
  ex_hold : forall t a k, holds st t a k -> valid_at T k = true -> claim_of (st_store st) a = Some k;
}.

(** A call gets to its swap by a reading of the clock. *)
Lemma swapping_now st e st' t c old claim at_ n :
  inv n st -> sys_step st e = Some st' -> st_calls st' !! t = Some c -> c_pc c = Swapping old claim at_ ->
  (exists c0, st_calls st !! t = Some c0 /\ c_pc c0 = Swapping old claim at_) \/ exists now' jitter, e = EvRun t at_ now' jitter.
Proof.
  intros Hinv E Hc Hpc.
  assert (forall st1 c1 t1 pc1, (forall o cl x, pc1 <> Swapping o cl x) -> st_calls st1 = st_calls st ->
            st_calls (set_pc st1 t1 c1 pc1) !! t = Some c -> exists c0, st_calls st !! t = Some c0 /\ c_pc c0 = Swapping old claim at_) as Hset.
  { intros st1 c1 t1 pc1 Hne Hcs H. cbn in H. rewrite Hcs in H. apply lookup_insert_Some in H as [[<- <-]|[_ H]]; [|eauto].
    cbn in Hpc. by destruct (Hne old claim at_). }
  destruct e as [t' i a|t' now now' j|t'|t' a b|t' now|b]; cbn [sys_step] in E.
  - repeat case_match; try done. injection E as <-. left. by eapply Hset; [| |exact Hc].
  - apply bind_Some in E as (c' & Hc' & E). apply bind_Some in E as (m & Hm & E). unfold run_call in E.
    destruct (c_pc c') as [| | |claim'|claim'|d|old' claim' at'|claim'| |] eqn:Hpc'; try done.
    + case_match; [|done]. injection E as <-. left. unfold locked in Hc. repeat case_match; by eapply Hset; [| |exact Hc].
    + case_match; [|done]. injection E as <-. left. by eapply Hset; [| |exact Hc].
    + injection E as <-. left. by eapply Hset; [| |exact Hc].
    + injection E as <-. left. unfold fast_swap, granted in Hc. repeat case_match; by eapply Hset; [| |exact Hc].
    + injection E as <-. unfold read_claim in Hc. repeat case_match;
        try (left; by eapply Hset; [| |exact Hc]); cbn in Hc;
        (apply lookup_insert_Some in Hc as [[<- <-]|[_ Hc]]; [|by left; exists c]);
        cbn in Hpc; injection Hpc as _ _ <-; right; eauto.
    + injection E as <-. left. by eapply Hset; [| |exact Hc].
    + injection E as <-. left. unfold swap_claim, granted in Hc. repeat case_match; by eapply Hset; [| |exact Hc].
    + injection E as <-. left. by eapply Hset; [| |exact Hc].
  - apply bind_Some in E as (c' & Hc' & E). unfold cancel_call in E.
    left. destruct (c_pc c'); try done; injection E as <-; by eapply Hset; [| |exact Hc].
  - apply bind_Some in E as (c' & Hc' & E). left. repeat case_match; try done; injection E as <-; by exists c.
  - apply bind_Some in E as (c' & Hc' & E). apply bind_Some in E as (m & Hm & E). left.
    destruct (c_pc c'); try done. injection E as <-. unfold Release in Hc. repeat case_match; by eapply Hset; [| |exact Hc].
  - left. repeat case_match; try done; injection E as <-; by exists c.
Qed.

Lemma all_store_step n st e st' : inv n st -> sys_step st e = Some st' -> all_store (st_mgrs st) -> all_store (st_mgrs st').
Proof.
  intros Hinv E Hall.
  destruct (sys_step_moved n st e st' Hinv E) as [t i a _ Ht Hm ->|t c m m' pc' Hc Hm Hst _ _|t c k b s _ _ _ _ _ ->|b s _ _ _ ->| ->]; try done.
  rewrite (sp_mgrs _ _ _ _ _ _ _ Hst). destruct (sp_tokens _ _ _ _ _ _ _ Hst) as (_ & Hp & _).
  intros i m0 [[<- <-]|[_ H]]%lookup_insert_Some; [|eauto]. rewrite Hp. eauto.
Qed.

(** No store lease takes a claim over that is valid past every reading. *)
Lemma no_takeover n T st st' t c m m' pc' a k tok old :
  inv n st -> excl T st -> st_calls st !! t = Some c -> st_mgrs st !! c_mgr c = Some m ->
  claim_of (st_store st) a = Some k -> valid_at T k = true ->
  assert_ok (be_map (st_store st)) (OpAssert (storeClaimKey (c_account c)) old) = true ->
  stepped st st' t c m m' pc' ->
  (match c_pc c with
   | FastSwap claim => claim = tok /\ old = al_token (lock_at m (c_account c))
   | Swapping old' _ _ => old' = old
   | _ => False
   end) -> c_account c <> a.
Proof.
  intros Hinv Hex Hc Hm Hk Hv Ha Hst Hpc <-.
  destruct (inv_mgr _ _ Hinv t c Hc) as (m0 & Hm0 & Hok). assert (m0 = m) as -> by congruence.
  destruct (ex_store _ _ Hex _ _ Hm) as (ex & po & Hpol). rewrite Hpol in Hok.
  destruct (c_pc c) as [| | |claim|claim|d|old' claim at_|claim| |] eqn:Epc; try done. cbn in Hok. destruct Hok as [_ Hl]. subst old'.
  pose proof (ex_read _ _ Hex t c old claim at_ Hc Epc) as Hat.
  destruct old as [o|].
  - apply assert_claim in Ha. assert (o = k) as -> by congruence.
    unfold claim_live in Hl. unfold valid_at in Hv. destruct (parseClaimExpiry (Some k)); [lia|done].
  - cbn [assert_ok] in Ha. unfold claim_of in Hk. by destruct (be_map (st_store st) !! storeClaimKey (c_account c)).
Qed.

Lemma excl_step n T st e st' :
  inv n st -> n + 1 < 2 ^ 64 -> before T e = true -> sys_step st e = Some st' -> excl T st -> excl T st'.
Proof.
  intros Hinv Hn Hb E Hex. pose proof (inv_store _ _ Hinv) as Hi. split.
  - exact (all_store_step n st e st' Hinv E (ex_store _ _ Hex)).
  - intros t c old claim at_ Hc Hpc.
    destruct (swapping_now st e st' t c old claim at_ n Hinv E Hc Hpc) as [(c0 & H1 & H2)|(now' & j & ->)].
    + by apply (ex_read _ _ Hex t c0 old claim).
    + cbn in Hb. lia.
  - intros t a k (c & Hc & Ha & Hpc) Hv.
    destruct (sys_step_moved n st e st' Hinv E) as [t' i a' _ Ht Hm ->|t' c' m m' pc' Hc' Hm Hst Hrel _|t' c' k' b s _ _ _ Hw Hwb ->|b s _ Hw Hwb ->| ->].
    + cbn in *. apply lookup_insert_Some in Hc as [[<- <-]|[_ Hc]]; [done|].
      apply (ex_hold _ _ Hex t a k); [by exists c|done].
    + rewrite (sp_calls _ _ _ _ _ _ _ Hst) in Hc. apply lookup_insert_Some in Hc as [[<- <-]|[Hne Hc]].
      * cbn in *. subst. destruct (sp_swap _ _ _ _ _ _ _ Hst) as [_ _ Hno|old tok _ Hms [= ->] _ _|]; [by destruct (Hno k)| |done].
        unfold claim_of. by rewrite Hms, lookup_insert_eq.
      * assert (claim_of (st_store st) a = Some k) as Hk by (apply (ex_hold _ _ Hex t); [by exists c|done]).
        destruct (sp_swap _ _ _ _ _ _ _ Hst) as [Hms _ _|old tok Hao Hms _ _ Hpc'|claim tok exp Hpc' _ _ Hcl Hms _].
        -- unfold claim_of in *. by rewrite Hms.
        -- unfold claim_of. rewrite Hms, lookup_insert_ne; [done|]. intros Eq%storeClaimKey_inj. revert Eq.
           by apply (no_takeover n T st st' t' c' m m' pc' a k tok old).
        -- unfold claim_of. rewrite Hms, lookup_insert_ne; [done|]. intros Eq%storeClaimKey_inj. rewrite Eq in Hcl.
           assert (claim = k) as -> by congruence. destruct Hne.
           by eapply (inv_dist _ _ Hinv t' t c' c k); [..|by rewrite Hpc'|by rewrite Hpc].
    + cbn in *. transitivity (claim_of (st_store st) a); [|by apply (ex_hold _ _ Hex t a k); [by exists c|]].
      unfold claim_of. f_equal. apply (WriteBatch_spares _ _ _ _ Hi Hwb). by apply Fence_spares, writes_claim_spares.
    + cbn in *. transitivity (claim_of (st_store st) a); [|by apply (ex_hold _ _ Hex t a k); [by exists c|]].
      unfold claim_of. f_equal. apply (WriteBatch_spares _ _ _ _ Hi Hwb). by apply writes_claim_spares.
    + apply (ex_hold _ _ Hex t a k); [by exists c|done].
Qed.

Lemma excl_exec es n T st st' :
  inv n st -> n + Z.of_nat (length es) < 2 ^ 64 -> Forall (fun e => before T e = true) es ->
  exec st es = Some st' -> excl T st -> excl T st'.
Proof.
  revert n st. induction es as [|e es IH]; intros n st Hinv Hn Hb E Hex; cbn [length] in Hn; [by injection E as <-|].
  cbn [exec] in E. apply bind_Some in E as (st1 & E1 & E2). inversion Hb as [|? ? Hb1 Hb2]; subst.
  apply (IH (n + 1) st1); [apply (sys_step_inv n st e); auto; lia|lia|done|done|].
  apply (excl_step n T st e); auto. lia.
Qed.
End safety.

(** ** Properties *)

(** C7: fencing makes a commit's reads valid.  Any number of store-lease and
    in-process managers share a store; their calls, cancellations, releases and
    commits interleave at every lock, clock and store operation, with arbitrary
    clock readings.  If a call holds an account's lease and a later batch of it
    is applied, then since that moment every lease grant and every applied
    batch of the account was the call's own, and - unless it committed itself -
    every key of the account still has the value it had then. *)
Theorem lease_snapshot {S : Type} `{BE : Backend S, BL : !BackendLaws S, CS : !CompareAndSwapper S, SL : !SwapperLaws S}
  (s : S) (mgrs : gmap nat Manager) (es0 es : list Event) (st1 st2 st3 : State S) (t : nat) (a : Id) (k : bytes) (b : Batch)
  (Hs : be_inv s) (Hm : fresh_mgrs mgrs) (Ha : Valid a = true)
  (Hn : Z.of_nat (length es0) + Z.of_nat (length es) < 2 ^ 64)
  (E1 : exec (start s mgrs) es0 = Some st1) (Hh : holds st1 t a k)
  (E2 : exec st1 es = Some st2) (Hsp : Forall (fun e => spares a e = true) es)
  (E3 : sys_step st2 (EvCommit t a b) = Some st3) (Hc : st_log st3 <> st_log st2) :
  exists l, st_log st2 = st_log st1 ++ l /\ Forall (fun x => item_account x = a -> x = Committed t a) l /\
    (Committed t a ∉ l ->
     forall key, under a key = true -> be_map (st_store st2) !! key = be_map (st_store st1) !! key).
Proof.
  pose proof (start_inv s mgrs Hs Hm) as H0.
  assert (inv (0 + Z.of_nat (length es0)) st1) as H1 by (apply (exec_inv es0 0 (start s mgrs)); [done|lia|done]).
  assert (inv (0 + Z.of_nat (length es0) + Z.of_nat (length es)) st2) as H2 by (apply (exec_inv es _ st1); [done|lia|done]).
  destruct (committed_fence _ _ _ _ _ _ H2 E3 Hc) as (k' & Hh' & Hk').
  destruct (hold_or_over es _ st1 st2 t a k H1 ltac:(lia) Ha E2 Hh) as [(c & Hct & Hd)|Hh2].
  { destruct Hh' as (c' & Hc' & _ & Hpc). assert (c' = c) as -> by congruence. by rewrite Hpc in Hd. }
  assert (k' = k) as ->.
  { destruct Hh' as (c' & Hc' & _ & Hpc'), Hh2 as (c & Hc2 & _ & Hpc2). congruence. }
  destruct (hold_exec es _ st1 st2 t a k H1 ltac:(lia) Ha E2 Hh Hh2 Hk') as (_ & l & Hl & Hx & Hd).
  exists l. auto.
Qed.

(** ** Examples over the in-memory engine, which has no swap of its own *)

#[local] Existing Instances Memory.memory_backend Memory.memory_laws.
#[local] Instance no_swap : CompareAndSwapper Memory.Store := None.
#[local] Instance no_swap_laws : SwapperLaws Memory.Store.
Proof. intros swap s key e v s' sw [=]. Qed.

Definition demo_mgrs : gmap nat Manager :=
  {[ 0%nat := NewStoreLease 0 0 (bs "instance"); 1%nat := NewStoreLease 0 0 (bs "Instance") ]}.

Lemma demo_fresh : fresh_mgrs demo_mgrs.
Proof.
  assert (forall i m, demo_mgrs !! i = Some m ->
            i = 0%nat /\ m = NewStoreLease 0 0 (bs "instance") \/ i = 1%nat /\ m = NewStoreLease 0 0 (bs "Instance")) as Hm.
  { intros i m. unfold demo_mgrs. intros [[<- <-]|[_ [<- <-]%lookup_singleton_Some]]%lookup_insert_Some; auto. }
  split.
  - intros i m [[-> ->]|[-> ->]]%Hm; done.
  - intros i j mi mj [[-> ->]|[-> ->]]%Hm [[-> ->]|[-> ->]]%Hm E; try done; by vm_compute in E.
Qed.

Definition at_time (t : Z) : Z := (1700000000 + t) * Second.

(** A call's mutex, read and swap with nothing in the way. *)
Definition acquires (t mgr : nat) (a : Id) (now : Z) : list Event :=
  EvCall t mgr a :: replicate 3 (EvRun t now now 0).

Definition run_demo (st : State Memory.Store) (es : list Event) : State Memory.Store := default st (exec st es).
Lemma run_demo_eq (st : State Memory.Store) (es : list Event) : bool_decide (is_Some (exec st es)) = true -> exec st es = Some (run_demo st es).
Proof. intros [st' E]%bool_decide_eq_true. unfold run_demo. by rewrite E. Qed.

Definition claim_held (st : State Memory.Store) (t : nat) : bytes :=
  match st_calls st !! t with Some c => match c_pc c with Holding k => k | _ => [] end | None => [] end.

Lemma claim_held_holds (st : State Memory.Store) (t : nat) (a : Id) (k : bytes) :
  bool_decide (c_account <$> st_calls st !! t = Some a) && match c_pc <$> st_calls st !! t with Some (Holding k') => bool_decide (k' = k) | _ => false end = true ->
  holds st t a k.
Proof.
  intros [E%bool_decide_eq_true Hk]%andb_true_iff. destruct (st_calls st !! t) as [c|] eqn:Hc; [|done]. cbn in *.
  injection E as E. destruct (c_pc c) eqn:Hpc; try done. apply bool_decide_eq_true in Hk as ->. by exists c.
Qed.

Lemma lease_snapshot_witness :
  let a := bs "A1" in
  let st1 := run_demo (start (Memory.New []) demo_mgrs) (acquires 1 0 a (at_time 0)) in
  let es := acquires 2 1 (bs "B1") (at_time 1) ++ [EvCommit 2 (bs "B1") [OpSet (Key [bs "B1"; bs "x"]) None]; EvWrite [OpSet (bs "misc") None]] in
  let st2 := run_demo st1 es in
  exists l, st_log st2 = st_log st1 ++ l /\
    (Committed 1 a ∉ l -> forall key, under a key = true -> be_map (st_store st2) !! key = be_map (st_store st1) !! key).
Proof.
  cbv zeta. set (st1 := run_demo (start _ _) _). set (es := acquires 2 _ _ _ ++ _).
  assert (exec (start (Memory.New []) demo_mgrs) (acquires 1 0 (bs "A1") (at_time 0)) = Some st1) as E1 by (apply run_demo_eq; vm_compute; reflexivity).
  assert (exec st1 es = Some (run_demo st1 es)) as E2 by (apply run_demo_eq; vm_compute; reflexivity).
  set (st3 := run_demo (run_demo st1 es) [EvCommit 1 (bs "A1") [OpSet (Key [bs "A1"; bs "x"]) None]]).
  assert (sys_step (run_demo st1 es) (EvCommit 1 (bs "A1") [OpSet (Key [bs "A1"; bs "x"]) None]) = Some st3) as E3.
  { assert (exec (run_demo st1 es) [EvCommit 1 (bs "A1") [OpSet (Key [bs "A1"; bs "x"]) None]] = Some st3) as E
      by (apply run_demo_eq; vm_compute; reflexivity).
    exact (exec_one _ _ _ E). }
  destruct (lease_snapshot (Memory.New []) demo_mgrs (acquires 1 0 (bs "A1") (at_time 0)) es st1 (run_demo st1 es) st3
              1 (bs "A1") (claim_held st1 1) [OpSet (Key [bs "A1"; bs "x"]) None]) as (l & Hl & _ & Hd).
  - apply Memory.empty_inv.
  - apply demo_fresh.
  - vm_compute. reflexivity.
  - vm_compute. reflexivity.
  - exact E1.
  - apply claim_held_holds. vm_compute. reflexivity.
  - exact E2.
  - repeat constructor.
  - exact E3.
  - vm_compute. discriminate.
  - exists l. split; [exact Hl|exact Hd].
Defined.

(** C22: store leases exclude each other.  With only store-lease managers, as long
    as no clock has read a time at or past [T], two calls that hold leases of one
    account with deadlines at or after [T] are the same call with the same
    claim, and that claim is the one in the store, so its fence holds. *)
Theorem lease_exclusive {S : Type} `{BE : Backend S, BL : !BackendLaws S, CS : !CompareAndSwapper S, SL : !SwapperLaws S}
  (s : S) (mgrs : gmap nat Manager) (es : list Event) (st : State S) (T : Z) (a : Id) (t1 t2 : nat) (k1 k2 : bytes)
  (Hs : be_inv s) (Hm : fresh_mgrs mgrs) (Hall : all_store mgrs) (Hn : Z.of_nat (length es) < 2 ^ 64)
  (E : exec (start s mgrs) es = Some st) (HT : Forall (fun e => before T e = true) es)
  (H1 : holds st t1 a k1) (H2 : holds st t2 a k2) (V1 : valid_at T k1 = true) (V2 : valid_at T k2 = true) :
  t1 = t2 /\ k1 = k2 /\ assert_ok (be_map (st_store st)) (OpAssert (storeClaimKey a) (Some k1)) = true.
Proof.
  pose proof (start_inv s mgrs Hs Hm) as H0.
  assert (inv (0 + Z.of_nat (length es)) st) as Hi by (apply (exec_inv es 0 (start s mgrs)); [done|lia|done]).
  assert (excl T st) as Hex.
  { apply (excl_exec es 0 T (start s mgrs)); [done|lia|done|done|]. split; [done|..].
    - intros t c old claim at_ Hc. cbn in Hc. by rewrite lookup_empty in Hc.
    - intros t a' k (c & Hc & _). cbn in Hc. by rewrite lookup_empty in Hc. }
  pose proof (ex_hold _ _ Hex t1 a k1 H1 V1) as C1. pose proof (ex_hold _ _ Hex t2 a k2 H2 V2) as C2.
  assert (k1 = k2) as -> by congruence. split; [|split; [done|by apply assert_claim]].
  destruct H1 as (c1 & Hc1 & _ & P1), H2 as (c2 & Hc2 & _ & P2).
  by eapply (inv_dist _ _ Hi t1 t2 c1 c2 k2); [..|by rewrite P1|by rewrite P2].
Qed.
Lemma lease_exclusive_witness :
  let es := acquires 1 0 (bs "A1") (at_time 0) ++ acquires 2 1 (bs "A1") (at_time 5) in
  let st := run_demo (start (Memory.New []) demo_mgrs) es in
  holds st 1 (bs "A1") (claim_held st 1) /\ c_pc <$> st_calls st !! 2%nat = Some (Reading None) /\
  assert_ok (be_map (st_store st)) (OpAssert (storeClaimKey (bs "A1")) (Some (claim_held st 1))) = true.
Proof.
  cbv zeta. set (es := acquires 1 _ _ _ ++ _). set (st := run_demo _ es).
  assert (exec (start (Memory.New []) demo_mgrs) es = Some st) as E by (apply run_demo_eq; vm_compute; reflexivity).
  assert (holds st 1 (bs "A1") (claim_held st 1)) as Hh by (apply claim_held_holds; vm_compute; reflexivity).
  split; [exact Hh|]. split; [vm_compute; reflexivity|].
  refine (proj2 (proj2 (lease_exclusive (Memory.New []) demo_mgrs es st (at_time 15) (bs "A1") 1 1 _ _ Memory.empty_inv demo_fresh _ _ E _ Hh Hh _ _))).
  - intros i m. unfold demo_mgrs. intros [[<- <-]|[_ [<- <-]%lookup_singleton_Some]]%lookup_insert_Some; eexists _, _; reflexivity.
  - vm_compute. reflexivity.
  - repeat constructor.
  - vm_compute. reflexivity.
  - vm_compute. reflexivity.
Defined.
End LeaseSafety.
