(* ===== verification/LeaseSole.v ===== *)
(** * LeaseSole: the in-process manager as the only writer of a store

    What [InProcess] assumes: no other process writes the claims.  Then its
    warning is never raised, its leases never lose their fence, and the mutex
    alone keeps the leases of an account apart. *)

From S2P Require Import Prelude GoLib Gotime Keyenc Backend Batches Memory Jmap Keys Lease LeaseFacts LeaseSafety.

Module LeaseSole.
Import Keyenc Backend Batches Jmap Keys Lease LeaseFacts LeaseSafety.

Section sole.
Context {S : Type} `{BE : Backend S, BL : !BackendLaws S, CS : !CompareAndSwapper S, SL : !SwapperLaws S}.
Implicit Types (st : State S).

(** Between taking the mutex and giving it back. *)
Definition crit (pc : Pc) : bool := match pc with Locking | Abandoned | Finished => false | _ => true end.

Definition claim_value st (a : Id) : option slice := be_map (st_store st) !! storeClaimKey a.

Definition call_ok st (m : Manager) (t : nat) (a : Id) (pc : Pc) : Prop :=
  (crit pc = true -> al_mu (lock_at m a) = Some t) /\
  match pc with
  | FastSwap _ => al_token (lock_at m a) <> None
  | Reading claim => claim <> None
  | Waiting _ => False
  | Swapping old claim _ => mjoin (claim_value st a) = old /\ claim <> None
  | Holding k => al_token (lock_at m a) = Some k
  | _ => True
  end.

Record sole (i : nat) st (m : Manager) : Prop := {
  so_mgrs : st_mgrs st = {[ i := m ]};
  so_policy : m_policy m = InProcessPolicy;
  so_quiet : st_warned st = [];
  so_value : forall a, claim_value st a <> Some None;
  so_token : forall a k, al_token (lock_at m a) = Some k -> claim_value st a = Some (Some k);
  so_calls : forall t c, st_calls st !! t = Some c -> c_mgr c = i /\ call_ok st m t (c_account c) (c_pc c);
}.

Lemma call_ok_idle st m t a pc : crit pc = false -> call_ok st m t a pc.
Proof. intros H. split; [congruence|]. by destruct pc. Qed.

(** A step of the call that has, or gets, the mutex leaves the others be. *)
Lemma sole_update i st st' m m' t c pc' :
  sole i st m -> st_calls st !! t = Some c ->
  (crit (c_pc c) = true \/ al_mu (lock_at m (c_account c)) = None) ->
  st_calls st' = <[t := mkCall (c_mgr c) (c_account c) pc']> (st_calls st) ->
  st_mgrs st' = <[c_mgr c := m']> (st_mgrs st) -> m_policy m' = m_policy m -> st_warned st' = [] ->
  (forall a, a <> c_account c -> lock_at m' a = lock_at m a /\ claim_value st' a = claim_value st a) ->
  claim_value st' (c_account c) <> Some None ->
  (forall k, al_token (lock_at m' (c_account c)) = Some k -> claim_value st' (c_account c) = Some (Some k)) ->
  call_ok st' m' t (c_account c) pc' -> sole i st' m'.
Proof.
  intros [Hm Hp Hq Hv Ht Hcs] Hc Hmu Ecs Ems Epol Ew Hoth Hva Hta Hok. destruct (Hcs t c Hc) as [Hi Hok0].
  split.
  - rewrite Ems, Hm, Hi. by rewrite insert_singleton_eq.
  - congruence.
  - done.
  - intros a. destruct (decide (a = c_account c)) as [-> |Hne]; [done|]. destruct (Hoth a Hne) as [_ ->]. apply Hv.
  - intros a k. destruct (decide (a = c_account c)) as [-> |Hne]; [apply Hta|]. destruct (Hoth a Hne) as [-> ->]. apply Ht.
  - intros t2 c2. rewrite Ecs. intros [[<- <-]|[Hne H2]]%lookup_insert_Some; [by split|].
    destruct (Hcs t2 c2 H2) as [Hi2 Hok2]. split; [done|].
    destruct (decide (c_account c2 = c_account c)) as [Eq|Hna].
    + apply call_ok_idle. destruct (crit (c_pc c2)) eqn:E2; [|done]. destruct Hok2 as [Hmu2 _]. specialize (Hmu2 E2). rewrite Eq in Hmu2.
      destruct Hmu as [Hcr|Hmu]; [|congruence]. destruct Hok0 as [H0 _]. rewrite (H0 Hcr) in Hmu2. congruence.
    + destruct (Hoth _ Hna) as [El Ev]. destruct Hok2 as [H1 H3]. split; [by rewrite El|].
      destruct (c_pc c2); rewrite ?El, ?Ev; done.
Qed.

Lemma lock_at_set m a al a' : lock_at (set_lock m a al) a' = if decide (a' = a) then al else lock_at m a'.
Proof.
  unfold lock_at, set_lock. cbn. case_decide as E; [subst; by rewrite lookup_insert_eq|by rewrite lookup_insert_ne].
Qed.

Lemma lock_at_same m a al : lock_at (set_lock m a al) a = al.
Proof. rewrite lock_at_set. by rewrite decide_True. Qed.
Lemma lock_at_other m a al a' : a' <> a -> lock_at (set_lock m a al) a' = lock_at m a'.
Proof. intros H. rewrite lock_at_set. by rewrite decide_False. Qed.

Lemma claim_value_other st s a a' tok :
  be_map s = <[storeClaimKey a := Some tok]> (be_map (st_store st)) -> a' <> a ->
  be_map s !! storeClaimKey a' = claim_value st a'.
Proof. intros -> Hne. unfold claim_value. rewrite lookup_insert_ne; [done|]. by intros <-%storeClaimKey_inj. Qed.

(** The lease is granted: store and cached token agree. *)
Lemma sole_granted i st m t c s claim :
  sole i st m -> st_calls st !! t = Some c -> st_mgrs st !! c_mgr c = Some m -> crit (c_pc c) = true ->
  be_map s = <[storeClaimKey (c_account c) := Some claim]> (be_map (st_store st)) ->
  exists m', sole i (granted st t c m s claim) m'.
Proof.
  intros Hso Hc Hm Hcr Hs. unfold granted. rewrite (so_policy _ _ _ Hso).
  assert (al_mu (lock_at m (c_account c)) = Some t) as Hmu by (by apply (so_calls _ _ _ Hso t c Hc)).
  exists (set_token m (c_account c) claim). unfold set_token.
  eapply (sole_update i st _ m _ t c (Holding claim)); [done|done|by left|done|done|done|apply Hso|..].
  - intros a Hne. split; [by apply lock_at_other|]. by apply (claim_value_other st s (c_account c) a claim).
  - unfold claim_value. cbn. rewrite Hs, lookup_insert_eq. done.
  - intros k. rewrite lock_at_same. cbn. intros [= ->]. unfold claim_value. cbn. by rewrite Hs, lookup_insert_eq.
  - split; [|by rewrite lock_at_same]. intros _. rewrite lock_at_same. cbn. done.
Qed.

(** Moves that change neither the store nor a cached token. *)
Lemma sole_move i st m m' t c pc' :
  sole i st m -> st_calls st !! t = Some c ->
  (crit (c_pc c) = true \/ al_mu (lock_at m (c_account c)) = None) ->
  m_policy m' = m_policy m -> (forall a, a <> c_account c -> lock_at m' a = lock_at m a) ->
  al_token (lock_at m' (c_account c)) = al_token (lock_at m (c_account c)) ->
  call_ok st m' t (c_account c) pc' -> sole i (set_pc (set_mgr st (c_mgr c) m') t c pc') m'.
Proof.
  intros Hso Hc Hmu Hp Hoth Htok Hok. eapply (sole_update i st _ m m' t c pc'); [done..|apply Hso| | | |].
  - intros a Hne. split; [by apply Hoth|done].
  - apply Hso.
  - intros k. rewrite Htok. apply Hso.
  - destruct Hok as [H1 H2]. by split.
Qed.

(** The claim a call read is the claim it swaps. *)
Lemma value_assert st a : claim_value st a <> Some None ->
  assert_ok (be_map (st_store st)) (OpAssert (storeClaimKey a) (mjoin (claim_value st a))) = true.
Proof.
  unfold claim_value. cbn [assert_ok]. destruct (be_map (st_store st) !! storeClaimKey a) as [[v|]|]; cbn; [|done|done].
  intros _. by apply bool_decide_eq_true_2.
Qed.

Lemma sole_run i st m t c now now' jitter st' :
  be_inv (st_store st) -> sole i st m -> st_calls st !! t = Some c -> st_mgrs st !! c_mgr c = Some m ->
  run_call st t c m now now' jitter = Some st' -> exists m', sole i st' m'.
Proof.
  intros Hi Hso Hc Hm E. destruct (so_calls _ _ _ Hso t c Hc) as [Hci [Hmu Hpc]]. pose proof (so_policy _ _ _ Hso) as Hp.
  assert (forall pc', call_ok st m t (c_account c) pc' -> crit (c_pc c) = true -> exists m', sole i (set_pc st t c pc') m') as Hmove.
  { intros pc' Hok Hcr. exists m. pose proof (sole_move i st m m t c pc' Hso Hc (or_introl Hcr) eq_refl (fun _ _ => eq_refl) eq_refl Hok) as H.
    unfold set_mgr in H. rewrite (insert_id _ _ _ Hm) in H. by destruct st. }
  unfold run_call in E. destruct (c_pc c) as [| | |claim|claim|d|old claim at_|claim| |] eqn:Epc; try done.
  - case_bool_decide as Hfree; [|done]. injection E as <-. unfold locked. rewrite Hp. unfold mint.
    destruct (mintToken _ _ _) as [tok seq].
    assert (forall pc', call_ok st (set_seq (lock_mu m (c_account c) t) seq) t (c_account c) pc' ->
              exists m', sole i (set_pc (set_mgr st (c_mgr c) (set_seq (lock_mu m (c_account c) t) seq)) t c pc') m') as Hset.
    { intros pc' Hok. eexists. apply (sole_move i st m); [done|done|by right|done| | |done].
      - intros a Hne. change (lock_at (set_seq ?x _) a) with (lock_at x a). by apply lock_at_other.
      - change (lock_at (set_seq ?x _) ?a) with (lock_at x a). unfold lock_mu. by rewrite lock_at_same. }
    assert (lock_at (set_seq (lock_mu m (c_account c) t) seq) (c_account c) = mkLock (Some t) (al_token (lock_at m (c_account c)))) as Hl.
    { change (lock_at (set_seq ?x _) ?a) with (lock_at x a). apply lock_at_same. }
    destruct (al_token (lock_at m (c_account c))) eqn:Et; apply Hset; (split; [|]); rewrite ?Hl; done.
  - case_bool_decide as Hfree; [|done]. injection E as <-. eexists. apply (sole_move i st m); [done|done|by right|done| | |].
    + intros a Hne. by apply lock_at_other.
    + unfold lock_mu. by rewrite lock_at_same.
    + split; [|done]. intros _. unfold lock_mu. by rewrite lock_at_same.
  - injection E as <-. eexists. apply (sole_move i st m); [done|done|left; by rewrite Epc|done| | |by apply call_ok_idle].
    + intros a Hne. by apply lock_at_other.
    + unfold unlock_mu. by rewrite lock_at_same.
  - injection E as <-. unfold fast_swap. destruct (cas _ _ _ _) as [[s [|]]|e] eqn:Ec.
    + destruct (cas_spec _ _ _ _ _ _ Hi Ec) as (_ & _ & Hs). by apply (sole_granted i st m); [..|rewrite Epc|].
    + destruct (cas_spec _ _ _ _ _ _ Hi Ec) as (_ & Ha & _). cbn in Hpc.
      destruct (al_token (lock_at m (c_account c))) as [k|] eqn:Et; [|done].
      pose proof (so_token _ _ _ Hso _ _ Et) as Hv. pose proof (value_assert st (c_account c)) as Hva. rewrite Hv in Hva.
      cbn [mjoin option_join] in Hva. rewrite Hva in Ha by done. done.
    + apply Hmove; [|done]. split; [|done]. intros _. apply Hmu. done.
  - injection E as <-. unfold read_claim. rewrite getClaim_spec, Hp by done.
    apply Hmove; [|done]. split; [intros _; by apply Hmu|]. done.
  - injection E as <-. destruct Hpc as [Hold Hcl]. unfold swap_claim. rewrite Hp.
    destruct claim as [tok|]; [|done]. change (sbytes (Some tok)) with tok.
    assert (set_mgr st (c_mgr c) m = st) as -> by (unfold set_mgr; rewrite (insert_id _ _ _ Hm); by destruct st).
    destruct (cas _ _ _ _) as [[s [|]]|e] eqn:Ec.
    + destruct (cas_spec _ _ _ _ _ _ Hi Ec) as (_ & _ & Hs). by apply (sole_granted i st m); [..|rewrite Epc|].
    + destruct (cas_spec _ _ _ _ _ _ Hi Ec) as (_ & Ha & _). rewrite <- Hold, value_assert in Ha by apply Hso. done.
    + apply Hmove; [|done]. split; [|done]. intros _. by apply Hmu.
  - injection E as <-. eexists. apply (sole_move i st m); [done|done|left; by rewrite Epc|done| | |by apply call_ok_idle].
    + intros a Hne. by apply lock_at_other.
    + unfold unlock_mu. by rewrite lock_at_same.
Qed.

Lemma sole_store i st m s :
  sole i st m -> (forall a, be_map s !! storeClaimKey a = claim_value st a) -> sole i (set_store st s) m.
Proof.
  intros [Hm Hp Hq Hv Ht Hcs] Hs.
  assert (forall a, claim_value (set_store st s) a = claim_value st a) as Hval by exact Hs.
  split; [done..| | |].
  - intros a. rewrite Hval. apply Hv.
  - intros a k. rewrite Hval. apply Ht.
  - intros t c Hc. destruct (Hcs t c Hc) as [H1 [H2 H3]]. split; [done|]. split; [done|].
    destruct (c_pc c); try done. by rewrite Hval.
Qed.

Lemma sole_step i n st m e st' :
  inv n st -> sole i st m -> sys_step st e = Some st' -> exists m', sole i st' m'.
Proof.
  intros Hinv Hso E. pose proof (inv_store _ _ Hinv) as Hi.
  destruct e as [t j a|t now now' jitter|t|t a b|t now|b]; cbn [sys_step] in E.
  - destruct (st_calls st !! t) eqn:Et; [done|]. destruct (st_mgrs st !! j) as [mj|] eqn:Ej; [|done]. injection E as <-.
    exists m. destruct Hso as [Hm Hp Hq Hv Ht Hcs]. split; try done. cbn.
    intros t0 c [[<- <-]|[_ H]]%lookup_insert_Some; [|by apply Hcs]. rewrite Hm in Ej.
    apply lookup_singleton_Some in Ej as [-> _]. split; [done|]. by apply call_ok_idle.
  - apply bind_Some in E as (c & Hc & E). apply bind_Some in E as (m0 & Hm & E).
    destruct (so_calls _ _ _ Hso t c Hc) as [Hci _].
    assert (m0 = m) as -> by (rewrite (so_mgrs _ _ _ Hso), Hci, lookup_singleton_eq in Hm; congruence).
    by apply (sole_run i st m t c now now' jitter).
  - apply bind_Some in E as (c & Hc & E). destruct (so_calls _ _ _ Hso t c Hc) as [Hci [Hmu _]].
    assert (st_mgrs st !! c_mgr c = Some m) as Hm by (by rewrite (so_mgrs _ _ _ Hso), Hci, lookup_singleton_eq).
    assert (set_mgr st (c_mgr c) m = st) as Hid by (unfold set_mgr; rewrite (insert_id _ _ _ Hm); by destruct st).
    unfold cancel_call in E. destruct (c_pc c) eqn:Epc; try done; injection E as <-.
    1: { exists m. destruct Hso as [Hms Hp Hq Hv Ht Hcs]. split; try done. cbn.
         intros t0 c0 [[<- <-]|[_ H]]%lookup_insert_Some; [|by apply Hcs]. split; [done|]. by apply call_ok_idle. }
    all: exists m; rewrite <- Hid; apply (sole_move i st m); try done; left; by rewrite Epc.
  - apply bind_Some in E as (c & Hc & E). destruct (c_pc c) eqn:Epc; try done. repeat case_match; try done; injection E as <-; [|by exists m].
    match goal with H : be_WriteBatch _ _ = Ok ?s |- _ => rename H into Hw; set (s1 := s) in * end.
    exists m. destruct (sole_store i st m s1 Hso) as [Hm Hp Hq Hv Ht Hcs]; [|by split].
    intros a'. apply (WriteBatch_spares _ _ _ _ Hi Hw), Fence_spares, writes_claim_spares.
    by match goal with H : negb _ || _ = false |- _ => apply orb_false_iff in H as [_ H] end.
  - apply bind_Some in E as (c & Hc & E). apply bind_Some in E as (m0 & Hm & E).
    destruct (so_calls _ _ _ Hso t c Hc) as [Hci [Hmu _]].
    assert (m0 = m) as -> by (rewrite (so_mgrs _ _ _ Hso), Hci, lookup_singleton_eq in Hm; congruence).
    assert (set_mgr st (c_mgr c) m = st) as Hid by (unfold set_mgr; rewrite (insert_id _ _ _ Hm); by destruct st).
    destruct (c_pc c) eqn:Epc; try done. injection E as <-. unfold Release. rewrite (so_policy _ _ _ Hso).
    exists m. rewrite <- Hid. apply (sole_move i st m); try done; left; by rewrite Epc.
  - destruct (writes_claim b) eqn:Ew; [done|]. destruct (be_WriteBatch _ _) as [s|] eqn:Hw; injection E as <-; [|by exists m].
    exists m. apply sole_store; [done|]. intros a. by apply (WriteBatch_spares _ _ _ _ Hi Hw), writes_claim_spares.
Qed.

Lemma sole_exec i es n st m st' :
  inv n st -> n + Z.of_nat (length es) < 2 ^ 64 -> sole i st m -> exec st es = Some st' -> exists m', sole i st' m'.
Proof.
  revert n st m. induction es as [|e es IH]; intros n st m Hinv Hn Hso E; cbn [length] in Hn; [injection E as <-; eauto|].
  cbn [exec] in E. apply bind_Some in E as (st1 & E1 & E2). destruct (sole_step i n st m e st1 Hinv Hso E1) as [m1 Hm1].
  apply (IH (n + 1) st1 m1); [apply (sys_step_inv n st e); auto; lia|lia|done|done].
Qed.
End sole.

(** C23: the in-process manager's assumption and its alarm agree.  When one
    in-process manager is the only process that swaps claims of a store - over
    whatever claims a predecessor left, with calls, cancellations, releases and
    commits in any interleaving - it never warns of a foreign writer, every
    lease it has handed out and not taken back has its claim in the store, so
    its fence holds, and no account has two such leases. *)
Theorem sole_process {S : Type} `{BE : Backend S, BL : !BackendLaws S, CS : !CompareAndSwapper S, SL : !SwapperLaws S}
  (s : S) (i : nat) (rnd : bytes) (es : list Event) (st : State S)
  (Hs : be_inv s) (Hr : length rnd = 8%nat) (Hv : forall a, be_map s !! storeClaimKey a <> Some None)
  (Hn : Z.of_nat (length es) < 2 ^ 64) (E : exec (start s {[ i := NewInProcess rnd ]}) es = Some st) :
  st_warned st = [] /\
  (forall t a k, holds st t a k -> assert_ok (be_map (st_store st)) (OpAssert (storeClaimKey a) (Some k)) = true) /\
  (forall t1 t2 a k1 k2, holds st t1 a k1 -> holds st t2 a k2 -> t1 = t2).
Proof.
  assert (inv 0 (start s {[ i := NewInProcess rnd ]})) as H0.
  { apply start_inv; [done|]. split.
    - intros j m [<- <-]%lookup_singleton_Some. split; [by apply newNonce_length|done].
    - intros j1 j2 m1 m2 [<- _]%lookup_singleton_Some [<- _]%lookup_singleton_Some. done. }
  destruct (sole_exec i es 0 (start s {[ i := NewInProcess rnd ]}) (NewInProcess rnd) st H0 ltac:(lia)) as (m & Hso); [|done|].
  { by split. }
  split; [apply Hso|]. split.
  - intros t a k (c & Hc & <- & Hpc). destruct (so_calls _ _ _ Hso t c Hc) as [_ [_ Hok]]. rewrite Hpc in Hok.
    apply (so_token _ _ _ Hso) in Hok. pose proof (value_assert st (c_account c)) as H. rewrite Hok in H. by apply H.
  - intros t1 t2 a k1 k2 (c1 & Hc1 & <- & P1) (c2 & Hc2 & E2 & P2).
    destruct (so_calls _ _ _ Hso t1 c1 Hc1) as [_ [M1 _]], (so_calls _ _ _ Hso t2 c2 Hc2) as [_ [M2 _]].
    rewrite P1 in M1. rewrite P2, E2 in M2. specialize (M1 eq_refl). specialize (M2 eq_refl). congruence.
Qed.
#[local] Existing Instances Memory.memory_backend Memory.memory_laws LeaseSafety.no_swap LeaseSafety.no_swap_laws.

Lemma sole_process_witness :
  let es := acquires 1 0 (bs "A1") (at_time 0) ++ [EvRelease 1 (at_time 1); EvRun 1 0 0 0] ++
            [EvCall 2 0 (bs "A1"); EvRun 2 (at_time 0) 0 0; EvCall 3 0 (bs "A1"); EvRun 2 0 0 0] in
  let st := run_demo (start (Memory.New []) {[ 0%nat := NewInProcess (bs "instance") ]}) es in
  holds st 2 (bs "A1") (claim_held st 2) /\ st_warned st = [] /\
  assert_ok (be_map (st_store st)) (OpAssert (storeClaimKey (bs "A1")) (Some (claim_held st 2))) = true.
Proof.
  cbv zeta. set (es := acquires 1 _ _ _ ++ _). set (st := run_demo _ es).
  assert (exec (start (Memory.New []) {[ 0%nat := NewInProcess (bs "instance") ]}) es = Some st) as E
    by (apply run_demo_eq; vm_compute; reflexivity).
  assert (holds st 2 (bs "A1") (claim_held st 2)) as Hh by (apply claim_held_holds; vm_compute; reflexivity).
  destruct (sole_process (Memory.New []) 0 (bs "instance") es st) as (H1 & H2 & _).
  - apply Memory.empty_inv.
  - reflexivity.
  - intros a. change (be_map (Memory.New [])) with (∅ : kvmap). by rewrite lookup_empty.
  - vm_compute. reflexivity.
  - exact E.
  - split; [exact Hh|]. split; [exact H1|exact (H2 _ _ _ Hh)].
Defined.
End LeaseSole.
