(* ===== verification/LeaseLive.v ===== *)
(** * LeaseLive: a store lease that nobody holds is obtained

    Expiry is the liveness half of the store lease: a waiter that finds the
    claim of a crashed or silent holder polls until its deadline and then takes
    it over, in a number of rounds the deadline bounds. *)

From S2P Require Import Prelude GoLib Gotime Keyenc Backend Batches Memory Jmap Keys Lease LeaseFacts LeaseSafety.

Module LeaseLive.
Import Keyenc Backend Batches Jmap Keys Lease LeaseFacts LeaseSafety.

(** The clock readings and the jitter of one operation of a call. *)
Record Tick := mkTick { tk_now : Z; tk_now' : Z; tk_jitter : Z }.

Definition run_at (t : nat) (k : Tick) : Event := EvRun t (tk_now k) (tk_now' k) (tk_jitter k).

(** [n] operations of one call with nothing in between. *)
Fixpoint alone (t : nat) (ticks : nat -> Tick) (n : nat) : list Event :=
  match n with O => [] | S n' => run_at t (ticks O) :: alone t (fun i => ticks (S i)) n' end.

Lemma waitDuration_bounds jitter exp now :
  Millisecond <= waitDuration jitter exp now <= Z.max Millisecond (Z.min jitter (Z.max 0 (exp - now))).
Proof. unfold waitDuration, Sub, Millisecond. repeat case_match; lia. Qed.

Section live.
Context {S : Type} `{BE : Backend S, BL : !BackendLaws S, CS : !CompareAndSwapper S, SL : !SwapperLaws S}.
Implicit Types (st : State S).

(** The caller's clock goes forward, and a wait of [d] lasts at least [d]. *)
Fixpoint timely st (t : nat) (ticks : nat -> Tick) (n : nat) : Prop :=
  match n with
  | O => True
  | Datatypes.S n' =>
      tk_now (ticks O) <= tk_now' (ticks O) /\
      match sys_step st (run_at t (ticks O)) with
      | None => True
      | Some st' =>
          tk_now' (ticks O) + match c_pc <$> st_calls st' !! t with Some (Waiting d) => d | _ => 0 end <= tk_now (ticks 1%nat) /\
          timely st' t (fun i => ticks (Datatypes.S i)) n'
      end
  end.

(** A waiter about to read the claim of its account. *)
Definition waiter st (t : nat) (c : Call) (m : Manager) (expiry poll : Z) : Prop :=
  be_inv (st_store st) /\ st_calls st !! t = Some c /\ st_mgrs st !! c_mgr c = Some m /\
  m_policy m = StorePolicy expiry poll /\ c_pc c = Reading None.

Definition current st (a : Id) : slice := mjoin (be_map (st_store st) !! storeClaimKey a).

(** The store accepts a swap of the claim it has. *)
Definition swappable st (a : Id) : Prop :=
  be_map (st_store st) !! storeClaimKey a <> Some None /\
  forall tok, is_ok (cas (st_store st) (storeClaimKey a) (current st a) tok) = true.

Definition step_run st t k : sys_step st (run_at t k) =
  c ← st_calls st !! t; m ← st_mgrs st !! c_mgr c; run_call st t c m (tk_now k) (tk_now' k) (tk_jitter k) := eq_refl.

(** Reading: wait while the claim is live, else go on to the swap. *)
Lemma read_step st t c m expiry poll k :
  waiter st t c m expiry poll ->
  sys_step st (run_at t k) = Some (set_pc st t c
    match parseClaimExpiry (current st (c_account c)) with
    | Some exp => if tk_now k <? exp then Waiting (waitDuration (tk_jitter k) exp (tk_now' k))
                  else Swapping (current st (c_account c)) None (tk_now k)
    | None => Swapping (current st (c_account c)) None (tk_now k)
    end).
Proof.
  intros (Hi & Hc & Hm & Hp & Hpc). rewrite step_run, Hc. cbn [mbind option_bind]. rewrite Hm. cbn [mbind option_bind].
  unfold run_call. rewrite Hpc. unfold read_claim. rewrite getClaim_spec, Hp by done. fold (current st (c_account c)).
  repeat case_match; done.
Qed.

Lemma cas_current st a tok :
  be_inv (st_store st) -> swappable st a ->
  exists s, cas (st_store st) (storeClaimKey a) (current st a) tok = Ok (s, true) /\
    be_map s = <[storeClaimKey a := Some tok]> (be_map (st_store st)).
Proof.
  intros Hi [Hv Hok]. specialize (Hok tok). destruct (cas _ _ _ _) as [[s sw]|] eqn:E; [|done].
  destruct (cas_spec _ _ _ _ _ _ Hi E) as (_ & Ha & Hs). unfold current in Ha. cbn [assert_ok] in Ha.
  assert (sw = true) as ->.
  { rewrite <- Ha. destruct (be_map (st_store st) !! storeClaimKey a) as [[v|]|]; cbn; [|done|done]. by apply bool_decide_eq_true_2. }
  eauto.
Qed.

(** The swap: the lease is granted with a token live for [expiry]. *)
Lemma swap_step st t c m expiry poll k at_ :
  waiter st t c m expiry poll -> swappable st (c_account c) ->
  let st1 := set_pc st t c (Swapping (current st (c_account c)) None at_) in
  let tok := token (m_nonce m) (u64 (m_seq m + 1)) (tk_now k + expiry) in
  exists st', sys_step st1 (run_at t k) = Some st' /\ holds st' t (c_account c) tok /\ claim_of (st_store st') (c_account c) = Some tok.
Proof.
  intros (Hi & Hc & Hm & Hp & Hpc) Hsw st1 tok.
  rewrite step_run. unfold st1. cbn [st_calls set_pc]. rewrite lookup_insert_eq. cbn [mbind option_bind st_mgrs set_pc c_mgr].
  rewrite Hm. cbn [mbind option_bind]. unfold run_call. cbn [c_pc]. unfold swap_claim. rewrite Hp.
  destruct (newClaimValue m expiry (tk_now k)) as [tok' m'] eqn:Et.
  assert (tok' = tok /\ m_policy m' = m_policy m) as [-> Hp'] by (unfold newClaimValue, mint, mintToken in Et; by simplify_eq).
  cbn [c_account st_store set_pc]. destruct (cas_current st (c_account c) tok Hi Hsw) as (s & -> & Hs).
  eexists. split; [done|]. unfold granted. rewrite Hp', Hp. split.
  - eexists. cbn [st_calls add_log set_pc set_store set_mgr]. by rewrite lookup_insert_eq.
  - unfold claim_of. cbn [st_store add_log set_pc set_store]. by rewrite Hs, lookup_insert_eq.
Qed.

Lemma set_pc_twice st t c pc1 pc2 :
  set_pc (set_pc st t c pc1) t (mkCall (c_mgr c) (c_account c) pc1) pc2 = set_pc st t c pc2.
Proof. unfold set_pc. cbn. by rewrite insert_insert_eq. Qed.

(** A wait that is over. *)
Lemma wake_step st t c m expiry poll d k :
  waiter st t c m expiry poll -> sys_step (set_pc st t c (Waiting d)) (run_at t k) = Some (set_pc st t c (Reading None)).
Proof.
  intros (Hi & Hc & Hm & Hp & Hpc). rewrite step_run. cbn [st_calls set_pc]. rewrite lookup_insert_eq.
  cbn [mbind option_bind st_mgrs set_pc c_mgr]. rewrite Hm. cbn [mbind option_bind]. unfold run_call. cbn [c_pc].
  by rewrite set_pc_twice.
Qed.

(** [r] milliseconds to the deadline: at most [r] rounds of waiting. *)
Lemma acquire_rounds r st t c m expiry poll ticks :
  waiter st t c m expiry poll -> swappable st (c_account c) ->
  (forall exp, parseClaimExpiry (current st (c_account c)) = Some exp -> exp - tk_now (ticks O) <= Z.of_nat r * Millisecond) ->
  timely st t ticks (2 * r + 2) ->
  exists j st', (j <= r)%nat /\ exec st (alone t ticks (2 * j + 2)) = Some st' /\
    let tok := token (m_nonce m) (u64 (m_seq m + 1)) (tk_now (ticks (2 * j + 1)%nat) + expiry) in
    holds st' t (c_account c) tok /\ claim_of (st_store st') (c_account c) = Some tok.
Proof.
  revert st c ticks. induction r as [|r IH]; intros st c ticks Hw Hsw Hexp Ht.
  all: pose proof (read_step st t c m expiry poll (ticks O) Hw) as Hr.
  all: assert (forall at_, sys_step st (run_at t (ticks O)) = Some (set_pc st t c (Swapping (current st (c_account c)) None at_)) ->
         exists st', exec st (alone t ticks 2) = Some st' /\
           let tok := token (m_nonce m) (u64 (m_seq m + 1)) (tk_now (ticks 1%nat) + expiry) in
           holds st' t (c_account c) tok /\ claim_of (st_store st') (c_account c) = Some tok) as Hgo
    by (intros at_ E; destruct (swap_step st t c m expiry poll (ticks 1%nat) at_ Hw Hsw) as (st' & E' & H');
        exists st'; split; [cbn [alone exec]; rewrite E; cbn [mbind option_bind]; by rewrite E'|done]).
  - destruct (parseClaimExpiry (current st (c_account c))) as [exp|];
      [specialize (Hexp exp eq_refl); destruct (tk_now (ticks 0%nat) <? exp) eqn:El; [lia|]|];
      destruct (Hgo _ Hr) as (st' & H1 & H2); exists O, st'; auto.
  - destruct (parseClaimExpiry (current st (c_account c))) as [exp|] eqn:Ep;
      [specialize (Hexp exp eq_refl); destruct (tk_now (ticks 0%nat) <? exp) eqn:El|].
    2, 3: destruct (Hgo _ Hr) as (st' & H1 & H2); exists O, st'; split; [lia|auto].
    set (d := waitDuration _ _ _) in Hr. pose proof (waitDuration_bounds (tk_jitter (ticks O)) exp (tk_now' (ticks O))) as Hd. fold d in Hd.
    replace (2 * Datatypes.S r + 2)%nat with (Datatypes.S (Datatypes.S (2 * r + 2))) in Ht by lia.
    cbn [timely] in Ht. rewrite Hr in Ht. cbn [st_calls set_pc] in Ht. rewrite lookup_insert_eq in Ht.
    cbn [fmap option_fmap option_map c_pc] in Ht. destruct Ht as (T0 & T1 & T2 & T3).
    change (mkState _ _ (<[t := mkCall (c_mgr c) (c_account c) (Waiting d)]> _) _ _) with (set_pc st t c (Waiting d)) in T3.
    rewrite (wake_step st t c m expiry poll) in T3 by done. cbn [st_calls set_pc] in T3. rewrite lookup_insert_eq in T3.
    cbn [fmap option_fmap option_map c_pc] in T3. destruct T3 as (T3 & T4).
    set (c1 := mkCall (c_mgr c) (c_account c) (Reading None)) in *.
    change (mkState _ _ (<[t := c1]> _) _ _) with (set_pc st t c (Reading None)) in T4.
    assert (waiter (set_pc st t c (Reading None)) t c1 m expiry poll) as Hw1.
    { destruct Hw as (Hi & Hc & Hm & Hp & Hpc). split_and!; [done| |done..]. cbn. by rewrite lookup_insert_eq. }
    destruct (IH (set_pc st t c (Reading None)) c1 (fun i => ticks (Datatypes.S (Datatypes.S i))) Hw1 Hsw) as (j & st' & Hj & E & H').
    + intros exp' Hexp'. change (current (set_pc st t c (Reading None)) (c_account c1)) with (current st (c_account c)) in Hexp'.
      assert (exp' = exp) as -> by congruence. unfold Millisecond in *. cbn beta in T2, T3. lia.
    + exact T4.
    + exists (Datatypes.S j), st'. split; [lia|].
      replace (2 * Datatypes.S j + 2)%nat with (Datatypes.S (Datatypes.S (2 * j + 2))) by lia.
      replace (2 * Datatypes.S j + 1)%nat with (Datatypes.S (Datatypes.S (2 * j + 1))) by lia.
      split; [|exact H']. cbn [alone exec]. rewrite Hr. cbn [mbind option_bind].
      rewrite (wake_step st t c m expiry poll) by done. exact E.
Qed.
End live.

(** The polls a claim's deadline allows for: one a millisecond at the most. *)
Definition rounds (claim : slice) (now : Z) : nat :=
  match parseClaimExpiry claim with
  | Some exp => Z.to_nat ((exp - now + Millisecond - 1) / Millisecond)
  | None => O
  end.

(** C21: a crashed holder's account frees itself.  A store-lease call that reads
    whatever claim is in the store - absent, malformed, expired, released or live -
    and has the store to itself obtains the lease: after at most one round of
    waiting per millisecond left to the claim's deadline it holds the lease with
    a fresh token, the store's claim is that token, and the token's deadline is
    one expiry after its last clock reading. *)
Theorem acquire_live {S : Type} `{BE : Backend S, BL : !BackendLaws S, CS : !CompareAndSwapper S, SL : !SwapperLaws S}
  (st : State S) (t : nat) (c : Call) (m : Manager) (expiry poll : Z) (ticks : nat -> Tick)
  (Hw : waiter st t c m expiry poll) (Hs : swappable st (c_account c))
  (Ht : timely st t ticks (2 * rounds (current st (c_account c)) (tk_now (ticks O)) + 2)) :
  exists j st' tok, (j <= rounds (current st (c_account c)) (tk_now (ticks O)))%nat /\
    exec st (alone t ticks (2 * j + 2)) = Some st' /\
    holds st' t (c_account c) tok /\ claim_of (st_store st') (c_account c) = Some tok /\
    (let exp := tk_now (ticks (2 * j + 1)%nat) + expiry in
     0 <= Gotime.Year exp < 10000 -> parseClaimExpiry (Some tok) = Some exp).
Proof.
  destruct (acquire_rounds (rounds (current st (c_account c)) (tk_now (ticks O))) st t c m expiry poll ticks) as (j & st' & Hj & E & H1 & H2); [done..| |done|].
  - intros exp He. unfold rounds. rewrite He. unfold Millisecond. Z.to_euclidean_division_equations. lia.
  - exists j, st'. eexists. split; [done|]. split; [exact E|]. split; [exact H1|]. split; [exact H2|].
    cbv zeta. intros Hy. by apply parse_token.
Qed.

#[local] Existing Instances Memory.memory_backend Memory.memory_laws LeaseSafety.no_swap LeaseSafety.no_swap_laws.

(** A store whose claim a crashed instance left, two milliseconds before its
    deadline; the caller waits three times. *)
Definition left_claim : bytes := token (bs "0123456789abcdef") 7 (at_time 0 + 2500000).
Definition crashed : State Memory.Store :=
  run_demo (start (Memory.demo [OpSet (storeClaimKey (bs "A1")) (Some left_claim)]) demo_mgrs) [EvCall 1 0 (bs "A1"); EvRun 1 0 0 0].
Definition demo_ticks (i : nat) : Tick := let now := at_time 0 + Z.of_nat ((i + 1) / 2) * Millisecond in mkTick now now 0.

Lemma acquire_live_witness :
  exists j st' tok, (j <= 3)%nat /\ exec crashed (alone 1 demo_ticks (2 * j + 2)) = Some st' /\
    holds st' 1 (bs "A1") tok /\ claim_of (st_store st') (bs "A1") = Some tok.
Proof.
  assert (Memory.store_inv (st_store crashed)) as Hi by (apply Memory.demo_inv; vm_compute; reflexivity).
  destruct (acquire_live crashed 1 (mkCall 0 (bs "A1") (Reading None)) (lock_mu (NewStoreLease 0 0 (bs "instance")) (bs "A1") 1)
              (15 * Second) (25 * Millisecond) demo_ticks) as (j & st' & tok & Hj & E & Hh & Hc & _).
  - split; [exact Hi|]. split; [vm_compute; reflexivity|]. split; [vm_compute; reflexivity|]. split; reflexivity.
  - split; [vm_compute; discriminate|]. intros tok. vm_compute. reflexivity.
  - vm_compute. repeat split; discriminate.
  - exists j, st', tok. split; [|split; [exact E|split; [exact Hh|exact Hc]]].
    etransitivity; [exact Hj|]. vm_compute. lia.
Defined.
End LeaseLive.
