(* ===== verification/Patch.v ===== *)
(** * Patch: the record-level rules of Foo/set (core/runtime/standard.go)

    Creation-id references, value and blob-reference checks, and PatchObjects.
    What the code takes from [encoding/json] and [reflect] beyond decoding -
    marshalling, and semantic equality of two values - is a parameter. *)

From S2P Require Import Prelude GoLib Keyenc Backend Jsonscan Jmap Descriptor Keys ObjectDB Blobs Sorting Filter.

Module Patch.
Import Backend Jsonscan Jmap Descriptor Keys ObjectDB Blobs Filter.

(** [json.Marshal] of a string and of a map of raw values, and
    [reflect.DeepEqual] of two decoded values ([false] when one does not
    decode). *)
Class JsonText := {
  marshal_string : bytes -> bytes;
  marshal_members : gmap bytes bytes -> option bytes;
  json_same : bytes -> bytes -> bool;
}.

Inductive setErrType := SetErrInvalidProperties | SetErrNotFound | SetErrInvalidPatch | SetErrOther (t : bytes).
Record SetError := mkSetError { se_Type : setErrType; se_Properties : list bytes }.

Definition invalidProperties (names : list bytes) : SetError := mkSetError SetErrInvalidProperties (sort_strings names).
Definition plainError (t : setErrType) : SetError := mkSetError t [].

Definition hash : byte := "#"%byte.

Section rules.
Context `{MR : MapRange, TP : TimeParse, JT : JsonText}.

(** ** References *)

Definition resolveIdValue (raw : bytes) (createdIds : gmap Id Id) : option bytes :=
  match json_string raw with
  | Some (c :: rest) =>
      if c =b hash then match createdIds !! rest with Some real => Some (marshal_string real) | None => None end
      else Some raw
  | _ => Some raw
  end.

Definition resolveIdArg (id : Id) (createdIds : gmap Id Id) : option Id :=
  match id with
  | c :: rest => if c =b hash then createdIds !! rest else Some id
  | [] => Some id
  end.

(** One property of [resolveIdRefs], which substitutes in place. *)
Definition resolve_ref (createdIds : gmap Id Id) (acc : Object * list bytes) (np : bytes * Property) : Object * list bytes :=
  let '(obj, unresolved) := acc in
  let '(name, p) := np in
  if negb (bool_decide (p_Kind p = KindId)) then acc
  else match obj !! name with
       | None => acc
       | Some raw =>
           match resolveIdValue raw createdIds with
           | None => (obj, unresolved ++ [name])
           | Some resolved => (<[name := resolved]> obj, unresolved)
           end
       end.

(** The object with what could be resolved, and the names that could not. *)
Definition resolveIdRefs (t : Type_) (obj : Object) (createdIds : gmap Id Id) : Object * list bytes :=
  let '(obj', unresolved) := fold_left (resolve_ref createdIds) (range_map (t_Properties t)) (obj, []) in
  (obj', sort_strings unresolved).

(** ** Checks *)

Definition value_bad (t : Type_) (nr : bytes * bytes) : bool :=
  let '(name, raw) := nr in
  if bool_decide (name = bs "id") then false
  else match t_Properties t !! name with None => true | Some p => negb (is_ok (CheckValue p raw)) end.

Definition checkValues (t : Type_) (obj : Object) : list bytes :=
  sort_strings (List.filter (value_bad t) (range_map obj)).*1.

Section blob_refs.
Context `{UC : UploadCodec} {S : Type} `{BE : Backend S}.

Fixpoint bad_refs (s : S) (acct : Id) (obj : Object) (l : list (bytes * Property)) : result (list bytes) :=
  match l with
  | [] => Ok []
  | (name, p) :: l' =>
      bad ← (if negb (p_BlobRef p) then Ok false
             else match obj !! name with
                  | None => Ok false
                  | Some raw =>
                      match json_string raw with
                      | None => Ok false
                      | Some id => ok ← BlobExists s acct id; Ok (negb ok)
                      end
                  end);
      rest ← bad_refs s acct obj l';
      Ok (if bad : bool then name :: rest else rest)
  end.

Definition checkBlobRefs (s : S) (acct : Id) (t : Type_) (obj : Object) : result (list bytes) :=
  bad ← bad_refs s acct obj (range_map (t_Properties t)); Ok (sort_strings bad).
End blob_refs.

(** ** Pointers *)

(** [strings.Split(path, "/")]. *)
Fixpoint split_slash (s : bytes) : list bytes :=
  match s with
  | [] => [[]]
  | c :: s' =>
      if c =b "/"%byte then [] :: split_slash s'
      else match split_slash s' with seg :: segs => (c :: seg) :: segs | [] => [[c]] end
  end.

(** [strings.ReplaceAll] of the two bytes [a], [b] by [r]. *)
Fixpoint replace2 (a b r : byte) (s : bytes) : bytes :=
  match s with
  | x :: ((y :: s') as s1) => if (x =b a) && (y =b b) then r :: replace2 a b r s' else x :: replace2 a b r s1
  | _ => s
  end.

(** RFC 6901: ~1 first, then ~0. *)
Definition unescape_seg (s : bytes) : bytes := replace2 "~"%byte "0"%byte "~"%byte (replace2 "~"%byte "1"%byte "/"%byte s).

Definition segments (path : bytes) : list bytes := map unescape_seg (split_slash path).

Definition pathKey (segs : list bytes) : bytes := concat (map (fun s => FormatInt (Z.of_nat (length s)) ++ ":"%byte :: s) segs).

(** A proper segment prefix of a pointer is itself a pointer of the patch. *)
Definition overlaps (present : list bytes) (segs : list bytes) : bool :=
  existsb (fun n => bool_decide (pathKey (take n segs) ∈ present)) (seq 1 (length segs - 1)).

(** ** PatchObjects *)

(** A nil raw value is an absent one. *)
Definition jsonEqual (a b : slice) : bool :=
  match a, b with
  | None, None => true
  | Some x, Some y => json_same x y
  | _, _ => false
  end.

(** A pointer into a composite property: a member is set or removed. *)
Definition patch_member (t : Type_) (newObj : Object) (name key : bytes) (val : bytes) : option Object :=
  match t_Properties t !! name with
  | Some p =>
      if p_Internal p || negb (bool_decide (p_Kind p = KindObject)) then None
      else
        members ← match newObj !! name with
                  | Some raw => if isNull raw then Some ∅ else json_object raw
                  | None => Some ∅
                  end;
        encoded ← marshal_members (if isNull val then delete key members else <[key := val]> members);
        Some (<[name := encoded]> newObj)
  | None => None
  end.

(** A whole property. *)
Definition patch_property (t : Type_) (createdIds : gmap Id Id) (newObj : Object) (name : bytes) (val : bytes)
  : Object * bool :=
  if bool_decide (name = bs "id") then (if isNull val then delete name newObj else <[name := val]> newObj, true)
  else
    match t_Properties t !! name with
    | None => (newObj, false)
    | Some p =>
        if p_Internal p then (newObj, false)
        else if isNull val then
          (match p_Default p with Some d => <[name := d]> newObj | None => delete name newObj end, true)
        else
          match (if bool_decide (p_Kind p = KindId) then resolveIdValue val createdIds else Some val) with
          | None => (newObj, false)
          | Some v => if is_ok (CheckValue p v) then (<[name := v]> newObj, true) else (newObj, false)
          end
    end.

(** The pointers in order; [None] is the early invalidPatch. *)
Fixpoint patch_all (t : Type_) (createdIds : gmap Id Id) (patch : gmap bytes bytes) (paths : list bytes) (newObj : Object) (invalid : list bytes)
  : option (Object * list bytes) :=
  match paths with
  | [] => Some (newObj, invalid)
  | path :: paths' =>
      let val := default [] (patch !! path) in
      match segments path with
      | [name] =>
          let '(o, ok) := patch_property t createdIds newObj name val in
          patch_all t createdIds patch paths' o (if ok then invalid else invalid ++ [name])
      | [name; key] => o ← patch_member t newObj name key val; patch_all t createdIds patch paths' o invalid
      | _ => None
      end
  end.

(** The properties whose value a patch may not change. *)
Definition fixed_names (t : Type_) : list bytes :=
  bs "id" :: (List.filter (fun np : bytes * Property => p_ServerSet np.2 || p_Immutable np.2) (range_map (t_Properties t))).*1.

Definition changed_fixed (t : Type_) (current newObj : Object) : list bytes :=
  List.filter (fun name => negb (jsonEqual (newObj !! name) (current !! name))) (fixed_names t).

Definition applyPatch (t : Type_) (current : Object) (patch : gmap bytes bytes) (createdIds : gmap Id Id) : Object + SetError :=
  let paths := sort_strings (map_to_list patch).*1 in
  let present := map (fun path => pathKey (segments path)) paths in
  if existsb (fun path => overlaps present (segments path)) paths then Datatypes.inr (plainError SetErrInvalidPatch)
  else
    match patch_all t createdIds patch paths current [] with
    | None => Datatypes.inr (plainError SetErrInvalidPatch)
    | Some (newObj, invalid) =>
        match invalid ++ changed_fixed t current newObj with
        | [] => Datatypes.inl newObj
        | bad => Datatypes.inr (invalidProperties bad)
        end
    end.
End rules.
End Patch.
