(* ===== verification/Standard.v ===== *)
(** * Standard: Foo/get, Foo/changes and Foo/set (core/runtime/standard.go)

    The decoded arguments are records.  The function [Update] runs for a
    Foo/set captures the request's creation ids and the response; it is a
    state-and-error computation [M] whose state survives an error, as the
    captured variables do. *)

From S2P Require Import Prelude GoLib Keyenc Backend Jsonscan Jmap Descriptor Keys ObjectDB Commit Changes Blobs Sorting Filter Query Patch.

Module Standard.
Import Backend Jsonscan Jmap Descriptor Keys ObjectDB Commit Changes Blobs Filter Query Patch.

Definition MaxRequestedProperties : Z := 512.
Definition DefaultMaxChanges : Z := 2048.

(** ** Arguments and responses *)

Record getArgs := mkGetArgs {
  g_AccountId : Id;
  g_Ids : option (list Id);
  g_Properties : option (list bytes);
}.

Record getResponse := mkGetResponse {
  gr_State : bytes;
  gr_List : list Object;
  gr_NotFound : list Id;
}.

Record changesArgs := mkChangesArgs {
  ch_AccountId : Id;
  ch_SinceState : option bytes;
  ch_MaxChanges : option Z;
}.

Record setArgs := mkSetArgs {
  sa_AccountId : Id;
  sa_IfInState : option bytes;
  sa_Create : gmap Id bytes;
  sa_Update : gmap Id bytes;
  sa_Destroy : list Id;
}.

(** The maps of the response; a nil map is an empty one, which is omitted. *)
Record setResponse := mkSetResponse {
  sr_OldState : bytes;
  sr_NewState : bytes;
  sr_Created : gmap Id Object;
  sr_Updated : gmap Id (option Object);
  sr_Destroyed : list Id;
  sr_NotCreated : gmap Id SetError;
  sr_NotUpdated : gmap Id SetError;
  sr_NotDestroyed : gmap Id SetError;
}.

Definition emptyResponse : setResponse := mkSetResponse [] [] ∅ ∅ [] ∅ ∅ ∅.

Definition oldState (st : bytes) (r : setResponse) : setResponse :=
  mkSetResponse st (sr_NewState r) (sr_Created r) (sr_Updated r) (sr_Destroyed r) (sr_NotCreated r) (sr_NotUpdated r) (sr_NotDestroyed r).
Definition newState (st : bytes) (r : setResponse) : setResponse :=
  mkSetResponse (sr_OldState r) st (sr_Created r) (sr_Updated r) (sr_Destroyed r) (sr_NotCreated r) (sr_NotUpdated r) (sr_NotDestroyed r).
Definition created (cid : Id) (o : Object) (r : setResponse) : setResponse :=
  mkSetResponse (sr_OldState r) (sr_NewState r) (<[cid := o]> (sr_Created r)) (sr_Updated r) (sr_Destroyed r) (sr_NotCreated r) (sr_NotUpdated r) (sr_NotDestroyed r).
Definition updated (id : Id) (o : option Object) (r : setResponse) : setResponse :=
  mkSetResponse (sr_OldState r) (sr_NewState r) (sr_Created r) (<[id := o]> (sr_Updated r)) (sr_Destroyed r) (sr_NotCreated r) (sr_NotUpdated r) (sr_NotDestroyed r).
Definition destroyed (id : Id) (r : setResponse) : setResponse :=
  mkSetResponse (sr_OldState r) (sr_NewState r) (sr_Created r) (sr_Updated r) (sr_Destroyed r ++ [id]) (sr_NotCreated r) (sr_NotUpdated r) (sr_NotDestroyed r).
Definition notCreated (id : Id) (e : SetError) (r : setResponse) : setResponse :=
  mkSetResponse (sr_OldState r) (sr_NewState r) (sr_Created r) (sr_Updated r) (sr_Destroyed r) (<[id := e]> (sr_NotCreated r)) (sr_NotUpdated r) (sr_NotDestroyed r).
Definition notUpdated (id : Id) (e : SetError) (r : setResponse) : setResponse :=
  mkSetResponse (sr_OldState r) (sr_NewState r) (sr_Created r) (sr_Updated r) (sr_Destroyed r) (sr_NotCreated r) (<[id := e]> (sr_NotUpdated r)) (sr_NotDestroyed r).
Definition notDestroyed (id : Id) (e : SetError) (r : setResponse) : setResponse :=
  mkSetResponse (sr_OldState r) (sr_NewState r) (sr_Created r) (sr_Updated r) (sr_Destroyed r) (sr_NotCreated r) (sr_NotUpdated r) (<[id := e]> (sr_NotDestroyed r)).

(** ** Extensions of a type *)

(** [ComputedProperties]. *)
Record Computed := mkComputed {
  cp_Accepts : bytes -> bool;
  cp_Resolve : Id -> Object -> list bytes -> gmap bytes bytes -> result (gmap bytes bytes);
}.

(** [SetHooks]; [P] is what [PrepareCreate] hands to [CommitCreate].  A hook
    that changes the object it is given returns the changed one. *)
Record SetHooks (P : Type) := mkSetHooks {
  sh_Validate : option (Update -> option Object -> Object -> gmap bytes bytes -> result (Update * Object * option SetError));
  sh_Destroy : option (Update -> Id -> gmap bytes bytes -> result (Update * option SetError));
  sh_Create : option ((Id -> Id -> bytes -> result (P + SetError)) * (Update -> P -> result (Update * (Id * Object + SetError))));
  sh_AfterSet : bool;
}.
Arguments sh_Validate {P} _.
Arguments sh_Destroy {P} _.
Arguments sh_Create {P} _.
Arguments sh_AfterSet {P} _.

Definition noHooks (P : Type) : SetHooks P := mkSetHooks P None None None false.

Record Extensions (P : Type) := mkExtensions {
  ex_DefaultGetProperties : option (list bytes);
  ex_Computed : option Computed;
  ex_Set : SetHooks P;
  ex_Changes : option (Id -> ChangeSet -> gmap bytes bytes -> result (gmap bytes bytes)); (* ExtraResponse.Changes *)
}.
Arguments ex_DefaultGetProperties {P} _.
Arguments ex_Computed {P} _.
Arguments ex_Set {P} _.
Arguments ex_Changes {P} _.

(** ** The state a Foo/set body captures *)

Record SetState := mkSetState {
  ss_u : Update;
  ss_ids : gmap Id Id;              (* call.CreatedIds *)
  ss_resp : setResponse;
  ss_dead : gmap Id Object;         (* outcome.Destroyed *)
}.

Definition M (A : Type) : Type := SetState -> SetState * result A.

#[export] Instance M_ret : MRet M := fun A a σ => (σ, Ok a).
#[export] Instance M_bind : MBind M := fun A B f m σ =>
  match m σ with (σ', Ok a) => f a σ' | (σ', Err e) => (σ', Err e) end.

Definition throw {A} (e : error) : M A := fun σ => (σ, Err e).
Definition lift {A} (r : result A) : M A := fun σ => (σ, r).
Definition respond (f : setResponse -> setResponse) : M unit :=
  fun σ => (mkSetState (ss_u σ) (ss_ids σ) (f (ss_resp σ)) (ss_dead σ), Ok tt).
Definition register (cid id : Id) : M unit :=
  fun σ => (mkSetState (ss_u σ) (<[cid := id]> (ss_ids σ)) (ss_resp σ) (ss_dead σ), Ok tt).
Definition keep_dead (id : Id) (o : Object) : M unit :=
  fun σ => (mkSetState (ss_u σ) (ss_ids σ) (ss_resp σ) (<[id := o]> (ss_dead σ)), Ok tt).
Definition get_ids : M (gmap Id Id) := fun σ => (σ, Ok (ss_ids σ)).

(** A method of the Update. *)
Definition on_update {A} (f : Update -> result (Update * A)) : M A := fun σ =>
  match f (ss_u σ) with
  | Ok (u, a) => (mkSetState u (ss_ids σ) (ss_resp σ) (ss_dead σ), Ok a)
  | Err e => (σ, Err e)
  end.

(** [errors.Is(err, ErrNotFound)] handled by the caller. *)
Definition if_found {A} (m : M A) : M (option A) := fun σ =>
  match m σ with
  | (σ', Ok a) => (σ', Ok (Some a))
  | (σ', Err ErrNotFound) => (σ', Ok None)
  | (σ', Err e) => (σ', Err e)
  end.

Fixpoint for_each {A} (l : list A) (f : A -> M unit) : M unit :=
  match l with [] => mret tt | x :: l' => _ ← f x; for_each l' f end.

Section methods.
Context `{MR : MapRange, TP : TimeParse, CF : CaseFold, LC : LogCodec, UC : UploadCodec, JT : JsonText}.
Context {S : Type} `{BE : Backend S}.
Context {P : Type}.

Definition sortedIds {A} (m : gmap Id A) : list Id := sort_strings (map_to_list m).*1.

(** ** Foo/get *)

(** The projection set and the computed names, [None] for an unknown name. *)
Fixpoint requested (t : Type_) (computed : option Computed) (names : list bytes) (props : gmap bytes bool) (comp : list bytes)
  : option (gmap bytes bool * list bytes) :=
  match names with
  | [] => Some (props, comp)
  | name :: names' =>
      if match t_Properties t !! name with Some p => negb (p_Internal p) | None => false end || bool_decide (name = bs "id")
      then requested t computed names' (<[name := true]> props) comp
      else if match computed with Some c => cp_Accepts c name | None => false end
      then requested t computed names' (<[name := true]> props) (if bool_decide (is_Some (props !! name)) then comp else comp ++ [name])
      else None
  end.

Definition visible_props (t : Type_) : gmap bytes bool :=
  fold_left (fun props (np : bytes * Property) => if p_Internal np.2 then props else <[np.1 := true]> props)
    (range_map (t_Properties t)) {[ bs "id" := true ]}.

(** An id included more than once is kept once. *)
Fixpoint dedup (ids : list Id) (seen : gset Id) : list Id :=
  match ids with
  | [] => []
  | id :: ids' => if bool_decide (id ∈ seen) then dedup ids' seen else id :: dedup ids' ({[ id ]} ∪ seen)
  end.

(** The response object of one loaded record. *)
Definition get_object (ext : Extensions P) (acct : Id) (props : gmap bytes bool) (computed : list bytes) (extra : gmap bytes bytes) (obj : Object)
  : result Object :=
  match computed, ex_Computed ext with
  | [], _ => Ok obj
  | _, None => Err Panic
  | _, Some c =>
      resolved ← cp_Resolve c acct obj computed extra;
      let filtered : Object := filter (fun nv : bytes * bytes => is_Some (props !! nv.1)) obj in
      Ok (fold_left (fun o name => match resolved !! name with Some v => <[name := v]> o | None => o end) computed filtered)
  end.

Fixpoint get_list (ext : Extensions P) (acct : Id) (props : gmap bytes bool) (computed : list bytes) (extra : gmap bytes bytes) (explicitIds : bool)
  (l : list (Id * option Object)) : result (list Object * list Id) :=
  match l with
  | [] => Ok ([], [])
  | (id, None) :: l' =>
      r ← get_list ext acct props computed extra explicitIds l';
      Ok (r.1, if explicitIds then id :: r.2 else r.2)
  | (id, Some obj) :: l' =>
      o ← get_object ext acct props computed extra obj;
      r ← get_list ext acct props computed extra explicitIds l';
      Ok (o :: r.1, r.2)
  end.

(** The id listing, the load and the state read may each observe a different
    store: Foo/get takes no lease. *)
Definition get (sd : stdType S) (ext : Extensions P) (s_ids s_load s_state : S) (ident : Identity) (a : getArgs) (extra : gmap bytes bytes)
  : outcome getResponse :=
  let t := sd_t sd in
  _ ← checkAccount ident (g_AccountId a) false;
  if match g_Properties a with Some l => MaxRequestedProperties <? Z.of_nat (length l) | None => false end then Fail ErrInvalidArguments
  else
    let reqProps := match g_Properties a with Some l => Some l | None => ex_DefaultGetProperties ext end in
    pc ← match reqProps with
         | Some names => match requested t (ex_Computed ext) names {[ bs "id" := true ]} [] with
                         | Some pc => Reply pc
                         | None => Fail ErrInvalidArguments
                         end
         | None => Reply (visible_props t, [])
         end;
    let '(props, computed) := pc in
    let maxGet := sd_MaxObjectsInGet sd in
    ids ← match g_Ids a with
          | None =>
              all ← served (AllIds (sd_db sd) s_ids (g_AccountId a) (t_Name t) (maxGet + 1));
              if maxGet <? Z.of_nat (length all) then Fail ErrRequestTooLarge else Reply all
          | Some l => if maxGet <? Z.of_nat (length l) then Fail ErrRequestTooLarge else Reply (dedup l ∅)
          end;
    objs ← served (GetManyProjected (sd_db sd) s_load (g_AccountId a) (t_Name t) ids (match computed with [] => Some props | _ => None end));
    r ← served (get_list ext (g_AccountId a) props computed extra (bool_decide (is_Some (g_Ids a))) (zip ids objs));
    state ← served (TypeState (sd_db sd) s_state (g_AccountId a) (t_Name t));
    Reply (mkGetResponse state r.1 r.2).

(** ** Foo/changes *)

(** The change set, and the members a type adds to the response. *)
Definition changes (sd : stdType S) (ext : Extensions P) (s_seq s_floor s_log s_floor2 s_state : S) (ident : Identity) (a : changesArgs) (extra : gmap bytes bytes)
  : outcome (ChangeSet * gmap bytes bytes) :=
  _ ← checkAccount ident (ch_AccountId a) false;
  match ch_SinceState a with
  | None => Fail ErrInvalidArguments
  | Some since =>
      max ← match ch_MaxChanges a with
            | None => Reply DefaultMaxChanges
            | Some m => if (m <=? 0) || negb (ValidUnsignedInt m) then Fail ErrInvalidArguments else Reply m
            end;
      match Changes (sd_db sd) s_seq s_floor s_log s_floor2 s_state (ch_AccountId a) (t_Name (sd_t sd)) since max with
      | Ok cs =>
          match ex_Changes ext with
          | None => Reply (cs, ∅)
          | Some f => fields ← served (f (ch_AccountId a) cs extra); Reply (cs, fields)
          end
      | Err ErrCannotCalculateChanges => Fail ErrCannotCalculate
      | Err _ => Fail ErrServerFail
      end
  end.

(** ** Foo/set *)

Section set.
Variable sd : stdType S.
Variable ext : Extensions P.
Variable s : S. (* the store under the account's lease *)
Variable acct : Id.
Variable extra : gmap bytes bytes.
(** The clock in milliseconds and the random bytes of each create. *)
Variable entropy : Id -> Z * bytes.

Abbreviation t := (sd_t sd).
Abbreviation db := (sd_db sd).

(** Creates prepared outside the lease. *)
Definition commitPreparedCreates (hooks : Update -> P -> result (Update * (Id * Object + SetError)))
  (creates : gmap Id bytes) (prepared : gmap Id P) (prepErrs : gmap Id SetError) : M unit :=
  for_each (sortedIds creates) (fun cid =>
    match prepErrs !! cid with
    | Some serr => respond (notCreated cid serr)
    | None =>
        match prepared !! cid with
        | None => throw Panic
        | Some p =>
            r ← on_update (fun u => hooks u p);
            match r with
            | Datatypes.inr serr => respond (notCreated cid serr)
            | Datatypes.inl (id, echo) => _ ← register cid id; respond (created cid echo)
            end
        end
    end).

(** The names a create may not carry. *)
Definition create_bad (obj : Object) : list bytes :=
  (if bool_decide (is_Some (obj !! bs "id")) then [bs "id"] else []) ++
  (List.filter (fun nr : bytes * bytes =>
      negb (bool_decide (nr.1 = bs "id")) &&
      match t_Properties t !! nr.1 with None => true | Some p => p_ServerSet p || p_Internal p end) (range_map obj)).*1.

(** Declared defaults of omitted properties; writing to a nil map panics. *)
Fixpoint add_defaults (l : list (bytes * Property)) (obj : option Object) : result (option Object) :=
  match l with
  | [] => Ok obj
  | (name, p) :: l' =>
      match p_Default p with
      | None => add_defaults l' obj
      | Some d =>
          match obj with
          | Some o => add_defaults l' (Some (match o !! name with Some _ => o | None => <[name := d]> o end))
          | None => Err Panic
          end
      end
  end.

Record pendingCreate := mkPending { pc_obj : Object; pc_sent : gset bytes }.

(** The decoding of the create map. *)
Fixpoint decode_creates (creates : gmap Id bytes) (cids : list Id) (pending : gmap Id pendingCreate) : M (gmap Id pendingCreate) :=
  match cids with
  | [] => mret pending
  | cid :: cids' =>
      match DecodeObject (default [] (creates !! cid)) ∅ with
      | Err _ => _ ← respond (notCreated cid (plainError SetErrInvalidProperties)); decode_creates creates cids' pending
      | Ok obj =>
          match create_bad (default ∅ obj) with
          | [] =>
              obj' ← lift (add_defaults (range_map (t_Properties t)) obj);
              decode_creates creates cids' (<[cid := mkPending (default ∅ obj') (dom (default ∅ obj))]> pending)
          | bad => _ ← respond (notCreated cid (invalidProperties bad)); decode_creates creates cids' pending
          end
      end
  end.

(** [Validate] for a create or an update. *)
Definition validate (old : option Object) (new : Object) : M (Object + SetError) :=
  match sh_Validate (ex_Set ext) with
  | None => mret (Datatypes.inl new)
  | Some v =>
      on_update (fun u =>
        r ← v u old new extra;
        Ok (r.1.1, match r.2 with Some serr => Datatypes.inr serr | None => Datatypes.inl r.1.2 end))
  end.

(** One create whose references are resolved. *)
Definition create_one (cid : Id) (obj : Object) (sent : gset bytes) : M unit :=
  match checkValues t obj with
  | [] =>
      bad ← lift (checkBlobRefs s acct t obj);
      match bad with
      | [] =>
          v ← validate None obj;
          match v with
          | Datatypes.inr serr => respond (notCreated cid serr)
          | Datatypes.inl obj' =>
              id ← on_update (fun u => Create db u (entropy cid).1 (entropy cid).2 (t_Name t) obj');
              _ ← register cid id;
              stored ← on_update (fun u => u_Get db s acct u (t_Name t) id);
              respond (created cid (filter (fun nv : bytes * bytes => nv.1 ∉ sent) (default ∅ stored)))
          end
      | _ => respond (notCreated cid (invalidProperties bad))
      end
  | bad => respond (notCreated cid (invalidProperties bad))
  end.

(** One pass over the pending creates in order of creation id. *)
Fixpoint create_pass (cids : list Id) (pending : gmap Id pendingCreate) (progress : bool) : M (gmap Id pendingCreate * bool) :=
  match cids with
  | [] => mret (pending, progress)
  | cid :: cids' =>
      match pending !! cid with
      | None => throw Panic
      | Some pc =>
          ids ← get_ids;
          let '(obj, unresolved) := resolveIdRefs t (pc_obj pc) ids in
          match unresolved with
          | [] => _ ← create_one cid obj (pc_sent pc); create_pass cids' (delete cid pending) true
          | _ => create_pass cids' (<[cid := mkPending obj (pc_sent pc)]> pending) progress
          end
      end
  end.

(** Creates that will never resolve. *)
Definition reject_unresolved (pending : gmap Id pendingCreate) : M unit :=
  for_each (range_map pending) (fun cp =>
    ids ← get_ids;
    respond (notCreated cp.1 (invalidProperties (resolveIdRefs t (pc_obj cp.2) ids).2))).

Fixpoint create_rounds (fuel : nat) (pending : gmap Id pendingCreate) : M unit :=
  if bool_decide (pending = ∅) then mret tt
  else
    match fuel with
    | O => throw OutOfFuel
    | Datatypes.S fuel' =>
        r ← create_pass (sortedIds pending) pending false;
        if r.2 : bool then create_rounds fuel' r.1 else reject_unresolved r.1
    end.

Definition processCreates (creates : gmap Id bytes) : M unit :=
  pending ← decode_creates creates (sortedIds creates) ∅;
  create_rounds (Datatypes.S (size pending)) pending.

(** What a [Validate] hook changed, for the response. *)
Definition hookSideEffects (before after : Object) : option Object :=
  let visible := fun name => negb (is_internal t name) in
  let changed := List.filter (fun nv : bytes * bytes => visible nv.1 && negb (jsonEqual (before !! nv.1) (Some nv.2))) (range_map after) in
  let removed := List.filter (fun nv : bytes * bytes => visible nv.1 && negb (bool_decide (is_Some (after !! nv.1)))) (range_map before) in
  match changed ++ map (fun nv => (nv.1, bs "null")) removed with
  | [] => None
  | l => Some (list_to_map l)
  end.

Definition update_one (updates : gmap Id bytes) (uid : Id) : M unit :=
  ids ← get_ids;
  match resolveIdArg uid ids with
  | None => respond (notUpdated uid (plainError SetErrNotFound))
  | Some realId =>
      cur ← if_found (on_update (fun u => u_Get db s acct u (t_Name t) realId));
      match cur with
      | None => respond (notUpdated uid (plainError SetErrNotFound))
      | Some current =>
          match json_object (default [] (updates !! uid)) with
          | None => respond (notUpdated uid (plainError SetErrInvalidPatch))
          | Some patch =>
              match applyPatch t (default ∅ current) patch ids with
              | Datatypes.inr serr => respond (notUpdated uid serr)
              | Datatypes.inl newObj =>
                  bad ← lift (checkBlobRefs s acct t newObj);
                  match bad with
                  | [] =>
                      v ← validate current newObj;
                      match v with
                      | Datatypes.inr serr => respond (notUpdated uid serr)
                      | Datatypes.inl newObj' =>
                          let side := match sh_Validate (ex_Set ext) with Some _ => hookSideEffects newObj newObj' | None => None end in
                          _ ← on_update (fun u => u' ← Put db s acct u (t_Name t) realId newObj'; Ok (u', tt));
                          respond (updated realId side)
                      end
                  | _ => respond (notUpdated uid (invalidProperties bad))
                  end
              end
          end
      end
  end.

Definition processUpdates (updates : gmap Id bytes) : M unit := for_each (sortedIds updates) (update_one updates).

Definition destroy_one (did : Id) : M unit :=
  ids ← get_ids;
  match resolveIdArg did ids with
  | None => respond (notDestroyed did (plainError SetErrNotFound))
  | Some realId =>
      let hook := sh_Destroy (ex_Set ext) in
      old ← (if bool_decide (is_Some hook) || sh_AfterSet (ex_Set ext)
             then o ← if_found (on_update (fun u => u_Get db s acct u (t_Name t) realId)); mret (mjoin o)
             else mret None);
      rejected ← match hook, old with
                 | Some h, Some _ => on_update (fun u => h u realId extra)
                 | _, _ => mret None
                 end;
      match rejected with
      | Some serr => respond (notDestroyed did serr)
      | None =>
          gone ← if_found (on_update (fun u => u' ← Destroy db s acct u (t_Name t) realId; Ok (u', tt)));
          match gone with
          | None => respond (notDestroyed did (plainError SetErrNotFound))
          | Some _ =>
              _ ← match sh_AfterSet (ex_Set ext), old with true, Some o => keep_dead realId o | _, _ => mret tt end;
              respond (destroyed realId)
          end
      end
  end.

Definition processDestroys (destroy : list Id) : M unit := for_each destroy destroy_one.

(** The function a Foo/set hands to [Update]. *)
Definition set_body (a : setArgs) (prepared : gmap Id P) (prepErrs : gmap Id SetError) : M unit :=
  state ← lift (TypeState db s acct (t_Name t));
  _ ← respond (oldState state);
  if match sa_IfInState a with Some want => negb (bool_decide (want = state)) | None => false end then throw errStateMismatch
  else
    _ ← match sh_Create (ex_Set ext) with
        | Some hooks => commitPreparedCreates hooks.2 (sa_Create a) prepared prepErrs
        | None => processCreates (sa_Create a)
        end;
    _ ← processUpdates (sa_Update a);
    processDestroys (sa_Destroy a).
End set.

(** [PrepareCreate] over the creates, before the commit opens. *)
Fixpoint prepare_creates (prepare : Id -> Id -> bytes -> result (P + SetError)) (acct : Id) (creates : gmap Id bytes) (cids : list Id)
  (prepared : gmap Id P) (errs : gmap Id SetError) : result (gmap Id P * gmap Id SetError) :=
  match cids with
  | [] => Ok (prepared, errs)
  | cid :: cids' =>
      r ← prepare acct cid (default [] (creates !! cid));
      match r with
      | Datatypes.inl p => prepare_creates prepare acct creates cids' (<[cid := p]> prepared) errs
      | Datatypes.inr e => prepare_creates prepare acct creates cids' prepared (<[cid := e]> errs)
      end
  end.

(** What a Foo/set leaves behind: the response, the commit, and what the
    [AfterSet] hook is given. *)
Record SetDone := mkSetDone {
  sd_resp : setResponse;
  sd_commit : Committed (S := S);
  sd_dead : gmap Id Object;
}.

(** The answer, and the request's creation ids afterwards. *)
Definition set (sd : stdType S) (ext : Extensions P) (maxSet : Z) (s : S) (ident : Identity) (fence : Batch -> Batch) (now : Z)
  (entropy : Id -> Z * bytes) (ids0 : gmap Id Id) (a : setArgs) (extra : gmap bytes bytes) : outcome SetDone * gmap Id Id :=
  let acct := sa_AccountId a in
  match checkAccount ident acct true with
  | Fail e => (Fail e, ids0)
  | Reply _ =>
      if maxSet <? Z.of_nat (size (sa_Create a) + size (sa_Update a) + length (sa_Destroy a)) then (Fail ErrRequestTooLarge, ids0)
      else
        match (match sh_Create (ex_Set ext) with
               | Some hooks => prepare_creates hooks.1 acct (sa_Create a) (sortedIds (sa_Create a)) ∅ ∅
               | None => Ok (∅, ∅)
               end) with
        | Err _ => (Fail ErrServerFail, ids0)
        | Ok (prepared, prepErrs) =>
            match Sequence s acct with
            | Err _ => (Fail ErrServerFail, ids0)
            | Ok cur =>
                let body := fun u => set_body sd ext s acct extra entropy a prepared prepErrs (mkSetState u ids0 emptyResponse ∅) in
                let σ := (body (newUpdate (int64 (cur + 1)))).1 in
                match update (sd_db sd) s acct fence now (fun u => match body u with (σ, Ok _) => Ok (ss_u σ) | (_, Err e) => Err e end) with
                | Err errStateMismatch => (Fail ErrStateMismatch, ss_ids σ)
                | Err _ => (Fail ErrServerFail, ss_ids σ)
                | Ok c =>
                    let state := default (sr_OldState (ss_resp σ)) (c_states c !! t_Name (sd_t sd)) in
                    (Reply (mkSetDone (newState state (ss_resp σ)) c (ss_dead σ)), ss_ids σ)
                end
            end
        end
  end.
End methods.
End Standard.
