(* ===== verification/PatchFacts.v ===== *)
(** * PatchFacts: what PatchObjects and references keep

    A patched record keeps its values well formed and its immutable
    properties, which is what the indexes rely on. *)

From S2P Require Import Prelude GoLib Keyenc Backend Jsonscan Jsongrammar Jsonobject Jmap Descriptor Keys ObjectDB Commit Indexing CommitFacts CommitIndex.
From S2P Require Import Typed Sorting Filter Patch.

Module PatchFacts.
Import Keyenc Backend Jsonscan Jsongrammar Jsonobject Jmap Descriptor Keys ObjectDB Commit Indexing CommitFacts CommitIndex Filter Patch.

(** What the code relies on of [encoding/json] and [reflect]: marshalled text
    has no surrounding white space; an id marshals to a string that decodes to
    it; equal values of a property's kind have one index value. *)
Class JsonTextLaws `{TP : TimeParse, CF : CaseFold, JT : JsonText} : Prop := {
  marshal_string_compact v : trim (marshal_string v) = marshal_string v;
  marshal_string_id v : Valid v = true -> json_string (marshal_string v) = Some v;
  marshal_members_compact m r : marshal_members m = Some r -> trim r = r;
  json_same_index p a b : composite (p_Kind p) = false -> CheckValue p a = Ok tt -> CheckValue p b = Ok tt ->
    json_same a b = true -> indexValue p a = indexValue p b;
}.

(** ** Decoded values carry no surrounding white space *)

Lemma trim_value v : JValue 1 v -> trim v = v.
Proof. intros Hv. rewrite <- (app_nil_r v) at 1. by apply (trim_single [] v []). Qed.

Lemma compact_empty : compact ∅.
Proof. intros k v. by rewrite lookup_empty. Qed.

Lemma compact_insert (o : Object) (name v : bytes) : trim v = v -> compact o -> compact (<[name := v]> o).
Proof. intros Hv Ho k v' [[_ <-]|[_ H]]%lookup_insert_Some; [done|by eapply Ho]. Qed.

Lemma compact_delete (o : Object) (name : bytes) : compact o -> compact (delete name o).
Proof. intros Ho k v [_ H]%lookup_delete_Some. by eapply Ho. Qed.

#[export] Hint Resolve compact_empty compact_insert compact_delete : naust.

Lemma decode_members_compact (fuel : nat) (names obj : gmap bytes bytes) (s : bytes) (o : Object) :
  compact obj -> decode_members fuel names obj s = Ok o -> compact o.
Proof.
  revert obj s. induction fuel as [|fuel IH]; intros obj s Hc; [done|]. cbn [decode_members].
  intros (key & _ & ([a b] & Hv & H)%result_bind_Ok)%result_bind_Ok. apply colon_value_sound in Hv as [(v & -> & Hv)%skip_value_sound _].
  cbn [fst snd] in H. rewrite span_app in H. apply result_bind_Ok in H as ([[] rest] & _ & H); cbn [fst snd] in H.
  - eapply IH; [|exact H]. apply compact_insert; [by apply trim_value|done].
  - apply result_bind_Ok in H as (_ & _ & [= <-]). apply compact_insert; [by apply trim_value|done].
Qed.

Lemma DecodeObject_compact (raw : bytes) (names : gmap bytes bytes) (o : option Object) : DecodeObject raw names = Ok o -> compact (default ∅ o).
Proof.
  unfold DecodeObject. intros ([| |s] & _ & H)%result_bind_Ok; try (injection H as <-; apply compact_empty).
  apply result_bind_Ok in H as (m & Hm & [= <-]). eapply decode_members_compact; [|exact Hm]. apply compact_empty.
Qed.

Lemma json_object_compact (raw : bytes) (m : gmap bytes bytes) : json_object raw = Some m -> compact m.
Proof.
  unfold json_object. destruct (DecodeObject raw ∅) as [o|] eqn:E; [|done]. intros [= <-]. by eapply DecodeObject_compact.
Qed.

Lemma marshal_id_compact (id : Id) : Valid id = true -> trim (marshal_id id) = marshal_id id.
Proof.
  intros Hv%Typed.Valid_chars. change (marshal_id id) with (quoted id). apply trim_value, JV_string.
  induction Hv as [|c id Hc Hv IH]; constructor; [by apply Typed.id_char_plain in Hc as [? _]|done].
Qed.

(** A string literal is not null. *)
Lemma drop_spaces_snoc l (p : Z * bytes) : IsSpace p.1 = false -> exists l', drop_spaces (l ++ [p]) = l' ++ [p].
Proof.
  intros Hp. induction l as [|q l IH]; cbn [drop_spaces app].
  - rewrite Hp. by exists [].
  - destruct (IsSpace q.1); [done|]. by exists (q :: l).
Qed.

Lemma TrimSpace_quote (s : bytes) : exists s', TrimSpace (x22 :: s) = x22 :: s'.
Proof.
  unfold TrimSpace, range_string. cbn [length runes].
  replace (DecodeRune (x22 :: s)) with (34, 1%nat) by done. cbn [take drop drop_spaces fst]. change (IsSpace 34) with false. cbn [rev].
  destruct (drop_spaces_snoc (rev (runes (length s) (drop 0 s))) (34, x22 :: take 0 s) eq_refl) as [l' ->]. rewrite rev_unit. cbn [map concat snd app]. eauto.
Qed.

Lemma isNull_quoted (b : bytes) : isNull (quoted b) = false.
Proof. unfold isNull, quoted. destruct (TrimSpace_quote (b ++ [x22])) as [s' ->]. by apply bool_decide_false. Qed.

(** ** PatchObjects *)

(** Values of scalar properties are of their kind. *)
Definition scalars_checked `{TP : TimeParse} (t : Type_) (o : Object) : Prop :=
  forall name p raw, t_Properties t !! name = Some p -> composite (p_Kind p) = false -> o !! name = Some raw -> CheckValue p raw = Ok tt.

Section patches.
Context `{MR : MapRange, TP : TimeParse, CF : CaseFold, JT : JsonText, JL : !JsonTextLaws}.
Variable t : Type_.
Hypothesis Hv : Validate t = Ok tt.
Hypothesis Hdef : forall name p d, t_Properties t !! name = Some p -> p_Default p = Some d -> trim d = d.

Lemma resolveIdValue_compact (v : bytes) (ids : gmap Id Id) (v' : bytes) : trim v = v -> resolveIdValue v ids = Some v' -> trim v' = v'.
Proof.
  intros Hc. unfold resolveIdValue. destruct (json_string v) as [[|c rest]|]; try (by intros [= <-]).
  destruct (c =b hash); [|by intros [= <-]]. destruct (ids !! rest); [|done]. intros [= <-]. apply marshal_string_compact.
Qed.

(** The default of a property is of its kind. *)
Lemma default_checked (name : bytes) (p : Property) (d : bytes) : t_Properties t !! name = Some p -> p_Default p = Some d -> CheckValue p d = Ok tt.
Proof.
  intros Hp Hd. destruct (Validate_property t name p Hv Hp) as [Hc _]. unfold check_property in Hc.
  repeat (case_match; [done|]). apply result_bind_Ok in Hc as (_ & _ & Hc). by rewrite Hd in Hc.
Qed.

Definition kept (o : Object) : Prop := compact o /\ scalars_checked t o.

Lemma kept_set (o : Object) (name : bytes) (p : Property) (v : bytes) :
  t_Properties t !! name = Some p -> trim v = v -> composite (p_Kind p) = true \/ CheckValue p v = Ok tt -> kept o -> kept (<[name := v]> o).
Proof.
  intros Hp Hc Hk [H1 H2]. split; [by apply compact_insert|]. intros name' p' raw Hp' Hs Hr.
  apply lookup_insert_Some in Hr as [[<- <-]|[_ Hr]]; [|by eapply H2]. rewrite Hp in Hp'. injection Hp' as <-. destruct Hk; congruence.
Qed.

Lemma kept_id (o : Object) (v : bytes) :
  trim v = v -> kept o -> kept (delete (bs "id") o) /\ kept (<[bs "id" := v]> o).
Proof.
  intros Hc [H1 H2]. split; (split; [eauto with naust|]); intros name p raw Hp Hs Hr.
  - apply lookup_delete_Some in Hr as [_ Hr]. by eapply H2.
  - apply lookup_insert_Some in Hr as [[<- _]|[_ Hr]]; [|by eapply H2]. by destruct (Validate_property t _ p Hv Hp).
Qed.

Lemma kept_delete (o : Object) (name : bytes) : kept o -> kept (delete name o).
Proof.
  intros [H1 H2]. split; [eauto with naust|]. intros n p raw Hp Hs Hr. apply lookup_delete_Some in Hr as [_ Hr]. by eapply H2.
Qed.

Lemma patch_member_kept (o o' : Object) (name key v : bytes) :
  patch_member t o name key v = Some o' -> kept o -> kept o'.
Proof.
  unfold patch_member. destruct (t_Properties t !! name) as [p|] eqn:Hp; [|done]. destruct (p_Internal p || _) eqn:E; [done|].
  apply orb_false_iff in E as [_ E]. apply negb_false_iff, bool_decide_eq_true in E.
  intros (m & _ & (r & Hr & [= <-])%bind_Some)%bind_Some. apply (kept_set o name p r Hp); [by eapply marshal_members_compact|].
  left. by rewrite E.
Qed.

Lemma patch_property_kept (ids : gmap Id Id) (o : Object) (name v : bytes) :
  trim v = v -> kept o -> kept (patch_property t ids o name v).1.
Proof.
  intros Hc Hk. unfold patch_property. case_bool_decide as En.
  { subst name. destruct (kept_id o v Hc Hk). by destruct (isNull v). }
  destruct (t_Properties t !! name) as [p|] eqn:Hp; [|done]. destruct (p_Internal p); [done|]. destruct (isNull v).
  - destruct (p_Default p) as [d|] eqn:Ed; cbn [fst]; [|by apply kept_delete].
    apply (kept_set o name p d Hp); [by eapply Hdef|right; by eapply default_checked|done].
  - destruct (if bool_decide (p_Kind p = KindId) then _ else _) as [v'|] eqn:Er; [|done].
    destruct (CheckValue p v') as [[]|] eqn:Ec; [|done]. cbn [is_ok fst]. apply (kept_set o name p v' Hp); [|by right|done].
    destruct (bool_decide (p_Kind p = KindId)); [by eapply resolveIdValue_compact|by injection Er as <-].
Qed.

Lemma patch_all_kept (ids : gmap Id Id) (patch : gmap bytes bytes) (paths : list bytes) (o : Object) (invalid : list bytes) (o' : Object) (invalid' : list bytes) :
  compact patch -> patch_all t ids patch paths o invalid = Some (o', invalid') -> kept o -> kept o'.
Proof.
  intros Hpc. revert o invalid. induction paths as [|path paths IH]; intros o invalid; cbn [patch_all].
  { by intros [= <- _]. }
  assert (trim (default [] (patch !! path)) = default [] (patch !! path)) as Hc.
  { destruct (patch !! path) as [v|] eqn:E; [by eapply Hpc|done]. }
  destruct (segments path) as [|name [|key [|? ?]]]; try done.
  - pose proof (patch_property_kept ids o name _ Hc) as Hp. destruct (patch_property _ _ _ _ _) as [o1 ok]. intros H Hk. eapply IH; [exact H|]. by apply Hp.
  - intros (o1 & H1 & H)%bind_Some Hk. eapply IH; [exact H|]. by eapply patch_member_kept.
Qed.

Lemma applyPatch_inl (cur new : Object) (patch : gmap bytes bytes) (ids : gmap Id Id) :
  applyPatch t cur patch ids = Datatypes.inl new ->
  patch_all t ids patch (sort_strings (map_to_list patch).*1) cur [] = Some (new, []) /\ changed_fixed t cur new = [].
Proof.
  unfold applyPatch. destruct (existsb _ _); [done|]. destruct (patch_all _ _ _ _ _ _) as [[o inv]|]; [|done].
  destruct (inv ++ changed_fixed t cur o) eqn:E; [|done]. intros [= ->]. by apply app_eq_nil in E as [-> ->].
Qed.

Lemma applyPatch_kept (cur new : Object) (patch : gmap bytes bytes) (ids : gmap Id Id) :
  compact patch -> applyPatch t cur patch ids = Datatypes.inl new -> kept cur -> kept new.
Proof. intros Hpc [H _]%applyPatch_inl. by eapply patch_all_kept. Qed.

(** A fixed property keeps its value. *)
Lemma applyPatch_fixed (cur new : Object) (patch : gmap bytes bytes) (ids : gmap Id Id) (name : bytes) :
  applyPatch t cur patch ids = Datatypes.inl new -> name ∈ fixed_names t -> jsonEqual (new !! name) (cur !! name) = true.
Proof.
  intros [_ H]%applyPatch_inl Hn. destruct (jsonEqual _ _) eqn:E; [done|]. exfalso.
  assert (name ∈ changed_fixed t cur new) as Hin; [|rewrite H in Hin; by apply not_elem_of_nil in Hin].
  unfold changed_fixed. apply list_elem_of_In, filter_In. split; [by apply list_elem_of_In|]. by rewrite E.
Qed.

Lemma immutable_fixed (name : bytes) (p : Property) : t_Properties t !! name = Some p -> p_Immutable p = true -> name ∈ fixed_names t.
Proof.
  intros Hp Hi. unfold fixed_names. right. apply list_elem_of_fmap. exists (name, p). split; [done|].
  apply list_elem_of_In, filter_In. split; [apply list_elem_of_In; by apply elem_of_range_map|]. cbn. by rewrite Hi, orb_true_r.
Qed.

(** The order siblings of an indexed property keep their index values. *)
Lemma applyPatch_orders (cur new : Object) (patch : gmap bytes bytes) (ids : gmap Id Id) (name : bytes) (p : Property) :
  applyPatch t cur patch ids = Datatypes.inl new -> compact patch -> kept cur -> t_Properties t !! name = Some p ->
  orderSegs t p (Some cur) = orderSegs t p (Some new).
Proof.
  intros Ha Hpc Hcur Hp. pose proof (applyPatch_kept _ _ _ _ Hpc Ha Hcur) as Hnew.
  destruct (Validate_property t name p Hv Hp) as [Hck _]. apply check_property_indexed in Hck as (_ & _ & Hob).
  unfold orderSegs. induction (p_OrderBy p) as [|ob obs IH]; [done|]. cbn [order_segs]. rewrite IH by (intros; apply Hob; by right).
  destruct (Hob ob) as (_ & _ & op & Hop & Hsc & Him); [by left|].
  pose proof (applyPatch_fixed _ _ _ _ ob Ha (immutable_fixed _ _ Hop Him)) as He. rewrite Hop. unfold default, id.
  destruct (new !! ob) as [b|] eqn:Eb, (cur !! ob) as [a|] eqn:Ea; try done. cbn in He.
  rewrite (json_same_index op b a Hsc); [done|by apply (proj2 Hnew ob)|by apply (proj2 Hcur ob)|done].
Qed.

(** ** References *)

(** [v'] is what [v] becomes when a reference resolves as [ok] says. *)
Definition linked (ok : Id -> Id -> Prop) (v v' : bytes) : Prop :=
  match json_string v with
  | Some (c :: rest) => if c =b hash then exists real, ok rest real /\ v' = marshal_string real else v' = v
  | _ => v' = v
  end.

Definition is_id (name : bytes) : bool := match t_Properties t !! name with Some p => bool_decide (p_Kind p = KindId) | None => false end.

(** [o] is [base] with its references resolved; [some] while only some are. *)
Definition resolves (some : bool) (ok : Id -> Id -> Prop) (base o : Object) : Prop :=
  forall name, match base !! name with
    | None => o !! name = None
    | Some v => exists v', o !! name = Some v' /\ (if is_id name then linked ok v v' \/ some = true /\ v' = v else v' = v)
    end.

Lemma resolves_start (ok : Id -> Id -> Prop) (base : Object) : resolves true ok base base.
Proof. intros name. destruct (base !! name) as [v|]; [|done]. exists v. split; [done|]. destruct (is_id name); auto. Qed.

Lemma linked_mono (ok ok' : Id -> Id -> Prop) (v v' : bytes) : (forall c r, ok c r -> ok' c r) -> linked ok v v' -> linked ok' v v'.
Proof.
  intros Ho. unfold linked. destruct (json_string v) as [[|c rest]|]; [done| |done]. destruct (c =b hash); [|done]. intros (r & H & ->). eauto.
Qed.

Lemma resolves_mono (some : bool) (ok ok' : Id -> Id -> Prop) (base o : Object) :
  (forall c r, ok c r -> ok' c r) -> resolves some ok base o -> resolves some ok' base o.
Proof.
  intros Ho H name. specialize (H name). destruct (base !! name); [|done]. destruct H as (v' & Hv' & H). exists v'. split; [done|].
  destruct (is_id name); [|done]. destruct H as [H|H]; [left; by eapply linked_mono|by right].
Qed.

(** A resolved value is not a reference. *)
Lemma resolved_stays (ids : gmap Id Id) (v : bytes) : Valid v = true -> resolveIdValue (marshal_string v) ids = Some (marshal_string v).
Proof.
  intros Hval. unfold resolveIdValue. rewrite (marshal_string_id v Hval). destruct v as [|c v]; [done|].
  destruct (c =b hash) eqn:E; [|done]. apply beqb_eq in E as ->.
  apply Typed.Valid_chars in Hval. inversion Hval as [|? ? Hc]; subst. discriminate Hc.
Qed.

Lemma linked_resolve (ok : Id -> Id -> Prop) (ids : gmap Id Id) (v v' : bytes) :
  (forall c r, ids !! c = Some r -> ok c r) -> (forall c r, ok c r -> Valid r = true) ->
  linked ok v v' \/ v' = v -> match resolveIdValue v' ids with Some v2 => linked ok v v2 | None => v' = v end.
Proof.
  intros Hi Hval. unfold linked. destruct (json_string v) as [[|c rest]|] eqn:Ej.
  - intros H. assert (v' = v) as -> by (by destruct H). unfold resolveIdValue. by rewrite Ej.
  - destruct (c =b hash) eqn:Ec.
    + intros [(r & Hr & ->)| ->].
      * rewrite resolved_stays by (by eapply Hval). eauto.
      * unfold resolveIdValue. rewrite Ej, Ec. destruct (ids !! rest) as [r|] eqn:Er; [|done]. eauto.
    + intros H. assert (v' = v) as -> by (by destruct H). unfold resolveIdValue. by rewrite Ej, Ec.
  - intros H. assert (v' = v) as -> by (by destruct H). unfold resolveIdValue. by rewrite Ej.
Qed.

(** One pass over the properties. *)
Lemma resolve_fold (ids : gmap Id Id) (l : list (bytes * Property)) (o : Object) (un : list bytes) (o' : Object) (un' : list bytes) :
  NoDup l.*1 -> fold_left (resolve_ref ids) l (o, un) = (o', un') ->
  (forall name, name ∉ l.*1 -> o' !! name = o !! name) /\
  (forall name p, (name, p) ∈ l -> o' !! name = if bool_decide (p_Kind p = KindId) then (fun raw => default raw (resolveIdValue raw ids)) <$> o !! name else o !! name) /\
  (un' = [] -> un = [] /\ forall name p raw, (name, p) ∈ l -> p_Kind p = KindId -> o !! name = Some raw -> is_Some (resolveIdValue raw ids)).
Proof.
  revert o un. induction l as [|[name p] l IH]; intros o un Hnd; cbn [fold_left].
  { intros [= <- <-]. split_and!; [done|intros ? ? H; by apply not_elem_of_nil in H|]. intros ->. split; [done|]. intros ? ? ? H. by apply not_elem_of_nil in H. }
  cbn in Hnd. inversion Hnd as [|? ? Hni Hnd']; subst.
  assert (forall o1 un1, fold_left (resolve_ref ids) l (o1, un1) = (o', un') -> (forall n, n <> name -> o1 !! n = o !! n) ->
    o1 !! name = (if bool_decide (p_Kind p = KindId) then (fun raw => default raw (resolveIdValue raw ids)) <$> o !! name else o !! name) ->
    (un1 = [] -> un = [] /\ forall raw, p_Kind p = KindId -> o !! name = Some raw -> is_Some (resolveIdValue raw ids)) ->
    (forall n, n ∉ ((name, p) :: l).*1 -> o' !! n = o !! n) /\
    (forall n q, (n, q) ∈ (name, p) :: l -> o' !! n = if bool_decide (p_Kind q = KindId) then (fun raw => default raw (resolveIdValue raw ids)) <$> o !! n else o !! n) /\
    (un' = [] -> un = [] /\ forall n q raw, (n, q) ∈ (name, p) :: l -> p_Kind q = KindId -> o !! n = Some raw -> is_Some (resolveIdValue raw ids))) as Hstep.
  { intros o1 un1 H Hne Heq Hun. destruct (IH o1 un1 Hnd' H) as (H1 & H2 & H3). 
    assert (forall n q, (n, q) ∈ l -> n <> name) as Hl by (intros n q Hin ->; apply Hni, list_elem_of_fmap; by exists (name, q)).
    split_and!.
    - intros n Hn. cbn in Hn. apply not_elem_of_cons in Hn as [Hn1 Hn2]. rewrite H1 by done. by apply Hne.
    - intros n q [[= -> ->]|Hin]%elem_of_cons; [by rewrite H1|]. rewrite (H2 n q Hin), Hne by (by eapply Hl). done.
    - intros Hu. destruct (H3 Hu) as [Hu1 H4]. destruct (Hun Hu1) as [-> H5]. split; [done|].
      intros n q raw [[= -> ->]|Hin]%elem_of_cons Hk Hr; [by apply H5|]. apply (H4 n q raw Hin Hk). by rewrite Hne by (by eapply Hl). }
  unfold resolve_ref at 2. case_bool_decide as Ek; cbn [negb].
  - destruct (o !! name) as [raw|] eqn:Er; cbn [fmap option_fmap option_map].
    + destruct (resolveIdValue raw ids) as [v|] eqn:Ev; intros H; apply (Hstep _ _ H).
      * intros n Hn. by rewrite lookup_insert_ne.
      * rewrite lookup_insert_eq. cbn. by rewrite Ev.
      * intros ->. split; [done|]. intros raw' _ [= <-]. by exists v.
      * done.
      * rewrite Er. cbn. by rewrite Ev.
      * by intros [_ ?]%app_eq_nil.
    + intros H. apply (Hstep _ _ H); [done|done|]. intros ->. by split.
  - intros H. apply (Hstep _ _ H); [done| |].
    + done.
    + intros ->. by split.
Qed.

Lemma resolveIdRefs_resolves (some : bool) (ok : Id -> Id -> Prop) (base o o' : Object) (ids : gmap Id Id) (un : list bytes) :
  (forall c r, ids !! c = Some r -> ok c r) -> (forall c r, ok c r -> Valid r = true) ->
  resolves some ok base o -> resolveIdRefs t o ids = (o', un) -> resolves true ok base o' /\ (un = [] -> resolves false ok base o').
Proof.
  intros Hi Hval Hres. unfold resolveIdRefs. destruct (fold_left _ _ _) as [o1 un1] eqn:Ef. intros [= <- <-].
  apply resolve_fold in Ef as (H1 & H2 & H3); [|apply NoDup_range_map].
  assert (forall name v, base !! name = Some v -> exists v', o1 !! name = Some v' /\
    if is_id name then match o !! name ≫= (fun raw => resolveIdValue raw ids) with Some _ => linked ok v v' | None => v' = v end else v' = v) as Hval'.
  { intros name v Hb. specialize (Hres name). rewrite Hb in Hres. destruct Hres as (v' & Ho & Hr). unfold is_id in *.
    destruct (t_Properties t !! name) as [p|] eqn:Ep.
    - rewrite (H2 name p) by (by apply elem_of_range_map). rewrite Ho. case_bool_decide as Ek; [|by exists v'].
      cbn [fmap option_fmap option_map mbind option_bind]. pose proof (linked_resolve ok ids v v' Hi Hval) as Hl.
      destruct (resolveIdValue v' ids) as [v2|]; cbn [default]; [exists v2|exists v']; (split; [done|]); apply Hl; destruct Hr as [?|[_ ?]]; auto.
    - rewrite H1; [by exists v'|]. intros ([n q] & -> & Hin%elem_of_range_map)%list_elem_of_fmap. cbn in Ep. congruence. }
  assert (forall name, base !! name = None -> o1 !! name = None) as Hnone.
  { intros name Hb. specialize (Hres name). rewrite Hb in Hres. destruct (t_Properties t !! name) as [p|] eqn:Ep.
    - rewrite (H2 name p), Hres by (by apply elem_of_range_map). by case_bool_decide.
    - rewrite H1; [done|]. intros ([n q] & -> & Hin%elem_of_range_map)%list_elem_of_fmap. cbn in Ep. congruence. }
  split.
  - intros name. destruct (base !! name) as [v|] eqn:Hb; [|by apply Hnone]. destruct (Hval' name v Hb) as (v' & Ho & H). exists v'. split; [done|].
    destruct (is_id name); [|done]. destruct (_ ≫= _); [by left|by right].
  - intros Hun name. destruct (base !! name) as [v|] eqn:Hb; [|by apply Hnone]. destruct (Hval' name v Hb) as (v' & Ho & H). exists v'. split; [done|].
    assert (un1 = []) as -> by (apply Permutation_nil; by rewrite <- Hun, sort_strings_perm).
    destruct (H3 eq_refl) as [_ H4]. specialize (Hres name). rewrite Hb in Hres. destruct Hres as (v0 & Ho0 & _).
    unfold is_id in *. destruct (t_Properties t !! name) as [p|] eqn:Ep; [|done]. case_bool_decide as Ek; [|done]. left.
    destruct (H4 name p v0) as [v2 E]; [by apply elem_of_range_map|done|done|]. rewrite Ho0 in H. cbn [mbind option_bind] in H. by rewrite E in H.
Qed.

Lemma resolves_compact (some : bool) (ok : Id -> Id -> Prop) (base o : Object) : compact base -> resolves some ok base o -> compact o.
Proof.
  intros Hb Hr n v Hv'. specialize (Hr n). destruct (base !! n) as [v0|] eqn:E; [|congruence].
  destruct Hr as (v' & Ho & H). rewrite Hv' in Ho. injection Ho as <-. pose proof (Hb n v0 E) as Hc.
  assert (v = v0 \/ exists real, v = marshal_string real) as [-> |[r ->]]; [|done|apply marshal_string_compact].
  destruct (is_id n); [|by left]. destruct H as [H|[_ ?]]; [|by left]. unfold linked in H.
  destruct (json_string v0) as [[|c rest]|]; [by left| |by left]. destruct (c =b hash); [|by left]. destruct H as (r & _ & ->). right. by exists r.
Qed.

Lemma checkValues_scalars (o : Object) : checkValues t o = [] -> scalars_checked t o.
Proof.
  unfold checkValues. intros H n p raw Hp _ Hr. destruct (CheckValue p raw) as [[]|e] eqn:E; [done|exfalso].
  assert (n ∈ sort_strings (List.filter (value_bad t) (range_map o)).*1) as Hin; [|rewrite H in Hin; by apply not_elem_of_nil in Hin].
  rewrite elem_of_sort_strings, list_elem_of_fmap. exists (n, raw). split; [done|]. apply list_elem_of_In, filter_In.
  split; [apply list_elem_of_In; by apply elem_of_range_map|]. unfold value_bad. destruct (Validate_property t n p Hv Hp) as [_ Hne].
  rewrite bool_decide_false, Hp, E by done. done.
Qed.
End patches.
End PatchFacts.
