(* ===== verification/SetFacts.v ===== *)
(** * SetFacts: what a Foo/set answers

    A small program logic for the bodies of Foo/set, and the accounting of the
    response: every create, update and destroy of the request is answered, and
    the dependency loop of the creates ends. *)

From S2P Require Import Prelude GoLib Keyenc Backend Memory Jsonscan Jmap Descriptor Keys ObjectDB Commit Changes Blobs Sorting Filter Query Patch Standard.
From S2P Require Import Jsongrammar Jsonobject Instances Typed BlobFacts EvalFacts PatchFacts.

Module SetFacts.
Import Backend Jsonscan Jsongrammar Jsonobject Jmap Descriptor Keys ObjectDB Commit Changes Blobs Filter Query Patch PatchFacts Standard.

(** ** Partial correctness *)

(** If [m] succeeds from [σ], its result and final state satisfy [Q]. *)
Definition wp {A} (m : M A) (σ : SetState) (Q : A -> SetState -> Prop) : Prop :=
  match m σ with (σ', Ok a) => Q a σ' | (_, Err _) => True end.

Lemma wp_mono {A} (m : M A) σ (Q Q' : A -> SetState -> Prop) :
  wp m σ Q -> (forall a σ', Q a σ' -> Q' a σ') -> wp m σ Q'.
Proof. unfold wp. destruct (m σ) as [σ' [a|e]]; auto. Qed.

Lemma wp_any {A} (m : M A) σ : wp m σ (fun _ _ => True).
Proof. unfold wp. by destruct (m σ) as [σ' []]. Qed.

Lemma wp_ret {A} (a : A) σ (Q : A -> SetState -> Prop) : Q a σ -> wp (mret a) σ Q.
Proof. done. Qed.

Lemma wp_bind {A B} (m : M A) (f : A -> M B) σ Q : wp m σ (fun a σ' => wp (f a) σ' Q) -> wp (m ≫= f) σ Q.
Proof. unfold wp, mbind, M_bind. destruct (m σ) as [σ' [a|e]]; auto. Qed.

Lemma wp_lift {A} (r : result A) σ (Q : A -> SetState -> Prop) : (forall a, r = Ok a -> Q a σ) -> wp (lift r) σ Q.
Proof. unfold wp, lift. destruct r; auto. Qed.

Lemma wp_throw {A} e σ (Q : A -> SetState -> Prop) : wp (throw e) σ Q.
Proof. done. Qed.

Lemma wp_respond f σ (Q : unit -> SetState -> Prop) :
  Q tt (mkSetState (ss_u σ) (ss_ids σ) (f (ss_resp σ)) (ss_dead σ)) -> wp (respond f) σ Q.
Proof. done. Qed.

Lemma wp_register cid id σ (Q : unit -> SetState -> Prop) :
  Q tt (mkSetState (ss_u σ) (<[cid := id]> (ss_ids σ)) (ss_resp σ) (ss_dead σ)) -> wp (register cid id) σ Q.
Proof. done. Qed.

Lemma wp_keep_dead (id : Id) (o : Object) (σ : SetState) (Q : unit -> SetState -> Prop) :
  Q tt (mkSetState (ss_u σ) (ss_ids σ) (ss_resp σ) (<[id := o]> (ss_dead σ))) -> wp (keep_dead id o) σ Q.
Proof. done. Qed.

Lemma wp_get_ids (σ : SetState) (Q : gmap Id Id -> SetState -> Prop) : Q (ss_ids σ) σ -> wp get_ids σ Q.
Proof. done. Qed.

Lemma wp_on_update {A} (f : Update -> result (Update * A)) σ (Q : A -> SetState -> Prop) :
  (forall u a, f (ss_u σ) = Ok (u, a) -> Q a (mkSetState u (ss_ids σ) (ss_resp σ) (ss_dead σ))) -> wp (on_update f) σ Q.
Proof. unfold wp, on_update. destruct (f (ss_u σ)) as [[u a]|e]; auto. Qed.

(** A lookup the caller handles the absence of. *)
Lemma wp_if_found {A} (f : Update -> result (Update * A)) σ (Q : option A -> SetState -> Prop) :
  (forall u a, f (ss_u σ) = Ok (u, a) -> Q (Some a) (mkSetState u (ss_ids σ) (ss_resp σ) (ss_dead σ))) ->
  (f (ss_u σ) = Err ErrNotFound -> Q None σ) -> wp (if_found (on_update f)) σ Q.
Proof.
  unfold wp, if_found, on_update. destruct (f (ss_u σ)) as [[u a]|e]; [auto|]. destruct e; auto.
Qed.

Lemma wp_for_each {A} (l : list A) (f : A -> M unit) (I : list A -> SetState -> Prop) σ :
  I [] σ -> (forall pre x σ', I pre σ' -> wp (f x) σ' (fun _ σ'' => I (pre ++ [x]) σ'')) ->
  wp (for_each l f) σ (fun _ σ' => I l σ').
Proof.
  intros H0 Hstep. assert (forall pre, I pre σ -> wp (for_each l f) σ (fun _ σ' => I (pre ++ l) σ')) as H; [|by apply (H [])].
  clear H0. revert σ. induction l as [|x l IH]; intros σ pre HI; cbn [for_each].
  - apply wp_ret. by rewrite app_nil_r.
  - apply wp_bind. eapply wp_mono; [by apply Hstep|]. cbn. intros _ σ' HI'.
    eapply wp_mono; [by apply IH|]. cbn. intros _ σ''. by rewrite <- app_assoc.
Qed.

Create HintDb wp discriminated.
#[export] Hint Resolve wp_ret wp_throw : wp.

(** ** The creates *)

Section creates.
Context `{MR : MapRange, TP : TimeParse, CF : CaseFold, LC : LogCodec, UC : UploadCodec, JT : JsonText}.
Context {S : Type} `{BE : Backend S}.
Context {P : Type}.
Variable sd : stdType S.
Variable ext : Extensions P.
Variable s : S.
Variable acct : Id.
Variable extra : gmap bytes bytes.
Variable entropy : Id -> Z * bytes.

Lemma elem_of_sortedIds {A} (m : gmap Id A) id : id ∈ sortedIds m <-> is_Some (m !! id).
Proof.
  unfold sortedIds. rewrite elem_of_sort_strings, list_elem_of_fmap. split.
  - intros ([id' v] & -> & H%elem_of_map_to_list). by exists v.
  - intros [v H]. exists (id, v). split; [done|]. by apply elem_of_map_to_list.
Qed.

Lemma NoDup_sortedIds {A} (m : gmap Id A) : NoDup (sortedIds m).
Proof. unfold sortedIds. rewrite sort_strings_perm. apply NoDup_fst_map_to_list. Qed.

(** One pass removes what it creates and keeps the rest: it makes progress
    exactly when it gets smaller. *)
Lemma create_pass_size cids pending progress σ :
  wp (create_pass sd ext s acct extra entropy cids pending progress) σ (fun r _ =>
    (size r.1 <= size pending)%nat /\ (r.2 = true -> progress = true \/ (size r.1 < size pending)%nat)).
Proof.
  revert pending progress σ. induction cids as [|cid cids IH]; intros pending progress σ; cbn [create_pass].
  { apply wp_ret. cbn. auto. }
  destruct (pending !! cid) as [pc|] eqn:Ep; [|apply wp_throw]. apply wp_bind, wp_get_ids.
  destruct (resolveIdRefs _ _ _) as [obj [|name l]].
  - apply wp_bind. eapply wp_mono; [apply wp_any|]. cbn. intros _ σ' _. eapply wp_mono; [apply IH|]. cbn. intros r σ'' [H1 _].
    assert (size pending = Datatypes.S (size (delete cid pending))) as E.
    { rewrite <- (insert_delete_id pending cid pc Ep) at 1. by rewrite map_size_insert_None by apply lookup_delete_eq. }
    split; [lia|]. intros _. right. lia.
  - eapply wp_mono; [apply IH|]. cbn. intros r σ' H1. by rewrite map_size_insert_Some in H1.
Qed.

(** The loop's bound is never reached: more fuel changes nothing. *)
Lemma create_rounds_enough n k pending σ :
  (size pending < n)%nat -> (size pending < k)%nat ->
  create_rounds sd ext s acct extra entropy n pending σ = create_rounds sd ext s acct extra entropy k pending σ.
Proof.
  revert k pending σ. induction n as [|n IH]; intros k pending σ Hn Hk; [lia|]. destruct k as [|k]; [lia|].
  cbn [create_rounds]. case_bool_decide as He; [done|]. unfold mbind, M_bind.
  pose proof (create_pass_size (sortedIds pending) pending false σ) as Hp. unfold wp in Hp.
  destruct (create_pass _ _ _ _ _ _ _ _ _ _) as [σ' [[p' [|]]|e]]; cbn in *; [|done|done].
  apply IH; destruct Hp as [_ [?|?]]; try done; lia.
Qed.

(** ** Accounting *)

(** Everything of a response but the answers to creates. *)
Definition other_answers (r : setResponse) :=
  (sr_OldState r, sr_Updated r, sr_Destroyed r, sr_NotUpdated r, sr_NotDestroyed r).

(** The creates [C] have been answered, each once; the accepted ones are in the
    request's creation ids. *)
Definition creates_done (C : gset Id) (σ σ' : SetState) : Prop :=
  exists A B : gset Id, C = A ∪ B /\ A ## B /\
    dom (sr_Created (ss_resp σ')) = dom (sr_Created (ss_resp σ)) ∪ A /\
    dom (sr_NotCreated (ss_resp σ')) = dom (sr_NotCreated (ss_resp σ)) ∪ B /\
    dom (ss_ids σ') = dom (ss_ids σ) ∪ A /\
    other_answers (ss_resp σ') = other_answers (ss_resp σ).

Lemma creates_done_none (σ σ' : SetState) :
  ss_resp σ' = ss_resp σ -> ss_ids σ' = ss_ids σ -> creates_done ∅ σ σ'.
Proof. unfold creates_done. intros -> ->. exists ∅, ∅. split_and!; set_solver. Qed.

Lemma creates_done_trans C1 C2 σ1 σ2 σ3 :
  C1 ## C2 -> creates_done C1 σ1 σ2 -> creates_done C2 σ2 σ3 -> creates_done (C1 ∪ C2) σ1 σ3.
Proof.
  intros Hd (A1 & B1 & E1 & D1 & H1 & H2 & H3 & H4) (A2 & B2 & E2 & D2 & H5 & H6 & H7 & H8).
  exists (A1 ∪ A2), (B1 ∪ B2). rewrite H5, H6, H7, H8, H1, H2, H3. split_and!; [|subst C1 C2|by rewrite assoc_L by apply _ ..|done].
  - rewrite E1, E2. clear. set_solver.
  - clear -Hd D1 D2. set_solver.
Qed.

Lemma not_created_done cid e σ :
  wp (respond (notCreated cid e)) σ (fun _ σ' => creates_done {[ cid ]} σ σ').
Proof. apply wp_respond. exists ∅, {[ cid ]}. cbn. split_and!; set_solver. Qed.

Lemma created_done cid id o σ :
  wp (_ ← register cid id; respond (created cid o)) σ (fun _ σ' => creates_done {[ cid ]} σ σ').
Proof. apply wp_bind, wp_register, wp_respond. exists {[ cid ]}, ∅. cbn. split_and!; set_solver. Qed.

Lemma validate_quiet old new σ :
  wp (validate ext extra old new) σ (fun _ σ' => ss_resp σ' = ss_resp σ /\ ss_ids σ' = ss_ids σ /\ ss_dead σ' = ss_dead σ).
Proof. unfold validate. destruct (sh_Validate _); [apply wp_on_update|apply wp_ret]; auto. Qed.

Lemma creates_done_frame (C : gset Id) (σ1 σ2 σ3 : SetState) :
  ss_resp σ2 = ss_resp σ1 -> ss_ids σ2 = ss_ids σ1 -> creates_done C σ2 σ3 -> creates_done C σ1 σ3.
Proof. unfold creates_done. intros -> ->. auto. Qed.

Lemma create_one_done cid obj sent σ :
  wp (create_one sd ext s acct extra entropy cid obj sent) σ (fun _ σ' => creates_done {[ cid ]} σ σ').
Proof.
  unfold create_one. destruct (checkValues _ _); [|apply not_created_done].
  apply wp_bind, wp_lift. intros bad _. destruct bad; [|apply not_created_done].
  apply wp_bind. eapply wp_mono; [apply validate_quiet|]. cbn. intros v σ1 (Hr & Hi & _).
  destruct v as [obj'|serr].
  - apply wp_bind, wp_on_update. intros u id _. apply wp_bind, wp_register, wp_bind, wp_on_update. intros u' stored _.
    apply wp_respond. exists {[ cid ]}, ∅. cbn. rewrite Hr, Hi. split_and!; set_solver.
  - eapply wp_mono; [apply not_created_done|]. cbn. intros _ σ2. by apply creates_done_frame.
Qed.

Lemma create_pass_done cids pending progress σ :
  NoDup cids -> (forall cid, cid ∈ cids -> is_Some (pending !! cid)) ->
  wp (create_pass sd ext s acct extra entropy cids pending progress) σ (fun r σ' =>
    dom r.1 ⊆ dom pending /\ creates_done (dom pending ∖ dom r.1) σ σ').
Proof.
  revert pending progress σ. induction cids as [|cid cids IH]; intros pending progress σ Hnd Hin; cbn [create_pass].
  { apply wp_ret. cbn. split; [done|]. replace (dom pending ∖ dom pending) with (∅ : gset Id) by set_solver. by apply creates_done_none. }
  inversion Hnd as [|? ? Hni Hnd']; subst. destruct (Hin cid) as [pc Hp]; [by left|]. rewrite Hp.
  apply wp_bind, wp_get_ids. destruct (resolveIdRefs _ _ _) as [obj [|name l]].
  - apply wp_bind. eapply wp_mono; [apply create_one_done|]. cbn. intros _ σ1 Hd1.
    eapply wp_mono; [apply IH; [done|]|].
    + intros c Hc. rewrite lookup_delete_ne by (by intros <-). apply Hin. by right.
    + cbn. intros r σ2 [Hsub Hd2]. rewrite dom_delete_L in Hsub, Hd2. split; [set_solver|].
      assert (cid ∈ dom pending) by (by apply elem_of_dom_2 in Hp).
      replace (dom pending ∖ dom r.1) with ({[ cid ]} ∪ (dom pending ∖ {[ cid ]} ∖ dom r.1)).
      * apply (creates_done_trans _ _ σ σ1 σ2); [set_solver|done|done].
      * apply set_eq. intros x. rewrite !elem_of_union, !elem_of_difference, elem_of_singleton. destruct (decide (x = cid)); set_solver.
  - eapply wp_mono; [apply IH; [done|]|].
    + intros c Hc. rewrite lookup_insert_ne by (by intros <-). apply Hin. by right.
    + cbn. intros r σ2. by rewrite dom_insert_lookup_L by (by exists pc).
Qed.

Lemma reject_unresolved_done pending σ :
  wp (reject_unresolved sd pending) σ (fun _ σ' => creates_done (dom pending) σ σ').
Proof.
  unfold reject_unresolved.
  eapply wp_mono; [apply (wp_for_each _ _ (fun pre σ' => pre `prefix_of` range_map pending -> creates_done (list_to_set pre.*1) σ σ'))|].
  - intros _. by apply creates_done_none.
  - intros pre [cid pc] σ1 HI. apply wp_bind, wp_get_ids. eapply wp_mono; [apply not_created_done|]. cbn. intros _ σ2 Hd Hp.
    rewrite fmap_app, list_to_set_app_L. cbn. rewrite union_empty_r_L.
    apply (creates_done_trans _ _ σ σ1 σ2); [|apply HI; etrans; [|exact Hp]; by apply prefix_app_r|done].
    pose proof (NoDup_range_map pending) as Hnd. destruct Hp as [k Hk]. rewrite Hk, !fmap_app, <- app_assoc in Hnd. cbn in Hnd.
    apply NoDup_app in Hnd as (_ & Hnd & _). set_solver.
  - cbn. intros _ σ' H. specialize (H (reflexivity _)).
    replace (dom pending) with (list_to_set (range_map pending).*1 : gset Id); [done|].
    apply set_eq. intros x. rewrite elem_of_list_to_set, elem_of_dom, list_elem_of_fmap. split.
    + intros ([x' v] & -> & Hv%elem_of_range_map). by exists v.
    + intros [v Hv]. exists (x, v). split; [done|]. by apply elem_of_range_map.
Qed.

Lemma create_rounds_done fuel pending σ :
  wp (create_rounds sd ext s acct extra entropy fuel pending) σ (fun _ σ' => creates_done (dom pending) σ σ').
Proof.
  revert pending σ. induction fuel as [|fuel IH]; intros pending σ; cbn [create_rounds]; case_bool_decide as He;
    try (subst; apply wp_ret; rewrite dom_empty_L; by apply creates_done_none); [apply wp_throw|].
  apply wp_bind. eapply wp_mono; [apply create_pass_done; [apply NoDup_sortedIds|intros cid; apply elem_of_sortedIds]|].
  cbn. intros [p' pr] σ1 [Hsub Hd]. cbn in *.
  assert (dom pending = dom pending ∖ dom p' ∪ dom p') as E by (rewrite difference_union_L; set_solver).
  destruct pr; (eapply wp_mono; [solve [apply IH|apply reject_unresolved_done]|]); cbn; intros _ σ2 Hd2; rewrite E;
    apply (creates_done_trans _ _ σ σ1 σ2); [set_solver|done|done|set_solver|done|done].
Qed.

Lemma decode_creates_done creates cids pending σ :
  NoDup cids -> (forall cid, cid ∈ cids -> cid ∉ dom pending) ->
  wp (decode_creates sd creates cids pending) σ (fun pending' σ' =>
    dom pending ⊆ dom pending' /\ dom pending' ⊆ dom pending ∪ list_to_set cids /\
    creates_done (list_to_set cids ∖ dom pending') σ σ').
Proof.
  revert pending σ. induction cids as [|cid cids IH]; intros pending σ Hnd Hni; cbn [decode_creates].
  { apply wp_ret. cbn. split_and!; [done|set_solver|]. replace (∅ ∖ dom pending) with (∅ : gset Id) by set_solver. by apply creates_done_none. }
  inversion Hnd as [|? ? Hn1 Hnd']; subst.
  assert (forall e, wp (_ ← respond (notCreated cid e); decode_creates sd creates cids pending) σ (fun pending' σ' =>
    dom pending ⊆ dom pending' /\ dom pending' ⊆ dom pending ∪ list_to_set (cid :: cids) /\
    creates_done (list_to_set (cid :: cids) ∖ dom pending') σ σ')) as Hrej.
  { intros e. apply wp_bind. eapply wp_mono; [apply not_created_done|]. cbn. intros _ σ1 Hd1.
    eapply wp_mono; [apply IH; [done|]|].
    - intros c Hc. apply Hni. by right.
    - cbn. intros p' σ2 (H1 & H2 & Hd2). assert (cid ∉ dom pending) by (apply Hni; by left).
      assert (cid ∉ dom p') by (intros Hx%H2; rewrite elem_of_union, elem_of_list_to_set in Hx; tauto).
      split_and!; [done|set_solver|]. replace (({[cid]} ∪ list_to_set cids) ∖ dom p') with ({[ cid ]} ∪ (list_to_set cids ∖ dom p')) by set_solver.
      apply (creates_done_trans _ _ σ σ1 σ2); [|done|done]. apply disjoint_singleton_l. rewrite elem_of_difference, elem_of_list_to_set. tauto. }
  destruct (DecodeObject _ _) as [obj|e]; [|apply Hrej]. destruct (create_bad sd (default ∅ obj)); [|apply Hrej].
  apply wp_bind, wp_lift. intros obj' _. eapply wp_mono; [apply IH; [done|]|].
  - intros c Hc. rewrite dom_insert_L. assert (c <> cid) by (by intros ->). assert (c ∉ dom pending) by (apply Hni; by right). set_solver.
  - cbn. intros p' σ2 (H1 & H2 & Hd2). rewrite dom_insert_L in H1, H2. split_and!; [set_solver|set_solver|].
    replace (({[cid]} ∪ list_to_set cids) ∖ dom p') with (list_to_set cids ∖ dom p' : gset Id) by set_solver. done.
Qed.

Lemma processCreates_done creates σ :
  wp (processCreates sd ext s acct extra entropy creates) σ (fun _ σ' => creates_done (dom creates) σ σ').
Proof.
  assert (dom creates = list_to_set (sortedIds creates) :> gset Id) as E.
  { apply set_eq. intros x. by rewrite elem_of_list_to_set, elem_of_sortedIds, elem_of_dom. }
  unfold processCreates. apply wp_bind. eapply wp_mono; [apply decode_creates_done; [apply NoDup_sortedIds|set_solver]|].
  cbn beta. intros pending σ1 (_ & H2 & Hd1). eapply wp_mono; [apply create_rounds_done|]. cbn beta. intros _ σ2 Hd2.
  rewrite dom_empty_L in H2. rewrite E.
  replace (list_to_set (sortedIds creates)) with (list_to_set (sortedIds creates) ∖ dom pending ∪ dom pending) by (rewrite difference_union_L; set_solver).
  apply (creates_done_trans _ _ σ σ1 σ2); [set_solver|done|done].
Qed.
Lemma commitPreparedCreates_done hooks creates prepared prepErrs σ :
  wp (commitPreparedCreates (P := P) hooks creates prepared prepErrs) σ (fun _ σ' => creates_done (dom creates) σ σ').
Proof.
  assert (dom creates = list_to_set (sortedIds creates) :> gset Id) as ->.
  { apply set_eq. intros x. by rewrite elem_of_list_to_set, elem_of_sortedIds, elem_of_dom. }
  unfold commitPreparedCreates. pose proof (NoDup_sortedIds creates) as Hnd. revert Hnd. generalize (sortedIds creates) as l.
  intros l. revert σ. induction l as [|cid l IH]; intros σ Hnd; cbn [for_each].
  { apply wp_ret. by apply creates_done_none. }
  inversion Hnd as [|? ? Hni Hnd']; subst. apply wp_bind.
  eapply wp_mono with (Q := fun _ σ' => creates_done {[ cid ]} σ σ').
  - destruct (prepErrs !! cid); [apply not_created_done|]. destruct (prepared !! cid); [|apply wp_throw].
    apply wp_bind, wp_on_update. intros u r _. destruct r as [[id echo]|serr].
    + eapply wp_mono; [apply created_done|]. cbn. intros _ σ2. by apply creates_done_frame.
    + eapply wp_mono; [apply not_created_done|]. cbn. intros _ σ2. by apply creates_done_frame.
  - cbn beta. intros _ σ1 Hd. eapply wp_mono; [by apply IH|]. cbn beta. intros _ σ2 Hd2. rewrite list_to_set_cons.
    apply (creates_done_trans _ _ σ σ1 σ2); [|done|done]. by rewrite disjoint_singleton_l, elem_of_list_to_set.
Qed.

(** *** Updates *)

(** Everything of a response but the answers to updates. *)
Definition no_updates (r : setResponse) :=
  (sr_OldState r, sr_Created r, sr_Destroyed r, sr_NotCreated r, sr_NotDestroyed r).

(** The updates [U] have been answered, each once; an accepted one is
    reported under the record's id. *)
Definition updates_done (U : gset Id) (σ σ' : SetState) : Prop :=
  exists A B : gset Id, U = A ∪ B /\ A ## B /\
    (forall id, id ∈ dom (sr_Updated (ss_resp σ')) <-> id ∈ dom (sr_Updated (ss_resp σ)) \/ exists uid, uid ∈ A /\ resolveIdArg uid (ss_ids σ) = Some id) /\
    dom (sr_NotUpdated (ss_resp σ')) = dom (sr_NotUpdated (ss_resp σ)) ∪ B /\
    (forall uid, uid ∈ A -> is_Some (resolveIdArg uid (ss_ids σ))) /\
    ss_ids σ' = ss_ids σ /\ no_updates (ss_resp σ') = no_updates (ss_resp σ).

Lemma updates_done_none (σ : SetState) : updates_done ∅ σ σ.
Proof. exists ∅, ∅. split_and!; set_solver. Qed.

Lemma updates_done_frame (U : gset Id) (σ1 σ2 σ3 : SetState) :
  ss_resp σ2 = ss_resp σ1 -> ss_ids σ2 = ss_ids σ1 -> updates_done U σ2 σ3 -> updates_done U σ1 σ3.
Proof. unfold updates_done. intros -> ->. auto. Qed.

Lemma updates_done_trans (U1 U2 : gset Id) (σ1 σ2 σ3 : SetState) :
  U1 ## U2 -> updates_done U1 σ1 σ2 -> updates_done U2 σ2 σ3 -> updates_done (U1 ∪ U2) σ1 σ3.
Proof.
  intros Hd (A1 & B1 & E1 & D1 & H1 & H2 & H3 & H4 & H5) (A2 & B2 & E2 & D2 & H6 & H7 & H8 & H9 & H10).
  rewrite H4 in H6, H8. exists (A1 ∪ A2), (B1 ∪ B2). rewrite H9, H10, H7, H2, H5, H4.
  split_and!; [rewrite E1, E2; clear; set_solver|subst; clear -Hd D1 D2; set_solver| |by rewrite assoc_L by apply _| |done|done].
  - intros id. rewrite H6, H1. clear. set_solver.
  - clear -H3 H8. set_solver.
Qed.

Lemma not_updated_done uid e σ : wp (respond (notUpdated uid e)) σ (fun _ σ' => updates_done {[ uid ]} σ σ').
Proof. apply wp_respond. exists ∅, {[ uid ]}. cbn. split_and!; set_solver. Qed.

Lemma updated_done uid id o σ :
  resolveIdArg uid (ss_ids σ) = Some id -> wp (respond (updated id o)) σ (fun _ σ' => updates_done {[ uid ]} σ σ').
Proof.
  intros Hr. apply wp_respond. exists {[ uid ]}, ∅. cbn. split_and!; [set_solver|set_solver| |set_solver| |done|done].
  - intros id'. rewrite dom_insert_L, elem_of_union, elem_of_singleton. split.
    + intros [->|?]; [right; exists uid; set_solver|by left].
    + intros [?|(u & ->%elem_of_singleton & E)]; [by right|left; congruence].
  - intros u ->%elem_of_singleton. by exists id.
Qed.

(** Only the Update may have changed. *)
Definition quiet (σ σ' : SetState) : Prop := ss_resp σ' = ss_resp σ /\ ss_ids σ' = ss_ids σ.

Lemma update_one_done updates uid σ :
  wp (update_one sd ext s acct extra updates uid) σ (fun _ σ' => updates_done {[ uid ]} σ σ').
Proof.
  unfold update_one. apply wp_bind, wp_get_ids. destruct (resolveIdArg uid (ss_ids σ)) as [id|] eqn:Er; [|apply not_updated_done].
  assert (forall σ1 e, quiet σ σ1 -> wp (respond (notUpdated uid e)) σ1 (fun _ σ' => updates_done {[ uid ]} σ σ')) as Hrej.
  { intros σ1 e [Hr Hi]. eapply wp_mono; [apply not_updated_done|]. cbn beta. intros _ σ2. by apply updates_done_frame. }
  apply wp_bind, wp_if_found; [|intros _; by apply Hrej]. intros u cur _.
  destruct (json_object _) as [patch|]; [|by apply Hrej]. destruct (applyPatch _ _ _ _) as [newObj|serr]; [|by apply Hrej].
  apply wp_bind, wp_lift. intros bad _. destruct bad; [|by apply Hrej].
  apply wp_bind. eapply wp_mono; [apply validate_quiet|]. cbn beta. intros v σ1 (Hr & Hi & _). cbn in Hr, Hi.
  destruct v as [obj|serr]; [|by apply Hrej]. apply wp_bind, wp_on_update. intros u' _ _.
  eapply wp_mono; [apply (updated_done uid id); cbn; by rewrite Hi|]. cbn beta. intros _ σ2. by apply updates_done_frame.
Qed.

Lemma processUpdates_done updates σ :
  wp (processUpdates sd ext s acct extra updates) σ (fun _ σ' => updates_done (dom updates) σ σ').
Proof.
  assert (dom updates = list_to_set (sortedIds updates) :> gset Id) as ->.
  { apply set_eq. intros x. by rewrite elem_of_list_to_set, elem_of_sortedIds, elem_of_dom. }
  unfold processUpdates. pose proof (NoDup_sortedIds updates) as Hnd. revert Hnd. generalize (sortedIds updates) as l.
  intros l. revert σ. induction l as [|uid l IH]; intros σ Hnd; cbn [for_each].
  { apply wp_ret, updates_done_none. }
  inversion Hnd as [|? ? Hni Hnd']; subst. apply wp_bind. eapply wp_mono; [apply update_one_done|].
  cbn beta. intros _ σ1 Hd. eapply wp_mono; [by apply IH|]. cbn beta. intros _ σ2 Hd2. rewrite list_to_set_cons.
  apply (updates_done_trans _ _ σ σ1 σ2); [|done|done]. by rewrite disjoint_singleton_l, elem_of_list_to_set.
Qed.

(** *** Destroys *)

(** Everything of a response but the answers to destroys. *)
Definition no_destroys (r : setResponse) :=
  (sr_OldState r, sr_Created r, sr_Updated r, sr_NotCreated r, sr_NotUpdated r).

(** The destroys [l] have been answered in order: by the id destroyed, or by
    an error. *)
Definition destroys_done (l : list Id) (σ σ' : SetState) : Prop :=
  exists ans : list (option Id),
    Forall2 (fun did o => o = None \/ o = resolveIdArg did (ss_ids σ)) l ans /\
    sr_Destroyed (ss_resp σ') = sr_Destroyed (ss_resp σ) ++ omap id ans /\
    (forall did, did ∈ dom (sr_NotDestroyed (ss_resp σ')) <-> did ∈ dom (sr_NotDestroyed (ss_resp σ)) \/ (did, None) ∈ zip l ans) /\
    ss_ids σ' = ss_ids σ /\ no_destroys (ss_resp σ') = no_destroys (ss_resp σ).

Lemma destroys_done_frame l (σ1 σ2 σ3 : SetState) : quiet σ1 σ2 -> destroys_done l σ2 σ3 -> destroys_done l σ1 σ3.
Proof. unfold destroys_done. intros [-> ->]. auto. Qed.

Lemma destroys_done_trans l1 l2 (σ1 σ2 σ3 : SetState) :
  destroys_done l1 σ1 σ2 -> destroys_done l2 σ2 σ3 -> destroys_done (l1 ++ l2) σ1 σ3.
Proof.
  intros (a1 & F1 & D1 & N1 & I1 & R1) (a2 & F2 & D2 & N2 & I2 & R2). rewrite I1 in F2. exists (a1 ++ a2).
  split; [by apply Forall2_app|]. split; [by rewrite D2, D1, omap_app, assoc_L by apply _|].
  split; [|by rewrite I2, R2]. intros did. rewrite N2, N1, zip_with_app by (by eapply Forall2_length). rewrite elem_of_app. tauto.
Qed.

Lemma not_destroyed_done did e σ : wp (respond (notDestroyed did e)) σ (fun _ σ' => destroys_done [did] σ σ').
Proof.
  apply wp_respond. exists [None]. cbn. split_and!; [constructor; [by left|constructor]|by rewrite app_nil_r| |done|done].
  intros d. rewrite dom_insert_L, elem_of_union, elem_of_singleton, list_elem_of_singleton. split; [intros [->|?]; auto|intros [?|[= ->]]; auto].
Qed.

Lemma destroyed_done did id σ :
  resolveIdArg did (ss_ids σ) = Some id -> wp (respond (destroyed id)) σ (fun _ σ' => destroys_done [did] σ σ').
Proof.
  intros Hr. apply wp_respond. exists [Some id]. cbn. split_and!; [constructor; [by right|constructor]|done| |done|done].
  intros d. rewrite list_elem_of_singleton. split; [by left|intros [?|?]; [done|congruence]].
Qed.

(** A lookup whose absence is handled. *)
Lemma if_found_quiet {A} (f : Update -> result (Update * A)) σ : wp (if_found (on_update f)) σ (fun _ σ' => quiet σ σ').
Proof. apply wp_if_found; [intros u a _|intros _]; by split. Qed.

Lemma destroy_one_done did σ : wp (destroy_one sd ext s acct extra did) σ (fun _ σ' => destroys_done [did] σ σ').
Proof.
  unfold destroy_one. apply wp_bind, wp_get_ids. destruct (resolveIdArg did (ss_ids σ)) as [rid|] eqn:Er; [|apply not_destroyed_done].
  assert (forall σ1 e, quiet σ σ1 -> wp (respond (notDestroyed did e)) σ1 (fun _ σ' => destroys_done [did] σ σ')) as Hrej.
  { intros σ1 e Hq. eapply wp_mono; [apply not_destroyed_done|]. cbn beta. intros _ σ2. by apply destroys_done_frame. }
  apply wp_bind. eapply wp_mono with (Q := fun _ σ' => quiet σ σ').
  { destruct (_ || _); [|by apply wp_ret]. apply wp_bind. eapply wp_mono; [apply if_found_quiet|]. cbn beta. intros o σ1 Hq. by apply wp_ret. }
  cbn beta. intros old σ1 Hq. apply wp_bind. eapply wp_mono with (Q := fun _ σ' => quiet σ σ').
  { destruct (sh_Destroy _) as [h|]; [|by apply wp_ret]. destruct old; [|by apply wp_ret]. apply wp_on_update. by intros u a _. }
  cbn beta. intros rej σ2 Hq2. destruct rej as [serr|]; [by apply Hrej|].
  apply wp_bind. eapply wp_mono; [apply if_found_quiet|]. cbn beta. intros gone σ3 Hq3. assert (quiet σ σ3) as Hq' by (unfold quiet in *; intuition congruence).
  destruct gone; [|by apply Hrej]. apply wp_bind. eapply wp_mono with (Q := fun _ σ' => quiet σ σ').
  { destruct (sh_AfterSet _); [destruct old; [by apply wp_keep_dead|]|]; by apply wp_ret. }
  cbn beta. intros _ σ4 Hq4. eapply wp_mono; [apply (destroyed_done did rid); by rewrite (proj2 Hq4)|]. cbn beta. intros _ σ5. by apply destroys_done_frame.
Qed.

Lemma processDestroys_done l σ : wp (processDestroys sd ext s acct extra l) σ (fun _ σ' => destroys_done l σ σ').
Proof.
  apply (wp_for_each _ _ (fun pre σ' => destroys_done pre σ σ')).
  - exists []. cbn. split_and!; [constructor|by rewrite app_nil_r| |done|done]. set_solver.
  - intros pre did σ1 Hd. eapply wp_mono; [apply destroy_one_done|]. cbn beta. intros _ σ2. by apply destroys_done_trans.
Qed.

Lemma set_body_done (a : setArgs) (prepared : gmap Id P) (prepErrs : gmap Id SetError) (u : Update) (ids0 : gmap Id Id) :
  let σ0 := mkSetState u ids0 emptyResponse ∅ in
  wp (set_body sd ext s acct extra entropy a prepared prepErrs) σ0 (fun _ σ' =>
    exists state σ1 σ2 σ3, TypeState (sd_db sd) s acct (t_Name (sd_t sd)) = Ok state /\
      (forall want, sa_IfInState a = Some want -> want = state) /\
      σ1 = mkSetState u ids0 (oldState state emptyResponse) ∅ /\
      creates_done (dom (sa_Create a)) σ1 σ2 /\ updates_done (dom (sa_Update a)) σ2 σ3 /\ destroys_done (sa_Destroy a) σ3 σ').
Proof.
  intros σ0. unfold set_body. apply wp_bind, wp_lift. intros state Hst. apply wp_bind, wp_respond.
  set (σ1 := mkSetState _ _ _ _). destruct (match sa_IfInState a with Some _ => _ | None => _ end) eqn:Eif; [apply wp_throw|].
  assert (forall want, sa_IfInState a = Some want -> want = state) as Hif.
  { intros want Hw. rewrite Hw in Eif. apply negb_false_iff, bool_decide_eq_true in Eif. done. }
  apply wp_bind. eapply wp_mono with (Q := fun _ σ2 => creates_done (dom (sa_Create a)) σ1 σ2).
  { destruct (sh_Create _); [apply commitPreparedCreates_done|apply processCreates_done]. }
  cbn beta. intros _ σ2 Hc. apply wp_bind. eapply wp_mono; [apply processUpdates_done|]. cbn beta. intros _ σ3 Hu.
  eapply wp_mono; [apply processDestroys_done|]. cbn beta. intros _ σ4 Hd. by exists state, σ1, σ2, σ3.
Qed.
End creates.

(** A Foo/set that answers ran its body to the end and committed. *)
Lemma set_reply `{MR : MapRange, TP : TimeParse, CF : CaseFold, LC : LogCodec, UC : UploadCodec, JT : JsonText}
  {S : Type} `{BE : Backend S} {P : Type} (sd : stdType S) (ext : Extensions P) (maxSet : Z) (s : S) (ident : Identity)
  (fence : Batch -> Batch) (now : Z) (entropy : Id -> Z * bytes) (ids0 : gmap Id Id) (a : setArgs) (extra : gmap bytes bytes) (d : SetDone) (ids' : gmap Id Id) :
  set sd ext maxSet s ident fence now entropy ids0 a extra = (Reply d, ids') ->
  let acct := sa_AccountId a in
  checkAccount ident acct true = Reply tt /\
  Z.of_nat (size (sa_Create a) + size (sa_Update a) + length (sa_Destroy a)) <= maxSet /\
  exists prepared prepErrs cur σ fn,
    match sh_Create (ex_Set ext) with
    | Some hooks => prepare_creates hooks.1 acct (sa_Create a) (sortedIds (sa_Create a)) ∅ ∅
    | None => Ok (∅, ∅)
    end = Ok (prepared, prepErrs) /\
    Sequence s acct = Ok cur /\
    set_body sd ext s acct extra entropy a prepared prepErrs (mkSetState (newUpdate (int64 (cur + 1))) ids0 emptyResponse ∅) = (σ, Ok tt) /\
    fn (newUpdate (int64 (cur + 1))) = Ok (ss_u σ) /\
    update (sd_db sd) s acct fence now fn = Ok (sd_commit d) /\
    ids' = ss_ids σ /\ sd_dead d = ss_dead σ /\
    sd_resp d = newState (default (sr_OldState (ss_resp σ)) (c_states (sd_commit d) !! t_Name (sd_t sd))) (ss_resp σ).
Proof.
  unfold set. intros H. cbv zeta. destruct (checkAccount ident (sa_AccountId a) true) as [[]|]; [|done].
  destruct (Z.ltb_spec maxSet (Z.of_nat (size (sa_Create a) + size (sa_Update a) + length (sa_Destroy a)))) as [|Hmax]; [done|].
  split; [done|]. split; [done|]. destruct (match sh_Create (ex_Set ext) with Some _ => _ | None => _ end) as [[prepared prepErrs]|e]; [|done].
  destruct (Sequence s (sa_AccountId a)) as [cur|e] eqn:Eseq; [|done]. cbv zeta in H.
  match type of H with context [update _ _ _ _ _ ?f] => set (fn := f) in * end.
  destruct (update (sd_db sd) s (sa_AccountId a) fence now fn) as [c|e] eqn:Eu; [|by destruct e].
  set (m := set_body sd ext s (sa_AccountId a) extra entropy a prepared prepErrs (mkSetState (newUpdate (int64 (cur + 1))) ids0 emptyResponse ∅)) in *.
  assert (fn (newUpdate (int64 (cur + 1))) = match m with (σ, Ok _) => Ok (ss_u σ) | (_, Err e) => Err e end) as Hfn by done.
  pose proof (eq_refl m) as Em. unfold m in Em at 1. clearbody fn m. assert (exists σ, m = (σ, Ok tt)) as [σ ->].
  { unfold update in Eu. rewrite Eseq in Eu. cbn [mbind result_bind] in Eu. rewrite Hfn in Eu. clear Em. destruct m as [σ [[]|e]]; [by exists σ|done]. }
  injection H as <- <-. exists prepared, prepErrs, cur, σ, fn. rewrite Em, Hfn. done.
Qed.

(** C9: a Foo/set that succeeds answers every operation of the request exactly
    once, whatever hooks the type has.  The caller may write to the account
    and the request is within the limit; the old state is the type's state
    under the lease, and equals ifInState when one was given.  Every creation
    id is in created or in notCreated, never in both, and the request's
    creation ids gain exactly the created ones.  Every key of the update map is either
    accepted, and then the record it resolves to is in updated, or in
    notUpdated.  Every destroy is answered in order, by the id it resolves to
    in destroyed or by an entry in notDestroyed. *)
Theorem set_accounted `{MR : MapRange, TP : TimeParse, CF : CaseFold, LC : LogCodec, UC : UploadCodec, JT : JsonText}
  {S : Type} `{BE : Backend S} {P : Type} (sd : stdType S) (ext : Extensions P) (maxSet : Z) (s : S) (ident : Identity)
  (fence : Batch -> Batch) (now : Z) (entropy : Id -> Z * bytes) (ids0 : gmap Id Id) (a : setArgs) (extra : gmap bytes bytes) (d : SetDone) (ids' : gmap Id Id)
  (Hset : set sd ext maxSet s ident fence now entropy ids0 a extra = (Reply d, ids')) :
  let r := sd_resp d in
  checkAccount ident (sa_AccountId a) true = Reply tt /\
  Z.of_nat (size (sa_Create a) + size (sa_Update a) + length (sa_Destroy a)) <= maxSet /\
  TypeState (sd_db sd) s (sa_AccountId a) (t_Name (sd_t sd)) = Ok (sr_OldState r) /\
  (forall want, sa_IfInState a = Some want -> want = sr_OldState r) /\
  dom (sr_Created r) ∪ dom (sr_NotCreated r) = dom (sa_Create a) /\
  dom (sr_Created r) ## dom (sr_NotCreated r) /\
  dom ids' = dom ids0 ∪ dom (sr_Created r) /\
  (exists accepted : gset Id, accepted ∪ dom (sr_NotUpdated r) = dom (sa_Update a) /\ accepted ## dom (sr_NotUpdated r) /\
    (forall uid, uid ∈ accepted -> is_Some (resolveIdArg uid ids')) /\
    (forall id, id ∈ dom (sr_Updated r) <-> exists uid, uid ∈ accepted /\ resolveIdArg uid ids' = Some id)) /\
  (exists answers : list (option Id),
    Forall2 (fun did o => o = None \/ o = resolveIdArg did ids') (sa_Destroy a) answers /\
    sr_Destroyed r = omap id answers /\
    (forall did, did ∈ dom (sr_NotDestroyed r) <-> (did, None) ∈ zip (sa_Destroy a) answers)).
Proof.
  apply set_reply in Hset as (Hacc & Hmax & prepared & prepErrs & cur & σ & fn & _ & _ & Hb & _ & _ & -> & _ & ->).
  pose proof (set_body_done sd ext s (sa_AccountId a) extra entropy a prepared prepErrs (newUpdate (int64 (cur + 1))) ids0) as Hw.
  unfold wp in Hw. rewrite Hb in Hw.
  destruct Hw as (state & σ1 & σ2 & σ3 & Hst & Hif & -> & (A & B & EC & DC & C1 & C2 & C3 & C4) & (A' & B' & EU & DU & U1 & U2 & U3 & U4 & U5) & (ans & D1 & D2 & D3 & D4 & D5)).
  unfold other_answers, no_updates, no_destroys in *. injection C4 as C4 C6 C7 C8 C9. injection U5 as U6 U7 U8 U9 U10. injection D5 as D6 D7 D8 D9 D10.
  cbn in C1, C2, C3, C4, C6, C7, C8, C9. cbn [sd_resp sr_OldState newState sr_Created sr_NotCreated sr_Updated sr_NotUpdated sr_Destroyed sr_NotDestroyed].
  rewrite dom_empty_L, union_empty_l_L in C1. rewrite dom_empty_L, union_empty_l_L in C2. rewrite C8, dom_empty_L, union_empty_l_L in U2.
  rewrite D6, D7, D8, D9, D10, D4, U4, U7, U9, U6, C1, C2, U2, C3.
  split_and!; [done|done|congruence|intros w Hw; rewrite (Hif w Hw); congruence|by rewrite EC|done|done| |].
  - exists A'. split_and!; [by rewrite EU|done|exact U3|]. intros x. rewrite U1, C6, dom_empty_L, elem_of_empty. tauto.
  - exists ans. rewrite U4 in D1. split; [done|]. rewrite D2, U8, C7. split; [done|]. intros x. rewrite D3, U10, C9, dom_empty_L, elem_of_empty. tauto.
Qed.

(** ** The example *)

Section demo.
#[local] Existing Instances map_order Instances.demo_codec Instances.demo_time Instances.demo_fold BlobFacts.demo_uploads Memory.memory_backend Memory.memory_laws.
Import Instances.

(** A member of a rendered object. *)
Definition demo_member (kv : bytes * bytes) : bytes := quoted kv.1 ++ ":"%byte :: kv.2.
Fixpoint demo_join (l : list bytes) : bytes :=
  match l with [] => [] | [x] => x | x :: l' => x ++ ","%byte :: demo_join l' end.

(** Bytes outside the id alphabet are escaped. *)
Definition demo_hex (z : Z) : byte := nth (Z.to_nat z) (bs "0123456789abcdef") "0"%byte.
Definition demo_esc (c : byte) : bytes := if id_char c then [c] else bs "\u00" ++ [demo_hex (bz c / 16); demo_hex (bz c mod 16)].
Definition demo_quote (v : bytes) : bytes := quoted (concat (map demo_esc v)).

Definition demo_text : JsonText := {|
  marshal_string := demo_quote;
  marshal_members := fun m =>
    let text := "{"%byte :: demo_join (map demo_member (map_to_list m)) ++ ["}"%byte] in
    if bool_decide (trim text = text) then Some text else None;
  json_same := fun a b => bool_decide (a = b);
|}.
#[local] Existing Instance demo_text.

Lemma demo_esc_chars c (b : bytes) : string_chars b -> string_chars (demo_esc c ++ b).
Proof.
  unfold demo_esc. destruct (id_char c) eqn:E; cbn; intros Hb.
  - apply sc_char; [by apply Typed.id_char_plain in E as [? _]|done].
  - apply sc_u; [|done]. clear. by destruct c.
Qed.

Lemma demo_quote_chars v : string_chars (concat (map demo_esc v)).
Proof. induction v as [|c v IH]; cbn [map concat]; [constructor|by apply demo_esc_chars]. Qed.

Lemma demo_quote_id v : Valid v = true -> demo_quote v = marshal_id v.
Proof.
  intros Hv%Typed.Valid_chars. unfold demo_quote. change (marshal_id v) with (quoted v). f_equal.
  induction Hv as [|c v Hc Hv IH]; [done|]. cbn [map concat]. unfold demo_esc at 1. rewrite Hc, IH. done.
Qed.

Lemma demo_text_laws : JsonTextLaws.
Proof.
  constructor.
  - intros v. apply trim_value, JV_string, demo_quote_chars.
  - intros v Hv. cbn [marshal_string demo_text]. rewrite demo_quote_id by done. unfold json_string.
    rewrite Typed.marshal_id_String by done. change (marshal_id v) with (quoted v). by rewrite isNull_quoted.
  - intros m r. cbn [marshal_members demo_text]. cbv zeta. case_bool_decide; [|done]. by intros [= <-].
  - intros p a b _ _ _. cbn. by intros ->%bool_decide_eq_true.
Qed.

Definition demo_title (s : bytes) : bytes := "{"%byte :: quoted (bs "title") ++ ":"%byte :: quoted s ++ ["}"%byte].
Definition demo_ext : Extensions unit := mkExtensions unit None None (noHooks unit) None.

(** Two creates, one of them malformed; an update of the created record; the
    destroy of a stored record and of one that is not there. *)
Definition demo_set_args : setArgs :=
  mkSetArgs demo_acct (Some (bs "1")) {[ bs "n1" := demo_title (bs "a"); bs "n2" := bs "7" ]} {[ bs "#n1" := demo_title (bs "b") ]} [demo_id; bs "zz"].
Definition demo_entropy (cid : Id) : Z * bytes := (5, demo_rnd).
Definition demo_ident : Identity := Some {[ demo_acct := false ]}.

Definition demo_set : outcome SetDone * gmap Id Id :=
  set EvalFacts.demo_std demo_ext 10 EvalFacts.demo_store demo_ident no_fence 1800 demo_entropy ∅ demo_set_args ∅.

Definition reply_or {A} (a0 : A) (o : outcome A) : A := match o with Reply a => a | Fail _ => a0 end.
Definition is_reply {A} (o : outcome A) : bool := match o with Reply _ => true | Fail _ => false end.

Lemma reply_pair {A B} (a0 : A) (p : outcome A * B) : is_reply p.1 = true -> p = (Reply (reply_or a0 p.1), p.2).
Proof. destruct p as [[] ?]; [done|discriminate]. Qed.

Definition demo_done : SetDone := reply_or (mkSetDone emptyResponse (mkCommitted EvalFacts.demo_store ∅ ∅) ∅) demo_set.1.
Definition demo_ids : gmap Id Id := demo_set.2.

Lemma demo_set_eq : demo_set = (Reply demo_done, demo_ids).
Proof. apply reply_pair. vm_compute. reflexivity. Qed.
End demo.

Lemma set_accounted_witness :
  @TypeState Memory.Store Memory.memory_backend Instances.demo_db EvalFacts.demo_store Instances.demo_acct (bs "Note") = Ok (sr_OldState (sd_resp demo_done)) /\
  dom (sr_Created (sd_resp demo_done)) ∪ dom (sr_NotCreated (sd_resp demo_done)) = dom (sa_Create demo_set_args) /\
  sr_Destroyed (sd_resp demo_done) = [Instances.demo_id].
Proof.
  destruct (@set_accounted map_order Instances.demo_time Instances.demo_fold Instances.demo_codec BlobFacts.demo_uploads demo_text
    Memory.Store Memory.memory_backend unit EvalFacts.demo_std demo_ext 10 EvalFacts.demo_store demo_ident Instances.no_fence 1800 demo_entropy ∅ demo_set_args ∅
    demo_done demo_ids) as (_ & _ & H1 & _ & H2 & _).
  - exact demo_set_eq.
  - split; [exact H1|]. split; [exact H2|]. vm_compute. reflexivity.
Defined.
End SetFacts.
