(* ===== verification/SetRecords.v ===== *)
(** * SetRecords: what a Foo/set does to the records

    For a type without hooks: the records after the commit, as a function of
    the records before it and of the request. *)

From S2P Require Import Prelude GoLib Keyenc Backend Memory Jsonscan Jsongrammar Jsonobject Jmap Descriptor Keys ObjectDB Commit Indexing CommitFacts Instances CommitIndex.
From S2P Require Import Reach CommitLog Typed Changes Blobs BlobFacts Sorting Filter Query EvalFacts Patch PatchFacts Standard SetFacts.

Module SetRecords.
Import Keyenc Backend Jsonscan Jsonobject Jmap Descriptor Keys ObjectDB Commit Indexing CommitFacts CommitIndex Reach CommitLog Typed Changes Blobs Filter Query Patch PatchFacts Standard SetFacts.

(** ** The specification *)

(** The records of a type, and one of them replaced. *)
Definition Records : Type := Id -> option Object.
Definition put (R : Records) (id : Id) (o : option Object) : Records := fun x => if decide (x = id) then o else R x.

Section spec.
Context `{MR : MapRange, TP : TimeParse, CF : CaseFold, UC : UploadCodec, JT : JsonText}.
Context {S : Type} `{BE : Backend S}.
Variable t : Type_.
Variable s : S.
Variable acct : Id.

(** What a client sent for a create, with the declared defaults. *)
Definition with_defaults (o : Object) : Object := o ∪ omap p_Default (t_Properties t).

(** An accepted create: the object of the request with its defaults and its
    references resolved, which passes the checks. *)
Definition created_object (ok : Id -> Id -> Prop) (raw : bytes) (o : Object) : Prop :=
  exists sent, DecodeObject raw ∅ = Ok sent /\ resolves t false ok (with_defaults (default ∅ sent)) o /\
    checkValues t o = [] /\ checkBlobRefs s acct t o = Ok [].

(** One update: the record it resolves to is patched, or nothing happens. *)
Definition patched (ids : gmap Id Id) (updates : gmap Id bytes) (R : Records) (uid : Id) : option (Id * Object) :=
  id ← resolveIdArg uid ids;
  cur ← R id;
  patch ← json_object (default [] (updates !! uid));
  match applyPatch t cur patch ids with
  | Datatypes.inl new => match checkBlobRefs s acct t new with Ok [] => Some (id, new) | _ => None end
  | Datatypes.inr _ => None
  end.

Definition spec_update (ids : gmap Id Id) (updates : gmap Id bytes) (R : Records) (uid : Id) : Records :=
  match patched ids updates R uid with Some (id, new) => put R id (Some new) | None => R end.

(** One destroy, and the id destroyed. *)
Definition doomed (ids : gmap Id Id) (R : Records) (did : Id) : option Id :=
  id ← resolveIdArg did ids; _ ← R id; Some id.

Definition spec_destroy (ids : gmap Id Id) (R : Records) (did : Id) : Records :=
  match doomed ids R did with Some id => put R id None | None => R end.

(** Each element of a fold with its answer from the records before it. *)
Fixpoint answers {A B} (step : Records -> A -> Records) (ans : Records -> A -> option B) (R : Records) (l : list A) : list (A * option B) :=
  match l with [] => [] | x :: l' => (x, ans R x) :: answers step ans (step R x) l' end.
End spec.

(** ** An Update as the records it stands for *)

Section view.
Context `{MR : MapRange, TP : TimeParse, CF : CaseFold, LC : LogCodec}.
Context {S : Type} `{BE : Backend S, BL : !BackendLaws S}.
Variable db : DB.
Variable s : S.
Variable acct : Id.
Variable name : bytes.
Variable t : Type_.
Hypothesis Hdb : db_wf db.
Hypothesis Hs : be_inv s.
Hypothesis Hinv : index_inv db acct (be_map s).
Hypothesis Ht : db_types db !! name = Some t.

Definition view (u : Update) : Records := fun id =>
  match u_staged u !! stagedKey name id with Some st => st_new st | None => obj_at db (be_map s) acct name id end.

Abbreviation uwf := (update_wf db acct (be_map s)).

Lemma view_new seq id : view (newUpdate seq) id = obj_at db (be_map s) acct name id.
Proof. unfold view. cbn. by rewrite lookup_empty. Qed.

Lemma view_same (u u' : Update) : u_staged u' = u_staged u -> forall id, view u' id = view u id.
Proof. intros E id. unfold view. by rewrite E. Qed.

(** A committed record that is read is there, and decodes to an object. *)
Lemma getCommitted_view (u : Update) id u' o :
  uwf u -> getCommitted db s acct u name id = Ok (u', o) -> obj_at db (be_map s) acct name id = o /\ is_Some o.
Proof.
  intros Hu Hg. destruct (getCommitted_wf db s acct Hs _ _ _ _ _ Hu Hg) as (_ & _ & _ & raw & Hr & Hd).
  destruct (ii_decodes _ _ _ Hinv name t id raw Ht Hr) as (o' & Hd' & _). rewrite Hd' in Hd. injection Hd as <-.
  unfold obj_at. rewrite Hr, Hd'. eauto.
Qed.

Lemma getCommitted_absent (u : Update) id :
  uwf u -> getCommitted db s acct u name id = Err ErrNotFound -> obj_at db (be_map s) acct name id = None.
Proof.
  intros Hu. unfold getCommitted. destruct (u_read u !! _) as [r|]; [done|]. unfold getRaw, obj_at. rewrite Ht, be_Get_spec by done.
  destruct (be_map s !! objKey acct name id) as [raw|] eqn:Er; [|done].
  destruct (ii_decodes _ _ _ Hinv name t id raw Ht Er) as (o' & -> & _). done.
Qed.

Lemma u_Get_view (u : Update) id u' o :
  uwf u -> u_Get db s acct u name id = Ok (u', o) -> view u id = o /\ is_Some o /\ u_staged u' = u_staged u.
Proof.
  intros Hu Hg. destruct (u_Get_wf db s acct Hs _ _ _ _ _ Hu Hg) as [_ E]. revert Hg. unfold u_Get, view.
  destruct (u_staged u !! stagedKey name id) as [st|] eqn:Es.
  - destruct (st_new st); [|done]. intros [= <- <-]. eauto.
  - intros [H1 H2]%getCommitted_view; done.
Qed.

Lemma u_Get_absent (u : Update) id : uwf u -> u_Get db s acct u name id = Err ErrNotFound -> view u id = None.
Proof.
  intros Hu. unfold u_Get, view. destruct (u_staged u !! stagedKey name id) as [st|].
  - by destruct (st_new st).
  - by apply getCommitted_absent.
Qed.

Lemma Destroy_absent (u : Update) id : uwf u -> Destroy db s acct u name id = Err ErrNotFound -> view u id = None.
Proof.
  intros Hu. unfold Destroy, view. rewrite Ht. destruct (u_staged u !! stagedKey name id) as [st|]; [by destruct (st_new st)|].
  destruct (getCommitted db s acct u name id) as [r|e] eqn:E; [done|]. intros [= ->]. by eapply getCommitted_absent.
Qed.

(** What a method that restages one record does: the record, its committed
    version, and everything else as it was. *)
Record restaged (u u' : Update) (id : Id) (new : option Object) : Prop := mkRestaged {
  rs_view : forall x, view u' x = put (view u) id new x;
  rs_new : exists st, u_staged u' !! stagedKey name id = Some st /\ st_new st = new /\ st_typeName st = name /\
    st_old st = match u_staged u !! stagedKey name id with Some st0 => st_old st0 | None => obj_at db (be_map s) acct name id end;
  rs_other : forall k, k <> stagedKey name id -> u_staged u' !! k = u_staged u !! k;
}.

Lemma set_staged_restaged (u0 u : Update) id old new c q :
  u_staged u = u_staged u0 ->
  old = match u_staged u0 !! stagedKey name id with Some st0 => st_old st0 | None => obj_at db (be_map s) acct name id end ->
  restaged u0 (set_staged u (mkStaged name id old new c q)) id new.
Proof.
  intros E Hold. constructor.
  - intros x. unfold view, put. cbn [set_staged u_staged st_typeName st_id]. destruct (decide (x = id)) as [-> |Hne].
    + by rewrite lookup_insert_eq.
    + rewrite lookup_insert_ne by (intros [= <-]; done). by rewrite E.
  - eexists. cbn [set_staged u_staged st_typeName st_id]. rewrite lookup_insert_eq. done.
  - intros k Hk. cbn [set_staged u_staged st_typeName st_id]. rewrite lookup_insert_ne by done. by rewrite E.
Qed.

Lemma Put_restaged (u : Update) id o u' : uwf u -> Put db s acct u name id o = Ok u' -> restaged u u' id (Some o).
Proof.
  intros Hu. unfold Put. rewrite Ht. destruct (negb _); [done|]. destruct (u_staged u !! stagedKey name id) as [st|] eqn:Es.
  - destruct (st_new st); [|done]. intros (_ & _ & [= <-])%result_bind_Ok. destruct (staged_key_eq db s acct _ _ _ _ Hu Es) as [-> ->].
    apply set_staged_restaged; [done|]. by rewrite Es.
  - intros ([u1 old] & Hg & (_ & _ & [= <-])%result_bind_Ok)%result_bind_Ok. cbn [fst snd].
    destruct (getCommitted_wf db s acct Hs _ _ _ _ _ Hu Hg) as (_ & E & _). apply getCommitted_view in Hg as [Ho _]; [|done].
    apply set_staged_restaged; [done|]. by rewrite Es.
Qed.

Lemma Destroy_restaged (u : Update) id u' : uwf u -> Destroy db s acct u name id = Ok u' -> restaged u u' id None /\ is_Some (view u id).
Proof.
  intros Hu. unfold Destroy. rewrite Ht. unfold view. destruct (u_staged u !! stagedKey name id) as [st|] eqn:Es.
  - destruct (st_new st); [|done]. intros [= <-]. destruct (staged_key_eq db s acct _ _ _ _ Hu Es) as [-> ->].
    split; [|by eexists]. apply set_staged_restaged; [done|]. by rewrite Es.
  - intros ([u1 old] & Hg & [= <-])%result_bind_Ok. cbn [fst snd].
    destruct (getCommitted_wf db s acct Hs _ _ _ _ _ Hu Hg) as (_ & E & _). apply getCommitted_view in Hg as [Ho Hso]; [|done].
    split; [|by rewrite Ho]. apply set_staged_restaged; [done|]. by rewrite Es.
Qed.
End view.

(** ** The steps of a Foo/set without hooks *)

Section steps.
Context `{MR : MapRange, TP : TimeParse, CF : CaseFold, LC : LogCodec, UC : UploadCodec, JT : JsonText, JL : !JsonTextLaws}.
Context {S : Type} `{BE : Backend S, BL : !BackendLaws S}.
Context {P : Type}.
Variable sd : stdType S.
Variable ext : Extensions P.
Variable s : S.
Variable acct : Id.
Variable extra : gmap bytes bytes.
Variable entropy : Id -> Z * bytes.

Abbreviation db := (sd_db sd).
Abbreviation t := (sd_t sd).
Abbreviation name := (t_Name (sd_t sd)).
Abbreviation recs := (obj_at (sd_db sd) (be_map s) acct (t_Name (sd_t sd))).
Abbreviation uview := (view (sd_db sd) s acct (t_Name (sd_t sd))).

Hypothesis Hdb : db_wf db.
Hypothesis Hacct : Valid acct = true.
Hypothesis Hreach : account_reach db acct s.
Hypothesis Ht : db_types db !! name = Some t.
Hypothesis Hdef : forall n p d, t_Properties t !! n = Some p -> p_Default p = Some d -> trim d = d.
Hypothesis Hval : sh_Validate (ex_Set ext) = None.
Hypothesis Hdes : sh_Destroy (ex_Set ext) = None.

Lemma store_inv : be_inv s /\ index_inv db acct (be_map s).
Proof. destruct (account_reach_inv db acct Hdb Hacct s Hreach) as (H1 & H2 & _). done. Qed.

Lemma type_valid : Validate t = Ok tt.
Proof. by destruct (dw_types db Hdb _ _ Ht) as (_ & H & _). Qed.

Lemma committed_kept (id : Id) (o : Object) : recs id = Some o -> kept t o.
Proof.
  intros Ho. split.
  - unfold obj_at in Ho. destruct (be_map s !! objKey acct name id) as [raw|]; [|done].
    destruct (decodeStored db (sbytes raw)) as [o'|] eqn:E; [|done]. subst o'. by apply (DecodeObject_compact _ _ _ E).
  - intros n p raw Hp _ Hr. destruct (account_checked db acct Hdb Hacct s name t id o Hreach Ht Ho) as [_ H]. by eapply H.
Qed.

(** What every Update of the method satisfies. *)
Record good (u : Update) : Prop := mkGood {
  gd_reach : reach db s acct u;
  gd_only : forall k st, u_staged u !! k = Some st -> st_typeName st = name;
  gd_kept : forall id o, uview u id = Some o -> kept t o;
  gd_orders : forall k st old new, u_staged u !! k = Some st -> st_old st = Some old -> st_new st = Some new ->
    forall n p, t_Properties t !! n = Some p -> orderSegs t p (Some old) = orderSegs t p (Some new);
}.

Lemma good_wf u : good u -> update_wf db acct (be_map s) u.
Proof. intros [H _ _ _]. apply reach_wf; [apply store_inv|done]. Qed.

Lemma good_staging u : good u -> staging_ok db u.
Proof.
  intros Hg k st Hst. pose proof (good_wf u Hg) as Hu. pose proof (gd_only u Hg k st Hst) as Hn.
  destruct (uw_staged _ _ _ _ Hu _ _ Hst) as [-> _]. assert (type_of db st = t) as Hty by (unfold type_of; by rewrite Hn, Ht). split.
  - intros n p Hp Hi v v' Hov Hnv. rewrite Hty in *. destruct (st_old st) as [old|] eqn:Eo; [|done]. destruct (st_new st) as [new|] eqn:En; [|done].
    by eapply (gd_orders u Hg).
  - intros o Ho. apply (gd_kept u Hg (st_id st) o). unfold view. rewrite <- Hn at 1. by rewrite Hst.
Qed.

(** Reads change nothing that matters. *)
Lemma good_read u u' id o : good u -> u_Get db s acct u name id = Ok (u', o) -> good u' /\ forall x, uview u' x = uview u x.
Proof.
  intros Hg Hr. destruct store_inv as [Hs Hinv]. pose proof (u_Get_view db s acct name t Hs Hinv Ht u id u' o (good_wf u Hg) Hr) as (_ & _ & E).
  pose proof (view_same db s acct name u u' E) as Hv. split; [|done]. destruct Hg as [H1 H2 H3 H4]. constructor.
  - by eapply reach_Get.
  - rewrite E. exact H2.
  - intros x y. rewrite Hv. apply H3.
  - rewrite E. exact H4.
Qed.

(** Restaging a record keeps the Update good when the new version keeps the
    record's order values. *)
Lemma good_restaged u u' id new :
  good u -> reach db s acct u' -> restaged db s acct name u u' id new ->
  (forall o, new = Some o -> kept t o /\ exists cur, uview u id = Some cur /\
     forall n p, t_Properties t !! n = Some p -> orderSegs t p (Some cur) = orderSegs t p (Some o)) -> good u'.
Proof.
  intros Hg Hr [Hv (st & Hst & Hn & Htn & Hold) Ho] Hnew. pose proof Hg as [_ H2 H3 H4]. constructor; [done| | |].
  - intros k st' Hk. destruct (decide (k = stagedKey name id)) as [-> |Hne]; [congruence|]. rewrite Ho in Hk by done. by eapply H2.
  - intros x o. rewrite Hv. unfold put. destruct (decide (x = id)); [|by apply H3]. intros ->. by apply Hnew.
  - intros k st' old o Hk Eo En n p Hp. destruct (decide (k = stagedKey name id)) as [-> |Hne].
    2: { rewrite Ho in Hk by done. by eapply H4. }
    rewrite Hst in Hk. injection Hk as <-. destruct (Hnew o) as (_ & cur & Hcur & Hord); [congruence|]. rewrite <- (Hord n p Hp).
    rewrite Eo in Hold. unfold view in Hcur. destruct (u_staged u !! stagedKey name id) as [st0|] eqn:Es; [|congruence].
    symmetry in Hold. by eapply (H4 _ _ _ _ Es Hold Hcur).
Qed.

(** The state stands for the records [R], with the creation ids [ids]. *)
Definition stands (ids : gmap Id Id) (R : Records) (σ : SetState) : Prop :=
  good (ss_u σ) /\ (forall x, uview (ss_u σ) x = R x) /\ ss_ids σ = ids.

Lemma stands_same ids R (σ σ' : SetState) : ss_u σ' = ss_u σ -> ss_ids σ' = ss_ids σ -> stands ids R σ -> stands ids R σ'.
Proof. unfold stands. intros -> ->. done. Qed.

Abbreviation upatch := (patched (sd_t sd) s acct).
Abbreviation uspec := (spec_update (sd_t sd) s acct).

(** An update in terms of the specification. *)
Lemma update_one_spec ids R updates uid σ :
  stands ids R σ ->
  wp (update_one sd ext s acct extra updates uid) σ (fun _ σ' =>
    stands ids (uspec ids updates R uid) σ' /\
    match upatch ids updates R uid with
    | Some (id, _) => ss_resp σ' = updated id None (ss_resp σ)
    | None => exists e, ss_resp σ' = notUpdated uid e (ss_resp σ)
    end).
Proof.
  intros Hst. pose proof Hst as (Hg & HR & Hids). destruct store_inv as [Hs Hinv].
  assert (forall σ1 e, stands ids R σ1 -> ss_resp σ1 = ss_resp σ -> upatch ids updates R uid = None ->
    wp (respond (notUpdated uid e)) σ1 (fun _ σ' => stands ids (uspec ids updates R uid) σ' /\
      match upatch ids updates R uid with Some (id, _) => ss_resp σ' = updated id None (ss_resp σ) | None => exists e, ss_resp σ' = notUpdated uid e (ss_resp σ) end)) as Hrej.
  { intros σ1 e H1 Hr Hp. apply wp_respond. unfold spec_update. rewrite Hp. split; [by eapply stands_same; [..|exact H1]|]. exists e. cbn. by rewrite Hr. }
  unfold update_one. apply wp_bind, wp_get_ids. rewrite Hids.
  destruct (resolveIdArg uid ids) as [rid|] eqn:Er; [|by apply Hrej; [..|unfold patched; rewrite Er]].
  apply wp_bind, wp_if_found.
  2: { intros Hno. apply Hrej; [done|done|]. apply (u_Get_absent db s acct name t Hs Hinv Ht) in Hno; [|by apply good_wf].
       unfold patched. rewrite Er. cbn [mbind option_bind]. by rewrite <- HR, Hno. }
  intros u1 o Hget. destruct (u_Get_view db s acct name t Hs Hinv Ht _ _ _ _ (good_wf _ Hg) Hget) as (Hcur & [cur ->] & _).
  destruct (good_read _ _ _ _ Hg Hget) as [Hg1 Hv1]. rewrite HR in Hcur.
  set (σ1 := mkSetState u1 _ _ _). assert (stands ids R σ1) as Hst1 by (split_and!; [done|cbn; intros x; by rewrite Hv1, HR|done]).
  unfold patched in Hrej |- *. unfold spec_update, patched in *. rewrite Er in *. cbn [mbind option_bind] in *. rewrite Hcur in *. cbn [mbind option_bind default] in *.
  destruct (json_object _) as [patch|] eqn:Ej; [|by apply Hrej]. cbn [mbind option_bind] in *. unfold id in *.
  destruct (applyPatch t cur patch ids) as [new|serr] eqn:Ea; [|by apply Hrej].
  apply wp_bind, wp_lift. intros bad Hbad. rewrite Hbad in *. destruct bad as [|b bad]; [|by apply Hrej].
  unfold validate. rewrite Hval. apply wp_bind, wp_ret. apply wp_bind, wp_on_update. intros u2 [] Hput. cbn [ss_u σ1] in Hput.
  apply result_bind_Ok in Hput as (u2' & Hput & [= <-]). apply wp_respond. cbn [ss_resp ss_ids ss_u ss_dead σ1]. split; [|done].
  pose proof (Put_restaged db s acct name t Hs Hinv Ht u1 _ new u2' (good_wf _ Hg1) Hput) as Hre.
  pose proof (gd_kept _ Hg1 _ cur ltac:(by rewrite Hv1, HR)) as Hk.
  pose proof (json_object_compact _ _ Ej) as Hpc.
  split_and!; [|intros x; cbn [ss_u]; rewrite (rs_view _ _ _ _ _ _ _ _ Hre); unfold put; destruct (decide _); [done|by rewrite Hv1, HR]|done].
  eapply (good_restaged u1); [done|eapply reach_Put; [apply Hg1|exact Hput]|exact Hre|]. intros o [= <-].
  split; [eapply applyPatch_kept; [exact type_valid|exact Hdef|exact Hpc|exact Ea|done]|].
  exists cur. split; [by rewrite Hv1, HR|]. intros n p Hp. eapply applyPatch_orders; [exact type_valid|exact Hdef|exact Ea|exact Hpc|exact Hk|exact Hp].
Qed.

Definition uid_answer (ids : gmap Id Id) (updates : gmap Id bytes) (R : Records) (uid : Id) : option Id := fst <$> upatch ids updates R uid.

Lemma updates_spec ids R updates l σ :
  stands ids R σ ->
  wp (for_each l (update_one sd ext s acct extra updates)) σ (fun _ σ' =>
    let ans := answers (uspec ids updates) (uid_answer ids updates) R l in
    stands ids (fold_left (uspec ids updates) l R) σ' /\ no_updates (ss_resp σ') = no_updates (ss_resp σ) /\
    (forall id, id ∈ dom (sr_Updated (ss_resp σ')) <-> id ∈ dom (sr_Updated (ss_resp σ)) \/ exists uid, (uid, Some id) ∈ ans) /\
    (forall uid, uid ∈ dom (sr_NotUpdated (ss_resp σ')) <-> uid ∈ dom (sr_NotUpdated (ss_resp σ)) \/ (uid, None) ∈ ans)).
Proof.
  revert R σ. induction l as [|uid l IH]; intros R σ Hst; cbn [for_each answers fold_left].
  { apply wp_ret. cbv zeta. split_and!; [done|done| |]; intros x; [|split; [by left|intros [?|H]; [done|by apply not_elem_of_nil in H]]].
    split; [by left|]. intros [?|[? H]]; [done|by apply not_elem_of_nil in H]. }
  apply wp_bind. eapply wp_mono; [by apply update_one_spec|]. cbn beta. intros _ σ1 [Hst1 Hr].
  eapply wp_mono; [by apply IH|]. cbv beta zeta. intros _ σ2 (H1 & H2 & H3 & H4).
  unfold uid_answer at 1 3. destruct (upatch ids updates R uid) as [[rid new]|]; [|destruct Hr as [e Hr]]; rewrite Hr in H2, H3, H4; cbn in H2, H3, H4 |- *.
  - split_and!; [done|by rewrite H2| |].
    + intros x. rewrite H3, dom_insert_L, elem_of_union, elem_of_singleton. split.
      * intros [[-> |?]|[u Hu]]; [right; exists uid; by left|by left|right; exists u; by right].
      * intros [?|[u [[= -> ->]|Hu]%elem_of_cons]]; [by left; right|by left; left|right; by exists u].
    + intros x. rewrite H4. split; [intros [?|?]; [by left|right; by right]|]. intros [?|[[=]|?]%elem_of_cons]; [by left|by right].
  - split_and!; [done|by rewrite H2| |].
    + intros x. rewrite H3. split; [intros [?|[u ?]]; [by left|right; exists u; by right]|]. intros [?|[u [[=]|?]%elem_of_cons]]; [by left|right; by exists u].
    + intros x. rewrite H4, dom_insert_L, elem_of_union, elem_of_singleton. split.
      * intros [[-> |?]|?]; [right; by left|by left|right; by right].
      * intros [?|[[= ->]|?]%elem_of_cons]; [by left; right|by left; left|by right].
Qed.

(** A destroy in terms of the specification. *)
Lemma destroy_one_spec ids R did σ :
  stands ids R σ ->
  wp (destroy_one sd ext s acct extra did) σ (fun _ σ' =>
    stands ids (spec_destroy ids R did) σ' /\
    match doomed ids R did with
    | Some id => ss_resp σ' = destroyed id (ss_resp σ)
    | None => exists e, ss_resp σ' = notDestroyed did e (ss_resp σ)
    end).
Proof.
  intros Hst. pose proof Hst as (Hg & HR & Hids). destruct store_inv as [Hs Hinv].
  assert (forall σ1 e, stands ids R σ1 -> ss_resp σ1 = ss_resp σ -> doomed ids R did = None ->
    wp (respond (notDestroyed did e)) σ1 (fun _ σ' => stands ids (spec_destroy ids R did) σ' /\
      match doomed ids R did with Some id => ss_resp σ' = destroyed id (ss_resp σ) | None => exists e, ss_resp σ' = notDestroyed did e (ss_resp σ) end)) as Hrej.
  { intros σ1 e H1 Hr Hp. apply wp_respond. unfold spec_destroy. rewrite Hp. split; [by eapply stands_same; [..|exact H1]|]. exists e. cbn. by rewrite Hr. }
  unfold destroy_one. apply wp_bind, wp_get_ids. rewrite Hids, Hdes.
  destruct (resolveIdArg did ids) as [rid|] eqn:Er; [|by apply Hrej; [..|unfold doomed; rewrite Er]].
  apply wp_bind. eapply wp_mono with (Q := fun _ σ1 => stands ids R σ1 /\ ss_resp σ1 = ss_resp σ).
  { destruct (_ || _); [|by apply wp_ret]. apply wp_bind, wp_if_found; [|intros _; by apply wp_ret].
    intros u1 o Hget. destruct (good_read _ _ _ _ Hg Hget) as [Hg1 Hv1]. apply wp_ret. split; [|done].
    split_and!; [done|cbn; intros x; by rewrite Hv1, HR|done]. }
  cbn beta. intros old σ1 [Hst1 Hr1]. apply wp_bind, wp_ret. pose proof Hst1 as (Hg1 & HR1 & Hids1). apply wp_bind, wp_if_found.
  2: { intros Hno. apply Hrej; [done|done|]. destruct (Destroy db s acct (ss_u σ1) name rid) eqn:Ed; [done|]. cbn in Hno. injection Hno as ->.
       apply (Destroy_absent db s acct name t Hs Hinv Ht) in Ed; [|by apply good_wf]. unfold doomed. rewrite Er. cbn [mbind option_bind]. by rewrite <- HR1, Ed. }
  intros u2 [] (u2' & Hd & [= <-])%result_bind_Ok.
  destruct (Destroy_restaged db s acct name t Hs Hinv Ht _ _ _ (good_wf _ Hg1) Hd) as [Hre [o Ho]].
  assert (doomed ids R did = Some rid) as Hdm by (unfold doomed; rewrite Er; cbn [mbind option_bind]; by rewrite <- HR1, Ho).
  unfold spec_destroy. rewrite Hdm.
  set (σ2 := mkSetState u2' _ _ _).
  assert (stands ids (put R rid None) σ2) as Hst2.
  { split_and!; [|cbn; intros x; rewrite (rs_view _ _ _ _ _ _ _ _ Hre); unfold put; destruct (decide _); [done|apply HR1]|done].
    cbn. eapply (good_restaged (ss_u σ1)); [done|eapply reach_Destroy; [apply Hg1|exact Hd]|exact Hre|done]. }
  apply wp_bind. eapply wp_mono with (Q := fun _ σ3 => stands ids (put R rid None) σ3 /\ ss_resp σ3 = ss_resp σ).
  { destruct (sh_AfterSet _), old; first [apply wp_keep_dead|apply wp_ret]; (split; [|done]); (eapply stands_same; [..|exact Hst2]); done. }
  cbn beta. intros _ σ3 [Hst3 Hr3]. apply wp_respond. cbn. split; [by eapply stands_same; [..|exact Hst3]|]. by rewrite Hr3.
Qed.

Lemma destroys_spec ids R l σ :
  stands ids R σ ->
  wp (for_each l (destroy_one sd ext s acct extra)) σ (fun _ σ' =>
    let ans := answers (spec_destroy ids) (doomed ids) R l in
    stands ids (fold_left (spec_destroy ids) l R) σ' /\ no_destroys (ss_resp σ') = no_destroys (ss_resp σ) /\
    sr_Destroyed (ss_resp σ') = sr_Destroyed (ss_resp σ) ++ omap snd ans /\
    (forall did, did ∈ dom (sr_NotDestroyed (ss_resp σ')) <-> did ∈ dom (sr_NotDestroyed (ss_resp σ)) \/ (did, None) ∈ ans)).
Proof.
  revert R σ. induction l as [|did l IH]; intros R σ Hst; cbn [for_each answers fold_left].
  { apply wp_ret. cbv zeta. split_and!; [done|done|cbn; by rewrite app_nil_r|]. intros x. split; [by left|]. intros [?|H]; [done|by apply not_elem_of_nil in H]. }
  apply wp_bind. eapply wp_mono; [by apply destroy_one_spec|]. cbn beta. intros _ σ1 [Hst1 Hr].
  eapply wp_mono; [by apply IH|]. cbv beta zeta. intros _ σ2 (H1 & H2 & H3 & H4).
  destruct (doomed ids R did) as [rid|]; [|destruct Hr as [e Hr]]; rewrite Hr in H2, H3, H4; cbn in H2, H3, H4 |- *.
  - split_and!; [done|by rewrite H2|by rewrite H3, <- app_assoc|].
    intros x. rewrite H4. split; [intros [?|?]; [by left|right; by right]|]. intros [?|[[=]|?]%elem_of_cons]; [by left|by right].
  - split_and!; [done|by rewrite H2|by rewrite H3|].
    intros x. rewrite H4, dom_insert_L, elem_of_union, elem_of_singleton. split.
    + intros [[-> |?]|?]; [right; by left|by left|right; by right].
    + intros [?|[[= ->]|?]%elem_of_cons]; [by left; right|by left; left|by right].
Qed.

(** ** The creates *)

Section creates.
Variable ids0 : gmap Id Id.
Variable creates : gmap Id bytes.
Hypothesis Hids0 : forall c r, ids0 !! c = Some r -> Valid r = true.

(** The creation ids a reference can mean: those of the request so far, and
    those this call created. *)
Definition known (σ : SetState) (c r : Id) : Prop :=
  ids0 !! c = Some r \/ (c ∈ dom (sr_Created (ss_resp σ)) /\ ss_ids σ !! c = Some r).

(** The ids of the created records are new, and differ. *)
Definition fresh_ids (created : gset Id) (ids : gmap Id Id) : Prop :=
  (forall c id, c ∈ created -> ids !! c = Some id -> be_map s !! objKey acct name id = None) /\
  (forall c c' id, c ∈ created -> c' ∈ created -> ids !! c = Some id -> ids !! c' = Some id -> c = c').
Definition fresh (σ : SetState) : Prop := fresh_ids (dom (sr_Created (ss_resp σ))) (ss_ids σ).

Record cinv (σ : SetState) : Prop := mkCinv {
  ci_good : good (ss_u σ);
  ci_ids : forall c r, ss_ids σ !! c = Some r -> known σ c r /\ Valid r = true;
  ci_created : forall c, c ∈ dom (sr_Created (ss_resp σ)) -> exists id raw o, ss_ids σ !! c = Some id /\ creates !! c = Some raw /\
    created_object t s acct (known σ) raw o /\ uview (ss_u σ) id = Some (<[bs "id" := marshal_id id]> o);
  ci_staged : forall k st, u_staged (ss_u σ) !! k = Some st ->
    exists c id, c ∈ dom (sr_Created (ss_resp σ)) /\ ss_ids σ !! c = Some id /\ k = stagedKey name id;
}.

Lemma known_valid (σ : SetState) (c r : Id) : cinv σ -> known σ c r -> Valid r = true.
Proof. intros Hc [H|[_ H]]; [by eapply Hids0|by eapply ci_ids]. Qed.

(** A create that is waiting: its references resolve to what is known. *)
Definition waiting (some : bool) (σ : SetState) (cid : Id) (o : Object) : Prop :=
  exists raw sent, creates !! cid = Some raw /\ DecodeObject raw ∅ = Ok sent /\ resolves t some (known σ) (with_defaults t (default ∅ sent)) o.

Lemma waiting_compact (some : bool) (σ : SetState) (cid : Id) (o : Object) : waiting some σ cid o -> compact o.
Proof.
  intros (raw & sent & _ & Hd & Hr). eapply (resolves_compact t); [|exact Hr].
  intros n v [Hv|[_ Hv]]%lookup_union_Some_raw; [by eapply (DecodeObject_compact raw ∅)|].
  apply lookup_omap_Some in Hv as (p & Hp & Hd'). by eapply Hdef.
Qed.

(** From one state to the next nothing that was known is lost. *)
Definition grows (σ σ' : SetState) : Prop :=
  (forall c r, known σ c r -> known σ' c r) /\ dom (sr_Created (ss_resp σ)) ⊆ dom (sr_Created (ss_resp σ')).

Lemma waiting_grows (some : bool) (σ σ' : SetState) (cid : Id) (o : Object) : grows σ σ' -> waiting some σ cid o -> waiting some σ' cid o.
Proof. intros [Hk _] (raw & sent & H1 & H2 & H3). exists raw, sent. split_and!; [done|done|by eapply resolves_mono]. Qed.

Lemma grows_refl σ : grows σ σ.
Proof. split; [done|done]. Qed.

Lemma grows_trans σ1 σ2 σ3 : grows σ1 σ2 -> grows σ2 σ3 -> grows σ1 σ3.
Proof. intros [H1 H2] [H3 H4]. split; [auto|by etrans]. Qed.

(** Only the answers to rejected creates changed. *)
Record same_creates (σ σ' : SetState) : Prop := mkSameCreates {
  sc_u : ss_u σ' = ss_u σ;
  sc_ids : ss_ids σ' = ss_ids σ;
  sc_created : sr_Created (ss_resp σ') = sr_Created (ss_resp σ);
}.

Lemma same_known σ σ' : same_creates σ σ' -> forall c r, known σ' c r <-> known σ c r.
Proof. intros [_ Hi Hc] c r. unfold known. by rewrite Hi, Hc. Qed.

Lemma same_grows σ σ' : same_creates σ σ' -> grows σ σ'.
Proof. intros H. split; [intros c r; by apply same_known|]. by rewrite (sc_created _ _ H). Qed.

Lemma same_fresh σ σ' : same_creates σ σ' -> fresh σ' -> fresh σ.
Proof. intros [_ Hi Hc]. unfold fresh. by rewrite Hi, Hc. Qed.

Lemma same_cinv σ σ' : same_creates σ σ' -> cinv σ -> cinv σ'.
Proof.
  intros Hs [H1 H2 H3 H4]. pose proof (same_known σ σ' Hs) as Hk. destruct Hs as [Hu Hi Hc]. constructor; rewrite ?Hu, ?Hi, ?Hc; [done| | |done].
  - intros c r Hr. rewrite Hk. by apply H2.
  - intros c Hin. destruct (H3 c Hin) as (id & raw & o & E1 & E2 & (sent & Hd & Hr & E3) & E4). exists id, raw, o. split_and!; [done|done| |done].
    exists sent. split_and!; [done| |by destruct E3..]. eapply resolves_mono; [|exact Hr]. intros c' r'. apply Hk.
Qed.

(** A create leads from [σ] to [σ'], where [cid] has been answered. *)
Definition step_ok (C : gset Id) (σ σ' : SetState) : Prop :=
  grows σ σ' /\ dom (sr_Created (ss_resp σ')) ⊆ dom (sr_Created (ss_resp σ)) ∪ C /\ (fresh σ' -> fresh σ) /\ (fresh σ' -> cinv σ -> cinv σ').

Lemma step_ok_same C σ σ' : same_creates σ σ' -> step_ok C σ σ'.
Proof.
  intros H. split_and!; [by apply same_grows| |by apply same_fresh|intros _; by apply same_cinv]. rewrite (sc_created _ _ H). clear. set_solver.
Qed.

Lemma step_ok_trans C1 C2 σ1 σ2 σ3 : step_ok C1 σ1 σ2 -> step_ok C2 σ2 σ3 -> step_ok (C1 ∪ C2) σ1 σ3.
Proof.
  intros (G1 & D1 & F1 & I1) (G2 & D2 & F2 & I2). split_and!; [by eapply grows_trans| |auto|auto]. clear -D1 D2. set_solver.
Qed.

Lemma step_ok_mono C C' σ σ' : C ⊆ C' -> step_ok C σ σ' -> step_ok C' σ σ'.
Proof. intros HC (G & D & F & I). split_and!; [done| |done|done]. clear -D HC. set_solver. Qed.

Lemma not_created_step C cid e σ : wp (respond (notCreated cid e)) σ (fun _ σ' => step_ok C σ σ').
Proof. apply wp_respond. by apply step_ok_same. Qed.

(** The Update after a create. *)
Lemma Create_good u u' id now rnd o :
  good u -> Create db u now rnd name o = Ok (u', id) -> be_map s !! objKey acct name id = None -> u_staged u !! stagedKey name id = None ->
  kept t o -> good u' /\ (forall x, uview u' x = put (uview u) id (Some (<[bs "id" := marshal_id id]> o)) x) /\ Valid id = true.
Proof.
  intros Hg Hc Hno Hns Hk. pose proof (Create_staged db u now rnd name o u' id Hc) as Est.
  assert (Valid id = true) as Hvid.
  { unfold Create in Hc. rewrite Ht in Hc. destruct (o !! bs "id"); [done|]. apply result_bind_Ok in Hc as (_ & _ & Hc).
    destruct (newId db u now rnd) as [u1 id1] eqn:En. injection Hc as _ <-. by eapply (newId_valid db). }
  assert (forall x, uview u' x = put (uview u) id (Some (<[bs "id" := marshal_id id]> o)) x) as Hv.
  { intros x. unfold view, put. rewrite Est. destruct (decide (x = id)) as [-> |Hne]; [by rewrite lookup_insert_eq|].
    rewrite lookup_insert_ne by (intros [= <-]; done). done. }
  split; [|done]. destruct Hg as [H1 H2 H3 H4]. constructor.
  - by eapply reach_Create.
  - intros k st. rewrite Est. intros [[<- <-]|[_ H]]%lookup_insert_Some; [done|by eapply H2].
  - intros x y. rewrite Hv. unfold put. destruct (decide (x = id)); [|apply H3]. intros [= <-].
    apply (kept_id t type_valid); [by apply marshal_id_compact|done].
  - intros k st old new. rewrite Est. intros [[<- <-]|[_ H]]%lookup_insert_Some; [done|by eapply H4].
Qed.

(** Everything but the Update after a create was accepted. *)
Definition registers (cid id : Id) (σ σ' : SetState) : Prop :=
  ss_ids σ' = <[cid := id]> (ss_ids σ) /\ dom (sr_Created (ss_resp σ')) = {[ cid ]} ∪ dom (sr_Created (ss_resp σ)).

Lemma registers_known cid id σ σ' c r :
  cid ∉ dom (sr_Created (ss_resp σ)) -> registers cid id σ σ' -> known σ c r -> known σ' c r.
Proof.
  intros Hni [Hi Hd] [H|[H1 H2]]; [by left|right]. rewrite Hi, Hd. split; [set_solver|]. rewrite lookup_insert_ne by (by intros <-). done.
Qed.

Lemma registers_fresh cid id σ σ' : cid ∉ dom (sr_Created (ss_resp σ)) -> registers cid id σ σ' -> fresh σ' -> fresh σ.
Proof.
  intros Hni [Hi Hd] [F1 F2]. rewrite Hi, Hd in *.
  assert (forall c r, c ∈ dom (sr_Created (ss_resp σ)) -> ss_ids σ !! c = Some r -> <[cid := id]> (ss_ids σ) !! c = Some r) as Hl.
  { intros c r Hc Hr. rewrite lookup_insert_ne by (by intros <-). done. }
  split.
  - intros c r Hc Hr. apply (F1 c r); [set_solver|by apply Hl].
  - intros c c' r Hc Hc' Hr Hr'. apply (F2 c c' r); [set_solver|set_solver|by apply Hl|by apply Hl].
Qed.

(** A created record joins the others. *)
Lemma registers_cinv cid id o (u1 : Update) now rnd σ σ' :
  cid ∉ dom (sr_Created (ss_resp σ)) -> registers cid id σ σ' -> fresh σ' -> cinv σ -> waiting false σ cid o -> checkValues t o = [] -> checkBlobRefs s acct t o = Ok [] ->
  Create db (ss_u σ) now rnd name o = Ok (u1, id) -> (good u1 -> good (ss_u σ') /\ (forall x, uview (ss_u σ') x = uview u1 x) /\ u_staged (ss_u σ') = u_staged u1) -> cinv σ'.
Proof.
  intros Hni Hreg [F1 F2] Hc Hw Hcv Hcb Hcr Hend. pose proof Hreg as [Hi Hd]. rewrite Hi, Hd in F1, F2.
  pose proof Hc as [C1 C2 C3 C4].
  assert (forall c r, c ∈ dom (sr_Created (ss_resp σ)) -> ss_ids σ !! c = Some r -> <[cid := id]> (ss_ids σ) !! c = Some r /\ r <> id) as Hl.
  { intros c r Hin Hr. assert (<[cid := id]> (ss_ids σ) !! c = Some r) as E by (by rewrite lookup_insert_ne by (by intros <-)).
    split; [done|]. intros ->. assert (c = cid) as -> by (apply (F2 c cid id); [set_solver|set_solver|done|apply lookup_insert_eq]). done. }
  destruct (Create_good (ss_u σ) u1 id now rnd o C1 Hcr) as (G1 & V1 & Hvid).
  { apply (F1 cid); [set_solver|apply lookup_insert_eq]. }
  { destruct (u_staged (ss_u σ) !! stagedKey name id) as [st|] eqn:Es; [|done]. destruct (C4 _ _ Es) as (c & r & Hin & Hr & [= <-]). by destruct (Hl c id Hin Hr). }
  { split; [by eapply waiting_compact|]. apply (checkValues_scalars t type_valid). done. }
  destruct (Hend G1) as (G2 & V2 & E2). constructor.
  - done.
  - intros c r. rewrite Hi. intros [[<- <-]|[Hne H]]%lookup_insert_Some.
    + split; [|done]. right. rewrite Hd, Hi. split; [set_solver|apply lookup_insert_eq].
    + destruct (C2 c r H) as [Hk Hv]. split; [by eapply registers_known|done].
  - intros c. rewrite Hd, elem_of_union, elem_of_singleton. intros [-> |Hin].
    + destruct Hw as (raw & sent & Hr & Hde & Hres). exists id, raw, o. split_and!; [rewrite Hi; apply lookup_insert_eq|done| |].
      * exists sent. split_and!; [done| |done|done]. eapply resolves_mono; [|exact Hres]. intros c' r'. by eapply registers_known.
      * rewrite V2, V1. unfold put. by rewrite decide_True.
    + destruct (C3 c Hin) as (r & raw & o' & E1 & Hr & (sent & Hde & Hres & Hx) & Hv). destruct (Hl c r Hin E1) as [E1' Hne].
      exists r, raw, o'. split_and!; [by rewrite Hi|done| |].
      * exists sent. split_and!; [done| |by destruct Hx..]. eapply resolves_mono; [|exact Hres]. intros c' r'. by eapply registers_known.
      * rewrite V2, V1. unfold put. by rewrite decide_False.
  - intros k st. rewrite E2, (Create_staged db _ _ _ _ _ _ _ Hcr), Hd, Hi. intros [[<- _]|[_ H]]%lookup_insert_Some.
    + exists cid, id. split_and!; [set_solver|apply lookup_insert_eq|done].
    + destruct (C4 k st H) as (c & r & Hin & Hr & ->). exists c, r. split_and!; [set_solver|by apply Hl|done].
Qed.

Lemma create_one_step cid o sent σ :
  cid ∉ dom (sr_Created (ss_resp σ)) -> (fresh σ -> cinv σ -> waiting false σ cid o) ->
  wp (create_one sd ext s acct extra entropy cid o sent) σ (fun _ σ' => step_ok {[ cid ]} σ σ').
Proof.
  intros Hni Hw. unfold create_one. destruct (checkValues t o) eqn:Ecv; [|apply not_created_step].
  apply wp_bind, wp_lift. intros bad Hbad. destruct bad; [|apply not_created_step].
  unfold validate. rewrite Hval. apply wp_bind, wp_ret. apply wp_bind, wp_on_update. intros u1 id Hcr.
  apply wp_bind, wp_register. apply wp_bind, wp_on_update. intros u2 stored Hget. cbn [ss_u] in Hget. apply wp_respond.
  cbn [ss_u ss_ids ss_resp ss_dead]. set (σ' := mkSetState _ _ _ _).
  assert (registers cid id σ σ') as Hreg by (split; [done|apply dom_insert_L]).
  split_and!.
  - split; [intros c r; by eapply registers_known|]. rewrite (proj2 Hreg). clear. set_solver.
  - rewrite (proj2 Hreg). clear. set_solver.
  - by eapply registers_fresh.
  - intros Hf Hc. eapply registers_cinv; [done|done|done|done| |done|done|exact Hcr|].
    + apply Hw; [by eapply registers_fresh|done].
    + intros G1. destruct (good_read u1 u2 id stored G1 Hget) as [G2 V2]. destruct store_inv as [Hs Hinv].
      destruct (u_Get_view db s acct name t Hs Hinv Ht u1 id u2 stored (good_wf u1 G1) Hget) as (_ & _ & E). done.
Qed.

(** Between creates: the pending ones are waiting, none of them is created. *)
Definition between (pending : gmap Id pendingCreate) (σ : SetState) : Prop :=
  dom pending ## dom (sr_Created (ss_resp σ)) /\
  (fresh σ -> cinv σ /\ forall cid pc, pending !! cid = Some pc -> waiting true σ cid (pc_obj pc)).

Lemma between_same pending σ σ' : same_creates σ σ' -> between pending σ -> between pending σ'.
Proof.
  intros Hs [Hd H]. split; [by rewrite (sc_created _ _ Hs)|]. intros Hf. destruct (H (same_fresh _ _ Hs Hf)) as [Hc Hw].
  split; [by eapply same_cinv|]. intros cid pc Hp. eapply waiting_grows; [by apply same_grows|by apply Hw].
Qed.

Lemma waiting_resolve σ cid o o' un :
  cinv σ -> waiting true σ cid o -> resolveIdRefs t o (ss_ids σ) = (o', un) -> waiting true σ cid o' /\ (un = [] -> waiting false σ cid o').
Proof.
  intros Hc (raw & sent & H1 & H2 & H3) Hr.
  destruct (resolveIdRefs_resolves t true (known σ) _ _ _ _ _ (fun c r H => proj1 (ci_ids σ Hc c r H)) (fun c r => known_valid σ c r Hc) H3 Hr) as [H4 H5].
  split; [|intros Hun]; exists raw, sent; split_and!; auto.
Qed.

Lemma create_pass_between cids pending progress σ :
  between pending σ ->
  wp (create_pass sd ext s acct extra entropy cids pending progress) σ (fun r σ' => between r.1 σ').
Proof.
  revert pending progress σ. induction cids as [|cid cids IH]; intros pending progress σ Hb; cbn [create_pass]; [by apply wp_ret|].
  destruct (pending !! cid) as [pc|] eqn:Ep; [|apply wp_throw]. apply wp_bind, wp_get_ids. destruct Hb as [Hd Hb].
  assert (cid ∉ dom (sr_Created (ss_resp σ))) as Hni by (apply elem_of_dom_2 in Ep; set_solver).
  destruct (resolveIdRefs t (pc_obj pc) (ss_ids σ)) as [o un] eqn:Er. destruct un as [|n un].
  - apply wp_bind. eapply wp_mono.
    { apply (create_one_step cid o (pc_sent pc) σ Hni). intros Hf Hc. destruct (Hb Hf) as [_ Hw].
      by destruct (waiting_resolve σ cid _ _ _ Hc (Hw cid pc Ep) Er) as [_ ?]; auto. }
    cbn beta. intros _ σ1 (G & D & F & I). apply IH. split; [rewrite dom_delete_L; clear -D Hd; set_solver|].
    intros Hf. destruct (Hb (F Hf)) as [Hc Hw]. split; [auto|]. intros c pc' [_ Hp]%lookup_delete_Some. eapply waiting_grows; [exact G|by apply Hw].
  - apply IH. split; [by rewrite dom_insert_lookup_L by (by exists pc)|]. intros Hf. destruct (Hb Hf) as [Hc Hw]. split; [done|].
    intros c pc' [[<- <-]|[_ Hp]]%lookup_insert_Some; [|by apply Hw]. by apply (waiting_resolve σ cid _ _ _ Hc (Hw cid pc Ep) Er).
Qed.

Lemma reject_unresolved_between pending σ :
  (fresh σ -> cinv σ) -> wp (reject_unresolved sd pending) σ (fun _ σ' => fresh σ' -> cinv σ').
Proof.
  intros Hc. apply (wp_for_each _ _ (fun _ σ' => fresh σ' -> cinv σ')); [done|]. intros pre x σ1 H1.
  apply wp_bind, wp_get_ids, wp_respond. intros Hf. eapply same_cinv; [|apply H1; eapply same_fresh; [|exact Hf]]; done.
Qed.

Lemma create_rounds_between fuel pending σ :
  between pending σ -> wp (create_rounds sd ext s acct extra entropy fuel pending) σ (fun _ σ' => fresh σ' -> cinv σ').
Proof.
  revert pending σ. induction fuel as [|fuel IH]; intros pending σ Hb; cbn [create_rounds]; case_bool_decide;
    try (apply wp_ret; intros Hf; by apply Hb); [apply wp_throw|].
  apply wp_bind. eapply wp_mono; [by apply create_pass_between|]. cbn beta. intros [p' []] σ1 Hb1; cbn [fst snd] in *; [by apply IH|].
  apply reject_unresolved_between. intros Hf. by apply Hb1.
Qed.

(** ** Decoding the creates *)

Lemma add_defaults_some (l : list (bytes * Property)) (o : Object) :
  add_defaults l (Some o) = Ok (Some (o ∪ list_to_map (omap (fun np => (fun d => (np.1, d)) <$> p_Default np.2) l))).
Proof.
  revert o. induction l as [|[n p] l IH]; intros o; cbn [add_defaults omap list_omap fst snd]; [by rewrite right_id_L by apply _|].
  destruct (p_Default p) as [d|]; cbn [fmap option_fmap option_map]; [|apply IH]. rewrite IH. do 2 f_equal. apply map_eq. intros k.
  cbn [list_to_map foldr fst snd]. destruct (o !! n) as [v|] eqn:En.
  - destruct (decide (k = n)) as [-> |Hne]; [rewrite !lookup_union, En, lookup_insert_eq; clear; by destruct (_ !! n)|].
    rewrite !lookup_union, lookup_insert_ne by done. done.
  - rewrite !lookup_union. destruct (decide (k = n)) as [-> |Hne].
    + rewrite En, !lookup_insert_eq. clear. by destruct (_ !! n).
    + rewrite !lookup_insert_ne by done. done.
Qed.

Lemma add_defaults_none (l : list (bytes * Property)) (o' : option Object) :
  add_defaults l None = Ok o' -> o' = None /\ forall n p, (n, p) ∈ l -> p_Default p = None.
Proof.
  induction l as [|[n p] l IH]; cbn [add_defaults]; [intros [= <-]; split; [done|intros ? ? H; by apply not_elem_of_nil in H]|].
  destruct (p_Default p) eqn:Ed; [done|]. intros [-> H]%IH. split; [done|]. intros n' p' [[= -> ->]|Hin]%elem_of_cons; [done|by eapply H].
Qed.

(** The declared defaults, as a list and as a map. *)
Lemma defaults_map :
  list_to_map (omap (fun np : bytes * Property => (fun d => (np.1, d)) <$> p_Default np.2) (range_map (t_Properties t))) = omap p_Default (t_Properties t).
Proof.
  set (f := fun np : bytes * Property => (fun d => (np.1, d)) <$> p_Default np.2).
  assert (NoDup (omap f (range_map (t_Properties t))).*1) as Hnd.
  { pose proof (NoDup_range_map (t_Properties t)) as Hnd. induction (range_map (t_Properties t)) as [|[n p] l IH]; [constructor|].
    cbn in Hnd. inversion Hnd as [|? ? Hni Hnd']; subst. cbn [omap list_omap]. unfold f at 1. cbn. destruct (p_Default p); [|by apply IH].
    cbn. constructor; [|by apply IH]. intros ([n' d'] & -> & (np & Hnp & E)%list_elem_of_omap)%list_elem_of_fmap. apply Hni, list_elem_of_fmap. exists np. split; [|done].
    unfold f in E. destruct (p_Default np.2); [|done]. by injection E as -> _. }
  apply map_eq. intros k. rewrite lookup_omap. apply option_eq. intros d. rewrite <- elem_of_list_to_map by done. rewrite list_elem_of_omap. split.
  - intros ([n p] & Hnp & E). unfold f in E. cbn in E. destruct (p_Default p) as [d'|] eqn:Ed; [|done]. injection E as -> ->.
    apply elem_of_range_map in Hnp. by rewrite Hnp.
  - destruct (t_Properties t !! k) as [p|] eqn:Ep; [|done]. cbn. intros Ed. exists (k, p). split; [by apply elem_of_range_map|]. unfold f. cbn. by rewrite Ed.
Qed.

Lemma add_defaults_spec (o o' : option Object) :
  add_defaults (range_map (t_Properties t)) o = Ok o' -> default ∅ o' = with_defaults t (default ∅ o).
Proof.
  unfold with_defaults. destruct o as [o|].
  - rewrite add_defaults_some, defaults_map. by intros [= <-].
  - intros [-> H]%add_defaults_none. unfold default. rewrite left_id_L by apply _. apply map_eq. intros k. rewrite lookup_omap, lookup_empty.
    destruct (t_Properties t !! k) as [p|] eqn:Ep; [|done]. cbn. symmetry. eapply H. by apply elem_of_range_map.
Qed.

Lemma decode_creates_between cids pending σ :
  (forall cid, cid ∈ cids -> is_Some (creates !! cid)) -> dom (sr_Created (ss_resp σ)) = ∅ -> between pending σ ->
  wp (decode_creates sd creates cids pending) σ (fun pending' σ' => between pending' σ').
Proof.
  revert pending σ. induction cids as [|cid cids IH]; intros pending σ Hin He Hb; cbn [decode_creates]; [by apply wp_ret|].
  assert (forall e, wp (_ ← respond (notCreated cid e); decode_creates sd creates cids pending) σ (fun pending' σ' => between pending' σ')) as Hrej.
  { intros e. apply wp_bind, wp_respond. apply IH; [intros c Hc; apply Hin; by right|done|]. apply (between_same pending σ); [by constructor|done]. }
  destruct (DecodeObject _ _) as [sent|e] eqn:Ed; [|apply Hrej]. destruct (create_bad sd (default ∅ sent)); [|apply Hrej].
  apply wp_bind, wp_lift. intros o' Ho'. apply IH; [intros c Hc; apply Hin; by right|done|]. split; [rewrite He; clear; set_solver|].
  intros Hf. destruct Hb as [_ Hb]. destruct (Hb Hf) as [Hc Hw]. split; [done|]. intros c pc [[<- <-]|[_ Hp]]%lookup_insert_Some; [|by apply Hw].
  destruct (Hin cid) as [raw Hraw]; [by left|]. rewrite Hraw in Ed. exists raw, sent. split_and!; [done|done|]. cbn [pc_obj].
  rewrite (add_defaults_spec sent o' Ho'). apply resolves_start.
Qed.

Lemma processCreates_cinv u r :
  good u -> u_staged u = ∅ -> dom (sr_Created r) = ∅ ->
  let σ0 := mkSetState u ids0 r ∅ in
  wp (processCreates sd ext s acct extra entropy creates) σ0 (fun _ σ' => fresh σ' -> cinv σ').
Proof.
  intros Hg Hu He σ0. unfold processCreates. apply wp_bind. eapply wp_mono.
  - apply (decode_creates_between (sortedIds creates) ∅ σ0); [intros c; by apply elem_of_sortedIds|done|].
    split; [by rewrite dom_empty_L; apply disjoint_empty_l|]. intros _. split; [|intros c pc; by rewrite lookup_empty]. constructor.
    + done.
    + intros c v Hv. split; [by left|by eapply Hids0].
    + intros c. cbn. rewrite He. by intros ?%not_elem_of_empty.
    + cbn. intros k st. by rewrite Hu, lookup_empty.
  - cbn beta. intros pending σ1 Hb. by apply create_rounds_between.
Qed.
End creates.

(** ** The whole body *)

Lemma bind_run {A B} (m : M A) (f : A -> M B) σ σ' b :
  (m ≫= f) σ = (σ', Ok b) -> exists σ1 a, m σ = (σ1, Ok a) /\ f a σ1 = (σ', Ok b).
Proof. unfold mbind, M_bind. destruct (m σ) as [σ1 [a|e]]; [eauto|done]. Qed.

Lemma wp_run {A} (m : M A) σ σ' a (Q : A -> SetState -> Prop) : m σ = (σ', Ok a) -> wp m σ Q -> Q a σ'.
Proof. unfold wp. by intros ->. Qed.

Hypothesis Hcre : sh_Create (ex_Set ext) = None.

(** The phases of the body. *)
Lemma set_body_phases (a : setArgs) (prepared : gmap Id P) (prepErrs : gmap Id SetError) (u : Update) (ids0 : gmap Id Id) (σ : SetState) :
  set_body sd ext s acct extra entropy a prepared prepErrs (mkSetState u ids0 emptyResponse ∅) = (σ, Ok tt) ->
  exists state σ2 σ3, TypeState db s acct name = Ok state /\
    processCreates sd ext s acct extra entropy (sa_Create a) (mkSetState u ids0 (oldState state emptyResponse) ∅) = (σ2, Ok tt) /\
    processUpdates sd ext s acct extra (sa_Update a) σ2 = (σ3, Ok tt) /\ processDestroys sd ext s acct extra (sa_Destroy a) σ3 = (σ, Ok tt).
Proof.
  unfold set_body. intros (σ0 & state & H0 & H)%bind_run. unfold lift in H0. injection H0 as <- Hst.
  apply bind_run in H as (σ1 & [] & H1 & H). unfold respond in H1. injection H1 as <-. cbn [ss_u ss_ids ss_resp ss_dead] in H.
  destruct (match sa_IfInState a with Some _ => _ | None => _ end); [done|]. rewrite Hcre in H.
  apply bind_run in H as (σ2 & [] & H2 & (σ3 & [] & H3 & H4)%bind_run). by exists state, σ2, σ3.
Qed.

(** What the body does to the records, before the commit. *)
Lemma set_body_records (a : setArgs) (prepared : gmap Id P) (prepErrs : gmap Id SetError) (seq : Z) (ids0 : gmap Id Id) (σ : SetState) :
  (forall c r, ids0 !! c = Some r -> Valid r = true) ->
  set_body sd ext s acct extra entropy a prepared prepErrs (mkSetState (newUpdate seq) ids0 emptyResponse ∅) = (σ, Ok tt) -> fresh σ ->
  exists R1, let ids := ss_ids σ in let r := ss_resp σ in
    let ups := sortedIds (sa_Update a) in
    let R2 := fold_left (uspec ids (sa_Update a)) ups R1 in
    good (ss_u σ) /\ TypeState db s acct name = Ok (sr_OldState r) /\
    (forall c, c ∈ dom (sr_Created r) -> exists id raw o, ids !! c = Some id /\ sa_Create a !! c = Some raw /\
      created_object t s acct (fun x y => ids0 !! x = Some y \/ x ∈ dom (sr_Created r) /\ ids !! x = Some y) raw o /\ R1 id = Some (<[bs "id" := marshal_id id]> o)) /\
    (forall id, (forall c, c ∈ dom (sr_Created r) -> ids !! c <> Some id) -> R1 id = recs id) /\
    (forall id, uview (ss_u σ) id = fold_left (spec_destroy ids) (sa_Destroy a) R2 id) /\
    (forall id, id ∈ dom (sr_Updated r) <-> exists uid, (uid, Some id) ∈ answers (uspec ids (sa_Update a)) (uid_answer ids (sa_Update a)) R1 ups) /\
    (forall uid, uid ∈ dom (sr_NotUpdated r) <-> (uid, None) ∈ answers (uspec ids (sa_Update a)) (uid_answer ids (sa_Update a)) R1 ups) /\
    sr_Destroyed r = omap snd (answers (spec_destroy ids) (doomed ids) R2 (sa_Destroy a)) /\
    (forall did, did ∈ dom (sr_NotDestroyed r) <-> (did, None) ∈ answers (spec_destroy ids) (doomed ids) R2 (sa_Destroy a)).
Proof.
  intros Hids0 Hb Hf. apply set_body_phases in Hb as (state & σ2 & σ3 & Hstate & Hb2 & Hb3 & Hb4).
  pose proof (wp_run _ _ _ _ _ Hb2 (processCreates_done sd ext s acct extra entropy _ _)) as (A & B & _ & _ & _ & _ & _ & Hoth).
  pose proof (wp_run _ _ _ _ _ Hb3 (processUpdates_done sd ext s acct extra entropy _ _)) as (A' & B' & _ & _ & _ & _ & _ & Hi3 & Hn3).
  pose proof (wp_run _ _ _ _ _ Hb4 (processDestroys_done sd ext s acct extra entropy _ _)) as (ans & _ & _ & _ & Hi4 & Hn4).
  unfold no_updates, no_destroys, other_answers in *. injection Hn3 as N1 N2 N3 N4 N5. injection Hn4 as D1 D2 D3 D4 D5. injection Hoth as O1 O2 O3 O4 O5.
  assert (fresh σ2) as Hf2. { unfold fresh in *. rewrite Hi4, Hi3, D2, N2 in Hf. exact Hf. }
  assert (good (newUpdate seq)) as Hg0.
  { constructor; [constructor|cbn; intros k st; by rewrite lookup_empty| |cbn; intros k st o o'; by rewrite lookup_empty].
    intros id o. rewrite (view_new db s acct name seq id). apply committed_kept. }
  pose proof (wp_run _ _ _ _ _ Hb2 (processCreates_cinv ids0 (sa_Create a) Hids0 _ (oldState state emptyResponse) Hg0 eq_refl dom_empty_L) Hf2) as [C1 C2 C3 C4].
  pose proof (wp_run _ _ _ _ _ Hb3 (updates_spec (ss_ids σ2) (uview (ss_u σ2)) _ _ _ (conj C1 (conj (fun _ => eq_refl) eq_refl)))) as (U1 & _ & U3 & U4).
  pose proof (wp_run _ _ _ _ _ Hb4 (destroys_spec (ss_ids σ2) _ _ _ U1)) as ((G & V & _) & _ & S3 & S4).
  exists (uview (ss_u σ2)). cbv zeta. rewrite Hi4, Hi3, D1, D2, D3, D5, N1, N2, O1. split_and!; [done|done| | |done| | | |].
  - intros c Hc. destruct (C3 c Hc) as (id & raw & o & E1 & E2 & E3 & E4). by exists id, raw, o.
  - intros id Hno. unfold view. destruct (u_staged (ss_u σ2) !! stagedKey name id) as [st|] eqn:Es; [|done].
    destruct (C4 _ _ Es) as (c & id' & Hc & Hid & [= <-]). by apply Hno in Hc.
  - intros id. rewrite U3, O2. cbn. rewrite dom_empty_L, elem_of_empty. tauto.
  - intros uid. rewrite U4, O4. cbn. rewrite dom_empty_L, elem_of_empty. tauto.
  - rewrite S3, N3, O3. done.
  - intros did. rewrite S4, N5, O5. cbn. rewrite dom_empty_L, elem_of_empty. tauto.
Qed.

(** The commit stores what the Update stands for. *)
Lemma good_commit u fence now cur fn c :
  good u -> is_fence fence -> Sequence s acct = Ok cur -> is_int64 (cur + 1) -> fn (newUpdate (int64 (cur + 1))) = Ok u -> update db s acct fence now fn = Ok c ->
  account_reach db acct (c_store c) /\
  (forall id, obj_at db (be_map (c_store c)) acct name id = uview u id) /\
  (forall n ty id, n <> name -> db_types db !! n = Some ty -> obj_at db (be_map (c_store c)) acct n id = obj_at db (be_map s) acct n id) /\
  (forall old, TypeState db s acct name = Ok old -> TypeState db (c_store c) acct name = Ok (default old (c_states c !! name))).
Proof.
  intros Hg Hf Hseq Hcur Hfn Hc. destruct store_inv as [Hs Hinv]. pose proof (good_wf u Hg) as Hu. pose proof (good_staging u Hg) as Hok.
  destruct (update_committed db s acct Hdb Hacct Hs Hinv u fence now cur fn c) as [_ Hcm]; [apply Hg|done..|].
  destruct (committed_index_inv db s acct Hdb Hinv u _ Hu Hok Hcm) as [_ Hob]. split_and!.
  - by eapply (ar_commit db acct s fence now cur fn u c Hreach Hf Hseq Hfn (gd_reach u Hg) Hok).
  - intros id. unfold view. destruct (u_staged u !! stagedKey name id) as [st|] eqn:Es; [|by apply (Hob name t)].
    destruct (committed_staged db s acct Hdb u _ _ _ Hu Hok Hcm Es) as [H _]. pose proof (gd_only u Hg _ _ Es) as En.
    destruct (uw_staged _ _ _ _ Hu _ _ Es) as [[= _ ->] _]. by rewrite En in H.
  - intros n ty id Hne Hty. apply (Hob n ty id Hty). destruct (u_staged u !! stagedKey n id) as [st|] eqn:Es; [|done].
    pose proof (gd_only u Hg _ _ Es) as En. destruct (uw_staged _ _ _ _ Hu _ _ Es) as [[= -> _] _]. done.
  - intros old Hold. destruct (idle u) eqn:Ei.
    + unfold update in Hc. rewrite Hseq in Hc. cbn [mbind result_bind] in Hc. rewrite Hfn in Hc. cbn [mbind result_bind] in Hc. rewrite Ei in Hc.
      injection Hc as <-. cbn [c_store c_states]. by rewrite lookup_empty.
    + assert (fn (newUpdate (cur + 1)) = Ok u) as Hfn' by (by rewrite <- (int64_small (cur + 1) Hcur) at 1).
      destruct (commit_readers db s acct fence now cur fn u c) as (_ & H2 & H3 & _); [done..|].
      rewrite (H2 name t Ht), H3. by destruct (decide (touched u name)).
Qed.
End steps.

(** C2: what a Foo/set does to the records of a type without hooks.  Start from
    any store the account can reach, with the created ids new and distinct (they
    carry 64 bits or more of crypto/rand).  If the method answers, then there
    are records [R1] in which each accepted create is stored under its new id
    as the client sent it, with the declared defaults filled in, its
    references resolved to records of the request and its values and blob
    references checked, and everything else is as before; applying the
    accepted patches to [R1] in the order of the update map's sorted keys,
    each to the record as the earlier ones left it, and then the destroys in the request's order
    gives exactly the records of the committed store.  The response lists
    exactly the accepted and the rejected operations; no record of another
    type changes; the new state is the type's state after the commit; and
    the new store is again one the account can reach, so the indexes mirror
    its records and they are typed. *)
Theorem set_records `{MR : MapRange, TP : TimeParse, CF : CaseFold, LC : LogCodec, UC : UploadCodec, JT : JsonText, JL : !JsonTextLaws}
  {S : Type} `{BE : Backend S, BL : !BackendLaws S} {P : Type} (sd : stdType S) (ext : Extensions P) (maxSet : Z) (s : S) (ident : Identity)
  (fence : Batch -> Batch) (now cur : Z) (entropy : Id -> Z * bytes) (ids0 : gmap Id Id) (a : setArgs) (extra : gmap bytes bytes)
  (d : SetDone) (ids : gmap Id Id)
  (Hdb : db_wf (sd_db sd)) (Hacct : Valid (sa_AccountId a) = true) (Hreach : account_reach (sd_db sd) (sa_AccountId a) s)
  (Ht : db_types (sd_db sd) !! t_Name (sd_t sd) = Some (sd_t sd))
  (Hdef : forall n p v, t_Properties (sd_t sd) !! n = Some p -> p_Default p = Some v -> trim v = v)
  (Hval : sh_Validate (ex_Set ext) = None) (Hdes : sh_Destroy (ex_Set ext) = None) (Hcre : sh_Create (ex_Set ext) = None)
  (Hf : is_fence fence) (Hseq : Sequence s (sa_AccountId a) = Ok cur) (Hcur : is_int64 (cur + 1))
  (Hids0 : forall c r, ids0 !! c = Some r -> Valid r = true)
  (Hset : set sd ext maxSet s ident fence now entropy ids0 a extra = (Reply d, ids))
  (Hfresh : fresh_ids sd s (sa_AccountId a) (dom (sr_Created (sd_resp d))) ids) :
  let acct := sa_AccountId a in let t := sd_t sd in let db := sd_db sd in
  let r := sd_resp d in let s' := c_store (sd_commit d) in
  let updates := spec_update t s acct ids (sa_Update a) in
  let uids := sortedIds (sa_Update a) in
  exists R1 : Records, let R2 := fold_left updates uids R1 in
    (forall c, c ∈ dom (sr_Created r) -> exists id raw o, ids !! c = Some id /\ sa_Create a !! c = Some raw /\
      created_object t s acct (fun x y => ids0 !! x = Some y \/ x ∈ dom (sr_Created r) /\ ids !! x = Some y) raw o /\
      R1 id = Some (<[bs "id" := marshal_id id]> o)) /\
    (forall id, (forall c, c ∈ dom (sr_Created r) -> ids !! c <> Some id) -> R1 id = obj_at db (be_map s) acct (t_Name t) id) /\
    (forall id, obj_at db (be_map s') acct (t_Name t) id = fold_left (spec_destroy ids) (sa_Destroy a) R2 id) /\
    (forall n ty id, n <> t_Name t -> db_types db !! n = Some ty -> obj_at db (be_map s') acct n id = obj_at db (be_map s) acct n id) /\
    (forall id, id ∈ dom (sr_Updated r) <-> exists uid, (uid, Some id) ∈ answers updates (uid_answer sd s acct ids (sa_Update a)) R1 uids) /\
    (forall uid, uid ∈ dom (sr_NotUpdated r) <-> (uid, None) ∈ answers updates (uid_answer sd s acct ids (sa_Update a)) R1 uids) /\
    sr_Destroyed r = omap snd (answers (spec_destroy ids) (doomed ids) R2 (sa_Destroy a)) /\
    (forall did, did ∈ dom (sr_NotDestroyed r) <-> (did, None) ∈ answers (spec_destroy ids) (doomed ids) R2 (sa_Destroy a)) /\
    TypeState db s' acct (t_Name t) = Ok (sr_NewState r) /\ account_reach db acct s'.
Proof.
  apply set_reply in Hset as (_ & _ & prepared & prepErrs & cur' & σ & fn & _ & Hseq' & Hb & Hfn & Hc & -> & _ & Hr).
  rewrite Hseq in Hseq'. injection Hseq' as <-. rewrite Hr in *. cbn [newState sr_Created] in Hfresh.
  destruct (set_body_records sd ext s (sa_AccountId a) extra entropy Hdb Hacct Hreach Ht Hdef Hval Hdes Hcre a prepared prepErrs _ ids0 σ Hids0 Hb Hfresh)
    as (R1 & Hg & Hst & H1 & H2 & H3 & H4 & H5 & H6 & H7).
  destruct (good_commit sd s (sa_AccountId a) Hdb Hacct Hreach Ht (ss_u σ) fence now cur fn (sd_commit d) Hg Hf Hseq Hcur Hfn Hc) as (Ha & Hv & Ho & Hn).
  cbv zeta. exists R1. cbn [newState sr_Created sr_Updated sr_NotUpdated sr_Destroyed sr_NotDestroyed sr_NewState].
  split_and!; [exact H1|exact H2| |exact Ho|exact H4|exact H5|exact H6|exact H7|by apply Hn|exact Ha]. intros id. by rewrite Hv, H3.
Qed.

(** ** The example *)

Section demo.
#[local] Existing Instances map_order Instances.demo_codec Instances.demo_time Instances.demo_fold BlobFacts.demo_uploads Memory.memory_backend Memory.memory_laws demo_text.
Import Instances.

Lemma dom_keys {A} (m : gmap Id A) l : (map_to_list m).*1 = l -> forall c, c ∈ dom m -> c ∈ l.
Proof. intros <- c [o Ho]%elem_of_dom. apply list_elem_of_fmap. exists (c, o). split; [done|]. by apply elem_of_map_to_list. Qed.

Lemma some_eq {A} (o : option A) x y : o = Some x -> o = Some y -> x = y.
Proof. congruence. Qed.

Lemma demo_created : (map_to_list (sr_Created (sd_resp demo_done))).*1 = [bs "n1"].
Proof. vm_compute. reflexivity. Qed.

Definition demo_new_id : Id := default [] (demo_ids !! bs "n1").

Lemma demo_new_absent : Memory.data EvalFacts.demo_store !! objKey demo_acct (bs "Note") demo_new_id = None.
Proof. vm_compute. reflexivity. Qed.

Lemma demo_ids_n1 : demo_ids !! bs "n1" = Some demo_new_id.
Proof. vm_compute. reflexivity. Qed.

Lemma demo_ids_fresh : fresh_ids EvalFacts.demo_std EvalFacts.demo_store demo_acct (dom (sr_Created (sd_resp demo_done))) demo_ids.
Proof.
  assert (forall c, c ∈ dom (sr_Created (sd_resp demo_done)) -> c = bs "n1") as Hc.
  { intros c Hc. apply list_elem_of_singleton. exact (dom_keys _ _ demo_created c Hc). }
  assert (forall id, demo_ids !! bs "n1" = Some id -> id = demo_new_id) as Hid by (intros id E; exact (some_eq _ _ _ E demo_ids_n1)).
  generalize dependent (dom (sr_Created (sd_resp demo_done))). intros C Hc. pose proof demo_new_absent as Hno.
  generalize dependent demo_ids. intros ids Hid.
  split.
  - intros c id ->%Hc ->%Hid. exact Hno.
  - intros c c' id ->%Hc ->%Hc _ _. done.
Qed.

Lemma demo_no_defaults n p v : t_Properties demo_type !! n = Some p -> p_Default p = Some v -> Jsonobject.trim v = v.
Proof.
  intros Hp%elem_of_list_to_map_2. cbn [t_Properties demo_type] in Hp.
  repeat (apply elem_of_cons in Hp as [[= _ ->]|Hp]; [done|]). by apply not_elem_of_nil in Hp.
Qed.

Lemma demo_sequence : Sequence EvalFacts.demo_store demo_acct = Ok 1.
Proof. vm_compute. reflexivity. Qed.
End demo.

Lemma set_records_witness :
  @TypeState Memory.Store Memory.memory_backend Instances.demo_db (c_store (sd_commit demo_done)) Instances.demo_acct (bs "Note") = Ok (sr_NewState (sd_resp demo_done)) /\
  @account_reach map_order Instances.demo_time Instances.demo_fold Instances.demo_codec Memory.Store Memory.memory_backend Memory.memory_laws
    Instances.demo_db Instances.demo_acct (c_store (sd_commit demo_done)).
Proof.
  destruct (@set_records map_order Instances.demo_time Instances.demo_fold Instances.demo_codec BlobFacts.demo_uploads demo_text demo_text_laws
    Memory.Store Memory.memory_backend Memory.memory_laws unit EvalFacts.demo_std demo_ext 10 EvalFacts.demo_store demo_ident Instances.no_fence 1800 1 demo_entropy ∅
    demo_set_args ∅ demo_done demo_ids) as (R1 & _ & _ & _ & _ & _ & _ & _ & _ & H1 & H2).
  - apply Instances.demo_db_wf.
  - vm_compute. reflexivity.
  - apply demo_account_reach.
  - vm_compute. reflexivity.
  - exact demo_no_defaults.
  - reflexivity.
  - reflexivity.
  - reflexivity.
  - apply no_fence_fence.
  - exact demo_sequence.
  - unfold is_int64. lia.
  - intros c r. by rewrite lookup_empty.
  - exact demo_set_eq.
  - exact demo_ids_fresh.
  - split; [exact H1|exact H2].
Defined.
End SetRecords.
