(* ===== verification/GetFacts.v ===== *)
(** * GetFacts: Foo/get answers exactly what was asked

    The response of Foo/get for a type without computed properties, as a
    function of the stored records. *)

From S2P Require Import Prelude GoLib Keyenc Backend Memory Jsonscan Jsonobject Jmap Descriptor Keys ObjectDB Commit CommitFacts Instances CommitIndex.
From S2P Require Import Reach CommitLog Typed Queries Changes Blobs Sorting Filter Query EvalFacts Patch Standard.

Module GetFacts.
Import Backend Jsonscan Jsonobject Jmap Descriptor Keys ObjectDB Commit CommitFacts Reach Queries Changes Filter Query EvalFacts Standard.

(** ** The specification *)

(** A name a client may ask for: the id, or a declared property that is not
    internal. *)
Definition askable (t : Type_) (name : bytes) : bool :=
  bool_decide (name = bs "id") || match t_Properties t !! name with Some p => negb (p_Internal p) | None => false end.

(** What a record shows under a list of names, or without one. *)
Definition shown (t : Type_) (names : option (list bytes)) (name : bytes) : bool :=
  bool_decide (name = bs "id") || askable t name && match names with Some l => bool_decide (name ∈ l) | None => true end.

Definition show (t : Type_) (names : option (list bytes)) (o : Object) : Object :=
  filter (fun nv : bytes * bytes => shown t names nv.1 = true) o.

Section get.
Context `{MR : MapRange, TP : TimeParse, CF : CaseFold, LC : LogCodec}.
Context {S : Type} `{BE : Backend S, BL : !BackendLaws S}.
Context {P : Type}.

(** ** The projection *)

Lemma requested_spec (t : Type_) (names : list bytes) (props : gmap bytes bool) (comp : list bytes) :
  requested t None names props comp =
  if forallb (askable t) names then Some (fold_left (fun ps name => <[name := true]> ps) names props, comp) else None.
Proof.
  revert props. induction names as [|name names IH]; intros props; cbn [requested forallb fold_left]; [done|].
  unfold askable at 1. rewrite orb_comm. destruct (_ || _); [|done]. cbn [andb]. apply IH.
Qed.

Lemma wanted_fold (names : list bytes) (props : gmap bytes bool) (name : bytes) :
  is_wanted (fold_left (fun ps n => <[n := true]> ps) names props) name = bool_decide (name ∈ names) || is_wanted props name.
Proof.
  revert props. induction names as [|n names IH]; intros props; cbn [fold_left].
  - by rewrite bool_decide_false by apply not_elem_of_nil.
  - rewrite IH. unfold is_wanted. destruct (decide (name = n)) as [-> |Hne].
    + rewrite lookup_insert_eq. rewrite (bool_decide_true (n ∈ n :: names)) by by left. by rewrite orb_true_r.
    + rewrite lookup_insert_ne by done. f_equal. apply bool_decide_ext. rewrite elem_of_cons. naive_solver.
Qed.

Lemma wanted_id (name : bytes) : is_wanted {[ bs "id" := true ]} name = bool_decide (name = bs "id").
Proof.
  unfold is_wanted. case_bool_decide as E; [subst; by rewrite lookup_singleton_eq|]. by rewrite lookup_singleton_ne by done.
Qed.

Lemma visible_props_wanted (t : Type_) (name : bytes) : is_wanted (visible_props t) name = shown t None name.
Proof.
  unfold visible_props, shown, askable. rewrite <- wanted_id.
  assert (forall l (props : gmap bytes bool), NoDup l.*1 ->
    is_wanted (fold_left (fun ps (np : bytes * Property) => if p_Internal np.2 then ps else <[np.1 := true]> ps) l props) name =
    is_wanted props name || existsb (fun np : bytes * Property => bool_decide (np.1 = name) && negb (p_Internal np.2)) l) as H.
  { induction l as [|[n p] l IH]; intros props Hnd; cbn [fold_left existsb fst snd]; [by rewrite orb_false_r|].
    cbn in Hnd. inversion Hnd as [|? ? Hni Hnd']; subst. rewrite IH by done. destruct (p_Internal p); cbn [negb].
    - by rewrite andb_false_r.
    - rewrite andb_true_r. unfold is_wanted. case_bool_decide as E.
      + subst. rewrite lookup_insert_eq. by rewrite orb_true_r.
      + by rewrite lookup_insert_ne. }
  rewrite H by apply NoDup_range_map. rewrite !wanted_id. destruct (bool_decide (name = bs "id")); [done|]. cbn [orb]. rewrite andb_true_r.
  destruct (existsb _ _) eqn:E.
  - apply existsb_exists in E as ([n p] & Hin & [En Hp]%andb_prop). apply bool_decide_eq_true in En. cbn in En, Hp. subst n.
    apply list_elem_of_In, elem_of_range_map in Hin. by rewrite Hin.
  - destruct (t_Properties t !! name) as [p|] eqn:Ep; [|done]. symmetry. destruct (negb (p_Internal p)) eqn:Ei; [|done]. rewrite <- E. symmetry.
    apply existsb_exists. exists (name, p). split; [apply list_elem_of_In; by apply elem_of_range_map|]. cbn. by rewrite bool_decide_true, Ei.
Qed.

Lemma select_show (t : Type_) (names : option (list bytes)) (props : gmap bytes bool) (o : Object) :
  (forall name, is_wanted props name = shown t names name) -> select_wanted props o = show t names o.
Proof. intros H. unfold select_wanted, show. apply map_filter_ext. intros k v _. cbn. by rewrite H. Qed.

(** ** The ids *)

Lemma dedup_spec (ids : list Id) (seen : gset Id) :
  NoDup (dedup ids seen) /\ forall id, id ∈ dedup ids seen <-> id ∈ ids /\ id ∉ seen.
Proof.
  revert seen. induction ids as [|x ids IH]; intros seen; cbn [dedup].
  { split; [constructor|]. intros id. rewrite elem_of_nil. tauto. }
  case_bool_decide as Hx.
  - destruct (IH seen) as [H1 H2]. split; [done|]. intros id. rewrite H2, elem_of_cons. split; [tauto|]. intros [[-> |?] ?]; done.
  - destruct (IH ({[ x ]} ∪ seen)) as [H1 H2]. split.
    + constructor; [|done]. rewrite H2. set_solver.
    + intros id. rewrite !elem_of_cons, H2. destruct (decide (id = x)) as [-> |]; set_solver.
Qed.

Lemma AllIds_limited (db : DB) (s : S) acct n t max :
  be_inv s -> db_types db !! n = Some t -> AllIds db s acct n max = (ids ← AllIds db s acct n 0; Ok (take_limit max ids)).
Proof.
  intros Hs Ht. unfold AllIds. rewrite Ht. destruct (prefixRange [acct; bs "o"; n]) as [st en]. rewrite !collect_scan by done. done.
Qed.

(** One id more than the limit shows that there are too many. *)
Lemma take_limit_over {A} (l : list A) maxGet :
  0 <= maxGet -> (maxGet <? Z.of_nat (length (take_limit (maxGet + 1) l))) = (maxGet <? Z.of_nat (length l)) /\
  ((maxGet <? Z.of_nat (length l)) = false -> take_limit (maxGet + 1) l = l).
Proof.
  intros H0. unfold take_limit. destruct (Z.leb_spec (maxGet + 1) 0) as [?|_]; [lia|]. rewrite length_take. split.
  - destruct (Z.ltb_spec maxGet (Z.of_nat (length l))), (Z.ltb_spec maxGet (Z.of_nat (Nat.min (Z.to_nat (maxGet + 1)) (length l)))); lia.
  - intros Hl%Z.ltb_ge. apply take_ge. lia.
Qed.

(** ** The list *)

Lemma omap_same {A B} (f g : A -> option B) (l : list A) : (forall x, f x = g x) -> omap f l = omap g l.
Proof. intros Hfg. induction l as [|x l IH]; [done|]. cbn. by rewrite Hfg, IH. Qed.

Definition absent (R : Id -> option Object) (id : Id) : bool := match R id with None => true | Some _ => false end.

Lemma get_list_plain (ext : Extensions P) (acct : Id) (props : gmap bytes bool) (extra : gmap bytes bytes) (explicit : bool) (R : Id -> option Object) (ids : list Id) :
  get_list ext acct props [] extra explicit (zip ids (map R ids)) = Ok (omap R ids, if explicit then List.filter (absent R) ids else []).
Proof.
  induction ids as [|id ids IH]; cbn [map zip zip_with get_list omap list_omap List.filter]; [by destruct explicit|].
  unfold absent at 1. destruct (R id) as [o|]; cbn [get_object mbind result_bind]; rewrite IH; cbn; by destruct explicit.
Qed.
End get.

(** C8: Foo/get answers exactly what was asked.  For a type without computed
    properties, over stores the account can reach - the listing, the load and
    the state may each read a different one - the answer is determined: an
    overlong properties list, or one naming anything but the id and declared
    properties that are not internal, is invalidArguments; more ids than maxObjectsInGet,
    or a null ids with more records than that, is requestTooLarge; otherwise
    the list holds, for each id once, the stored record cut down to the id
    and the requested names (all but internal ones when none are given), and notFound
    the ids without a record when the client named them.  Each id of the
    request is answered once, and a null ids means every record. *)
Theorem get_exact `{MR : MapRange, TP : TimeParse, CF : CaseFold, LC : LogCodec} {S : Type} `{BE : Backend S, BL : !BackendLaws S} {P : Type}
  (sd : stdType S) (ext : Extensions P) (s_ids s_load s_state : S) (ident : Identity) (a : getArgs) (extra : gmap bytes bytes) (state : bytes)
  (Hdb : db_wf (sd_db sd)) (Hacct : Valid (g_AccountId a) = true)
  (Hids : account_reach (sd_db sd) (g_AccountId a) s_ids) (Hload : account_reach (sd_db sd) (g_AccountId a) s_load)
  (Ht : db_types (sd_db sd) !! t_Name (sd_t sd) = Some (sd_t sd)) (Hc : ex_Computed ext = None) (Hmax : 0 <= sd_MaxObjectsInGet sd)
  (Hacc : checkAccount ident (g_AccountId a) false = Reply tt)
  (Hstate : TypeState (sd_db sd) s_state (g_AccountId a) (t_Name (sd_t sd)) = Ok state) :
  let db := sd_db sd in let t := sd_t sd in let acct := g_AccountId a in let maxGet := sd_MaxObjectsInGet sd in
  let names := match g_Properties a with Some l => Some l | None => ex_DefaultGetProperties ext end in
  let record := obj_at db (be_map s_load) acct (t_Name t) in
  exists ids, NoDup ids /\
    (forall id, id ∈ ids <-> match g_Ids a with Some l => id ∈ l | None => is_Some (obj_at db (be_map s_ids) acct (t_Name t) id) end) /\
    get sd ext s_ids s_load s_state ident a extra =
      if match g_Properties a with Some l => MaxRequestedProperties <? Z.of_nat (length l) | None => false end then Fail ErrInvalidArguments
      else if negb (match names with Some l => forallb (askable t) l | None => true end) then Fail ErrInvalidArguments
      else if maxGet <? Z.of_nat (length (match g_Ids a with Some l => l | None => ids end)) then Fail ErrRequestTooLarge
      else Reply (mkGetResponse state (omap (fun id => show t names <$> record id) ids)
                    (match g_Ids a with Some _ => List.filter (absent record) ids | None => [] end)).
Proof.
  cbv zeta. set (names := match g_Properties a with Some l => Some l | None => ex_DefaultGetProperties ext end).
  destruct (account_reach_inv _ _ Hdb Hacct _ Hids) as (Hsi & _ & _).
  destruct (AllIds_stored (sd_db sd) (g_AccountId a) s_ids _ _ Hdb Hacct Hids Ht) as (all & Hall & Hnd & Hin).
  exists (match g_Ids a with Some l => dedup l ∅ | None => all end). split; [by destruct (g_Ids a) as [l|]; [apply dedup_spec|]|]. split.
  { intros id. destruct (g_Ids a) as [l|]; [|apply Hin]. rewrite (proj2 (dedup_spec l ∅)). set_solver. }
  unfold get. rewrite Hacc. cbn [mbind outcome_bind]. 
  destruct (match g_Properties a with Some l => MaxRequestedProperties <? Z.of_nat (length l) | None => false end); [done|]. fold names.
  match goal with |- outcome_bind _ _ _ ?m = _ => set (pc := m) | |- (?m ≫= _) = _ => set (pc := m) end.
  assert (if match names with Some l => forallb (askable (sd_t sd)) l | None => true end
    then exists props, pc = Reply (props, []) /\ forall name, is_wanted props name = shown (sd_t sd) names name else pc = Fail ErrInvalidArguments) as Hpc.
  { unfold pc. destruct names as [ns|]; [|exists (visible_props (sd_t sd)); split; [done|apply visible_props_wanted]].
    rewrite Hc, requested_spec. destruct (forallb (askable (sd_t sd)) ns) eqn:Ea; [|done]. eexists. split; [done|]. intros name.
    rewrite wanted_fold, wanted_id. unfold shown. rewrite orb_comm. f_equal. case_bool_decide as Hn; [|by rewrite andb_false_r].
    rewrite andb_true_r. symmetry. rewrite forallb_forall in Ea. apply Ea. by apply list_elem_of_In. }
  clearbody pc. destruct (match names with Some _ => _ | None => true end); cbn [negb]; [|by rewrite Hpc]. destruct Hpc as (props & -> & Hw). cbn [mbind outcome_bind].
  set (ids := match g_Ids a with Some l => dedup l ∅ | None => all end).
  replace (match g_Ids a with Some l => _ | None => _ end) with
    (if sd_MaxObjectsInGet sd <? Z.of_nat (length (match g_Ids a with Some l => l | None => all end)) then Fail ErrRequestTooLarge else Reply ids).
  2: { unfold ids. destruct (g_Ids a) as [l|]; [done|]. rewrite (AllIds_limited _ _ _ _ _ _ Hsi Ht), Hall. cbn [mbind result_bind served outcome_bind].
       destruct (take_limit_over all (sd_MaxObjectsInGet sd) Hmax) as [-> Hsame]. destruct (_ <? _); [done|]. by rewrite Hsame. }
  assert (forall id, loaded (sd_db sd) (g_AccountId a) s_load (t_Name (sd_t sd)) (Some props) id =
    show (sd_t sd) names <$> obj_at (sd_db sd) (be_map s_load) (g_AccountId a) (t_Name (sd_t sd)) id) as Hlo.
  { intros id. unfold loaded. destruct (obj_at _ _ _ _ id) as [o|]; [|done]. cbn. f_equal. by apply select_show. }
  destruct (g_Ids a) as [l|] eqn:Eids; subst ids; (destruct (_ <? _); [done|]); cbn [mbind outcome_bind];
    rewrite (GetManyProjected_loaded _ _ _ _ _ Hdb Hacct Hload Ht (Some props)); cbn [served mbind outcome_bind];
    rewrite get_list_plain; cbn [served mbind outcome_bind]; rewrite Hstate; cbn [served mbind outcome_bind fst snd].
  - rewrite bool_decide_true by (by eexists). do 2 f_equal.
    + apply omap_same, Hlo.
    + apply List.filter_ext. intros id. unfold absent. rewrite Hlo. by destruct (obj_at _ _ _ _ id).
  - rewrite bool_decide_false by (by intros [? [=]]). do 2 f_equal. apply omap_same, Hlo.
Qed.

(** The example asks for one record twice and for one that is not there. *)
Definition demo_get : getArgs := mkGetArgs Instances.demo_acct (Some [Instances.demo_id; bs "zz"; Instances.demo_id]) (Some [bs "title"]).
Definition demo_record : Id -> option Object := obj_at Instances.demo_db (Memory.data EvalFacts.demo_store) Instances.demo_acct (bs "Note").

Lemma get_exact_witness :
  exists ids, NoDup ids /\ (forall id, id ∈ ids <-> id ∈ [Instances.demo_id; bs "zz"; Instances.demo_id]) /\
    @get map_order Memory.Store Memory.memory_backend unit EvalFacts.demo_std (mkExtensions unit None None (noHooks unit) None)
      EvalFacts.demo_store EvalFacts.demo_store EvalFacts.demo_store (Some {[ Instances.demo_acct := true ]}) demo_get ∅ =
    Reply (mkGetResponse (bs "1") (omap (fun id => show Instances.demo_type (Some [bs "title"]) <$> demo_record id) ids) (List.filter (absent demo_record) ids)).
Proof.
  destruct (@get_exact map_order Instances.demo_time Instances.demo_fold Instances.demo_codec Memory.Store Memory.memory_backend Memory.memory_laws unit
    EvalFacts.demo_std (mkExtensions unit None None (noHooks unit) None) EvalFacts.demo_store EvalFacts.demo_store EvalFacts.demo_store
    (Some {[ Instances.demo_acct := true ]}) demo_get ∅ (bs "1")) as (ids & H1 & H2 & H3).
  - apply Instances.demo_db_wf.
  - vm_compute. reflexivity.
  - apply Typed.demo_account_reach.
  - apply Typed.demo_account_reach.
  - vm_compute. reflexivity.
  - reflexivity.
  - cbn. lia.
  - vm_compute. reflexivity.
  - vm_compute. reflexivity.
  - exists ids. split; [exact H1|]. split; [exact H2|]. exact H3.
Defined.
End GetFacts.
