(* ===== verification/CreateFacts.v ===== *)
(** * CreateFacts: a null create

    The create map's values are decoded one by one and a value that is not an
    object is answered in notCreated; null is the exception. *)

From S2P Require Import Prelude GoLib Keyenc Backend Memory Jsonscan Jmap Descriptor Keys ObjectDB Commit Instances Changes Blobs BlobFacts Sorting Filter Query Patch Standard SetFacts.

Module CreateFacts.
Import Backend Jsonscan Jmap Descriptor Keys ObjectDB Commit Changes Blobs Filter Query Patch Standard SetFacts.

Section null.
Context `{MR : MapRange, TP : TimeParse, CF : CaseFold, LC : LogCodec, UC : UploadCodec, JT : JsonText}.
Context {S : Type} `{BE : Backend S}.

(** A default cannot be written into a nil map. *)
Lemma add_defaults_nil (l : list (bytes * Property)) name p d : (name, p) ∈ l -> p_Default p = Some d -> add_defaults l None = Err Panic.
Proof.
  induction l as [|[n q] l IH]; intros Hin Hd; [by apply not_elem_of_nil in Hin|]. cbn [add_defaults].
  destruct (p_Default q) eqn:Eq; [done|]. apply elem_of_cons in Hin as [[= -> ->]|Hin]; [congruence|auto].
Qed.

Lemma decode_creates_null (sd : stdType S) (creates : gmap Id bytes) (cid : Id) (name : bytes) (p : Property) (d : bytes) (cids : list Id) (pending : gmap Id pendingCreate) (σ : SetState) :
  t_Properties (sd_t sd) !! name = Some p -> p_Default p = Some d -> creates !! cid = Some (bs "null") -> cid ∈ cids ->
  wp (decode_creates sd creates cids pending) σ (fun _ _ => False).
Proof.
  intros Hp Hd Hc. revert pending σ. induction cids as [|c cids IH]; intros pending σ Hin; [by apply not_elem_of_nil in Hin|].
  cbn [decode_creates]. destruct (decide (c = cid)) as [-> |Hne].
  - rewrite Hc. cbn [default]. replace (DecodeObject (id (bs "null")) ∅) with (Ok (A := option Object) None) by (vm_compute; reflexivity).
    change (create_bad sd (default ∅ None)) with (create_bad sd ∅). assert (create_bad sd ∅ = []) as ->.
    { unfold create_bad. rewrite bool_decide_false by (rewrite lookup_empty; by intros []). assert (range_map (∅ : Object) = []) as ->; [|done].
      destruct (range_map (∅ : Object)) as [|[n v] l] eqn:E; [done|]. assert ((n, v) ∈ range_map (∅ : Object)) as H by (rewrite E; by left).
      apply elem_of_range_map in H. by rewrite lookup_empty in H. }
    rewrite (add_defaults_nil _ name p d); [|by apply elem_of_range_map|done]. apply wp_bind, wp_lift. done.
  - apply elem_of_cons in Hin as [?|Hin]; [done|].
    assert (forall e, wp (_ ← respond (notCreated c e); decode_creates sd creates cids pending) σ (fun _ _ => False)) as Hrej.
    { intros e. apply wp_bind, wp_respond. by apply IH. }
    destruct (DecodeObject _ _); [|apply Hrej]. destruct (create_bad _ _); [|apply Hrej]. apply wp_bind, wp_lift. intros o _. by apply IH.
Qed.
End null.


(** ** The example *)

Section demo.
#[local] Existing Instances map_order Instances.demo_codec Instances.demo_time Instances.demo_fold BlobFacts.demo_uploads Memory.memory_backend Memory.memory_laws demo_text.
Import Instances.

Definition flag_prop : Property := mkProperty KindBool false false false [] false false false false (Some (bs "false")).
Definition flag_type : Type_ := mkType (bs "Flag") (bs "urn:demo") {[ bs "on" := flag_prop ]} false.
Definition flag_db : DB := ok_or (New SchemeSequence false) (RegisterType (New SchemeSequence false) flag_type).
Definition flag_std : stdType Memory.Store := mkStd flag_db flag_type None false 500 64 1000.
Definition flag_args (second : bytes) : setArgs := mkSetArgs demo_acct None {[ bs "a" := bs "{}"; bs "b" := second ]} ∅ [].
Definition flag_set (second : bytes) : outcome SetDone * gmap Id Id :=
  set flag_std demo_ext 10 empty_store demo_ident no_fence 1800 demo_entropy ∅ (flag_args second) ∅.
End demo.

End CreateFacts.
