(* ===== verification/PointerFacts.v ===== *)
(** * PointerFacts: a PatchObject does what its pointers say

    The overlap test by prefix keys is the pairwise test of RFC 8620 section
    5.3, and an accepted patch changes exactly what its pointers name. *)

From S2P Require Import Prelude GoLib Keyenc Backend Memory Jsonscan Jsongrammar Jmap Descriptor Keys ObjectDB Commit Instances Sorting Filter Patch PatchFacts SetFacts.

Module PointerFacts.
Import Backend Jsonscan Jsongrammar Jmap Descriptor Keys ObjectDB Filter Patch PatchFacts.

(** ** Keys of pointers *)

Lemma fmt_digits_digits fuel n acc :
  0 <= n -> Forall (fun c => is_digit c = true) acc -> Forall (fun c => is_digit c = true) (fmt_digits fuel n acc).
Proof.
  revert n acc. induction fuel as [|fuel IH]; intros n acc Hn Ha; cbn [fmt_digits]; [done|].
  assert (is_digit (zb (48 + n mod 10)) = true) as Hd.
  { pose proof (Z.mod_pos_bound n 10 ltac:(lia)). unfold is_digit. rewrite bz_zb_small by lia. lia. }
  destruct (n <? 10); [by constructor|]. apply IH; [apply Z.div_pos; lia|by constructor].
Qed.

Lemma FormatInt_digits n : 0 <= n -> Forall (fun c => is_digit c = true) (FormatInt n).
Proof. intros Hn. unfold FormatInt. destruct (Z.ltb_spec n 0); [lia|]. by apply fmt_digits_digits. Qed.

(** A colon ends a run of digits. *)
Lemma digits_colon a a' (x x' : bytes) :
  Forall (fun c => is_digit c = true) a -> Forall (fun c => is_digit c = true) a' -> a ++ ":"%byte :: x = a' ++ ":"%byte :: x' -> a = a' /\ x = x'.
Proof.
  intros Ha. revert a'. induction Ha as [|c a Hc Ha IH]; intros a' Ha' E; destruct Ha' as [|c' a' Hc' Ha']; cbn in E.
  - by injection E.
  - injection E as <- _. discriminate Hc'.
  - injection E as -> _. discriminate Hc.
  - injection E as -> E. apply IH in E as [-> ->]; done.
Qed.

Definition short (s : bytes) : Prop := Z.of_nat (length s) < 2 ^ 63.

Lemma pathKey_inj (a b : list bytes) : Forall short a -> Forall short b -> pathKey a = pathKey b -> a = b.
Proof.
  unfold short. intros Ha. revert b. induction Ha as [|x a Hx Ha IH]; intros b Hb E; destruct Hb as [|y b Hy Hb].
  - done.
  - cbn in E. destruct (FormatInt (Z.of_nat (length y))); discriminate E.
  - cbn in E. destruct (FormatInt (Z.of_nat (length x))); discriminate E.
  - unfold pathKey in E. cbn [map concat] in E. rewrite <- !app_assoc in E. cbn [app] in E.
    apply digits_colon in E as [El E]; [|apply FormatInt_digits; lia..].
    assert (Z.of_nat (length x) = Z.of_nat (length y)) as Hl.
    { assert (Some (Z.of_nat (length x)) = Some (Z.of_nat (length y))) as [= ?]; [|done].
      rewrite <- (ParseInt_FormatInt (Z.of_nat (length x))), <- (ParseInt_FormatInt (Z.of_nat (length y))), El; unfold is_int64; lia || done. }
    apply app_inj_1 in E as [-> E]; [|lia]. f_equal. by apply IH.
Qed.

(** ** Pointers *)

Lemma replace2_length a b r s : (length (replace2 a b r s) <= length s)%nat.
Proof.
  assert (forall n s, (length s <= n)%nat -> (length (replace2 a b r s) <= length s)%nat) as H; [|by apply (H (length s))].
  induction n as [|n IH]; intros [|x [|y s']] Hn; cbn [replace2 length] in *; try lia.
  destruct (_ && _); cbn [length].
  - specialize (IH s' ltac:(lia)). lia.
  - pose proof (IH (y :: s') ltac:(cbn; lia)) as H1. cbn [replace2 length] in H1. lia.
Qed.

Lemma split_slash_length s : Forall (fun seg => (length seg <= length s)%nat) (split_slash s).
Proof.
  induction s as [|c s IH]; cbn [split_slash]; [by constructor; [|constructor]|]. destruct (c =b _).
  - constructor; [cbn; lia|]. eapply Forall_impl; [exact IH|]. cbn. intros. lia.
  - destruct (split_slash s) as [|seg segs]; [constructor; [cbn; lia|constructor]|]. inversion IH as [|? ? H1 H2]; subst.
    constructor; [cbn; lia|]. eapply Forall_impl; [exact H2|]. cbn. intros. lia.
Qed.

Lemma split_slash_nonempty s : split_slash s <> [].
Proof. destruct s as [|c s]; cbn [split_slash]; [done|]. destruct (c =b _); [done|]. by destruct (split_slash s). Qed.

Lemma segments_short path : short path -> Forall short (segments path).
Proof.
  intros Hp. unfold segments. apply Forall_forall. intros seg (raw & -> & Hin)%list_elem_of_fmap. unfold short, unescape_seg in *.
  pose proof (split_slash_length path) as H. rewrite Forall_forall in H. specialize (H raw Hin).
  pose proof (replace2_length "~"%byte "0"%byte "~"%byte (replace2 "~"%byte "1"%byte "/"%byte raw)). pose proof (replace2_length "~"%byte "1"%byte "/"%byte raw). lia.
Qed.

Lemma segments_nonempty path : segments path <> [].
Proof. unfold segments. pose proof (split_slash_nonempty path). by destruct (split_slash path). Qed.

(** One pointer is a proper prefix of another. *)
Definition proper_prefix (a b : list bytes) : Prop := exists c, c <> [] /\ b = a ++ c.

Lemma overlaps_spec (paths : list bytes) (segs : list bytes) :
  Forall short paths -> Forall short segs ->
  overlaps (map (fun path => pathKey (segments path)) paths) segs = true <-> exists p, p ∈ paths /\ proper_prefix (segments p) segs.
Proof.
  intros Hps Hs. unfold overlaps. rewrite existsb_exists. rewrite Forall_forall in Hps. split.
  - intros (n & [Hn1 Hn2]%in_seq & (p & E & Hp)%bool_decide_eq_true%list_elem_of_fmap). exists p. split; [done|].
    apply pathKey_inj in E as E; [|by apply Forall_take|by apply segments_short, Hps]. exists (drop n segs). split.
    + intros Hd. apply (f_equal length) in Hd. rewrite length_drop in Hd. cbn in Hd. lia.
    + by rewrite <- E, take_drop.
  - intros (p & Hp & c & Hc & ->). exists (length (segments p)). split.
    + apply in_seq. rewrite length_app. pose proof (segments_nonempty p) as Hne. destruct c; [done|]. destruct (segments p); [done|]. cbn. lia.
    + apply bool_decide_eq_true. rewrite take_app_length. apply list_elem_of_fmap. by exists p.
Qed.

(** ** The edits *)

Section edits.
Context `{MR : MapRange, TP : TimeParse, JT : JsonText}.
Variable t : Type_.
Variable ids : gmap Id Id.
Variable patch : gmap bytes bytes.

Lemma patch_all_app (l1 l2 : list bytes) (o : Object) (inv : list bytes) :
  patch_all t ids patch (l1 ++ l2) o inv = (r ← patch_all t ids patch l1 o inv; patch_all t ids patch l2 r.1 r.2).
Proof.
  revert o inv. induction l1 as [|path l1 IH]; intros o inv; cbn [patch_all app]; [done|].
  destruct (segments path) as [|name [|key [|? ?]]]; try done.
  - destruct (patch_property _ _ _ _ _) as [o1 ok]. apply IH.
  - destruct (patch_member _ _ _ _ _); [apply IH|done].
Qed.

(** An edit touches one property. *)
Lemma patch_property_other (o : Object) name v n : n <> name -> (patch_property t ids o name v).1 !! n = o !! n.
Proof.
  intros Hne. unfold patch_property. case_bool_decide as E.
  { cbn [fst]. destruct (isNull v); [by rewrite lookup_delete_ne|by rewrite lookup_insert_ne]. }
  destruct (t_Properties t !! name) as [p|]; [|done]. destruct (p_Internal p); [done|]. destruct (isNull v).
  - cbn [fst]. destruct (p_Default p); [by rewrite lookup_insert_ne|by rewrite lookup_delete_ne].
  - destruct (if bool_decide _ then _ else _); [|done]. destruct (is_ok _); [|done]. cbn [fst]. by rewrite lookup_insert_ne.
Qed.

Lemma patch_member_other (o o' : Object) name key v n : patch_member t o name key v = Some o' -> n <> name -> o' !! n = o !! n.
Proof.
  intros H Hne. unfold patch_member in H. destruct (t_Properties t !! name); [|done]. destruct (_ || _); [done|].
  apply bind_Some in H as (m & _ & (e & _ & [= <-])%bind_Some). by rewrite lookup_insert_ne.
Qed.

Lemma patch_all_other (paths : list bytes) (o o' : Object) inv inv' n :
  patch_all t ids patch paths o inv = Some (o', inv') -> (forall path, path ∈ paths -> head (segments path) <> Some n) -> o' !! n = o !! n.
Proof.
  revert o inv. induction paths as [|path paths IH]; intros o inv; cbn [patch_all]; [by intros [= <- _]|].
  intros H Hn. assert (head (segments path) <> Some n) as Hp by (apply Hn; by left).
  assert (forall path, path ∈ paths -> head (segments path) <> Some n) as Hn' by (intros q Hq; apply Hn; by right).
  destruct (segments path) as [|name [|key [|? ?]]]; try done; cbn in Hp.
  - pose proof (patch_property_other o name (default [] (patch !! path)) n) as Ho. destruct (patch_property _ _ _ _ _) as [o1 ok].
    rewrite (IH _ _ H Hn'). apply Ho. congruence.
  - apply bind_Some in H as (o1 & H1 & H). rewrite (IH _ _ H Hn'). eapply patch_member_other; [exact H1|congruence].
Qed.

(** Rejected properties stay on the list. *)
Lemma patch_all_invalid (paths : list bytes) (o o' : Object) inv :
  patch_all t ids patch paths o inv = Some (o', []) -> inv = [].
Proof.
  revert o inv. induction paths as [|path paths IH]; intros o inv; cbn [patch_all]; [by intros [= _ ->]|].
  destruct (segments path) as [|name [|key [|? ?]]]; try done.
  - destruct (patch_property _ _ _ _ _) as [o1 []]; intros H%IH; [done|by apply app_eq_nil in H as [_ [=]]].
  - intros (o1 & _ & H)%bind_Some. by eapply IH.
Qed.

(** What an accepted edit of a whole property leaves there. *)
Lemma patch_property_ok (o o' : Object) name v :
  name <> bs "id" -> patch_property t ids o name v = (o', true) ->
  exists p, t_Properties t !! name = Some p /\ p_Internal p = false /\
    if isNull v then o' !! name = p_Default p
    else exists w, (if bool_decide (p_Kind p = KindId) then resolveIdValue v ids else Some v) = Some w /\ CheckValue p w = Ok tt /\ o' !! name = Some w.
Proof.
  intros Hne. unfold patch_property. rewrite bool_decide_false by done. destruct (t_Properties t !! name) as [p|]; [|done].
  destruct (p_Internal p) eqn:Ei; [done|]. intros H. exists p. split; [done|]. split; [done|]. destruct (isNull v).
  - injection H as <-. destruct (p_Default p); [apply lookup_insert_eq|apply lookup_delete_eq].
  - destruct (if bool_decide _ then _ else _) as [w|]; [|done]. destruct (CheckValue p w) as [[]|] eqn:Ec; [|done]. injection H as <-.
    exists w. split; [done|]. split; [done|]. apply lookup_insert_eq.
Qed.

(** The members of a composite property before an edit. *)
Definition members_of (o : Object) (name : bytes) : option (gmap bytes bytes) :=
  match o !! name with Some raw => if isNull raw then Some ∅ else json_object raw | None => Some ∅ end.

Lemma patch_member_ok (o o' : Object) name key v :
  patch_member t o name key v = Some o' ->
  exists p m text, t_Properties t !! name = Some p /\ p_Internal p = false /\ p_Kind p = KindObject /\ members_of o name = Some m /\
    marshal_members (if isNull v then delete key m else <[key := v]> m) = Some text /\ o' !! name = Some text.
Proof.
  unfold patch_member. destruct (t_Properties t !! name) as [p|]; [|done]. destruct (p_Internal p || _) eqn:E; [done|].
  apply orb_false_iff in E as [Ei E]. apply negb_false_iff, bool_decide_eq_true in E.
  intros (m & Hm & (text & Ht & [= <-])%bind_Some)%bind_Some. exists p, m, text. split_and!; [done..|apply lookup_insert_eq].
Qed.

Definition pointers : list bytes := sort_strings (map_to_list patch).*1.

Lemma elem_of_pointers path : path ∈ pointers <-> is_Some (patch !! path).
Proof.
  unfold pointers. rewrite elem_of_sort_strings, list_elem_of_fmap. split.
  - intros ([k v] & -> & H%elem_of_map_to_list). by exists v.
  - intros [v H]. exists (path, v). split; [done|]. by apply elem_of_map_to_list.
Qed.

(** [path] is the only pointer at or under [name]. *)
Definition sole (path name : bytes) : Prop := forall path', is_Some (patch !! path') -> head (segments path') = Some name -> path' = path.

(** Around a sole pointer the property is as the record had it. *)
Lemma patch_all_sole (cur new : Object) path name :
  patch_all t ids patch pointers cur [] = Some (new, []) -> is_Some (patch !! path) -> sole path name ->
  exists o o', o !! name = cur !! name /\ new !! name = o' !! name /\ patch_all t ids patch [path] o [] = Some (o', []).
Proof.
  intros H Hp Hs. pose proof (proj2 (elem_of_pointers path) Hp) as Hin. apply list_elem_of_split in Hin as (l1 & l2 & E).
  assert (NoDup pointers) as Hnd by (unfold pointers; rewrite sort_strings_perm; apply NoDup_fst_map_to_list).
  assert (forall q, q ∈ l1 \/ q ∈ l2 -> head (segments q) <> Some name) as Ho.
  { intros q Hq Hh. assert (q ∈ pointers) as Hqp by (rewrite E, elem_of_app, elem_of_cons; tauto). apply elem_of_pointers in Hqp.
    rewrite (Hs q Hqp Hh) in Hq. rewrite E in Hnd. apply NoDup_app in Hnd as (_ & Hd & Hnd). inversion Hnd as [|? ? Hni _]; subst.
    destruct Hq as [Hq|Hq]; [|done]. apply (Hd _ Hq). by left. }
  rewrite E, patch_all_app in H. apply bind_Some in H as ([o inv] & H1 & H2). cbn [fst snd] in H2.
  change (path :: l2) with ([path] ++ l2) in H2. rewrite patch_all_app in H2. apply bind_Some in H2 as ([o' inv'] & H2 & H3). cbn [fst snd] in H3.
  assert (inv' = []) as -> by (by eapply patch_all_invalid). assert (inv = []) as -> by (by eapply patch_all_invalid).
  exists o, o'. split_and!; [eapply patch_all_other; [exact H1|auto]|eapply patch_all_other; [exact H3|auto]|done].
Qed.
End edits.


(** ** The example *)

(** A member is set and a property is patched; an overlapping patch. *)
Definition demo_patch : gmap bytes bytes := {[ bs "labels/blue" := bs "true"; bs "title" := quoted (bs "b") ]}.
Definition demo_overlap : gmap bytes bytes := {[ bs "labels" := bs "{}"; bs "labels/blue" := bs "true" ]}.
Definition demo_apply (patch : gmap bytes bytes) : Object + SetError :=
  @applyPatch map_order Instances.demo_time SetFacts.demo_text Instances.demo_type Instances.demo_obj patch ∅.

End PointerFacts.
