(* ===== verification/Utf8.v ===== *)
(** * Utf8: more of [unicode/utf8], and UTF-8 as a language

    [utf8.RuneStart], [utf8.FullRune] and [utf8.DecodeLastRune], and the facts
    about [utf8_Valid] that checking a text piece by piece rests on: valid
    strings are exactly the sequences of encoded runes ([utf8]), an encoded
    rune starts where [RuneStart] says, and a string can be continued to a
    valid one exactly when it is a valid string followed by the beginning of
    one rune ([utf8_cut]). *)

From S2P Require Import Prelude.
From S2P Require Import GoLib.

Module Utf8.

Definition UTFMax : nat := 4.

(** [utf8.RuneStart]: not a continuation byte. *)
Definition RuneStart (b : byte) : bool := negb (Z.land (bz b) 0xC0 =? 0x80).

(** The width the table [first] gives for a leading byte; an invalid one
    counts as one byte. *)
Definition first_width (c : Z) : nat :=
  if (c <? 0xC2) || (0xF4 <? c) then 1
  else if c <? 0xE0 then 2
  else if c <? 0xF0 then 3
  else 4.

(** [utf8.FullRune]: [p] begins with a full encoding, a wrong one counting as
    full. *)
Definition FullRune (p : bytes) : bool :=
  match p with
  | [] => false
  | b0 :: r =>
      (first_width (bz b0) <=? length p)%nat
      || (let '(lo, hi) := accept2 (bz b0) in
          match r with
          | [] => false
          | b1 :: r1 =>
              negb (GoLib.inr lo hi b1)
              || match r1 with [] => false | b2 :: _ => negb (cont b2) end
          end)
  end.

(** [utf8.DecodeLastRune].  [back start lim] is the loop that looks for the
    rune's first byte. *)
Fixpoint back (fuel : nat) (p : bytes) (start lim : Z) : Z :=
  match fuel with
  | O => start
  | S fuel' =>
      if lim <=? start then
        match p !! Z.to_nat start with
        | Some b => if RuneStart b then start else back fuel' p (start - 1) lim
        | None => start
        end
      else start
  end.

Definition DecodeLastRune (p : bytes) : Z * nat :=
  match last p with
  | None => (RuneError, 0%nat)
  | Some b =>
      if bz b <? RuneSelf then (bz b, 1%nat)
      else
        let end_ := Z.of_nat (length p) in
        let lim := Z.max 0 (end_ - Z.of_nat UTFMax) in
        let start := Z.max 0 (back UTFMax p (end_ - 2) lim) in
        let '(r, size) := DecodeRune (drop (Z.to_nat start) p) in
        if start + Z.of_nat size =? end_ then (r, size) else (RuneError, 1%nat)
  end.

(** ** Encoded runes *)

Definition second (b0 b1 : byte) : bool :=
  let '(lo, hi) := accept2 (bz b0) in GoLib.inr lo hi b1.

(** [l] is the encoding of one rune. *)
Definition is_rune (l : bytes) : bool :=
  match l with
  | [b0] => bz b0 <? RuneSelf
  | [b0; b1] => GoLib.inr 0xC2 0xDF b0 && second b0 b1
  | [b0; b1; b2] => GoLib.inr 0xE0 0xEF b0 && second b0 b1 && cont b2
  | [b0; b1; b2; b3] => GoLib.inr 0xF0 0xF4 b0 && second b0 b1 && cont b2 && cont b3
  | _ => false
  end.

(** The sequences of encoded runes. *)
Inductive utf8 : bytes -> Prop :=
  | utf8_nil : utf8 []
  | utf8_rune l t : is_rune l = true -> utf8 t -> utf8 (l ++ t).

(** The beginning of a rune, without all of it. *)
Definition partial_rune (h : bytes) : Prop := exists x, x <> [] /\ is_rune (h ++ x) = true.

(** [p] can still be continued to a valid string. *)
Definition viable (p : bytes) : Prop := exists t, utf8 (p ++ t).

(** One of these completes every partial rune. *)
Definition completions : list bytes :=
  [[]; [x80]; [x80; x80]; [x80; x80; x80]; [xa0; x80]; [x90; x80; x80]].
Definition viableb (p : bytes) : bool := existsb (fun t => utf8_Valid (p ++ t)) completions.

Lemma RuneStart_cont b : RuneStart b = negb (cont b).
Proof. by destruct b. Qed.

Lemma second_cont b0 b1 : second b0 b1 = true -> cont b1 = true.
Proof.
  unfold second. destruct (accept2 (bz b0)) as [lo hi] eqn:Ea.
  assert (0x80 <= lo /\ hi <= 0xBF). { unfold accept2 in Ea. repeat case_match; simplify_eq; lia. }
  unfold GoLib.inr, cont. lia.
Qed.

Ltac rune_cases H :=
  match type of H with
  | is_rune ?l = true =>
      destruct l as [|? [|? [|? [|? [|? ?]]]]]; cbn [is_rune] in H; [discriminate H|..|discriminate H]
  end.

Ltac rune_tail H :=
  match type of H with
  | is_rune (_ :: ?l) = true =>
      destruct l as [|? [|? [|? [|? ?]]]]; cbn [is_rune] in H; [..|discriminate H]
  end.

Lemma is_rune_ne l : is_rune l = true -> l <> [].
Proof. by destruct l. Qed.

Lemma is_rune_width b l : is_rune (b :: l) = true -> length (b :: l) = first_width (bz b).
Proof.
  intros H. unfold first_width. rune_tail H; unfold GoLib.inr, RuneSelf in H; cbn [length];
    destruct (_ || _) eqn:?; try lia; destruct (_ <? 0xE0) eqn:?; try lia; destruct (_ <? 0xF0) eqn:?; lia.
Qed.

Lemma is_rune_start b l : is_rune (b :: l) = true -> RuneStart b = true.
Proof.
  intros H. rewrite RuneStart_cont. unfold cont.
  rune_tail H; unfold GoLib.inr, RuneSelf in H; lia.
Qed.

Lemma is_rune_conts b l : is_rune (b :: l) = true -> Forall (fun c => RuneStart c = false) l.
Proof.
  intros H. rune_tail H; repeat (apply andb_true_iff in H as [H ?]);
    repeat first [apply Forall_nil; exact I | apply Forall_cons; split];
    rewrite RuneStart_cont; apply negb_false_iff; eauto using second_cont.
Qed.

Lemma is_rune_second b b1 t : is_rune (b :: b1 :: t) = true -> second b b1 = true.
Proof. intros H. destruct t as [|? [|? [|? ?]]]; cbn [is_rune] in H; try discriminate H; repeat (apply andb_true_iff in H as [H ?]); done. Qed.
Lemma is_rune_third b b1 b2 t : is_rune (b :: b1 :: b2 :: t) = true -> cont b2 = true.
Proof. intros H. destruct t as [|? [|? ?]]; cbn [is_rune] in H; try discriminate H; repeat (apply andb_true_iff in H as [H ?]); done. Qed.

Lemma is_rune_prefix l1 t1 l2 t2 :
  is_rune l1 = true -> is_rune l2 = true -> l1 ++ t1 = l2 ++ t2 -> l1 = l2 /\ t1 = t2.
Proof.
  destruct l1 as [|b1 l1]; [done|]. destruct l2 as [|b2 l2]; [done|]. intros H1 H2 [= -> E].
  apply is_rune_width in H1, H2. cbn in H1, H2. apply app_inj_1 in E as [-> ->]; [done|lia].
Qed.

(** ** Valid strings are the sequences of encoded runes *)

Lemma DecodeRune_is_rune s r n :
  DecodeRune s = (r, n) -> s <> [] -> ~ (r = RuneError /\ n = 1%nat) ->
  is_rune (take n s) = true.
Proof.
  intros H Hne Hv. destruct s as [|c s]; [done|]. clear Hne. unfold DecodeRune in H.
  destruct (bz c <? RuneSelf) eqn:E; [injection H as <- <-; exact E|].
  destruct ((_ <? _) || _) eqn:R0; [naive_solver|].
  destruct s as [|b1 s1]; [naive_solver|]. destruct (accept2 (bz c)) as [lo hi] eqn:Ea.
  destruct (GoLib.inr lo hi b1) eqn:H1; [cbn [negb] in H|naive_solver].
  assert (S1 : second c b1 = true) by (unfold second; by rewrite Ea).
  unfold RuneSelf in E.
  destruct (bz c <? 0xE0) eqn:E2.
  { injection H as <- <-. cbn. rewrite ?take_0; cbn [is_rune]. rewrite S1. unfold GoLib.inr. lia. }
  destruct s1 as [|b2 s2]; [naive_solver|]. destruct (cont b2) eqn:H2; [cbn [negb] in H|naive_solver].
  destruct (bz c <? 0xF0) eqn:E3.
  { injection H as <- <-. cbn. rewrite ?take_0; cbn [is_rune]. rewrite S1, H2. unfold GoLib.inr. lia. }
  destruct s2 as [|b3 s3]; [naive_solver|]. destruct (cont b3) eqn:H3; [cbn [negb] in H|naive_solver].
  injection H as <- <-. cbn. rewrite ?take_0; cbn [is_rune]. rewrite S1, H2, H3. unfold GoLib.inr. lia.
Qed.

Lemma DecodeRune_rune l t :
  is_rune l = true -> exists r, DecodeRune (l ++ t) = (r, length l) /\ ~ (r = RuneError /\ length l = 1%nat).
Proof.
  intros H. unfold second, GoLib.inr in *.
  rune_cases H; cbn [app DecodeRune length]; unfold RuneSelf, RuneError in *;
    repeat (apply andb_true_iff in H as [H ?]).
  - rewrite H. eexists. split; [done|]. lia.
  - destruct (_ <? 0x80) eqn:?; [lia|]. destruct (_ || _) eqn:?; [lia|].
    unfold second in *. destruct (accept2 _). destruct (GoLib.inr _ _ _); [|done]. cbn [negb].
    destruct (_ <? 0xE0) eqn:?; [|lia]. eexists. split; [done|]. lia.
  - destruct (_ <? 0x80) eqn:?; [lia|]. destruct (_ || _) eqn:?; [lia|].
    unfold second in *. destruct (accept2 _). destruct (GoLib.inr _ _ _); [|done]. cbn [negb].
    destruct (_ <? 0xE0) eqn:?; [lia|]. destruct (cont _); [|done]. cbn [negb].
    destruct (_ <? 0xF0) eqn:?; [|lia]. eexists. split; [done|]. lia.
  - destruct (_ <? 0x80) eqn:?; [lia|]. destruct (_ || _) eqn:?; [lia|].
    unfold second in *. destruct (accept2 _). destruct (GoLib.inr _ _ _); [|done]. cbn [negb].
    destruct (_ <? 0xE0) eqn:?; [lia|]. destruct (cont _); [|done]. cbn [negb].
    destruct (_ <? 0xF0) eqn:?; [lia|]. destruct (cont _); [|done]. cbn [negb]. eexists. split; [done|]. lia.
Qed.

Lemma runes_utf8 fuel s :
  (length s <= fuel)%nat ->
  forallb (fun p => negb ((p.1 =? RuneError) && (length p.2 =? 1)%nat)) (runes fuel s) = true <-> utf8 s.
Proof.
  revert s. induction fuel as [|fuel IH]; intros s Hl.
  { destruct s; [|cbn in Hl; lia]. split; [constructor|done]. }
  destruct s as [|c s]; [split; [constructor|done]|].
  cbn [runes]. destruct (DecodeRune (c :: s)) as [r n] eqn:E. cbn [forallb fst snd].
  pose proof (DecodeRune_width _ _ _ _ E) as Hw.
  assert (Hn : (1 <= n <= length (c :: s))%nat) by (cbn in *; lia).
  rewrite length_take, Nat.min_l by lia. rewrite andb_true_iff, IH by (rewrite length_drop; lia).
  split.
  - intros [Hv Ht]. rewrite <- (take_drop n (c :: s)). constructor; [|done].
    eapply DecodeRune_is_rune; [done..|]. intros [-> ->]. done.
  - intros Hu. inversion Hu as [|l t Hr Ht Es].
    destruct (DecodeRune_rune l t Hr) as (r' & E' & Hv). rewrite Es, E in E'. injection E' as -> ->.
    rewrite drop_app_length. split; [|done].
    destruct (r' =? RuneError) eqn:Er; [|done]. destruct (length l =? 1)%nat eqn:El; [|done]. exfalso. apply Hv. split; [by apply Z.eqb_eq|by apply Nat.eqb_eq].
Qed.

Lemma Valid_utf8 s : utf8_Valid s = true <-> utf8 s.
Proof. apply runes_utf8. lia. Qed.

(** ** Cutting valid strings *)

Lemma utf8_app a b : utf8 a -> utf8 b -> utf8 (a ++ b).
Proof. intros Ha Hb. induction Ha; [done|]. rewrite <- app_assoc. by constructor. Qed.

Lemma utf8_one l : is_rune l = true -> utf8 l.
Proof. intros H. rewrite <- (app_nil_r l). constructor; [done|constructor]. Qed.

Lemma utf8_drop a b : utf8 a -> utf8 (a ++ b) -> utf8 b.
Proof.
  intros Ha. induction Ha as [|l t Hl Ht IH]; [done|]. rewrite <- app_assoc.
  intros H. apply IH. inversion H as [E|l' t' Hl' Ht' E].
  - symmetry in E. apply app_nil in E as [-> _]. done.
  - by apply is_rune_prefix in E as [-> ->].
Qed.

(** The rune at the end of a valid string. *)
Lemma utf8_last s : utf8 s -> s <> [] -> exists a l, s = a ++ l /\ utf8 a /\ is_rune l = true.
Proof.
  intros Hs. induction Hs as [|l t Hl Ht IH]; [done|]. intros _.
  destruct t as [|c t].
  - exists [], l. rewrite app_nil_r. split_and!; [done|constructor|done].
  - destruct IH as (a & l' & -> & Ha & Hl'); [done|]. exists (l ++ a), l'.
    rewrite app_assoc. split_and!; [done|by constructor|done].
Qed.

(** The beginning of a valid string is a valid string and the beginning of
    one rune. *)
Lemma utf8_cut_ind s : utf8 s -> forall q t, s = q ++ t ->
  exists a h, q = a ++ h /\ utf8 a /\ partial_rune h.
Proof.
  induction 1 as [|l u Hl Hu IH]; intros q t E.
  { symmetry in E. apply app_nil in E as [-> _]. exists [], []. split_and!; [done|constructor|].
    exists ["a"%byte]. done. }
  apply app_eq_app in E as (k & [[E1 E2]|[E1 E2]]); subst.
  - destruct k as [|c k].
    + rewrite app_nil_r in Hl. exists q, []. rewrite app_nil_r. split_and!; [done|by apply utf8_one|].
      exists ["a"%byte]. done.
    + exists [], q. split_and!; [done|constructor|]. by exists (c :: k).
  - destruct (IH k t eq_refl) as (a & h & -> & Ha & Hh). exists (l ++ a), h.
    rewrite app_assoc. split_and!; [done|by constructor|done].
Qed.

Lemma utf8_cut p : viable p <-> exists a h, p = a ++ h /\ utf8 a /\ partial_rune h.
Proof.
  split.
  - intros [t Ht]. by eapply utf8_cut_ind.
  - intros (a & h & -> & Ha & x & _ & Hx). exists x. rewrite <- app_assoc. apply utf8_app; [done|by apply utf8_one].
Qed.

Lemma viable_drop a q : utf8 a -> viable (a ++ q) <-> viable q.
Proof.
  intros Ha. split; intros [t Ht]; exists t.
  - rewrite <- app_assoc in Ht. exact (utf8_drop _ _ Ha Ht).
  - rewrite <- app_assoc. by apply utf8_app.
Qed.

(** [FullRune] tells a partial rune from a whole one. *)
Lemma is_rune_full l : is_rune l = true -> FullRune l = true.
Proof.
  intros H. destruct l as [|b l]; [done|]. cbn [FullRune]. apply is_rune_width in H. rewrite H, Nat.leb_refl. done.
Qed.

Lemma partial_not_full h : partial_rune h -> FullRune h = false.
Proof.
  intros (x & Hx & H). destruct h as [|b h]; [done|]. pose proof (is_rune_width _ _ H) as Hw.
  cbn [FullRune]. assert ((first_width (bz b) <=? length (b :: h))%nat = false) as ->.
  { rewrite <- Hw. cbn. rewrite length_app. destruct x; [done|]. cbn. apply Nat.leb_gt. lia. }
  cbn [orb].
  destruct h as [|b1 h]; [by destruct (accept2 _)|].
  apply is_rune_second in H as H1. unfold second in H1. destruct (accept2 (bz b)) as [lo hi].
  rewrite H1. destruct h as [|b2 h]; [done|]. by rewrite (is_rune_third _ _ _ _ H).
Qed.

Lemma not_full_completes b h :
  FullRune (b :: h) = false -> Forall (fun c => RuneStart c = false) h ->
  exists x, x <> [] /\ x ∈ completions /\ is_rune (b :: h ++ x) = true.
Proof.
  cbn [FullRune]. intros [Hw H]%orb_false_iff Hc. apply Nat.leb_gt in Hw.
  unfold first_width in Hw. destruct (_ || _) eqn:Hr in Hw; [cbn in Hw; lia|].
  destruct (accept2 (bz b)) as [lo hi] eqn:Ea.
  assert (Hlo : 0x80 <= lo <= hi /\ hi < 0xC0). { unfold accept2 in Ea. repeat case_match; simplify_eq; lia. }
  assert (Hl : lo = 0x80 \/ lo = 0xA0 /\ bz b = 0xE0 \/ lo = 0x90 /\ bz b = 0xF0).
  { unfold accept2 in Ea. repeat case_match; simplify_eq; lia. }
  assert (Hlob : GoLib.inr lo hi (zb lo) = true). { unfold GoLib.inr. rewrite bz_zb_small; lia. }
  assert (Hin : forall x, bool_decide (x ∈ completions) = true -> x ∈ completions).
  { intros x. apply bool_decide_eq_true. }
  destruct h as [|b1 [|b2 [|b3 h]]]; cbn [length] in Hw.
  - exists (if bz b <? 0xE0 then [zb lo] else if bz b <? 0xF0 then [zb lo; x80] else [zb lo; x80; x80]).
    split; [by repeat case_match|]. split.
    { apply Hin. destruct Hl as [->|[[-> ->]|[-> ->]]]; [|done..]. by repeat case_match. }
    destruct (bz b <? 0xE0) eqn:E1; [|destruct (bz b <? 0xF0) eqn:E2];
      cbn [app is_rune]; unfold second; rewrite Ea, Hlob; unfold GoLib.inr; change (cont x80) with true; lia.
  - apply orb_false_iff in H as [H _]. apply negb_false_iff in H.
    destruct (bz b <? 0xE0) eqn:E1; [lia|].
    exists (if bz b <? 0xF0 then [x80] else [x80; x80]). split; [by case_match|].
    split; [apply Hin; by case_match|].
    destruct (bz b <? 0xF0) eqn:E2;
      cbn [app is_rune]; unfold second; rewrite Ea, H; unfold GoLib.inr; change (cont x80) with true; lia.
  - apply orb_false_iff in H as [H H2]. apply negb_false_iff in H, H2.
    destruct (bz b <? 0xE0) eqn:E1; [lia|]. destruct (bz b <? 0xF0) eqn:E2; [lia|].
    exists [x80]. split; [done|]. split; [by apply Hin|].
    cbn [app is_rune]. unfold second. rewrite Ea, H, H2. unfold GoLib.inr. change (cont x80) with true. lia.
  - destruct (bz b <? 0xE0) eqn:E1; [lia|]. destruct (bz b <? 0xF0) eqn:E2; lia.
Qed.

Lemma not_full_partial b h :
  FullRune (b :: h) = false -> Forall (fun c => RuneStart c = false) h -> partial_rune (b :: h).
Proof. intros H Hc. destruct (not_full_completes b h H Hc) as (x & ? & _ & ?). by exists x. Qed.

Lemma partial_rune_shape b h :
  partial_rune (b :: h) -> RuneStart b = true /\ Forall (fun c => RuneStart c = false) h /\ (length h <= 2)%nat.
Proof.
  intros (x & Hx & H). split_and!.
  - by eapply is_rune_start.
  - apply is_rune_conts in H. by apply Forall_app in H as [? _].
  - destruct x; [done|]. destruct h as [|? [|? [|? h]]]; cbn in *; try lia. destruct h; cbn in H; discriminate H.
Qed.

Lemma viableb_viable p : viableb p = true <-> viable p.
Proof.
  unfold viableb. rewrite existsb_exists. split.
  - intros (t & _ & Ht). exists t. by apply Valid_utf8.
  - intros (a & h & -> & Ha & Hh)%utf8_cut. destruct h as [|b h].
    + exists []. split; [by left|]. rewrite !app_nil_r. by apply Valid_utf8.
    + destruct (partial_rune_shape _ _ Hh) as (_ & Hc & _).
      destruct (not_full_completes b h (partial_not_full _ Hh) Hc) as (x & _ & Hx & Hr).
      exists x. split; [by apply list_elem_of_In|]. rewrite <- app_assoc. apply Valid_utf8, utf8_app; [done|].
      by apply utf8_one.
Qed.

(** ** The last rune of a valid string *)

Lemma back_conts fuel p (i k : nat) :
  (k < fuel)%nat -> (i + k < length p)%nat ->
  (exists b, p !! i = Some b /\ RuneStart b = true) ->
  (forall j, (i < j <= i + k)%nat -> exists b, p !! j = Some b /\ RuneStart b = false) ->
  forall lim, lim <= Z.of_nat i -> back fuel p (Z.of_nat (i + k)) lim = Z.of_nat i.
Proof.
  revert k. induction fuel as [|fuel IH]; intros k Hk Hl Hi Hj lim Hlim; [lia|]. cbn [back].
  destruct (_ <=? _) eqn:E; [|apply Z.leb_gt in E; clear - E Hlim; lia]. rewrite Nat2Z.id. destruct k as [|k].
  - rewrite Nat.add_0_r. by destruct Hi as (b & -> & ->).
  - destruct (Hj (i + S k)%nat) as (b & -> & ->); [lia|].
    replace (Z.of_nat (i + S k) - 1) with (Z.of_nat (i + k)) by lia. apply IH; try lia; [done|].
    intros j Hj'. apply Hj. lia.
Qed.

Lemma DecodeLastRune_rune a l : is_rune l = true -> (DecodeLastRune (a ++ l)).2 = length l.
Proof.
  intros Hl. destruct l as [|b l]; [done|]. pose proof (is_rune_start _ _ Hl) as Hs.
  pose proof (is_rune_conts _ _ Hl) as Hc. pose proof (is_rune_width _ _ Hl) as Hw.
  unfold DecodeLastRune. rewrite last_app.
  destruct (last (b :: l)) as [c|] eqn:Elast; [|by apply last_None in Elast].
  destruct (bz c <? RuneSelf) eqn:Ec.
  { destruct l as [|b1 l]; [done|]. exfalso. rewrite Forall_forall in Hc.
    assert (Hin : c ∈ b1 :: l). { rewrite last_cons_cons in Elast. by apply last_Some_elem_of. }
    specialize (Hc c Hin). rewrite RuneStart_cont in Hc. unfold cont, RuneSelf in *. lia. }
  destruct l as [|b1 l].
  { cbn in Elast. simplify_eq. unfold is_rune in Hl. congruence. }
  assert (Hlen : (length (b1 :: l) <= 3)%nat).
  { unfold first_width in Hw. repeat case_match; cbn in *; lia. }
  assert (Hb : back UTFMax (a ++ b :: b1 :: l) (Z.of_nat (length (a ++ b :: b1 :: l)) - 2)
                 (Z.max 0 (Z.of_nat (length (a ++ b :: b1 :: l)) - Z.of_nat UTFMax)) = Z.of_nat (length a)).
  { replace (Z.of_nat (length (a ++ b :: b1 :: l)) - 2) with (Z.of_nat (length a + length l))
      by (rewrite length_app; cbn; lia).
    cbn [length] in Hlen. apply back_conts; unfold UTFMax; rewrite ?length_app; cbn [length]; try lia.
    - exists b. by rewrite list_lookup_middle.
    - intros j Hj. rewrite lookup_app_r, lookup_cons_ne_0 by lia.
      destruct ((b1 :: l) !! Nat.pred (j - length a)) as [d|] eqn:Ed.
      + exists d. split; [done|]. rewrite Forall_forall in Hc. apply Hc. by eapply list_elem_of_lookup_2.
      + apply lookup_ge_None in Ed. cbn in Ed. lia. }
  rewrite Hb, Z.max_r by lia. rewrite Nat2Z.id, drop_app_length.
  destruct (DecodeRune_rune _ [] Hl) as (r & E & _). rewrite app_nil_r in E. rewrite E.
  destruct (_ =? _) eqn:Ee; [apply Z.eqb_eq in Ee; done|apply Z.eqb_neq in Ee]. rewrite length_app in Ee. lia.
Qed.

Lemma DecodeLastRune_pos p : p <> [] -> (1 <= (DecodeLastRune p).2)%nat.
Proof.
  intros Hne. unfold DecodeLastRune. destruct (last p) as [b|] eqn:E; [|by apply last_None in E].
  destruct (_ <? _); [cbn; lia|].
  destruct (DecodeRune _) as [r size] eqn:Ed. destruct (_ =? _) eqn:Ee; [|cbn; lia]. cbn [snd].
  destruct (drop _ p) as [|c s] eqn:Es.
  - injection Ed as <- <-. exfalso. apply (f_equal length) in Es. rewrite length_drop in Es.
    set (st := Z.max 0 _) in *. assert (Hst : st < Z.of_nat (length p)).
    { unfold st. destruct p; [done|].
      assert (Hback : forall f q s lim, back f q s lim <= s).
      { clear. induction f as [|f IH]; intros; cbn; [lia|]. repeat case_match; try lia. specialize (IH q (s - 1) lim). lia. }
      specialize (Hback UTFMax (b0 :: p) (Z.of_nat (length (b0 :: p)) - 2)
        (Z.max 0 (Z.of_nat (length (b0 :: p)) - Z.of_nat UTFMax))). cbn [length] in *. lia. }
    cbn in Es. lia.
  - apply DecodeRune_width in Ed as [(_ & _ & ->)|(_ & ? & _)]; lia.
Qed.

End Utf8.
