(* ===== verification/Frame.v ===== *)
(** * Frame: the websocket framing layer
    (capabilities/websocket/internal/frame)

    The server side of RFC 6455 framing: [Next] reads masked client frames,
    reassembles fragments and checks text as it arrives; [WriteMessage] and
    [WriteClose] write server frames.

    A method of [Reader] is a computation [M] over the reader's state, which
    ends with a value or an error.  The [io.Reader] it wraps is what it will
    still deliver ([r]) and the error it reports after that ([r_err]): a read
    deadline or the end of the stream.  The callback [OnFrameHeader] is the
    number of times it was called ([headers]). *)

From S2P Require Import Prelude.
From S2P Require Import GoLib.
From S2P Require Import Utf8.

Module Frame.
Import Utf8.Utf8.

Definition OpContinuation : Z := 0x0.
Definition OpText : Z := 0x1.
Definition OpBinary : Z := 0x2.
Definition OpClose : Z := 0x8.
Definition OpPing : Z := 0x9.
Definition OpPong : Z := 0xA.

Definition CloseProtocolError : Z := 1002.
Definition CloseInvalidPayload : Z := 1007.
Definition CloseTooBig : Z := 1009.

(** What [Next] fails with: a violation of the protocol, with the status to
    close with, or the failure of the stream. *)
Inductive stream_error := EOF | ErrUnexpectedEOF | ReadError (what : String.string).
Inductive error :=
  | ProtocolError (Code : Z) (Reason : String.string)
  | StreamError (e : stream_error)
  | FrameFuel.

Record Message := mkMessage { Opcode : Z; Payload : bytes }.

(** [partial] is [None] where the source's slice is nil: no message is in
    progress. *)
Record Reader := mkReader {
  r : bytes;
  r_err : stream_error;
  OnFrameHeader : bool;
  headers : nat;
  maxMessage : Z;
  maxFragments : Z;
  partial : option bytes;
  partialOp : Z;
  frags : Z;
  utfOK : nat;
  dirty : bool
}.

Definition with_r (x : bytes) (rd : Reader) : Reader :=
  mkReader x (r_err rd) (OnFrameHeader rd) (headers rd) (maxMessage rd) (maxFragments rd)
    (partial rd) (partialOp rd) (frags rd) (utfOK rd) (dirty rd).
Definition with_dirty (x : bool) (rd : Reader) : Reader :=
  mkReader (r rd) (r_err rd) (OnFrameHeader rd) (headers rd) (maxMessage rd) (maxFragments rd)
    (partial rd) (partialOp rd) (frags rd) (utfOK rd) x.
Definition with_headers (x : nat) (rd : Reader) : Reader :=
  mkReader (r rd) (r_err rd) (OnFrameHeader rd) x (maxMessage rd) (maxFragments rd)
    (partial rd) (partialOp rd) (frags rd) (utfOK rd) (dirty rd).
Definition with_frags (x : Z) (rd : Reader) : Reader :=
  mkReader (r rd) (r_err rd) (OnFrameHeader rd) (headers rd) (maxMessage rd) (maxFragments rd)
    (partial rd) (partialOp rd) x (utfOK rd) (dirty rd).
Definition with_utfOK (x : nat) (rd : Reader) : Reader :=
  mkReader (r rd) (r_err rd) (OnFrameHeader rd) (headers rd) (maxMessage rd) (maxFragments rd)
    (partial rd) (partialOp rd) (frags rd) x (dirty rd).
Definition with_message (p : option bytes) (op : Z) (u : nat) (rd : Reader) : Reader :=
  mkReader (r rd) (r_err rd) (OnFrameHeader rd) (headers rd) (maxMessage rd) (maxFragments rd)
    p op (frags rd) u (dirty rd).

Definition MessageInProgress (rd : Reader) : bool := match partial rd with Some _ => true | None => false end.
Definition Dirty (rd : Reader) : bool := dirty rd.

(** The bytes of the message in progress; [len(nil)] is 0. *)
Definition buf (rd : Reader) : bytes := default [] (partial rd).

(** [None] is the panic on a cap that is not positive. *)
Definition NewReader (stream : bytes) (e : stream_error) (callback : bool) (maxMessage maxFragments : Z) : option Reader :=
  if (maxMessage <=? 0) || (maxFragments <=? 0) then None
  else Some (mkReader stream e callback 0 maxMessage maxFragments None 0 0 0 false).

(** ** Computations over a reader *)

Definition M (A : Type) : Type := Reader -> (error + A) * Reader.

Definition ret {A} (a : A) : M A := fun rd => (Datatypes.inr a, rd).
Definition bind {A B} (m : M A) (f : A -> M B) : M B := fun rd =>
  match m rd with
  | (Datatypes.inl e, rd') => (Datatypes.inl e, rd')
  | (Datatypes.inr a, rd') => f a rd'
  end.
Definition fail {A} (e : error) : M A := fun rd => (Datatypes.inl e, rd).
Definition get {A} (f : Reader -> A) : M A := fun rd => (Datatypes.inr (f rd), rd).
Definition modify (f : Reader -> Reader) : M unit := fun rd => (Datatypes.inr tt, f rd).
Definition protocol {A} (code : Z) (reason : String.string) : M A := fail (ProtocolError code reason).
(** [if bad { return Message{}, &ProtocolError{code, reason} }] *)
Definition reject (bad : bool) (code : Z) (reason : String.string) : M unit :=
  if bad then protocol code reason else ret tt.

#[export] Instance frame_ret : MRet M := @ret.
#[export] Instance frame_bind : MBind M := fun A B f m => bind m f.

(** [io.ReadFull] into a buffer of [n] bytes: what was read, and the error
    when that is less. *)
Definition ReadFull (n : Z) (rd : Reader) : bytes * option stream_error * Reader :=
  if n <=? Z.of_nat (length (r rd)) then
    (take (Z.to_nat n) (r rd), None, with_r (drop (Z.to_nat n) (r rd)) rd)
  else
    (r rd,
     Some (match r rd, r_err rd with _ :: _, EOF => ErrUnexpectedEOF | _, e => e end),
     with_r [] rd).

(** [full] and [midFull] give what was read, and the error. *)
Definition full (n : Z) (rd : Reader) : bytes * option stream_error * Reader :=
  let '(got, err, rd') := ReadFull n rd in
  (got, err, match err, got with Some _, _ :: _ => with_dirty true rd' | _, _ => rd' end).

Definition midFull (n : Z) (rd : Reader) : bytes * option stream_error * Reader :=
  let '(got, err, rd') := full n rd in
  (got, err, match err with Some _ => with_dirty true rd' | None => rd' end).

(** Reading into a fresh buffer, and returning the error. *)
Definition reading (f : Z -> Reader -> bytes * option stream_error * Reader) (n : Z) : M bytes := fun rd =>
  match f n rd with
  | (_, Some e, rd') => (Datatypes.inl (StreamError e), rd')
  | (got, None, rd') => (Datatypes.inr got, rd')
  end.

(** ** Masking (section 5.3) *)

Definition key_at (k : bytes) (i : nat) : byte := nth (i mod 4) k x00.
Definition bxor (a b : byte) : byte := zb (Z.lxor (bz a) (bz b)).

Definition mask_tail (k : bytes) (p : bytes) : bytes := imap (fun i b => bxor b (key_at k i)) p.

Fixpoint mask_words (k : bytes) (k64 : Z) (p : bytes) : bytes :=
  match p with
  | b0 :: b1 :: b2 :: b3 :: b4 :: b5 :: b6 :: b7 :: rest =>
      le_bytes 8 (Z.lxor (le_val [b0; b1; b2; b3; b4; b5; b6; b7]) k64) ++ mask_words k k64 rest
  | _ => mask_tail k p
  end.

Definition mask (p key : bytes) (offset : Z) : bytes :=
  let k := map (fun i => nth (Z.to_nat ((offset + i) mod 4)) key x00) [0; 1; 2; 3] in
  let k32 := le_val k in
  let k64 := Z.lor k32 (Z.shiftl k32 32) in
  mask_words k k64 p.

(** ** Close frames *)

Definition validReceivedCloseCode (code : Z) : bool :=
  if (1000 <=? code) && (code <=? 1003) then true
  else if (1007 <=? code) && (code <=? 1014) then true
  else if (3000 <=? code) && (code <=? 4999) then true
  else false.

Definition validateClose (payload : bytes) : option error :=
  match payload with
  | [] => None
  | [_] => Some (ProtocolError CloseProtocolError "close frame with a 1-byte body")
  | _ =>
      let code := be_val (take 2 payload) in
      if negb (validReceivedCloseCode code) then
        Some (ProtocolError CloseProtocolError "close frame with an invalid status code")
      else if negb (utf8_Valid (drop 2 payload)) then
        Some (ProtocolError CloseInvalidPayload "close reason is not valid UTF-8")
      else None
  end.

(** ** Text validation as bytes arrive *)

(** The loop of [validateChunk]: where the complete code points end. *)
Fixpoint chunk_cut (fuel : nat) (p : bytes) (ok i : nat) : nat :=
  let cut := length p in
  match fuel with
  | O => cut
  | S fuel' =>
      if (i <? UTFMax)%nat && (i + ok <=? cut)%nat then
        match p !! (cut - i)%nat with
        | Some b =>
            if RuneStart b then
              if negb (FullRune (drop (cut - i) p)) then (cut - i)%nat else cut
            else chunk_cut fuel' p ok (S i)
        | None => cut
        end
      else cut
  end.

Definition validateChunk : M unit :=
  p ← get buf;
  ok ← get utfOK;
  let cut := chunk_cut UTFMax p ok 1 in
  reject (negb (utf8_Valid (drop ok (take cut p)))) CloseInvalidPayload "text message is not valid UTF-8";;
  modify (with_utfOK cut).

Definition allocChunk : Z := Z.shiftl 32 10.

(** Growing the buffer by [n] bytes and reading into them; on an error the
    bytes that did not arrive stay zero. *)
Definition grow_read (n : Z) (key : bytes) (done : Z) : M unit := fun rd =>
  let off := buf rd in
  let '(got, err, rd') := midFull n rd in
  match err with
  | Some e =>
      (Datatypes.inl (StreamError e),
       with_message (Some (off ++ got ++ replicate (Z.to_nat n - length got) x00)) (partialOp rd) (utfOK rd) rd')
  | None => (Datatypes.inr tt, with_message (Some (off ++ mask got key done)) (partialOp rd) (utfOK rd) rd')
  end.

Fixpoint append_loop (fuel : nat) (length done : Z) (key : bytes) : M unit :=
  if done <? length then
    match fuel with
    | O => fail FrameFuel
    | S fuel' =>
        let n := Z.min (length - done) allocChunk in
        grow_read n key done;;
        let done := done + n in
        op ← get partialOp;
        (if op =? OpText then validateChunk else ret tt);;
        append_loop fuel' length done key
    end
  else ret tt.

Definition appendPayload (length : Z) (key : bytes) : M unit :=
  append_loop (S (Z.to_nat (length / allocChunk))) length 0 key.

(** ** Reading messages *)

Definition byte_and (b : option byte) (m : Z) : Z := match b with Some b => Z.land (bz b) m | None => 0 end.

(** The payload length of a header whose 7-bit length is [length]. *)
Definition read_length (length : Z) : M Z :=
  if length =? 126 then
    ext ← reading midFull 2;
    let length := be_val ext in
    reject (length <=? 125) CloseProtocolError "non-minimal 16-bit length";;
    ret length
  else if length =? 127 then
    ext ← reading midFull 8;
    let v := be_val ext in
    reject (negb (Z.land v (Z.shiftl 1 63) =? 0)) CloseProtocolError "64-bit length with high bit set";;
    reject (v <=? 0xffff) CloseProtocolError "non-minimal 64-bit length";;
    ret (int64 v)
  else ret length.

(** The checks on a control frame before its payload is read. *)
Definition check_control (fin : bool) (op length : Z) : M unit :=
  reject (negb fin) CloseProtocolError "fragmented control frame";;
  reject (125 <? length) CloseProtocolError "control frame payload over 125 bytes";;
  reject (negb ((op =? OpClose) || (op =? OpPing) || (op =? OpPong))) CloseProtocolError "reserved control opcode".

(** The checks on a data frame before its payload is read. *)
Definition check_data (op length : Z) : M unit :=
  in_progress ← get MessageInProgress;
  (if op =? OpContinuation then
     reject (negb in_progress) CloseProtocolError "continuation with no message in progress"
   else if (op =? OpText) || (op =? OpBinary) then
     reject in_progress CloseProtocolError "new data frame inside a fragmented message"
   else protocol CloseProtocolError "reserved data opcode");;
  budget ← get (fun rd => maxMessage rd - Z.of_nat (List.length (buf rd)));
  reject (budget <? length) CloseTooBig "message exceeds the maximum size";;
  modify (fun rd => with_frags (frags rd + 1) rd);;
  over ← get (fun rd => maxFragments rd <? frags rd);
  reject over CloseTooBig "message split into too many fragments".

Definition read_control (op length : Z) (key : bytes) : M (option Message) :=
  payload ← reading midFull length;
  let payload := mask payload key 0 in
  match (if op =? OpClose then validateClose payload else None) with
  | Some e => fail e
  | None => ret (Some (mkMessage op payload))
  end.

(** A data frame's payload; [None] when the message goes on. *)
Definition read_data (fin : bool) (op length : Z) (key : bytes) : M (option Message) :=
  (if negb (op =? OpContinuation) then modify (with_message (Some []) op 0) else ret tt);;
  appendPayload length key;;
  if negb fin then ret None
  else
    msg ← get (fun rd => mkMessage (partialOp rd) (buf rd));
    tail ← get utfOK;
    modify (fun rd => with_frags 0 (with_message None 0 0 rd));;
    reject ((Opcode msg =? OpText) && negb (utf8_Valid (drop tail (Payload msg))))
      CloseInvalidPayload "text message is not valid UTF-8";;
    ret (Some msg).

(** One round of [Next]'s loop after the header has arrived. *)
Definition frame_body (hdr : bytes) : M (option Message) :=
  modify (fun rd => if OnFrameHeader rd then with_headers (S (headers rd)) rd else rd);;
  let fin := negb (byte_and (hdr !! 0%nat) 0x80 =? 0) in
  reject (negb (byte_and (hdr !! 0%nat) 0x70 =? 0)) CloseProtocolError "reserved bits set";;
  let op := byte_and (hdr !! 0%nat) 0x0f in
  let masked := negb (byte_and (hdr !! 1%nat) 0x80 =? 0) in
  reject (negb masked) CloseProtocolError "client frame not masked";;
  length ← read_length (byte_and (hdr !! 1%nat) 0x7f);
  let control := negb (Z.land op 0x8 =? 0) in
  (if control then check_control fin op length else check_data op length);;
  key ← reading midFull 4;
  if control then read_control op length key else read_data fin op length key.

(** One round of [Next]'s loop: one frame. *)
Definition frame_step : M (option Message) := hdr ← reading full 2; frame_body hdr.

Fixpoint next_loop (fuel : nat) : M Message :=
  match fuel with
  | O => fail FrameFuel
  | S fuel' =>
      m ← frame_step;
      match m with
      | Some msg => ret msg
      | None => next_loop fuel'
      end
  end.

(** [Next]: every frame takes at least one byte, so one round more than there
    are bytes is enough. *)
Definition Next : M Message := fun rd => next_loop (S (length (r rd))) rd.

(** ** Writing *)

Inductive write_error := InvalidOpcode (op : Z) | ControlTooLong (n : Z).

(** The bytes handed to the writer in one gathered write. *)
Definition WriteMessage (op : Z) (payload : bytes) : write_error + bytes :=
  let n := Z.of_nat (length payload) in
  if 0x0f <? op then Datatypes.inl (InvalidOpcode op)
  else if negb (Z.land op 0x8 =? 0) && (125 <? n) then Datatypes.inl (ControlTooLong n)
  else
    let hdr0 := zb (Z.lor 0x80 op) in
    let hdr :=
      if n <=? 125 then [hdr0; zb n]
      else if n <=? 0xffff then hdr0 :: zb 126 :: be_bytes 2 n
      else hdr0 :: zb 127 :: be_bytes 8 n in
    Datatypes.inr (hdr ++ payload).

Definition maxReason : nat := 125 - 2.

Fixpoint close_reason (fuel : nat) (reason : bytes) : bytes :=
  if (maxReason <? length reason)%nat then
    match fuel with
    | O => reason
    | S fuel' => close_reason fuel' (take (length reason - (DecodeLastRune reason).2) reason)
    end
  else reason.

Definition WriteClose (code : Z) (reason : bytes) : write_error + bytes :=
  WriteMessage OpClose (be_bytes 2 code ++ close_reason (length reason) reason).

End Frame.
