(* ===== verification/FrameMask.v ===== *)
(** * FrameMask: masking, chunk by chunk and a word at a time

    [mask] is the transform of RFC 6455 section 5.3, byte [i] of the payload
    with key byte [i mod 4] ([xor_key]): its 64-bit steps and its starting
    offset change nothing, so a payload may be unmasked in pieces; and it is
    its own inverse. *)

From S2P Require Import Prelude.
From S2P Require Import GoLib.
From S2P Require Import Jsonwords.
From S2P Require Import Frame.

Module FrameMask.
Import Jsonwords.Jsonwords Frame.Frame.

(** The reference transform, from offset [o] of the payload. *)
Definition xor_key (key : bytes) (o : nat) (p : bytes) : bytes :=
  imap (fun i b => bxor b (key_at key (o + i))) p.

Lemma xor_key_length key o p : length (xor_key key o p) = length p.
Proof. apply length_imap. Qed.

Lemma xor_key_app key o p q : xor_key key o (p ++ q) = xor_key key o p ++ xor_key key (o + length p) q.
Proof.
  unfold xor_key. rewrite imap_app. f_equal. apply imap_ext. intros i b _. cbn. by rewrite Nat.add_assoc.
Qed.

Lemma bz_bxor a b : bz (bxor a b) = Z.lxor (bz a) (bz b).
Proof. unfold bxor. apply bz_zb_small, lxor_byte; apply bz_range. Qed.

Lemma bxor_twice a k : bxor (bxor a k) k = a.
Proof. apply bz_inj. rewrite !bz_bxor, Z.lxor_assoc, Z.lxor_nilpotent. apply Z.lxor_0_r. Qed.

Lemma xor_key_twice key o p : xor_key key o (xor_key key o p) = p.
Proof.
  unfold xor_key. apply list_eq. intros i. rewrite !list_lookup_imap.
  destruct (p !! i) as [b|]; [|done]. cbn. by rewrite bxor_twice.
Qed.

(** ** Words *)

Lemma le_val_lxor a b :
  length a = length b -> Z.lxor (le_val a) (le_val b) = le_val (zip_with bxor a b).
Proof.
  revert b. induction a as [|x a IH]; intros [|y b]; cbn [length]; try done. intros [= E].
  cbn [le_val zip_with]. rewrite lxor_bytes by apply bz_range. by rewrite IH, bz_bxor.
Qed.

(** [k] twice over, in a 64-bit word. *)
Lemma k64_val k : length k = 4%nat -> Z.lor (le_val k) (Z.shiftl (le_val k) 32) = le_val (k ++ k).
Proof.
  intros Hk. rewrite le_val_app, Hk. pose proof (le_val_bound k) as Hb. rewrite Hk in Hb.
  change (256 ^ Z.of_nat 4) with (2 ^ 32) in *. rewrite Z.shiftl_mul_pow2 by lia.
  assert (Hd : Z.land (le_val k) (le_val k * 2 ^ 32) = 0).
  { apply Z.bits_inj'. intros n Hn. rewrite Z.land_spec, Z.bits_0. destruct (Z_lt_ge_dec n 32).
    - rewrite Z.mul_pow2_bits_low by lia. apply andb_false_r.
    - rewrite (Z.bits_above_log2 (le_val k) n); [done|lia|].
      destruct (Z.eq_dec (le_val k) 0) as [->|]; [cbn; lia|]. apply Z.log2_lt_pow2; [lia|].
      pose proof (Z.pow_le_mono_r 2 32 n). lia. }
  rewrite <- Z.lxor_lor, <- Z.add_nocarry_lxor by done. lia.
Qed.

Lemma mask_words_tail k p :
  length k = 4%nat -> mask_words k (Z.lor (le_val k) (Z.shiftl (le_val k) 32)) p = mask_tail k p.
Proof.
  intros Hk. rewrite k64_val by done. set (k64 := le_val (k ++ k)).
  induction p as [p IH] using (induction_ltof1 _ (@length byte)). unfold ltof in IH.
  destruct p as [|b0 [|b1 [|b2 [|b3 [|b4 [|b5 [|b6 [|b7 p]]]]]]]]; try done.
  cbn [mask_words]. rewrite IH by (cbn; lia). unfold k64.
  rewrite le_val_lxor by (rewrite length_app, Hk; done).
  destruct k as [|k0 [|k1 [|k2 [|k3 [|? ?]]]]]; try done.
  cbn [app zip_with]. match goal with |- le_bytes 8 (le_val ?l) ++ _ = _ => change 8%nat with (length l) end.
  rewrite le_bytes_val. unfold mask_tail.
  change (b0 :: b1 :: b2 :: b3 :: b4 :: b5 :: b6 :: b7 :: p)
    with ([b0; b1; b2; b3; b4; b5; b6; b7] ++ p). rewrite imap_app. f_equal.
  apply imap_ext. intros i b _. cbn. f_equal. unfold key_at. f_equal.
  change (S (S (S (S (S (S (S (S i)))))))) with (8 + i)%nat.
  change 8%nat with (2 * 4)%nat. by rewrite (Nat.add_comm (2 * 4)), Nat.Div0.mod_add.
Qed.

(** The word-at-a-time transform is the reference one. *)
Lemma mask_xor_key p key (o : nat) : length key = 4%nat -> mask p key (Z.of_nat o) = xor_key key o p.
Proof.
  intros Hk. unfold mask. rewrite mask_words_tail by done. unfold mask_tail, xor_key.
  apply imap_ext. intros i b _. f_equal. unfold key_at.
  assert (Hi : (i mod 4 < 4)%nat) by (apply Nat.mod_upper_bound; lia).
  assert (Hm : forall j, (j < 4)%nat -> (i mod 4)%nat = j -> Z.to_nat ((Z.of_nat o + Z.of_nat j) mod 4) = ((o + i) mod 4)%nat).
  { intros j Hj <-. rewrite <- Nat2Z.inj_add. change 4 with (Z.of_nat 4). rewrite <- Nat2Z.inj_mod, Nat2Z.id.
    apply Nat.Div0.add_mod_idemp_r. }
  destruct (i mod 4)%nat as [|[|[|[|j]]]] eqn:Ej; cbn [map nth]; [..|lia];
    rewrite <- (Hm _ Hi eq_refl); done.
Qed.

End FrameMask.
