(* ===== verification/FrameText.v ===== *)
(** * FrameText: text is checked as it arrives

    [validateChunk] keeps the part of a text message that is already known to
    be valid and looks at the rest only.  It fails exactly when the bytes
    received so far can not be continued to valid UTF-8: never because a code
    point is cut by a chunk or a fragment, and never later than it could. *)

From S2P Require Import Prelude.
From S2P Require Import GoLib.
From S2P Require Import Utf8.
From S2P Require Import Frame.

Module FrameText.
Import Utf8.Utf8 Frame.Frame.

(** The byte [j] places from the end. *)
Abbreviation from_end p j := (p !! (length p - j)%nat).

(** What the loop finds: the last rune start within reach, or none. *)
Lemma chunk_loop (fuel i : nat) (p : bytes) (ok : nat) :
  (fuel + i = 5)%nat -> (1 <= i)%nat ->
  (exists k b, (i <= k < 4)%nat /\ (k + ok <= length p)%nat /\ from_end p k = Some b /\ RuneStart b = true /\
     (forall j c, (i <= j < k)%nat -> from_end p j = Some c -> RuneStart c = false) /\
     chunk_cut fuel p ok i =
       if negb (FullRune (drop (length p - k) p)) then (length p - k)%nat else length p) \/
  ((forall j c, (i <= j < 4)%nat -> (j + ok <= length p)%nat -> from_end p j = Some c -> RuneStart c = false) /\
   chunk_cut fuel p ok i = length p).
Proof.
  revert i. induction fuel as [|fuel IH]; intros i Hf Hi.
  { right. split; [intros; lia|done]. }
  cbn [chunk_cut]. unfold UTFMax.
  destruct (i <? 4)%nat eqn:E1; [|right; split; [intros; apply Nat.ltb_ge in E1; lia|done]].
  destruct (i + ok <=? length p)%nat eqn:E2; cbn [andb];
    [|right; split; [intros; apply Nat.leb_gt in E2; lia|done]].
  apply Nat.ltb_lt in E1. apply Nat.leb_le in E2.
  destruct (from_end p i) as [b|] eqn:Eb; [|apply lookup_ge_None in Eb; lia].
  destruct (RuneStart b) eqn:Es.
  { left. exists i, b. split_and!; try done; try lia; intros; lia. }
  destruct (IH (S i)) as [(k & c & Hk & Hl & Hc & Hs & Hn & ->)|[Hn ->]]; [lia..| |].
  - left. exists k, c. split_and!; try done; try lia. intros j d Hj Hd.
    destruct (decide (j = i)) as [->|]; [congruence|]. eapply Hn; [|done]. lia.
  - right. split; [|done]. intros j d Hj Hl Hd.
    destruct (decide (j = i)) as [->|]; [congruence|]. eapply Hn; [|done..]. lia.
Qed.

Lemma from_end_app (a h : bytes) (j : nat) :
  (1 <= j <= length h)%nat -> from_end (a ++ h) j = from_end h j.
Proof. intros H. rewrite length_app, lookup_app_r by lia. f_equal. lia. Qed.

Lemma from_end_conts b (h : bytes) (j : nat) c :
  Forall (fun c => RuneStart c = false) h -> (1 <= j <= length h)%nat ->
  from_end (b :: h) j = Some c -> RuneStart c = false.
Proof.
  intros Hh Hj H. cbn [length] in H. rewrite lookup_cons_ne_0 in H by lia.
  rewrite Forall_forall in Hh. apply Hh. by eapply list_elem_of_lookup_2.
Qed.

(** A start followed by [h] continuation bytes at the end is what the loop
    finds. *)
Lemma last_start (a : bytes) b (h : bytes) (k : nat) c :
  RuneStart b = true -> Forall (fun c => RuneStart c = false) h ->
  (1 <= k)%nat -> from_end (a ++ b :: h) k = Some c -> RuneStart c = true ->
  (forall j c, (1 <= j < k)%nat -> from_end (a ++ b :: h) j = Some c -> RuneStart c = false) ->
  k = S (length h).
Proof.
  intros Hb Hh Hk Hc Hs Hn. destruct (Nat.lt_trichotomy k (S (length h))) as [|[|]]; [|done|].
  - rewrite from_end_app in Hc by (cbn; lia). apply from_end_conts in Hc; [congruence|done|lia].
  - specialize (Hn (S (length h)) b ltac:(lia)). rewrite from_end_app in Hn by (cbn; lia).
    cbn [length] in Hn. rewrite Nat.sub_diag in Hn. specialize (Hn eq_refl). congruence.
Qed.

(** The cut falls before the unfinished code point. *)
Lemma chunk_cut_at (o a h : bytes) :
  utf8 a -> partial_rune h -> chunk_cut UTFMax (o ++ a ++ h) (length o) 1 = length (o ++ a).
Proof.
  intros Ha Hh. pose proof (chunk_loop UTFMax 1 (o ++ a ++ h) (length o) eq_refl ltac:(lia)) as Hl.
  destruct h as [|b h].
  - rewrite app_nil_r in *. destruct Hl as [(k & c & Hk & Hlen & Hc & Hs & Hn & ->)|[_ ->]]; [|done].
    destruct (decide (a = [])) as [->|Hne]; [rewrite app_nil_r in Hlen; lia|].
    destruct (utf8_last a Ha Hne) as (a' & l & -> & Ha' & Hr). destruct l as [|b l]; [done|].
    rewrite app_assoc in *.
    pose proof (last_start (o ++ a') b l k c (is_rune_start _ _ Hr) (is_rune_conts _ _ Hr) ltac:(lia) Hc Hs Hn) as ->.
    rewrite length_app at 1. cbn [length]. replace (_ + _ - _)%nat with (length (o ++ a')) by lia.
    rewrite drop_app_length. by rewrite (is_rune_full _ Hr).
  - destruct (partial_rune_shape _ _ Hh) as (Hb & Hconts & Hlen3). rewrite app_assoc in Hl |- *.
    destruct Hl as [(k & c & Hk & Hlen & Hc & Hs & Hn & ->)|[Hn _]].
    + pose proof (last_start (o ++ a) b h k c Hb Hconts ltac:(lia) Hc Hs Hn) as ->.
      rewrite length_app. cbn [length]. replace (_ + _ - _)%nat with (length (o ++ a)) by lia.
      rewrite drop_app_length. by rewrite (partial_not_full _ Hh).
    + exfalso. specialize (Hn (S (length h)) b ltac:(lia)). rewrite from_end_app in Hn by (cbn; lia).
      rewrite !length_app in Hn. cbn [length] in Hn. rewrite Nat.sub_diag in Hn.
      specialize (Hn ltac:(lia) eq_refl). congruence.
Qed.

(** What is cut off is always the beginning of a rune. *)
Lemma chunk_cut_partial (o q : bytes) :
  exists a h, q = a ++ h /\ partial_rune h /\ chunk_cut UTFMax (o ++ q) (length o) 1 = length (o ++ a).
Proof.
  assert (Hp : partial_rune []) by (by exists ["a"%byte]).
  destruct (chunk_loop UTFMax 1 (o ++ q) (length o) eq_refl ltac:(lia))
    as [(k & b & Hk & Hlen & Hb & Hs & Hn & ->)|[_ ->]].
  2: { exists q, []. by rewrite app_nil_r. }
  destruct (FullRune _) eqn:Ef; cbn [negb].
  { exists q, []. by rewrite app_nil_r. }
  rewrite length_app in Hlen. set (m := (length q - k)%nat).
  assert (Hm : (length (o ++ q) - k = length o + m)%nat) by (rewrite length_app; lia).
  rewrite Hm in *. exists (take m q), (drop m q). split; [by rewrite take_drop|].
  rewrite drop_app_ge in Ef by lia. replace (length o + m - length o)%nat with m in Ef by lia.
  split; [|rewrite length_app, length_take; lia].
  rewrite lookup_app_r in Hb by lia. replace (length o + m - length o)%nat with m in Hb by lia.
  rewrite (drop_S _ _ _ Hb) in Ef |- *. apply not_full_partial; [done|].
  apply Forall_lookup_2. intros j c Hc. rewrite lookup_drop in Hc.
  apply lookup_lt_Some in Hc as Hj. apply (Hn (k - S j)%nat); [lia|].
  rewrite length_app, lookup_app_r by lia. rewrite <- Hc. f_equal. lia.
Qed.

(** The part of the buffer that has been checked. *)
Definition checked (rd : Reader) : Prop :=
  (utfOK rd <= length (buf rd))%nat /\ utf8 (take (utfOK rd) (buf rd)).

Lemma viable_dec p : {viable p} + {~ viable p}.
Proof.
  destruct (viableb p) eqn:E; [left|right]; rewrite <- viableb_viable; congruence.
Qed.

Lemma viable_prefix p q : viable (p ++ q) -> viable p.
Proof. intros [t Ht]. exists (q ++ t). by rewrite app_assoc. Qed.

Lemma utf8_viable p : utf8 p -> viable p.
Proof. intros H. exists []. by rewrite app_nil_r. Qed.

Lemma validateChunk_viable rd :
  checked rd -> viable (buf rd) ->
  exists cut, validateChunk rd = (Datatypes.inr tt, with_utfOK cut rd) /\ checked (with_utfOK cut rd).
Proof.
  intros [Hok Hu] Hv. rewrite <- (take_drop (utfOK rd) (buf rd)) in Hv.
  apply viable_drop in Hv; [|done]. apply utf8_cut in Hv as (a & h & E & Ha & Hh).
  pose proof (chunk_cut_at (take (utfOK rd) (buf rd)) a h Ha Hh) as Hc.
  rewrite <- E, take_drop, length_take, Nat.min_l in Hc by done.
  exists (chunk_cut UTFMax (buf rd) (utfOK rd) 1). rewrite Hc.
  assert (Eb : buf rd = (take (utfOK rd) (buf rd) ++ a) ++ h) by (by rewrite <- app_assoc, <- E, take_drop).
  assert (Et : take (length (take (utfOK rd) (buf rd) ++ a)) (buf rd) = take (utfOK rd) (buf rd) ++ a).
  { rewrite Eb at 2. apply take_app_length. }
  split.
  - unfold validateChunk, mbind, frame_bind, bind, get, reject, modify. rewrite Hc, Et.
    rewrite drop_app_ge by (rewrite length_take; lia). rewrite length_take, Nat.min_l, Nat.sub_diag by done.
    rewrite drop_0. by rewrite (proj2 (Valid_utf8 a) Ha).
  - split; cbn [utfOK with_utfOK]; change (buf (with_utfOK _ rd)) with (buf rd).
    + rewrite Eb at 2. rewrite (length_app _ h). lia.
    + rewrite Et. by apply utf8_app.
Qed.

Lemma validateChunk_not_viable rd :
  checked rd -> ~ viable (buf rd) ->
  exists reason, validateChunk rd = (Datatypes.inl (ProtocolError CloseInvalidPayload reason), rd).
Proof.
  intros [Hok Hu] Hv.
  destruct (chunk_cut_partial (take (utfOK rd) (buf rd)) (drop (utfOK rd) (buf rd))) as (a & h & E & Hh & Hc).
  rewrite take_drop, length_take, Nat.min_l in Hc by done.
  assert (Eb : buf rd = (take (utfOK rd) (buf rd) ++ a) ++ h) by (by rewrite <- app_assoc, <- E, take_drop).
  assert (Et : take (length (take (utfOK rd) (buf rd) ++ a)) (buf rd) = take (utfOK rd) (buf rd) ++ a).
  { rewrite Eb at 2. apply take_app_length. }
  unfold validateChunk, mbind, frame_bind, bind, get, reject, modify. rewrite Hc, Et.
  rewrite drop_app_ge by (rewrite length_take; lia). rewrite length_take, Nat.min_l, Nat.sub_diag by done.
  rewrite drop_0. destruct (utf8_Valid a) eqn:Ev; [|by eexists].
  destruct Hv. apply utf8_cut. exists (take (utfOK rd) (buf rd) ++ a), h.
  split; [done|]. split; [|done]. apply utf8_app; [done|]. by apply Valid_utf8.
Qed.

End FrameText.
