(* ===== verification/FrameSpec.v ===== *)
(** * FrameSpec: frames and messages, abstractly

    The frames of RFC 6455 section 5.2 with their encoding, and what a server
    makes of a sequence of them: [accept] is the whole protocol of sections
    5.4 to 5.6 on one frame, over the message in progress, without buffers,
    chunks or word tricks.  Then the lemmas on single operations of the reader
    that relate it to this. *)

From S2P Require Import Prelude.
From S2P Require Import GoLib.
From S2P Require Import Utf8.
From S2P Require Import Frame.
From S2P Require Import FrameMask.
From S2P Require Import FrameText.

Module FrameSpec.
Import Utf8.Utf8 Frame.Frame FrameMask.FrameMask FrameText.FrameText.

(** ** Frames *)

Record frame := mkFrame { f_fin : bool; f_rsv : Z; f_op : Z; f_key : bytes; f_payload : bytes }.

Definition f_len (f : frame) : Z := Z.of_nat (length (f_payload f)).

Record wf_frame (f : frame) : Prop := {
  wf_rsv : 0 <= f_rsv f < 8;
  wf_op : 0 <= f_op f < 16;
  wf_key : length (f_key f) = 4%nat;
  wf_len : f_len f < 2 ^ 63
}.

(** The shortest form of a length: seven bits, and the bytes after them. *)
Definition len7 (n : Z) : Z := if n <=? 125 then n else if n <=? 0xffff then 126 else 127.
Definition length_ext (n : Z) : bytes :=
  if n <=? 125 then [] else if n <=? 0xffff then be_bytes 2 n else be_bytes 8 n.

(** A masked client frame. *)
Definition encode (f : frame) : bytes :=
  [zb (128 * Z.b2z (f_fin f) + 16 * f_rsv f + f_op f); zb (128 + len7 (f_len f))]
  ++ length_ext (f_len f) ++ f_key f ++ xor_key (f_key f) 0 (f_payload f).

(** ** Messages *)

(** The message in progress: its opcode, what has arrived, in how many
    frames. *)
Record assembly := mkAssembly { a_op : Z; a_data : bytes; a_frames : Z }.

Inductive outcome :=
  | Fail (code : Z)
  | Deliver (m : Message) (s : option assembly)
  | Wait (s : option assembly).

(** The status a close frame's body is refused with. *)
Definition close_status (body : bytes) : option Z :=
  match body with
  | [] => None
  | [_] => Some 1002
  | c1 :: c2 :: reason =>
      let code := 256 * bz c1 + bz c2 in
      if negb ((1000 <=? code) && (code <=? 1003) || (1007 <=? code) && (code <=? 1014) || (3000 <=? code) && (code <=? 4999))
      then Some 1002
      else if negb (utf8_Valid reason) then Some 1007
      else None
  end.

Definition accept_control (s : option assembly) (f : frame) : outcome :=
  if negb (f_fin f) || (125 <? f_len f) || (10 <? f_op f) then Fail 1002
  else
    match (if f_op f =? 8 then close_status (f_payload f) else None) with
    | Some code => Fail code
    | None => Deliver (mkMessage (f_op f) (f_payload f)) s
    end.

(** [a] is the message [f] belongs to, before it. *)
Definition accept_data (limit frames : Z) (a : assembly) (f : frame) : outcome :=
  let data := a_data a ++ f_payload f in
  let n := a_frames a + 1 in
  if limit <? Z.of_nat (length data) then Fail 1009
  else if frames <? n then Fail 1009
  else if f_fin f then
    if (a_op a =? 1) && negb (utf8_Valid data) then Fail 1007
    else Deliver (mkMessage (a_op a) data) None
  else
    if (a_op a =? 1) && negb (viableb data) then Fail 1007
    else Wait (Some (mkAssembly (a_op a) data n)).

Definition accept (limit frames : Z) (s : option assembly) (f : frame) : outcome :=
  if negb (f_rsv f =? 0) then Fail 1002
  else if 8 <=? f_op f then accept_control s f
  else
    match s, f_op f =? 0 with
    | Some a, true => accept_data limit frames a f
    | None, false =>
        if 2 <? f_op f then Fail 1002 else accept_data limit frames (mkAssembly (f_op f) [] 0) f
    | _, _ => Fail 1002
    end.

(** Frames that leave the message in progress unfinished. *)
Fixpoint waits (limit frames : Z) (s : option assembly) (fs : list frame) : option (option assembly) :=
  match fs with
  | [] => Some s
  | f :: fs' =>
      match accept limit frames s f with
      | Wait s' => waits limit frames s' fs'
      | _ => None
      end
  end.

(** The reader holds the message in progress [s]. *)
Definition holds (rd : Reader) (s : option assembly) : Prop :=
  match s with
  | None => partial rd = None /\ frags rd = 0
  | Some a =>
      partial rd = Some (a_data a) /\ partialOp rd = a_op a /\ frags rd = a_frames a /\
      (a_op a = OpText -> checked rd /\ viable (a_data a))
  end.

(** ** Inverting computations *)

Lemma bind_ok {A B} (m : M A) (f : A -> M B) rd a rd1 :
  m rd = (Datatypes.inr a, rd1) -> (m ≫= f) rd = f a rd1.
Proof. unfold mbind, frame_bind, bind. by intros ->. Qed.

Lemma bind_err {A B} (m : M A) (f : A -> M B) rd e rd1 :
  m rd = (Datatypes.inl e, rd1) -> (m ≫= f) rd = (Datatypes.inl e, rd1).
Proof. unfold mbind, frame_bind, bind. by intros ->. Qed.

Lemma bind_inv {A B} (m : M A) (f : A -> M B) rd b rd2 :
  (m ≫= f) rd = (Datatypes.inr b, rd2) ->
  exists a rd1, m rd = (Datatypes.inr a, rd1) /\ f a rd1 = (Datatypes.inr b, rd2).
Proof. unfold mbind, frame_bind, bind. destruct (m rd) as [[e|a] rd1]; naive_solver. Qed.

Lemma reject_inv bad code reason rd u rd' :
  reject bad code reason rd = (Datatypes.inr u, rd') -> bad = false /\ rd' = rd.
Proof. unfold reject, protocol, fail, ret. destruct bad; naive_solver. Qed.

Lemma reject_true code reason rd :
  reject true code reason rd = (Datatypes.inl (ProtocolError code reason), rd).
Proof. done. Qed.

Lemma reject_false code reason rd : reject false code reason rd = (Datatypes.inr tt, rd).
Proof. done. Qed.

(** [step_in H]: one more step of the computation [H] says has succeeded. *)
Ltac step_in H :=
  match type of H with
  | mbind _ _ _ = _ =>
      let a := fresh "a" in let rd1 := fresh "rd" in let H1 := fresh "Hm" in
      apply bind_inv in H as (a & rd1 & H1 & H);
      match type of H1 with
      | reject _ _ _ _ = _ => apply reject_inv in H1 as [H1 ->]
      | get _ _ = _ => injection H1 as <- <-
      | modify _ _ = _ => injection H1 as <- <-
      | _ => idtac
      end
  end.

(** ** Reading *)

Lemma ReadFull_app (a rest : bytes) n rd :
  r rd = a ++ rest -> Z.of_nat (length a) = n -> ReadFull n rd = (a, None, with_r rest rd).
Proof.
  intros E <-. unfold ReadFull. rewrite E. destruct (_ <=? _) eqn:El; [|apply Z.leb_gt in El; rewrite length_app in El; lia].
  by rewrite Nat2Z.id, take_app_length, drop_app_length.
Qed.

Lemma ReadFull_inv n rd got rd' :
  0 <= n -> ReadFull n rd = (got, None, rd') ->
  exists rest, r rd = got ++ rest /\ Z.of_nat (length got) = n /\ rd' = with_r rest rd.
Proof.
  intros Hn. unfold ReadFull. destruct (_ <=? _) eqn:El; [|done]. intros [= <- <-].
  exists (drop (Z.to_nat n) (r rd)). rewrite take_drop, length_take. split_and!; [done|lia|done].
Qed.

Lemma reading_app (a rest : bytes) n rd :
  r rd = a ++ rest -> Z.of_nat (length a) = n ->
  reading full n rd = (Datatypes.inr a, with_r rest rd) /\ reading midFull n rd = (Datatypes.inr a, with_r rest rd).
Proof.
  intros E Hn. unfold reading, midFull, full. by rewrite (ReadFull_app a rest).
Qed.

Lemma reading_full_inv n rd got rd' :
  0 <= n -> reading full n rd = (Datatypes.inr got, rd') ->
  exists rest, r rd = got ++ rest /\ Z.of_nat (length got) = n /\ rd' = with_r rest rd.
Proof.
  intros Hn H. unfold reading, full in H. destruct (ReadFull n rd) as [[g [e|]] rd1] eqn:E; [done|].
  apply ReadFull_inv in E; [|done]. by injection H as <- <-.
Qed.

Lemma reading_mid_inv n rd got rd' :
  0 <= n -> reading midFull n rd = (Datatypes.inr got, rd') ->
  exists rest, r rd = got ++ rest /\ Z.of_nat (length got) = n /\ rd' = with_r rest rd.
Proof.
  intros Hn H. unfold reading, midFull, full in H. destruct (ReadFull n rd) as [[g [e|]] rd1] eqn:E; [done|].
  apply ReadFull_inv in E; [|done]. by injection H as <- <-.
Qed.

(** ** Header bytes *)

Lemma byte_fields b :
  exists x y, 0 <= y < 8 /\ Z.land (bz b) 0x70 = 16 * y /\ 0 <= Z.land (bz b) 0x0f < 16 /\
    0 <= Z.land (bz b) 0x7f < 128 /\ (x = 0 \/ x = 1) /\ Z.land (bz b) 0x80 = 128 * x /\
    bz b = 128 * x + 16 * y + Z.land (bz b) 0x0f /\ bz b = 128 * x + Z.land (bz b) 0x7f.
Proof.
  exists (bz b / 128), (bz b / 16 mod 8). destruct b; vm_compute; intuition congruence.
Qed.

Lemma header_byte fin rsv op :
  0 <= rsv < 8 -> 0 <= op < 16 ->
  let b := zb (128 * Z.b2z fin + 16 * rsv + op) in
  negb (Z.land (bz b) 0x80 =? 0) = fin /\ Z.land (bz b) 0x70 = 16 * rsv /\ Z.land (bz b) 0x0f = op.
Proof.
  intros Hr Ho b. assert (Hb : bz b = 128 * Z.b2z fin + 16 * rsv + op).
  { apply bz_zb_small. destruct fin; cbn [Z.b2z]; lia. }
  clearbody b.
  destruct (byte_fields b) as (x & y & Hy & E1 & H2 & _ & Hx & E3 & E4 & _).
  destruct fin; cbn [Z.b2z] in Hb.
  - assert (x = 1 /\ y = rsv /\ Z.land (bz b) 0x0f = op) as (-> & -> & ->) by lia. rewrite E3. split_and!; [done|lia|done].
  - assert (x = 0 /\ y = rsv /\ Z.land (bz b) 0x0f = op) as (-> & -> & ->) by lia. rewrite E3. split_and!; [done|lia|done].
Qed.

Lemma header_byte_inv b :
  Z.land (bz b) 0x70 = 0 ->
  b = zb (128 * Z.b2z (negb (Z.land (bz b) 0x80 =? 0)) + 16 * 0 + Z.land (bz b) 0x0f).
Proof.
  intros E. destruct (byte_fields b) as (x & y & Hy & E1 & H2 & _ & Hx & E3 & E4 & _).
  rewrite <- (zb_bz b) at 1. f_equal. rewrite E3. destruct Hx as [->| ->].
  - change (negb (128 * 0 =? 0)) with false. cbn [Z.b2z]. lia.
  - change (negb (128 * 1 =? 0)) with true. cbn [Z.b2z]. lia.
Qed.

Lemma length_byte n :
  0 <= n < 128 -> negb (Z.land (bz (zb (128 + n))) 0x80 =? 0) = true /\ Z.land (bz (zb (128 + n))) 0x7f = n.
Proof.
  intros Hn. assert (Hb : bz (zb (128 + n)) = 128 + n) by (apply bz_zb_small; lia).
  destruct (byte_fields (zb (128 + n))) as (x & y & _ & _ & _ & H1 & Hx & E3 & _ & E5).
  assert (x = 1 /\ Z.land (bz (zb (128 + n))) 0x7f = n) as [-> ->] by lia. by rewrite E3.
Qed.

Lemma length_byte_inv b :
  negb (Z.land (bz b) 0x80 =? 0) = true ->
  0 <= Z.land (bz b) 0x7f < 128 /\ b = zb (128 + Z.land (bz b) 0x7f).
Proof.
  intros E. destruct (byte_fields b) as (x & y & _ & _ & _ & H1 & Hx & E3 & _ & E5).
  split; [done|]. rewrite <- (zb_bz b) at 1. f_equal. rewrite E3 in E. destruct Hx as [->| ->]; [done|lia].
Qed.

(** ** Lengths *)

Lemma be_val_small n z : 0 <= z < 256 ^ Z.of_nat n -> be_val (be_bytes n z) = z.
Proof. intros H. rewrite be_val_bytes. by apply Z.mod_small. Qed.

Lemma high_bit v : 0 <= v < 2 ^ 64 -> (Z.land v (Z.shiftl 1 63) =? 0) = (v <? 2 ^ 63).
Proof.
  intros Hv. assert (E : Z.land v (Z.shiftl 1 63) = v / 2 ^ 63 * 2 ^ 63).
  { rewrite <- Z.shiftr_div_pow2, <- Z.shiftl_mul_pow2 by lia. apply Z.bits_inj'. intros n Hn.
    rewrite Z.land_spec, !Z.shiftl_spec by lia. destruct (Z.eq_dec n 63) as [->|].
    - rewrite Z.shiftr_spec by lia. cbn. by rewrite andb_true_r.
    - destruct (Z_lt_ge_dec n 63).
      + rewrite !(Z.testbit_neg_r _ (n - 63)) by lia. apply andb_false_r.
      + rewrite Z.shiftr_spec by lia. replace (n - 63 + 63) with n by lia.
        rewrite (Z.bits_above_log2 v n); [done|lia|].
        destruct (Z.eq_dec v 0) as [->|]; [cbn; lia|]. apply Z.log2_lt_pow2; [lia|].
        pose proof (Z.pow_le_mono_r 2 64 n). lia. }
  rewrite E. destruct (v <? 2 ^ 63) eqn:Ev.
  - rewrite Z.div_small by lia. done.
  - assert (v / 2 ^ 63 = 1) as -> by (Z.to_euclidean_division_equations; lia). done.
Qed.

Lemma len7_range n : 0 <= n -> 0 <= len7 n < 128.
Proof. unfold len7. repeat case_match; lia. Qed.

Lemma read_length_app n rest rd :
  0 <= n < 2 ^ 63 -> r rd = length_ext n ++ rest ->
  read_length (len7 n) rd = (Datatypes.inr n, with_r rest rd).
Proof.
  intros Hn E. unfold read_length, len7, length_ext in *.
  destruct (n <=? 125) eqn:E1.
  { destruct (n =? 126) eqn:E2; [lia|]. destruct (n =? 127) eqn:E3; [lia|]. destruct rd; cbn in E; by subst. }
  destruct (n <=? 0xffff) eqn:E2.
  - rewrite Z.eqb_refl. erewrite bind_ok; [|eapply reading_app; [exact E|by rewrite be_bytes_length]].
    rewrite be_val_small, E1 by (cbn; lia). done.
  - change (127 =? 126) with false. rewrite Z.eqb_refl. cbn iota.
    erewrite bind_ok; [|eapply reading_app; [exact E|by rewrite be_bytes_length]].
    rewrite be_val_small by (cbn; lia). rewrite high_bit by lia.
    destruct (n <? 2 ^ 63) eqn:E3; [|lia]. cbn [negb]. rewrite (bind_ok _ _ _ _ _ (reject_false _ _ _)), E2.
    rewrite (bind_ok _ _ _ _ _ (reject_false _ _ _)). unfold ret. rewrite int64_small; [done|]. unfold is_int64. lia.
Qed.

Lemma read_length_inv l7 n rd rd' :
  0 <= l7 < 128 -> read_length l7 rd = (Datatypes.inr n, rd') ->
  0 <= n < 2 ^ 63 /\ l7 = len7 n /\ exists rest, r rd = length_ext n ++ rest /\ rd' = with_r rest rd.
Proof.
  intros Hl H. unfold read_length in H. destruct (l7 =? 126) eqn:E1; [|destruct (l7 =? 127) eqn:E2].
  - step_in H. step_in H. injection H as <- <-.
    apply reading_mid_inv in Hm as (rest & Er & Hlen & ->); [|lia].
    pose proof (be_val_bound a) as Hb. rewrite Hlen in Hb. change (256 ^ 2) with 65536 in Hb.
    unfold len7, length_ext. rewrite Hm0. destruct (_ <=? 0xffff) eqn:E3; [|lia]. split_and!; [lia..|].
    exists rest. split; [|done]. rewrite Er. f_equal. symmetry. apply be_bytes_val. lia.
  - do 3 step_in H. injection H as <- <-.
    apply reading_mid_inv in Hm as (rest & Er & Hlen & ->); [|lia].
    pose proof (be_val_bound a) as Hb. rewrite Hlen in Hb. change (256 ^ 8) with (2 ^ 64) in Hb.
    rewrite high_bit in Hm0 by done. rewrite int64_small by (unfold is_int64; lia).
    unfold len7, length_ext. rewrite Hm1. destruct (_ <=? 125) eqn:E3; [lia|]. split_and!; [lia..|].
    exists rest. split; [|done]. rewrite Er. f_equal. symmetry. apply be_bytes_val. lia.
  - injection H as <- <-. unfold len7, length_ext. destruct (l7 <=? 125) eqn:E3; [|lia]. split_and!; [lia..|].
    exists (r rd). split; [done|]. by destruct rd.
Qed.

End FrameSpec.
