(* ===== verification/FrameFacts.v ===== *)
(** * FrameFacts: the reader implements the protocol

    [Next] against the abstract protocol of FrameSpec: it returns exactly the
    messages the frames on the stream make up, fails with the status the
    protocol asks for, and keeps its place when the stream pauses between
    frames. *)

From S2P Require Import Prelude.
From S2P Require Import GoLib.
From S2P Require Import Utf8.
From S2P Require Import Frame.
From S2P Require Import FrameMask.
From S2P Require Import FrameText.
From S2P Require Import FrameSpec.

Module FrameFacts.
Import Utf8.Utf8 Frame.Frame FrameMask.FrameMask FrameText.FrameText FrameSpec.FrameSpec.

(** ** Payloads *)

Lemma grow_read_app (p rest q key : bytes) n done rd :
  length key = 4%nat -> 0 <= done -> partial rd = Some q ->
  r rd = xor_key key (Z.to_nat done) p ++ rest -> Z.of_nat (length p) = n ->
  grow_read n key done rd =
    (Datatypes.inr tt, with_r rest (with_message (Some (q ++ p)) (partialOp rd) (utfOK rd) rd)).
Proof.
  intros Hk Hd Hq Hr Hn. unfold grow_read, midFull, full.
  rewrite (ReadFull_app _ _ n rd Hr) by (by rewrite xor_key_length).
  rewrite <- (Z2Nat.id done Hd), mask_xor_key, Z2Nat.id, xor_key_twice by done.
  unfold buf. by rewrite Hq.
Qed.

Lemma allocChunk_val : allocChunk = 32768.
Proof. done. Qed.

Definition bad_text (op : Z) (data : bytes) : bool := (op =? OpText) && negb (viableb data).

(** Reading the payload [p] onto [q], with [rest] left on the stream. *)
Definition appended (p rest q : bytes) (rd : Reader) (res : (error + unit) * Reader) : Prop :=
  if bad_text (partialOp rd) (q ++ p) then
    exists reason rd', res = (Datatypes.inl (ProtocolError CloseInvalidPayload reason), rd')
  else
    exists u, res = (Datatypes.inr tt, with_r rest (with_message (Some (q ++ p)) (partialOp rd) u rd)) /\
      (partialOp rd = OpText -> (u <= length (q ++ p))%nat /\ utf8 (take u (q ++ p))).

Lemma append_done q rd :
  partial rd = Some q -> (partialOp rd = OpText -> checked rd /\ viable q) ->
  appended [] (r rd) q rd (Datatypes.inr tt, rd).
Proof.
  intros Hq Ht. unfold appended, bad_text. rewrite app_nil_r.
  assert (Eb : buf rd = q) by (unfold buf; by rewrite Hq).
  assert (Erd : rd = with_r (r rd) (with_message (Some q) (partialOp rd) (utfOK rd) rd)) by (destruct rd; cbn in *; by subst).
  destruct (partialOp rd =? OpText) eqn:Et; cbn [andb].
  - apply Z.eqb_eq in Et. destruct (Ht Et) as [[Hc1 Hc2] Hv]. rewrite (proj2 (viableb_viable q) Hv). cbn [negb].
    exists (utfOK rd). split; [by rewrite <- Erd|]. rewrite <- Eb. done.
  - apply Z.eqb_neq in Et. exists (utfOK rd). split; [by rewrite <- Erd|done].
Qed.

Lemma append_loop_app fuel length done key : forall (p rest q : bytes) rd,
  List.length key = 4%nat -> 0 <= done -> partial rd = Some q ->
  r rd = xor_key key (Z.to_nat done) p ++ rest -> Z.of_nat (List.length p) = length - done ->
  length - done <= Z.of_nat fuel * allocChunk ->
  (partialOp rd = OpText -> checked rd /\ viable q) ->
  appended p rest q rd (append_loop fuel length done key rd).
Proof.
  revert done. induction fuel as [|fuel IH]; intros done p rest q rd Hk Hd Hq Hr Hn Hf Ht.
  all: assert (Hdone : p = [] -> appended p rest q rd (Datatypes.inr tt, rd))
    by (intros ->; cbn in Hr; subst rest; by apply append_done).
  - cbn [append_loop]. destruct (done <? length) eqn:El; [lia|].
    apply Hdone. destruct p; [done|]. cbn in *. lia.
  - cbn [append_loop]. destruct (done <? length) eqn:El.
    2: { apply Hdone. destruct p; [done|]. cbn in *. lia. }
    clear Hdone. set (n := Z.min (length - done) allocChunk).
    assert (Hn0 : 0 < n <= length - done) by (unfold n; rewrite allocChunk_val; lia).
    set (p1 := take (Z.to_nat n) p). set (p2 := drop (Z.to_nat n) p).
    assert (Ep : p = p1 ++ p2) by (unfold p1, p2; by rewrite take_drop).
    assert (Hl1 : Z.of_nat (List.length p1) = n) by (unfold p1; rewrite length_take; lia).
    clearbody p1 p2. subst p. rewrite length_app in Hn. rewrite xor_key_app, <- app_assoc in Hr.
    rewrite (bind_ok _ _ _ _ _ (grow_read_app _ _ _ _ n done rd Hk Hd Hq Hr Hl1)).
    set (rd1 := with_r _ _). assert (E1 : buf rd1 = q ++ p1) by done.
    rewrite (bind_ok (get partialOp) _ rd1 (partialOp rd) rd1 eq_refl).
    assert (Hr1 : r rd1 = xor_key key (Z.to_nat (done + n)) p2 ++ rest).
    { cbn. do 2 f_equal. lia. }
    assert (Hf1 : length - (done + n) <= Z.of_nat fuel * allocChunk).
    { unfold n. rewrite allocChunk_val in *. lia. }
    assert (Happ : forall rd' res, partialOp rd' = partialOp rd ->
      (forall u, with_r rest (with_message (Some ((q ++ p1) ++ p2)) (partialOp rd) u rd') =
                 with_r rest (with_message (Some ((q ++ p1) ++ p2)) (partialOp rd) u rd)) ->
      appended p2 rest (q ++ p1) rd' res -> appended (p1 ++ p2) rest q rd res).
    { intros rd' res Eo Eu. unfold appended. rewrite Eo, app_assoc. destruct (bad_text _ _); [done|].
      setoid_rewrite Eu. done. }
    destruct (partialOp rd =? OpText) eqn:Et.
    + apply Z.eqb_eq in Et. destruct (Ht Et) as [[Hc1 Hc2] Hv].
      assert (Hck : checked rd1).
      { split; cbn [utfOK rd1 with_r with_message]; rewrite E1.
        - unfold buf in Hc1. rewrite Hq in Hc1. rewrite length_app. cbn in Hc1. lia.
        - unfold buf in Hc1, Hc2. rewrite Hq in Hc1, Hc2. by rewrite take_app_le. }
      destruct (viable_dec (q ++ p1)) as [Hv1|Hv1].
      * destruct (validateChunk_viable rd1 Hck Hv1) as (cut & Hcut & Hck').
        rewrite (bind_ok _ _ _ _ _ Hcut).
        apply (Happ (with_utfOK cut rd1)); [done..|]. apply (IH (done + n) p2 rest (q ++ p1) (with_utfOK cut rd1) Hk ltac:(lia) eq_refl Hr1 ltac:(lia) Hf1
          (fun _ => conj Hck' Hv1)).
      * destruct (validateChunk_not_viable rd1 Hck Hv1) as (reason & Hbad).
        unfold appended, bad_text. rewrite Et, app_assoc. change (OpText =? OpText) with true. cbn [andb].
        destruct (viableb ((q ++ p1) ++ p2)) eqn:Evb.
        { destruct Hv1. apply viableb_viable in Evb. by eapply viable_prefix. }
        exists reason, rd1. by rewrite (bind_err _ _ _ _ _ Hbad).
    + apply Z.eqb_neq in Et. rewrite (bind_ok (ret tt) _ rd1 tt rd1 eq_refl).
      apply (Happ rd1); [done..|].
      exact (IH (done + n) p2 rest (q ++ p1) rd1 Hk ltac:(lia) eq_refl Hr1 ltac:(lia) Hf1 (fun H => False_ind _ (Et H))).
Qed.

Lemma appendPayload_app key (p rest q : bytes) rd :
  length key = 4%nat -> partial rd = Some q -> r rd = xor_key key 0 p ++ rest ->
  (partialOp rd = OpText -> checked rd /\ viable q) ->
  appended p rest q rd (appendPayload (Z.of_nat (length p)) key rd).
Proof.
  intros Hk Hq Hr Ht. apply append_loop_app; try done; try lia.
  rewrite allocChunk_val, Nat2Z.inj_succ, Z2Nat.id by (apply Z.div_pos; lia).
  pose proof (Z.mul_succ_div_gt (Z.of_nat (length p)) 32768). lia.
Qed.

(** ** One frame *)

(** What stays: the caps, the callback, the stream's end, and whether the
    parse position is lost. *)
Definition same (rd rd' : Reader) : Prop :=
  r_err rd' = r_err rd /\ OnFrameHeader rd' = OnFrameHeader rd /\ maxMessage rd' = maxMessage rd /\
  maxFragments rd' = maxFragments rd /\ dirty rd' = dirty rd.

(** A round of the loop ends as the protocol says, with [rest] left. *)
Definition meets (rd : Reader) (rest : bytes) (o : outcome) (res : (error + option Message) * Reader) : Prop :=
  match o with
  | Fail code => exists reason rd', res = (Datatypes.inl (ProtocolError code reason), rd')
  | Deliver m s => exists rd', res = (Datatypes.inr (Some m), rd') /\ r rd' = rest /\ holds rd' s /\ same rd rd'
  | Wait s => exists rd', res = (Datatypes.inr None, rd') /\ r rd' = rest /\ holds rd' s /\ same rd rd'
  end.

Lemma meets_reject {A} (f : A -> M (option Message)) rd0 rest code reason (m : M A) rd rd' :
  m rd = (Datatypes.inl (ProtocolError code reason), rd') -> meets rd0 rest (Fail code) ((m ≫= f) rd).
Proof. intros H. exists reason, rd'. by apply bind_err. Qed.

Lemma validateClose_status p :
  match close_status p with
  | Some code => exists reason, validateClose p = Some (ProtocolError code reason)
  | None => validateClose p = None
  end.
Proof.
  destruct p as [|c1 [|c2 reason]]; [done|by eexists|]. unfold close_status, validateClose, validReceivedCloseCode.
  change (take 2 (c1 :: c2 :: reason)) with [c1; c2]. change (drop 2 (c1 :: c2 :: reason)) with reason.
  assert (be_val [c1; c2] = 256 * bz c1 + bz c2) as -> by (cbn; lia).
  set (code := 256 * bz c1 + bz c2).
  destruct ((1000 <=? code) && (code <=? 1003)); cbn [orb negb];
    [|destruct ((1007 <=? code) && (code <=? 1014)); cbn [orb negb];
      [|destruct ((3000 <=? code) && (code <=? 4999)); cbn [orb negb]; [|by eexists]]];
    (destruct (utf8_Valid reason); cbn [negb]; [done|by eexists]).
Qed.

Lemma read_control_meets rd0 rd s op key (p rest : bytes) :
  length key = 4%nat -> r rd = xor_key key 0 p ++ rest -> holds rd s -> same rd0 rd ->
  meets rd0 rest
    (match (if op =? 8 then close_status p else None) with
     | Some code => Fail code
     | None => Deliver (mkMessage op p) s
     end)
    (read_control op (Z.of_nat (length p)) key rd).
Proof.
  intros Hk Hr Hs Hsame. unfold read_control.
  erewrite bind_ok; [|eapply reading_app; [exact Hr|by rewrite xor_key_length]].
  change 0 with (Z.of_nat 0). rewrite mask_xor_key, xor_key_twice by done.
  change OpClose with 8. destruct (op =? 8).
  - pose proof (validateClose_status p) as Hv. destruct (close_status p) as [code|].
    + destruct Hv as [reason ->]. by eexists _, _.
    + rewrite Hv. eexists. split_and!; [done|done|exact Hs|exact Hsame].
  - eexists. split_and!; [done|done|exact Hs|exact Hsame].
Qed.

(** The checked part of a text needs no second look. *)
Lemma Valid_drop u d : utf8 (take u d) -> utf8_Valid (drop u d) = utf8_Valid d.
Proof.
  intros Hu. apply Bool.eq_iff_eq_true. rewrite !Valid_utf8. rewrite <- (take_drop u d) at 2.
  split; [by apply utf8_app|by apply utf8_drop].
Qed.

(** The rest of a data frame, onto the message [q] of [n] frames. *)
Lemma payload_meets rd0 rd fin op key (p q rest : bytes) n :
  length key = 4%nat -> r rd = xor_key key 0 p ++ rest -> same rd0 rd ->
  (op = OpContinuation -> partial rd = Some q /\ (partialOp rd = OpText -> checked rd /\ viable q)) ->
  (op <> OpContinuation -> q = []) -> frags rd = n ->
  let mop := if op =? OpContinuation then partialOp rd else op in
  meets rd0 rest
    (if fin : bool then
       if (mop =? 1) && negb (utf8_Valid (q ++ p)) then Fail 1007 else Deliver (mkMessage mop (q ++ p)) None
     else
       if (mop =? 1) && negb (viableb (q ++ p)) then Fail 1007 else Wait (Some (mkAssembly mop (q ++ p) n)))
    (read_data fin op (Z.of_nat (length p)) key rd).
Proof.
  intros Hk Hr Hsame Hcont Hnew Hn mop. unfold read_data.
  set (rd1 := if op =? OpContinuation then rd else with_message (Some []) op 0 rd).
  rewrite (bind_ok _ _ rd tt rd1) by (unfold rd1; by destruct (op =? OpContinuation)).
  assert (H1 : r rd1 = r rd /\ partial rd1 = Some q /\ partialOp rd1 = mop /\ frags rd1 = n /\ same rd0 rd1 /\
               (mop = OpText -> checked rd1 /\ viable q)).
  { unfold rd1, mop in *. destruct (op =? OpContinuation) eqn:Eop.
    - apply Z.eqb_eq in Eop. by destruct (Hcont Eop).
    - apply Z.eqb_neq in Eop. rewrite (Hnew Eop). split_and!; try done. intros _.
      split; [|apply utf8_viable; constructor]. split; [cbn; lia|]. constructor. }
  clearbody rd1. destruct H1 as (Er & Hq & Hop & Hfr & Hsm & Ht). rewrite <- Er in Hr. rewrite <- Hop in Ht.
  pose proof (appendPayload_app key p rest q rd1 Hk Hq Hr Ht) as Ha. unfold appended, bad_text in Ha.
  rewrite Hop in Ha, Ht. change OpText with 1 in Ha, Ht.
  assert (Hbad : (mop =? 1) && negb (viableb (q ++ p)) = true -> (mop =? 1) && negb (utf8_Valid (q ++ p)) = true).
  { intros [-> Hb]%andb_true_iff. destruct (utf8_Valid (q ++ p)) eqn:E; [|done].
    apply Valid_utf8, utf8_viable, viableb_viable in E. by rewrite E in Hb. }
  destruct ((mop =? 1) && negb (viableb (q ++ p))) eqn:Eb.
  { destruct Ha as (reason & rd' & E). rewrite (Hbad eq_refl).
    assert (Hf : forall f : unit -> M (option Message), meets rd0 rest (Fail 1007) ((appendPayload (Z.of_nat (length p)) key ≫= f) rd1)).
    { intros f. by eapply meets_reject. }
    destruct fin; apply Hf. }
  destruct Ha as (u & E & Hu). rewrite (bind_ok _ _ _ _ _ E). set (rd2 := with_r _ _).
  assert (Hsm2 : same rd0 rd2) by exact Hsm. destruct fin; cbn [negb].
  - rewrite (bind_ok (get _) _ rd2 (mkMessage mop (q ++ p)) rd2 eq_refl).
    rewrite (bind_ok (get utfOK) _ rd2 u rd2 eq_refl).
    erewrite (bind_ok (modify _) _ rd2); [|done]. cbn [Opcode Payload]. change OpText with 1.
    assert (Ev : (mop =? 1) && negb (utf8_Valid (drop u (q ++ p))) = (mop =? 1) && negb (utf8_Valid (q ++ p))).
    { destruct (mop =? 1) eqn:Em; [|done]. apply Z.eqb_eq in Em. cbn [andb]. f_equal. apply Valid_drop. by apply Hu. }
    rewrite Ev. destruct ((mop =? 1) && negb (utf8_Valid (q ++ p))).
    + by eapply meets_reject.
    + rewrite (bind_ok _ _ _ _ _ (reject_false _ _ _)). eexists. split_and!; [done..|exact Hsm2].
  - exists rd2. split_and!; [done..| |exact Hsm2]. unfold holds. split_and!; try done.
    intros Et. destruct (Hu Et). split; [by split|]. cbn [a_op] in Et. rewrite Et in Eb.
    apply viableb_viable. cbn [a_data]. by destruct (viableb (q ++ p)).
Qed.

Lemma control_bit op : 0 <= op < 16 -> negb (Z.land op 0x8 =? 0) = (8 <=? op).
Proof.
  intros H. assert (Hb : forall b, bz b < 16 -> negb (Z.land (bz b) 0x8 =? 0) = (8 <=? bz b)).
  { intros b. by destruct b. }
  specialize (Hb (zb op)). rewrite bz_zb_small in Hb by lia. apply Hb. lia.
Qed.

Lemma control_meets rd0 rd s f rest :
  wf_frame f -> 8 <= f_op f -> r rd = f_key f ++ xor_key (f_key f) 0 (f_payload f) ++ rest ->
  holds rd s -> same rd0 rd ->
  meets rd0 rest (accept_control s f)
    ((check_control (f_fin f) (f_op f) (f_len f);;
      key ← reading midFull 4; read_control (f_op f) (f_len f) key) rd).
Proof.
  intros Hwf Hop Hr Hs Hsame. unfold accept_control, check_control. destruct (f_fin f); cbn [negb orb].
  2: { by eapply meets_reject. }
  destruct (125 <? f_len f); cbn [orb]; [by eapply meets_reject|].
  assert (Eo : negb ((f_op f =? OpClose) || (f_op f =? OpPing) || (f_op f =? OpPong)) = (10 <? f_op f)).
  { unfold OpClose, OpPing, OpPong. lia. }
  rewrite Eo. destruct (10 <? f_op f); [by eapply meets_reject|].
  erewrite (bind_ok _ _ rd tt rd) by done.
  erewrite bind_ok; [|eapply reading_app; [exact Hr|by rewrite (wf_key f Hwf)]].
  unfold f_len. by apply read_control_meets; [apply Hwf|..].
Qed.

(** A data frame that fits the message in progress, checked against the
    caps. *)
Lemma check_data_fits op n rd :
  (if MessageInProgress rd then op = OpContinuation else op = OpText \/ op = OpBinary) ->
  check_data op n rd =
    if maxMessage rd - Z.of_nat (length (buf rd)) <? n then
      (Datatypes.inl (ProtocolError CloseTooBig "message exceeds the maximum size"), rd)
    else if maxFragments rd <? frags rd + 1 then
      (Datatypes.inl (ProtocolError CloseTooBig "message split into too many fragments"), with_frags (frags rd + 1) rd)
    else (Datatypes.inr tt, with_frags (frags rd + 1) rd).
Proof.
  intros H. unfold check_data. rewrite (bind_ok (get _) _ rd (MessageInProgress rd) rd eq_refl).
  rewrite (bind_ok _ _ rd tt rd) by (destruct (MessageInProgress rd); [by subst|by destruct H as [-> | ->]]).
  rewrite (bind_ok (get _) _ rd _ rd eq_refl). destruct (_ <? n); [done|].
  rewrite (bind_ok _ _ _ _ _ (reject_false _ _ _)). erewrite (bind_ok (modify _)) by done.
  erewrite (bind_ok (get _)) by done. cbn beta. change (maxFragments (with_frags (frags rd + 1) rd)) with (maxFragments rd).
  change (frags (with_frags (frags rd + 1) rd)) with (frags rd + 1). by destruct (_ <? _).
Qed.

Lemma check_data_misfits op n rd :
  (if MessageInProgress rd then op <> OpContinuation else op <> OpText /\ op <> OpBinary) ->
  exists reason, check_data op n rd = (Datatypes.inl (ProtocolError CloseProtocolError reason), rd).
Proof.
  intros H. unfold check_data. rewrite (bind_ok (get _) _ rd (MessageInProgress rd) rd eq_refl).
  assert (Hx : exists reason, (if op =? OpContinuation then reject (negb (MessageInProgress rd)) CloseProtocolError "continuation with no message in progress"
     else if (op =? OpText) || (op =? OpBinary) then
       reject (MessageInProgress rd) CloseProtocolError "new data frame inside a fragmented message"
     else protocol CloseProtocolError "reserved data opcode") rd = (Datatypes.inl (ProtocolError CloseProtocolError reason), rd)).
  { destruct (MessageInProgress rd).
    - apply Z.eqb_neq in H as ->. destruct (_ || _); by eexists.
    - destruct (op =? OpContinuation); [by eexists|]. destruct H as [H1%Z.eqb_neq H2%Z.eqb_neq].
      rewrite H1, H2. by eexists. }
  destruct Hx as [reason Hx]. exists reason. by apply bind_err.
Qed.

Lemma data_fits_meets rd0 rd s a f rest :
  wf_frame f -> r rd = f_key f ++ xor_key (f_key f) 0 (f_payload f) ++ rest -> holds rd s -> same rd0 rd ->
  s = Some a /\ f_op f = OpContinuation \/
    s = None /\ (f_op f = OpText \/ f_op f = OpBinary) /\ a = mkAssembly (f_op f) [] 0 ->
  meets rd0 rest (accept_data (maxMessage rd) (maxFragments rd) a f)
    ((check_data (f_op f) (f_len f);; key ← reading midFull 4; read_data (f_fin f) (f_op f) (f_len f) key) rd).
Proof.
  intros Hwf Hr Hs Hsame Hfit.
  assert (Hin : MessageInProgress rd = match s with Some _ => true | None => false end).
  { unfold MessageInProgress. destruct s; destruct Hs as [-> _]; done. }
  assert (Ha : buf rd = a_data a /\ frags rd = a_frames a /\
    (if MessageInProgress rd then f_op f = OpContinuation else f_op f = OpText \/ f_op f = OpBinary)).
  { unfold buf. rewrite Hin. destruct Hfit as [[-> Ho]|(-> & Ho & ->)].
    - by destruct Hs as (-> & _ & -> & _).
    - by destruct Hs as (-> & ->). }
  destruct Ha as (Eb & Ef & Hop). unfold accept_data.
  assert (El : (maxMessage rd <? Z.of_nat (length (a_data a ++ f_payload f))) =
               (maxMessage rd - Z.of_nat (length (buf rd)) <? f_len f)).
  { rewrite Eb, length_app. unfold f_len. apply Bool.eq_iff_eq_true. rewrite !Z.ltb_lt. lia. }
  rewrite El. pose proof (check_data_fits (f_op f) (f_len f) rd Hop) as Hc.
  destruct (_ <? f_len f); [by eapply meets_reject|]. rewrite <- Ef.
  destruct (maxFragments rd <? frags rd + 1); [by eapply meets_reject|].
  rewrite (bind_ok _ _ _ _ _ Hc).
  erewrite bind_ok; [|eapply reading_app; [exact Hr|by rewrite (wf_key f Hwf)]].
  set (rd1 := with_r _ _). unfold f_len.
  assert (Em : (if f_op f =? OpContinuation then partialOp rd1 else f_op f) = a_op a).
  { destruct Hfit as [[-> Ho]|(-> & Ho & ->)].
    - rewrite Ho. by destruct Hs as (_ & Hs & _).
    - by destruct Ho as [-> | ->]. }
  pose proof (payload_meets rd0 rd1 (f_fin f) (f_op f) (f_key f) (f_payload f) (a_data a) rest (frags rd + 1)
    (wf_key f Hwf) eq_refl Hsame) as Hp. cbn beta zeta in Hp. rewrite Em in Hp. apply Hp; [..|done].
  - intros Ho. destruct Hfit as [[-> _]|(_ & [E|E] & _)]; [|rewrite E in Ho; done..].
    destruct Hs as (Hs1 & Hs2 & _ & Hs4). split; [done|]. change (partialOp rd1) with (partialOp rd). rewrite Hs2. exact Hs4.
  - intros Ho. destruct Hfit as [[_ E]|(_ & _ & ->)]; done.
Qed.

Lemma step_meets rd s f rest :
  holds rd s -> wf_frame f -> r rd = encode f ++ rest ->
  meets rd rest (accept (maxMessage rd) (maxFragments rd) s f) (frame_step rd).
Proof.
  intros Hs Hwf Hr. unfold encode in Hr. rewrite <- !app_assoc in Hr. unfold frame_step.
  erewrite bind_ok; [|eapply reading_app; [exact Hr|done]]. unfold frame_body. erewrite (bind_ok (modify _)) by done.
  set (rd1 := if OnFrameHeader _ then _ else _).
  assert (H1 : r rd1 = length_ext (f_len f) ++ f_key f ++ xor_key (f_key f) 0 (f_payload f) ++ rest /\
               holds rd1 s /\ same rd rd1).
  { unfold rd1. destruct (OnFrameHeader _); (split; [done|]; split; [exact Hs|done]). }
  clearbody rd1. destruct H1 as (Hr1 & Hs1 & Hsame).
  replace (maxMessage rd) with (maxMessage rd1) by apply Hsame.
  replace (maxFragments rd) with (maxFragments rd1) by apply Hsame.
  cbn [lookup list_lookup byte_and]. pose proof (wf_rsv f Hwf) as Hrsv. pose proof (wf_op f Hwf) as Hop.
  destruct (header_byte (f_fin f) (f_rsv f) (f_op f) Hrsv Hop) as (-> & -> & ->).
  unfold accept. assert (Er : (16 * f_rsv f =? 0) = (f_rsv f =? 0)) by lia. rewrite Er.
  destruct (f_rsv f =? 0); cbn [negb]; [|by eapply meets_reject].
  rewrite (bind_ok _ _ _ _ _ (reject_false _ _ _)).
  assert (Hlen : 0 <= f_len f) by (unfold f_len; lia).
  destruct (length_byte (len7 (f_len f)) (len7_range _ Hlen)) as [-> ->]. cbn [negb].
  rewrite (bind_ok _ _ _ _ _ (reject_false _ _ _)).
  erewrite bind_ok; [|apply read_length_app; [split; [done|apply Hwf]|exact Hr1]].
  set (rd2 := with_r _ _). rewrite control_bit by done.
  change (maxMessage rd1) with (maxMessage rd2). change (maxFragments rd1) with (maxFragments rd2).
  destruct (8 <=? f_op f) eqn:Ec.
  { apply control_meets; [done|lia|done|exact Hs1|exact Hsame]. }
  destruct (f_op f =? 0) eqn:E0.
  - apply Z.eqb_eq in E0. destruct s as [a|].
    + apply (data_fits_meets rd rd2 (Some a)); [done|done|exact Hs1|exact Hsame|by left].
    + destruct (check_data_misfits (f_op f) (f_len f) rd2) as [reason E]; [|by eapply meets_reject].
      unfold MessageInProgress. destruct Hs1 as [Hp _]. change (partial rd2) with (partial rd1). rewrite Hp, E0. done.
  - apply Z.eqb_neq in E0. destruct s as [a|].
    + destruct (check_data_misfits (f_op f) (f_len f) rd2) as [reason E]; [|by eapply meets_reject].
      unfold MessageInProgress. destruct Hs1 as [Hp _]. change (partial rd2) with (partial rd1). by rewrite Hp.
    + destruct (2 <? f_op f) eqn:E2.
      * destruct (check_data_misfits (f_op f) (f_len f) rd2) as [reason E]; [|by eapply meets_reject].
        unfold MessageInProgress. destruct Hs1 as [Hp _]. change (partial rd2) with (partial rd1). rewrite Hp.
        unfold OpText, OpBinary. lia.
      * apply (data_fits_meets rd rd2 None); [done|done|exact Hs1|exact Hsame|].
        right. split; [done|]. split; [|done]. unfold OpText, OpBinary. lia.
Qed.

End FrameFacts.
