(* ===== verification/FrameNext.v ===== *)
(** * FrameNext: what [Next] returns

    The messages [Next] returns are exactly those that the frames on the
    stream make up; a reader that stopped between two frames can be resumed,
    one that stopped inside a frame says so; and the writer's frames are the
    ones a reader takes. *)

From S2P Require Import Prelude.
From S2P Require Import GoLib.
From S2P Require Import Utf8.
From S2P Require Import Frame.
From S2P Require Import FrameMask.
From S2P Require Import FrameText.
From S2P Require Import FrameSpec.
From S2P Require Import FrameFacts.

Module FrameNext.
Import Utf8.Utf8 Frame.Frame FrameMask.FrameMask FrameText.FrameText FrameSpec.FrameSpec FrameFacts.FrameFacts.

(** ** A round that succeeds has read one frame *)

(** [m], when it succeeds, takes [n] bytes off the stream. *)
Definition takes {A} (n : Z) (m : M A) : Prop := forall rd a rd',
  m rd = (Datatypes.inr a, rd') -> exists raw, r rd = raw ++ r rd' /\ Z.of_nat (length raw) = n.

Lemma takes_bind {A B} k n (m : M A) (f : A -> M B) :
  takes k m -> (forall a, takes (n - k) (f a)) -> takes n (m ≫= f).
Proof.
  intros Hm Hf rd b rd2 (a & rd1 & H1 & H2)%bind_inv.
  destruct (Hm _ _ _ H1) as (x & -> & Hx). destruct (Hf _ _ _ _ H2) as (y & -> & Hy).
  exists (x ++ y). rewrite length_app, app_assoc. split; [done|lia].
Qed.

Lemma takes_none {A} (m : M A) :
  (forall rd a rd', m rd = (Datatypes.inr a, rd') -> r rd' = r rd) -> takes 0 m.
Proof. intros H rd a rd' E. exists []. by rewrite (H _ _ _ E). Qed.

Lemma takes_pure {A B} n (m : M A) (f : A -> M B) :
  takes 0 m -> (forall a, takes n (f a)) -> takes n (m ≫= f).
Proof. intros Hm Hf. apply (takes_bind 0); [done|]. intros a. by rewrite Z.sub_0_r. Qed.

Lemma takes_ret {A} (a : A) : takes 0 (ret a).
Proof. apply takes_none. by intros ? ? ? [= <- <-]. Qed.
Lemma takes_fail {A} n e : takes n (@fail A e).
Proof. by intros ? ? ? [=]. Qed.
Lemma takes_reject bad code reason : takes 0 (reject bad code reason).
Proof. unfold reject, protocol. destruct bad; [apply takes_fail|apply takes_ret]. Qed.
Lemma takes_get {A} (f : Reader -> A) : takes 0 (get f).
Proof. apply takes_none. by intros ? ? ? [= <- <-]. Qed.
Lemma takes_modify f : (forall rd, r (f rd) = r rd) -> takes 0 (modify f).
Proof. intros H. apply takes_none. intros ? ? ? [= <- <-]. apply H. Qed.
Lemma takes_reading n : 0 <= n -> takes n (reading midFull n).
Proof. intros Hn rd a rd' (rest & E & Hl & ->)%reading_mid_inv; [|done]. by exists a. Qed.

#[local] Create HintDb takes.
#[local] Hint Resolve takes_pure takes_ret takes_fail takes_reject takes_get takes_modify takes_reading : takes.

Lemma takes_validateChunk : takes 0 validateChunk.
Proof. unfold validateChunk. eauto 10 with takes. Qed.

Lemma takes_grow_read n key done : 0 <= n -> takes n (grow_read n key done).
Proof.
  intros Hn rd a rd' H. unfold grow_read, midFull, full in H.
  destruct (ReadFull n rd) as [[g [e|]] rd1] eqn:E; [done|]. injection H as <- <-.
  apply ReadFull_inv in E as (rest & E & Hl & ->); [|done]. by exists g.
Qed.

Lemma takes_append_loop fuel length done key :
  0 <= done <= length -> takes (length - done) (append_loop fuel length done key).
Proof.
  revert done. induction fuel as [|fuel IH]; intros done Hd; cbn [append_loop];
    (destruct (done <? length) eqn:E; [|replace (length - done) with 0 by lia; apply takes_ret]).
  { apply takes_fail. }
  set (n := Z.min (length - done) allocChunk).
  assert (Hn : 0 <= n <= length - done) by (unfold n; rewrite allocChunk_val; lia).
  apply (takes_bind n); [apply takes_grow_read; lia|]. intros _.
  apply takes_pure; [apply takes_get|]. intros op. apply takes_pure.
  - destruct (op =? OpText); [apply takes_validateChunk|apply takes_ret].
  - intros _. replace (length - done - n) with (length - (done + n)) by lia. apply IH. lia.
Qed.

Lemma takes_read_control op n key : 0 <= n -> takes n (read_control op n key).
Proof.
  intros Hn. apply (takes_bind n); [by apply takes_reading|]. intros p. rewrite Z.sub_diag. cbv zeta.
  destruct (op =? OpClose); [destruct (validateClose (mask p key 0))|]; auto with takes.
Qed.

Lemma takes_read_data fin op n key : 0 <= n -> takes n (read_data fin op n key).
Proof.
  intros Hn. unfold read_data. apply takes_pure; [destruct (negb _); auto with takes|]. intros _.
  apply (takes_bind n).
  - unfold appendPayload. rewrite <- (Z.sub_0_r n) at 1. apply takes_append_loop. lia.
  - intros _. rewrite Z.sub_diag. destruct (negb fin); eauto 10 with takes.
Qed.

Lemma takes_check_data op n : takes 0 (check_data op n).
Proof.
  unfold check_data. apply takes_pure; [auto with takes|]. intros b.
  apply takes_pure; [destruct (op =? OpContinuation); [|destruct (_ || _)]; unfold protocol; auto with takes|].
  eauto 10 with takes.
Qed.

Lemma step_inv rd o rd' :
  frame_step rd = (Datatypes.inr o, rd') -> exists f, wf_frame f /\ r rd = encode f ++ r rd'.
Proof.
  unfold frame_step. intros H. step_in H. unfold frame_body in H.
  apply reading_full_inv in Hm as (rest & Er & Hl & ->); [|lia].
  destruct a as [|b0 [|b1 [|? ?]]]; cbn [length] in Hl; try lia. clear Hl.
  step_in H. step_in H. step_in H. cbn [lookup list_lookup byte_and] in *.
  apply negb_false_iff, Z.eqb_eq in Hm. apply negb_false_iff in Hm0.
  set (rd1 := if OnFrameHeader _ then _ else _) in H.
  assert (E1 : r rd1 = rest) by (unfold rd1; by destruct (OnFrameHeader _)). clearbody rd1.
  apply header_byte_inv in Hm as E0. apply length_byte_inv in Hm0 as [Hl7 Eb1].
  set (op := Z.land (bz b0) 0x0f) in *. set (l7 := Z.land (bz b1) 0x7f) in *.
  set (fin := negb (Z.land (bz b0) 0x80 =? 0)) in *.
  assert (Hop : 0 <= op < 16) by (destruct (byte_fields b0) as (? & ? & ?); unfold op; lia).
  clearbody op l7 fin. apply bind_inv in H as (n & rd2 & Hlen & H).
  apply read_length_inv in Hlen as (Hn & El & rest1 & Er1 & ->); [|done].
  apply bind_inv in H as (u & rd3 & Hcheck & H).
  assert (Et : exists x, rest1 = x ++ r rd3 /\ Z.of_nat (length x) = 0).
  { apply (fun T : takes 0 _ => T _ _ _ Hcheck). destruct (negb (Z.land op 8 =? 0)); [|apply takes_check_data].
    unfold check_control. auto with takes. }
  destruct Et as (x & -> & Hx). destruct x; [clear Hx|cbn in Hx; lia]. cbn [app] in *.
  apply bind_inv in H as (key & rd4 & Hkey & H).
  apply reading_mid_inv in Hkey as (rest2 & Er2 & Hk & ->); [|lia].
  assert (Et : exists x, rest2 = x ++ r rd' /\ Z.of_nat (length x) = n).
  { destruct (negb (Z.land op 8 =? 0)); [apply (takes_read_control _ _ _ (proj1 Hn) _ _ _ H)|apply (takes_read_data _ _ _ _ (proj1 Hn) _ _ _ H)]. }
  destruct Et as (x & -> & Hx).
  assert (Hp : Z.of_nat (length (xor_key key 0 x)) = n) by (by rewrite xor_key_length).
  exists (mkFrame fin 0 op key (xor_key key 0 x)). split.
  - split; unfold f_len; cbn; lia.
  - unfold encode, f_len. cbn [f_fin f_rsv f_op f_key f_payload]. rewrite Hp, xor_key_twice, <- E0, <- El, <- Eb1.
    rewrite <- !app_assoc, <- Er2, <- Er1, E1. done.
Qed.

(** ** Sequences of frames *)

Definition encode_all (fs : list frame) : bytes := concat (map encode fs).

Lemma encode_length f : (2 <= length (encode f))%nat.
Proof. unfold encode. rewrite length_app. cbn. lia. Qed.

Lemma encode_all_length fs : (length fs <= length (encode_all fs))%nat.
Proof.
  unfold encode_all. induction fs as [|f fs IH]; [done|]. cbn [map concat length]. rewrite length_app.
  pose proof (encode_length f). lia.
Qed.

Lemma same_refl rd : same rd rd.
Proof. done. Qed.
Lemma same_trans rd1 rd2 rd3 : same rd1 rd2 -> same rd2 rd3 -> same rd1 rd3.
Proof. unfold same. intuition congruence. Qed.

(** Frames that leave the message unfinished are read and passed over. *)
Lemma next_waits fs : forall fuel rd s s1 rest,
  holds rd s -> Forall wf_frame fs -> r rd = encode_all fs ++ rest ->
  waits (maxMessage rd) (maxFragments rd) s fs = Some s1 ->
  exists rd1, next_loop (length fs + fuel) rd = next_loop fuel rd1 /\
    r rd1 = rest /\ holds rd1 s1 /\ same rd rd1.
Proof.
  induction fs as [|f fs IH]; intros fuel rd s s1 rest Hs Hwf Hr Hw.
  { injection Hw as <-. exists rd. by split_and!. }
  cbn [waits] in Hw. inversion Hwf as [|? ? Hf Hfs]; subst.
  unfold encode_all in Hr. cbn [map concat] in Hr. rewrite <- app_assoc in Hr.
  pose proof (step_meets rd s f _ Hs Hf Hr) as Hm.
  destruct (accept _ _ s f) as [| |s']; try done. destruct Hm as (rd1 & E & Hr1 & Hs1 & Hsame).
  destruct (IH fuel rd1 s' s1 rest Hs1 Hfs Hr1) as (rd2 & E2 & Hr2 & Hs2 & Hsame2).
  { destruct Hsame as (_ & _ & -> & -> & _). done. }
  exists rd2. split_and!; try done; [|by eapply same_trans].
  cbn [length Nat.add next_loop]. rewrite (bind_ok _ _ _ _ _ E). done.
Qed.

(** A message comes from frames that leave it unfinished and one that
    finishes it. *)
Lemma next_inv fuel : forall rd s m rd',
  holds rd s -> next_loop fuel rd = (Datatypes.inr m, rd') ->
  exists fs f s1 s', Forall wf_frame fs /\ wf_frame f /\ r rd = encode_all fs ++ encode f ++ r rd' /\
    waits (maxMessage rd) (maxFragments rd) s fs = Some s1 /\
    accept (maxMessage rd) (maxFragments rd) s1 f = Deliver m s' /\ holds rd' s' /\ same rd rd'.
Proof.
  induction fuel as [|fuel IH]; intros rd s m rd' Hs H; [done|]. cbn [next_loop] in H.
  apply bind_inv in H as (o & rd1 & E & H). destruct (step_inv _ _ _ E) as (f & Hf & Hr).
  pose proof (step_meets rd s f _ Hs Hf Hr) as Hm.
  destruct (accept (maxMessage rd) (maxFragments rd) s f) as [code|m' s'|s'] eqn:Ea.
  - destruct Hm as (? & ? & Hm). rewrite E in Hm. done.
  - destruct Hm as (rd2 & Hm & Hr2 & Hs2 & Hsame). rewrite E in Hm. injection Hm as -> ->.
    injection H as -> ->. exists [], f, s, s'. by split_and!.
  - destruct Hm as (rd2 & Hm & Hr2 & Hs2 & Hsame). rewrite E in Hm. injection Hm as -> ->.
    destruct (IH rd2 s' m rd' Hs2 H) as (fs & g & s1 & s2 & Hfs & Hg & Hr3 & Hw & Hacc & Hs3 & Hsame2).
    assert (Em : maxMessage rd2 = maxMessage rd) by apply Hsame.
    assert (Ef : maxFragments rd2 = maxFragments rd) by apply Hsame. rewrite Em, Ef in Hw, Hacc.
    exists (f :: fs), g, s1, s2. split_and!; try done; [by constructor| |by rewrite <- Hw; cbn [waits]; rewrite Ea|by eapply same_trans].
    rewrite Hr, Hr3. unfold encode_all. cbn [map concat]. by rewrite <- app_assoc.
Qed.

Lemma Next_waits fs rd s s1 rest :
  holds rd s -> Forall wf_frame fs -> r rd = encode_all fs ++ rest ->
  waits (maxMessage rd) (maxFragments rd) s fs = Some s1 ->
  exists fuel rd1, Next rd = next_loop (S fuel) rd1 /\ r rd1 = rest /\ holds rd1 s1 /\ same rd rd1.
Proof.
  intros Hs Hfs Hr Hw. pose proof (encode_all_length fs) as Hl.
  destruct (next_waits fs (S (length (r rd) - length fs)) rd s s1 rest Hs Hfs Hr Hw) as (rd1 & E & H).
  exists (length (r rd) - length fs)%nat, rd1. split; [|done]. rewrite <- E. unfold Next. f_equal.
  rewrite Hr, length_app. lia.
Qed.

Lemma step_empty rd : r rd = [] -> frame_step rd = (Datatypes.inl (StreamError (r_err rd)), rd).
Proof.
  intros Hr. unfold frame_step. apply bind_err. unfold reading, full, ReadFull. rewrite Hr. cbn.
  f_equal. destruct rd; cbn in *; by subst.
Qed.

(** C11: reading a stream implements the protocol.  For a reader that holds the
    message in progress [s] (a new reader holds none): a message [Next]
    returns is made up by a run of well-formed frames on the stream, masked
    and with shortest lengths, that the protocol delivers as that message,
    and exactly those frames have been read; conversely, on a stream of
    frames that leave the message unfinished followed by one more, [Next]
    returns the message the protocol delivers, or fails with the status the
    protocol refuses the frame with; and when nothing follows, it reports the
    stream's error, having lost nothing. *)
Theorem next_messages (rd : Reader) (s : option assembly) (Hs : holds rd s) :
  (forall m rd', Next rd = (Datatypes.inr m, rd') ->
     exists fs f s1 s', Forall wf_frame fs /\ wf_frame f /\ r rd = encode_all fs ++ encode f ++ r rd' /\
       waits (maxMessage rd) (maxFragments rd) s fs = Some s1 /\
       accept (maxMessage rd) (maxFragments rd) s1 f = Deliver m s' /\ holds rd' s' /\ same rd rd') /\
  (forall fs s1 rest, Forall wf_frame fs -> r rd = encode_all fs ++ rest ->
     waits (maxMessage rd) (maxFragments rd) s fs = Some s1 ->
     (rest = [] -> exists rd', Next rd = (Datatypes.inl (StreamError (r_err rd)), rd') /\ holds rd' s1 /\ same rd rd') /\
     (forall f rest', wf_frame f -> rest = encode f ++ rest' ->
        match accept (maxMessage rd) (maxFragments rd) s1 f with
        | Fail code => exists reason rd', Next rd = (Datatypes.inl (ProtocolError code reason), rd')
        | Deliver m s' => exists rd', Next rd = (Datatypes.inr m, rd') /\ r rd' = rest' /\ holds rd' s' /\ same rd rd'
        | Wait _ => True
        end)).
Proof.
  split; [intros m rd'; by apply next_inv|]. intros fs s1 rest Hfs Hr Hw.
  destruct (Next_waits fs rd s s1 rest Hs Hfs Hr Hw) as (fuel & rd1 & E & Hr1 & Hs1 & Hsame).
  rewrite E. cbn [next_loop]. split.
  - intros ->. exists rd1. split; [|done]. destruct Hsame as (<- & _). apply bind_err. by apply step_empty.
  - intros f rest' Hf ->. pose proof (step_meets rd1 s1 f rest' Hs1 Hf Hr1) as Hm.
    replace (maxMessage rd) with (maxMessage rd1) by apply Hsame.
    replace (maxFragments rd) with (maxFragments rd1) by apply Hsame.
    destruct (accept _ _ s1 f) as [code|m s'|s']; [|..|done].
    + destruct Hm as (reason & rd2 & Hm). exists reason, rd2. by apply bind_err.
    + destruct Hm as (rd2 & Hm & ? & ? & ?). exists rd2. split_and!; [by rewrite (bind_ok _ _ _ _ _ Hm)|done..|].
      by eapply same_trans.
Qed.

(** ** Pauses *)

(** The stream goes on with [more], and then reports [e]. *)
Definition feed (more : bytes) (e : stream_error) (rd : Reader) : Reader :=
  mkReader (r rd ++ more) e (OnFrameHeader rd) (headers rd) (maxMessage rd) (maxFragments rd)
    (partial rd) (partialOp rd) (frags rd) (utfOK rd) (dirty rd).

Section Pauses.
Context (more : bytes) (e' : stream_error).

(** What comes later on the stream does not change a success. *)
Definition stable {A} (m : M A) : Prop := forall rd a rd',
  m rd = (Datatypes.inr a, rd') -> m (feed more e' rd) = (Datatypes.inr a, feed more e' rd').

(** A failure of the stream loses the parse position. *)
Definition strands {A} (m : M A) : Prop := forall rd e rd',
  m rd = (Datatypes.inl (StreamError e), rd') -> dirty rd' = true.

Definition mid {A} (m : M A) : Prop := stable m /\ strands m.

Lemma mid_bind {A B} (m : M A) (f : A -> M B) : mid m -> (forall a, mid (f a)) -> mid (m ≫= f).
Proof.
  intros [H1 H2] Hf. split.
  - intros rd b rd2 (a & rd1 & E & H)%bind_inv. rewrite (bind_ok _ _ _ _ _ (H1 _ _ _ E)). by apply Hf.
  - intros rd e rd2 H. unfold mbind, frame_bind, bind in H. destruct (m rd) as [[e1|a] rd1] eqn:E.
    + injection H as -> ->. by eapply H2.
    + by eapply Hf.
Qed.
Lemma mid_ret {A} (a : A) : mid (ret a).
Proof. split; [by intros ? ? ? [= <- <-]|done]. Qed.
Lemma mid_protocol {A} code reason : mid (@protocol A code reason).
Proof. by split. Qed.
Lemma mid_fuel {A} : mid (@fail A FrameFuel).
Proof. by split. Qed.
Lemma mid_reject bad code reason : mid (reject bad code reason).
Proof. unfold reject. destruct bad; [apply mid_protocol|apply mid_ret]. Qed.
Lemma mid_get {A} (f : Reader -> A) : (forall rd, f (feed more e' rd) = f rd) -> mid (get f).
Proof. intros H. split; [|done]. intros ? ? ? [= <- <-]. unfold get. by rewrite H. Qed.
Lemma mid_modify f : (forall rd, f (feed more e' rd) = feed more e' (f rd)) -> mid (modify f).
Proof. intros H. split; [|done]. intros ? ? ? [= <- <-]. unfold modify. by rewrite H. Qed.

Lemma ReadFull_feed n rd got rd' :
  ReadFull n rd = (got, None, rd') -> ReadFull n (feed more e' rd) = (got, None, feed more e' rd').
Proof.
  unfold ReadFull. destruct (n <=? _) eqn:E; [|done]. intros [= <- <-]. apply Z.leb_le in E.
  cbn [r feed]. rewrite length_app. destruct (n <=? _) eqn:E1; [|apply Z.leb_gt in E1; lia].
  rewrite take_app_le, drop_app_le by lia. done.
Qed.

Lemma stable_full n : stable (reading full n).
Proof.
  intros rd a rd' H. unfold reading, full in *.
  destruct (ReadFull n rd) as [[g [e|]] rd1] eqn:E; [done|]. injection H as <- <-.
  by rewrite (ReadFull_feed _ _ _ _ E).
Qed.

Lemma mid_reading n : mid (reading midFull n).
Proof.
  split.
  - intros rd a rd' H. unfold reading, midFull, full in *.
    destruct (ReadFull n rd) as [[g [e|]] rd1] eqn:E; [done|]. injection H as <- <-.
    by rewrite (ReadFull_feed _ _ _ _ E).
  - intros rd e rd' H. unfold reading, midFull, full in *.
    destruct (ReadFull n rd) as [[g [e1|]] rd1] eqn:E; [|done]. by injection H as _ <-.
Qed.

Lemma mid_grow_read n key done : mid (grow_read n key done).
Proof.
  split.
  - intros rd a rd' H. unfold grow_read, midFull, full in *.
    destruct (ReadFull n rd) as [[g [e|]] rd1] eqn:E; [done|]. injection H as <- <-.
    by rewrite (ReadFull_feed _ _ _ _ E).
  - intros rd e rd' H. unfold grow_read, midFull, full in *.
    destruct (ReadFull n rd) as [[g [e1|]] rd1] eqn:E; [|done]. by injection H as _ <-.
Qed.

#[local] Create HintDb mid.
#[local] Hint Resolve mid_bind mid_ret mid_protocol mid_fuel mid_reject mid_get mid_modify mid_reading mid_grow_read : mid.

Lemma mid_validateChunk : mid validateChunk.
Proof. unfold validateChunk. eauto 10 with mid. Qed.

Lemma mid_append_loop fuel length done key : mid (append_loop fuel length done key).
Proof.
  revert done. induction fuel as [|fuel IH]; intros done; cbn [append_loop];
    (destruct (done <? length) eqn:E; [|apply mid_ret]); [apply mid_fuel|].
  apply mid_bind; [apply mid_grow_read|]. intros _.
  apply mid_bind; [by apply mid_get|]. intros op. apply mid_bind; [|intros _; apply IH].
  destruct (op =? OpText); [apply mid_validateChunk|apply mid_ret].
Qed.

Lemma mid_read_length n : mid (read_length n).
Proof.
  unfold read_length. destruct (n =? 126); [|destruct (n =? 127)];
    repeat first [apply mid_bind; [apply mid_reading|]; intros ? | apply mid_bind; [apply mid_reject|]; intros _ | apply mid_ret].
Qed.

Lemma mid_check_data op n : mid (check_data op n).
Proof.
  unfold check_data. apply mid_bind; [by apply mid_get|]. intros b.
  apply mid_bind; [destruct (op =? OpContinuation); [|destruct (_ || _)]; auto with mid|]. intros _.
  apply mid_bind; [by apply mid_get|]. intros m. apply mid_bind; [apply mid_reject|]. intros _.
  apply mid_bind; [by apply mid_modify|]. intros _. apply mid_bind; [by apply mid_get|]. intros o. apply mid_reject.
Qed.

Lemma mid_read_control op n key : mid (read_control op n key).
Proof.
  apply mid_bind; [apply mid_reading|]. intros p. cbv zeta.
  destruct (op =? OpClose); [|apply mid_ret]. pose proof (validateClose_status (mask p key 0)) as Hv.
  destruct (close_status _); [destruct Hv as [reason ->]; apply mid_protocol|rewrite Hv; apply mid_ret].
Qed.

Lemma mid_read_data fin op n key : mid (read_data fin op n key).
Proof.
  unfold read_data. apply mid_bind; [destruct (negb _); [by apply mid_modify|apply mid_ret]|]. intros _.
  apply mid_bind; [apply mid_append_loop|]. intros _. destruct (negb fin); [apply mid_ret|].
  apply mid_bind; [by apply mid_get|]. intros msg. apply mid_bind; [by apply mid_get|]. intros u.
  apply mid_bind; [by apply mid_modify|]. intros _. apply mid_bind; [apply mid_reject|]. intros _. apply mid_ret.
Qed.

Lemma mid_frame_body hdr : mid (frame_body hdr).
Proof.
  unfold frame_body. apply mid_bind; [apply mid_modify; intros rd; cbn; by destruct (OnFrameHeader rd)|]. intros _.
  apply mid_bind; [apply mid_reject|]. intros _. apply mid_bind; [apply mid_reject|]. intros _.
  apply mid_bind; [apply mid_read_length|]. intros n. apply mid_bind.
  { destruct (negb _); [|apply mid_check_data]. unfold check_control. auto with mid. }
  intros _. apply mid_bind; [apply mid_reading|]. intros key.
  destruct (negb _); [apply mid_read_control|apply mid_read_data].
Qed.

Lemma stable_step : stable frame_step.
Proof.
  intros rd o rd' H. unfold frame_step in *. apply bind_inv in H as (hdr & rd1 & E & H).
  rewrite (bind_ok _ _ _ _ _ (stable_full _ _ _ _ E)). clear E. revert rd1 o rd' H. apply (mid_frame_body hdr).
Qed.

End Pauses.

(** A round that fails with the stream's error lost its place, or had read
    nothing. *)
Lemma step_stream_error rd e rd' :
  frame_step rd = (Datatypes.inl (StreamError e), rd') -> dirty rd' = true \/ r rd = [] /\ rd' = rd.
Proof.
  unfold frame_step, mbind, frame_bind, bind. destruct (reading full 2 rd) as [[e1|hdr] rd1] eqn:E.
  - intros [= -> ->]. unfold reading, full, ReadFull in E. destruct (2 <=? _) eqn:El; [done|].
    destruct (r rd) as [|b l] eqn:Er; [|left; by injection E as _ <-].
    right. split; [done|]. injection E as _ <-. destruct rd; cbn in *; by subst.
  - intros H. left. by apply (mid_frame_body [] EOF hdr) in H.
Qed.

(** More fuel than there are bytes changes nothing. *)
Lemma next_loop_fuel f1 : forall f2 rd,
  (length (r rd) < f1)%nat -> (length (r rd) < f2)%nat -> next_loop f1 rd = next_loop f2 rd.
Proof.
  induction f1 as [|f1 IH]; intros [|f2] rd H1 H2; try lia. cbn [next_loop].
  unfold mbind, frame_bind, bind. destruct (frame_step rd) as [[e|[m|]] rd1] eqn:E; [done..|].
  destruct (step_inv _ _ _ E) as (f & _ & Hr). pose proof (encode_length f).
  apply (f_equal length) in Hr. rewrite length_app in Hr. apply IH; lia.
Qed.

Lemma Next_fuel f rd : (length (r rd) < f)%nat -> next_loop f rd = Next rd.
Proof. intros H. apply next_loop_fuel; [done|lia]. Qed.

(** The loop that stopped cleanly had read whole frames, and goes on from
    there. *)
Lemma next_stops fuel : forall rd e rd',
  next_loop fuel rd = (Datatypes.inl (StreamError e), rd') -> dirty rd' = false ->
  (exists fs, Forall wf_frame fs /\ r rd = encode_all fs) /\
  forall more e', Next (feed more e' rd') = Next (feed more e' rd).
Proof.
  induction fuel as [|fuel IH]; intros rd e rd' H Hd; [done|]. cbn [next_loop] in H.
  unfold mbind, frame_bind, bind in H. destruct (frame_step rd) as [[e1|[m|]] rd1] eqn:E; [|done|].
  - injection H as -> ->. apply step_stream_error in E as [E|[Er ->]]; [congruence|].
    split; [by exists []|done].
  - destruct (IH rd1 e rd' H Hd) as [(fs & Hfs & Hr1) Hn]. destruct (step_inv _ _ _ E) as (f & Hf & Hr).
    split.
    + exists (f :: fs). split; [by constructor|]. rewrite Hr, Hr1. done.
    + intros more e'. rewrite Hn. unfold Next at 2. cbn [next_loop].
      rewrite (bind_ok _ _ _ _ _ (stable_step more e' _ _ _ E)). symmetry. apply Next_fuel.
      cbn [r feed]. rewrite Hr, !length_app. pose proof (encode_length f). lia.
Qed.

(** Whole frames never lose the place. *)
Lemma next_whole fs : forall fuel rd s e rd',
  holds rd s -> Forall wf_frame fs -> r rd = encode_all fs ->
  next_loop fuel rd = (Datatypes.inl (StreamError e), rd') -> dirty rd' = dirty rd.
Proof.
  induction fs as [|f fs IH]; intros fuel rd s e rd' Hs Hwf Hr H; (destruct fuel as [|fuel]; [done|]); cbn [next_loop] in H.
  - rewrite (bind_err _ _ _ _ _ (step_empty rd Hr)) in H. by injection H as _ <-.
  - inversion Hwf as [|? ? Hf Hfs]; subst. pose proof (step_meets rd s f (encode_all fs) Hs Hf Hr) as Hm.
    destruct (accept _ _ s f) as [code|m s'|s'].
    + destruct Hm as (? & ? & E). by rewrite (bind_err _ _ _ _ _ E) in H.
    + destruct Hm as (? & E & _). by rewrite (bind_ok _ _ _ _ _ E) in H.
    + destruct Hm as (rd1 & E & Hr1 & Hs1 & Hsame). rewrite (bind_ok _ _ _ _ _ E) in H.
      rewrite (IH _ _ _ _ _ Hs1 Hfs Hr1 H). apply Hsame.
Qed.

(** C12: a pause of the stream, such as a read deadline, is harmless exactly
    where [Dirty] says so.  When [Next] fails with the stream's error, the
    reader is clean if and only if the stream stopped between two frames, and
    a clean reader goes on, with whatever arrives later, as if there had been
    no pause. *)
Theorem next_resumes (rd : Reader) (s : option assembly) (e : stream_error) (rd' : Reader)
  (Hs : holds rd s) (Hd : Dirty rd = false) (H : Next rd = (Datatypes.inl (StreamError e), rd')) :
  (Dirty rd' = false <-> exists fs, Forall wf_frame fs /\ r rd = encode_all fs) /\
  (Dirty rd' = false -> forall more e', Next (feed more e' rd') = Next (feed more e' rd)).
Proof.
  unfold Dirty in *. split; [split|].
  - intros Hc. by apply next_stops in H as [Hfs _].
  - intros (fs & Hfs & Hr). by rewrite (next_whole fs _ _ _ _ _ Hs Hfs Hr H).
  - intros Hc. by apply next_stops in H as [_ Hn].
Qed.

(** A new reader holds no message. *)
Lemma NewReader_holds stream e callback m f rd :
  NewReader stream e callback m f = Some rd -> holds rd None /\ r rd = stream /\ dirty rd = false /\ 0 < maxMessage rd.
Proof.
  unfold NewReader. destruct (_ || _) eqn:E; [done|]. intros [= <-]. split_and!; try done. cbn. lia.
Qed.

(** ** A concrete stream *)

Definition demo_key : bytes := [x37; xfa; x21; x3d].
Definition demo_first : frame := mkFrame false 0 1 demo_key (bs "Hel").
Definition demo_last : frame := mkFrame true 0 0 demo_key (bs "lo").
Definition demo_reader (stream : bytes) : Reader :=
  mkReader stream (ReadError "i/o timeout") true 0 1000 8 None 0 0 0 false.

Lemma demo_wf : wf_frame demo_first /\ wf_frame demo_last.
Proof. split; split; vm_compute; intuition congruence. Qed.

Lemma next_messages_witness :
  exists rd', Next (demo_reader (encode_all [demo_first] ++ encode demo_last)) =
      (Datatypes.inr (mkMessage 1 (bs "Hello")), rd') /\ r rd' = [].
Proof.
  destruct demo_wf as [H1 H2].
  destruct (next_messages (demo_reader (encode_all [demo_first] ++ encode demo_last)) None (conj eq_refl eq_refl)) as [_ H].
  destruct (H [demo_first] (Some (mkAssembly 1 (bs "Hel") 1)) (encode demo_last)) as [_ Hd].
  - by constructor.
  - reflexivity.
  - vm_compute. reflexivity.
  - specialize (Hd demo_last [] H2). destruct Hd as (rd' & E & Hr & _); [by rewrite app_nil_r|].
    exists rd'. by split.
Defined.

Lemma next_resumes_witness :
  let rd := demo_reader (encode demo_first) in
  Next (feed (encode demo_last) EOF (Next rd).2) = Next (feed (encode demo_last) EOF rd).
Proof.
  intros rd. destruct demo_wf as [H1 H2].
  apply (next_resumes rd None (ReadError "i/o timeout") (Next rd).2 (conj eq_refl eq_refl)).
  - reflexivity.
  - vm_compute. reflexivity.
  - vm_compute. reflexivity.
Defined.

End FrameNext.
