(* ===== verification/FrameBounds.v ===== *)
(** * FrameBounds: what a hostile peer can make the reader hold

    Whatever the stream contains, [Next] terminates, the reassembly buffer
    stays within the message cap, and it never runs ahead of the bytes that
    arrived by more than one allocation chunk. *)

From S2P Require Import Prelude.
From S2P Require Import GoLib.
From S2P Require Import Utf8.
From S2P Require Import Frame.
From S2P Require Import FrameMask.
From S2P Require Import FrameText.
From S2P Require Import FrameSpec.
From S2P Require Import FrameFacts.
From S2P Require Import FrameNext.

Module FrameBounds.
Import Utf8.Utf8 Frame.Frame FrameMask.FrameMask FrameText.FrameText FrameSpec.FrameSpec FrameFacts.FrameFacts FrameNext.FrameNext.

Lemma mask_words_length k k64 p : length (mask_words k k64 p) = length p.
Proof.
  induction p as [p IH] using (induction_ltof1 _ (@length byte)). unfold ltof in IH.
  destruct p as [|b0 [|b1 [|b2 [|b3 [|b4 [|b5 [|b6 [|b7 p]]]]]]]]; try (apply length_imap).
  cbn [mask_words]. rewrite length_app, le_bytes_length, IH by (cbn; lia). done.
Qed.

Lemma mask_length p key o : length (mask p key o) = length p.
Proof. apply mask_words_length. Qed.

Definition held (rd : Reader) : Z := Z.of_nat (length (buf rd)).
Definition unread (rd : Reader) : Z := Z.of_nat (length (r rd)).

Lemma held_message p op u rd : held (with_message (Some p) op u rd) = Z.of_nat (length p).
Proof. done. Qed.

Section Caps.
(** The caps, and the bytes that were there to begin with. *)
Context (B F K : Z).

(** Between operations. *)
Record within (rd : Reader) : Prop := {
  in_message : maxMessage rd = B;
  in_fragments : maxFragments rd = F;
  in_held : held rd <= B;
  in_bytes : held rd + unread rd <= K;
  in_frags : frags rd <= F
}.

(** After a failure. *)
Record bounded (rd : Reader) : Prop := {
  out_held : held rd <= B;
  out_ahead : held rd <= K + allocChunk;
  out_frags : frags rd <= F + 1
}.

Lemma within_bounded rd : within rd -> bounded rd.
Proof. intros [? ? ? ? ?]. unfold unread in *. split; rewrite ?allocChunk_val; lia. Qed.

(** [m] ends with [Q], or fails within bounds and not for want of fuel. *)
Definition ends {A} (m : M A) (Q : A -> Reader -> Prop) (rd : Reader) : Prop :=
  match m rd with
  | (Datatypes.inl e, rd') => e <> FrameFuel /\ bounded rd'
  | (Datatypes.inr a, rd') => Q a rd'
  end.

Lemma ends_bind {A C} (m : M A) (f : A -> M C) Q rd :
  ends m (fun a => ends (f a) Q) rd -> ends (m ≫= f) Q rd.
Proof. unfold ends, mbind, frame_bind, bind. by destruct (m rd) as [[e|a] rd']. Qed.

Lemma ends_mono {A} (m : M A) (P Q : A -> Reader -> Prop) rd :
  ends m P rd -> (forall a rd', P a rd' -> Q a rd') -> ends m Q rd.
Proof. unfold ends. destruct (m rd) as [[e|a] rd']; auto. Qed.

Lemma ends_reject bad code reason (Q : unit -> Reader -> Prop) rd :
  within rd -> (bad = false -> Q tt rd) -> ends (reject bad code reason) Q rd.
Proof. intros Hw HQ. unfold ends, reject. destruct bad; cbn; [split; [done|by apply within_bounded]|auto]. Qed.

(** Reading takes bytes off the stream, and nothing else. *)
Lemma with_r_within rest rd : (length rest <= length (r rd))%nat -> within rd -> within (with_r rest rd).
Proof. intros H [? ? ? ? ?]. split; try done. unfold unread in *. change (held (with_r rest rd)) with (held rd). cbn [r with_r]. lia. Qed.

Lemma ends_reading (f : Z -> Reader -> bytes * option stream_error * Reader) n (Q : bytes -> Reader -> Prop) rd :
  f = full \/ f = midFull -> within rd ->
  (forall got rest, (length rest <= length (r rd))%nat -> Q got (with_r rest rd)) -> ends (reading f n) Q rd.
Proof.
  intros Hf Hw HQ. unfold ends, reading.
  assert (Hr : match ReadFull n rd with
    | (got, Some _, rd') => rd' = with_r [] rd | (got, None, rd') => Q got rd' end).
  { unfold ReadFull. destruct (_ <=? _); [|done]. apply HQ. rewrite length_drop. lia. }
  assert (Hb : bounded (with_r [] rd)). { apply within_bounded, with_r_within; [cbn; lia|done]. }
  assert (Hd : bounded (with_dirty true (with_r [] rd))) by (by destruct Hb; split).
  destruct Hf as [-> | ->]; unfold midFull, full; destruct (ReadFull n rd) as [[g [e|]] rd']; [|done| |done];
    subst rd'; (split; [done|]); by destruct g.
Qed.

(** Growing the buffer by a chunk: never past what the frame was admitted
    with. *)
Lemma ends_grow_read n key done (Q : unit -> Reader -> Prop) rd :
  within rd -> 0 <= n <= allocChunk -> held rd + n <= B ->
  (forall rd', within rd' -> held rd' = held rd + n -> Q tt rd') -> ends (grow_read n key done) Q rd.
Proof.
  intros Hw Hn Hb HQ. destruct Hw as [H1 H2 H3 H4 H5]. unfold ends, grow_read, midFull, full, ReadFull.
  destruct (n <=? Z.of_nat (length (r rd))) eqn:E.
  - apply Z.leb_le in E.
    set (rd' := with_message _ _ _ _).
    assert (Hh : held rd' = held rd + n).
    { unfold rd'. rewrite held_message, length_app, mask_length, length_take. unfold held. lia. }
    apply HQ; [|done]. split; try done; [lia|]. rewrite Hh. unfold unread in *. cbn [r rd' with_message with_r]. rewrite length_drop. lia.
  - apply Z.leb_gt in E. split; [done|].
    assert (Hl : Z.of_nat (length (buf rd ++ r rd ++ replicate (Z.to_nat n - length (r rd)) x00)) = held rd + n).
    { unfold held. rewrite !length_app, length_replicate. lia. }
    unfold unread in H4. destruct (r rd) eqn:Er; (split; [rewrite held_message, Hl; lia|rewrite held_message, Hl; lia|cbn; lia]).
Qed.

Lemma ends_get {A} (f : Reader -> A) (Q : A -> Reader -> Prop) rd : Q (f rd) rd -> ends (get f) Q rd.
Proof. done. Qed.
Lemma ends_modify f (Q : unit -> Reader -> Prop) rd : Q tt (f rd) -> ends (modify f) Q rd.
Proof. done. Qed.
Lemma ends_ret {A} (a : A) (Q : A -> Reader -> Prop) rd : Q a rd -> ends (ret a) Q rd.
Proof. done. Qed.

Lemma ends_validateChunk (Q : unit -> Reader -> Prop) rd :
  within rd -> (forall rd', within rd' -> held rd' = held rd -> Q tt rd') -> ends validateChunk Q rd.
Proof.
  intros Hw HQ. unfold validateChunk. do 2 (apply ends_bind, ends_get). apply ends_bind, ends_reject; [done|]. intros _.
  apply ends_modify, HQ; [|done]. by destruct Hw; split.
Qed.

Lemma ends_append_loop fuel length done key (Q : unit -> Reader -> Prop) : forall rd,
  within rd -> 0 <= done <= length -> length - done <= Z.of_nat fuel * allocChunk ->
  held rd + (length - done) <= B -> (forall rd', within rd' -> Q tt rd') ->
  ends (append_loop fuel length done key) Q rd.
Proof.
  revert done. induction fuel as [|fuel IH]; intros done rd Hw Hd Hf Hb HQ; cbn [append_loop].
  { destruct (done <? length) eqn:E; [lia|]. by apply ends_ret, HQ. }
  destruct (done <? length) eqn:E; [|by apply ends_ret, HQ].
  set (n := Z.min (length - done) allocChunk). rewrite allocChunk_val in Hf.
  assert (Hn : 0 <= n <= allocChunk /\ n <= length - done /\ (n = length - done \/ n = 32768)).
  { unfold n. rewrite allocChunk_val. lia. }
  apply ends_bind, ends_grow_read; [done|lia|lia|]. intros rd1 Hw1 Hh1. apply ends_bind, ends_get, ends_bind.
  assert (Hnext : forall rd2, within rd2 -> held rd2 = held rd1 -> ends (append_loop fuel length (done + n) key) Q rd2).
  { intros rd2 Hw2 Hh2. apply IH; [done|lia| |lia|done]. rewrite allocChunk_val. lia. }
  destruct (partialOp rd1 =? OpText); [by apply ends_validateChunk|by apply ends_ret, Hnext].
Qed.

Lemma ends_appendPayload n key (Q : unit -> Reader -> Prop) rd :
  within rd -> 0 <= n -> held rd + n <= B -> (forall rd', within rd' -> Q tt rd') -> ends (appendPayload n key) Q rd.
Proof.
  intros Hw Hn Hb HQ. apply ends_append_loop; try done; try lia.
  rewrite allocChunk_val, Nat2Z.inj_succ, Z2Nat.id by (apply Z.div_pos; lia).
  pose proof (Z.mul_succ_div_gt n 32768). lia.
Qed.

Lemma ends_read_length l7 (Q : Z -> Reader -> Prop) rd :
  within rd -> 0 <= l7 < 128 ->
  (forall n rest, 0 <= n -> (length rest <= length (r rd))%nat -> Q n (with_r rest rd)) -> ends (read_length l7) Q rd.
Proof.
  intros Hw Hl HQ. assert (Herr : ends (read_length l7) (fun _ _ => True) rd).
  { unfold read_length. destruct (l7 =? 126); [|destruct (l7 =? 127); [|done]];
      apply ends_bind, ends_reading; [by right|done| |by right|done|]; intros got rest Hr;
      repeat (apply ends_bind, ends_reject; [by apply with_r_within|]; intros _); done. }
  unfold ends in *. destruct (read_length l7 rd) as [[e|n] rd'] eqn:E; [done|].
  apply read_length_inv in E as (Hn & _ & rest & Er & ->); [|done]. apply HQ; [lia|]. rewrite Er, length_app. lia.
Qed.

(** A data frame is admitted only when the cap has room for all of it. *)
Lemma ends_check_data op n (Q : unit -> Reader -> Prop) rd :
  within rd -> (forall rd', within rd' -> held rd' + n <= B -> Q tt rd') -> ends (check_data op n) Q rd.
Proof.
  intros Hw HQ. unfold check_data. apply ends_bind, ends_get, ends_bind.
  assert (Hgo : ends (budget ← get (fun rd => maxMessage rd - Z.of_nat (length (buf rd)));
     reject (budget <? n) CloseTooBig "message exceeds the maximum size";;
     modify (fun rd => with_frags (frags rd + 1) rd);;
     over ← get (fun rd => maxFragments rd <? frags rd);
     reject over CloseTooBig "message split into too many fragments") Q rd).
  { apply ends_bind, ends_get, ends_bind, ends_reject; [done|]. intros E%Z.ltb_ge.
    apply ends_bind, ends_modify, ends_bind, ends_get. destruct Hw as [H1 H2 H3 H4 H5]. unfold ends, reject, protocol, fail, ret.
    cbn [maxFragments frags with_frags]. destruct (_ <? _) eqn:Ef.
    - split; [done|]. split; [done| |cbn; lia]. rewrite allocChunk_val. unfold unread in H4.
      change (held (with_frags _ rd)) with (held rd). lia.
    - apply HQ; [split; try done; cbn; lia|]. rewrite H1 in E. change (held (with_frags _ rd)) with (held rd). unfold held. lia. }
  destruct (op =? OpContinuation); [by apply ends_reject|].
  destruct (_ || _); [by apply ends_reject|]. split; [done|by apply within_bounded].
Qed.

Lemma reset_within rd : within rd -> forall op, within (with_message (Some []) op 0 rd) /\ held (with_message (Some []) op 0 rd) <= held rd.
Proof.
  intros [H1 H2 H3 H4 H5] op. rewrite held_message. cbn [length]. unfold unread, held in *.
  split; [|lia]. split; try done; unfold unread, held; cbn; lia.
Qed.

Lemma ends_read_data fin op n key rd :
  within rd -> 0 <= n -> held rd + n <= B -> 0 <= F -> ends (read_data fin op n key) (fun _ => within) rd.
Proof.
  intros Hw Hn Hb HF. unfold read_data. apply ends_bind.
  assert (Hgo : forall rd1, within rd1 -> held rd1 + n <= B -> ends (appendPayload n key;;
    if negb fin then ret None
    else
      msg ← get (fun rd => mkMessage (partialOp rd) (buf rd));
      tail ← get utfOK;
      modify (fun rd => with_frags 0 (with_message None 0 0 rd));;
      reject ((Opcode msg =? OpText) && negb (utf8_Valid (drop tail (Payload msg))))
        CloseInvalidPayload "text message is not valid UTF-8";;
      ret (Some msg)) (fun _ => within) rd1).
  { intros rd1 Hw1 Hb1. apply ends_bind, ends_appendPayload; [done..|]. intros rd2 Hw2.
    destruct (negb fin); [by apply ends_ret|]. apply ends_bind, ends_get, ends_bind, ends_get, ends_bind, ends_modify, ends_bind.
    assert (Hw3 : within (with_frags 0 (with_message None 0 0 rd2))).
    { destruct Hw2 as [H1 H2 H3 H4 H5]. unfold unread, held in *. split; try done; unfold unread, held; cbn; lia. }
    apply ends_reject; [done|]. intros _. by apply ends_ret. }
  destruct (negb (op =? OpContinuation)); [|by apply ends_ret, Hgo]. apply ends_modify. destruct (reset_within rd Hw op) as [? ?].
  apply Hgo; [done|lia].
Qed.

Lemma ends_step rd : within rd -> 0 <= F -> ends frame_step (fun _ => within) rd.
Proof.
  intros Hw HF. apply ends_bind, ends_reading; [by left|done|]. intros hdr rest Hr.
  apply (with_r_within rest) in Hw; [|done]. apply ends_bind, ends_modify.
  set (rd1 := if OnFrameHeader _ then _ else _).
  assert (Hw1 : within rd1). { unfold rd1. destruct (OnFrameHeader _); [|done]. by destruct Hw; split. }
  clearbody rd1. apply ends_bind, ends_reject; [done|]. intros _. apply ends_bind, ends_reject; [done|]. intros _.
  apply ends_bind, ends_read_length; [done| |].
  { destruct (hdr !! 1%nat) as [b|]; cbn [byte_and]; [|lia]. destruct (byte_fields b) as (? & ? & ?). lia. }
  intros n rest1 Hn Hr1. apply (with_r_within rest1) in Hw1; [|done].
  set (op := byte_and _ 0x0f). clearbody op. destruct (negb (Z.land op 8 =? 0)).
  - unfold check_control. apply ends_bind.
    do 2 (apply ends_bind, ends_reject; [done|]; intros _). apply ends_reject; [done|]. intros _.
    apply ends_bind, ends_reading; [by right|done|]. intros key rest2 Hr2. apply (with_r_within rest2) in Hw1; [|done].
    apply ends_bind, ends_reading; [by right|done|]. intros raw rest3 Hr3. apply (with_r_within rest3) in Hw1; [|done].
    cbv zeta. destruct (op =? OpClose); [|by apply ends_ret].
    pose proof (validateClose_status (mask raw key 0)) as Hv. destruct (close_status _) as [code|]; [|rewrite Hv; by apply ends_ret].
    destruct Hv as [reason ->]. split; [done|by apply within_bounded].
  - apply ends_bind, ends_check_data; [done|]. intros rd2 Hw2 Hroom.
    apply ends_bind, ends_reading; [by right|done|]. intros key rest2 Hr2. apply (with_r_within rest2) in Hw2; [|done].
    by apply ends_read_data.
Qed.

Lemma ends_next fuel : forall rd,
  within rd -> 0 <= F -> (length (r rd) < fuel)%nat -> ends (next_loop fuel) (fun _ => within) rd.
Proof.
  induction fuel as [|fuel IH]; intros rd Hw HF Hl; [lia|]. pose proof (ends_step rd Hw HF) as Hs.
  unfold ends in *. cbn [next_loop]. unfold mbind, frame_bind, bind.
  destruct (frame_step rd) as [[e|[m|]] rd'] eqn:E; [done..|]. apply IH; [done..|].
  destruct (step_inv _ _ _ E) as (f & _ & Hr). pose proof (encode_length f). rewrite Hr, length_app in Hl. lia.
Qed.

End Caps.

(** C13: no stream makes the reader hold more than it should.  Whatever bytes
    arrive and however [Next] ends, it ends (the loops' fuel is enough); the
    reassembly buffer stays within the message cap, and is never longer than
    what was held before and the bytes that arrived, plus one allocation
    chunk, whatever length a frame claims; and the fragment count passes its
    cap by at most the one frame that is refused. *)
Theorem next_bounds (rd : Reader) (Hm : held rd <= maxMessage rd) (Hf : 0 <= frags rd <= maxFragments rd) :
  let (res, rd') := Next rd in
  res <> Datatypes.inl FrameFuel /\ held rd' <= maxMessage rd /\
  held rd' <= held rd + unread rd + allocChunk /\ frags rd' <= maxFragments rd + 1.
Proof.
  assert (Hw : within (maxMessage rd) (maxFragments rd) (held rd + unread rd) rd) by (split; lia || done).
  pose proof (ends_next _ _ _ _ rd Hw ltac:(lia) (Nat.lt_succ_diag_r _)) as H. unfold Next. unfold ends in H.
  destruct (next_loop _ rd) as [[e|m] rd'].
  - destruct H as [He [H1 H2 H3]]. split_and!; [congruence|done..].
  - apply within_bounded in H as [H1 H2 H3]. split_and!; done.
Qed.

(** A frame that claims 2{^62} bytes and sends one. *)
Lemma next_bounds_witness :
  let rd := demo_reader ([x82; xff; x40; x00; x00; x00; x00; x00; x00; x00] ++ demo_key ++ [x00]) in
  let (res, rd') := Next rd in
  res <> Datatypes.inl FrameFuel /\ held rd' <= maxMessage rd /\
  held rd' <= held rd + unread rd + allocChunk /\ frags rd' <= maxFragments rd + 1.
Proof.
  intros rd. apply (next_bounds rd).
  - vm_compute. discriminate.
  - vm_compute. split; discriminate.
Defined.

End FrameBounds.
