(* ===== verification/FrameWrite.v ===== *)
(** * FrameWrite: what the server sends

    [WriteMessage] writes one final unmasked frame in its shortest form, and
    refuses what the wire can not carry; [WriteClose] always fits the control
    frame, by cutting the reason at a code point. *)

From S2P Require Import Prelude.
From S2P Require Import GoLib.
From S2P Require Import Utf8.
From S2P Require Import Frame.
From S2P Require Import FrameMask.
From S2P Require Import FrameText.
From S2P Require Import FrameSpec.
From S2P Require Import FrameFacts.

Module FrameWrite.
Import Utf8.Utf8 Frame.Frame FrameMask.FrameMask FrameText.FrameText FrameSpec.FrameSpec FrameFacts.FrameFacts.

(** A server frame: final, not masked. *)
Definition server_frame (op : Z) (payload : bytes) : bytes :=
  [zb (128 + op); zb (len7 (Z.of_nat (length payload)))] ++ length_ext (Z.of_nat (length payload)) ++ payload.

Lemma lor_fin op : 0 <= op < 16 -> Z.lor 0x80 op = 128 + op.
Proof.
  intros H. assert (Hb : forall b, bz b < 16 -> Z.lor 0x80 (bz b) = 128 + bz b).
  { intros b. by destruct b. }
  specialize (Hb (zb op)). rewrite bz_zb_small in Hb by lia. apply Hb. lia.
Qed.

Lemma WriteMessage_frame op payload :
  0 <= op < 16 -> (8 <= op -> (length payload <= 125)%nat) ->
  WriteMessage op payload = Datatypes.inr (server_frame op payload).
Proof.
  intros Hop Hc. unfold WriteMessage, server_frame, len7, length_ext. rewrite control_bit, lor_fin by done.
  destruct (0x0f <? op) eqn:E; [lia|]. destruct ((8 <=? op) && _) eqn:E1.
  { apply andb_true_iff in E1 as [E1 E2%Z.ltb_lt]. lia. }
  destruct (_ <=? 125); [done|]. by destruct (_ <=? 0xffff).
Qed.

(** ** The reason of a close frame *)

Lemma close_reason_short fuel reason :
  (length reason <= fuel)%nat -> (length (close_reason fuel reason) <= maxReason)%nat.
Proof.
  revert reason. induction fuel as [|fuel IH]; intros reason Hl; cbn [close_reason];
    (destruct (maxReason <? length reason)%nat eqn:E; [apply Nat.ltb_lt in E|by apply Nat.ltb_ge in E]).
  - lia.
  - apply IH. rewrite length_take. pose proof (DecodeLastRune_pos reason) as Hp.
    destruct reason; [cbn in E; lia|]. specialize (Hp ltac:(done)). lia.
Qed.

Lemma close_reason_prefix fuel reason : close_reason fuel reason `prefix_of` reason.
Proof.
  revert reason. induction fuel as [|fuel IH]; intros reason; cbn [close_reason]; (destruct (_ <? _)%nat; [|done]); [done|].
  etrans; [apply IH|]. eexists. symmetry. apply take_drop.
Qed.

(** A valid proper prefix of a text ends before its last rune. *)
Lemma utf8_prefix_last (t a l : bytes) :
  utf8 t -> utf8 a -> is_rune l = true -> t `prefix_of` a ++ l -> (length t < length (a ++ l))%nat -> t `prefix_of` a.
Proof.
  intros Ht Ha Hl [k E] Hlen. apply app_eq_app in E as (x & [[-> E]|[-> E]]); [by exists x|].
  destruct x as [|c x]; [rewrite app_nil_r; done|]. exfalso. apply utf8_drop in Ht; [|done].
  inversion Ht as [|l' t' Hl' Ht' E']. rewrite <- E', <- app_assoc in E. rewrite <- (app_nil_r l) in E.
  apply is_rune_prefix in E as [-> E]; [|done..]. rewrite <- E', !length_app in Hlen. lia.
Qed.

Lemma close_reason_valid fuel reason :
  utf8 reason -> (length reason <= fuel)%nat ->
  utf8 (close_reason fuel reason) /\
  forall t, t `prefix_of` reason -> utf8 t -> (length t <= maxReason)%nat -> t `prefix_of` close_reason fuel reason.
Proof.
  revert reason. induction fuel as [|fuel IH]; intros reason Hu Hl; cbn [close_reason];
    (destruct (maxReason <? length reason)%nat eqn:E; [apply Nat.ltb_lt in E|by split]); [lia|].
  destruct (utf8_last reason Hu) as (a & l & -> & Ha & Hr); [by intros ->; cbn in E; lia|].
  rewrite DecodeLastRune_rune by done.
  replace (length (a ++ l) - length l)%nat with (length a) by (rewrite length_app; lia). rewrite take_app_length.
  assert (length l <> 0%nat) by (by destruct l).
  destruct (IH a) as [H1 H2]; [done|rewrite length_app in Hl; lia|]. split; [done|].
  intros t Ht Hut Hlt. apply H2; [|done..]. apply (utf8_prefix_last t a l); [done..|]. lia.
Qed.

(** C14: a close frame always goes out, and says as much as fits.  For every
    code and reason, [WriteClose] writes a final unmasked close frame whose
    body is the code and a beginning of the reason of at most 123 bytes; when
    the reason is valid UTF-8, so is what is sent, and it is the longest
    valid beginning that fits; and then a peer that checks close frames as
    this server does accepts it if the code may be received. *)
Theorem WriteClose_fits (code : Z) (reason : bytes) :
  exists sent, WriteClose code reason = Datatypes.inr (server_frame OpClose (be_bytes 2 code ++ sent)) /\
    sent `prefix_of` reason /\ (length sent <= 123)%nat /\
    (utf8_Valid reason = true ->
       utf8_Valid sent = true /\
       (forall t, t `prefix_of` reason -> utf8_Valid t = true -> (length t <= 123)%nat -> t `prefix_of` sent) /\
       (0 <= code < 2 ^ 16 -> validReceivedCloseCode code = true ->
          validateClose (be_bytes 2 code ++ sent) = None)).
Proof.
  set (sent := close_reason (length reason) reason). exists sent.
  pose proof (close_reason_short (length reason) reason (le_n _)) as Hs. fold sent in Hs. change maxReason with 123%nat in Hs.
  split_and!; [|apply close_reason_prefix|done|].
  - apply WriteMessage_frame; [done|]. intros _. rewrite length_app, be_bytes_length. lia.
  - intros Hu%Valid_utf8. destruct (close_reason_valid (length reason) reason Hu (le_n _)) as [H1 H2].
    apply Valid_utf8 in H1. split_and!; [done| |].
    + intros t Ht Hut%Valid_utf8 Hl. by apply H2.
    + intros Hc Hok. unfold validateClose.
      assert (Hl : length (be_bytes 2 code) = 2%nat) by apply be_bytes_length.
      assert (Ev : be_val (be_bytes 2 code) = code) by (apply be_val_small; exact Hc).
      destruct (be_bytes 2 code) as [|c1 [|c2 [|? ?]]]; try done. cbn [app].
      change (take 2 (c1 :: c2 :: sent)) with [c1; c2]. change (drop 2 (c1 :: c2 :: sent)) with sent.
      rewrite Ev, Hok. cbn [negb]. fold sent in H1. by rewrite H1.
Qed.

End FrameWrite.
