(* ===== verification/Request.v ===== *)
(** * Request: result references and the request processor
    (core/runtime/backref.go, core/runtime/processor.go,
    core/jmap/wire.go, core/jmap/compact.go)

    A request is a list of method calls that run in order.  An argument whose
    name starts with ["#"] refers into the response of an earlier call; it is
    replaced before the method runs.  A method is a handler over a world (the
    databases it works on) and the request's creation ids; a panic fails the
    call alone.

    [resolveBackrefs] changes the map of arguments while it ranges over it.
    Go then promises that an entry not reached yet and not deleted is
    produced, and leaves open whether an entry made during the iteration is.
    The iteration is a parameter: [walk_next] chooses the next key among those
    that must and those that may still be produced. *)

From S2P Require Import Prelude GoLib Keyenc Backend Jsonscan Jmap Descriptor Keys ObjectDB Blobs Sorting Filter Query Patch.

Module Request.
Import Jsonscan Jmap Filter Query Patch.

(** ** The wire format *)

Record Invocation := mkInvocation { inv_Name : bytes; inv_Args : bytes; inv_CallID : bytes }.

Record RequestObject := mkRequest {
  rq_Using : list bytes;
  rq_MethodCalls : list Invocation;
  rq_CreatedIds : option (gmap Id Id); (* [None] is the absent property *)
}.

Record Response := mkResponse {
  rs_MethodResponses : list Invocation;
  rs_CreatedIds : option (gmap Id Id);
  rs_SessionState : bytes;
}.

Record ResultReference := mkRef { ref_ResultOf : bytes; ref_Name : bytes; ref_Path : bytes }.

Inductive methodError := UnknownMethod | InvalidArguments | InvalidResultReference | ServerFail | WalkFuel.

(** What the code takes from [encoding/json] here: decoding a
    ResultReference, marshalling a slice of raw values and a MethodError, and
    compacting a raw value. *)
Class WireText := {
  decode_ref : bytes -> option ResultReference;
  marshal_array : list bytes -> option bytes;
  marshal_error : methodError -> bytes;
  compact_raw : bytes -> option bytes;
}.

(** Ranging over a map that the loop body changes. *)
Class MapWalk := {
  walk_next : gset bytes -> gset bytes -> option bytes;
  walk_some must may k : walk_next must may = Some k -> k ∈ must ∪ may;
  walk_none must may : walk_next must may = None -> must = ∅;
}.

Section text.
Context `{JT : JsonText, WT : WireText}.

Definition ErrorInvocation (callID : bytes) (e : methodError) : Invocation := mkInvocation (bs "error") (marshal_error e) callID.

(** ** Pointers into a response *)

Fixpoint firstJSONByte (raw : bytes) : byte :=
  match raw with
  | [] => x00
  | b :: raw' =>
      if (b =b " "%byte) || (bz b =? 9) || (bz b =? 10) || (bz b =? 13) then firstJSONByte raw' else b
  end.

(** The results of every element, arrays among them flattened. *)
Fixpoint map_items (eval : bytes -> option bytes) (arr : list bytes) : option (list bytes) :=
  match arr with
  | [] => Some []
  | item :: arr' =>
      r ← eval item;
      here ← (if firstJSONByte r =b "["%byte then json_array r else Some [r]);
      rest ← map_items eval arr';
      Some (here ++ rest)
  end.

Definition mapArray (eval : bytes -> option bytes) (arr : list bytes) : option bytes :=
  results ← map_items eval arr; marshal_array results.

Definition array_index (token : bytes) (n : nat) : option nat :=
  idx ← ParseInt token;
  if (idx <? 0) || (Z.of_nat n <=? idx) then None else Some (Z.to_nat idx).

Fixpoint evalTokens (tokens : list bytes) (doc : bytes) : option bytes :=
  match tokens with
  | [] => Some doc
  | token :: rest =>
      if firstJSONByte doc =b "{"%byte then
        obj ← json_object doc;
        child ← (obj : gmap bytes bytes) !! token;
        evalTokens rest child
      else if firstJSONByte doc =b "["%byte then
        arr ← json_array doc;
        if bool_decide (token = bs "*") then mapArray (evalTokens rest) arr
        else
          idx ← array_index token (length arr);
          item ← arr !! idx;
          evalTokens rest item
      else None
  end.

Definition evalPointer (doc path : bytes) : option bytes :=
  match path with
  | [] => Some doc
  | c :: path' => if c =b "/"%byte then evalTokens (segments path') doc else None
  end.

Fixpoint resolveReference (ref : ResultReference) (prior : list Invocation) : option bytes :=
  match prior with
  | [] => None
  | resp :: prior' =>
      if bool_decide (inv_CallID resp = ref_ResultOf ref) then
        if bool_decide (inv_Name resp = ref_Name ref) then evalPointer (inv_Args resp) (ref_Path ref) else None
      else resolveReference ref prior'
  end.

(** ** Replacing the references of a call *)

Section backrefs.
Context `{MW : MapWalk}.

Definition weight (X : gset bytes) : nat := sum_list_with (fun k => S (length k)) (elements X).

(** The loop: what must and what may still be produced, the arguments, and
    whether one was replaced. *)
Fixpoint backref_loop (fuel : nat) (prior : list Invocation) (must may : gset bytes) (m : gmap bytes bytes) (changed : bool)
  : methodError + (gmap bytes bytes * bool) :=
  match fuel with
  | O => Datatypes.inl WalkFuel
  | S fuel' =>
      match walk_next must may with
      | None => Datatypes.inr (m, changed)
      | Some key =>
          match m !! key with
          | None => backref_loop fuel' prior (must ∖ {[ key ]}) (may ∖ {[ key ]}) m changed
          | Some raw =>
              match key with
              | c :: name =>
                  if negb (c =b hash) then backref_loop fuel' prior (must ∖ {[ key ]}) (may ∖ {[ key ]}) m changed
                  else if bool_decide (is_Some (m !! name)) then Datatypes.inl InvalidArguments
                  else
                    match decode_ref raw with
                    | None => Datatypes.inl InvalidResultReference
                    | Some ref =>
                        match resolveReference ref prior with
                        | None => Datatypes.inl InvalidResultReference
                        | Some value =>
                            backref_loop fuel' prior (must ∖ {[ key ]}) (may ∖ {[ key ]} ∪ {[ name ]})
                              (<[name := value]> (delete key m)) true
                        end
                    end
              | [] => backref_loop fuel' prior (must ∖ {[ key ]}) (may ∖ {[ key ]}) m changed
              end
          end
      end
  end.

Definition resolveBackrefs (args : bytes) (prior : list Invocation) : methodError + bytes :=
  match args with
  | [] => Datatypes.inr args
  | _ =>
      match json_object args with
      | None => Datatypes.inl InvalidArguments
      | Some m =>
          match backref_loop (S (weight (dom m))) prior (dom m) ∅ m false with
          | Datatypes.inl e => Datatypes.inl e
          | Datatypes.inr (_, false) => Datatypes.inr args
          | Datatypes.inr (m', true) =>
              match marshal_members m' with
              | None => Datatypes.inl ServerFail
              | Some out => Datatypes.inr out
              end
          end
      end
  end.
End backrefs.

(** ** The processor *)

Record Call := mkCall { c_Name : bytes; c_Args : bytes; c_CallID : bytes; c_Identity : Identity }.

Section processor.
Context {W : Type} `{MW : MapWalk}.

(** A handler over the world and the creation ids, which it may change;
    [None] is a panic. *)
Definition Handler : Type := W -> gmap Id Id -> Call -> W * gmap Id Id * option (list Invocation).

Record method := mkMethod { m_handler : Handler; m_capability : bytes }.
Record Processor := mkProcessor { p_methods : gmap bytes method; p_capabilities : gset bytes; p_verify : bool }.

Definition Register (name capability : bytes) (h : Handler) (p : Processor) : Processor :=
  mkProcessor (<[name := mkMethod h capability]> (p_methods p)) ({[ capability ]} ∪ p_capabilities p) (p_verify p).

Definition VerifyQueryProjection (p : Processor) : Processor := mkProcessor (p_methods p) (p_capabilities p) true.

Definition Supports (p : Processor) (capability : bytes) : bool := bool_decide (capability ∈ p_capabilities p).

Definition CoreCapability : bytes := bs "urn:ietf:params:jmap:core".

Definition echo : Handler := fun w ids call =>
  (w, ids, Some [match compact_raw (c_Args call) with
                 | None => ErrorInvocation (c_CallID call) ServerFail
                 | Some args => mkInvocation (bs "Core/echo") args (c_CallID call)
                 end]).

Definition NewProcessor : Processor :=
  Register (bs "Core/echo") CoreCapability echo (mkProcessor ∅ {[ CoreCapability ]} false).

(** The first capability of the request that is not supported. *)
Fixpoint CheckUsing (p : Processor) (opted : list bytes) : option bytes :=
  match opted with
  | [] => None
  | c :: opted' => if Supports p c then CheckUsing p opted' else Some c
  end.

Definition processCall (p : Processor) (inv : Invocation) (ident : Identity) (opted : list bytes)
  (w : W) (ids : gmap Id Id) (prior : list Invocation) : W * gmap Id Id * list Invocation :=
  match p_methods p !! inv_Name inv with
  | None => (w, ids, [ErrorInvocation (inv_CallID inv) UnknownMethod])
  | Some m =>
      if negb (bool_decide (m_capability m ∈ opted)) then (w, ids, [ErrorInvocation (inv_CallID inv) UnknownMethod])
      else
        match resolveBackrefs (inv_Args inv) prior with
        | Datatypes.inl e => (w, ids, [ErrorInvocation (inv_CallID inv) e])
        | Datatypes.inr args =>
            match m_handler m w ids (mkCall (inv_Name inv) args (inv_CallID inv) ident) with
            | (w', ids', Some out) => (w', ids', out)
            | (w', ids', None) => (w', ids', [ErrorInvocation (inv_CallID inv) ServerFail])
            end
        end
  end.

Fixpoint process_calls (p : Processor) (ident : Identity) (opted : list bytes) (calls : list Invocation)
  (w : W) (ids : gmap Id Id) (responses : list Invocation) : W * gmap Id Id * list Invocation :=
  match calls with
  | [] => (w, ids, responses)
  | inv :: calls' =>
      let '(w', ids', out) := processCall p inv ident opted w ids responses in
      process_calls p ident opted calls' w' ids' (responses ++ out)
  end.

Definition Process (p : Processor) (req : RequestObject) (ident : Identity) (sessionState : bytes) (w : W) : W * Response :=
  let '(w', createdIds, responses) :=
    process_calls p ident (rq_Using req) (rq_MethodCalls req) w (default ∅ (rq_CreatedIds req)) [] in
  (w', mkResponse responses (match rq_CreatedIds req with Some _ => Some createdIds | None => None end) sessionState).

End processor.

(** ** The response on the wire *)

Definition comma_separated (l : list bytes) : bytes :=
  match l with [] => [] | x :: l' => x ++ concat (map (fun y => ","%byte :: y) l') end.

Definition append_invocation (inv : Invocation) : bytes :=
  "["%byte :: marshal_string (inv_Name inv) ++ ","%byte :: (match inv_Args inv with [] => bs "{}" | a => a end)
  ++ ","%byte :: marshal_string (inv_CallID inv) ++ ["]"%byte].

Definition append_created (ids : gmap Id Id) : bytes :=
  comma_separated (map (fun id => marshal_string id ++ ":"%byte :: marshal_string (default [] (ids !! id)))
                       (sort_strings (map_to_list ids).*1)).

Definition quote : bytes := [x22].

(** The member name [name], quoted, with its colon. *)
Definition member_name (name : bytes) : bytes := quote ++ name ++ quote ++ [":"%byte].

Definition AppendJSON (r : Response) : bytes :=
  "{"%byte :: member_name (bs "methodResponses") ++ "["%byte :: comma_separated (map append_invocation (rs_MethodResponses r)) ++ "]"%byte ::
  (if (0 <? size (default ∅ (rs_CreatedIds r)))%nat
   then ","%byte :: member_name (bs "createdIds") ++ "{"%byte :: append_created (default ∅ (rs_CreatedIds r)) ++ ["}"%byte]
   else [])
  ++ ","%byte :: member_name (bs "sessionState") ++ marshal_string (rs_SessionState r) ++ ["}"%byte].

Definition WriteJSON (r : Response) : bytes := AppendJSON r ++ [x0a].

End text.
Arguments Handler W : clear implicits.
Arguments Processor W : clear implicits.

End Request.
