(* ===== verification/RequestFacts.v ===== *)
(** * RequestFacts: result references and request processing

    A pointer into a response is evaluated on its text as RFC 6901, with the
    ["*"] of RFC 8620, says on the value ([pointer_tree]).  The references of
    a call are replaced independently of the order the arguments come in
    ([backrefs_exact]) - unless an argument's name starts with two ["#"], when
    the outcome depends on that order ([double_hash_order]).  An empty map of
    creation ids is lost on the wire ([empty_createdIds_lost]). *)

From S2P Require Import Prelude GoLib Keyenc Backend Jsonscan Jmap Descriptor Keys ObjectDB Blobs Sorting Filter Query Patch SetFacts Request.

Module RequestFacts.
Import Jsonscan Jmap Filter Query Patch SetFacts Request.

(** ** Values *)

Inductive leaf := LString (s : bytes) | LToken (raw : bytes).
#[warnings="-register-all"]
Inductive tree := TObj (m : gmap bytes tree) | TArr (l : list tree) | TLeaf (v : leaf).

Definition leaf_value (raw : bytes) : leaf := match JString raw with Some s => LString s | None => LToken raw end.

(** The text [raw] stands for a value. *)
Inductive denotes : bytes -> tree -> Prop :=
  | den_obj raw (m : gmap bytes bytes) (ts : gmap bytes tree) :
      firstJSONByte raw = "{"%byte -> json_object raw = Some m -> dom m = dom ts ->
      (forall k v t, m !! k = Some v -> ts !! k = Some t -> denotes v t) -> denotes raw (TObj ts)
  | den_arr raw (l : list bytes) (ts : list tree) :
      firstJSONByte raw = "["%byte -> json_array raw = Some l -> length l = length ts ->
      (forall i v t, l !! i = Some v -> ts !! i = Some t -> denotes v t) -> denotes raw (TArr ts)
  | den_leaf raw : firstJSONByte raw <> "{"%byte -> firstJSONByte raw <> "["%byte -> denotes raw (TLeaf (leaf_value raw)).

(** A marshalled slice stands for the values of its elements. *)
Class WireLaws `{WT : WireText} : Prop := {
  marshal_array_denotes l r ts : marshal_array l = Some r -> length l = length ts ->
    (forall i v t, l !! i = Some v -> ts !! i = Some t -> denotes v t) -> denotes r (TArr ts);
}.

(** RFC 6901 on values; ["*"] maps over an array and flattens. *)
Definition flatten (t : tree) : list tree := match t with TArr l => l | t => [t] end.

Fixpoint eval_tree (tokens : list bytes) (t : tree) : option tree :=
  match tokens with
  | [] => Some t
  | token :: rest =>
      match t with
      | TObj m => child ← m !! token; eval_tree rest child
      | TArr l =>
          if bool_decide (token = bs "*") then
            us ← mapM (eval_tree rest) l; Some (TArr (concat (map flatten us)))
          else idx ← array_index token (length l); item ← l !! idx; eval_tree rest item
      | TLeaf _ => None
      end
  end.

Definition pointer_value (t : tree) (path : bytes) : option tree :=
  match path with
  | [] => Some t
  | c :: path' => if c =b "/"%byte then eval_tree (segments path') t else None
  end.

Section pointers.
Context `{WL : WireLaws}.

Lemma denotes_cons v l t ts :
  denotes v t -> (forall i v t, l !! i = Some v -> ts !! i = Some t -> denotes v t) ->
  forall i v' t', (v :: l) !! i = Some v' -> (t :: ts) !! i = Some t' -> denotes v' t'.
Proof. intros H Hl [|i] v' t'; cbn; [by intros [= <-] [= <-]|apply Hl]. Qed.

Lemma denotes_app (l1 l2 : list bytes) (ts1 ts2 : list tree) :
  length l1 = length ts1 ->
  (forall i v t, l1 !! i = Some v -> ts1 !! i = Some t -> denotes v t) ->
  (forall i v t, l2 !! i = Some v -> ts2 !! i = Some t -> denotes v t) ->
  forall i v t, (l1 ++ l2) !! i = Some v -> (ts1 ++ ts2) !! i = Some t -> denotes v t.
Proof.
  intros Hl H1 H2 i v t. rewrite !lookup_app, Hl.
  destruct (l1 !! i) eqn:E1, (ts1 !! i) eqn:E2.
  - intros [= <-] [= <-]. by eapply H1.
  - apply lookup_lt_Some in E1. apply lookup_ge_None in E2. lia.
  - apply lookup_lt_Some in E2. apply lookup_ge_None in E1. lia.
  - apply H2.
Qed.

(** The elements a result contributes. *)
Lemma here_denotes r u here :
  denotes r u -> (if firstJSONByte r =b "["%byte then json_array r else Some [r]) = Some here ->
  length here = length (flatten u) /\ forall i v t, here !! i = Some v -> flatten u !! i = Some t -> denotes v t.
Proof.
  intros Hd. destruct Hd as [raw m ts E ? ? ?|raw l ts E E2 ? ?|raw E1 E2]; cbn [flatten].
  - rewrite E. intros [= <-]. split; [done|]. intros [|i] v t; cbn; [intros [= <-] [= <-]; by econstructor|done].
  - rewrite E, E2. change ("["%byte =b "["%byte) with true. by intros [= <-].
  - apply beqb_neq in E2 as E2'. rewrite E2'. intros [= <-]. split; [done|].
    intros [|i] v t; cbn; [intros [= <-] [= <-]; by constructor|done].
Qed.

Lemma map_items_tree (eval : bytes -> option bytes) (evalt : tree -> option tree) :
  (forall doc t r, denotes doc t -> eval doc = Some r -> exists u, evalt t = Some u /\ denotes r u) ->
  forall l ts results, length l = length ts ->
  (forall i v t, l !! i = Some v -> ts !! i = Some t -> denotes v t) ->
  map_items eval l = Some results ->
  exists us, mapM evalt ts = Some us /\ length results = length (concat (map flatten us)) /\
    forall i v t, results !! i = Some v -> concat (map flatten us) !! i = Some t -> denotes v t.
Proof.
  intros He. induction l as [|v l IH]; intros [|t ts] results Hlen Hd H; try done.
  { injection H as <-. exists []. split_and!; [done..|]. intros i v t Hi. by rewrite lookup_nil in Hi. }
  cbn [map_items] in H. destruct (eval v) as [r|] eqn:Er; [|done]. cbn in H.
  destruct (if firstJSONByte r =b "["%byte then _ else _) as [here|] eqn:Eh; [|done]. cbn in H.
  destruct (map_items eval l) as [rest|] eqn:El; [|done]. injection H as <-.
  destruct (He v t r) as (u & Eu & Hu); [by apply (Hd 0%nat)|done|].
  destruct (here_denotes r u here Hu Eh) as [Hl1 Hd1].
  destruct (IH ts rest) as (us & Eus & Hl2 & Hd2); [by injection Hlen|intros i; apply (Hd (S i))|done|].
  exists (u :: us). cbn [mapM]. rewrite Eu. cbn. rewrite Eus. split; [done|]. cbn [map concat].
  rewrite !length_app. split; [lia|]. by apply denotes_app.
Qed.

Lemma evalTokens_tree tokens : forall doc t r,
  denotes doc t -> evalTokens tokens doc = Some r -> exists u, eval_tree tokens t = Some u /\ denotes r u.
Proof.
  induction tokens as [|token rest IH]; intros doc t r Hd H.
  { injection H as <-. by exists t. }
  cbn [evalTokens eval_tree] in *. destruct Hd as [raw m ts E E2 Hdom Hk|raw l ts E E2 Hlen Hk|raw E1 E2].
  - rewrite E in H. change ("{"%byte =b "{"%byte) with true in H. rewrite E2 in H. cbn in H.
    destruct (m !! token) as [child|] eqn:Ec; [|done]. cbn in H.
    assert (Hin : token ∈ dom ts) by (rewrite <- Hdom; by apply elem_of_dom_2 in Ec).
    apply elem_of_dom in Hin as [ct Et]. rewrite Et. cbn. eapply IH; [|exact H]. by eapply Hk.
  - rewrite E in H. change ("["%byte =b "{"%byte) with false in H. change ("["%byte =b "["%byte) with true in H.
    rewrite E2 in H. cbn [mbind option_bind] in H. destruct (bool_decide (token = bs "*")).
    + unfold mapArray in H. destruct (map_items (evalTokens rest) l) as [results|] eqn:Em; [|done]. cbn in H.
      destruct (map_items_tree (evalTokens rest) (eval_tree rest) IH l ts results Hlen Hk Em) as (us & -> & Hl & Hd).
      cbn. eexists. split; [done|]. by eapply marshal_array_denotes.
    + rewrite Hlen in H. destruct (array_index token (length ts)) as [idx|]; [|done]. cbn in *.
      destruct (l !! idx) as [item|] eqn:Ei; [|done]. cbn in H.
      assert (Hi : (idx < length ts)%nat) by (rewrite <- Hlen; by eapply lookup_lt_Some).
      apply lookup_lt_is_Some in Hi as [it Et]. rewrite Et. cbn. eapply IH; [|exact H]. by eapply Hk.
  - apply beqb_neq in E1, E2. by rewrite E1, E2 in H.
Qed.

Lemma evalTokens_complete tokens : forall doc t u,
  denotes doc t -> bs "*" ∉ tokens -> eval_tree tokens t = Some u -> exists r, evalTokens tokens doc = Some r.
Proof.
  induction tokens as [|token rest IH]; intros doc t u Hd Hs H; [by exists doc|].
  apply not_elem_of_cons in Hs as [Hs1 Hs2].
  cbn [evalTokens eval_tree] in *. destruct Hd as [raw m ts E E2 Hdom Hk|raw l ts E E2 Hlen Hk|raw E1 E2]; [| |done].
  - rewrite E. change ("{"%byte =b "{"%byte) with true. rewrite E2. cbn.
    destruct (ts !! token) as [ct|] eqn:Et; [|done]. cbn in H.
    assert (Hin : token ∈ dom m) by (rewrite Hdom; by apply elem_of_dom_2 in Et).
    apply elem_of_dom in Hin as [child Ec]. rewrite Ec. cbn. eapply IH; [|done|exact H]. by eapply Hk.
  - rewrite E. change ("["%byte =b "{"%byte) with false. change ("["%byte =b "["%byte) with true.
    rewrite E2. cbn [mbind option_bind]. rewrite bool_decide_eq_false_2 in H |- * by done. rewrite Hlen.
    destruct (array_index token (length ts)) as [idx|]; [|done]. cbn in *.
    destruct (ts !! idx) as [it|] eqn:Et; [|done]. cbn in H.
    assert (Hi : (idx < length l)%nat) by (rewrite Hlen; by eapply lookup_lt_Some).
    apply lookup_lt_is_Some in Hi as [item Ei]. rewrite Ei. cbn. eapply IH; [|done|exact H]. by eapply Hk.
Qed.

End pointers.

(** ** Replacing references *)

Lemma sum_list_with_perm {A} (f : A -> nat) l l' : l ≡ₚ l' -> sum_list_with f l = sum_list_with f l'.
Proof. induction 1; cbn; lia. Qed.

Lemma weight_remove (k : bytes) (X : gset bytes) : k ∈ X -> weight X = (S (length k) + weight (X ∖ {[ k ]}))%nat.
Proof.
  intros Hk. unfold weight. rewrite (union_difference_singleton_L k X Hk) at 1.
  erewrite sum_list_with_perm; [|apply elements_union_singleton; set_solver]. done.
Qed.

Lemma weight_add (k : bytes) (X : gset bytes) : (weight (X ∪ {[ k ]}) <= S (length k) + weight X)%nat.
Proof.
  destruct (decide (k ∈ X)) as [Hk|Hk].
  - assert (X ∪ {[ k ]} = X) as -> by set_solver. lia.
  - rewrite (union_comm_L X). unfold weight. erewrite sum_list_with_perm; [|by apply elements_union_singleton]. cbn. lia.
Qed.

Section backrefs.
Context `{JT : JsonText, WT : WireText}.

(** The value a reference argument stands for. *)
Definition deref (prior : list Invocation) (raw : bytes) : option bytes :=
  ref ← decode_ref raw; resolveReference ref prior.

(** No argument's name starts with two hashes. *)
Definition single_hash (m : gmap bytes bytes) : Prop := forall n, m !! (hash :: hash :: n) = None.

(** Every reference can be replaced. *)
Definition resolvable (m : gmap bytes bytes) (prior : list Invocation) : Prop :=
  forall n raw, m !! (hash :: n) = Some raw -> m !! n = None /\ is_Some (deref prior raw).

(** The arguments after replacement. *)
Definition replaced (m : gmap bytes bytes) (prior : list Invocation) (k : bytes) : option bytes :=
  match k with
  | c :: _ => if c =b hash then None
              else match m !! k with Some v => Some v | None => raw ← m !! (hash :: k); deref prior raw end
  | [] => match m !! k with Some v => Some v | None => raw ← m !! (hash :: k); deref prior raw end
  end.

Definition backref_outcome (m : gmap bytes bytes) (prior : list Invocation) (res : methodError + (gmap bytes bytes * bool)) : Prop :=
  match res with
  | Datatypes.inr (m', changed) =>
      resolvable m prior /\ (forall k, m' !! k = replaced m prior k) /\
      (changed = true <-> exists n, is_Some (m !! (hash :: n)))
  | Datatypes.inl InvalidArguments => exists n, is_Some (m !! (hash :: n)) /\ is_Some (m !! n)
  | Datatypes.inl InvalidResultReference => exists n raw, m !! (hash :: n) = Some raw /\ deref prior raw = None
  | Datatypes.inl _ => False
  end.

(** [P] holds the names replaced so far. *)
Record walking (m0 : gmap bytes bytes) (prior : list Invocation) (P must may : gset bytes) (m : gmap bytes bytes) (changed : bool) : Prop := {
  wk_done n : n ∈ P -> exists raw v, m0 !! (hash :: n) = Some raw /\ m0 !! n = None /\ deref prior raw = Some v /\
    m !! n = Some v /\ m !! (hash :: n) = None;
  wk_rest k : k ∉ P -> (forall n, k = hash :: n -> n ∉ P) -> m !! k = m0 !! k;
  wk_must n : (hash :: n) ∈ must -> n ∉ P /\ is_Some (m0 !! (hash :: n));
  wk_all n : is_Some (m0 !! (hash :: n)) -> n ∈ P \/ (hash :: n) ∈ must;
  wk_may : may ⊆ P;
  wk_changed : changed = true <-> P <> ∅
}.

Lemma walking_start m0 prior : walking m0 prior ∅ (dom m0) ∅ m0 false.
Proof.
  split; try set_solver.
  - intros n Hn. split; [set_solver|by apply elem_of_dom].
  - intros n Hn. right. by apply elem_of_dom.
Qed.

Section steps.
Context (m0 : gmap bytes bytes) (prior : list Invocation) (Hsingle : single_hash m0).

(** The names replaced do not start with a hash. *)
Lemma walking_plain P must may m changed n : walking m0 prior P must may m changed -> (hash :: n) ∉ P.
Proof. intros Hw Hn. destruct (wk_done _ _ _ _ _ _ _ Hw _ Hn) as (raw & v & E & _). by rewrite Hsingle in E. Qed.

Lemma walking_skip P must may m changed key :
  walking m0 prior P must may m changed -> (forall n, key <> hash :: n) ->
  walking m0 prior P (must ∖ {[ key ]}) (may ∖ {[ key ]}) m changed.
Proof.
  intros [H1 H2 H3 H4 H5 H6] Hk. split; try done.
  - intros n Hn. apply H3. set_solver.
  - intros n Hn. destruct (H4 n Hn) as [|Hm]; [by left|right]. apply elem_of_difference. split; [done|].
    intros E%elem_of_singleton. by destruct (Hk n).
  - set_solver.
Qed.

(** A reference the loop reaches is as the client sent it, and so is the
    argument it names. *)
Lemma walking_at P must may m changed n :
  walking m0 prior P must may m changed -> (hash :: n) ∈ must ∪ may ->
  n ∉ P /\ is_Some (m0 !! (hash :: n)) /\ m !! (hash :: n) = m0 !! (hash :: n) /\ m !! n = m0 !! n.
Proof.
  intros Hw Hin. pose proof (fun n => walking_plain _ _ _ _ _ n Hw) as Hp. destruct Hw as [H1 H2 H3 H4 H5 H6].
  apply elem_of_union in Hin as [Hin|Hin]; [|by destruct (Hp n); apply H5].
  destruct (H3 n Hin) as [Hn Hs]. split_and!; [done|done| |].
  - apply H2; [apply Hp|]. by intros ? [= <-].
  - apply H2; [done|]. intros n' ->. destruct Hs as [x Hs]. by rewrite Hsingle in Hs.
Qed.

Lemma walking_replace P must may m changed n raw v :
  walking m0 prior P must may m changed -> (hash :: n) ∈ must ∪ may ->
  m0 !! (hash :: n) = Some raw -> m0 !! n = None -> deref prior raw = Some v ->
  walking m0 prior (P ∪ {[ n ]}) (must ∖ {[ hash :: n ]}) (may ∖ {[ hash :: n ]} ∪ {[ n ]})
    (<[n := v]> (delete (hash :: n) m)) true.
Proof.
  intros Hw Hin Hraw Hnone Hv. destruct (walking_at _ _ _ _ _ _ Hw Hin) as (Hn & _ & Em & En).
  pose proof (fun n => walking_plain _ _ _ _ _ n Hw) as Hp. destruct Hw as [H1 H2 H3 H4 H5 H6].
  assert (Hne : n <> hash :: n) by (intros E; apply (f_equal length) in E; cbn in E; lia).
  assert (Hnh : forall n', n <> hash :: n') by (intros n' ->; by rewrite Hsingle in Hraw).
  split.
  - intros k [Hk|Hk]%elem_of_union; [|apply elem_of_singleton in Hk as ->].
    + destruct (H1 k Hk) as (raw' & v' & E1 & E2 & E3 & E4 & E5). exists raw', v'.
      assert (k <> n) by (by intros ->). assert (k <> hash :: n) by (intros ->; by apply (Hp n)).
      split_and!; try done.
      * by rewrite lookup_insert_ne, lookup_delete_ne.
      * rewrite lookup_insert_ne by (by apply not_eq_sym). rewrite lookup_delete_ne; [done|]. congruence.
    + exists raw, v. split_and!; try done; [by rewrite lookup_insert_eq|].
      rewrite lookup_insert_ne by done. apply lookup_delete_eq.
  - intros k [Hk1 Hk2]%not_elem_of_union Hk3. rewrite lookup_insert_ne by set_solver.
    rewrite lookup_delete_ne by (intros <-; destruct (Hk3 n eq_refl); set_solver).
    apply H2; [done|]. intros n' ->. specialize (Hk3 n' eq_refl). set_solver.
  - intros k [Hk Hk2]%elem_of_difference. destruct (H3 k Hk) as [Hk3 Hk4]. split; [|done].
    apply not_elem_of_union. split; [done|]. intros ->%elem_of_singleton. by apply Hk2, elem_of_singleton.
  - intros k Hk. destruct (decide (k = n)) as [->|Hkn]; [left; set_solver|].
    destruct (H4 k Hk) as [|Hm]; [left; set_solver|right]. apply elem_of_difference. split; [done|].
    intros E%elem_of_singleton. congruence.
  - set_solver.
  - split; [set_solver|done].
Qed.

Lemma walking_end P may m changed :
  walking m0 prior P ∅ may m changed -> backref_outcome m0 prior (Datatypes.inr (m, changed)).
Proof.
  intros Hw. pose proof (fun n => walking_plain _ _ _ _ _ n Hw) as Hp. destruct Hw as [H1 H2 H3 H4 H5 H6].
  assert (HP : forall n, is_Some (m0 !! (hash :: n)) -> n ∈ P).
  { intros n Hn. destruct (H4 n Hn) as [|H]; [done|set_solver]. }
  assert (Hplain : forall k, (forall n, k <> hash :: n) ->
    m !! k = match m0 !! k with Some v => Some v | None => raw ← m0 !! (hash :: k); deref prior raw end).
  { intros k Hk. destruct (decide (k ∈ P)) as [Hin|Hin].
    - destruct (H1 k Hin) as (raw & v & E1 & E2 & E3 & E4 & _). by rewrite E2, E1, E4.
    - rewrite H2 by (try done; intros n ->; by destruct (Hk n)). destruct (m0 !! k); [done|].
      destruct (m0 !! (hash :: k)) eqn:E; [|done]. destruct Hin. apply HP. by rewrite E. }
  cbn. split_and!.
  - intros n raw Hraw. destruct (H1 n (HP n (mk_is_Some _ _ Hraw))) as (raw' & v & E1 & E2 & E3 & _).
    simplify_eq. split; [done|]. by eexists.
  - intros k. unfold replaced. destruct k as [|c k]; [apply Hplain; done|].
    destruct (c =b hash) eqn:Ec.
    + apply beqb_eq in Ec as ->. destruct (m0 !! (hash :: k)) eqn:E.
      * destruct (H1 k) as (? & ? & _ & _ & _ & _ & E5); [apply HP; by rewrite E|done].
      * rewrite H2; [done|apply Hp|]. intros n [= <-] Hn. destruct (H1 k Hn) as (? & ? & E1 & _). congruence.
    + apply Hplain. intros n [= -> _]. by rewrite beqb_refl in Ec.
  - rewrite H6. split.
    + intros [n Hn]%set_choose_L. destruct (H1 n Hn) as (raw & v & E & _). exists n. by rewrite E.
    + intros (n & Hn) E. specialize (HP n Hn). set_solver.
Qed.

End steps.

Lemma backref_loop_outcome `{MW : MapWalk} (m0 : gmap bytes bytes) (prior : list Invocation) (fuel : nat) :
  single_hash m0 -> forall P must may m changed,
  walking m0 prior P must may m changed -> (weight (must ∪ may) < fuel)%nat ->
  backref_outcome m0 prior (backref_loop fuel prior must may m changed).
Proof.
  intros Hs. induction fuel as [|fuel IH]; intros P must may m changed Hw Hf; [lia|]. cbn [backref_loop].
  destruct (walk_next must may) as [key|] eqn:Ek.
  2: { apply walk_none in Ek as ->. by eapply walking_end. }
  apply walk_some in Ek as Hin. pose proof (weight_remove key _ Hin) as Hwt.
  assert (Hset : must ∖ {[ key ]} ∪ may ∖ {[ key ]} = (must ∪ may) ∖ {[ key ]}) by set_solver.
  assert (Hskip : (forall n, key <> hash :: n) ->
    backref_outcome m0 prior (backref_loop fuel prior (must ∖ {[ key ]}) (may ∖ {[ key ]}) m changed)).
  { intros Hk. eapply IH; [by apply walking_skip|]. rewrite Hset. lia. }
  destruct key as [|c n]; [destruct (m !! []); by apply Hskip|].
  destruct (c =b hash) eqn:Ec; cbn [negb].
  2: { assert (Hn : forall n', c :: n <> hash :: n') by (intros n' [= -> _]; by rewrite beqb_refl in Ec).
       destruct (m !! (c :: n)); by apply Hskip. }
  apply beqb_eq in Ec as ->.
  destruct (walking_at m0 prior Hs _ _ _ _ _ _ Hw Hin) as (Hn & [raw Hraw] & Em & En). rewrite Em, Hraw, En.
  destruct (m0 !! n) as [x|] eqn:Enone.
  { exists n. rewrite Hraw, Enone. split; by eexists. }
  rewrite bool_decide_eq_false_2 by (by intros [? ?]).
  destruct (deref prior raw) as [v|] eqn:Ev.
  - unfold deref in Ev. destruct (decode_ref raw) as [ref|] eqn:Er; [|done]. cbn in Ev. rewrite Ev.
    eapply IH.
    + eapply walking_replace; [done..|]. unfold deref. by rewrite Er.
    + rewrite (assoc_L (∪)), Hset. pose proof (weight_add n ((must ∪ may) ∖ {[ hash :: n ]})). cbn in Hwt. lia.
  - assert (Hbad : backref_outcome m0 prior (Datatypes.inl InvalidResultReference)) by (by exists n, raw).
    unfold deref in Ev. destruct (decode_ref raw) as [ref|]; [|done]. cbn in Ev. by rewrite Ev.
Qed.

End backrefs.

(** C0: a pointer into a response is evaluated on its text as it is on the
    value the text stands for: what [evalPointer] returns stands for what RFC
    6901, with ["*"] mapping over an array and flattening, selects; and every
    selection without ["*"] is found. *)
Theorem pointer_tree `{WL : WireLaws} (doc path : bytes) (t : tree) (Hd : denotes doc t) :
  (forall r, evalPointer doc path = Some r -> exists u, pointer_value t path = Some u /\ denotes r u) /\
  (forall u, pointer_value t path = Some u -> bs "*" ∉ segments (tail path) ->
     exists r, evalPointer doc path = Some r /\ denotes r u).
Proof.
  assert (Hsound : forall r, evalPointer doc path = Some r -> exists u, pointer_value t path = Some u /\ denotes r u).
  { intros r. destruct path as [|c path]; cbn; [intros [= <-]; by exists t|].
    destruct (c =b "/"%byte); [by apply evalTokens_tree|done]. }
  split; [done|]. intros u Hu Hs.
  assert (Hr : exists r, evalPointer doc path = Some r).
  { destruct path as [|c path]; cbn in *; [by exists doc|]. destruct (c =b "/"%byte); [|done]. by eapply evalTokens_complete. }
  destruct Hr as [r Er]. exists r. split; [done|]. destruct (Hsound r Er) as (u' & Eu & Hd'). congruence.
Qed.

(** C0: the references of a call are replaced exactly, whatever order the map
    of arguments is walked in and whether or not the walk meets the arguments
    it adds.  For arguments none of whose names starts with two hashes, the
    call goes on exactly when no argument comes in both forms and every
    reference resolves; every ["#name"] is then [name] with the referenced
    value, the other arguments are kept, and arguments without references
    are passed on byte for byte.  A refusal names a reason that is there. *)
Theorem backrefs_exact `{JT : JsonText, WT : WireText, MW : MapWalk} (args : bytes) (prior : list Invocation) (m : gmap bytes bytes)
  (Hne : args <> []) (Hm : json_object args = Some m) (Hs : single_hash m) :
  match resolveBackrefs args prior with
  | Datatypes.inr out =>
      resolvable m prior /\
      (((forall n, m !! (hash :: n) = None) /\ out = args) \/
       ((exists n, is_Some (m !! (hash :: n))) /\
        exists m', (forall k, m' !! k = replaced m prior k) /\ marshal_members m' = Some out))
  | Datatypes.inl ServerFail =>
      resolvable m prior /\ exists m', (forall k, m' !! k = replaced m prior k) /\ marshal_members m' = None
  | Datatypes.inl InvalidArguments => exists n, is_Some (m !! (hash :: n)) /\ is_Some (m !! n)
  | Datatypes.inl InvalidResultReference => exists n raw, m !! (hash :: n) = Some raw /\ deref prior raw = None
  | Datatypes.inl _ => False
  end.
Proof.
  unfold resolveBackrefs. destruct args as [|b args]; [done|]. rewrite Hm.
  pose proof (backref_loop_outcome m prior (S (weight (dom m))) Hs _ _ _ _ _ (walking_start m prior)) as H.
  rewrite union_empty_r_L in H. specialize (H ltac:(lia)).
  destruct (backref_loop _ _ _ _ _ _) as [e|[m' []]]; cbn in H.
  - by destruct e.
  - destruct H as (H1 & H2 & H3). destruct (marshal_members m') eqn:E.
    + split; [done|]. right. split; [by apply H3|]. by exists m'.
    + split; [done|]. by exists m'.
  - destruct H as (H1 & H2 & H3). split; [done|]. left. split; [|done]. intros n.
    destruct (m !! (hash :: n)) as [raw|] eqn:E; [|done]. exfalso. assert (false = true); [|done].
    apply H3. exists n. by rewrite E.
Qed.

(** ** Concrete walks and texts *)

(** JSON written with single quotes. *)
Definition jtext (s : bytes) : bytes := map (fun b => if b =b "'"%byte then x22 else b) s.

(** Only what must be produced is. *)
Definition walk_once : MapWalk.
Proof.
  refine {| walk_next := fun must _ => head (elements must) |}.
  - intros must may k H. apply elem_of_union_l. apply elem_of_elements. by apply head_Some_elem_of.
  - intros must may H. apply head_None in H. by apply elements_empty_iff in H as ?%leibniz_equiv.
Defined.

(** Added entries are produced too. *)
Definition walk_twice : MapWalk.
Proof.
  refine {| walk_next := fun must may => match head (elements must) with Some k => Some k | None => head (elements may) end |}.
  - intros must may k H. apply elem_of_union. destruct (head (elements must)) as [k'|] eqn:E.
    + injection H as ->. left. apply elem_of_elements. by apply head_Some_elem_of.
    + right. apply elem_of_elements. by apply head_Some_elem_of.
  - intros must may H. destruct (head (elements must)) eqn:E; [done|].
    apply head_None in E. by apply elements_empty_iff in E as ?%leibniz_equiv.
Defined.

Definition demo_wire : WireText := {|
  decode_ref raw :=
    m ← json_object raw;
    let field := fun n => default [] (raw ← (m : gmap bytes bytes) !! n; json_string raw) in
    Some (mkRef (field (bs "resultOf")) (field (bs "name")) (field (bs "path")));
  marshal_array l := let r := "["%byte :: comma_separated l ++ ["]"%byte] in if bool_decide (json_array r = Some l) then Some r else None;
  marshal_error _ := bs "{}";
  compact_raw raw := Some raw;
|}.

Lemma demo_wire_laws : WireLaws (WT := demo_wire).
Proof.
  split. intros l r ts H Hl Hd. cbn in H. case_bool_decide as E; [|done]. injection H as <-.
  by eapply den_arr.
Qed.

(** An earlier response, and a call that takes a number out of it twice. *)
Definition demo_prior : list Invocation := [mkInvocation (bs "Foo/get") (jtext (bs "{'n':[7]}")) (bs "c0")].
Definition demo_ref (name : bytes) : bytes :=
  jtext (bs "{'" ++ name ++ bs "':{'resultOf':'c0','name':'Foo/get','path':'/n'},'b':1}").

#[local] Existing Instances demo_text demo_wire.

(** C0: an argument whose name starts with two hashes is resolved once or
    twice, as the iteration goes.  The entry the loop adds for it may be
    produced by the same iteration, and is then taken for a reference of its
    own: the same call on the same responses runs under one walk and is
    refused under another. *)
Theorem double_hash_order :
  (exists out, resolveBackrefs (MW := walk_once) (demo_ref (bs "##a")) demo_prior = Datatypes.inr out) /\
  resolveBackrefs (MW := walk_twice) (demo_ref (bs "##a")) demo_prior = Datatypes.inl InvalidResultReference.
Proof. split; [eexists|]; vm_compute; reflexivity. Qed.

(** C0: an empty map of creation ids is lost.  A client that sends
    [createdIds: {}] and gets nothing created receives the same bytes as one
    that sent none, although the processor put the map in the response. *)
Theorem empty_createdIds_lost `{JT : JsonText, WT : WireText, MW : MapWalk} {W : Type} (p : Processor W) (opted : list bytes)
  (calls : list Invocation) (ident : Identity) (state : bytes) (w : W)
  (Hnone : rs_CreatedIds (Process p (mkRequest opted calls (Some ∅)) ident state w).2 = Some ∅) :
  rs_CreatedIds (Process p (mkRequest opted calls None) ident state w).2 = None /\
  WriteJSON (Process p (mkRequest opted calls (Some ∅)) ident state w).2 =
  WriteJSON (Process p (mkRequest opted calls None) ident state w).2.
Proof.
  unfold Process in *. cbn [rq_Using rq_MethodCalls rq_CreatedIds] in *. cbn [default] in *.
  destruct (process_calls _ _ _ _ _ _ _) as [[w' ids] responses]. cbn in Hnone. injection Hnone as ->. done.
Qed.

(** ** Witnesses *)

Lemma demo_doc : denotes (jtext (bs "{'n':[7]}")) (TObj {[ bs "n" := TArr [TLeaf (LToken (bs "7"))] ]}).
Proof.
  eapply den_obj; [reflexivity|vm_compute; reflexivity| |].
  - vm_compute. reflexivity.
  - intros k v t Hv Ht. apply lookup_singleton_Some in Ht as [<- <-].
    assert (v = bs "[7]") as ->. { vm_compute in Hv. by injection Hv as <-. }
    eapply (den_arr _ [bs "7"]); [reflexivity|vm_compute; reflexivity|done|].
    intros [|i] v' t'; [|done]. intros [= <-] [= <-]. by apply (den_leaf (bs "7")).
Qed.

Lemma pointer_tree_witness :
  exists u, pointer_value (TObj {[ bs "n" := TArr [TLeaf (LToken (bs "7"))] ]}) (bs "/n/*") = Some u /\ denotes (bs "[7]") u.
Proof.
  pose proof demo_wire_laws as WL.
  apply (pointer_tree (WT := demo_wire) (jtext (bs "{'n':[7]}")) (bs "/n/*") _ demo_doc).
  vm_compute. reflexivity.
Defined.

Definition some_or {A} (d : A) (o : option A) : A := match o with Some a => a | None => d end.
Lemma some_or_eq {A} (d : A) o : bool_decide (is_Some o) = true -> o = Some (some_or d o).
Proof. intros H%bool_decide_eq_true. by destruct o; [|destruct H]. Qed.

Definition double_hashed (k : bytes) : bool := match k with c1 :: c2 :: _ => (c1 =b hash) && (c2 =b hash) | _ => false end.

Lemma single_hash_check (m : gmap bytes bytes) : existsb double_hashed (map_to_list m).*1 = false -> single_hash m.
Proof.
  intros H n. destruct (m !! (hash :: hash :: n)) as [v|] eqn:E; [|done]. rewrite <- not_true_iff_false in H.
  destruct H. apply existsb_exists. exists (hash :: hash :: n). split; [|done]. apply list_elem_of_In, list_elem_of_fmap.
  exists (hash :: hash :: n, v). split; [done|]. by apply elem_of_map_to_list.
Qed.

Definition demo_args : gmap bytes bytes := some_or ∅ (json_object (demo_ref (bs "#a"))).

Lemma backrefs_exact_witness :
  match resolveBackrefs (MW := walk_twice) (demo_ref (bs "#a")) demo_prior with
  | Datatypes.inr out =>
      out = demo_ref (bs "#a") \/
      exists m', (forall k, m' !! k = replaced demo_args demo_prior k) /\ marshal_members m' = Some out
  | _ => True
  end.
Proof.
  pose proof (backrefs_exact (MW := walk_twice) (demo_ref (bs "#a")) demo_prior demo_args) as H.
  destruct (resolveBackrefs (MW := walk_twice) (demo_ref (bs "#a")) demo_prior) as [e|out]; [done|].
  destruct H as [_ [[_ H]|[_ H]]]; [discriminate| | |by left|by right].
  - apply some_or_eq. vm_compute. reflexivity.
  - apply single_hash_check. vm_compute. reflexivity.
Defined.

Lemma empty_createdIds_lost_witness :
  let p := NewProcessor (W := unit) in
  let calls := [mkInvocation (bs "Core/echo") (bs "{}") (bs "c0")] in
  WriteJSON (Process (MW := walk_once) p (mkRequest [CoreCapability] calls (Some ∅)) None [] tt).2 =
  WriteJSON (Process (MW := walk_once) p (mkRequest [CoreCapability] calls None) None [] tt).2.
Proof.
  apply (empty_createdIds_lost (MW := walk_once)). vm_compute. reflexivity.
Defined.

End RequestFacts.
